(* ===== verification/_CoqProject ===== *)
-Q . S2P
Prelude.v
RustStr.v
RustPath.v
Codec.v
Paths.v
Checksum.v
EngineError.v
Fs.v
FsFacts.v
Atomic.v
Meta.v
Layer.v
Walk.v
FsBase.v
Listing.v
FsEngine.v
Tidy.v
FsObject.v
FsDelete.v
FsList.v
FsBuckets.v
FsOpen.v
ReadOnly.v
Store.v
Refine.v
FsSamples.v
Locks.v
RustNum.v
Wire.v
ApiError.v
ApiChecksum.v
Service.v
ServiceFacts.v
ServiceSamples.v
Host.v
Config.v
Iam.v
Serve.v
Main.v
Conc.v
Rely.v
ConcStore.v
ConcPut.v
ConcBucket.v
ConcDetach.v
ConcFacts.v
ConcLocks.v
ConcReads.v
ConcSamples.v
Digests.v
TestKit.v
TestPaths.v
TestHost.v
TestConfig.v
TestChecksum.v
TestRun.v
TestEngine.v
TestListing.v
TestProps.v
TestMeta.v
TestAtomic.v
TestApi.v
TestService.v
