(* ===== verification/Prelude.v ===== *)
(** * aks3, verified: the storage engine, the S3 front end and the server

    aks3 is an S3 object store over one directory of one file system.  Four
    crates make it up: [engine] keeps buckets and objects on the disk, [api]
    answers the S3 operations by calling the engine through the trait
    [ObjectLayer], [iam] holds the root credentials, and [server] reads the
    settings and runs the others behind a socket.  This library models the
    program's own logic as executable functions and proves what it promises.

    ** Files

    The language and its libraries:
    - [Prelude]: bytes, [Result], the order of strings, shared lemmas and tactics.
    - [RustStr], [RustNum]: UTF-8 and the methods of [str]; [trim], splitting,
      decimal numbers, the recogniser of IP addresses.
    - [RustPath]: paths as sequences of components.
    - [Fs]: a file system with a volatile and a durable state, the system calls
      the engine makes, and programs as trees of calls, locks and closures on the
      blocking pool.  [run] executes one program by itself, and it returns, fails or
      is killed; the environment decides the fate of every call, so a theorem for
      every environment covers every failure and crash point.  The same trees are
      the threads of [Conc].
    - [FsFacts]: the weakest-precondition calculus all proofs about programs use,
      with a postcondition each for results, errors and crashes.
    - [Codec]: a concrete serialisation, for the witnesses only.

    The engine ([crates/engine/src]):
    - [Paths] ([paths.rs]), [Checksum] ([checksum.rs]), [EngineError]
      ([error.rs]), [Atomic] ([atomic.rs]), [Meta] ([meta.rs]), [Layer]
      ([layer.rs], the trait as a class), [Walk] ([walk.rs]).
    - [FsBase] (the pure parts of [fs_engine.rs]), [Listing] (the loop that cuts
      a page), [FsEngine] (the operations, one definition per method).
    - [Tidy] (every request answers and releases its locks), [FsObject],
      [FsDelete], [FsList], [FsBuckets], [FsOpen], [ReadOnly] (what each
      operation guarantees), [Store] (the invariant of the data directory) and
      [Refine] (the abstract store and the simulation).
    - [Locks]: the lock tables under interleaving and cancellation.
    - [Conc]: requests in parallel, as a pool of programs over one disk with
      failing calls, cancelled requests and calls left in flight; the order in
      which requests take locks, and that all are answered.
    - [Rely]: a rely-guarantee logic for programs of the pool, and its soundness.
    - [ConcStore] (the protocol: which entries a request may change with which
      locks, and its rules for the calls), [ConcPut], [ConcBucket] (every request
      keeps the protocol), [ConcFacts], [ConcLocks] and [ConcReads] (what follows for
      the pool: isolation, the locks requests work under, what reads see).
    - [ConcDetach]: calls that outlive their request, by a second judgement that
      needs no locks.
    - [ConcSamples]: a scheduler that plays interleavings, the witnesses, and four
      interleavings that go wrong.
    - [FsSamples]: a concrete data directory, the witnesses, and the theorems
      that show where the code falls short of its comments.

    The front end ([crates/api/src]):
    - [Wire]: what it takes from the crates [http] and [s3s].
    - [ApiError] ([error.rs]), [ApiChecksum] ([checksum.rs]), [Service]
      ([service.rs], the nine handlers in [Module Aks3]).
    - [ServiceFacts]: the contract the handlers need of a layer as a class, the
      engine's instance of it, and the handlers' theorems; [ServiceSamples] has
      their witnesses.

    The server ([crates/server/src], [crates/iam/src]): [Host] ([host.rs]),
    [Config] ([config.rs]), [Iam] ([iam/src/lib.rs]), [Serve] ([serve.rs]:
    starting, and the accept loop as a timed system), [Main] ([main.rs], with the
    shutdown signals and connection tasks of [serve.rs]: the process as a whole).

    The tests of the repository, translated like the rest of the code and run on the
    model: [TestKit] (assertions) and [TestRun] (a machine on which nothing fails, a
    temporary directory, and tests as programs that a failed assertion stops);
    [Digests] (MD5, SHA-1, SHA-256 and base64 from their standards, checked on
    published values, as the instance of the crates the tests run with); and, by
    source file, [TestPaths], [TestChecksum], [TestMeta], [TestAtomic] (with [walk.rs]
    and [error.rs]), [TestEngine], [TestListing] and [TestProps] ([fs_engine.rs]),
    [TestApi], [TestService], [TestHost] (with [main.rs] and [iam]), [TestConfig].

    ** What the theorems show

    - Naming: keys and paths are in bijection, distinct keys never share a path,
      no key reaches a reserved name, a bucket name is one plain component.
    - Crash safety: a commit replaces its destination whole or not at all; each
      operation changes the object it is about and nothing else, whatever fails and
      wherever the process dies.  A put that fails or dies leaves the old object or
      the new one or, when it overwrites, the old entry over the new bytes.  If every
      directory was on the disk before, what [commit], [put_object] and
      [create_bucket] have acknowledged survives a loss of power; so does a deletion
      in which no call fails.
    - The store: every request keeps the data directory well formed; without
      faults the engine simulates a map from buckets to keys to objects, each
      request answering as the map does, and a get returns what was put.
    - Listing: a page is a page of the reference listing, and a client that
      follows the tokens of [list_objects_v2] ends and gets every item once.
    - Locks: the tables implement locks by name, which are what the requests of
      [Conc] take; the lock of a name is never held twice except shared, there is
      no deadlock, the tables hold only what is in use, and every request takes the
      locks of its kind in one order, touches a bucket's tree only while it holds all
      of them, and releases what it took.
    - Concurrency, for every interleaving of any requests with any calls failing and
      any requests cancelled: the data directory is well formed at every moment, even
      when the calls a cancelled request had under way run on without its locks; a
      read reports what was there at a moment while it ran; and all requests are
      answered.  As long as no call outlives its request, an object or a bucket
      changes only under its lock, by a request for it, and a request that reports
      success did what it reports at a moment at which it held its lock.
    - Checksums: the hand-written CRCs are the catalogue ones, chunking does not
      matter, and no checksum a request asks for, in a header or in a trailer
      announced in lower case, goes unverified: the stream, the handler and the engine
      together either store a body that matched or leave every object as it was and
      answer [BadDigest] or [InvalidRequest].
    - Handlers: [Content-Range], lengths, timestamps, page budgets and counts
      stay in bounds; a [HEAD] agrees with a [GET]; contradictory aws-chunked
      framing is refused before anything is touched.
    - Server: a host names a bucket exactly when it sits under a configured
      domain, accepted domains never make that ambiguous, the environment
      overrides the file, and a secret is given only to its own access key; the
      server that starts is the one that was configured, with the TLS material and
      the drain window of the settings, and starting touches no object; asked to stop,
      from the first moment on, it stops within the grace period and one backoff, and
      one more for each failed accept that wins over the request.
    - Tests: the unit tests pass on the model, by computation, so the definitions
      answer as the program was seen to answer; the property tests pass on every
      input, which makes their naive models specifications: of ranges, of folding, of
      the start bound of a page, of keys and version ids, and of a manifest under any
      sequence of operations.
    - Shortcomings, each as a theorem about a concrete run: [open] does not sync
      the directories it makes, a commit trusts directories a failed one left
      unsynced, a put refused at its manifest has replaced the bytes, a
      cancelled wait may leave a lock entry behind, a trailer announced in
      capitals is ignored, an over-long key is not refused by every verb, and
      failing accepts can hold up a shutdown; and of interleavings: a put may fail
      because another key's delete prunes its directory, may be acknowledged into a
      directory that another put has not synced yet, and may be destroyed by the
      removal of its bucket that a cancelled request left running; and a put cancelled
      at the wrong moment may bring a deleted bucket back.

    ** Conventions and bounds

    Rust strings are the lists of their UTF-8 bytes, with [utf8] as the type's
    invariant; machine integers are [N] or [Z] with their wrapping, saturation
    and overflow checks written out.  Loops that are not structural carry fuel:
    the depth of a path for [create_dir_all], the pruning and the search for
    the deepest directory; the number of entries on the disk for the walk; the
    length of the file for the body stream; twenty digits for a [u64]; the items
    left for a polled stream.  Each is proved or evidently enough, and the
    theorems say that the operation returns, not only what holds if it does.
    Theorems about panics (a slice off a character boundary, a timestamp past
    the year 9999) show that they do not happen.

    Names are at most [name_max] bytes long, which is 255 or more, and paths as a
    whole [path_max]; a call on a longer one fails as the kernel's does,
    before anything is looked up for a path that is too long as a whole, and where
    the name is reached otherwise.  Lengths are those of absolute paths.  The data
    directory leaves 256 bytes for the staging area and the metadata of a bucket
    ([DataDir]), and a tree the kernel could not have named is not considered.  The
    abstract store of [Refine] is about keys whose path fits down to their files
    and keys whose path is too long as a whole; in between, the answer depends on
    which directories exist ([FsSamples.long_key_verbs_differ]).

    Crates enter as classes of operations with their documented laws: the hashes
    and base64 ([HashCrates], [Md5Crate]), [serde_json] ([Serde]), [http]
    ([HttpCrate]); every theorem that uses such a law has a witness with a
    concrete instance.

    ** Not modelled

    The sockets, the bytes of a TLS handshake and of an HTTP connection, and the
    logging: tokio's, rustls's, hyper's and tracing's; of a connection its task, and
    that it ends, are modelled.  Symbolic links and permissions of the file system.
    A recursive removal takes one snapshot of the tree and then unlinks entry by
    entry, where the call reads directories as it goes; a write reports its own
    failure, where a [tokio] file may report it at a later call.  The clock of the
    accept loop starts with the loop and counts the time it waits.
    The parsing and signing of HTTP requests, which is [s3s]'s.  Of the tests those
    that compare texts the model does not have (JSON, TOML, messages, debugging
    output), statuses and headers that [s3s] makes, bounds the compiler checks, two
    races that [Conc] covers in every interleaving, and two for their size; each file
    of tests says which, and the generators of the property tests, which the theorems
    about every input do without.  The theorems about
    one operation (its answers in every case, and what survives a loss of power) are
    about a request that runs by itself; in [Conc] a call that a cancelled request
    had handed to the blocking pool either has happened or will not, except where
    [detach] is said to hold, under which the answers, the lock order and that the
    data directory stays readable are shown, and no more can be:
    [ConcSamples.late_removal_destroys_object] is why. *)

From stdpp Require Export base gmap list strings sorting.
From Stdlib Require Import Strings.Byte.
From Stdlib Require Export NArith ZArith Lia.

(** ** Bytes

    A Rust [u8] is one of the 256 constructors of [Byte.byte]; its value is
    [u8 b].  Rust strings ([String], [&str], [OsStr] on Unix) are the list of
    their UTF-8 bytes. *)

Abbreviation byte := Byte.byte.
Abbreviation str := (list Byte.byte).

Declare Scope aks3_scope.
Delimit Scope aks3_scope with aks3.
Open Scope aks3_scope.

(** The value of a byte, as a number below 256. *)
Definition u8 (b : byte) : N := Byte.to_N b.

(** The byte a number truncates to, as an [as u8] cast does. *)
Definition as_u8 (n : N) : byte :=
  match Byte.of_N (n mod 256)%N with Some b => b | None => Byte.x00 end.

(** A literal: the bytes of an ASCII string. *)
Definition lit (s : string) : str := String.list_byte_of_string s.
Notation "'b#' s" := (lit s%string) (at level 1, format "'b#' s") : aks3_scope.

(** The byte literal [b'c'], given as its character. *)
Definition chr (s : string) : byte :=
  match lit s with c :: _ => c | [] => Byte.x00 end.
Notation "'c#' s" := (chr s%string) (at level 1, format "'c#' s") : aks3_scope.

#[global] Instance byte_eq_dec : EqDecision byte := Byte.byte_eq_dec.

Lemma u8_as_u8 b : as_u8 (u8 b) = b.
Proof. by destruct b. Qed.

Lemma u8_lt b : (u8 b < 256)%N.
Proof. by destruct b. Qed.

#[global] Instance u8_inj : Inj (=) (=) u8.
Proof. intros x y H. by rewrite <- (u8_as_u8 x), <- (u8_as_u8 y), H. Qed.

Lemma as_u8_u8 n : (n < 256)%N → u8 (as_u8 n) = n.
Proof.
  intros Hn. unfold as_u8, u8. rewrite N.mod_small by done.
  destruct (Byte.of_N n) as [b|] eqn:E.
  - by apply Byte.to_of_N.
  - apply Byte.of_N_None_iff in E. lia.
Qed.

#[global] Program Instance byte_countable : Countable byte :=
  inj_countable' u8 as_u8 u8_as_u8.

(** Exhaustive proof over one byte: decide the goal for each of the 256. *)
Ltac byte_cases b := destruct b; vm_compute; done.

(** ** Outcomes

    [Result<A, E>], with the constructors of the source. *)

Inductive result (A E : Type) : Type :=
  | Ok (a : A)
  | Err (e : E).
Arguments Ok {A E} a.
Arguments Err {A E} e.

Definition is_ok {A E} (r : result A E) : bool :=
  match r with Ok _ => true | Err _ => false end.

Definition ok {A E} (r : result A E) : option A :=
  match r with Ok a => Some a | Err _ => None end.

Definition ok_or {A E} (o : option A) (e : E) : result A E :=
  match o with Some a => Ok a | None => Err e end.

Definition map_err {A E F} (f : E → F) (r : result A E) : result A F :=
  match r with Ok a => Ok a | Err e => Err (f e) end.

#[global] Instance result_ret {E} : MRet (λ A, result A E) := λ A a, Ok a.
#[global] Instance result_bind {E} : MBind (λ A, result A E) := λ A B f r,
  match r with Ok a => f a | Err e => Err e end.

(** The [?] operator of the source on a [result]. *)
Notation "'let?' x ':=' r 'in' k" :=
  (match r with Ok x => k | Err e => Err e end)
  (at level 10, x pattern, r at level 100, k at level 200) : aks3_scope.

#[global] Instance result_eq_dec {A E} `{EqDecision A, EqDecision E} : EqDecision (result A E).
Proof. solve_decision. Defined.

(** ** The order of strings

    [Ord for str] compares the UTF-8 bytes lexicographically. *)

Fixpoint str_compare (a b : str) : comparison :=
  match a, b with
  | [], [] => Eq
  | [], _ :: _ => Lt
  | _ :: _, [] => Gt
  | x :: a', y :: b' =>
      match N.compare (u8 x) (u8 y) with Eq => str_compare a' b' | c => c end
  end.

Definition str_le (a b : str) : Prop := str_compare a b ≠ Gt.
Definition str_lt (a b : str) : Prop := str_compare a b = Lt.

Definition str_leb (a b : str) : bool :=
  match str_compare a b with Gt => false | _ => true end.

#[global] Instance str_le_dec : RelDecision str_le.
Proof. intros a b. unfold str_le. destruct (str_compare a b); first [left; done|right; congruence]. Defined.
#[global] Instance str_lt_dec : RelDecision str_lt.
Proof. intros a b. unfold str_lt. destruct (str_compare a b); first [left; done|right; congruence]. Defined.

Create HintDb strord.

Lemma str_compare_refl a : str_compare a a = Eq.
Proof. induction a as [|x a IH]; simpl; [done|]. by rewrite N.compare_refl. Qed.

Lemma str_compare_eq a b : str_compare a b = Eq ↔ a = b.
Proof.
  split; [|intros ->; apply str_compare_refl].
  revert b. induction a as [|x a IH]; intros [|y b]; simpl; try done.
  destruct (N.compare_spec (u8 x) (u8 y)) as [E| |]; try done.
  intros H. f_equal; [by apply (inj u8)|by apply IH].
Qed.

Lemma str_compare_antisym a b : str_compare b a = CompOpp (str_compare a b).
Proof.
  revert b. induction a as [|x a IH]; intros [|y b]; simpl; try done.
  rewrite (N.compare_antisym (u8 x) (u8 y)).
  destruct (N.compare (u8 x) (u8 y)); simpl; auto.
Qed.

Lemma str_lt_irrefl a : ¬ str_lt a a.
Proof. unfold str_lt. by rewrite str_compare_refl. Qed.

Lemma str_lt_trans a b c : str_lt a b → str_lt b c → str_lt a c.
Proof.
  unfold str_lt. revert b c.
  induction a as [|x a IH]; intros [|y b] [|z c]; simpl; try done.
  destruct (N.compare_spec (u8 x) (u8 y)) as [E|L|G]; try done.
  - rewrite E. destruct (N.compare (u8 y) (u8 z)); try done. apply IH.
  - destruct (N.compare_spec (u8 y) (u8 z)) as [E'|L'|G']; try done; intros _ _.
    + rewrite <- E'. apply N.compare_lt_iff in L. by rewrite L.
    + assert (u8 x < u8 z)%N as Hl by lia. apply N.compare_lt_iff in Hl. by rewrite Hl.
Qed.

Lemma str_le_lteq a b : str_le a b ↔ str_lt a b ∨ a = b.
Proof.
  unfold str_le, str_lt. rewrite <- (str_compare_eq a b).
  destruct (str_compare a b); naive_solver.
Qed.

Lemma str_lt_le a b : str_lt a b → str_le a b.
Proof. rewrite str_le_lteq. auto. Qed.

Lemma str_not_le a b : ¬ str_le a b ↔ str_lt b a.
Proof.
  unfold str_le, str_lt. rewrite (str_compare_antisym a b).
  destruct (str_compare a b); simpl; naive_solver.
Qed.

Lemma str_not_lt a b : ¬ str_lt a b ↔ str_le b a.
Proof.
  unfold str_le, str_lt. rewrite (str_compare_antisym a b).
  destruct (str_compare a b); simpl; naive_solver.
Qed.

Lemma str_le_refl a : str_le a a.
Proof. unfold str_le. by rewrite str_compare_refl. Qed.

Lemma str_le_lt_trans a b c : str_le a b → str_lt b c → str_lt a c.
Proof. rewrite str_le_lteq. intros [?| ->]; eauto using str_lt_trans. Qed.

Lemma str_lt_le_trans a b c : str_lt a b → str_le b c → str_lt a c.
Proof. rewrite str_le_lteq. intros ? [?| <-]; eauto using str_lt_trans. Qed.

#[global] Instance str_le_preorder : PreOrder str_le.
Proof.
  split; [intros a; apply str_le_refl|].
  intros a b c Hab Hbc. apply str_le_lteq in Hbc as [?| <-]; [|done].
  eauto using str_lt_le, str_le_lt_trans.
Qed.

#[global] Instance str_le_antisymm : AntiSymm (=) str_le.
Proof.
  intros a b Hab Hba. apply str_le_lteq in Hab as [Hlt|]; [|done].
  exfalso. by apply (str_not_lt a b) in Hba.
Qed.

#[global] Instance str_le_total : Total str_le.
Proof.
  intros a b. destruct (decide (str_le a b)); [by left|right].
  by apply str_lt_le, str_not_le.
Qed.

#[export] Hint Resolve str_lt_trans str_lt_le str_le_refl str_le_lt_trans str_lt_le_trans : strord.

Lemma str_leb_le a b : str_leb a b = true ↔ str_le a b.
Proof. unfold str_leb, str_le. destruct (str_compare a b); naive_solver. Qed.

(** ** Shared list lemmas *)

Lemma prefix_app_split {A} (p s : list A) : p `prefix_of` s → s = p ++ drop (length p) s.
Proof. intros [t ->]. by rewrite drop_app_length. Qed.

Lemma Forall_bool {A} (f : A → bool) l : Forall (λ x, f x = true) l ↔ forallb f l = true.
Proof.
  rewrite forallb_forall, Forall_forall. setoid_rewrite list_elem_of_In. done.
Qed.

Lemma prefix_snoc {A} (p q : list A) x : p `prefix_of` q ++ [x] → p = q ++ [x] ∨ p `prefix_of` q.
Proof.
  intros [t Ht]. destruct t as [|y t _] using rev_ind.
  - left. by rewrite app_nil_r in Ht.
  - right. rewrite app_assoc in Ht. apply app_inj_tail in Ht as [-> _]. by exists t.
Qed.

(** ** Sorting

    [slice::sort_by] and [slice::sort_unstable]: a stable insertion sort by a
    boolean order. *)

Section sorting.
Context {A : Type} (leb : A → A → bool).

Fixpoint insert_by (x : A) (l : list A) : list A :=
  match l with
  | [] => [x]
  | y :: l' => if leb x y then x :: l else y :: insert_by x l'
  end.

Definition sort_by (l : list A) : list A := foldr insert_by [] l.

Lemma insert_by_perm x l : insert_by x l ≡ₚ x :: l.
Proof.
  induction l as [|y l IH]; simpl; [done|]. destruct (leb x y); [done|].
  rewrite IH. apply Permutation_swap.
Qed.

Lemma sort_by_perm l : sort_by l ≡ₚ l.
Proof. induction l as [|x l IH]; simpl; [done|]. by rewrite insert_by_perm, IH. Qed.

Context (R : relation A) (leb_R : ∀ x y, leb x y = true ↔ R x y) `{!Total R, !Transitive R}.

Lemma insert_by_sorted x l : StronglySorted R l → StronglySorted R (insert_by x l).
Proof.
  induction l as [|y l IH]; simpl; intros Hs; [by repeat constructor|].
  apply StronglySorted_inv in Hs as [Hs Hy]. destruct (leb x y) eqn:Exy.
  - apply leb_R in Exy. constructor; [by constructor|]. constructor; [done|].
    eapply Forall_impl; [exact Hy|]. intros z Hz. by etrans.
  - constructor; [by apply IH|]. rewrite insert_by_perm. constructor; [|done].
    destruct (total R x y) as [Hxy|]; [|done]. apply leb_R in Hxy. congruence.
Qed.

Lemma sort_by_sorted l : StronglySorted R (sort_by l).
Proof. induction l as [|x l IH]; simpl; [constructor|]. by apply insert_by_sorted. Qed.
End sorting.

(** Sorting by a key is sorting the keys. *)
Lemma insert_by_fmap {A B} (leb : B → B → bool) (f : A → B) x l :
  f <$> insert_by (λ a b, leb (f a) (f b)) x l = insert_by leb (f x) (f <$> l).
Proof. induction l as [|y l IH]; [done|]. cbn. destruct (leb (f x) (f y)); [done|]. cbn. by rewrite <- IH. Qed.

Lemma sort_by_fmap {A B} (leb : B → B → bool) (f : A → B) l :
  f <$> sort_by (λ a b, leb (f a) (f b)) l = sort_by leb (f <$> l).
Proof.
  induction l as [|x l IH]; [done|]. unfold sort_by in *. cbn [foldr]. by rewrite insert_by_fmap, IH.
Qed.

(** [Vec<String>::sort_unstable]. *)
Definition sort_strings (l : list str) : list str := sort_by str_leb l.

Lemma sort_strings_perm l : sort_strings l ≡ₚ l.
Proof. apply sort_by_perm. Qed.

Lemma sort_strings_sorted l : StronglySorted str_le (sort_strings l).
Proof. apply sort_by_sorted; [apply str_leb_le|apply _..]. Qed.

Lemma sort_strings_strict l : NoDup l → StronglySorted str_lt (sort_strings l).
Proof.
  intros Hnd. rewrite <- (sort_strings_perm l) in Hnd. pose proof (sort_strings_sorted l) as Hs.
  induction Hs as [|x k Hk IH Hx]; [constructor|]. apply NoDup_cons in Hnd as [Hin Hnd].
  constructor; [by apply IH|]. rewrite Forall_forall in *. intros y Hy.
  specialize (Hx y Hy). apply str_le_lteq in Hx as [|<-]; done.
Qed.

(** A prefix of [b] is a prefix of everything between it and [b]. *)
Lemma str_prefix_le p s : p `prefix_of` s → str_le p s.
Proof.
  intros [t ->]. unfold str_le. induction p as [|x p IH]; simpl; [by destruct t|].
  by rewrite N.compare_refl.
Qed.

Lemma str_prefix_between c a b : c `prefix_of` b → str_le c a → str_le a b → c `prefix_of` a.
Proof.
  intros [t ->]. unfold str_le. revert a. induction c as [|x c IH]; intros a; [intros _ _; apply prefix_nil|].
  destruct a as [|y a]; simpl; [done|]. rewrite (N.compare_antisym (u8 x) (u8 y)).
  destruct (N.compare_spec (u8 x) (u8 y)) as [Heq|?|?]; simpl; [|done|done].
  apply (inj u8) in Heq as ->. intros H1 H2. apply prefix_cons. by apply IH.
Qed.
