(* ===== verification/RustStr.v ===== *)
(** * Rust strings: UTF-8 and the [str] methods the program calls

    A [&str] is the list of its UTF-8 bytes.  This file models, from the
    documented behaviour of the Rust standard library, the validity check of
    [String::from_utf8], the iteration of [str::chars], and the searching,
    splitting and comparing methods that the engine, the API layer and the
    server use.  [utf8 s] is the invariant of the type [str]. *)

From S2P Require Import Prelude.

(** ** UTF-8 *)

(** A continuation byte, [10xxxxxx]. *)
Definition is_cont (b : byte) : bool := (0x80 <=? u8 b)%N && (u8 b <=? 0xBF)%N.

Definition in_range (lo hi : N) (b : byte) : bool := (lo <=? u8 b)%N && (u8 b <=? hi)%N.

(** The second byte allowed after a three-byte lead: no overlong form and no
    surrogate. *)
Definition second3 (b0 b1 : byte) : bool :=
  if (u8 b0 =? 0xE0)%N then in_range 0xA0 0xBF b1
  else if (u8 b0 =? 0xED)%N then in_range 0x80 0x9F b1
  else is_cont b1.

(** The second byte allowed after a four-byte lead: no overlong form and
    nothing above U+10FFFF. *)
Definition second4 (b0 b1 : byte) : bool :=
  if (u8 b0 =? 0xF0)%N then in_range 0x90 0xBF b1
  else if (u8 b0 =? 0xF4)%N then in_range 0x80 0x8F b1
  else is_cont b1.

(** Decode the first character: its scalar value and the remaining bytes, or
    [None] if the bytes do not start with a well-formed sequence. *)
Definition decode_char (s : str) : option (N * str) :=
  match s with
  | [] => None
  | b0 :: s1 =>
      if (u8 b0 <? 0x80)%N then Some (u8 b0, s1)
      else if in_range 0xC2 0xDF b0 then
        match s1 with
        | b1 :: s2 =>
            if is_cont b1 then Some ((u8 b0 - 0xC0) * 64 + (u8 b1 - 0x80), s2)%N else None
        | _ => None
        end
      else if in_range 0xE0 0xEF b0 then
        match s1 with
        | b1 :: b2 :: s3 =>
            if second3 b0 b1 && is_cont b2
            then Some ((u8 b0 - 0xE0) * 4096 + (u8 b1 - 0x80) * 64 + (u8 b2 - 0x80), s3)%N
            else None
        | _ => None
        end
      else if in_range 0xF0 0xF4 b0 then
        match s1 with
        | b1 :: b2 :: b3 :: s4 =>
            if second4 b0 b1 && is_cont b2 && is_cont b3
            then Some ((u8 b0 - 0xF0) * 262144 + (u8 b1 - 0x80) * 4096
                       + (u8 b2 - 0x80) * 64 + (u8 b3 - 0x80), s4)%N
            else None
        | _ => None
        end
      else None
  end.

#[global] Arguments decode_char : simpl never.

(** [char::encode_utf8]. *)
Definition encode_utf8 (c : N) : str :=
  if (c <? 0x80)%N then [as_u8 c]
  else if (c <? 0x800)%N then [as_u8 (0xC0 + c / 64); as_u8 (0x80 + c mod 64)]%N
  else if (c <? 0x10000)%N then
    [as_u8 (0xE0 + c / 4096); as_u8 (0x80 + (c / 64) mod 64); as_u8 (0x80 + c mod 64)]%N
  else
    [as_u8 (0xF0 + c / 262144); as_u8 (0x80 + (c / 4096) mod 64);
     as_u8 (0x80 + (c / 64) mod 64); as_u8 (0x80 + c mod 64)]%N.

(** Unicode scalar values, what a Rust [char] ranges over. *)
Definition is_char (c : N) : Prop := (c < 0xD800)%N ∨ (0xE000 <= c < 0x110000)%N.

Fixpoint chars_fuel (n : nat) (s : str) : option (list N) :=
  match s with
  | [] => Some []
  | _ :: _ =>
      match n with
      | O => None
      | S n' =>
          match decode_char s with
          | Some (c, s') => (λ cs, c :: cs) <$> chars_fuel n' s'
          | None => None
          end
      end
  end.

(** [str::chars], or [None] on bytes that are not UTF-8.  Each character takes
    at least one byte, so the length of the string is enough fuel. *)
Definition chars (s : str) : option (list N) := chars_fuel (length s) s.

(** [String] from an iterator of characters. *)
Definition of_chars (cs : list N) : str := concat (encode_utf8 <$> cs).

Definition utf8b (s : str) : bool := match chars s with Some _ => true | None => false end.

(** The invariant of the type [str]. *)
Definition utf8 (s : str) : Prop := utf8b s = true.

(** [String::from_utf8]. *)
Definition from_utf8 (s : str) : option str := if utf8b s then Some s else None.

#[global] Instance utf8_dec s : Decision (utf8 s).
Proof. unfold utf8. apply _. Defined.

(** ** Searching, splitting and comparing *)

Fixpoint starts_with (s p : str) : bool :=
  match p, s with
  | [], _ => true
  | x :: p', y :: s' => bool_decide (x = y) && starts_with s' p'
  | _ :: _, [] => false
  end.

Definition ends_with (s p : str) : bool := starts_with (reverse s) (reverse p).

Definition strip_prefix (s p : str) : option str :=
  if starts_with s p then Some (drop (length p) s) else None.

Definition strip_suffix (s p : str) : option str :=
  if ends_with s p then Some (take (length s - length p) s) else None.

(** [str::find]: the offset of the first occurrence of [p]. *)
Fixpoint find (s p : str) : option nat :=
  if starts_with s p then Some 0
  else match s with [] => None | _ :: s' => S <$> find s' p end.

Definition contains (s p : str) : bool := match find s p with Some _ => true | None => false end.

(** [str::split] on a one-byte separator: always at least one piece. *)
Fixpoint split (c : byte) (s : str) : list str :=
  match s with
  | [] => [[]]
  | x :: s' =>
      if bool_decide (x = c) then [] :: split c s'
      else match split c s' with
           | [] => [[x]]
           | p :: ps => (x :: p) :: ps
           end
  end.

(** [slice::join]. *)
Fixpoint join (sep : str) (ps : list str) : str :=
  match ps with
  | [] => []
  | [p] => p
  | p :: ps' => p ++ sep ++ join sep ps'
  end.

Definition to_ascii_lowercase_byte (b : byte) : byte :=
  if in_range 0x41 0x5A b then as_u8 (u8 b + 32) else b.

Definition to_ascii_lowercase (s : str) : str := to_ascii_lowercase_byte <$> s.

Definition eq_ignore_ascii_case (a b : str) : bool :=
  bool_decide (to_ascii_lowercase a = to_ascii_lowercase b).

Definition is_ascii_digit (b : byte) : bool := in_range 0x30 0x39 b.
Definition is_ascii_lowercase (b : byte) : bool := in_range 0x61 0x7A b.
Definition is_ascii_uppercase (b : byte) : bool := in_range 0x41 0x5A b.
Definition is_ascii_alphanumeric (b : byte) : bool :=
  is_ascii_digit b || is_ascii_lowercase b || is_ascii_uppercase b.

(** [str::is_char_boundary]: the ends, and any offset that does not hold a
    continuation byte. *)
Definition is_char_boundary (s : str) (i : nat) : bool :=
  match s !! i with
  | Some b => negb (is_cont b)
  | None => bool_decide (i = length s)
  end.

(** [&s[i..]] and [&s[..i]]: [None] stands for the panic off a boundary. *)
Definition slice_from (s : str) (i : nat) : option str :=
  if is_char_boundary s i then Some (drop i s) else None.
Definition slice_to (s : str) (i : nat) : option str :=
  if is_char_boundary s i then Some (take i s) else None.

(** ** UTF-8 facts *)

Section utf8_facts.
#[local] Ltac Zify.zify_post_hook ::= Z.to_euclidean_division_equations.

Lemma in_range_spec lo hi b : in_range lo hi b = true ↔ (lo <= u8 b <= hi)%N.
Proof. unfold in_range. by rewrite andb_true_iff, !N.leb_le. Qed.

Lemma is_cont_spec b : is_cont b = true ↔ (0x80 <= u8 b <= 0xBF)%N.
Proof. apply in_range_spec. Qed.

Lemma second3_spec x y : second3 x y = true →
  (0x80 <= u8 y <= 0xBF)%N ∧ (u8 x = 0xE0 → 0xA0 <= u8 y)%N ∧ (u8 x = 0xED → u8 y <= 0x9F)%N.
Proof.
  unfold second3. destruct (N.eqb_spec (u8 x) 0xE0), (N.eqb_spec (u8 x) 0xED);
    rewrite ?is_cont_spec, ?in_range_spec; lia.
Qed.

Lemma second4_spec x y : second4 x y = true →
  (0x80 <= u8 y <= 0xBF)%N ∧ (u8 x = 0xF0 → 0x90 <= u8 y)%N ∧ (u8 x = 0xF4 → u8 y <= 0x8F)%N.
Proof.
  unfold second4. destruct (N.eqb_spec (u8 x) 0xF0), (N.eqb_spec (u8 x) 0xF4);
    rewrite ?is_cont_spec, ?in_range_spec; lia.
Qed.

#[local] Ltac pin_byte b :=
  match goal with
  | |- context [as_u8 ?e] =>
      replace (as_u8 e) with b; [|rewrite <- (u8_as_u8 b); f_equal; lia]
  end.

Lemma encode_utf8_2 x y c :
  (0xC2 <= u8 x <= 0xDF)%N → (0x80 <= u8 y <= 0xBF)%N →
  c = ((u8 x - 0xC0) * 64 + (u8 y - 0x80))%N → encode_utf8 c = [x; y] ∧ is_char c.
Proof.
  intros Hx Hy Hc. unfold encode_utf8, is_char.
  destruct (N.ltb_spec c 0x80), (N.ltb_spec c 0x800); try lia.
  pin_byte x. pin_byte y. split; [done|lia].
Qed.

Lemma encode_utf8_3 x y z c :
  (0xE0 <= u8 x <= 0xEF)%N → (0x80 <= u8 y <= 0xBF)%N → (0x80 <= u8 z <= 0xBF)%N →
  (u8 x = 0xE0 → 0xA0 <= u8 y)%N → (u8 x = 0xED → u8 y <= 0x9F)%N →
  c = ((u8 x - 0xE0) * 4096 + (u8 y - 0x80) * 64 + (u8 z - 0x80))%N →
  encode_utf8 c = [x; y; z] ∧ is_char c.
Proof.
  intros Hx Hy Hz H1 H2 Hc. unfold encode_utf8, is_char.
  destruct (N.ltb_spec c 0x80), (N.ltb_spec c 0x800), (N.ltb_spec c 0x10000); try lia.
  pin_byte x. pin_byte y. pin_byte z. split; [done|lia].
Qed.

Lemma encode_utf8_4 x y z t c :
  (0xF0 <= u8 x <= 0xF4)%N → (0x80 <= u8 y <= 0xBF)%N → (0x80 <= u8 z <= 0xBF)%N →
  (0x80 <= u8 t <= 0xBF)%N →
  (u8 x = 0xF0 → 0x90 <= u8 y)%N → (u8 x = 0xF4 → u8 y <= 0x8F)%N →
  c = ((u8 x - 0xF0) * 262144 + (u8 y - 0x80) * 4096 + (u8 z - 0x80) * 64 + (u8 t - 0x80))%N →
  encode_utf8 c = [x; y; z; t] ∧ is_char c.
Proof.
  intros Hx Hy Hz Ht H1 H2 Hc. unfold encode_utf8, is_char.
  destruct (N.ltb_spec c 0x80), (N.ltb_spec c 0x800), (N.ltb_spec c 0x10000); try lia.
  pin_byte x. pin_byte y. pin_byte z. pin_byte t. split; [done|lia].
Qed.

(** Decoding consumes exactly the encoding of the character it returns. *)
Lemma decode_char_sound s c s' :
  decode_char s = Some (c, s') → s = encode_utf8 c ++ s' ∧ is_char c.
Proof.
  destruct s as [|x s1]; [done|]. unfold decode_char.
  destruct (N.ltb_spec (u8 x) 0x80) as [Hlt|Hge].
  { intros [= <- <-]. unfold encode_utf8, is_char.
    destruct (N.ltb_spec (u8 x) 0x80); [|lia]. rewrite u8_as_u8. split; [done|lia]. }
  destruct (in_range 0xC2 0xDF x) eqn:E2.
  { destruct s1 as [|y s2]; [done|]. destruct (is_cont y) eqn:Ey; [|done].
    intros [= <- <-]. apply in_range_spec in E2. apply is_cont_spec in Ey.
    edestruct (encode_utf8_2 x y) as [-> ?]; [lia|lia|reflexivity|done]. }
  destruct (in_range 0xE0 0xEF x) eqn:E3.
  { destruct s1 as [|y [|z s3]]; [done..|].
    destruct (second3 x y) eqn:Ey, (is_cont z) eqn:Ez; try done.
    intros [= <- <-]. apply in_range_spec in E3. apply is_cont_spec in Ez.
    apply second3_spec in Ey as (? & ? & ?).
    edestruct (encode_utf8_3 x y z) as [-> ?]; [..|reflexivity|done]; done. }
  destruct (in_range 0xF0 0xF4 x) eqn:E4; [|done].
  destruct s1 as [|y [|z [|t s4]]]; [done..|].
  destruct (second4 x y) eqn:Ey, (is_cont z) eqn:Ez, (is_cont t) eqn:Et; try done.
  intros [= <- <-]. apply in_range_spec in E4. apply is_cont_spec in Ez, Et.
  apply second4_spec in Ey as (? & ? & ?).
  edestruct (encode_utf8_4 x y z t) as [-> ?]; [..|reflexivity|done]; done.
Qed.

#[local] Ltac Zify.zify_post_hook ::= idtac.
#[local] Ltac decide_tests :=
  repeat match goal with
  | |- context [(?a <=? ?b)%N] =>
      (replace (a <=? b)%N with true by (symmetry; apply N.leb_le; lia)) ||
      (replace (a <=? b)%N with false by (symmetry; apply N.leb_gt; lia)) ||
      destruct (N.leb_spec a b); try lia
  | |- context [(?a <? ?b)%N] =>
      (replace (a <? b)%N with true by (symmetry; apply N.ltb_lt; lia)) ||
      (replace (a <? b)%N with false by (symmetry; apply N.ltb_ge; lia))
  | |- context [(?a =? ?b)%N] => destruct (N.eqb_spec a b)
  end.

(** Every scalar value decodes back from its encoding. *)
Lemma decode_char_complete c s :
  is_char c → decode_char (encode_utf8 c ++ s) = Some (c, s).
Proof.
  intros Hc. unfold encode_utf8, is_char in *.
  pose proof (N.div_mod c 64 ltac:(done)) as H0. pose proof (N.mod_lt c 64 ltac:(done)) as L0.
  pose proof (N.div_mod (c / 64) 64 ltac:(done)) as H1.
  pose proof (N.mod_lt (c / 64) 64 ltac:(done)) as L1.
  pose proof (N.div_mod (c / 64 / 64) 64 ltac:(done)) as H2.
  pose proof (N.mod_lt (c / 64 / 64) 64 ltac:(done)) as L2.
  rewrite N.Div0.div_div in H1. rewrite (N.Div0.div_div c 64 64) in H2, L2.
  change (64 * 64)%N with 4096%N in *. rewrite (N.Div0.div_div c 4096 64) in H2.
  change (4096 * 64)%N with 262144%N in *.
  revert H0 L0 H1 L1 H2 L2.
  generalize (c / 64)%N (c mod 64)%N ((c / 64) mod 64)%N (c / 4096)%N
    ((c / 4096) mod 64)%N (c / 262144)%N.
  intros q1 r0 r1 q2 r2 q3 H0 L0 H1 L1 H2 L2.
  destruct (N.ltb_spec c 0x80); [|destruct (N.ltb_spec c 0x800); [|destruct (N.ltb_spec c 0x10000)]];
    cbn [app]; unfold decode_char, in_range, second3, second4, is_cont, in_range;
    rewrite ?as_u8_u8 by lia; decide_tests; cbn [andb]; do 2 f_equal; lia.
Qed.

#[local] Ltac Zify.zify_post_hook ::= Z.to_euclidean_division_equations.

Lemma encode_utf8_non_ascii c b :
  is_char c → (0x80 <= c)%N → b ∈ encode_utf8 c → (0x80 <= u8 b)%N.
Proof.
  intros Hc Hge. unfold encode_utf8, is_char in *.
  destruct (N.ltb_spec c 0x80); [lia|].
  destruct (N.ltb_spec c 0x800); [|destruct (N.ltb_spec c 0x10000)];
    rewrite !elem_of_cons, elem_of_nil; intros Hb;
    destruct_or? Hb; subst; try done; rewrite as_u8_u8; lia.
Qed.

Lemma encode_utf8_head c : is_char c →
  ∃ b s, encode_utf8 c = b :: s ∧ is_cont b = false.
Proof.
  intros Hc. unfold encode_utf8, is_char, is_cont in *.
  destruct (N.ltb_spec c 0x80); [|destruct (N.ltb_spec c 0x800); [|destruct (N.ltb_spec c 0x10000)]];
    do 2 eexists; (split; [reflexivity|]); rewrite as_u8_u8 by lia;
    apply andb_false_iff; rewrite !N.leb_gt; lia.
Qed.

Lemma cont_byte n : (n < 64)%N → is_cont (as_u8 (0x80 + n)) = true.
Proof. intros Hn. apply is_cont_spec. rewrite as_u8_u8 by lia. lia. Qed.

Lemma encode_utf8_tail c : Forall (λ b, is_cont b = true) (tail (encode_utf8 c)).
Proof.
  assert (∀ x, is_cont (as_u8 (0x80 + x mod 64)) = true) as H.
  { intros x. apply cont_byte, N.mod_lt. done. }
  unfold encode_utf8. repeat case_match; repeat constructor; apply H.
Qed.
End utf8_facts.

Lemma encode_utf8_ascii c : (c < 0x80)%N → encode_utf8 c = [as_u8 c].
Proof. intros H. unfold encode_utf8. by destruct (N.ltb_spec c 0x80); [|lia]. Qed.

Lemma encode_utf8_length c : 1 ≤ length (encode_utf8 c).
Proof. unfold encode_utf8. repeat case_match; simpl; lia. Qed.

Lemma decode_char_nil s c s' : decode_char s = Some (c, s') → length s' < length s.
Proof.
  intros H. apply decode_char_sound in H as [-> _].
  rewrite length_app. pose proof (encode_utf8_length c). lia.
Qed.

Lemma chars_fuel_sound n s cs :
  chars_fuel n s = Some cs → s = of_chars cs ∧ Forall is_char cs.
Proof.
  revert s cs. induction n as [|n IH]; intros [|x s] cs; simpl.
  - intros [= <-]. done.
  - done.
  - intros [= <-]. done.
  - destruct (decode_char (x :: s)) as [[c s']|] eqn:E; [|done].
    apply decode_char_sound in E as [-> Hc].
    destruct (chars_fuel n s') as [cs'|] eqn:E; [|done]. intros [= <-].
    apply IH in E as [-> Hcs]. split; [done|by constructor].
Qed.

Lemma of_chars_cons c cs : of_chars (c :: cs) = encode_utf8 c ++ of_chars cs.
Proof. done. Qed.

Lemma chars_fuel_complete n cs :
  Forall is_char cs → length (of_chars cs) ≤ n → chars_fuel n (of_chars cs) = Some cs.
Proof.
  revert cs. induction n as [|n IH]; intros cs Hcs Hn.
  - destruct cs as [|c cs]; [done|]. unfold of_chars in Hn. simpl in Hn.
    rewrite length_app in Hn. pose proof (encode_utf8_length c). lia.
  - destruct cs as [|c cs]; [done|]. apply Forall_cons in Hcs as [Hc Hcs].
    rewrite of_chars_cons in *. rewrite length_app in Hn.
    pose proof (encode_utf8_length c).
    pose proof (decode_char_complete c (of_chars cs) Hc) as Hd.
    destruct (encode_utf8 c ++ of_chars cs) as [|x s]; [done|].
    cbn. rewrite Hd. by rewrite IH by (done || lia).
Qed.

(** [chars] and [of_chars] are inverse on sequences of scalar values. *)
Lemma chars_spec s cs : chars s = Some cs ↔ s = of_chars cs ∧ Forall is_char cs.
Proof.
  split; [apply chars_fuel_sound|].
  intros [-> H]. by apply chars_fuel_complete.
Qed.

Lemma utf8_chars s : utf8 s ↔ ∃ cs, s = of_chars cs ∧ Forall is_char cs.
Proof.
  unfold utf8, utf8b. setoid_rewrite <- chars_spec.
  destruct (chars s); naive_solver.
Qed.

Lemma of_chars_app cs cs' : of_chars (cs ++ cs') = of_chars cs ++ of_chars cs'.
Proof. unfold of_chars. by rewrite fmap_app, concat_app. Qed.

Lemma utf8_nil : utf8 [].
Proof. done. Qed.

Lemma utf8_app a b : utf8 a → utf8 b → utf8 (a ++ b).
Proof.
  rewrite !utf8_chars. intros (cs & -> & Hcs) (cs' & -> & Hcs').
  exists (cs ++ cs'). by rewrite of_chars_app, Forall_app.
Qed.

(** UTF-8 is a prefix code: what follows a valid prefix of a valid string is
    itself valid. *)
Lemma utf8_app_cancel a b : utf8 a → utf8 (a ++ b) → utf8 b.
Proof.
  rewrite (utf8_chars a). intros (cs & -> & Hcs).
  induction Hcs as [|c cs Hc Hcs IH]; [done|].
  rewrite (utf8_chars (_ ++ b)). intros (ds & Heq & Hds). apply IH.
  unfold of_chars in Heq. simpl in Heq. rewrite <- app_assoc in Heq.
  destruct ds as [|d ds].
  { apply (f_equal length) in Heq. simpl in Heq. rewrite length_app in Heq.
    pose proof (encode_utf8_length c). lia. }
  apply Forall_cons in Hds as [Hd Hds]. simpl in Heq.
  apply (f_equal decode_char) in Heq. rewrite !decode_char_complete in Heq by done.
  injection Heq as _ Heq. apply utf8_chars. by exists ds.
Qed.

Lemma utf8_prefix p s : utf8 p → utf8 s → p `prefix_of` s → utf8 (drop (length p) s).
Proof. intros Hp Hs [t ->]. rewrite drop_app_length. by apply utf8_app_cancel with p. Qed.

Lemma utf8_head_not_cont b s : utf8 (b :: s) → is_cont b = false.
Proof.
  rewrite utf8_chars. intros ([|c cs] & Heq & Hcs); [done|].
  apply Forall_cons in Hcs as [Hc _].
  destruct (encode_utf8_head c Hc) as (b' & s' & E & ?).
  unfold of_chars in Heq. simpl in Heq. rewrite E in Heq. by injection Heq as -> _.
Qed.

(** What comes before a byte that starts a character is whole characters. *)
Lemma utf8_before a b s : utf8 (a ++ b :: s) → is_cont b = false → utf8 a.
Proof.
  rewrite utf8_chars. intros (cs & Heq & Hcs) Hb. revert a Heq.
  induction Hcs as [|c cs Hc Hcs IH]; intros a Heq; [by destruct a|].
  rewrite of_chars_cons in Heq. destruct a as [|x a]; [apply utf8_nil|].
  assert (utf8 (encode_utf8 c)) as H8.
  { apply utf8_chars. exists [c]. split; [by rewrite of_chars_cons, app_nil_r|by apply Forall_singleton]. }
  apply app_eq_inv in Heq as [(k & Hk & Heq)|(k & Hk & Heq)].
  - rewrite Hk. apply utf8_app; [done|by apply IH].
  - destruct k as [|y k]; [rewrite app_nil_r in Hk; by rewrite <- Hk|].
    exfalso. pose proof (encode_utf8_tail c) as Ht. rewrite Hk in Ht. simpl in Ht.
    injection Heq as <- _. apply Forall_app in Ht as [_ Ht]. apply Forall_cons in Ht as [Ht _].
    congruence.
Qed.

(** A valid prefix of a valid string ends on a character boundary. *)
Lemma utf8_prefix_boundary p s :
  utf8 p → utf8 (p ++ s) → is_char_boundary (p ++ s) (length p) = true.
Proof.
  intros Hp Hs. apply utf8_app_cancel in Hs; [|done]. unfold is_char_boundary.
  rewrite lookup_app_r, Nat.sub_diag by lia. destruct s as [|b s]; simpl.
  - apply bool_decide_eq_true. by rewrite app_nil_r.
  - by rewrite (utf8_head_not_cont b s).
Qed.

(** A string of ASCII bytes is UTF-8. *)
Lemma utf8_ascii s : Forall (λ b, (u8 b < 0x80)%N) s → utf8 s.
Proof.
  intros H. apply utf8_chars. exists (u8 <$> s). split.
  - induction H as [|b s Hb Hs IH]; [done|]. unfold of_chars in *. simpl.
    rewrite encode_utf8_ascii by done. simpl. rewrite u8_as_u8. by f_equal.
  - apply Forall_fmap. eapply Forall_impl; [done|]. intros b Hb. simpl in *.
    unfold is_char. lia.
Qed.

(** Bytewise and characterwise rewriting agree when only ASCII is rewritten. *)
Lemma flat_map_chars (f : byte → str) cs :
  Forall is_char cs →
  (∀ b, (0x80 <= u8 b)%N → f b = [b]) →
  concat ((λ c, if (c <? 0x80)%N then f (as_u8 c) else encode_utf8 c) <$> cs)
  = concat (f <$> of_chars cs).
Proof.
  intros Hcs Hf. induction Hcs as [|c cs Hc Hcs IH]; [done|].
  rewrite of_chars_cons, fmap_app, concat_app, <- IH, fmap_cons. cbn [concat]. f_equal.
  destruct (N.ltb_spec c 0x80).
  - rewrite encode_utf8_ascii by done. simpl. by rewrite app_nil_r.
  - assert (∀ b, b ∈ encode_utf8 c → f b = [b]) as Hfc.
    { intros b Hb. apply Hf. by eapply encode_utf8_non_ascii. }
    clear -Hfc. induction (encode_utf8 c) as [|b s IH]; [done|].
    rewrite fmap_cons. cbn [concat].
    rewrite Hfc by set_solver. simpl. f_equal. apply IH. set_solver.
Qed.

(** ** Facts about searching and splitting *)

Lemma starts_with_spec s p : starts_with s p = true ↔ p `prefix_of` s.
Proof.
  revert s. induction p as [|x p IH]; intros [|y s]; simpl.
  - split; [|done]. intros _. apply prefix_nil.
  - split; [|done]. intros _. apply prefix_nil.
  - split; [done|]. intros H. by apply prefix_nil_not in H.
  - rewrite andb_true_iff, bool_decide_eq_true, IH. split.
    + intros [-> H]. by apply prefix_cons.
    + intros H. split; [by eapply prefix_cons_inv_1|by eapply prefix_cons_inv_2].
Qed.

Lemma starts_with_app p s : starts_with (p ++ s) p = true.
Proof. apply starts_with_spec. by apply prefix_app_r. Qed.

Lemma ends_with_spec s p : ends_with s p = true ↔ p `suffix_of` s.
Proof. unfold ends_with. by rewrite starts_with_spec, <- suffix_prefix_reverse. Qed.

Lemma split_nonempty c s : ∃ p ps, split c s = p :: ps.
Proof.
  destruct s as [|x s]; simpl; [eauto|]. case_bool_decide; [eauto|].
  destruct (split c s); eauto.
Qed.

Lemma split_app_no_sep c a s p ps :
  c ∉ a → split c s = p :: ps → split c (a ++ s) = (a ++ p) :: ps.
Proof.
  intros Ha Hs. induction a as [|x a IH]; [done|]. simpl.
  rewrite bool_decide_false by set_solver. rewrite IH by set_solver. done.
Qed.

Lemma split_no_sep c a : c ∉ a → split c a = [a].
Proof.
  intros Ha. rewrite <- (app_nil_r a). erewrite split_app_no_sep; by rewrite ?app_nil_r.
Qed.

(** The pieces never hold the separator. *)
Lemma split_pieces c s : Forall (λ p, c ∉ p) (split c s).
Proof.
  induction s as [|x s IH]; simpl; [repeat constructor; set_solver|].
  case_bool_decide; [constructor; [set_solver|done]|].
  destruct (split c s) as [|p ps]; inversion IH; constructor; set_solver.
Qed.

Lemma join_cons sep p q ps : join sep (p :: q :: ps) = p ++ sep ++ join sep (q :: ps).
Proof. done. Qed.

(** Joining what was split gives the string back. *)
Lemma join_split c s : join [c] (split c s) = s.
Proof.
  induction s as [|x s IH]; [done|]. simpl. case_bool_decide as Hx.
  - destruct (split_nonempty c s) as (p & ps & E). rewrite E in *. by rewrite join_cons, IH, Hx.
  - destruct (split c s) as [|p ps] eqn:E; [by destruct s; simpl in *; repeat case_match|].
    rewrite <- IH. by destruct ps.
Qed.

(** Splitting what was joined gives the pieces back. *)
Lemma split_join c ps :
  ps ≠ [] → Forall (λ p, c ∉ p) ps → split c (join [c] ps) = ps.
Proof.
  induction ps as [|p [|q ps] IH]; intros Hne Hps; [done| |].
  - apply Forall_cons in Hps as [Hp _]. by apply split_no_sep.
  - apply Forall_cons in Hps as [Hp Hps]. rewrite join_cons.
    rewrite split_app_no_sep with (p := []) (ps := q :: ps); [by rewrite app_nil_r|done|].
    cbn [app split]. rewrite bool_decide_true by done. by rewrite IH.
Qed.

(** Splitting on an ASCII separator keeps every piece UTF-8. *)
Lemma split_utf8 c s : (u8 c < 0x80)%N → utf8 s → Forall utf8 (split c s).
Proof.
  intros Hc. rewrite utf8_chars. intros (cs & -> & Hcs).
  induction Hcs as [|d cs Hd Hcs IH]; [by constructor|].
  rewrite of_chars_cons. destruct (split_nonempty c (of_chars cs)) as (p & ps & E).
  rewrite E in IH. apply Forall_cons in IH as [Hp Hps].
  destruct (decide (d = u8 c)) as [->|Hne].
  - rewrite encode_utf8_ascii, u8_as_u8 by done. cbn [app split].
    rewrite bool_decide_true, E by done. repeat constructor; done.
  - rewrite (split_app_no_sep c _ _ p ps); [|intros Hin|done].
    + constructor; [|done]. apply utf8_app; [|done].
      apply utf8_chars. exists [d]. rewrite of_chars_cons. unfold of_chars. simpl.
      rewrite app_nil_r. split; [done|]. by apply Forall_singleton.
    + destruct (N.lt_ge_cases d 0x80).
      * rewrite encode_utf8_ascii in Hin by done. apply list_elem_of_singleton in Hin.
        subst c. rewrite as_u8_u8 in Hne; lia.
      * apply encode_utf8_non_ascii in Hin; [lia|done..].
Qed.

Lemma find_Some s p i :
  find s p = Some i → i + length p ≤ length s ∧ p `prefix_of` drop i s
    ∧ ∀ j, j < i → ¬ p `prefix_of` drop j s.
Proof.
  revert i. induction s as [|x s IH]; intros i; cbn [find];
    match goal with |- context [starts_with ?s p] => destruct (starts_with s p) eqn:E end.
  1,3: intros [= <-]; apply starts_with_spec in E; split; [|split; [done|lia]];
    apply prefix_length in E; simpl in *; lia.
  - done.
  - destruct (find s p) as [k|] eqn:Ek; [|done]. intros [= <-].
    destruct (IH k eq_refl) as (Hk & Hp & Hmin). split; [simpl; lia|]. split; [done|].
    intros [|j] Hj; [|apply Hmin; lia]. rewrite drop_0, <- starts_with_spec. congruence.
Qed.

Lemma find_None s p : find s p = None → ∀ j, j ≤ length s → ¬ p `prefix_of` drop j s.
Proof.
  induction s as [|x s IH]; cbn [find];
    match goal with |- context [starts_with ?s p] => destruct (starts_with s p) eqn:E end;
    try done; intros Hf j Hj.
  - assert (j = 0) as -> by (simpl in Hj; lia). rewrite drop_0, <- starts_with_spec. congruence.
  - destruct j as [|j]; [rewrite drop_0, <- starts_with_spec; congruence|].
    apply IH; [by destruct (find s p)|simpl in Hj; lia].
Qed.

Lemma find_Some_unique s p i j :
  find s p = Some i → j ≤ length s → p `prefix_of` drop j s →
  (∀ k, k < j → ¬ p `prefix_of` drop k s) → j = i.
Proof.
  intros (Hi & Hp & Hmin)%find_Some Hj Hpj Hminj.
  destruct (Nat.lt_trichotomy i j) as [?|[?|?]]; [|done|].
  - by destruct (Hminj i).
  - by destruct (Hmin j).
Qed.

Lemma contains_false s p :
  contains s p = false ↔ ∀ j, j ≤ length s → ¬ p `prefix_of` drop j s.
Proof.
  unfold contains. split.
  - intros H. apply find_None. by destruct (find s p).
  - intros H. destruct (find s p) as [i|] eqn:E; [|done].
    apply find_Some in E as (? & ? & _). exfalso. by apply (H i); [lia|].
Qed.

Lemma contains_byte s c : contains s [c] = true ↔ c ∈ s.
Proof.
  destruct (contains s [c]) eqn:E; split; try done.
  - intros _. unfold contains in E. destruct (find s [c]) as [i|] eqn:Ef; [|done].
    apply find_Some in Ef as (_ & [t Ht] & _). rewrite <- (take_drop i s), Ht. set_solver.
  - intros Hin. exfalso. rewrite contains_false in E.
    apply list_elem_of_split in Hin as (l1 & l2 & ->).
    apply (E (length l1)); [rewrite length_app; lia|].
    rewrite drop_app_length. by exists l2.
Qed.

(** Lower-casing is idempotent, so it is a canonical form. *)
Lemma to_ascii_lowercase_byte_idem b :
  to_ascii_lowercase_byte (to_ascii_lowercase_byte b) = to_ascii_lowercase_byte b.
Proof. byte_cases b. Qed.

Lemma to_ascii_lowercase_idem s : to_ascii_lowercase (to_ascii_lowercase s) = to_ascii_lowercase s.
Proof.
  unfold to_ascii_lowercase. rewrite <- list_fmap_compose. apply list_fmap_ext.
  intros i x _. apply to_ascii_lowercase_byte_idem.
Qed.

Lemma to_ascii_lowercase_length s : length (to_ascii_lowercase s) = length s.
Proof. apply length_fmap. Qed.

Lemma eq_ignore_ascii_case_spec a b :
  eq_ignore_ascii_case a b = true ↔ to_ascii_lowercase a = to_ascii_lowercase b.
Proof. apply bool_decide_eq_true. Qed.
