(* ===== verification/RustPath.v ===== *)
(** * Rust paths: [std::path] on Unix

    A path is the sequence of its components, which is what equality,
    [starts_with], [parent] and [ancestors] of the standard library are defined
    on.  [parse] is [Path::new(s).components()]: repeated separators and
    interior [.] components vanish, and only a leading [.] is kept. *)

From S2P Require Import Prelude RustStr.

(** [std::path::Component]; the Windows prefix does not exist on Unix. *)
Inductive Component :=
  | RootDir
  | CurDir
  | ParentDir
  | Normal (name : str).

#[global] Instance component_eq_dec : EqDecision Component.
Proof. solve_decision. Defined.

Abbreviation PathBuf := (list Component).

Definition SEP : byte := c#"/".

Definition has_root (s : str) : bool := starts_with s [SEP].

(** What one piece between separators contributes past the first position. *)
Definition piece (p : str) : option Component :=
  if bool_decide (p = []) then None
  else if bool_decide (p = b#".") then None
  else if bool_decide (p = b#"..") then Some ParentDir
  else Some (Normal p).

(** [Path::new(s).components()]. *)
Definition parse (s : str) : PathBuf :=
  let ps := split SEP s in
  (if has_root s then [RootDir]
   else if bool_decide (head ps = Some (b#".")) then [CurDir] else [])
  ++ omap piece ps.

Definition not_cur (c : Component) : bool := bool_decide (c ≠ CurDir).

(** [PathBuf::push] / [Path::join] with a path: an absolute argument replaces,
    a relative one is appended. *)
Definition join_path (p q : PathBuf) : PathBuf :=
  match q with
  | RootDir :: _ => q
  | _ => match p with [] => q | _ => p ++ filter (λ c, not_cur c = true) q end
  end.

(** [push] / [join] with a string. *)
Definition push (p : PathBuf) (s : str) : PathBuf := join_path p (parse s).

(** [Path::parent]. *)
Definition parent (p : PathBuf) : option PathBuf :=
  match last p with
  | Some (Normal _) | Some CurDir | Some ParentDir => Some (removelast p)
  | _ => None
  end.

Fixpoint ancestors_fuel (n : nat) (p : PathBuf) : list PathBuf :=
  p :: match n, parent p with
       | S n', Some q => ancestors_fuel n' q
       | _, _ => []
       end.

(** [Path::ancestors]: the path itself, then each parent.  Every parent is one
    component shorter, so the length is enough fuel. *)
Definition ancestors (p : PathBuf) : list PathBuf := ancestors_fuel (length p) p.

(** [Path::starts_with]: whole components, not bytes. *)
Definition path_starts_with (p q : PathBuf) : bool := bool_decide (q `prefix_of` p).

(** [Path::is_relative]. *)
Definition is_relative (p : PathBuf) : bool :=
  match p with RootDir :: _ => false | _ => true end.

(** ** Facts *)

(** A byte string that is exactly one ordinary file name. *)
Definition plain_name (s : str) : Prop := SEP ∉ s ∧ s ≠ [] ∧ s ≠ b#"." ∧ s ≠ b#"..".

#[global] Instance plain_name_dec s : Decision (plain_name s).
Proof. unfold plain_name. apply _. Defined.

Lemma has_root_no_sep s : SEP ∉ s → has_root s = false.
Proof.
  intros Hs. destruct (has_root s) eqn:E; [|done].
  apply starts_with_spec in E as [t ->]. set_solver.
Qed.

Lemma parse_plain s : plain_name s → parse s = [Normal s].
Proof.
  intros (Hsep & Hne & Hdot & Hdd). unfold parse.
  rewrite has_root_no_sep, split_no_sep by done. cbn [head].
  rewrite bool_decide_false by congruence. cbn. unfold piece.
  by rewrite !bool_decide_false by done.
Qed.

(** Joining a file name appends exactly one component. *)
Lemma push_plain p s : plain_name s → push p s = p ++ [Normal s].
Proof.
  intros Hs. unfold push. rewrite parse_plain by done. simpl. destruct p; [done|].
  rewrite filter_cons_True by by apply bool_decide_eq_true. done.
Qed.

Lemma filter_not_cur_normals (ns : list str) :
  filter (λ c, not_cur c = true) (Normal <$> ns) = Normal <$> ns.
Proof.
  induction ns as [|m ns IH]; [done|]. rewrite fmap_cons, filter_cons_True; [by rewrite IH|].
  by apply bool_decide_eq_true.
Qed.

Lemma join_path_normals p (ns : list str) : join_path p (Normal <$> ns) = p ++ (Normal <$> ns).
Proof.
  unfold join_path. rewrite filter_not_cur_normals.
  destruct ns, p; by rewrite ?app_nil_r.
Qed.

Lemma parent_snoc p n : parent (p ++ [Normal n]) = Some p.
Proof. unfold parent. by rewrite last_snoc, removelast_last. Qed.

Lemma ancestors_fuel_snoc k p n :
  ancestors_fuel (S k) (p ++ [Normal n]) = (p ++ [Normal n]) :: ancestors_fuel k p.
Proof. cbn [ancestors_fuel]. by rewrite parent_snoc. Qed.

Lemma ancestors_snoc p n : ancestors (p ++ [Normal n]) = (p ++ [Normal n]) :: ancestors p.
Proof.
  unfold ancestors. rewrite length_app. simpl. rewrite Nat.add_1_r. apply ancestors_fuel_snoc.
Qed.

#[global] Instance Normal_inj : Inj (=) (=) Normal.
Proof. by intros x y [= ->]. Qed.
