(* ===== verification/Codec.v ===== *)
(** * A small binary format

    The engine stores its records with [serde_json], which the development only
    knows by its laws.  This is a codec that meets them, for the concrete runs:
    every value is written with its length or an end mark, so that a decoder
    finds where it stops. *)

From S2P Require Import Prelude RustStr.

(** An encoder and a decoder that returns the unread rest. *)
Class Codec (A : Type) := {
  enc : A → str;
  dec : str → option (A * str);
  dec_enc a rest : dec (enc a ++ rest) = Some (a, rest);
}.

(** ** Numbers *)

Fixpoint enc_pos (p : positive) : str :=
  match p with
  | xH => [c#"."]
  | xO p => c#"0" :: enc_pos p
  | xI p => c#"1" :: enc_pos p
  end.

Fixpoint dec_pos (s : str) : option (positive * str) :=
  match s with
  | [] => None
  | b :: s =>
      if bool_decide (b = c#"0") then '(p, r) ← dec_pos s; Some (xO p, r)
      else if bool_decide (b = c#"1") then '(p, r) ← dec_pos s; Some (xI p, r)
      else Some (xH, s)
  end.

Lemma dec_enc_pos p rest : dec_pos (enc_pos p ++ rest) = Some (p, rest).
Proof. by induction p as [p IH|p IH|]; cbn; rewrite ?IH. Qed.

#[global] Instance codec_N : Codec N.
Proof.
  refine {|
    enc n := enc_pos (N.succ_pos n);
    dec s := '(p, r) ← dec_pos s; Some (N.pred (Npos p), r);
  |}.
  intros n rest. rewrite dec_enc_pos. cbn [mbind option_bind]. do 2 f_equal. by rewrite N.succ_pos_spec, N.pred_succ.
Defined.

(** ** Strings, pairs, options and lists *)

#[global] Instance codec_str : Codec str.
Proof.
  refine {|
    enc s := enc (N.of_nat (length s)) ++ s;
    dec s := '(n, r) ← dec (A:=N) s; Some (take (N.to_nat n) r, drop (N.to_nat n) r);
  |}.
  intros s rest. rewrite <- app_assoc, dec_enc. cbn. rewrite Nat2N.id.
  by rewrite take_app_length, drop_app_length.
Defined.

#[global] Instance codec_pair {A B} `{!Codec A, !Codec B} : Codec (A * B).
Proof.
  refine {|
    enc x := enc x.1 ++ enc x.2;
    dec s := '(a, r) ← dec (A:=A) s; '(b, r) ← dec (A:=B) r; Some ((a, b), r);
  |}.
  intros [a b] rest. cbn. rewrite <- app_assoc, dec_enc. cbn. by rewrite dec_enc.
Defined.

(** A type that another one represents. *)
Definition codec_iso {A B} `{!Codec B} (f : A → B) (g : B → A) (Hgf : ∀ a, g (f a) = a) : Codec A.
Proof.
  refine {| enc a := enc (f a); dec s := '(b, r) ← dec (A:=B) s; Some (g b, r) |}.
  intros a rest. rewrite dec_enc. cbn. by rewrite Hgf.
Defined.

#[global] Instance codec_bool : Codec bool.
Proof.
  refine (codec_iso (B:=N) (λ b, if (b : bool) then 1%N else 0%N) (λ n, (n =? 1)%N) _). by intros [].
Defined.

Section list.
Context {A : Type} `{!Codec A}.

Fixpoint dec_list (n : nat) (s : str) : option (list A * str) :=
  match n with
  | O => Some ([], s)
  | S n => '(a, r) ← dec (A:=A) s; '(l, r) ← dec_list n r; Some (a :: l, r)
  end.

Lemma dec_enc_list (l : list A) rest : dec_list (length l) (concat (enc <$> l) ++ rest) = Some (l, rest).
Proof. induction l as [|a l IH]; [done|]. cbn. rewrite <- app_assoc, dec_enc. cbn. by rewrite IH. Qed.

#[global] Instance codec_list : Codec (list A).
Proof.
  refine {|
    enc l := enc (N.of_nat (length l)) ++ concat (enc <$> l);
    dec s := '(n, r) ← dec (A:=N) s; dec_list (N.to_nat n) r;
  |}.
  intros l rest. rewrite <- app_assoc, dec_enc. cbn. rewrite Nat2N.id. apply dec_enc_list.
Defined.

#[global] Instance codec_option : Codec (option A).
Proof.
  refine (codec_iso (B:=list A) (λ o, match o with Some a => [a] | None => [] end) head _). by intros [].
Defined.
End list.

#[global] Instance codec_gmap {A} `{!Codec A} : Codec (gmap str A).
Proof. refine (codec_iso (B:=list (str * A)) map_to_list list_to_map list_to_map_to_list). Defined.
