(* ===== verification/Paths.v ===== *)
(** * Keys and paths: [crates/engine/src/paths.rs]

    The encoding from S3 keys to relative paths and back, and the naming of
    version data files.  The theorems say that the encoding is reversible and
    injective on UTF-8 keys, that it only ever produces plain file names that
    are not reserved, and that a data file name is one safe path component from
    which the version id can be recovered. *)

From S2P Require Import Prelude RustStr RustPath.

Definition META_FILE : str := b#"__aks3.meta.json".
Definition RESERVED_PREFIX : str := b#"__aks3".

Inductive PathError :=
  | BadEscape
  | NonUtf8.

#[global] Instance path_error_eq_dec : EqDecision PathError.
Proof. solve_decision. Defined.

(** The upper-case hex digits of [push_escape]. *)
Definition HEX : list byte := b#"0123456789ABCDEF".

(** [HEX[i]]: the index is below 16 at both uses. *)
Definition hex_digit (i : N) : byte := nth (N.to_nat i) HEX Byte.x00.

(** [push_escape(out, b)]: what is appended. *)
Definition push_escape (b : byte) : str :=
  [c#"%"; hex_digit (N.shiftr (u8 b) 4); hex_digit (N.land (u8 b) 0x0F)].

(** Whether a byte must be percent-encoded under rule 2. *)
Definition needs_escape (b : byte) : bool :=
  bool_decide (b = c#"%") || (u8 b <? 0x20)%N || (u8 b =? 0x7F)%N || bool_decide (b = c#"\").

(** Value of a single hex digit, accepting either case. *)
Definition hex_val (b : byte) : option N :=
  if in_range 0x30 0x39 b then Some (u8 b - 0x30)%N
  else if in_range 0x61 0x66 b then Some (u8 b - 0x61 + 10)%N
  else if in_range 0x41 0x46 b then Some (u8 b - 0x41 + 10)%N
  else None.

(** The body of the [for ch in rest.chars()] loop. *)
Definition encode_char (c : N) : str :=
  if (c <? 0x80)%N
  then (if needs_escape (as_u8 c) then push_escape (as_u8 c) else [as_u8 c])
  else encode_utf8 c.

(** [encode_component].  A [&str] always iterates; the default is for bytes
    that are not one. *)
Definition encode_component (c : str) : str :=
  if bool_decide (c = []) then b#"%2F"
  else if bool_decide (c = b#".") then b#"%2E"
  else if bool_decide (c = b#"..") then b#"%2E%2E"
  else
    let '(out, rest) :=
      if starts_with c RESERVED_PREFIX then (b#"%5F", drop 1 c) else ([], c) in
    out ++ concat (encode_char <$> default [] (chars rest)).

(** The [while i < bytes.len()] loop of [decode_component]: the bytes pushed
    to [out] from position [i] on. *)
Fixpoint decode_bytes (bytes : str) : result str PathError :=
  match bytes with
  | [] => Ok []
  | b :: rest =>
      if bool_decide (b = c#"%") then
        match rest with
        | h :: l :: rest' =>
            let? hi := ok_or (hex_val h) BadEscape in
            let? lo := ok_or (hex_val l) BadEscape in
            let? out := decode_bytes rest' in
            Ok (as_u8 (N.lor (N.shiftl hi 4) lo) :: out)
        | _ => Err BadEscape
        end
      else let? out := decode_bytes rest in Ok (b :: out)
  end.

Definition decode_component (c : str) : result str PathError :=
  let? out := decode_bytes c in
  let? decoded := ok_or (from_utf8 out) NonUtf8 in
  if bool_decide (decoded = [SEP]) then Ok []
  else if contains decoded [SEP] then Err BadEscape
  else Ok decoded.

(** [key_to_rel_path]: push each encoded component onto an empty path. *)
Definition key_to_rel_path (key : str) : PathBuf :=
  fold_left (λ path component, push path (encode_component component)) (split SEP key) [].

Fixpoint decode_components (p : PathBuf) : result (list str) PathError :=
  match p with
  | [] => Ok []
  | Normal name :: p' =>
      let? name := ok_or (from_utf8 name) NonUtf8 in
      let? part := decode_component name in
      let? parts := decode_components p' in
      Ok (part :: parts)
  | _ :: _ => Err BadEscape
  end.

Definition rel_path_to_key (p : PathBuf) : result str PathError :=
  let? parts := decode_components p in Ok (join [SEP] parts).

(** Bytes that may appear unescaped in a data file name. *)
Definition is_safe_version_byte (b : byte) : bool :=
  is_ascii_alphanumeric b || bool_decide (b = c#".") || bool_decide (b = c#"_")
  || bool_decide (b = c#"-").

Definition is_valid_version_id (version_id : str) : bool :=
  negb (contains version_id (b#".."))
  && existsb is_ascii_alphanumeric version_id
  && forallb is_safe_version_byte version_id.

Definition PREFIX : str := b#"__aks3.v.".
Definition SUFFIX : str := b#".data".

Definition data_byte (b : byte) : str := if is_safe_version_byte b then [b] else push_escape b.

Definition data_file_name (version_id : str) : str :=
  PREFIX ++ concat (data_byte <$> version_id) ++ SUFFIX.

(** The left inverse that the property tests of the source use: strict about
    upper-case hex. *)
Definition upper_hex (b : byte) : option N :=
  if in_range 0x30 0x39 b then Some (u8 b - 0x30)%N
  else if in_range 0x41 0x46 b then Some (u8 b - 0x41 + 10)%N
  else None.

Fixpoint decode_data_bytes (bytes : str) : option str :=
  match bytes with
  | [] => Some []
  | b :: rest =>
      if bool_decide (b = c#"%") then
        match rest with
        | h :: l :: rest' =>
            hi ← upper_hex h; lo ← upper_hex l; out ← decode_data_bytes rest';
            Some (as_u8 (N.lor (N.shiftl hi 4) lo) :: out)
        | _ => None
        end
      else out ← decode_data_bytes rest; Some (b :: out)
  end.

Definition decode_data_file_name (name : str) : option str :=
  body ← strip_prefix name PREFIX;
  body ← strip_suffix body SUFFIX;
  out ← decode_data_bytes body;
  from_utf8 out.

Example encode_meta : encode_component META_FILE = b#"%5F_aks3.meta.json".
Proof. by vm_compute. Qed.
Example rel_path_hostile : rel_path_to_key (key_to_rel_path (b#"a/../%2F/")) = Ok (b#"a/../%2F/").
Proof. by vm_compute. Qed.

(** ** Escaping one byte *)

Definition esc_byte (b : byte) : str := if needs_escape b then push_escape b else [b].

(** Rule 2 over the bytes of a component, the reference for the loop over
    characters in the source. *)
Definition enc_bytes (s : str) : str := concat (esc_byte <$> s).

Lemma hex_val_hi b : hex_val (hex_digit (N.shiftr (u8 b) 4)) = Some (N.shiftr (u8 b) 4).
Proof. byte_cases b. Qed.
Lemma hex_val_lo b : hex_val (hex_digit (N.land (u8 b) 0x0F)) = Some (N.land (u8 b) 0x0F).
Proof. byte_cases b. Qed.
Lemma upper_hex_hi b : upper_hex (hex_digit (N.shiftr (u8 b) 4)) = Some (N.shiftr (u8 b) 4).
Proof. byte_cases b. Qed.
Lemma upper_hex_lo b : upper_hex (hex_digit (N.land (u8 b) 0x0F)) = Some (N.land (u8 b) 0x0F).
Proof. byte_cases b. Qed.
Lemma nibbles b : as_u8 (N.lor (N.shiftl (N.shiftr (u8 b) 4) 4) (N.land (u8 b) 0x0F)) = b.
Proof. byte_cases b. Qed.

Lemma needs_escape_high b : (0x80 <= u8 b)%N → needs_escape b = false.
Proof.
  intros H. unfold needs_escape. rewrite !bool_decide_false by (by intros ->).
  destruct (N.ltb_spec (u8 b) 0x20), (N.eqb_spec (u8 b) 0x7F); (done || lia).
Qed.

Lemma decode_escape b s :
  decode_bytes (push_escape b ++ s) = (let? out := decode_bytes s in Ok (b :: out)).
Proof.
  cbn [push_escape app decode_bytes]. rewrite bool_decide_true by done.
  rewrite hex_val_hi, hex_val_lo. cbn [ok_or]. by rewrite nibbles.
Qed.

Lemma decode_plain b s : b ≠ c#"%" →
  decode_bytes (b :: s) = (let? out := decode_bytes s in Ok (b :: out)).
Proof. intros Hb. cbn [decode_bytes]. by rewrite bool_decide_false. Qed.

Lemma needs_escape_pct b : needs_escape b = false → b ≠ c#"%".
Proof. by intros H ->. Qed.

Lemma decode_esc_byte b s :
  decode_bytes (esc_byte b ++ s) = (let? out := decode_bytes s in Ok (b :: out)).
Proof.
  unfold esc_byte. destruct (needs_escape b) eqn:E; [apply decode_escape|].
  by apply decode_plain, needs_escape_pct.
Qed.

Lemma enc_bytes_cons b s : enc_bytes (b :: s) = esc_byte b ++ enc_bytes s.
Proof. done. Qed.

Lemma decode_enc_bytes s t :
  decode_bytes (enc_bytes s ++ t) = (let? out := decode_bytes t in Ok (s ++ out)).
Proof.
  induction s as [|b s IH]; [by simpl; destruct (decode_bytes t)|].
  rewrite enc_bytes_cons, <- app_assoc, decode_esc_byte, IH.
  by destruct (decode_bytes t).
Qed.

Lemma decode_enc_bytes_nil s : decode_bytes (enc_bytes s) = Ok s.
Proof. rewrite <- (app_nil_r (enc_bytes s)), decode_enc_bytes. simpl. by rewrite app_nil_r. Qed.

(** The loop over characters does what the rule says per byte. *)
Lemma encode_chars_bytes s :
  utf8 s → concat (encode_char <$> default [] (chars s)) = enc_bytes s.
Proof.
  unfold utf8, utf8b. destruct (chars s) as [cs|] eqn:E; [|done]. intros _.
  apply chars_spec in E as [-> Hcs]. apply (flat_map_chars esc_byte); [done|].
  intros b Hb. unfold esc_byte. by rewrite needs_escape_high.
Qed.

(** ** The shape of an encoded component *)

Definition reserved (c : str) : bool := starts_with c RESERVED_PREFIX.

Lemma reserved_tail c : reserved c = true → ∃ t, c = c#"_" :: t.
Proof. unfold reserved. rewrite starts_with_spec. intros [t ->]. by eexists. Qed.

(** [encode_component], with its four rules one case each. *)
Lemma encode_component_cases c :
  utf8 c →
  c = [] ∧ encode_component c = b#"%2F" ∨
  c = b#"." ∧ encode_component c = b#"%2E" ∨
  c = b#".." ∧ encode_component c = b#"%2E%2E" ∨
  (c ≠ [] ∧ c ≠ b#"." ∧ c ≠ b#"..") ∧
    (reserved c = true ∧ encode_component c = b#"%5F" ++ enc_bytes (drop 1 c) ∨
     reserved c = false ∧ encode_component c = enc_bytes c).
Proof.
  intros Hc. unfold encode_component.
  case_bool_decide as H1; [by left|]. case_bool_decide as H2; [by right; left|].
  case_bool_decide as H3; [by right; right; left|]. do 3 right. split; [done|].
  fold (reserved c). destruct (reserved c) eqn:E; [left|right]; (split; [done|]).
  - rewrite encode_chars_bytes; [done|]. destruct (reserved_tail c E) as [t ->]. simpl.
    apply (utf8_app_cancel [c#"_"]); [|done]. by apply utf8_ascii; repeat constructor.
  - by rewrite encode_chars_bytes.
Qed.

(** Decoding undoes the escapes of any component that rule 3 leaves alone. *)
Lemma decode_bytes_encode c :
  utf8 c → c ≠ [] → decode_bytes (encode_component c) = Ok c.
Proof.
  intros Hc Hne.
  destruct (encode_component_cases c Hc) as [[? _]|[[-> ->]|[[-> ->]|[_ [[E ->]|[E ->]]]]]];
    [done|by vm_compute|by vm_compute| |apply decode_enc_bytes_nil].
  destruct (reserved_tail c E) as [t ->]. cbn [drop].
  change (b#"%5F") with (push_escape (c#"_")).
  by rewrite decode_escape, decode_enc_bytes_nil.
Qed.

Definition esc_safe (b : byte) : Prop := b = c#"%" ∨ needs_escape b = false.

#[global] Instance esc_safe_dec b : Decision (esc_safe b).
Proof. unfold esc_safe. apply _. Defined.

Lemma push_escape_safe b :
  Forall (λ x, esc_safe x ∧ x ≠ SEP ∧ (u8 x < 0x80)%N) (push_escape b).
Proof. refine (bool_decide_unpack _ _). byte_cases b. Qed.

Lemma esc_byte_safe b : b ≠ SEP → Forall (λ x, esc_safe x ∧ x ≠ SEP) (esc_byte b).
Proof.
  intros Hb. unfold esc_byte. destruct (needs_escape b) eqn:E.
  - eapply Forall_impl; [apply push_escape_safe|]. naive_solver.
  - apply Forall_singleton. split; [by right|done].
Qed.

Lemma enc_bytes_safe s : SEP ∉ s → Forall (λ x, esc_safe x ∧ x ≠ SEP) (enc_bytes s).
Proof.
  induction s as [|b s IH]; intros Hs; [by constructor|].
  rewrite enc_bytes_cons. apply Forall_app. split; [apply esc_byte_safe|apply IH]; set_solver.
Qed.

(** No encoded component holds a separator, a control byte or a backslash. *)
Lemma encode_component_safe c :
  utf8 c → SEP ∉ c → Forall (λ x, esc_safe x ∧ x ≠ SEP) (encode_component c).
Proof.
  intros Hc Hsep.
  destruct (encode_component_cases c Hc) as [[_ ->]|[[_ ->]|[[_ ->]|[_ [[E ->]|[E ->]]]]]].
  1-3: refine (bool_decide_unpack _ _); by vm_compute.
  - apply Forall_app. split; [refine (bool_decide_unpack _ _); by vm_compute|].
    apply enc_bytes_safe. destruct c as [|x c]; set_solver.
  - by apply enc_bytes_safe.
Qed.

Lemma encode_component_nonempty c : utf8 c → encode_component c ≠ [].
Proof.
  intros Hc He. destruct (decide (c = [])) as [->|Hne]; [done|].
  pose proof (decode_bytes_encode c Hc Hne) as Hd. rewrite He in Hd. simpl in Hd. congruence.
Qed.

(** What an unescaped run at the front of an encoding stands for. *)
Lemma enc_bytes_prefix p s : c#"%" ∉ p → p `prefix_of` enc_bytes s → p `prefix_of` s.
Proof.
  revert s. induction p as [|x p IH]; intros s Hp; [intros _; apply prefix_nil|].
  destruct s as [|b s]; [by intros H%prefix_nil_not|]. rewrite enc_bytes_cons. unfold esc_byte.
  destruct (needs_escape b); simpl; intros H.
  - apply prefix_cons_inv_1 in H as ->. set_solver.
  - pose proof (prefix_cons_inv_1 _ _ _ _ H) as ->. apply prefix_cons_inv_2 in H.
    apply prefix_cons, IH; set_solver.
Qed.

(** An encoded component is never a reserved name. *)
Lemma encode_component_not_reserved c :
  utf8 c → starts_with (encode_component c) RESERVED_PREFIX = false.
Proof.
  intros Hc.
  destruct (encode_component_cases c Hc) as [[_ ->]|[[_ ->]|[[_ ->]|[_ [[E ->]|[E ->]]]]]];
    [done..|].
  destruct (starts_with (enc_bytes c) RESERVED_PREFIX) eqn:E2; [|done].
  apply starts_with_spec, enc_bytes_prefix in E2.
  - apply starts_with_spec in E2. unfold reserved in E. congruence.
  - refine (bool_decide_unpack _ _); by vm_compute.
Qed.

(** An encoded component is exactly one plain file name. *)
Lemma encode_component_plain c : utf8 c → SEP ∉ c → plain_name (encode_component c).
Proof.
  intros Hc Hsep. split.
  { intros Hin. pose proof (encode_component_safe c Hc Hsep) as Hs.
    rewrite Forall_forall in Hs. by destruct (Hs _ Hin) as [_ []]. }
  split; [by apply encode_component_nonempty|].
  assert (∀ d, d = b#"." ∨ d = b#".." → encode_component c ≠ d) as Hd; [|by split; apply Hd; auto].
  intros d Hd Heq. destruct (decide (c = [])) as [->|Hne]; [by destruct Hd; subst|].
  pose proof (decode_bytes_encode c Hc Hne) as Hdec. rewrite Heq in Hdec.
  destruct Hd; subst d; vm_compute in Hdec; injection Hdec as <-; by vm_compute in Heq.
Qed.

Lemma encode_char_utf8 d : is_char d → utf8 (encode_char d).
Proof.
  intros Hd. unfold encode_char. destruct (N.ltb_spec d 0x80) as [Hlt|Hge].
  - apply utf8_ascii. destruct (needs_escape _).
    + eapply Forall_impl; [apply push_escape_safe|]. naive_solver.
    + apply Forall_singleton. rewrite as_u8_u8; lia.
  - apply utf8_chars. exists [d]. split; [by rewrite of_chars_cons, app_nil_r|].
    by apply Forall_singleton.
Qed.

Lemma enc_chars_utf8 s : utf8 (concat (encode_char <$> default [] (chars s))).
Proof.
  destruct (chars s) as [cs|] eqn:E; [|done]. apply chars_spec in E as [_ Hcs]. simpl.
  induction Hcs as [|d cs Hd Hcs IH]; [done|]. rewrite fmap_cons. cbn [concat].
  by apply utf8_app; [apply encode_char_utf8|].
Qed.

(** An encoded component is a [String]: UTF-8 again. *)
Lemma encode_component_utf8 c : utf8 (encode_component c).
Proof.
  unfold encode_component. do 3 (case_bool_decide; [by vm_compute|]).
  destruct (starts_with c RESERVED_PREFIX); [|apply enc_chars_utf8].
  apply utf8_app; [by vm_compute|apply enc_chars_utf8].
Qed.

Lemma from_utf8_Some s : utf8 s → from_utf8 s = Some s.
Proof. unfold utf8, from_utf8. by intros ->. Qed.

Lemma decode_component_encode c :
  utf8 c → SEP ∉ c → decode_component (encode_component c) = Ok c.
Proof.
  intros Hc Hsep. destruct (decide (c = [])) as [->|Hne]; [by vm_compute|].
  unfold decode_component. rewrite decode_bytes_encode, from_utf8_Some by done. cbn [ok_or].
  rewrite bool_decide_false by (intros ->; set_solver).
  destruct (contains c [SEP]) eqn:E; [|done]. by apply contains_byte in E.
Qed.

Lemma fold_push_plain ps p :
  Forall plain_name ps → fold_left push ps p = p ++ (Normal <$> ps).
Proof.
  intros H. revert p. induction H as [|x ps Hx Hps IH]; intros p; simpl; [by rewrite app_nil_r|].
  rewrite IH, push_plain by done. by rewrite <- app_assoc.
Qed.

(** The components of a key, encoded. *)
Definition key_names (key : str) : list str := encode_component <$> split SEP key.

Lemma SEP_ascii : (u8 SEP < 0x80)%N.
Proof. done. Qed.

Lemma key_names_plain key : utf8 key → Forall plain_name (key_names key).
Proof.
  intros Hk. apply Forall_fmap. pose proof (split_utf8 SEP key SEP_ascii Hk) as H1.
  pose proof (split_pieces SEP key) as H2.
  rewrite Forall_forall in *. intros c Hc. apply encode_component_plain; auto.
Qed.

Lemma key_to_rel_path_names key : utf8 key → key_to_rel_path key = Normal <$> key_names key.
Proof.
  intros Hk. unfold key_to_rel_path. pose proof (fold_push_plain _ [] (key_names_plain key Hk)) as H.
  unfold key_names in *. simpl in H. rewrite <- H. clear. generalize (@nil Component).
  induction (split SEP key) as [|c cs IH]; intros p; simpl; [done|]. apply IH.
Qed.

Lemma decode_components_encode ps :
  Forall utf8 ps → Forall (λ p, SEP ∉ p) ps →
  decode_components (Normal <$> (encode_component <$> ps)) = Ok ps.
Proof.
  induction ps as [|p ps IH]; intros Hu Hs; [done|].
  apply Forall_cons in Hu as [Hp Hu], Hs as [Hsp Hs].
  rewrite !fmap_cons. cbn [decode_components].
  rewrite from_utf8_Some by apply encode_component_utf8. cbn [ok_or].
  rewrite decode_component_encode by done. by rewrite IH.
Qed.

Lemma rel_path_key k : utf8 k → rel_path_to_key (key_to_rel_path k) = Ok k.
Proof.
  intros Hk. rewrite key_to_rel_path_names by done. unfold rel_path_to_key, key_names.
  rewrite decode_components_encode;
    [by rewrite join_split|by apply split_utf8|apply split_pieces].
Qed.

Lemma key_to_rel_path_inj a b :
  utf8 a → utf8 b → key_to_rel_path a = key_to_rel_path b → a = b.
Proof.
  intros Ha Hb Heq. apply rel_path_key in Ha, Hb. rewrite Heq in Ha. congruence.
Qed.

Lemma key_names_not_reserved key n :
  utf8 key → n ∈ key_names key → starts_with n RESERVED_PREFIX = false.
Proof.
  intros Hk. unfold key_names. rewrite list_elem_of_fmap. intros (c & -> & Hc).
  apply encode_component_not_reserved. pose proof (split_utf8 SEP key SEP_ascii Hk) as H.
  rewrite Forall_forall in H. auto.
Qed.

(** Decoding accepts only names that do not splice a separator into the key. *)
Lemma decode_component_no_sep n c : decode_component n = Ok c → SEP ∉ c ∧ utf8 c.
Proof.
  unfold decode_component. destruct (decode_bytes n) as [out|]; [|done].
  unfold from_utf8. destruct (utf8b out) eqn:Eu; [|done]. cbn [ok_or].
  case_bool_decide; [intros [= <-]; split; [set_solver|done]|].
  destruct (contains out [SEP]) eqn:E; [done|]. intros [= <-]. split; [|done].
  intros Hin%contains_byte. congruence.
Qed.

(** ** Data file names *)

Lemma decode_data_byte b s :
  decode_data_bytes (data_byte b ++ s) = (λ out, b :: out) <$> decode_data_bytes s.
Proof.
  unfold data_byte. destruct (is_safe_version_byte b) eqn:E.
  - cbn [app decode_data_bytes]. rewrite bool_decide_false by (by intros ->).
    by destruct (decode_data_bytes s).
  - cbn [push_escape app decode_data_bytes]. rewrite bool_decide_true by done.
    rewrite upper_hex_hi, upper_hex_lo. cbn [mbind option_bind]. rewrite nibbles.
    by destruct (decode_data_bytes s).
Qed.

Lemma decode_data_bytes_encode v : decode_data_bytes (concat (data_byte <$> v)) = Some v.
Proof.
  induction v as [|b v IH]; [done|]. rewrite fmap_cons. cbn [concat].
  by rewrite decode_data_byte, IH.
Qed.

Lemma data_file_name_inj v v' : data_file_name v = data_file_name v' → v = v'.
Proof.
  unfold data_file_name. intros H. apply app_inv_head, app_inv_tail in H.
  apply (f_equal decode_data_bytes) in H. rewrite !decode_data_bytes_encode in H. congruence.
Qed.

Lemma strip_prefix_app p s : strip_prefix (p ++ s) p = Some s.
Proof. unfold strip_prefix. by rewrite starts_with_app, drop_app_length. Qed.

Lemma strip_suffix_app p s : strip_suffix (s ++ p) p = Some s.
Proof.
  unfold strip_suffix. replace (ends_with (s ++ p) p) with true
    by (symmetry; apply ends_with_spec; by apply suffix_app_r).
  by rewrite length_app, Nat.add_sub, take_app_length.
Qed.

Lemma data_byte_safe b : Forall (λ x, is_safe_version_byte x = true ∨ x = c#"%") (data_byte b).
Proof. refine (bool_decide_unpack _ _). byte_cases b. Qed.

Lemma data_file_name_plain v : plain_name (data_file_name v).
Proof.
  assert (SEP ∉ data_file_name v) as Hsep.
  { unfold data_file_name. rewrite !not_elem_of_app. split; [|split].
    - refine (bool_decide_unpack _ _); by vm_compute.
    - intros (l & Hl & Hin)%list_elem_of_In%in_concat. apply list_elem_of_In in Hl. apply list_elem_of_In in Hin.
      apply list_elem_of_fmap in Hl as (b & -> & _).
      pose proof (data_byte_safe b) as H. rewrite Forall_forall in H.
      by destruct (H _ Hin).
    - refine (bool_decide_unpack _ _); by vm_compute. }
  split; [done|]. by unfold data_file_name; split_and!.
Qed.

(** ** The theorems *)

(** C23: every key survives the trip to a path and back, and its path is relative
    and made of plain file names only (never a root, [.] or [..]), so joining it
    onto a bucket directory cannot climb out of it. *)
Theorem key_path_roundtrip k :
  utf8 k →
  rel_path_to_key (key_to_rel_path k) = Ok k
  ∧ is_relative (key_to_rel_path k) = true
  ∧ Forall (λ c, ∃ n, c = Normal n ∧ plain_name n) (key_to_rel_path k).
Proof.
  intros Hk. split; [by apply rel_path_key|]. rewrite key_to_rel_path_names by done. split.
  - by destruct (key_names k).
  - apply Forall_fmap. eapply Forall_impl; [by apply key_names_plain|]. intros n Hn. by exists n.
Qed.

Lemma key_path_roundtrip_witness :
  utf8 (b#"../a//__aks3.meta.json") ∧
  rel_path_to_key (key_to_rel_path (b#"../a//__aks3.meta.json")) = Ok (b#"../a//__aks3.meta.json").
Proof. split; [by vm_compute|]. by apply key_path_roundtrip; vm_compute. Defined.

(** C24: distinct keys never share a path, and no component of a key's path is a
    name aks3 keeps its own bookkeeping under: an object can neither land on
    another object's bytes nor on a manifest or data file. *)
Theorem key_paths_apart a b :
  utf8 a → utf8 b →
  (key_to_rel_path a = key_to_rel_path b ↔ a = b)
  ∧ Forall (λ c, ∀ n, c = Normal n →
      starts_with n RESERVED_PREFIX = false ∧ n ≠ META_FILE ∧ ∀ v, n ≠ data_file_name v)
      (key_to_rel_path a).
Proof.
  intros Ha Hb. split; [split; [by apply key_to_rel_path_inj|by intros ->]|].
  rewrite key_to_rel_path_names by done. apply Forall_fmap, Forall_forall. intros m Hm n [= <-].
  pose proof (key_names_not_reserved a m Ha Hm) as Hr. split; [done|].
  split; [by intros ->|]. intros v ->.
  unfold data_file_name in Hr. change PREFIX with (RESERVED_PREFIX ++ b#".v.") in Hr.
  by rewrite <- app_assoc, starts_with_app in Hr.
Qed.

Lemma key_paths_apart_witness :
  b#"a/b" ≠ b#"a%2Fb" ∧ key_to_rel_path (b#"a/b") ≠ key_to_rel_path (b#"a%2Fb").
Proof.
  split; [done|]. intros H.
  by apply (key_paths_apart (b#"a/b") (b#"a%2Fb") ltac:(by vm_compute) ltac:(by vm_compute)) in H.
Defined.

(** C25: decoding is total, and a name it accepts yields a UTF-8 component with no
    separator in it, so a corrupt directory entry can never splice an extra
    separator into the key it is reassembled into. *)
Theorem decoded_component_is_one_component n :
  match decode_component n with
  | Ok c => SEP ∉ c ∧ utf8 c ∧ decode_component (encode_component c) = Ok c
  | Err _ => True
  end.
Proof.
  destruct (decode_component n) as [c|] eqn:E; [|done].
  apply decode_component_no_sep in E as [Hs Hu]. split_and!; [done..|].
  by apply decode_component_encode.
Qed.

(** The data file of a version is one plain reserved file name whatever the
    client sent as version id, the id can be recovered from it (so two versions
    never share a file), and a well-formed id is stored under its own name. *)
Theorem data_file_name_spec v :
  utf8 v →
  plain_name (data_file_name v)
  ∧ starts_with (data_file_name v) RESERVED_PREFIX = true
  ∧ decode_data_file_name (data_file_name v) = Some v
  ∧ (is_valid_version_id v = true → data_file_name v = PREFIX ++ v ++ SUFFIX).
Proof.
  intros Hv. split_and!.
  - apply data_file_name_plain.
  - unfold data_file_name. change PREFIX with (RESERVED_PREFIX ++ b#".v.").
    by rewrite <- app_assoc, starts_with_app.
  - unfold decode_data_file_name, data_file_name. rewrite strip_prefix_app. cbn [mbind option_bind].
    rewrite strip_suffix_app. cbn [mbind option_bind]. rewrite decode_data_bytes_encode.
    by apply from_utf8_Some.
  - unfold is_valid_version_id, data_file_name. rewrite andb_true_iff. intros [_ Hsafe].
    do 2 f_equal. apply Forall_bool in Hsafe. clear Hv.
    induction Hsafe as [|b v Hb Hvs IH]; [done|]. rewrite fmap_cons. cbn [concat].
    rewrite IH. unfold data_byte. by rewrite Hb.
Qed.

Lemma data_file_name_spec_witness :
  decode_data_file_name (data_file_name (b#"../x")) = Some (b#"../x").
Proof. by apply data_file_name_spec; vm_compute. Defined.
