(* ===== verification/Checksum.v ===== *)
(** * Integrity checksums: [crates/engine/src/checksum.rs]

    The five S3 algorithms, the running hasher over each and the stored
    [{algorithm, value}] pair.  CRC-32C and CRC-64/NVME are computed by the
    source itself and are modelled bit for bit; CRC-32, SHA-1, SHA-256 and
    base64 come from crates and are the operations of [HashCrates].  The main
    theorem relates the two reflected CRC loops to the catalogue ("Rocksoft")
    definition of a CRC, with its unreflected polynomial. *)

From S2P Require Import Prelude RustStr.

Definition u32_MAX : N := 0xFFFFFFFF.
Definition u64_MAX : N := 0xFFFFFFFFFFFFFFFF.

Definition CRC32C_POLY_REV : N := 0x82F63B78.
Definition CRC64NVME_POLY_REV : N := 0x9A6C9329AC4BC9B5.

Inductive ChecksumAlgorithm :=
  | Crc32
  | Crc32c
  | Sha1
  | Sha256
  | Crc64Nvme.

#[global] Instance checksum_algorithm_eq_dec : EqDecision ChecksumAlgorithm.
Proof. solve_decision. Defined.

Definition as_str (a : ChecksumAlgorithm) : str :=
  match a with
  | Crc32 => b#"CRC32"
  | Crc32c => b#"CRC32C"
  | Sha1 => b#"SHA1"
  | Sha256 => b#"SHA256"
  | Crc64Nvme => b#"CRC64NVME"
  end.

Definition from_name (name : str) : option ChecksumAlgorithm :=
  if eq_ignore_ascii_case name (b#"CRC32C") then Some Crc32c
  else if eq_ignore_ascii_case name (b#"CRC32") then Some Crc32
  else if eq_ignore_ascii_case name (b#"SHA1") then Some Sha1
  else if eq_ignore_ascii_case name (b#"SHA256") then Some Sha256
  else if eq_ignore_ascii_case name (b#"CRC64NVME") then Some Crc64Nvme
  else None.

(** ** The crates the module calls *)

(** The hashing crates ([crc32fast], [sha1], [sha2]) and [base64]'s standard
    engine: a hasher state, its start, its update and its digest. *)
Class HashCrates := {
  crc32_state : Type;
  crc32_new : crc32_state;
  crc32_update : crc32_state → str → crc32_state;
  crc32_finalize : crc32_state → N;
  sha1_state : Type;
  sha1_new : sha1_state;
  sha1_update : sha1_state → str → sha1_state;
  sha1_finalize : sha1_state → str;
  sha256_state : Type;
  sha256_new : sha256_state;
  sha256_update : sha256_state → str → sha256_state;
  sha256_finalize : sha256_state → str;
  base64_encode : str → str;
}.

(** What the documentation of those crates promises: feeding a hasher in pieces
    is feeding it the concatenation, and base64 is text and loses nothing. *)
Class HashCratesLaws (H : HashCrates) : Prop := {
  crc32_update_nil h : crc32_update h [] = h;
  crc32_update_app h a b : crc32_update (crc32_update h a) b = crc32_update h (a ++ b);
  sha1_update_nil h : sha1_update h [] = h;
  sha1_update_app h a b : sha1_update (sha1_update h a) b = sha1_update h (a ++ b);
  sha256_update_nil h : sha256_update h [] = h;
  sha256_update_app h a b : sha256_update (sha256_update h a) b = sha256_update h (a ++ b);
  base64_encode_inj : Inj (=) (=) base64_encode;
  base64_encode_text s : utf8 (base64_encode s);
}.

(** ** The reflected CRC steps *)

(** One pass of the [for _ in 0..8] loop body. *)
Definition crc_shift (poly_rev crc : N) : N :=
  if negb (N.land crc 1 =? 0)%N then N.lxor (N.shiftr crc 1) poly_rev else N.shiftr crc 1.

Fixpoint iterate {A} (n : nat) (f : A → A) (a : A) : A :=
  match n with O => a | S n' => iterate n' f (f a) end.

Definition crc32_reflected_step (crc : N) (byte : byte) (poly_rev : N) : N :=
  iterate 8 (crc_shift poly_rev) (N.lxor crc (u8 byte)).

Definition crc64_reflected_step (crc : N) (byte : byte) (poly_rev : N) : N :=
  iterate 8 (crc_shift poly_rev) (N.lxor crc (u8 byte)).

(** [to_be_bytes] of an [n]-byte integer. *)
Fixpoint to_be_bytes (n : nat) (v : N) : str :=
  match n with O => [] | S n' => to_be_bytes n' (v / 256)%N ++ [as_u8 v] end.

Section checksummer.
Context {H : HashCrates}.

(** A running checksum over a body. *)
Inductive Checksummer :=
  | CsCrc32 (h : crc32_state)
  | CsCrc32c (crc : N)
  | CsSha1 (h : sha1_state)
  | CsSha256 (h : sha256_state)
  | CsCrc64Nvme (crc : N).

(** [ChecksumAlgorithm::hasher]. *)
Definition hasher (a : ChecksumAlgorithm) : Checksummer :=
  match a with
  | Crc32 => CsCrc32 crc32_new
  | Crc32c => CsCrc32c u32_MAX
  | Sha1 => CsSha1 sha1_new
  | Sha256 => CsSha256 sha256_new
  | Crc64Nvme => CsCrc64Nvme u64_MAX
  end.

(** [Checksummer::update]. *)
Definition update (c : Checksummer) (data : str) : Checksummer :=
  match c with
  | CsCrc32 h => CsCrc32 (crc32_update h data)
  | CsCrc32c crc =>
      CsCrc32c (fold_left (λ crc byte, crc32_reflected_step crc byte CRC32C_POLY_REV) data crc)
  | CsSha1 h => CsSha1 (sha1_update h data)
  | CsSha256 h => CsSha256 (sha256_update h data)
  | CsCrc64Nvme crc =>
      CsCrc64Nvme (fold_left (λ crc byte, crc64_reflected_step crc byte CRC64NVME_POLY_REV) data crc)
  end.

(** [Checksummer::finalize_base64]. *)
Definition finalize_base64 (c : Checksummer) : str :=
  match c with
  | CsCrc32 h => base64_encode (to_be_bytes 4 (crc32_finalize h))
  | CsCrc32c crc => base64_encode (to_be_bytes 4 (N.lxor crc u32_MAX))
  | CsSha1 h => base64_encode (sha1_finalize h)
  | CsSha256 h => base64_encode (sha256_finalize h)
  | CsCrc64Nvme crc => base64_encode (to_be_bytes 8 (N.lxor crc u64_MAX))
  end.

(** The value of a checksum over a whole body, the reference for every streamed
    computation. *)
Definition checksum_of (a : ChecksumAlgorithm) (body : str) : str :=
  finalize_base64 (update (hasher a) body).

End checksummer.

(** A checksum stored beside an object. *)
Record StoredChecksum := mkStoredChecksum {
  algorithm : ChecksumAlgorithm;
  value : str;
}.

#[global] Instance stored_checksum_eq_dec : EqDecision StoredChecksum.
Proof. solve_decision. Defined.

(** ** The catalogue definition of a CRC *)

(** The low [n] bits of [v], most significant first becoming least. *)
Fixpoint reflect (n : nat) (v : N) : N :=
  match n with
  | O => 0%N
  | S n' => N.lor (N.shiftl (N.b2n (N.testbit v 0)) (N.of_nat n')) (reflect n' (N.shiftr v 1))
  end.

(** One message bit into a [w]-bit register, most significant bit first:
    polynomial division by [poly]. *)
Definition crc_bit (w : nat) (poly : N) (r : N) (bit : bool) : N :=
  let shifted := (N.shiftl r 1 mod 2 ^ N.of_nat w)%N in
  if xorb (N.testbit r (N.of_nat w - 1)) bit then N.lxor shifted poly else shifted.

(** The bits of a byte in the order a reflected CRC takes them. *)
Definition bits_lsb (n : nat) (v : N) : list bool := (λ i, N.testbit v (N.of_nat i)) <$> seq 0 n.

(** The CRC of the catalogue: [refin] and [refout] set, [init] and [xorout] all
    ones. *)
Definition crc_model (w : nat) (poly : N) (data : str) : N :=
  let ones := (N.ones (N.of_nat w)) in
  let r := fold_left (λ r b, fold_left (crc_bit w poly) (bits_lsb 8 (u8 b)) r) data ones in
  N.lxor (reflect w r) ones.

Definition CRC32C_POLY : N := 0x1EDC6F41.
Definition CRC64NVME_POLY : N := 0xAD93D23594C93659.

Example crc32c_check : crc_model 32 CRC32C_POLY (b#"123456789") = 0xE3069283%N.
Proof. by vm_compute. Qed.
Example crc64nvme_check : crc_model 64 CRC64NVME_POLY (b#"123456789") = 0xAE8B14860A799888%N.
Proof. by vm_compute. Qed.

(** ** Bit facts *)

Lemma reflect_testbit n v i :
  N.testbit (reflect n v) i
  = if (i <? N.of_nat n)%N then N.testbit v (N.of_nat n - 1 - i) else false.
Proof.
  revert v. induction n as [|n IH]; intros v; cbn [reflect].
  { rewrite N.bits_0. destruct (N.ltb_spec i (N.of_nat 0)); [lia|done]. }
  rewrite N.lor_spec, IH, N.shiftr_spec by lia.
  destruct (N.ltb_spec i (N.of_nat n)) as [Hlt|Hge].
  - rewrite N.shiftl_spec_low by lia. destruct (N.ltb_spec i (N.of_nat (S n))); [|lia].
    simpl. f_equal. lia.
  - rewrite orb_false_r, N.shiftl_spec_high' by lia.
    destruct (N.ltb_spec i (N.of_nat (S n))) as [Hlt|Hge'].
    + replace (i - N.of_nat n)%N with 0%N by lia. rewrite N.b2n_bit0. f_equal. lia.
    + destruct (i - N.of_nat n)%N eqn:E; [lia|]. by destruct (N.testbit v 0).
Qed.

Lemma reflect_lxor n a b : reflect n (N.lxor a b) = N.lxor (reflect n a) (reflect n b).
Proof.
  apply N.bits_inj. intros i. rewrite N.lxor_spec, !reflect_testbit, N.lxor_spec.
  by destruct (i <? N.of_nat n)%N.
Qed.

Lemma reflect_ones n : reflect n (N.ones (N.of_nat n)) = N.ones (N.of_nat n).
Proof.
  apply N.bits_inj. intros i. rewrite reflect_testbit.
  destruct (N.ltb_spec i (N.of_nat n)).
  - rewrite !N.ones_spec_low by lia. done.
  - by rewrite N.ones_spec_high by lia.
Qed.

(** Reflection turns the shift of the catalogue into the shift of the source. *)
Lemma reflect_shift n r :
  reflect n (N.shiftl r 1 mod 2 ^ N.of_nat n)%N = N.shiftr (reflect n r) 1.
Proof.
  apply N.bits_inj. intros i. rewrite N.shiftr_spec, !reflect_testbit by lia.
  destruct (N.ltb_spec i (N.of_nat n)), (N.ltb_spec (i + 1) (N.of_nat n)); try lia; try done.
  - rewrite N.mod_pow2_bits_low by lia. rewrite N.shiftl_spec_high by lia. f_equal. lia.
  - rewrite N.mod_pow2_bits_low by lia. rewrite N.shiftl_spec_low by lia. done.
Qed.

(** One message bit into the reflected register. *)
Definition crc_bit_rev (poly_rev s : N) (bit : bool) : N :=
  if xorb (N.testbit s 0) bit then N.lxor (N.shiftr s 1) poly_rev else N.shiftr s 1.

Lemma crc_bit_reflect w poly r bit : w ≠ 0 →
  reflect w (crc_bit w poly r bit) = crc_bit_rev (reflect w poly) (reflect w r) bit.
Proof.
  intros Hw. unfold crc_bit, crc_bit_rev. rewrite reflect_testbit.
  destruct (N.ltb_spec 0 (N.of_nat w)); [|lia]. rewrite N.sub_0_r.
  destruct (xorb _ bit); [by rewrite reflect_lxor, reflect_shift|apply reflect_shift].
Qed.

Lemma crc_shift_bit poly s : crc_shift poly s = crc_bit_rev poly s false.
Proof.
  unfold crc_shift, crc_bit_rev. rewrite xorb_false_r.
  replace (negb (N.land s 1 =? 0)%N) with (N.testbit s 0); [done|].
  change 1%N with (N.ones 1) at 1. rewrite N.land_ones. change (2 ^ 1)%N with 2%N.
  rewrite <- N.bit0_mod. by destruct (N.testbit s 0).
Qed.

Lemma bits_lsb_S n v : bits_lsb (S n) v = N.testbit v 0 :: bits_lsb n (N.shiftr v 1).
Proof.
  unfold bits_lsb. cbn [seq]. rewrite fmap_cons. f_equal.
  rewrite <- fmap_S_seq, <- list_fmap_compose. apply list_fmap_ext. intros i x _. simpl.
  rewrite N.shiftr_spec by lia. f_equal. lia.
Qed.

(** Xoring a chunk of bits into the register and shifting [n] times is feeding
    the bits one by one. *)
Lemma crc_shift_bits poly n s v :
  (v < 2 ^ N.of_nat n)%N →
  iterate n (crc_shift poly) (N.lxor s v) = fold_left (crc_bit_rev poly) (bits_lsb n v) s.
Proof.
  revert s v. induction n as [|n IH]; intros s v Hv.
  { assert (v = 0)%N as -> by (simpl in Hv; lia). by rewrite N.lxor_0_r. }
  rewrite bits_lsb_S. cbn [iterate fold_left]. rewrite crc_shift_bit.
  replace (crc_bit_rev poly (N.lxor s v) false)
    with (N.lxor (crc_bit_rev poly s (N.testbit v 0)) (N.shiftr v 1)).
  - apply IH. rewrite N.shiftr_div_pow2. apply N.Div0.div_lt_upper_bound.
    rewrite Nat2N.inj_succ, N.pow_succ_r' in Hv. lia.
  - unfold crc_bit_rev. rewrite N.lxor_spec, xorb_false_r, N.shiftr_lxor.
    destruct (xorb (N.testbit s 0) (N.testbit v 0)); [|done].
    rewrite !N.lxor_assoc. f_equal. apply N.lxor_comm.
Qed.

Lemma crc_bits_reflect w poly bits r : w ≠ 0 →
  reflect w (fold_left (crc_bit w poly) bits r)
  = fold_left (crc_bit_rev (reflect w poly)) bits (reflect w r).
Proof.
  intros Hw. revert r. induction bits as [|b bits IH]; intros r; [done|]. simpl.
  by rewrite IH, crc_bit_reflect.
Qed.

(** The byte loop of the source, against the bit loop of the catalogue. *)
Lemma crc_bytes_reflect w poly data r : w ≠ 0 →
  fold_left (λ crc b, iterate 8 (crc_shift (reflect w poly)) (N.lxor crc (u8 b))) data (reflect w r)
  = reflect w (fold_left (λ r b, fold_left (crc_bit w poly) (bits_lsb 8 (u8 b)) r) data r).
Proof.
  intros Hw. revert r. induction data as [|b data IH]; intros r; [done|]. cbn [fold_left].
  rewrite <- IH. f_equal. rewrite crc_shift_bits by apply u8_lt. by rewrite crc_bits_reflect.
Qed.

Lemma crc32c_poly : reflect 32 CRC32C_POLY = CRC32C_POLY_REV.
Proof. by vm_compute. Qed.
Lemma crc64nvme_poly : reflect 64 CRC64NVME_POLY = CRC64NVME_POLY_REV.
Proof. by vm_compute. Qed.

(** ** Widths *)

Lemma lt_pow2_bits n v : (v < 2 ^ n)%N ↔ ∀ i, (n <= i)%N → N.testbit v i = false.
Proof.
  split.
  - intros Hv i Hi. rewrite <- (N.mod_small v (2 ^ n)) by done. by apply N.mod_pow2_bits_high.
  - intros Hb. replace v with (v mod 2 ^ n)%N; [apply N.mod_lt; by apply N.pow_nonzero|].
    apply N.bits_inj. intros i. destruct (N.lt_ge_cases i n).
    + by apply N.mod_pow2_bits_low.
    + by rewrite N.mod_pow2_bits_high, Hb.
Qed.

Lemma lxor_width n a b : (a < 2 ^ n → b < 2 ^ n → N.lxor a b < 2 ^ n)%N.
Proof.
  rewrite !lt_pow2_bits. intros Ha Hb i Hi. by rewrite N.lxor_spec, Ha, Hb.
Qed.

Lemma crc_shift_width n poly s : (poly < 2 ^ n → s < 2 ^ n → crc_shift poly s < 2 ^ n)%N.
Proof.
  intros Hp Hs. assert (N.shiftr s 1 < 2 ^ n)%N.
  { apply lt_pow2_bits. intros i Hi. rewrite N.shiftr_spec by lia.
    apply lt_pow2_bits with n; [done|lia]. }
  unfold crc_shift. case_match; [by apply lxor_width|done].
Qed.

Lemma iterate_inv {A} (P : A → Prop) f n a : (∀ a, P a → P (f a)) → P a → P (iterate n f a).
Proof. intros Hf. revert a. induction n as [|n IH]; intros a Ha; simpl; auto. Qed.

Lemma crc_bytes_width n poly data s :
  (8 <= n → poly < 2 ^ n → s < 2 ^ n →
   fold_left (λ crc b, iterate 8 (crc_shift poly) (N.lxor crc (u8 b))) data s < 2 ^ n)%N.
Proof.
  intros Hn Hp. revert s. induction data as [|b data IH]; intros s Hs; [done|]. cbn [fold_left].
  apply IH, (iterate_inv (λ x, x < 2 ^ n)%N); [intros x; by apply crc_shift_width|].
  apply lxor_width; [done|]. pose proof (u8_lt b).
  assert (2 ^ 8 <= 2 ^ n)%N by (apply N.pow_le_mono_r; lia). change (2 ^ 8)%N with 256%N in *. lia.
Qed.

(** ** Streaming *)

Section streaming.
Context {H : HashCrates} {HL : HashCratesLaws H}.

(** A checksum fed chunk by chunk is the checksum of the concatenation. *)
Lemma update_app c a b : update (update c a) b = update c (a ++ b).
Proof.
  destruct c; simpl; f_equal.
  - apply crc32_update_app.
  - by rewrite fold_left_app.
  - apply sha1_update_app.
  - apply sha256_update_app.
  - by rewrite fold_left_app.
Qed.

Lemma update_nil c : update c [] = c.
Proof.
  destruct c; simpl; f_equal; [apply crc32_update_nil|apply sha1_update_nil|apply sha256_update_nil].
Qed.

Lemma update_chunks c chunks : fold_left update chunks c = update c (concat chunks).
Proof.
  revert c. induction chunks as [|x chunks IH]; intros c; simpl; [by rewrite update_nil|].
  by rewrite IH, update_app.
Qed.

(** However a body is split into chunks, feeding the chunks to the hasher of
    any of the five algorithms in order gives the checksum of the whole body. *)
Theorem checksum_chunk_invariant a chunks :
  finalize_base64 (fold_left update chunks (hasher a)) = checksum_of a (concat chunks).
Proof. by rewrite update_chunks. Qed.

(** The register of a CRC hasher fits the integer type the source keeps it in. *)
Definition in_width (c : Checksummer) : Prop :=
  match c with
  | CsCrc32c crc => (crc < 2 ^ 32)%N
  | CsCrc64Nvme crc => (crc < 2 ^ 64)%N
  | _ => True
  end.

(** The registers never outgrow their integers: starting from [hasher], any
    sequence of updates keeps the CRC-32C register below 2^32 and the
    CRC-64/NVME register below 2^64, so no shift or xor of the source can wrap
    or lose a bit. *)
Theorem crc_registers_in_width a chunks : in_width (fold_left update chunks (hasher a)).
Proof.
  assert (∀ c data, in_width c → in_width (update c data)) as Hstep.
  { intros [] data; simpl; try done; intros Hc; by apply crc_bytes_width. }
  assert (in_width (hasher a)) as Ha by by destruct a.
  revert Ha. generalize (hasher a). induction chunks as [|x chunks IH]; simpl; auto.
Qed.

(** C26: the two reflected CRC loops of the source compute the catalogue CRCs:
    CRC-32C is polynomial division by 0x1EDC6F41 and CRC-64/NVME by
    0xAD93D23594C93659, with reflected input and output and all-ones start and
    final xor, and the value is the base64 of the big-endian bytes. *)
Theorem reflected_crc_correct data :
  checksum_of Crc32c data = base64_encode (to_be_bytes 4 (crc_model 32 CRC32C_POLY data))
  ∧ checksum_of Crc64Nvme data = base64_encode (to_be_bytes 8 (crc_model 64 CRC64NVME_POLY data)).
Proof.
  unfold checksum_of, crc_model. cbn [hasher update finalize_base64]. split; do 2 f_equal.
  - rewrite <- (crc_bytes_reflect 32), reflect_ones, crc32c_poly by done. done.
  - rewrite <- (crc_bytes_reflect 64), reflect_ones, crc64nvme_poly by done. done.
Qed.

End streaming.

(** A model of the crates in which their laws hold: a hasher remembers the
    message, digests are the message itself (CRC-32 is the reflected loop over
    the IEEE polynomial), and base64 is replaced by two letters per byte. *)

Definition two_letters (b : byte) : str :=
  [as_u8 (0x61 + N.shiftr (u8 b) 4); as_u8 (0x61 + N.land (u8 b) 0x0F)]%N.

Definition of_letters (x y : byte) : byte := as_u8 (N.lor (N.shiftl (u8 x - 0x61) 4) (u8 y - 0x61)).

Lemma two_letters_spec b :
  (∃ x y, two_letters b = [x; y] ∧ of_letters x y = b)
  ∧ Forall (λ x, (u8 x < 0x80)%N) (two_letters b).
Proof.
  split.
  - do 2 eexists. split; [reflexivity|]. byte_cases b.
  - refine (bool_decide_unpack _ _). byte_cases b.
Qed.

#[local] Instance plain_crates : HashCrates := {|
  crc32_state := N; crc32_new := u32_MAX;
  crc32_update h data := fold_left (λ crc b, crc32_reflected_step crc b 0xEDB88320) data h;
  crc32_finalize h := N.lxor h u32_MAX;
  sha1_state := str; sha1_new := []; sha1_update := app; sha1_finalize h := h;
  sha256_state := str; sha256_new := []; sha256_update := app; sha256_finalize h := h;
  base64_encode s := concat (two_letters <$> s)
|}.

Lemma plain_crates_laws : HashCratesLaws plain_crates.
Proof.
  split; try done.
  - intros h a b. simpl. by rewrite fold_left_app.
  - intros h. apply app_nil_r.
  - intros h a b. symmetry. apply app_assoc.
  - intros h. apply app_nil_r.
  - intros h a b. symmetry. apply app_assoc.
  - intros x. induction x as [|b x IH]; intros [|b' y]; cbn; try done.
    intros [= H1 H2 H3]. f_equal; [|by apply IH].
    destruct (two_letters_spec b) as [(p & q & Hb & Hbe) _], (two_letters_spec b') as [(p' & q' & Hb' & Hbe') _].
    injection Hb as ? ?. injection Hb' as ? ?. congruence.
  - intros x. apply utf8_ascii. cbn. induction x as [|b x IH]; [constructor|].
    rewrite fmap_cons. cbn [concat]. apply Forall_app. split; [apply two_letters_spec|done].
Qed.

Lemma checksum_chunk_invariant_witness :
  finalize_base64 (fold_left update [b#"hello "; []; b#"world"] (hasher Crc32))
  = checksum_of Crc32 (b#"hello world")
  ∧ checksum_of Crc32 (b#"hello world") = base64_encode (to_be_bytes 4 0x0d4a1185).
Proof.
  split; [|by vm_compute].
  exact (@checksum_chunk_invariant plain_crates plain_crates_laws Crc32 [b#"hello "; []; b#"world"]).
Defined.

(** The name of an algorithm reads back as the algorithm, in any case. *)
Lemma from_name_as_str a name :
  to_ascii_lowercase name = to_ascii_lowercase (as_str a) → from_name name = Some a.
Proof.
  intros Hn. unfold from_name, eq_ignore_ascii_case. rewrite Hn. by destruct a; vm_compute.
Qed.
