(* ===== verification/EngineError.v ===== *)
(** * Errors: [std::io::Error] and [crates/engine/src/error.rs]

    The I/O error kinds the program distinguishes, the payloads it boxes into
    an [io::Error], and the engine's own error type with its single
    classification of an I/O error. *)

From S2P Require Import Prelude RustStr Checksum.

(** [std::io::ErrorKind]: the kinds the sources name, and one for all others. *)
Inductive ErrorKind :=
  | KNotFound
  | KAlreadyExists
  | KNotADirectory
  | KIsADirectory
  | KDirectoryNotEmpty
  | KInvalidFilename
  | KStorageFull
  | KInvalidData
  | KUnexpectedEof
  | KOther.

#[global] Instance error_kind_eq_dec : EqDecision ErrorKind.
Proof. solve_decision. Defined.

(** A checksum a [PutObject] requested but that could not be honoured as sent
    ([crates/api/src/checksum.rs]). *)
Inductive ChecksumError :=
  | Mismatch (algorithm : ChecksumAlgorithm)
  | MissingTrailer (algorithm : ChecksumAlgorithm).

#[global] Instance checksum_error_eq_dec : EqDecision ChecksumError.
Proof. solve_decision. Defined.

(** The [Box<dyn Error>] values that travel inside an [io::Error]: the only one
    any code looks into is a [ChecksumError]. *)
Inductive BoxedError :=
  | BoxedChecksum (e : ChecksumError)
  | BoxedOther.

#[global] Instance boxed_error_eq_dec : EqDecision BoxedError.
Proof. solve_decision. Defined.

(** [std::io::Error]: a kind, and what [get_ref] returns. *)
Record io_error := mkIoError {
  kind : ErrorKind;
  get_ref : option BoxedError;
}.

#[global] Instance io_error_eq_dec : EqDecision io_error.
Proof. solve_decision. Defined.

(** An error reported by the operating system: a kind, no payload. *)
Definition os_error (k : ErrorKind) : io_error := mkIoError k None.

(** [io::Error::new] and [io::Error::other]. *)
Definition io_error_new (k : ErrorKind) (e : BoxedError) : io_error := mkIoError k (Some e).
Definition io_error_other (e : BoxedError) : io_error := io_error_new KOther e.

(** A storage engine failure. *)
Inductive EngineError :=
  | NoSuchBucket
  | BucketAlreadyExists
  | BucketNotEmpty
  | InvalidBucketName
  | NoSuchKey
  | InvalidRange
  | KeyTooLong
  | StorageFull
  | Io (e : io_error).

#[global] Instance engine_error_eq_dec : EqDecision EngineError.
Proof. solve_decision. Defined.

(** [impl From<std::io::Error> for EngineError], what every [?] on an
    [io::Error] applies. *)
Definition from_io (err : io_error) : EngineError :=
  match kind err with
  | KInvalidFilename => KeyTooLong
  | KStorageFull => StorageFull
  | _ => Io err
  end.
