(* ===== verification/Fs.v ===== *)
(** * The file system, and programs that call it

    The operations of [std::fs] and [tokio::fs] that the engine uses, on a
    file system whose state is a map from absolute paths to nodes.  A program
    is a tree of system calls, clock readings and lock operations.  [run] is
    the run of a program that has the machine to itself: it may return, fail,
    or be stopped in the middle (the process is killed); which system calls
    fail or are the last is decided by the environment, so a theorem about
    every environment is a theorem about every failure and every crash point.
    The interleaved runs of many programs are in [Conc].

    The state keeps two maps: [vol], what the running system sees, and [dur],
    the entries that are guaranteed to be on the disk after a loss of power.
    Symbolic links and permissions are not modelled. *)

From S2P Require Import Prelude RustStr RustPath Checksum EngineError.

(** ** State *)

(** A directory, or a file with its bytes and whether they have been synced. *)
Inductive node :=
  | NDir
  | NFile (data : str) (synced : bool).

#[global] Instance node_eq_dec : EqDecision node.
Proof. solve_decision. Defined.

(** An absolute path: the names from the root down. *)
Abbreviation apath := (list str).

Abbreviation tree := (gmap (list str) node).

Record disk := mkDisk {
  vol : tree;
  dur : tree;
}.

(** ** Environment *)

(** What becomes of one system call. *)
Inductive fate :=
  | Proceed
  | Fail (e : io_error) (partial : nat)
  | Halt.

(** The machine the program runs on: the working directory, the longest file
    name, the longest path, the fate of each system call, the clock (nanoseconds
    since the epoch), the random UUIDs, the order a directory is listed in, and the
    modification time reported for a directory.  The kernel measures a path as the
    program spells it; all paths of the engine begin with the spelling of its data
    directory, which is longer or shorter than the absolute path of it by a constant,
    and [path_max] is the limit in terms of absolute paths. *)
Class Env := {
  cwd : apath;
  name_max : nat;
  path_max : nat;
  fate_of : nat → fate;
  clock : nat → Z;
  uuid : nat → str;
  dir_order : list str → list str;
  dir_mtime : apath → option Z;
}.

(** The errors the environment injects carry no meaning about the state of the
    file system: those kinds are only reported when they are true. *)
Definition environmental (k : ErrorKind) : Prop := k = KStorageFull ∨ k = KOther.

Class EnvOk (E : Env) : Prop := {
  fail_environmental n e k : fate_of n = Fail e k → environmental (kind e) ∧ get_ref e = None;
  dir_order_perm l : dir_order l ≡ₚ l;
  uuid_plain n : plain_name (uuid n ++ b#".tmp") ∧ length (uuid n ++ b#".tmp") ≤ 40;
  name_max_large : 255 ≤ name_max;
}.

(** An environment in which nothing fails and nobody is killed. *)
Class NoFaults (E : Env) : Prop := no_faults n : fate_of n = Proceed.

(** ** Programs *)

(** The names of the locks the engine keeps in its two tables: one per bucket,
    one per key of a bucket. *)
Inductive lock :=
  | BucketLock (bucket : str)
  | KeyLock (bucket key : str).

#[global] Instance lock_eq_dec : EqDecision lock.
Proof. solve_decision. Defined.

#[global] Program Instance lock_countable : Countable lock :=
  inj_countable'
    (λ l, match l with BucketLock b => inl b | KeyLock b k => inr (b, k) end)
    (λ x, match x with inl b => BucketLock b | inr (b, k) => KeyLock b k end) _.
Next Obligation. by intros []. Qed.

(** The disk, a counter of the calls made, and the lock tables: for each entry
    the number of holders besides the table itself. *)
Record world := mkWorld {
  wdisk : disk;
  ticks : nat;
  locks : gmap lock nat;
}.

(** How a lock is taken. *)
Inductive mode := Shared | Exclusive.

#[global] Instance mode_eq_dec : EqDecision mode.
Proof. solve_decision. Defined.

(** A program: done, or the next thing it asks of the machine and how it goes on
    with the answer.  A system call is a change [op] of the disk that happens at
    once, and what is left behind of it, [part], when it fails on the way.  Other
    programs may run between two steps of one: a program does not say what the
    disk is like then.  [Enter] and [Leave] mark the calls of one closure on the
    blocking pool. *)
Inductive M (E A : Type) : Type :=
  | Done (r : result A E)
  | Sys (X : Type) (op : disk → result X io_error * disk) (part : nat → disk → disk)
      (k : result X io_error → M E A)
  | Now (k : Z → M E A)
  | Uuid (k : str → M E A)
  | Bound (k : nat → M E A)
  | Acquire (l : lock) (m : mode) (k : M E A)
  | Release (l : lock) (m : mode) (k : M E A)
  | Enter (k : M E A)
  | Leave (k : M E A).
Arguments Done {E A} r.
Arguments Sys {E A X} op part k.
Arguments Now {E A} k.
Arguments Uuid {E A} k.
Arguments Bound {E A} k.
Arguments Acquire {E A} l m k.
Arguments Release {E A} l m k.
Arguments Enter {E A} k.
Arguments Leave {E A} k.

(** Go on with [k] from the result of [m], its error included. *)
Fixpoint andThen {E F A B} (m : M E A) (k : result A E → M F B) : M F B :=
  match m with
  | Done r => k r
  | Sys op part c => Sys op part (λ x, andThen (c x) k)
  | Now c => Now (λ t, andThen (c t) k)
  | Uuid c => Uuid (λ u, andThen (c u) k)
  | Bound c => Bound (λ n, andThen (c n) k)
  | Acquire l md c => Acquire l md (andThen c k)
  | Release l md c => Release l md (andThen c k)
  | Enter c => Enter (andThen c k)
  | Leave c => Leave (andThen c k)
  end.

Definition ret {E A} (a : A) : M E A := Done (Ok a).
Definition throw {E A} (e : E) : M E A := Done (Err e).

Definition bind {E A B} (m : M E A) (k : A → M E B) : M E B :=
  andThen m (λ r, match r with Ok a => k a | Err e => throw e end).

(** Look at the outcome of [m] instead of propagating its error. *)
Definition attempt {E F A} (m : M E A) : M F (result A E) := andThen m ret.

(** [map_err]. *)
Definition mapE {E F A} (f : E → F) (m : M E A) : M F A := andThen m (λ r, Done (map_err f r)).

#[global] Arguments bind : simpl never.
#[global] Arguments attempt : simpl never.
#[global] Arguments mapE : simpl never.

(** Lift a [Result]. *)
Definition lift {E A} (r : result A E) : M E A := Done r.

(** One system call. *)
Definition syscall {A} (op : disk → result A io_error * disk) (part : nat → disk → disk)
    : M io_error A := Sys op part Done.

Definition atomic {A} (op : disk → result A io_error * disk) : M io_error A :=
  syscall op (λ _ d, d).

(** The clock and the random generator do not touch the disk. *)
Definition now {F} : M F Z := Now ret.
Definition new_uuid {F} : M F str := Uuid ret.

(** How often a loop that follows the directories of the disk goes round: there
    are no more directories than entries. *)
Definition bound {F} : M F nat := Bound ret.

(** Several calls in one closure on the blocking pool ([spawn_blocking], as
    [tokio::fs] does for [create_dir_all] and [remove_dir_all]): once handed over
    it runs to its end, whatever becomes of the task that waits for it. *)
Definition blocking {E A} (m : M E A) : M E A := Enter (andThen m (λ r, Leave (Done r))).

Notation "x <- m ;; k" := (bind m (λ x, k))
  (at level 60, m at next level, right associativity) : aks3_scope.
Notation "m ;;; k" := (bind m (λ _, k)) (at level 60, right associativity) : aks3_scope.

Section sys.
Context {E : Env}.

(** [Arc::clone] of a table's entry, made if it is not there. *)
Definition take_entry (l : lock) (w : world) : world :=
  mkWorld (wdisk w) (ticks w) (<[l := S (default 0 (locks w !! l))]> (locks w)).

(** [impl Drop for LockEntry]: the guard goes first, and the entry with it if
    the table is the only holder left. *)
Definition drop_entry (l : lock) (w : world) : world :=
  mkWorld (wdisk w) (ticks w)
    (match locks w !! l with
     | Some (S n) => if bool_decide (n = 0) then delete l (locks w) else <[l := n]> (locks w)
     | _ => locks w
     end).

(** A program that has the machine to itself: the result, or [None] if the
    process was stopped, and the state it leaves.  A call happens, or fails having
    done part of its work, or the process is stopped before it.  Nobody else holds
    a lock. *)
Fixpoint run {X A} (m : M X A) (w : world) : option (result A X) * world :=
  match m with
  | Done r => (Some r, w)
  | Sys op part k =>
      match fate_of (ticks w) with
      | Proceed =>
          let '(r, d) := op (wdisk w) in run (k r) (mkWorld d (S (ticks w)) (locks w))
      | Fail e n => run (k (Err e)) (mkWorld (part n (wdisk w)) (S (ticks w)) (locks w))
      | Halt => (None, w)
      end
  | Now k => run (k (clock (ticks w))) (mkWorld (wdisk w) (S (ticks w)) (locks w))
  | Uuid k => run (k (uuid (ticks w))) (mkWorld (wdisk w) (S (ticks w)) (locks w))
  | Bound k => run (k (S (size (vol (wdisk w))))) w
  | Acquire l _ k => run k (take_entry l w)
  | Release l _ k => run k (drop_entry l w)
  | Enter k | Leave k => run k w
  end.
(** ** Path resolution *)

Definition resolve_step (base : apath) (c : Component) : apath :=
  match c with
  | RootDir => []
  | CurDir => base
  | ParentDir => removelast base
  | Normal n => base ++ [n]
  end.

Definition resolve (p : PathBuf) : apath := fold_left resolve_step p cwd.

(** The kernel's walk: from the root down, one name at a time.  A name is
    looked at only once the directory it is in has been found. *)
Fixpoint walk_from (m : tree) (base : apath) (rest : list str) : result node io_error :=
  match rest with
  | [] => ok_or (m !! base) (os_error KNotFound)
  | n :: rest' =>
      match m !! base with
      | Some NDir =>
          if (name_max <? length n)%nat then Err (os_error KInvalidFilename)
          else walk_from m (base ++ [n]) rest'
      | Some (NFile _ _) => Err (os_error KNotADirectory)
      | None => Err (os_error KNotFound)
      end
  end.

(** The length of a path as text: every name with the separator before it. *)
Definition path_len (p : apath) : nat := sum_list_with (λ n, S (length n)) p.

(** A path that is too long as a whole is refused before anything is looked up. *)
Definition walk (m : tree) (p : apath) : result node io_error :=
  if (path_max <? path_len p)%nat then Err (os_error KInvalidFilename) else walk_from m [] p.

(** The place for a new entry: its directory exists, and name and path are allowed.
    The root itself always exists. *)
Definition walk_new (m : tree) (p : apath) : result unit io_error :=
  match last p with
  | None => Err (os_error KAlreadyExists)
  | Some n =>
      if (path_max <? path_len p)%nat then Err (os_error KInvalidFilename)
      else
        match walk m (removelast p) with
        | Ok NDir => if (name_max <? length n)%nat then Err (os_error KInvalidFilename) else Ok ()
        | Ok (NFile _ _) => Err (os_error KNotADirectory)
        | Err e => Err e
        end
  end.

(** The name of [q] in directory [p], if it is directly inside. *)
Definition child_name (p q : apath) : option str :=
  match last q with
  | Some n => if bool_decide (removelast q = p) then Some n else None
  | None => None
  end.

Definition children (m : tree) (p : apath) : list str :=
  omap (λ '(q, _), child_name p q) (map_to_list m).

Definition set_vol (f : tree → tree) (d : disk) : disk := mkDisk (f (vol d)) (dur d).

(** ** System calls *)

(** [fs::metadata]; of the metadata only [is_dir] is used. *)
Definition metadata (p : PathBuf) : M io_error node := atomic (λ d, (walk (vol d) (resolve p), d)).

Definition is_dir_node (n : node) : bool := match n with NDir => true | NFile _ _ => false end.

(** [Path::is_dir]: any error reads as no. *)
Definition is_dir {F} (p : PathBuf) : M F bool :=
  r <- attempt (metadata p);;
  ret (match r with Ok n => is_dir_node n | Err _ => false end).

(** [fs::try_exists]. *)
Definition try_exists (p : PathBuf) : M io_error bool :=
  r <- attempt (metadata p);;
  match r with
  | Ok _ => ret true
  | Err e => if bool_decide (kind e = KNotFound) then ret false else throw e
  end.

(** [fs::create_dir]. *)
Definition create_dir (p : PathBuf) : M io_error unit := atomic (λ d,
  let a := resolve p in
  match walk_new (vol d) a with
  | Err e => (Err e, d)
  | Ok _ =>
      match vol d !! a with
      | Some _ => (Err (os_error KAlreadyExists), d)
      | None => (Ok (), set_vol (<[a := NDir]>) d)
      end
  end).

(** The last attempt of [DirBuilder::create_dir_all], once the parent exists. *)
Definition create_dir_or_present (p : PathBuf) : M io_error unit :=
  r <- attempt (create_dir p);;
  match r with
  | Ok _ => ret ()
  | Err e => b <- is_dir p;; if (b : bool) then ret () else throw e
  end.

(** [fs::create_dir_all]: try the directory itself, and only when something
    above it is missing make the parent first. *)
Fixpoint create_dir_all_fuel (n : nat) (p : PathBuf) : M io_error unit :=
  match p with
  | [] => ret ()
  | _ =>
      r <- attempt (create_dir p);;
      match r with
      | Ok _ => ret ()
      | Err e =>
          if bool_decide (kind e = KNotFound) then
            match n, parent p with
            | S n', Some q => create_dir_all_fuel n' q;;; create_dir_or_present p
            | _, _ => throw (os_error KOther)
            end
          else b <- is_dir p;; if (b : bool) then ret () else throw e
      end
  end.

Definition create_dir_all (p : PathBuf) : M io_error unit :=
  blocking (create_dir_all_fuel (length p) p).

(** [fs::read_dir], all names at once. *)
Definition read_dir (p : PathBuf) : M io_error (list str) := atomic (λ d,
  match walk (vol d) (resolve p) with
  | Ok NDir => (Ok (dir_order (children (vol d) (resolve p))), d)
  | Ok (NFile _ _) => (Err (os_error KNotADirectory), d)
  | Err e => (Err e, d)
  end).

(** [fs::read]. *)
Definition read (p : PathBuf) : M io_error str := atomic (λ d,
  match walk (vol d) (resolve p) with
  | Ok (NFile data _) => (Ok data, d)
  | Ok NDir => (Err (os_error KIsADirectory), d)
  | Err e => (Err e, d)
  end).

(** [OpenOptions::new().write(true).create_new(true).open]. *)
Definition open_new (p : PathBuf) : M io_error unit := atomic (λ d,
  let a := resolve p in
  match walk_new (vol d) a with
  | Err e => (Err e, d)
  | Ok _ =>
      match vol d !! a with
      | Some _ => (Err (os_error KAlreadyExists), d)
      | None => (Ok (), set_vol (<[a := NFile [] false]>) d)
      end
  end).

Definition append_bytes (a : apath) (buf : str) (d : disk) : disk :=
  match vol d !! a with
  | Some (NFile data _) => set_vol (<[a := NFile (data ++ buf) false]>) d
  | _ => d
  end.

(** [write_all] on an open file; a failed write may have written a prefix. *)
Definition append (p : PathBuf) (buf : str) : M io_error unit :=
  syscall (λ d, (Ok (), append_bytes (resolve p) buf d))
          (λ k d, append_bytes (resolve p) (take k buf) d).

(** [File::flush]. *)
Definition flush (p : PathBuf) : M io_error unit := atomic (λ d, (Ok (), d)).

(** [File::sync_all] on a file. *)
Definition sync_file (p : PathBuf) : M io_error unit := atomic (λ d,
  match vol d !! resolve p with
  | Some (NFile data _) => (Ok (), set_vol (<[resolve p := NFile data true]>) d)
  | _ => (Ok (), d)
  end).

(** [fs::rename] of a file. *)
Definition rename (src dst : PathBuf) : M io_error unit := atomic (λ d,
  let a := resolve src in let b := resolve dst in
  match walk (vol d) a with
  | Err e => (Err e, d)
  | Ok NDir => (Err (os_error KOther), d)
  | Ok (NFile data synced) =>
      match walk_new (vol d) b with
      | Err e => (Err e, d)
      | Ok _ =>
          match vol d !! b with
          | Some NDir => (Err (os_error KIsADirectory), d)
          | _ => (Ok (), set_vol (λ m, <[b := NFile data synced]> (delete a m)) d)
          end
      end
  end).

(** [fs::remove_file]. *)
Definition remove_file (p : PathBuf) : M io_error unit := atomic (λ d,
  match walk (vol d) (resolve p) with
  | Ok (NFile _ _) => (Ok (), set_vol (delete (resolve p)) d)
  | Ok NDir => (Err (os_error KIsADirectory), d)
  | Err e => (Err e, d)
  end).

(** [fs::remove_dir]. *)
Definition remove_dir (p : PathBuf) : M io_error unit := atomic (λ d,
  match walk (vol d) (resolve p) with
  | Ok NDir =>
      if bool_decide (children (vol d) (resolve p) = [])
      then (Ok (), set_vol (delete (resolve p)) d)
      else (Err (os_error KDirectoryNotEmpty), d)
  | Ok (NFile _ _) => (Err (os_error KNotADirectory), d)
  | Err e => (Err e, d)
  end).

Definition deeper (q q' : apath) : Prop := length q' ≤ length q.
#[global] Instance deeper_dec : RelDecision deeper.
Proof. intros q q'. unfold deeper. apply _. Defined.

(** Everything at or below [p], deepest first. *)
Definition subtree (m : tree) (p : apath) : list apath :=
  merge_sort deeper
    (filter (λ q, p `prefix_of` q) (map_to_list m).*1).

(** One entry of a tree that is being removed: a directory that somebody put an
    entry in meanwhile stays, an entry that is gone already is fine. *)
Definition unlink (q : apath) : M io_error unit := atomic (λ d,
  if bool_decide (children (vol d) q = [])
  then (Ok (), set_vol (delete q) d)
  else (Err (os_error KDirectoryNotEmpty), d)).

Fixpoint unlink_all (qs : list apath) : M io_error unit :=
  match qs with
  | [] => ret ()
  | q :: qs' => unlink q;;; unlink_all qs'
  end.

Definition snapshot : M io_error tree := atomic (λ d, (Ok (vol d), d)).

(** [fs::remove_dir_all]: one removal per entry, contents before containers. *)
Definition remove_dir_all (p : PathBuf) : M io_error unit := blocking (
  n <- metadata p;;
  m <- snapshot;;
  match n with
  | NDir => unlink_all (subtree m (resolve p))
  | NFile _ _ => throw (os_error KNotADirectory)
  end).

(** [q] is directly inside directory [a]. *)
Definition is_child (a q : apath) : bool :=
  match child_name a q with Some _ => true | None => false end.

(** [q] lies below an entry of [a] that is no longer there. *)
Definition below_missing (a : apath) (m : tree) (q : apath) : bool :=
  bool_decide (a `prefix_of` q) && (length a <? length q)%nat
  && bool_decide (m !! take (S (length a)) q = None).

(** Make the entries of directory [a] durable. *)
Definition sync_entries (a : apath) (d : disk) : disk :=
  mkDisk (vol d)
    (filter (λ '(q, _), is_child a q = true) (vol d)
     ∪ filter (λ '(q, _), is_child a q = false ∧ below_missing a (vol d) q = false) (dur d)).

(** [File::open(dir).await?.sync_all().await]. *)
Definition sync_dir (p : PathBuf) : M io_error unit :=
  metadata p;;;
  atomic (λ d, (Ok (), sync_entries (resolve p) d)).
End sys.

(** [m w] is the run of [m] from [w]. *)
#[warning="-uniform-inheritance"] Coercion run : M >-> Funclass.

(** ** Running composed programs *)

Section run.
Context {E : Env}.

Lemma run_andThen {X Y A B} (m : M X A) (k : result A X → M Y B) w :
  run (andThen m k) w =
  match run m w with
  | (Some r, w') => run (k r) w'
  | (None, w') => (None, w')
  end.
Proof.
  revert w. induction m as [r|Z op part c IH|c IH|c IH|c IH|l md c IH|l md c IH|c IH|c IH]; intros w; cbn; [done| |apply IH..].
  destruct (fate_of (ticks w)); [|apply IH|done].
  destruct (op (wdisk w)) as [r d]. apply IH.
Qed.

Lemma run_bind {X A B} (m : M X A) (k : A → M X B) w :
  run (bind m k) w =
  match run m w with
  | (Some (Ok a), w') => run (k a) w'
  | (Some (Err e), w') => (Some (Err e), w')
  | (None, w') => (None, w')
  end.
Proof. unfold bind. rewrite run_andThen. by destruct (run m w) as [[[a|e]|] w']. Qed.

Lemma run_attempt {X Y A} (m : M X A) w :
  run (attempt m : M Y _) w =
  match run m w with
  | (Some r, w') => (Some (Ok r), w')
  | (None, w') => (None, w')
  end.
Proof. unfold attempt. by rewrite run_andThen. Qed.

Lemma run_mapE {X Y A} (f : X → Y) (m : M X A) w :
  run (mapE f m) w =
  match run m w with
  | (Some r, w') => (Some (map_err f r), w')
  | (None, w') => (None, w')
  end.
Proof. unfold mapE. by rewrite run_andThen. Qed.

Lemma run_blocking {X A} (m : M X A) w : run (blocking m) w = run m w.
Proof. unfold blocking. cbn. rewrite run_andThen. by destruct (run m w) as [[r|] w']. Qed.
End run.

(** ** What a program may ask for *)

Section every.
Context (C : ∀ X, (disk → result X io_error * disk) → (nat → disk → disk) → Prop) (L : lock → mode → Prop).

(** Whatever is answered, every call of the program is one of [C], and every lock
    it takes or drops one of [L]. *)
Fixpoint every {F A} (m : M F A) : Prop :=
  match m with
  | Done _ => True
  | Sys op part k => C _ op part ∧ ∀ r, every (k r)
  | Now k => ∀ t, every (k t)
  | Uuid k => ∀ u, every (k u)
  | Bound k => ∀ n, every (k n)
  | Acquire l md k | Release l md k => L l md ∧ every k
  | Enter k | Leave k => every k
  end.

Lemma every_andThen {F G A B} (m : M F A) (k : result A F → M G B) :
  every m → (∀ r, every (k r)) → every (andThen m k).
Proof. intros Hm Hk. induction m; naive_solver. Qed.

Lemma every_bind {F A B} (m : M F A) (k : A → M F B) :
  every m → (∀ a, every (k a)) → every (bind m k).
Proof. intros Hm Hk. apply every_andThen; [done|]. by intros [a|e]. Qed.

Lemma every_attempt {F G A} (m : M F A) : every m → every (attempt m : M G _).
Proof. intros Hm. by apply every_andThen. Qed.

Lemma every_mapE {F G A} (f : F → G) (m : M F A) : every m → every (mapE f m).
Proof. intros Hm. by apply every_andThen. Qed.

Lemma every_blocking {F A} (m : M F A) : every m → every (blocking m).
Proof. intros Hm. by apply every_andThen. Qed.

Lemma every_ret {F A} (a : A) : every (ret a : M F A).
Proof. done. Qed.
Lemma every_throw {F A} (e : F) : every (throw e : M F A).
Proof. done. Qed.
Lemma every_lift {F A} (r : result A F) : every (lift r).
Proof. done. Qed.
Lemma every_now {F} : every (now : M F Z).
Proof. by intros t. Qed.
Lemma every_new_uuid {F} : every (new_uuid : M F str).
Proof. by intros u. Qed.
Lemma every_bound {F} : every (bound : M F nat).
Proof. by intros n. Qed.

Lemma every_syscall {A} (op : disk → result A io_error * disk) part : C _ op part → every (syscall op part).
Proof. by intros. Qed.
Lemma every_atomic {A} (op : disk → result A io_error * disk) : C _ op (λ _ d, d) → every (atomic op).
Proof. by intros. Qed.
End every.

Lemma every_impl C C' L L' {F A} (m : M F A) :
  every C L m → (∀ X op part, C X op part → C' X op part) → (∀ l md, L l md → L' l md) → every C' L' m.
Proof. intros Hm HC HL. induction m; cbn in *; naive_solver. Qed.

Create HintDb every.
#[export] Hint Resolve every_ret every_throw every_lift every_now every_new_uuid every_bound : every.

(** Walk through the structure of a program. *)
Ltac every_step :=
  first
  [ solve [eauto with every]
  | apply every_bind; [|intro]
  | apply every_attempt
  | apply every_mapE
  | apply every_blocking
  | case_match ].
Ltac every := intros; cbn zeta; repeat every_step.
