(* ===== verification/FsFacts.v ===== *)
(** * Reasoning about programs over the file system

    A weakest-precondition calculus with three postconditions: one for a
    result, one for an error and one for the state in which the process may
    be found dead.  It holds for every environment; [injected] and [halts]
    say that the environment makes calls fail or kills the process, and are
    absurd under [NoFaults]. *)

From S2P Require Import Prelude RustStr RustPath Checksum EngineError Fs.

Create HintDb fs.

Section wp.
Context {E : Env}.

(** The environment makes some call fail with [e], or kills the process. *)
Definition injected (e : io_error) : Prop := ∃ n k, fate_of n = Fail e k.
Definition halts : Prop := ∃ n, fate_of n = Halt.

Definition wp {X A} (m : M X A) (Q : A → disk → Prop) (F : X → disk → Prop)
    (C : disk → Prop) (d : disk) : Prop :=
  ∀ t L, match m (mkWorld d t L) with
       | (Some (Ok a), w) => Q a (wdisk w)
       | (Some (Err e), w) => F e (wdisk w)
       | (None, w) => C (wdisk w)
       end.

Lemma wp_ret {X A} (a : A) (Q : A → disk → Prop) (F : X → disk → Prop) C d :
  Q a d → wp (ret a) Q F C d.
Proof. by intros H t L. Qed.

Lemma wp_throw {X A} (e : X) (Q : A → disk → Prop) (F : X → disk → Prop) C d :
  F e d → wp (throw e) Q F C d.
Proof. by intros H t L. Qed.

Lemma wp_lift {X A} (r : result A X) Q F C d :
  (∀ a, r = Ok a → Q a d) → (∀ e, r = Err e → F e d) → wp (lift r) Q F C d.
Proof. intros HQ HF t L. cbn. destruct r; auto. Qed.

Lemma wp_bind {X A B} (m : M X A) (k : A → M X B) Q F C d :
  wp m (λ a, wp (k a) Q F C) F C d → wp (bind m k) Q F C d.
Proof.
  intros H t L. specialize (H t L). rewrite run_bind.
  destruct (m (mkWorld d t L)) as [[[a|e]|] [d' t' L']]; simpl in *; [apply H|done..].
Qed.

Lemma wp_attempt {X Y A} (m : M X A) (Q : result A X → disk → Prop) (F : Y → disk → Prop) C d :
  wp m (λ a, Q (Ok a)) (λ e, Q (Err e)) C d → wp (attempt m) Q F C d.
Proof.
  intros H t L. specialize (H t L). rewrite run_attempt.
  by destruct (m (mkWorld d t L)) as [[[a|e]|] w].
Qed.

Lemma wp_mapE {X Y A} (f : X → Y) (m : M X A) Q F C d :
  wp m Q (λ e, F (f e)) C d → wp (mapE f m) Q F C d.
Proof.
  intros H t L. specialize (H t L). rewrite run_mapE.
  by destruct (m (mkWorld d t L)) as [[[a|e]|] w].
Qed.

Lemma wp_mono {X A} (m : M X A) (Q Q' : A → disk → Prop) (F F' : X → disk → Prop) (C C' : disk → Prop) d :
  wp m Q F C d →
  (∀ a d', Q a d' → Q' a d') → (∀ e d', F e d' → F' e d') → (∀ d', C d' → C' d') →
  wp m Q' F' C' d.
Proof.
  intros H HQ HF HC t L. specialize (H t L).
  destruct (m (mkWorld d t L)) as [[[a|e]|] w]; auto.
Qed.

Lemma wp_and {X A} (m : M X A) Q Q' F F' C C' d :
  wp m Q F C d → wp m Q' F' C' d →
  wp m (λ a d', Q a d' ∧ Q' a d') (λ e d', F e d' ∧ F' e d') (λ d', C d' ∧ C' d') d.
Proof.
  intros H H' t L. specialize (H t L). specialize (H' t L).
  by destruct (m (mkWorld d t L)) as [[[a|e]|] w].
Qed.

Lemma wp_true {X A} (m : M X A) (Q : A → disk → Prop) (F : X → disk → Prop) (C : disk → Prop) d :
  (∀ a d', Q a d') → (∀ e d', F e d') → (∀ d', C d') → wp m Q F C d.
Proof. intros HQ HF HC t L. destruct (m (mkWorld d t L)) as [[[a|e]|] w]; auto. Qed.

Lemma wp_now {X} Q (F : X → disk → Prop) C d : (∀ t, Q t d) → wp now Q F C d.
Proof. intros H t L. apply H. Qed.

Lemma wp_new_uuid {X} Q (F : X → disk → Prop) C d :
  (∀ n, Q (uuid n) d) → wp new_uuid Q F C d.
Proof. intros H t L. apply H. Qed.

Lemma wp_bound {X} Q (F : X → disk → Prop) C d :
  Q (S (size (vol d))) d → wp bound Q F C d.
Proof. by intros H t L. Qed.

Lemma wp_blocking {X A} (m : M X A) Q F C d : wp m Q F C d → wp (blocking m) Q F C d.
Proof. intros H t L. rewrite run_blocking. apply H. Qed.

Lemma wp_syscall {A} (op : disk → result A io_error * disk) part Q F C d :
  (∀ a d', op d = (Ok a, d') → Q a d') →
  (∀ e d', op d = (Err e, d') → F e d') →
  (∀ e k, injected e → F e (part k d)) → (halts → C d) →
  wp (syscall op part) Q F C d.
Proof.
  intros HQ HF HI HC t L. cbn.
  destruct (fate_of t) as [|e k|] eqn:Et; simpl.
  - destruct (op d) as [[a|e] d'] eqn:Eo; simpl; auto.
  - apply HI. by exists t, k.
  - apply HC. by exists t.
Qed.

Lemma wp_atomic {A} (op : disk → result A io_error * disk) Q F C d :
  (∀ a d', op d = (Ok a, d') → Q a d') →
  (∀ e d', op d = (Err e, d') → F e d') →
  (∀ e, injected e → F e d) → (halts → C d) →
  wp (atomic op) Q F C d.
Proof. intros HQ HF HI HC. apply wp_syscall; auto. Qed.

(** A run of a program, read off its weakest precondition. *)
Lemma wp_run {X A} (m : M X A) Q F C w :
  wp m Q F C (wdisk w) →
  match m w with
  | (Some (Ok a), w') => Q a (wdisk w')
  | (Some (Err e), w') => F e (wdisk w')
  | (None, w') => C (wdisk w')
  end.
Proof. intros H. destruct w as [d t L]. apply (H t L). Qed.

Lemma no_injected `{!NoFaults E} e : ¬ injected e.
Proof. intros (n & k & H). rewrite no_faults in H. done. Qed.

Lemma no_halts `{!NoFaults E} : ¬ halts.
Proof. intros (n & H). rewrite no_faults in H. done. Qed.

(** [m] returns, with a result and a disk that satisfy [Q]. *)
Definition runs {X A} (m : M X A) (Q : A → disk → Prop) (d : disk) : Prop :=
  wp m Q (λ _ _, False) (λ _, False) d.

Lemma runs_run {X A} (m : M X A) Q w : runs m Q (wdisk w) →
  ∃ a w', m w = (Some (Ok a), w') ∧ Q a (wdisk w').
Proof. intros H%wp_run. destruct (m w) as [[[a|e]|] w']; [|done..]. by exists a, w'. Qed.

Lemma injected_kind `{!EnvOk E} e : injected e → environmental (kind e) ∧ get_ref e = None.
Proof. intros (n & k & H). by eapply fail_environmental. Qed.

(** ** Well-formed trees *)

(** A path the file system accepts: no name of it is too long, nor the whole. *)
Definition nameable (p : apath) : Prop := path_len p ≤ path_max ∧ Forall (λ n, length n ≤ name_max) p.

Lemma path_len_app p q : path_len (p ++ q) = path_len p + path_len q.
Proof. unfold path_len. apply sum_list_with_app. Qed.

Lemma path_len_snoc p n : path_len (p ++ [n]) = path_len p + S (length n).
Proof. rewrite path_len_app. unfold path_len. simpl. lia. Qed.

Lemma nameable_app_l p q : nameable (p ++ q) → nameable p.
Proof. intros [Hl Hn]. rewrite path_len_app in Hl. apply Forall_app in Hn as [Hn _]. split; [lia|done]. Qed.

Lemma nameable_prefix p q : p `prefix_of` q → nameable q → nameable p.
Proof. intros [t ->]. apply nameable_app_l. Qed.

Lemma nameable_snoc p n : nameable p → path_len p + S (length n) ≤ path_max → length n ≤ name_max → nameable (p ++ [n]).
Proof.
  intros [_ Hn] Hl Hs. split; [by rewrite path_len_snoc|]. apply Forall_app. split; [done|]. by apply Forall_singleton.
Qed.

Lemma nameable_last p n : nameable (p ++ [n]) → length n ≤ name_max.
Proof. intros [_ Hn]. apply Forall_app in Hn as [_ Hn]. by rewrite Forall_singleton in Hn. Qed.

(** In place of a name a shorter one. *)
Lemma nameable_shorter p n n' : length n' ≤ length n → nameable (p ++ [n]) → nameable (p ++ [n']).
Proof.
  intros Hle Hn. pose proof (nameable_last _ _ Hn). pose proof (nameable_app_l _ _ Hn) as Hp.
  destruct Hn as [Hl _]. rewrite path_len_snoc in Hl. apply nameable_snoc; [done|lia..].
Qed.

(** Every entry sits in a directory and has a path the file system accepts: a
    directory moved so deep that its entries can no longer be named is left out. *)
Record wf (m : tree) : Prop := {
  wf_root : m !! [] = Some NDir;
  wf_parent p n : is_Some (m !! (p ++ [n])) → m !! p = Some NDir;
  wf_nameable p : is_Some (m !! p) → nameable p;
}.

Lemma wf_prefix m p q : wf m → q ≠ [] → is_Some (m !! (p ++ q)) → m !! p = Some NDir.
Proof.
  intros Hwf. induction q as [|n q IH] using rev_ind; intros Hq Hs; [done|].
  rewrite app_assoc in Hs. destruct q as [|x q].
  - rewrite app_nil_r in Hs. by apply wf_parent in Hs.
  - apply IH; [done|]. apply wf_parent in Hs; [|done]. by eexists.
Qed.

Lemma wf_names m p : wf m → is_Some (m !! p) → Forall (λ n, length n ≤ name_max) p.
Proof. intros Hwf Hs. by apply (wf_nameable m Hwf). Qed.

Lemma walk_from_Ok m base rest x : walk_from m base rest = Ok x → m !! (base ++ rest) = Some x.
Proof.
  revert base. induction rest as [|n rest IH]; intros base; simpl.
  - rewrite app_nil_r. destruct (m !! base); simpl; congruence.
  - destruct (m !! base) as [[|]|]; try done. case_match; [done|].
    intros Hr%IH. by rewrite <- app_assoc in Hr.
Qed.

Lemma walk_Ok m p x : walk m p = Ok x → m !! p = Some x.
Proof. unfold walk. case_match; [done|]. apply walk_from_Ok. Qed.

Lemma walk_nameable m p x : walk m p = Ok x → nameable p.
Proof.
  unfold walk. destruct (Nat.ltb_spec path_max (path_len p)); [done|]. intros Hw. split; [lia|].
  revert Hw. generalize (@nil str). induction p as [|n p IH]; intros base; simpl; [done|].
  destruct (m !! base) as [[|]|]; [|done..]. destruct (Nat.ltb_spec name_max (length n)); [done|].
  intros Hw. constructor; [lia|]. eapply IH; [|exact Hw]. unfold path_len in *. simpl in *. lia.
Qed.

Lemma walk_from_complete m base rest x :
  wf m → m !! (base ++ rest) = Some x → walk_from m base rest = Ok x.
Proof.
  intros Hwf. revert base. induction rest as [|n rest IH]; intros base Hx; simpl.
  - rewrite app_nil_r in Hx. by rewrite Hx.
  - rewrite (wf_prefix m base (n :: rest)) by (done || by eexists).
    pose proof (wf_names m (base ++ n :: rest) Hwf ltac:(by eexists)) as Hn.
    apply Forall_app in Hn as [_ Hn]. apply Forall_cons in Hn as [Hn _].
    destruct (Nat.ltb_spec name_max (length n)); [lia|]. apply IH. by rewrite <- app_assoc.
Qed.

Lemma walk_complete m p x : wf m → m !! p = Some x → walk m p = Ok x.
Proof.
  intros Hwf Hx. unfold walk. destruct (wf_nameable m Hwf p ltac:(by eexists)) as [Hl _].
  destruct (Nat.ltb_spec path_max (path_len p)); [lia|]. by apply walk_from_complete.
Qed.

Lemma walk_Err m p e : wf m → walk m p = Err e → m !! p = None.
Proof.
  intros Hwf He. destruct (m !! p) as [x|] eqn:Ex; [|done].
  rewrite (walk_complete m p x) in He by done. done.
Qed.

Lemma walk_from_app m base q rest :
  wf m → m !! (base ++ q) = Some NDir → walk_from m base (q ++ rest) = walk_from m (base ++ q) rest.
Proof.
  intros Hwf. revert base. induction q as [|n q IH]; intros base Hq; simpl.
  { by rewrite app_nil_r. }
  rewrite (wf_prefix m base (n :: q)) by (done || by eexists).
  pose proof (wf_names m (base ++ n :: q) Hwf ltac:(by eexists)) as Hn.
  apply Forall_app in Hn as [_ Hn]. apply Forall_cons in Hn as [Hn _].
  destruct (Nat.ltb_spec name_max (length n)); [lia|].
  rewrite (cons_middle n base q), app_assoc in Hq |- *. rewrite IH by done. done.
Qed.

(** A missing entry of an existing directory. *)
Lemma walk_missing m p n : wf m → m !! p = Some NDir → nameable (p ++ [n]) →
  m !! (p ++ [n]) = None → walk m (p ++ [n]) = Err (os_error KNotFound).
Proof.
  intros Hwf Hp Hnm Hno. unfold walk. pose proof (nameable_last _ _ Hnm) as Hn. destruct Hnm as [Hl _].
  destruct (Nat.ltb_spec path_max (path_len (p ++ [n]))); [lia|].
  rewrite (walk_from_app m [] p [n]) by done. simpl.
  rewrite Hp. destruct (Nat.ltb_spec name_max (length n)); [lia|]. by rewrite Hno.
Qed.

(** The walk only reports what it can see. *)
Lemma walk_from_Err_kind m base rest e : walk_from m base rest = Err e →
  kind e = KNotFound ∨ kind e = KNotADirectory ∨
  kind e = KInvalidFilename ∧ ¬ Forall (λ n, length n ≤ name_max) rest.
Proof.
  revert base. induction rest as [|n rest IH]; intros base; simpl.
  - destruct (m !! base); simpl; [done|]. intros [= <-]. by left.
  - destruct (m !! base) as [[|]|].
    + destruct (Nat.ltb_spec name_max (length n)).
      * intros [= <-]. right; right. split; [done|]. intros [? _]%Forall_cons. lia.
      * intros Hr%IH. destruct Hr as [?|[?|[? Hno]]]; [by left|by right; left|].
        right; right. split; [done|]. by intros [_ ?]%Forall_cons.
    + intros [= <-]. by right; left.
    + intros [= <-]. by left.
Qed.

Lemma walk_Err_kind m p e : walk m p = Err e →
  kind e = KNotFound ∨ kind e = KNotADirectory ∨ kind e = KInvalidFilename ∧ ¬ nameable p.
Proof.
  unfold walk, nameable. destruct (Nat.ltb_spec path_max (path_len p)).
  - intros [= <-]. right; right. split; [done|]. intros [? _]. lia.
  - intros [?|[?|[? Hno]]]%walk_from_Err_kind; [by left|by right; left|]. right; right. tauto.
Qed.

Lemma walk_new_snoc m p n : wf m →
  m !! p = Some NDir → nameable (p ++ [n]) → walk_new m (p ++ [n]) = Ok ().
Proof.
  intros Hwf Hp Hnm. unfold walk_new. rewrite last_snoc, removelast_last.
  pose proof (nameable_last _ _ Hnm) as Hn. destruct Hnm as [Hl _].
  destruct (Nat.ltb_spec path_max (path_len (p ++ [n]))); [lia|].
  rewrite (walk_complete m p NDir) by done.
  destruct (Nat.ltb_spec name_max (length n)); [lia|done].
Qed.

Lemma walk_new_Ok m a : walk_new m a = Ok () →
  ∃ p n, a = p ++ [n] ∧ m !! p = Some NDir ∧ nameable (p ++ [n]).
Proof.
  unfold walk_new. destruct (last a) as [n|] eqn:El; [|done].
  apply last_Some in El as [p ->]. rewrite removelast_last.
  destruct (Nat.ltb_spec path_max (path_len (p ++ [n]))); [done|].
  destruct (walk m p) as [[|]|] eqn:Ew; try done.
  destruct (Nat.ltb_spec name_max (length n)); [done|]. intros _.
  exists p, n. split_and!; [done|by apply walk_Ok|]. rewrite path_len_snoc in *.
  apply nameable_snoc; [by eapply walk_nameable|lia..].
Qed.

(** ** Resolution *)

Lemma resolve_app p q : resolve (p ++ q) = fold_left resolve_step q (resolve p).
Proof. unfold resolve. apply fold_left_app. Qed.

Lemma resolve_normals p (ns : list str) : resolve (p ++ (Normal <$> ns)) = resolve p ++ ns.
Proof.
  rewrite resolve_app. generalize (resolve p). induction ns as [|n ns IH]; intros a; simpl.
  - by rewrite app_nil_r.
  - by rewrite IH, <- app_assoc.
Qed.

Lemma resolve_snoc p n : resolve (p ++ [Normal n]) = resolve p ++ [n].
Proof. apply (resolve_normals p [n]). Qed.

(** ** Updating a tree *)

Lemma wf_no_child_below m p n q : wf m → m !! p ≠ Some NDir → m !! (p ++ n :: q) = None.
Proof.
  intros Hwf Hp. destruct (m !! (p ++ n :: q)) eqn:Eq; [|done]. exfalso. apply Hp.
  apply (wf_prefix m p (n :: q)); [done|done|by eexists].
Qed.

(** Put [x] where a directory entry may go. *)
Lemma wf_insert m p n x :
  wf m → m !! p = Some NDir → nameable (p ++ [n]) →
  (x = NDir ∨ m !! (p ++ [n]) ≠ Some NDir) → wf (<[p ++ [n] := x]> m).
Proof.
  intros Hwf Hp Hn Hx. assert (∀ q, p ++ [n] ≠ q → (<[p ++ [n] := x]> m) !! q = m !! q) as Hne.
  { intros q Hq. by apply lookup_insert_ne. }
  split.
  - rewrite Hne by (intros Hnil; by apply app_eq_nil in Hnil as [_ ?]). by apply wf_root.
  - intros q k Hs. destruct (decide (p ++ [n] = q)) as [<-|Hq].
    + rewrite lookup_insert_eq. rewrite Hne in Hs by (intros Heq%(f_equal length); rewrite !length_app in Heq; simpl in Heq; lia).
      f_equal. destruct Hx as [->|Hx]; [done|]. apply wf_parent in Hs; done.
    + rewrite Hne by done. destruct (decide (p ++ [n] = q ++ [k])) as [Heq|Hqk].
      * apply app_inj_tail in Heq as [<- _]. done.
      * rewrite Hne in Hs by done. by eapply wf_parent.
  - intros q Hs. destruct (decide (p ++ [n] = q)) as [<-|Hq]; [done|].
    rewrite Hne in Hs by done. by eapply wf_nameable.
Qed.

Lemma wf_delete m p :
  wf m → p ≠ [] → (∀ n, m !! (p ++ [n]) = None) → wf (delete p m).
Proof.
  intros Hwf Hp Hc. split.
  - rewrite lookup_delete_ne by done. by apply wf_root.
  - intros q k [x Hs]. apply lookup_delete_Some in Hs as [_ Hs].
    rewrite lookup_delete_ne; [eapply wf_parent; [done|by eexists]|].
    intros <-. by rewrite Hc in Hs.
  - intros q [x Hs]. apply lookup_delete_Some in Hs as [_ Hs].
    eapply wf_nameable; [done|by eexists].
Qed.

Lemma wf_delete_file m p : wf m → m !! p ≠ Some NDir → wf (delete p m).
Proof.
  intros Hwf Hp. apply wf_delete; [done| |].
  - intros ->. apply Hp. by apply wf_root.
  - intros n. by apply wf_no_child_below.
Qed.

(** Replace a file's contents. *)
Lemma wf_set_file m p a s b s' : wf m →
  m !! p = Some (NFile a s) → wf (<[p := NFile b s']> m).
Proof.
  intros Hwf Hp. destruct p as [|n p _] using rev_ind; [by rewrite wf_root in Hp|].
  apply wf_insert; [done| |eapply wf_nameable; [done|by eexists]|right; congruence].
  eapply wf_parent; [done|by eexists].
Qed.

Lemma child_name_snoc p n : child_name p (p ++ [n]) = Some n.
Proof. unfold child_name. by rewrite last_snoc, removelast_last, bool_decide_true. Qed.

Lemma child_name_Some p q n : child_name p q = Some n ↔ q = p ++ [n].
Proof.
  split; [|intros ->; apply child_name_snoc]. unfold child_name.
  destruct (last q) as [k|] eqn:El; [|done]. case_bool_decide as Hr; [|done]. intros [= ->].
  apply last_Some in El as [r ->]. by rewrite removelast_last in Hr; subst.
Qed.

Lemma elem_of_children m p n : n ∈ children m p ↔ is_Some (m !! (p ++ [n])).
Proof.
  unfold children. rewrite list_elem_of_omap. split.
  - intros ([q x] & Hin & Hc). apply child_name_Some in Hc as ->.
    apply elem_of_map_to_list in Hin. by eexists.
  - intros [x Hx]. exists (p ++ [n], x). split; [by apply elem_of_map_to_list|].
    apply child_name_snoc.
Qed.

Lemma children_nodup m p : NoDup (children m p).
Proof.
  unfold children. assert (NoDup (map_to_list m).*1) as Hnd by apply NoDup_fst_map_to_list.
  induction (map_to_list m) as [|[q x] l IH]; [constructor|].
  apply NoDup_cons in Hnd as [Hq Hnd]. cbn. destruct (child_name p q) as [n|] eqn:En; [|by apply IH].
  apply NoDup_cons. split; [|by apply IH]. rewrite list_elem_of_omap. intros ([q' y] & Hin & Hc).
  apply child_name_Some in En as ->. apply child_name_Some in Hc as ->.
  apply Hq. by apply (list_elem_of_fmap_2 fst _ (p ++ [n], y)).
Qed.

Lemma children_nil m p : children m p = [] ↔ ∀ n, m !! (p ++ [n]) = None.
Proof.
  split.
  - intros Hc n. apply eq_None_not_Some. rewrite <- elem_of_children, Hc. apply not_elem_of_nil.
  - intros Hn. apply elem_of_nil_inv. intros n. rewrite elem_of_children, Hn. by intros [??].
Qed.

(** ** What a program may have changed *)

(** The bytes of the file at [q], if there is one. *)
Definition file_at (m : tree) (q : apath) : option str :=
  match m !! q with Some (NFile data _) => Some data | _ => None end.

(** From [m] to [m'] only files in [P] changed, no directory was lost, and the
    directories that are new are on the way to [O]. *)
Record grows (P : apath → Prop) (O : apath) (m m' : tree) : Prop := {
  gr_same q : ¬ P q → m' !! q = m !! q ∨ m !! q = None ∧ m' !! q = Some NDir;
  gr_dirs q : m !! q = Some NDir → m' !! q = Some NDir;
  gr_new q : m' !! q = Some NDir → m !! q = Some NDir ∨ q `prefix_of` O;
  gr_wf : wf m';
}.

Lemma gr_files P O m m' q : grows P O m m' → ¬ P q → file_at m' q = file_at m q.
Proof. intros Hg Hq. unfold file_at. by destruct (gr_same _ _ _ _ Hg q Hq) as [->|[-> ->]]. Qed.

Lemma gr_keep P O m m' q x : grows P O m m' → ¬ P q → m !! q = Some x → m' !! q = Some x.
Proof. intros Hg Hq Hx. destruct (gr_same _ _ _ _ Hg q Hq) as [->|[? ?]]; congruence. Qed.

Lemma grows_refl P O m : wf m → grows P O m m.
Proof. intros. split; auto. Qed.

Lemma grows_trans P O m1 m2 m3 : grows P O m1 m2 → grows P O m2 m3 → grows P O m1 m3.
Proof.
  intros [F1 D1 N1 _] [F2 D2 N2 W]. split; [|auto| |done].
  - intros q Hq. destruct (F2 q Hq) as [->|[H2 ->]]; [auto|].
    destruct (F1 q Hq) as [<-|[H1 H2']]; [by right|congruence].
  - intros q [Hq|Hq]%N2; auto.
Qed.

Lemma grows_mono (P P' : apath → Prop) O m m' :
  (∀ q, P q → P' q) → grows P O m m' → grows P' O m m'.
Proof. intros HP [F D N W]. split; auto. Qed.

Lemma file_at_Some m q data : file_at m q = Some data ↔ ∃ s, m !! q = Some (NFile data s).
Proof. unfold file_at. destruct (m !! q) as [[|]|]; naive_solver. Qed.

(** ** Rules for the system calls *)

Lemma wp_metadata p Q F C d :
  (∀ x, vol d !! resolve p = Some x → walk (vol d) (resolve p) = Ok x → Q x d) →
  (∀ e, walk (vol d) (resolve p) = Err e → F e d) →
  (∀ e, injected e → F e d) → (halts → C d) → wp (metadata p) Q F C d.
Proof.
  intros HQ HF HI HC. apply wp_atomic; [| |done..].
  - intros x d' [= Hw <-]. auto using walk_Ok.
  - intros e d' [= Hw <-]. auto.
Qed.

(** [is_dir] never fails: it answers yes only for a directory, and no for one
    only if the environment interferes. *)
Lemma wp_is_dir {X} p Q (F : X → disk → Prop) C d : wf (vol d) →
  (vol d !! resolve p = Some NDir → Q true d) →
  ((vol d !! resolve p = Some NDir → ∃ e, injected e) → Q false d) →
  (halts → C d) → wp (is_dir p) Q F C d.
Proof.
  intros Hwf HT HF HC. apply wp_bind, wp_attempt, wp_metadata; [| | |done].
  - intros x Hx _. apply wp_ret. destruct x; [by apply HT|apply HF; congruence].
  - intros e He. apply wp_ret, HF. apply walk_Err in He; [congruence|done].
  - intros e He. apply wp_ret, HF. eauto.
Qed.

Lemma wp_create_dir p Q F C d :
  (∀ a n, resolve p = a ++ [n] → vol d !! a = Some NDir → nameable (a ++ [n]) →
     vol d !! resolve p = None → Q () (set_vol (<[resolve p := NDir]>) d)) →
  (∀ e, walk_new (vol d) (resolve p) = Err e → F e d) →
  (is_Some (vol d !! resolve p) → F (os_error KAlreadyExists) d) →
  (∀ e, injected e → F e d) → (halts → C d) → wp (create_dir p) Q F C d.
Proof.
  intros HQ HF HA HI HC. apply wp_atomic; [| |done..]; simpl.
  - intros [] d'. destruct (walk_new (vol d) (resolve p)) as [[]|] eqn:Ew; [|done].
    destruct (vol d !! resolve p) eqn:Ep; [done|]. intros [= <-].
    destruct (walk_new_Ok _ _ Ew) as (a & n & Hr & Ha & Hn). eauto.
  - intros e d'. destruct (walk_new (vol d) (resolve p)) as [[]|] eqn:Ew; [|intros [= <- <-]; auto].
    destruct (vol d !! resolve p) eqn:Ep; [|done]. intros [= <- <-]. apply HA. by eexists.
Qed.

(** ** Making directories *)

(** The paths the program builds: a root, a leading [.] or nothing, and then
    plain names. *)
Definition head_path (hd : PathBuf) : Prop := hd = [] ∨ hd = [RootDir] ∨ hd = [CurDir].

(** [m'] is [m] with some missing directories on the way to [a] added. *)
Definition mkdirs (a : apath) (m m' : tree) : Prop :=
  ∀ q, m' !! q = m !! q ∨ (m !! q = None ∧ m' !! q = Some NDir ∧ q `prefix_of` a).

(** Nothing stands in the way of making [a] a directory. *)
Definition creatable (a : apath) (m : tree) : Prop :=
  nameable a
  ∧ ∀ q, q `prefix_of` a → m !! q = None ∨ m !! q = Some NDir.

Lemma mkdirs_refl a m : mkdirs a m m.
Proof. intros q. by left. Qed.

Lemma mkdirs_keep a m m' q x : mkdirs a m m' → m !! q = Some x → m' !! q = Some x.
Proof. intros Hm Hq. destruct (Hm q) as [->|(? & _)]; congruence. Qed.

Lemma mkdirs_trans a m1 m2 m3 : mkdirs a m1 m2 → mkdirs a m2 m3 → mkdirs a m1 m3.
Proof.
  intros H12 H23 q. destruct (H23 q) as [Eq|(Hn & Hs & Hp)].
  - rewrite Eq. apply H12.
  - destruct (H12 q) as [Eq|(? & ? & ?)]; [|congruence]. right. by rewrite <- Eq.
Qed.

Lemma mkdirs_mono a b m m' : a `prefix_of` b → mkdirs a m m' → mkdirs b m m'.
Proof.
  intros Hab Hm q. destruct (Hm q) as [?|(? & ? & ?)]; [by left|right].
  split_and!; [done..|]. by etrans.
Qed.

Lemma mkdirs_insert a m : m !! a = None → mkdirs a m (<[a := NDir]> m).
Proof.
  intros Ha q. destruct (decide (a = q)) as [<-|Hne].
  - right. by rewrite lookup_insert_eq.
  - left. by rewrite lookup_insert_ne.
Qed.

Lemma creatable_mkdirs a b m m' : mkdirs a m m' → creatable b m → creatable b m'.
Proof.
  intros Hm [Hn Hc]. split; [done|]. intros q Hq.
  destruct (Hm q) as [->|(_ & -> & _)]; [by apply Hc|by right].
Qed.

Lemma creatable_prefix a b m : a `prefix_of` b → creatable b m → creatable a m.
Proof.
  intros [k ->] [Hn Hc]. apply nameable_app_l in Hn. split; [done|].
  intros q Hq. apply Hc. by apply prefix_app_r.
Qed.

(** What [create_dir_all] may have done to the disk at any point. *)
Definition made (a : apath) (d d' : disk) : Prop :=
  mkdirs a (vol d) (vol d') ∧ wf (vol d') ∧ dur d' = dur d.

Lemma made_refl a d : wf (vol d) → made a d d.
Proof. intros. split_and!; [apply mkdirs_refl|done..]. Qed.

Lemma made_trans a d1 d2 d3 : made a d1 d2 → made a d2 d3 → made a d1 d3.
Proof.
  intros (M1 & _ & D1) (M2 & W2 & D2). split_and!; [by eapply mkdirs_trans|done|congruence].
Qed.

Lemma made_insert a d p n :
  wf (vol d) → a = p ++ [n] → vol d !! p = Some NDir → nameable (p ++ [n]) → vol d !! a = None →
  made a d (set_vol (<[a := NDir]>) d).
Proof.
  intros Hwf -> Hp Hn Ha. split_and!; [by apply mkdirs_insert| |done].
  apply wf_insert; auto.
Qed.

Lemma resolve_head hd d : head_path hd → wf (vol d) → vol d !! cwd = Some NDir →
  vol d !! resolve hd = Some NDir.
Proof. intros [->|[->| ->]] Hwf Hc; [done|by apply wf_root|done]. Qed.

(** A directory that is already there: [mkdir] refuses, [is_dir] confirms. *)
Lemma wp_mkdir_present (p : PathBuf) (k : io_error → M io_error unit) d :
  wf (vol d) → vol d !! resolve p = Some NDir →
  (∀ e, kind e ≠ KNotFound → k e = (b <- is_dir p;; if (b : bool) then ret () else throw e)) →
  (∀ e, injected e → kind e ≠ KNotFound) →
  wp (r <- attempt (create_dir p);; match r with Ok _ => ret () | Err e => k e end)
    (λ _ d', d' = d) (λ _ d', d' = d ∧ ∃ e, injected e) (λ d', d' = d ∧ halts) d.
Proof.
  intros Hwf Hp Hk Hinj. apply wp_bind, wp_attempt.
  assert (∀ e, kind e ≠ KNotFound →
    wp (k e) (λ _ d', d' = d) (λ _ d', d' = d ∧ ∃ e, injected e) (λ d', d' = d ∧ halts) d) as Hke.
  { intros e He. rewrite Hk by done. apply wp_bind, wp_is_dir; [done| | |done].
    - intros _. by apply wp_ret.
    - intros Hi. apply wp_throw. auto. }
  apply wp_create_dir; auto.
  - intros a n _ _ _ Hn. congruence.
  - intros e He. apply Hke. destruct (last (resolve p)) as [n|] eqn:El.
    2: { unfold walk_new in He. rewrite El in He. by injection He as <-. }
    apply last_Some in El as [q Hq]. rewrite Hq in *.
    rewrite walk_new_snoc in He; [done|done|by eapply wf_parent; [|eexists]|].
    eapply wf_nameable; [done|by eexists].
Qed.

Lemma walk_from_creatable m base rest e :
  (∀ q, q `prefix_of` base ++ rest → q ≠ base ++ rest → m !! q = None ∨ m !! q = Some NDir) →
  Forall (λ n, length n ≤ name_max) rest →
  walk_from m base rest = Err e → kind e = KNotFound.
Proof.
  revert base. induction rest as [|n rest IH]; intros base Hc Hn; simpl.
  - destruct (m !! base); simpl; [done|by intros [= <-]].
  - apply Forall_cons in Hn as [Hn Hns].
    destruct (Hc base) as [-> | ->]; [by apply prefix_app_r| |by intros [= <-]|].
    { intros Heq%(f_equal length). rewrite length_app in Heq. cbn in Heq. lia. }
    destruct (Nat.ltb_spec name_max (length n)); [lia|]. apply IH; [|done].
    by rewrite <- app_assoc.
Qed.

(** Making a directory whose way is clear only fails because something above it
    is missing. *)
Lemma walk_new_creatable m a x e :
  creatable (a ++ [x]) m → walk_new m (a ++ [x]) = Err e → kind e = KNotFound.
Proof.
  intros [Hn Hc]. unfold walk_new. rewrite last_snoc, removelast_last.
  pose proof (nameable_last _ _ Hn) as Hnx. pose proof (nameable_app_l _ _ Hn) as [Hla Hna]. destruct Hn as [Hl _].
  destruct (Nat.ltb_spec path_max (path_len (a ++ [x]))); [lia|].
  assert (∀ q, q `prefix_of` a → m !! q = None ∨ m !! q = Some NDir) as Hca.
  { intros q Hq. apply Hc. by apply prefix_app_r. }
  destruct (walk m a) as [[|data sy]|e'] eqn:Ew.
  - destruct (Nat.ltb_spec name_max (length x)); [lia|done].
  - apply walk_Ok in Ew. destruct (Hca a) as [?|?]; [done|congruence..].
  - intros [= <-]. unfold walk in Ew. destruct (Nat.ltb_spec path_max (path_len a)); [lia|].
    eapply (walk_from_creatable m [] a); auto.
Qed.

(** A file whose directory's way is clear is there, or missing. *)
Lemma walk_file_creatable m a n e :
  creatable a m → nameable (a ++ [n]) → walk m (a ++ [n]) = Err e → kind e = KNotFound.
Proof.
  intros [_ Hc] [Hl Hn]. unfold walk. destruct (Nat.ltb_spec path_max (path_len (a ++ [n]))); [lia|].
  apply (walk_from_creatable m []); [|done]. intros q Hq Hne. apply Hc. by apply prefix_snoc in Hq as [->|?].
Qed.

Section create_dir_all.
Context `{!EnvOk E}.

Lemma injected_not_found e : injected e → kind e ≠ KNotFound.
Proof. intros [[He|He] _]%injected_kind; by rewrite He. Qed.

(** The answer of [is_dir] after a refused [mkdir]. *)
Lemma wp_is_dir_or_throw (a : apath) p (e : io_error) d :
  wf (vol d) → resolve p = a →
  (creatable a (vol d) → vol d !! a = Some NDir ∨ ∃ e, injected e) →
  wp (b <- is_dir p;; if (b : bool) then ret () else throw e)
    (λ _ d', made a d d' ∧ vol d' !! a = Some NDir)
    (λ _ d', made a d d' ∧ (creatable a (vol d) → ∃ e, injected e))
    (λ d', made a d d' ∧ halts) d.
Proof.
  intros Hwf Ha Hc. apply wp_bind, wp_is_dir; [done|rewrite Ha..| ].
  - intros Hp. apply wp_ret. auto using made_refl.
  - intros Hi. apply wp_throw. split; [by apply made_refl|].
    intros Hcr. destruct (Hc Hcr); auto.
  - auto using made_refl.
Qed.

Lemma wp_create_dir_or_present a x p d :
  wf (vol d) → resolve p = a ++ [x] → vol d !! a = Some NDir →
  wp (create_dir_or_present p)
    (λ _ d', made (a ++ [x]) d d' ∧ vol d' !! (a ++ [x]) = Some NDir)
    (λ _ d', made (a ++ [x]) d d' ∧ (creatable (a ++ [x]) (vol d) → ∃ e, injected e))
    (λ d', made (a ++ [x]) d d' ∧ halts) d.
Proof.
  intros Hwf Ha Hp. apply wp_bind, wp_attempt, wp_create_dir; rewrite ?Ha.
  - intros a' x' [<- <-]%app_inj_tail _ Hx Hn. apply wp_ret. split.
    + by eapply made_insert.
    + apply lookup_insert_eq.
  - intros e He. apply wp_is_dir_or_throw; [done..|]. intros [Hn _].
    by rewrite walk_new_snoc in He.
  - intros [y Hy]. apply wp_is_dir_or_throw; [done..|]. intros [_ Hc].
    destruct (Hc (a ++ [x]) ltac:(done)); [congruence|auto].
  - intros e He. apply wp_is_dir_or_throw; eauto.
  - auto using made_refl.
Qed.

Lemma create_dir_all_unfold n p : p ≠ [] →
  create_dir_all_fuel n p =
  (r <- attempt (create_dir p);;
   match r with
   | Ok _ => ret ()
   | Err e =>
       if bool_decide (kind e = KNotFound) then
         match n, parent p with
         | S n', Some q => create_dir_all_fuel n' q;;; create_dir_or_present p
         | _, _ => throw (os_error KOther)
         end
       else b <- is_dir p;; if (b : bool) then ret () else throw e
   end).
Proof. by destruct n, p. Qed.

Lemma wp_create_dir_all_fuel hd ns n d :
  head_path hd → length (hd ++ (Normal <$> ns)) ≤ n → wf (vol d) → vol d !! cwd = Some NDir →
  wp (create_dir_all_fuel n (hd ++ (Normal <$> ns)))
    (λ _ d', made (resolve hd ++ ns) d d' ∧ vol d' !! (resolve hd ++ ns) = Some NDir)
    (λ _ d', made (resolve hd ++ ns) d d'
             ∧ (creatable (resolve hd ++ ns) (vol d) → ∃ e, injected e))
    (λ d', made (resolve hd ++ ns) d d' ∧ halts) d.
Proof.
  intros Hhd. revert n d. induction ns as [|x ns IH] using rev_ind; intros n d Hlen Hwf Hcwd.
  - pose proof (resolve_head hd d Hhd Hwf Hcwd) as Hr. rewrite !app_nil_r.
    destruct (decide (hd = [])) as [->|Hne].
    { destruct n; apply wp_ret; auto using made_refl. }
    cbn [fmap list_fmap]. rewrite create_dir_all_unfold by done.
    eapply wp_mono; [apply wp_mkdir_present; [done|done| |apply injected_not_found]| | |].
    + intros e He. by rewrite bool_decide_false.
    + intros _ d' ->. auto using made_refl.
    + intros _ d' [-> ?]. auto using made_refl.
    + intros d' [-> ?]. auto using made_refl.
  - rewrite fmap_app in *. cbn [fmap list_fmap] in *. rewrite app_assoc in *.
    set (q := hd ++ (Normal <$> ns)) in *. set (a := resolve hd ++ ns) in *.
    assert (resolve (q ++ [Normal x]) = a ++ [x]) as Hres.
    { unfold q, a. by rewrite resolve_snoc, resolve_normals. }
    rewrite (app_assoc (resolve hd)). fold a.
    rewrite create_dir_all_unfold by (by destruct q). rewrite parent_snoc.
    apply wp_bind, wp_attempt, wp_create_dir; rewrite ?Hres.
    + intros a' x' [<- <-]%app_inj_tail Ha Hx Hn. apply wp_ret.
      split; [by eapply made_insert|apply lookup_insert_eq].
    + intros e He. case_bool_decide as Hk.
      2: { apply wp_is_dir_or_throw; [done..|]. intros Hc.
           by destruct Hk; eapply walk_new_creatable. }
      destruct n as [|n]; [rewrite length_app in Hlen; simpl in Hlen; lia|].
      rewrite length_app in Hlen. simpl in Hlen.
      apply wp_bind. eapply wp_mono; [apply IH; [lia|done..]| | |].
      * intros _ d1 [(Hm & Hwf1 & Hd1) Ha1].
        assert (made (a ++ [x]) d d1) as Hmade.
        { split_and!; [|done..]. eapply mkdirs_mono; [|done]. by apply prefix_app_r. }
        eapply wp_mono; [by apply wp_create_dir_or_present| | |].
        -- intros _ d2 [? ?]. eauto using made_trans.
        -- intros _ d2 [? Hf]. split; [by eapply made_trans|]. intros Hc. apply Hf.
           eapply creatable_mkdirs; [|done]. apply Hmade.
        -- intros d2 [? ?]. eauto using made_trans.
      * intros _ d1 [(Hm & ? & ?) Hf]. split.
        -- split_and!; [|done..]. eapply mkdirs_mono; [|done]. by apply prefix_app_r.
        -- intros Hc. apply Hf. eapply creatable_prefix; [|done]. by apply prefix_app_r.
      * intros d1 [(Hm & ? & ?) ?]. split; [|done].
        split_and!; [|done..]. eapply mkdirs_mono; [|done]. by apply prefix_app_r.
    + intros [y Hy]. rewrite bool_decide_false by done.
      apply wp_is_dir_or_throw; [done..|]. intros [_ Hc].
      destruct (Hc (a ++ [x]) ltac:(done)); [congruence|auto].
    + intros e He. rewrite bool_decide_false by by apply injected_not_found.
      apply wp_is_dir_or_throw; eauto.
    + auto using made_refl.
Qed.

(** [create_dir_all]: it only ever adds missing directories on the way, the
    directory is there when it succeeds, and it does succeed when nothing is in
    the way and the environment does not interfere. *)
Lemma wp_create_dir_all hd ns d :
  head_path hd → wf (vol d) → vol d !! cwd = Some NDir →
  wp (create_dir_all (hd ++ (Normal <$> ns)))
    (λ _ d', made (resolve hd ++ ns) d d' ∧ vol d' !! (resolve hd ++ ns) = Some NDir)
    (λ _ d', made (resolve hd ++ ns) d d'
             ∧ (creatable (resolve hd ++ ns) (vol d) → ∃ e, injected e))
    (λ d', made (resolve hd ++ ns) d d' ∧ halts) d.
Proof. intros. by apply wp_blocking, wp_create_dir_all_fuel. Qed.
End create_dir_all.

(** ** Paths that are too long *)

(** A path that is too long as a whole is refused before anything is looked up. *)
Lemma walk_long m q : path_max < path_len q → walk m q = Err (os_error KInvalidFilename).
Proof. intros Hl. unfold walk. by rewrite (proj2 (Nat.ltb_lt _ _) Hl). Qed.

Lemma walk_new_long m q : path_max < path_len q → walk_new m q = Err (os_error KInvalidFilename).
Proof.
  intros Hl. unfold walk_new. rewrite (proj2 (Nat.ltb_lt _ _) Hl).
  destruct (last q) eqn:Hq; [done|]. apply last_None in Hq. subst q. unfold path_len in Hl. cbn in Hl. lia.
Qed.

(** [create_dir_all] makes nothing for it. *)
Lemma wp_create_dir_all_long `{!EnvOk E} p d : wf (vol d) → p ≠ [] → path_max < path_len (resolve p) →
  wp (create_dir_all p) (λ _ _, False) (λ e d', d' = d ∧ (kind e = KInvalidFilename ∨ injected e)) (λ d', d' = d) d.
Proof.
  intros Hwf Hp Hl. apply wp_blocking. rewrite create_dir_all_unfold by done.
  assert (vol d !! resolve p = None) as Hno by (eapply walk_Err; [done|by apply walk_long]).
  assert (∀ e, kind e = KInvalidFilename ∨ injected e →
    wp (b <- is_dir p;; if (b : bool) then ret () else throw e) (λ _ _, False)
      (λ e d', d' = d ∧ (kind e = KInvalidFilename ∨ injected e)) (λ d', d' = d) d) as Hend.
  { intros e He. apply wp_bind, wp_is_dir; [done|congruence| |done]. intros _. by apply wp_throw. }
  apply wp_bind, wp_attempt, wp_create_dir.
  - intros a x Hr _ [Hn _] _. rewrite Hr in Hl. lia.
  - intros e He. rewrite walk_new_long in He by done. injection He as <-. rewrite bool_decide_false by done. auto.
  - intros [x Hx]. congruence.
  - intros e He. rewrite bool_decide_false by by apply injected_not_found. auto.
  - done.
Qed.

(** ** Files *)

Lemma wp_open_new p Q F C d :
  (∀ a n, resolve p = a ++ [n] → vol d !! a = Some NDir → nameable (a ++ [n]) →
     vol d !! resolve p = None → Q () (set_vol (<[resolve p := NFile [] false]>) d)) →
  (∀ e, walk_new (vol d) (resolve p) = Err e → F e d) →
  (is_Some (vol d !! resolve p) → F (os_error KAlreadyExists) d) →
  (∀ e, injected e → F e d) → (halts → C d) → wp (open_new p) Q F C d.
Proof.
  intros HQ HF HA HI HC. apply wp_atomic; [| |done..]; simpl.
  - intros [] d'. destruct (walk_new (vol d) (resolve p)) as [[]|] eqn:Ew; [|done].
    destruct (vol d !! resolve p) eqn:Ep; [done|]. intros [= <-].
    destruct (walk_new_Ok _ _ Ew) as (a & n & Hr & Ha & Hn). eauto.
  - intros e d'. destruct (walk_new (vol d) (resolve p)) as [[]|] eqn:Ew; [|intros [= <- <-]; auto].
    destruct (vol d !! resolve p) eqn:Ep; [|done]. intros [= <- <-]. apply HA. by eexists.
Qed.

Lemma wp_append p buf Q F C d :
  Q () (append_bytes (resolve p) buf d) →
  (∀ e k, injected e → F e (append_bytes (resolve p) (take k buf) d)) →
  (halts → C d) → wp (append p buf) Q F C d.
Proof.
  intros HQ HI HC. apply wp_syscall; [| |done..].
  - by intros [] d' [= <-].
  - by intros e d' [=].
Qed.

Lemma wp_flush p Q F C d :
  Q () d → (∀ e, injected e → F e d) → (halts → C d) → wp (flush p) Q F C d.
Proof. intros HQ HI HC. apply wp_atomic; [by intros [] d' [= <-]|by intros e d' [=]|done..]. Qed.

Lemma wp_sync_file p data s Q F C d :
  vol d !! resolve p = Some (NFile data s) →
  Q () (set_vol (<[resolve p := NFile data true]>) d) →
  (∀ e, injected e → F e d) → (halts → C d) → wp (sync_file p) Q F C d.
Proof.
  intros Hp HQ HI HC. apply wp_atomic; [| |done..]; rewrite Hp.
  - by intros [] d' [= <-].
  - by intros e d' [=].
Qed.

Lemma wp_rename src dst data s Q F C d :
  vol d !! resolve src = Some (NFile data s) → wf (vol d) →
  (∀ a n, resolve dst = a ++ [n] → vol d !! a = Some NDir → nameable (a ++ [n]) →
     vol d !! resolve dst ≠ Some NDir →
     Q () (set_vol (λ m, <[resolve dst := NFile data s]> (delete (resolve src) m)) d)) →
  (∀ e, walk_new (vol d) (resolve dst) = Err e ∨ vol d !! resolve dst = Some NDir → F e d) →
  (∀ e, injected e → F e d) → (halts → C d) → wp (rename src dst) Q F C d.
Proof.
  intros Hs Hwf HQ HF HI HC. apply wp_atomic; [| |done..]; simpl;
    rewrite (walk_complete _ _ _ Hwf Hs); intros r d';
    (destruct (walk_new (vol d) (resolve dst)) as [[]|e'] eqn:Ew;
      [|first [done|intros [= <- <-]; auto]]).
  - destruct (walk_new_Ok _ _ Ew) as (a & n & Hr & Ha & Hn).
    destruct (vol d !! resolve dst) as [[|]|] eqn:Ed; try done; intros [= <- <-]; eauto.
  - destruct (vol d !! resolve dst) as [[|]|] eqn:Ed; try done. intros [= <- <-]. auto.
Qed.

Lemma wp_remove_file p Q F C d :
  (∀ data s, vol d !! resolve p = Some (NFile data s) → Q () (set_vol (delete (resolve p)) d)) →
  (vol d !! resolve p = Some NDir → F (os_error KIsADirectory) d) →
  (∀ e, walk (vol d) (resolve p) = Err e → F e d) →
  (∀ e, injected e → F e d) → (halts → C d) → wp (remove_file p) Q F C d.
Proof.
  intros HQ HD HF HI HC. apply wp_atomic; [| |done..]; intros r d';
    destruct (walk (vol d) (resolve p)) as [[|]|] eqn:Ew; try done; intros [= <- <-];
    first [apply walk_Ok in Ew|idtac]; eauto.
Qed.

Lemma wp_read p Q F C d :
  (∀ data s, vol d !! resolve p = Some (NFile data s) → Q data d) →
  (vol d !! resolve p = Some NDir → F (os_error KIsADirectory) d) →
  (∀ e, walk (vol d) (resolve p) = Err e → F e d) →
  (∀ e, injected e → F e d) → (halts → C d) → wp (read p) Q F C d.
Proof.
  intros HQ HD HF HI HC. apply wp_atomic; [| |done..]; intros r d';
    destruct (walk (vol d) (resolve p)) as [[|]|] eqn:Ew; try done; intros [= <- <-];
    first [apply walk_Ok in Ew|idtac]; eauto.
Qed.

Lemma wp_read_dir p Q F C d :
  (vol d !! resolve p = Some NDir → Q (dir_order (children (vol d) (resolve p))) d) →
  (∀ e data s, vol d !! resolve p = Some (NFile data s) → F e d) →
  (∀ e, walk (vol d) (resolve p) = Err e → F e d) →
  (∀ e, injected e → F e d) → (halts → C d) → wp (read_dir p) Q F C d.
Proof.
  intros HQ HD HF HI HC. apply wp_atomic; [| |done..]; intros r d';
    destruct (walk (vol d) (resolve p)) as [[|]|] eqn:Ew; try done; intros [= <- <-];
    first [apply walk_Ok in Ew|idtac]; eauto.
Qed.

Lemma wp_remove_dir p Q F C d :
  (vol d !! resolve p = Some NDir → children (vol d) (resolve p) = [] →
     Q () (set_vol (delete (resolve p)) d)) →
  (∀ e, F e d) → (halts → C d) → wp (remove_dir p) Q F C d.
Proof.
  intros HQ HF HC. apply wp_atomic; [| |done..]; intros r d';
    destruct (walk (vol d) (resolve p)) as [[|]|] eqn:Ew; try done;
    try (case_bool_decide); intros [=]; subst; eauto using walk_Ok.
Qed.

(** ** Directory entries made durable *)

Lemma wp_sync_dir p Q F C d :
  (is_Some (vol d !! resolve p) → Q () (sync_entries (resolve p) d)) →
  (∀ e, walk (vol d) (resolve p) = Err e → F e d) →
  (∀ e, injected e → F e d) → (halts → C d) → wp (sync_dir p) Q F C d.
Proof.
  intros HQ HF HI HC. apply wp_bind, wp_metadata; [|done..].
  intros x Hx _. apply wp_atomic; [|by intros e d' [=]|done..].
  intros [] d' [= <-]. apply HQ. by eexists.
Qed.

Lemma is_child_spec a q : is_child a q = true ↔ ∃ n, q = a ++ [n].
Proof.
  unfold is_child. destruct (child_name a q) as [n|] eqn:En.
  - apply child_name_Some in En. naive_solver.
  - split; [done|]. intros [n ->]. by rewrite child_name_snoc in En.
Qed.

(** For an entry that is there, syncing its directory makes it durable, and
    syncing another one changes nothing. *)
Lemma sync_entries_lookup a d q x :
  wf (vol d) → vol d !! q = Some x →
  dur (sync_entries a d) !! q = if is_child a q then Some x else dur d !! q.
Proof.
  intros Hwf Hq. unfold sync_entries. cbn [dur]. destruct (is_child a q) eqn:Ec.
  - apply lookup_union_Some_l. by apply map_lookup_filter_Some.
  - rewrite lookup_union_r.
    2: { apply map_lookup_filter_None. right. intros y _. by rewrite Ec. }
    destruct (dur d !! q) as [y|] eqn:Ey.
    + apply map_lookup_filter_Some. split; [done|]. split; [done|].
      unfold below_missing. destruct (decide (a `prefix_of` q)) as [[t ->]|];
        [|by rewrite bool_decide_false].
      destruct t as [|n t]; [by rewrite app_nil_r, Nat.ltb_irrefl, andb_false_r|].
      rewrite (bool_decide_false (_ = None)); [by rewrite andb_false_r|].
      rewrite cons_middle, app_assoc, take_app_length' by (rewrite length_app; simpl; lia).
      destruct t as [|m t]; [by rewrite Hq|].
      rewrite (wf_prefix (vol d) (a ++ [n]) (m :: t)); [done|done|done|].
      rewrite <- app_assoc. by eexists.
    + apply map_lookup_filter_None. by left.
Qed.

Lemma sync_entries_vol a d : vol (sync_entries a d) = vol d.
Proof. done. Qed.
End wp.

(** ** Concrete environments and trees *)

(** A machine on which system call [n] meets the fate [f n]. *)
Definition env_with (f : nat → fate) : Env := {|
  cwd := [];
  name_max := 255;
  path_max := 4095;
  fate_of := f;
  clock n := (Z.of_nat n * 1000000)%Z;
  uuid n := b#"0198f0c1-7b3a-4e2d-9f01-2c3d4e5f6a7b";
  dir_order l := l;
  dir_mtime _ := None;
|}.

Definition calm_env : Env := env_with (λ _, Proceed).

Lemma env_with_ok f :
  (∀ n e k, f n = Fail e k → environmental (kind e) ∧ get_ref e = None) → EnvOk (env_with f).
Proof.
  intros Hf. split; simpl; [done|done| |lia].
  intros _. split; [refine (bool_decide_unpack _ _); by vm_compute|vm_compute; lia].
Qed.

Lemma calm_env_ok : EnvOk calm_env.
Proof. by apply env_with_ok. Qed.

Lemma calm_env_no_faults : NoFaults calm_env.
Proof. by intros n. Qed.

(** The well-formedness of a given tree, by computation. *)
Definition wf_check {E : Env} (m : tree) : bool :=
  bool_decide (m !! [] = Some NDir)
  && forallb (λ '(q, _),
       match last q with
       | None => true
       | Some n => bool_decide (m !! removelast q = Some NDir) && (length n <=? name_max)%nat
       end && (path_len q <=? path_max)%nat) (map_to_list m).

Lemma wf_check_sound {E : Env} m : wf_check m = true → wf m.
Proof.
  unfold wf_check. rewrite andb_true_iff, bool_decide_eq_true, forallb_forall. intros [Hroot Hall].
  assert (∀ p n, is_Some (m !! (p ++ [n])) → m !! p = Some NDir ∧ length n ≤ name_max ∧ path_len (p ++ [n]) ≤ path_max) as Hp.
  { intros p n [x Hx]. specialize (Hall (p ++ [n], x)).
    rewrite <- list_elem_of_In, elem_of_map_to_list, last_snoc, removelast_last in Hall.
    specialize (Hall Hx). rewrite !andb_true_iff, bool_decide_eq_true, !Nat.leb_le in Hall. tauto. }
  split; [done|apply Hp|]. intros p. induction p as [|n p IH] using rev_ind; intros Hs.
  - split; [unfold path_len; simpl; lia|constructor].
  - destruct (Hp p n Hs) as (Hd & Hn & Hl). rewrite path_len_snoc in Hl.
    apply nameable_snoc; [apply IH; by eexists|lia..].
Qed.

(** Running a computation on a concrete world, looking at its outcome only. *)
Definition ran {A F} (r : option (result A F)) : bool :=
  match r with Some (Ok _) => true | _ => false end.

Lemma ran_ok `{E : Env} {A F} (m : M F A) w : ran (m w).1 = true → ∃ a w', m w = (Some (Ok a), w').
Proof. destruct (m w) as [[[a|e]|] w']; try done. by exists a, w'. Qed.
