(* ===== verification/Atomic.v ===== *)
(** * Crash-safe file writes: [crates/engine/src/atomic.rs]

    Stage the bytes in a temp file, sync it, rename it onto its destination,
    sync the directories whose entries changed.  The theorems cover every
    failure and every crash point: the destination either keeps what it had or
    holds the whole staged value, nothing else in the tree changes except for
    directories made on the way, and once [commit] has returned, the file and
    every directory leading to it survive a loss of power. *)

From S2P Require Import Prelude RustStr RustPath Checksum EngineError Fs FsFacts.

(** A file being written to a temp directory.  The open handle and the path
    name the same file until [commit] moves it. *)
Record StagedFile := mkStagedFile {
  path : PathBuf;
  committed : bool;
}.

Section atomic.
Context {E : Env}.

(** [StagedFile::create]. *)
Definition create (tmp_dir : PathBuf) : M io_error StagedFile :=
  u <- new_uuid;;
  let path := push tmp_dir (u ++ b#".tmp") in
  open_new path;;;
  ret (mkStagedFile path false).

(** [StagedFile::write_all]. *)
Definition write_all (s : StagedFile) (buf : str) : M io_error unit := append (path s) buf.

(** [impl Drop for StagedFile]: best effort, and only if not committed. *)
Definition drop_staged {F} (s : StagedFile) : M F unit :=
  if committed s then ret ()
  else _ <- attempt (remove_file (path s));; ret ().

(** Run [m], dropping the staged file if it fails. *)
Definition or_drop {F A} (s : StagedFile) (m : M F A) : M F A :=
  r <- attempt m;;
  match r with
  | Ok a => ret a
  | Err e => drop_staged s;;; throw e
  end.

(** [parent_dir]. *)
Definition parent_dir (dest : PathBuf) : PathBuf :=
  match parent dest with
  | Some p => if bool_decide (p = []) then [CurDir] else p
  | None => [CurDir]
  end.

(** The loop of [dirs_to_sync] over the remaining ancestors. *)
Fixpoint sync_chain {F} (ancestors : list PathBuf) : M F (list PathBuf) :=
  match ancestors with
  | [] => ret []
  | ancestor :: rest =>
      let ancestor := if bool_decide (ancestor = []) then [CurDir] else ancestor in
      r <- attempt (try_exists ancestor);;
      if (match r with Ok b => b | Err _ => false end : bool)
      then ret [ancestor]
      else chain <- sync_chain rest;; ret (ancestor :: chain)
  end.

(** [dirs_to_sync]. *)
Definition dirs_to_sync {F} (dir : PathBuf) : M F (list PathBuf) := sync_chain (ancestors dir).

Fixpoint sync_dirs (dirs : list PathBuf) : M io_error unit :=
  match dirs with
  | [] => ret ()
  | dir :: rest => sync_dir dir;;; sync_dirs rest
  end.

(** [StagedFile::commit], up to and including the rename. *)
Definition publish (s : StagedFile) (dest : PathBuf) : M io_error (list PathBuf) :=
  flush (path s);;;
  sync_file (path s);;;
  let parent := parent_dir dest in
  to_sync <- dirs_to_sync parent;;
  create_dir_all parent;;;
  rename (path s) dest;;;
  ret to_sync.

(** [StagedFile::commit]: an error before the rename drops the temp file, and
    after it [committed] is set and the drop does nothing. *)
Definition commit (s : StagedFile) (dest : PathBuf) : M io_error unit :=
  to_sync <- or_drop s (publish s dest);;
  let s := mkStagedFile (path s) true in
  or_drop s (sync_dirs to_sync).

(** [write_json_atomic], from the outcome of [serde_json::to_vec]. *)
Definition write_json_atomic (tmp_dir dest : PathBuf) (value : result str BoxedError)
    : M io_error unit :=
  bytes <- lift (map_err io_error_other value);;
  staged <- create tmp_dir;;
  or_drop staged (write_all staged bytes);;;
  commit staged dest.

(** ** Which directories are synced *)

Lemma parent_dir_spec hd ns n : head_path hd →
  ∃ hd', head_path hd' ∧ resolve hd' = resolve hd
    ∧ parent_dir (hd ++ (Normal <$> (ns ++ [n]))) = hd' ++ (Normal <$> ns).
Proof.
  intros Hhd. unfold parent_dir. rewrite fmap_app, app_assoc. cbn [fmap list_fmap].
  rewrite parent_snoc. case_bool_decide as Hnil; [|by exists hd].
  apply app_eq_nil in Hnil as [-> Hns]. apply fmap_nil_inv in Hns as ->.
  exists [CurDir]. unfold head_path. auto.
Qed.

(** What [dirs_to_sync] promises about [dir]: the directories are on the way to
    it, it is one of them, and so is the parent of every missing one. *)
Definition covers (m : tree) (base : apath) (ns : list str) (L : list PathBuf) : Prop :=
  Forall (λ p, resolve p `prefix_of` base ++ ns) L
  ∧ base ++ ns ∈ resolve <$> L
  ∧ ∀ q x, base `prefix_of` q → q ++ [x] `prefix_of` base ++ ns →
      m !! (q ++ [x]) = None → q ∈ resolve <$> L.

Lemma covers_here m base ns p : wf m →
  resolve p = base ++ ns → is_Some (m !! (base ++ ns)) → covers m base ns [p].
Proof.
  intros Hwf Hp Hs. split; [|split].
  - apply Forall_singleton. by rewrite Hp.
  - apply list_elem_of_fmap. exists p. split; [done|left].
  - intros q x _ [t Ht] Hn. exfalso. destruct t as [|y t].
    + rewrite app_nil_r in Ht. rewrite Ht, Hn in Hs. by destruct Hs.
    + rewrite Ht in Hs. apply wf_prefix in Hs; congruence.
Qed.

Lemma covers_up m base ns x p L :
  resolve p = base ++ ns ++ [x] → covers m base ns L → covers m base (ns ++ [x]) (p :: L).
Proof.
  intros Hp (Hall & Hin & Hmiss). split; [|split].
  - constructor; [by rewrite Hp|]. eapply Forall_impl; [done|]. intros q Hq. simpl in *.
    etrans; [done|]. rewrite app_assoc. by apply prefix_app_r.
  - rewrite fmap_cons, Hp. left.
  - intros q y Hb [t Ht] Hn. rewrite fmap_cons. right.
    destruct t as [|z t _] using rev_ind.
    + rewrite app_nil_r, app_assoc in Ht. apply app_inj_tail in Ht as [<- _]. done.
    + rewrite (app_assoc (q ++ [y])), app_assoc in Ht. apply app_inj_tail in Ht as [Ht _].
      apply (Hmiss q y); [done| |done]. by exists t.
Qed.

Lemma covers_ext m m' base ns L :
  (∀ q, m' !! q = None → m !! q = None) → covers m base ns L → covers m' base ns L.
Proof. intros Hm (? & ? & Hc). split_and!; [done..|]. eauto. Qed.

Lemma ancestors_normals hd ns x :
  ancestors (hd ++ (Normal <$> (ns ++ [x])))
  = (hd ++ (Normal <$> (ns ++ [x]))) :: ancestors (hd ++ (Normal <$> ns)).
Proof. rewrite fmap_app, app_assoc. cbn [fmap list_fmap]. apply ancestors_snoc. Qed.

Lemma wp_try_exists {F} p Q (G : F → disk → Prop) C d : wf (vol d) →
  (is_Some (vol d !! resolve p) → Q (Ok true) d) →
  (∀ r, (match r with Ok b => b | Err _ => false end) = false →
     vol d !! resolve p = None ∨ (∃ e, injected e) → Q r d) →
  (halts → C d) → wp (attempt (try_exists p)) Q G C d.
Proof.
  intros Hwf HT HF HC. apply wp_attempt, wp_bind, wp_attempt, wp_metadata; [| | |done].
  - intros x Hx _. apply wp_ret, HT. by eexists.
  - intros e He. case_bool_decide; [apply wp_ret|apply wp_throw]; apply HF; eauto using walk_Err.
  - intros e He. case_bool_decide; [apply wp_ret|apply wp_throw]; apply HF; eauto.
Qed.

Lemma wp_sync_chain {F} hd ns (G : F → disk → Prop) d :
  head_path hd → wf (vol d) → vol d !! cwd = Some NDir →
  wp (sync_chain (ancestors (hd ++ (Normal <$> ns))))
    (λ L d', d' = d ∧ covers (vol d) (resolve hd) ns L) G (λ d', d' = d) d.
Proof.
  intros Hhd Hwf Hcwd. pose proof (resolve_head hd d Hhd Hwf Hcwd) as Hr.
  induction ns as [|x ns IH] using rev_ind.
  - rewrite app_nil_r.
    assert (∀ p rest, resolve p = resolve hd → p ≠ [] →
      wp (sync_chain (F:=F) rest) (λ L d', d' = d ∧ Forall (λ p, resolve p `prefix_of` resolve hd) L) G
        (λ d', d' = d) d →
      wp (sync_chain (F:=F) (p :: rest)) (λ L d', d' = d ∧ covers (vol d) (resolve hd) [] L) G
        (λ d', d' = d) d) as Hstep.
    { intros p rest Hp Hne Hrest. cbn [sync_chain]. rewrite bool_decide_false by done.
      apply wp_bind, wp_try_exists; [done| | |done].
      - intros _. apply wp_ret. split; [done|]. apply covers_here; [done| |];
          rewrite app_nil_r; [done|by rewrite Hr].
      - intros r Hf _. rewrite Hf. apply wp_bind. eapply wp_mono; [exact Hrest| |done..].
        intros L d' [-> HL]. apply wp_ret. split; [done|].
        split; [|split]; rewrite ?app_nil_r.
        + constructor; [by rewrite Hp|done].
        + rewrite fmap_cons, Hp. left.
        + intros q y [t ->] [t' Ht]. apply (f_equal length) in Ht.
          rewrite !length_app in Ht. simpl in Ht. lia. }
    assert (∀ p, resolve p = resolve hd → p = [] ∨ p ≠ [] →
      wp (sync_chain (F:=F) [p]) (λ L d', d' = d ∧ covers (vol d) (resolve hd) [] L) G
        (λ d', d' = d) d) as Hlast.
    { intros p Hp _. destruct (decide (p = [])) as [->|Hne].
      - change (sync_chain (F:=F) [[]]) with (sync_chain (F:=F) [[CurDir]]).
        apply Hstep; [done|done|]. by apply wp_ret.
      - apply Hstep; [done|done|]. by apply wp_ret. }
    destruct Hhd as [->|[->| ->]].
    + apply Hlast; auto.
    + apply Hlast; auto.
    + apply Hstep; [done|done|]. eapply wp_mono; [apply (Hlast []); auto| |done..].
      intros L d' [-> (HL & _)]. split; [done|]. by rewrite app_nil_r in HL.
  - rewrite ancestors_normals. cbn [sync_chain].
    assert (resolve (hd ++ (Normal <$> (ns ++ [x]))) = resolve hd ++ ns ++ [x]) as Hres
      by apply resolve_normals.
    rewrite bool_decide_false by (rewrite fmap_app; by destruct hd, ns).
    apply wp_bind, wp_try_exists; [done|rewrite Hres|  |done].
    + intros Hs. apply wp_ret. split; [done|]. by apply covers_here.
    + intros r Hf _. rewrite Hf. apply wp_bind. eapply wp_mono; [exact IH| |done..].
      intros L d' [-> HL]. apply wp_ret. split; [done|]. by apply covers_up.
Qed.

(** What is on the disk and still there stays on the disk. *)
Definition keeps_durable (d d' : disk) : Prop :=
  ∀ q x, vol d' !! q = Some x → dur d !! q = Some x → dur d' !! q = Some x.

Lemma keeps_durable_same d d' : dur d' = dur d → keeps_durable d d'.
Proof. intros H q x _ Hq. by rewrite H. Qed.

Lemma keeps_durable_sync a d d' : wf (vol d) → vol d' = vol d →
  keeps_durable (sync_entries a d) d' → keeps_durable d d'.
Proof.
  intros Hwf Hv Hk q x Hq Hd. apply Hk; [done|]. rewrite Hv in Hq.
  rewrite (sync_entries_lookup a d q x) by done. by case_match.
Qed.

(** Syncing a list of directories makes the entries of each durable. *)
Lemma wp_sync_dirs L d :
  wf (vol d) →
  wp (sync_dirs L)
    (λ _ d', vol d' = vol d ∧
       ∀ q x, vol d !! q = Some x →
         dur d' !! q = if existsb (λ p, is_child (resolve p) q) L then Some x else dur d !! q)
    (λ _ d', vol d' = vol d ∧ keeps_durable d d'
             ∧ (Forall (λ p, is_Some (vol d !! resolve p)) L → ∃ e, injected e))
    (λ d', vol d' = vol d ∧ keeps_durable d d') d.
Proof.
  revert d. induction L as [|p L IH]; intros d Hwf; cbn [sync_dirs existsb]; [by apply wp_ret|].
  apply wp_bind, wp_sync_dir.
  - intros Hp. eapply wp_mono; [by apply (IH (sync_entries (resolve p) d))| | |].
    + intros _ d' [Hv Hd]. split; [done|]. intros q x Hq. rewrite (Hd q x Hq).
      rewrite (sync_entries_lookup _ d q x) by done. rewrite orb_comm.
      by destruct (existsb _ L), (is_child (resolve p) q).
    + intros _ d' (Hv & Hk & Hf). split; [done|]. split; [by eapply keeps_durable_sync|].
      intros [_ HL]%Forall_cons. auto.
    + intros d' [Hv Hk]. split; [done|by eapply keeps_durable_sync].
  - intros e He. split_and!; [done|by apply keeps_durable_same|]. intros [[x Hx] _]%Forall_cons.
    by rewrite (walk_complete _ _ x) in He.
  - intros e He. split_and!; [done|by apply keeps_durable_same|]. eauto.
  - intros _. split; [done|by apply keeps_durable_same].
Qed.

(** ** What [commit] may do to the disk *)

(** Apart from the temp file [t] and the destination [a], only directories on
    the way to [a] may have appeared.  [pub] says whether the rename happened:
    then [a] holds exactly the staged bytes, synced, and [t] is gone; before it
    [a] is as it was. *)
Record committing (a t : apath) (data : str) (pub : bool) (d d' : disk) : Prop := {
  com_others q : q ≠ t → q ≠ a →
    vol d' !! q = vol d !! q
    ∨ (vol d !! q = None ∧ vol d' !! q = Some NDir ∧ q `prefix_of` removelast a);
  com_dest : vol d' !! a = if pub then Some (NFile data true) else vol d !! a;
  com_nodir : pub = true → vol d !! a ≠ Some NDir;
  com_temp : vol d' !! t = None ∨ pub = false ∧ ∃ s, vol d' !! t = Some (NFile data s);
  com_wf : wf (vol d');
}.

(** Nothing stands in the way of publishing at [a]. *)
Definition publishable (a : apath) (m : tree) : Prop :=
  creatable (removelast a) m ∧ m !! a ≠ Some NDir ∧ nameable a.

Lemma drop_staged_wp {F} s t data a (Q : () → disk → Prop) (G : F → disk → Prop) d d' :
  committed s = false → resolve (path s) = t → t ≠ a →
  committing a t data false d d' → dur d' = dur d →
  (∀ d'', committing a t data false d d'' → dur d'' = dur d → Q () d'') →
  wp (drop_staged s) Q G (λ d'', committing a t data false d d'' ∧ dur d'' = dur d) d'.
Proof.
  intros Hc Ht Hne [Ho Hd _ Htmp Hwf] Hdur HQ. unfold drop_staged. rewrite Hc.
  apply wp_bind, wp_attempt, wp_remove_file; rewrite ?Ht; intros; try apply wp_ret, HQ;
    try done.
  split; cbn.
  - intros q Hqt Hqa. rewrite lookup_delete_ne by done. auto.
  - by rewrite lookup_delete_ne.
  - done.
  - left. apply lookup_delete_eq.
  - apply wf_delete_file; [done|]. congruence.
Qed.

Context `{!EnvOk E}.

Lemma committing_start a t data s d :
  wf (vol d) → vol d !! t = Some (NFile data s) → committing a t data false d d.
Proof. intros Hwf Ht. split; [by left|done|done|right; eauto|done]. Qed.

Lemma removelast_neq (a q : apath) : a ≠ [] → q `prefix_of` removelast a → q ≠ a.
Proof.
  intros Ha Hq ->. apply prefix_length in Hq. destruct a as [|x a _] using rev_ind; [done|].
  rewrite removelast_last, length_app in Hq. simpl in Hq. lia.
Qed.

(** Making directories keeps the temp file and the destination. *)
Lemma committing_made a t data s d d1 d2 :
  a ≠ [] → committing a t data false d d1 → vol d1 !! t = Some (NFile data s) →
  made (removelast a) d1 d2 → committing a t data false d d2.
Proof.
  intros Ha [Ho Hd _ _ _] Ht (Hm & Hwf2 & _). split; [| |done| |done].
  - intros q Hqt Hqa. destruct (Hm q) as [->|(Hn & -> & Hp)]; [auto|].
    destruct (Ho q Hqt Hqa) as [Heq|(? & ? & ?)]; [|congruence]. right. by rewrite <- Heq.
  - rewrite <- Hd. destruct (Hm a) as [?|(_ & _ & Hp)]; [done|].
    by destruct (removelast_neq a a Ha Hp).
  - right. split; [done|]. exists s. by eapply mkdirs_keep.
Qed.

(** The rename is the publication. *)
Lemma committing_rename a' x t data d d2 :
  t ≠ a' ++ [x] → committing (a' ++ [x]) t data false d d2 →
  vol d2 !! t = Some (NFile data true) → vol d2 !! a' = Some NDir → nameable (a' ++ [x]) →
  vol d2 !! (a' ++ [x]) ≠ Some NDir →
  committing (a' ++ [x]) t data true d
    (set_vol (λ m, <[a' ++ [x] := NFile data true]> (delete t m)) d2).
Proof.
  intros Hta [Ho Hd _ _ Hwf2] Ht Ha' Hx Hnd. split; cbn.
  - intros q Hqt Hqa. rewrite lookup_insert_ne, lookup_delete_ne by done. auto.
  - apply lookup_insert_eq.
  - intros _. by rewrite <- Hd.
  - left. by rewrite lookup_insert_ne, lookup_delete_eq.
  - apply wf_insert; [apply wf_delete_file; [done|congruence]| |done|right].
    + rewrite lookup_delete_ne; [done|]. congruence.
    + by rewrite lookup_delete_ne.
Qed.

(** Syncing the staged bytes. *)
Lemma committing_synced a t data s d :
  t ≠ a → wf (vol d) → vol d !! t = Some (NFile data s) →
  committing a t data false d (set_vol (<[t := NFile data true]>) d).
Proof.
  intros Hta Hwf Ht. split; cbn.
  - intros q Hqt _. left. by apply lookup_insert_ne.
  - by apply lookup_insert_ne.
  - done.
  - right. split; [done|]. exists true. apply lookup_insert_eq.
  - by eapply wf_set_file.
Qed.

Lemma publishable_rename a' x m m' e :
  mkdirs a' m m' → wf m' → m' !! a' = Some NDir → publishable (a' ++ [x]) m →
  ¬ (walk_new m' (a' ++ [x]) = Err e ∨ m' !! (a' ++ [x]) = Some NDir).
Proof.
  intros Hm Hwf Ha' (_ & Hnd & Hn) [Hw|Hd].
  - by rewrite walk_new_snoc in Hw.
  - destruct (Hm (a' ++ [x])) as [?|(_ & _ & Hp)]; [congruence|].
    apply prefix_length in Hp. rewrite length_app in Hp. simpl in Hp. lia.
Qed.

Lemma publishable_synced a t data s m :
  m !! t = Some (NFile data s) → t ≠ a → publishable a m →
  publishable a (<[t := NFile data true]> m).
Proof.
  intros Ht Hta ([Hn Hc] & Hnd & Hall). split; [split; [done|]|split; [|done]].
  - intros q Hq. destruct (decide (t = q)) as [<-|Hne].
    + destruct (Hc t Hq); congruence.
    + rewrite lookup_insert_ne by done. auto.
  - by rewrite lookup_insert_ne.
Qed.

(** [publish]: stage to rename. *)
Lemma wp_publish hd ns n st t data s d :
  let a := (resolve hd ++ ns) ++ [n] in
  head_path hd → resolve (path st) = t →
  t ≠ a → wf (vol d) → vol d !! cwd = Some NDir → vol d !! t = Some (NFile data s) →
  wp (publish st (hd ++ (Normal <$> (ns ++ [n]))))
    (λ L d', committing a t data true d d' ∧ dur d' = dur d
             ∧ covers (vol d) (resolve hd) ns L ∧ vol d' !! (resolve hd ++ ns) = Some NDir)
    (λ _ d', committing a t data false d d' ∧ dur d' = dur d
             ∧ (publishable a (vol d) → ∃ e, injected e))
    (λ d', committing a t data false d d' ∧ dur d' = dur d) d.
Proof.
  intros a Hhd Ht Hta Hwf Hcwd Hdata. unfold publish.
  assert (removelast a = resolve hd ++ ns) as Hra by apply removelast_last.
  assert (a ≠ []) as Hane by (unfold a; by destruct (resolve hd ++ ns)).
  pose proof (committing_start a t data s d Hwf Hdata) as H0.
  apply wp_bind, wp_flush; [|by eauto|done].
  apply wp_bind. eapply wp_sync_file; [by rewrite Ht| |by eauto|done]. rewrite Ht.
  pose proof (committing_synced a t data s d Hta Hwf Hdata) as H1.
  set (d1 := set_vol _ d) in *. pose proof (com_wf _ _ _ _ _ _ H1) as Hwf1.
  assert (vol d1 !! t = Some (NFile data true)) as Hdata1 by apply lookup_insert_eq.
  assert (∀ q, q ≠ t → vol d1 !! q = vol d !! q) as Hsame
    by (intros q Hq; by apply lookup_insert_ne).
  assert (vol d1 !! cwd = Some NDir) as Hcwd1 by (rewrite Hsame; [done|congruence]).
  destruct (parent_dir_spec hd ns n Hhd) as (hd' & Hhd' & Hres & ->).
  apply wp_bind. eapply wp_mono; [by apply (wp_sync_chain hd' ns (λ _ _, False) d1)| |done|].
  2: { intros d' ->. done. }
  intros L d' [-> Hcov]. rewrite Hres in Hcov. apply wp_bind.
  eapply wp_mono; [by apply wp_create_dir_all| | |]; rewrite Hres, <- Hra.
  - intros _ d2 [Hm2 Hdir].
    pose proof (committing_made a t data true d d1 d2 Hane H1 Hdata1 Hm2) as H2.
    destruct Hm2 as (Hm & Hwf2 & Hd2). pose proof (mkdirs_keep _ _ _ _ _ Hm Hdata1) as Hdata2.
    apply wp_bind. eapply (wp_rename _ _ data true); [by rewrite Ht|done|rewrite ?resolve_normals, ?Ht..].
    + rewrite app_assoc. fold a. intros a' x' Heq Ha' Hx Hnd. apply wp_ret.
      rewrite Heq in *. rewrite removelast_last in *.
      split; [by apply committing_rename|split; [done|split]].
      * eapply covers_ext; [|done]. intros q Hq. destruct (decide (q = t)) as [->|?]; [congruence|by rewrite Hsame].
      * cbn. rewrite lookup_insert_ne, lookup_delete_ne; [done|congruence|].
        intros Heq'. apply (f_equal length) in Heq'. rewrite length_app in Heq'. simpl in Heq'. lia.
    + rewrite app_assoc. fold a. intros e He. split; [done|split; [done|]].
      intros Hpub. exfalso. eapply (publishable_rename (removelast a) n (vol d1)); [done|done|done| |].
      * rewrite Hra. by eapply publishable_synced.
      * rewrite Hra. exact He.
    + by eauto.
    + done.
  - intros _ d2 [Hm2 Hf]. split; [by eapply committing_made|split; [apply Hm2|]].
    intros Hpub. apply Hf. by eapply (publishable_synced a t data s).
  - intros d2 [Hm2 _]. split; [by eapply committing_made|apply Hm2].
Qed.

(** ** Power loss *)

(** After a loss of power each entry is as it was last made durable, or as the
    running system saw it: nothing more is promised. *)
Definition power_loss (d : disk) (m : tree) : Prop :=
  ∀ q, m !! q = dur d !! q ∨ m !! q = vol d !! q.

(** Every directory the system has is on the disk. *)
Definition dirs_durable (d : disk) : Prop :=
  ∀ q, vol d !! q = Some NDir → dur d !! q = Some NDir.

(** Every entry on the way to [a], and [a] itself, is on the disk. *)
Definition durable (d : disk) (a : apath) : Prop :=
  ∀ q, q `prefix_of` a → dur d !! q = vol d !! q.

Lemma wf_prefix_of m p q : wf m → q `prefix_of` p → q ≠ p → is_Some (m !! p) → m !! q = Some NDir.
Proof.
  intros Hwf [t ->] Hne Hs. apply (wf_prefix m q t); [done| |done]. intros ->. by rewrite app_nil_r in Hne.
Qed.

Lemma wf_prefix_some m p q : wf m → q `prefix_of` p → is_Some (m !! p) → is_Some (m !! q).
Proof.
  intros Hwf Hp Hs. destruct (decide (q = p)) as [->|Hne]; [done|].
  eexists. by eapply wf_prefix_of.
Qed.

(** Directories that were missing are entries of directories on the list. *)
Lemma covers_missing m base ns L q : wf m → m !! base = Some NDir →
  covers m base ns L → q `prefix_of` base ++ ns → m !! q = None →
  existsb (λ p, is_child (resolve p) q) L = true.
Proof.
  intros Hwf Hb (_ & _ & Hc) Hq Hn. destruct q as [|x q0 _] using rev_ind.
  { by rewrite wf_root in Hn. }
  assert (base `prefix_of` q0) as Hbq.
  { destruct (prefix_weak_total base (q0 ++ [x]) (base ++ ns)) as [Hp|Hp];
      [by apply prefix_app_r|done| |].
    - apply prefix_snoc in Hp as [->|?]; [congruence|done].
    - destruct (wf_prefix_some m base (q0 ++ [x])) as [? ?]; [done|done|by eexists|congruence]. }
  specialize (Hc q0 x Hbq Hq Hn). apply list_elem_of_fmap in Hc as (p & -> & Hp).
  apply existsb_exists. exists p. split; [by apply list_elem_of_In|].
  apply is_child_spec. by exists x.
Qed.

(** After the sync loop everything on the way to the destination is durable. *)
Lemma synced_durable hd ns n t data L d d1 d' :
  let a := (resolve hd ++ ns) ++ [n] in
  wf (vol d) → vol d !! resolve hd = Some NDir → vol d !! t ≠ Some NDir → dirs_durable d →
  committing a t data true d d1 → dur d1 = dur d → covers (vol d) (resolve hd) ns L →
  vol d' = vol d1 →
  (∀ q x, vol d1 !! q = Some x →
    dur d' !! q = if existsb (λ p, is_child (resolve p) q) L then Some x else dur d1 !! q) →
  durable d' a ∧ dirs_durable d'.
Proof.
  intros a Hwf Hb Ht Hdd Hcom Hdur Hcov Hvol Hsync. pose proof (com_wf _ _ _ _ _ _ Hcom) as Hwf1.
  pose proof (com_dest _ _ _ _ _ _ Hcom) as Ha. simpl in Ha.
  assert (dirs_durable d') as Hdd'.
  { intros q Hq. rewrite Hvol in Hq. rewrite (Hsync q NDir Hq).
    destruct (existsb _ L) eqn:Ex; [done|]. rewrite Hdur. apply Hdd.
    destruct (decide (q = t)) as [->|Hqt].
    { destruct (com_temp _ _ _ _ _ _ Hcom) as [?|(_ & ? & ?)]; congruence. }
    destruct (com_others _ _ _ _ _ _ Hcom q Hqt ltac:(congruence)) as [<-|(Hn & _ & Hp)]; [done|].
    unfold a in Hp. rewrite removelast_last in Hp.
    by rewrite (covers_missing _ _ _ _ _ Hwf Hb Hcov Hp Hn) in Ex. }
  split; [|done]. intros q Hq. rewrite Hvol. destruct (decide (q = a)) as [->|Hne].
  - rewrite (Hsync _ _ Ha), Ha. replace (existsb _ L) with true; [done|]. symmetry.
    apply existsb_exists. destruct Hcov as (_ & Hin & _).
    apply list_elem_of_fmap in Hin as (p & Hp & HpL). exists p.
    split; [by apply list_elem_of_In|]. apply is_child_spec. exists n. by rewrite <- Hp.
  - assert (vol d1 !! q = Some NDir) as Hdir by (eapply wf_prefix_of; [done..|by eexists]).
    rewrite Hdir. apply Hdd'. by rewrite Hvol.
Qed.

Lemma wp_or_drop_committed {F A} s (m : M F A) Q G C d :
  committed s = true → wp m Q G C d → wp (or_drop s m) Q G C d.
Proof.
  intros Hs Hm. apply wp_bind, wp_attempt. eapply wp_mono; [done| | |done].
  - intros a d' HQ. by apply wp_ret.
  - intros e d' HG. apply wp_bind. unfold drop_staged. rewrite Hs. by apply wp_ret, wp_throw.
Qed.

(** [commit], whatever fails and wherever the process dies. *)
Lemma wp_commit hd ns n st t data s d :
  let a := (resolve hd ++ ns) ++ [n] in
  head_path hd → resolve (path st) = t → committed st = false →
  t ≠ a → wf (vol d) → vol d !! cwd = Some NDir → vol d !! t = Some (NFile data s) →
  wp (commit st (hd ++ (Normal <$> (ns ++ [n]))))
    (λ _ d', (committing a t data true d d' ∧ keeps_durable d d')
             ∧ (dirs_durable d → durable d' a ∧ dirs_durable d'))
    (λ _ d', (∃ pub, committing a t data pub d d' ∧ keeps_durable d d')
             ∧ (publishable a (vol d) → ∃ e, injected e))
    (λ d', ∃ pub, committing a t data pub d d' ∧ keeps_durable d d') d.
Proof.
  intros a Hhd Ht Hc Hta Hwf Hcwd Hdata. apply wp_bind, wp_bind, wp_attempt.
  eapply wp_mono; [by apply (wp_publish hd ns n st t data s)| | |].
  - intros L d1 (Hcom & Hdur & Hcov & Hdir). apply wp_ret, wp_or_drop_committed; [done|].
    pose proof (com_wf _ _ _ _ _ _ Hcom) as Hwf1.
    assert (∀ d', vol d' = vol d1 → keeps_durable d1 d' →
      committing a t data true d d' ∧ keeps_durable d d') as Hsame.
    { intros d' Hv Hk. split; [destruct Hcom; split; by rewrite ?Hv|].
      intros q x Hq Hd. apply Hk; [done|]. by rewrite Hdur. }
    eapply wp_mono; [by apply wp_sync_dirs| | |].
    + intros _ d2 [Hv Hd]. split.
      { apply Hsame; [done|]. intros q x Hq Hdq. rewrite Hv in Hq. rewrite (Hd q x Hq). by case_match. }
      intros Hdd. eapply (synced_durable hd ns n t data L d d1); try done;
        [by apply resolve_head|congruence].
    + intros _ d2 (Hv & Hk & Hf). split; [exists true; by apply Hsame|]. intros _. apply Hf.
      destruct Hcov as (Hall & _). eapply Forall_impl; [exact Hall|]. intros p Hp.
      eapply wf_prefix_some; [done|exact Hp|by eexists].
    + intros d2 [Hv Hk]. exists true. by apply Hsame.
  - intros e d1 (Hcom & Hdur & Hf). apply wp_bind.
    eapply wp_mono; [by apply (drop_staged_wp st t data a
      (λ _ d'', committing a t data false d d'' ∧ keeps_durable d d'') (λ _ _, False) d d1);
      eauto using keeps_durable_same|..].
    + intros u d2 Hcom2. apply wp_throw. split; [by exists false|done].
    + done.
    + intros d2 [Hcom2 Hd2]. exists false. auto using keeps_durable_same.
  - intros d1 [Hcom Hd1]. exists false. auto using keeps_durable_same.
Qed.

(** ** Staging *)

(** The temp file [t] has been made and holds [data]; nothing else changed. *)
Record staging (t : apath) (data : str) (d d' : disk) : Prop := {
  stg_fresh : vol d !! t = None;
  stg_vol : ∃ s, vol d' = <[t := NFile data s]> (vol d);
  stg_dur : dur d' = dur d;
  stg_wf : wf (vol d');
}.

(** Either nothing happened or a temp file was left behind. *)
Definition debris (t : apath) (d d' : disk) : Prop :=
  (vol d' = vol d ∧ dur d' = dur d) ∨ ∃ data, staging t data d d'.

(** The temp files in [T] have paths the file system accepts. *)
Definition roomy (T : apath) : Prop := path_len T + 41 ≤ path_max.

(** No file in [T] has a name the generator is going to hand out. *)
Definition fresh_names (T : apath) (m : tree) : Prop :=
  ∀ n, m !! (T ++ [uuid n ++ b#".tmp"]) = None.

Lemma staging_lookup t data d d' : staging t data d d' → ∃ s, vol d' !! t = Some (NFile data s).
Proof. intros [_ [s ->] _ _]. exists s. apply lookup_insert_eq. Qed.

Lemma wp_create hd ts d :
  let T := resolve hd ++ ts in
  head_path hd → wf (vol d) → vol d !! T = Some NDir → roomy T →
  wp (create (hd ++ (Normal <$> ts)))
    (λ st d', ∃ n, path st = hd ++ (Normal <$> (ts ++ [n])) ∧ committed st = false
                   ∧ staging (T ++ [n]) [] d d')
    (λ e d', d' = d ∧ (fresh_names T (vol d) → injected e)) (λ d', d' = d ∧ halts) d.
Proof.
  intros T Hhd Hwf HT Hroom. apply wp_bind, wp_new_uuid. intros n.
  destruct (uuid_plain n) as [Hplain Hlen]. rewrite push_plain by done.
  set (x := uuid n ++ b#".tmp") in *. pose proof (name_max_large (E:=E)). unfold roomy in Hroom.
  assert (nameable (T ++ [x])) as Hnm.
  { apply nameable_snoc; [by apply (wf_nameable _ Hwf); eexists|lia..]. }
  assert (resolve ((hd ++ (Normal <$> ts)) ++ [Normal x]) = T ++ [x]) as Hres
    by (unfold T; by rewrite resolve_snoc, resolve_normals).
  apply wp_bind, wp_open_new; rewrite ?Hres.
  - intros a y _ _ _ Hn. apply wp_ret. exists x. cbn [path committed].
    rewrite fmap_app, app_assoc. split_and!; [done..|].
    split; [done|by exists false|done|by apply wf_insert; [..|right; rewrite Hn]].
  - intros e He. by rewrite walk_new_snoc in He.
  - intros [y Hy]. split; [done|]. intros Hf. specialize (Hf n). fold x in Hf. congruence.
  - auto.
  - auto.
Qed.

Lemma wp_write_all st t data buf d0 d :
  resolve (path st) = t → staging t data d0 d →
  wp (write_all st buf) (λ _ d', staging t (data ++ buf) d0 d')
    (λ e d', injected e ∧ ∃ data', staging t data' d0 d') (λ d', ∃ data', staging t data' d0 d') d.
Proof.
  intros Ht [Hf [s Hv] Hd Hwf].
  assert (∀ b, staging t (data ++ b) d0 (append_bytes t b d)) as Happ.
  { intros b. unfold append_bytes. rewrite Hv, lookup_insert_eq. split; [done| |done|].
    - exists false. cbn. by rewrite Hv, insert_insert_eq.
    - cbn. eapply (wf_set_file _ t data s); [done|]. rewrite Hv. apply lookup_insert_eq. }
  apply wp_append; rewrite ?Ht.
  - apply Happ.
  - intros e k He. split; [done|]. eauto.
  - intros _. exists data. split; [done|by exists s|done..].
Qed.

(** Dropping a staged file takes it away again, unless that fails too. *)
Lemma wp_drop_staging {F} st t data d0 d (Q : () → disk → Prop) (G : F → disk → Prop) (C : disk → Prop) :
  resolve (path st) = t → committed st = false → staging t data d0 d →
  (∀ d', debris t d0 d' → wf (vol d') → Q () d') → (∀ d', debris t d0 d' → C d') →
  wp (drop_staged st) Q G C d.
Proof.
  intros Ht Hc Hst HQ HC. unfold drop_staged. rewrite Hc.
  assert (debris t d0 d) as Hdeb by (right; by exists data).
  pose proof (stg_wf _ _ _ _ Hst) as Hwf.
  apply wp_bind, wp_attempt, wp_remove_file; rewrite ?Ht; intros; try (apply wp_ret, HQ; done);
    [|by apply HC].
  apply wp_ret. destruct Hst as [Hf [s' Hv] Hd _]. apply HQ.
  - left. cbn. rewrite Hv. split; [|done]. by apply delete_insert_id.
  - cbn. apply wf_delete_file; [done|]. rewrite Hv, lookup_insert_eq. done.
Qed.

Lemma wp_or_drop_staging {F A} st t d0 (m : M F A) Q (G : F → disk → Prop) (C : disk → Prop) d :
  resolve (path st) = t → committed st = false →
  wp m Q (λ e d', (∃ data, staging t data d0 d') ∧ ∀ d'', debris t d0 d'' → wf (vol d'') → G e d'')
    C d →
  (∀ d', debris t d0 d' → C d') →
  wp (or_drop st m) Q G C d.
Proof.
  intros Ht Hc Hm HC. apply wp_bind, wp_attempt. eapply wp_mono; [exact Hm| | |done].
  - intros a d' HQ. by apply wp_ret.
  - intros e d' [[data Hst] HG]. apply wp_bind. eapply wp_drop_staging; [done..| |done].
    intros d'' Hdeb Hwf. apply wp_throw. auto.
Qed.

(** ** Writing one file, from staging to publication *)

(** A write of [data] to [a] staged in [T] has begun, and has been published if
    [pub]: at most [a], fresh files in [T] and directories on the way to [a] are
    different. *)
Record attempted (T a : apath) (data : str) (pub : bool) (d d' : disk) : Prop := {
  att_grows : grows (λ q, q = a ∨ is_child T q = true) (removelast a) (vol d) (vol d');
  att_dest : file_at (vol d') a = if pub then Some data else file_at (vol d) a;
  att_durable : keeps_durable d d';
}.

(** A write that returned: it is published, and [T] is as it was. *)
Record written (T a : apath) (data : str) (d d' : disk) : Prop := {
  wr_attempted : attempted T a data true d d';
  wr_clean n : vol d' !! (T ++ [n]) = vol d !! (T ++ [n]);
  wr_durable : dirs_durable d → durable d' a ∧ dirs_durable d';
}.

Lemma is_child_here T n : is_child T (T ++ [n]) = true.
Proof. apply is_child_spec. by exists n. Qed.

Lemma prefix_removelast (p a : apath) : p `prefix_of` removelast a → p `prefix_of` a.
Proof.
  intros Hp. etrans; [exact Hp|]. destruct a as [|x a _] using rev_ind; [done|].
  rewrite removelast_last. by apply prefix_app_r.
Qed.

Lemma not_below (T a : apath) : ¬ T `prefix_of` a → is_child T a = false.
Proof.
  intros Ha. apply not_true_iff_false. intros [n ->]%is_child_spec. apply Ha. by apply prefix_app_r.
Qed.

Lemma staging_attempted T n a data data' d d' :
  ¬ T `prefix_of` a → staging (T ++ [n]) data d d' → attempted T a data' false d d'.
Proof.
  intros Ha [Hf [s Hv] Hd Hwf]. apply not_below in Ha. rewrite <- not_true_iff_false in Ha.
  assert (∀ q, is_child T q ≠ true → vol d' !! q = vol d !! q) as Hsame.
  { intros q Hq. rewrite Hv, lookup_insert_ne; [done|]. intros <-. by rewrite is_child_here in Hq. }
  split; [split| |by apply keeps_durable_same].
  - intros q Hq. left. apply Hsame. intros ?. apply Hq. by right.
  - intros q Hq. rewrite Hv, lookup_insert_ne; [done|congruence].
  - intros q. rewrite Hv. destruct (decide (T ++ [n] = q)) as [<-|Hne].
    + by rewrite lookup_insert_eq.
    + rewrite lookup_insert_ne by done. auto.
  - done.
  - unfold file_at. by rewrite Hsame.
Qed.

Lemma debris_attempted T n a data d d' :
  ¬ T `prefix_of` a → wf (vol d') → debris (T ++ [n]) d d' → attempted T a data false d d'.
Proof.
  intros Ha Hwf [[Hv Hd]|[data' Hst]]; [|by eapply staging_attempted].
  rewrite Hv in Hwf. split; [|by rewrite Hv|by apply keeps_durable_same].
  rewrite Hv. by apply grows_refl.
Qed.

(** From the disk before the temp file was made to the one [commit] left. *)
Lemma committed_attempted T n a data pub d d1 d2 :
  ¬ T `prefix_of` a → vol d !! T = Some NDir →
  staging (T ++ [n]) data d d1 → committing a (T ++ [n]) data pub d1 d2 → keeps_durable d1 d2 →
  attempted T a data pub d d2.
Proof.
  intros Ha HT [Hf [s Hv] Hd Hwf1] [Ho Hdest Hnd Htmp Hwf2] Hk.
  apply not_below in Ha. assert (∀ q, q ≠ T ++ [n] → vol d1 !! q = vol d !! q) as Hsame.
  { intros q Hq. by rewrite Hv, lookup_insert_ne. }
  assert (a ≠ T ++ [n]) as Hta by (intros ->; by rewrite is_child_here in Ha).
  rewrite Hsame in Hdest, Hnd by done. split; [split| |].
  - intros q Hq. assert (q ≠ a) by auto. assert (q ≠ T ++ [n]) as Hqt.
    { intros ->. apply Hq. right. apply is_child_here. }
    rewrite <- (Hsame q Hqt). destruct (Ho q Hqt) as [?|(? & ? & _)]; auto.
  - intros q Hq. assert (q ≠ T ++ [n]) as Hqt by congruence.
    destruct (decide (q = a)) as [->|Hqa]; [destruct pub; [by destruct Hnd|congruence]|].
    destruct (Ho q Hqt Hqa) as [->|(Hn & -> & _)]; [by rewrite Hsame|done].
  - intros q Hq. destruct (decide (q = T ++ [n])) as [->|Hqt].
    { destruct Htmp as [?|(_ & s' & ?)]; congruence. }
    destruct (decide (q = a)) as [->|Hqa]; [left; destruct pub; congruence|].
    destruct (Ho q Hqt Hqa) as [Heq|(_ & _ & ?)]; [|by right].
    left. by rewrite <- Hsame, <- Heq.
  - done.
  - unfold file_at at 1. rewrite Hdest. by destruct pub.
  - intros q x Hq Hdq. apply Hk; [done|]. by rewrite Hd.
Qed.

Lemma committed_clean T n a data d d1 d2 :
  ¬ T `prefix_of` a → vol d !! T = Some NDir →
  staging (T ++ [n]) data d d1 → committing a (T ++ [n]) data true d1 d2 →
  ∀ k, vol d2 !! (T ++ [k]) = vol d !! (T ++ [k]).
Proof.
  intros Ha HT [Hf [s Hv] _ _] [Ho _ _ Htmp _] k.
  destruct (decide (T ++ [k] = T ++ [n])) as [->|Hne].
  - destruct Htmp as [->|[? _]]; done.
  - assert (T ++ [k] ≠ a) as Hka by (intros <-; apply Ha; by apply prefix_app_r).
    assert (vol d1 !! (T ++ [k]) = vol d !! (T ++ [k])) as Hk by (by rewrite Hv, lookup_insert_ne).
    destruct (Ho _ Hne Hka) as [->|(Hn & Hs & Hp)]; [done|].
    destruct Ha. apply prefix_removelast. etrans; [|exact Hp]. by apply prefix_app_r.
Qed.

Lemma staging_dirs_durable t data d d' : staging t data d d' → dirs_durable d → dirs_durable d'.
Proof.
  intros [_ [s Hv] Hd _] Hdd q Hq. rewrite Hd. apply Hdd. rewrite Hv in Hq.
  destruct (decide (t = q)) as [<-|?]; [by rewrite lookup_insert_eq in Hq|].
  by rewrite lookup_insert_ne in Hq.
Qed.

Lemma staging_publishable T n a data d d' :
  ¬ T `prefix_of` a → staging (T ++ [n]) data d d' → publishable a (vol d) → publishable a (vol d').
Proof.
  intros Ha [_ [s Hv] _ _] ([Hl Hc] & Hnd & Hn).
  assert (∀ q, q `prefix_of` a → vol d' !! q = vol d !! q) as Hsame.
  { intros q Hq. rewrite Hv, lookup_insert_ne; [done|]. intros <-. apply Ha.
    etrans; [|exact Hq]. by apply prefix_app_r. }
  split_and!; [split; [done|]| |done].
  - intros q Hq. rewrite Hsame by (by apply prefix_removelast). by apply Hc.
  - by rewrite Hsame.
Qed.

(** [commit] of a temp file made in [T] since [d]. *)
(** Below a directory whose path is too long nothing is published or made. *)
Lemma wp_commit_long hd ns n st t data d d1 :
  head_path hd → resolve (path st) = t → committed st = false → vol d1 !! cwd = Some NDir →
  path_max < path_len (resolve hd ++ ns) → staging t data d d1 →
  wp (commit st (hd ++ (Normal <$> (ns ++ [n])))) (λ _ _, False)
    (λ e d', debris t d d' ∧ wf (vol d') ∧ (kind e = KInvalidFilename ∨ injected e)) (λ d', debris t d d') d1.
Proof.
  intros Hhd Ht Hc Hcwd Hl Hst. assert (∀ d', (∃ data, staging t data d d') → debris t d d') as Hdeb by by right.
  apply wp_bind, (wp_or_drop_staging st t d); [done..| |done]. unfold publish.
  apply wp_bind, wp_flush; [|intros e He; split; [eauto|auto]|eauto].
  destruct (staging_lookup _ _ _ _ Hst) as [s Hs].
  apply wp_bind, (wp_sync_file _ data s); rewrite ?Ht; [done| |intros e He; split; [eauto|auto]|eauto].
  assert (staging t data d (set_vol (<[t := NFile data true]>) d1)) as Hst2.
  { destruct Hst as [Hf [s' Hv] Hd Hwf]. split; [done| |done|by eapply wf_set_file].
    exists true. cbn. by rewrite Hv, insert_insert_eq. }
  set (d2 := set_vol _ d1) in *.
  destruct (parent_dir_spec hd ns n Hhd) as (hd' & Hhd' & Hres & ->).
  assert (vol d2 !! cwd = Some NDir) as Hcwd2.
  { cbn. rewrite lookup_insert_ne; [done|]. intros ->. congruence. }
  apply wp_bind. eapply wp_mono; [apply wp_sync_chain; [done|apply Hst2|done]| | |by intros ? ->; eauto].
  2: exact (λ e d' (H : False), match H with end).
  intros L d' [-> _]. apply wp_bind.
  assert (resolve (hd' ++ (Normal <$> ns)) = resolve hd ++ ns) as Hp by by rewrite resolve_normals, Hres.
  eapply wp_mono; [apply wp_create_dir_all_long; [apply Hst2| |by rewrite Hp]|done| |by intros ? ->; eauto].
  - intros Heq. rewrite Heq in Hp. change (resolve []) with cwd in Hp.
    destruct (wf_nameable _ (stg_wf _ _ _ _ Hst2) cwd) as [Hlen _]; [by eexists|]. rewrite Hp in Hlen. lia.
  - intros e d' [-> He]. split; [eauto|auto].
Qed.

Lemma wp_commit_staged hd ns n st T k data d d1 :
  let a := (resolve hd ++ ns) ++ [n] in
  head_path hd → resolve (path st) = T ++ [k] → committed st = false →
  ¬ T `prefix_of` a → vol d !! T = Some NDir → vol d !! cwd = Some NDir →
  staging (T ++ [k]) data d d1 →
  wp (commit st (hd ++ (Normal <$> (ns ++ [n]))))
    (λ _ d', written T a data d d')
    (λ _ d', (∃ pub, attempted T a data pub d d') ∧ (publishable a (vol d) → ∃ e, injected e))
    (λ d', ∃ pub, attempted T a data pub d d') d1.
Proof.
  intros a Hhd Ht Hc Ha HT Hcwd Hst. pose proof Hst as [Hf [s Hv] Hd Hwf].
  assert (vol d1 !! cwd = Some NDir) as Hcwd1.
  { rewrite Hv, lookup_insert_ne; [done|congruence]. }
  assert (T ++ [k] ≠ a) as Hta by (intros Heq; apply Ha; rewrite <- Heq; by apply prefix_app_r).
  eapply wp_mono; [eapply (wp_commit hd ns n st (T ++ [k]) data s)| | |]; try done.
  - rewrite Hv. apply lookup_insert_eq.
  - intros _ d2 [[Hcom Hk] Hdur]. split.
    + by eapply committed_attempted.
    + by eapply committed_clean.
    + intros Hdd. apply Hdur. by eapply staging_dirs_durable.
  - intros _ d2 [(pub & Hcom & Hk) Hp]. split; [|intros; by eapply Hp, staging_publishable].
    exists pub. by eapply committed_attempted.
  - intros d2 (pub & Hcom & Hk). exists pub. by eapply committed_attempted.
Qed.

(** [write_json_atomic] of a value that serialises to [data]. *)
Lemma wp_write_json_atomic hd ts ns n data d :
  let T := resolve hd ++ ts in
  let a := (resolve hd ++ ns) ++ [n] in
  head_path hd → ¬ T `prefix_of` a → wf (vol d) → vol d !! T = Some NDir → vol d !! cwd = Some NDir → roomy T →
  wp (write_json_atomic (hd ++ (Normal <$> ts)) (hd ++ (Normal <$> (ns ++ [n]))) (Ok data))
    (λ _ d', written T a data d d')
    (λ _ d', (∃ pub, attempted T a data pub d d')
             ∧ (fresh_names T (vol d) → publishable a (vol d) → ∃ e, injected e))
    (λ d', ∃ pub, attempted T a data pub d d') d.
Proof.
  intros T a Hhd Ha Hwf HT Hcwd Hroom.
  assert (attempted T a data false d d) as Hid.
  { split; [by apply grows_refl|done|by apply keeps_durable_same]. }
  apply wp_bind, wp_lift; [|done]. intros bytes [= <-].
  apply wp_bind. eapply wp_mono; [by apply wp_create| | |].
  - intros st d1 (k & Hpath & Hc & Hst).
    assert (resolve (path st) = T ++ [k]) as Ht by (rewrite Hpath, resolve_normals; unfold T; by rewrite app_assoc).
    apply wp_bind, (wp_or_drop_staging st (T ++ [k]) d); [done|done| |].
    + eapply wp_mono; [by apply (wp_write_all st (T ++ [k]) [] data d)| | |].
      * intros u d2 Hst2. simpl in Hst2.
        eapply wp_mono; [by apply (wp_commit_staged hd ns n st T k data d)|done| |done].
        intros _ d3 [? ?]. auto.
      * intros e d2 [He Hst2]. split; [done|]. intros d3 Hdeb Hwf3. split; [|eauto].
        exists false. by eapply debris_attempted.
      * intros d2 [data' Hst2]. exists false. by eapply staging_attempted.
    + intros d2 Hdeb. exists false. eapply debris_attempted; [done| |done].
      destruct Hdeb as [[-> _]|[? []]]; done.
  - intros e d1 [-> Hf]. eauto.
  - intros d1 [-> _]. eauto.
Qed.

(** ** The theorems *)

(** C21: [commit] is atomic under every failure and at every crash point.  For a
    staged file [t] holding [data] and a destination [a] elsewhere: when it
    returns, [a] holds exactly [data]; when it fails or the process is killed
    anywhere inside it, [a] holds exactly [data] or what it held before; and in
    every case no other entry of the tree changes, except that directories on
    the way to [a] may have been made.  It can only fail if the environment
    makes a call fail or something is in the way at [a]. *)
Theorem commit_all_or_nothing hd ns n st data s w :
  let a := (resolve hd ++ ns) ++ [n] in
  let t := resolve (path st) in
  let d := wdisk w in
  head_path hd → committed st = false → t ≠ a →
  wf (vol d) → vol d !! cwd = Some NDir → vol d !! t = Some (NFile data s) →
  match commit st (hd ++ (Normal <$> (ns ++ [n]))) w with
  | (Some (Ok _), w') => committing a t data true d (wdisk w')
  | (Some (Err _), w') =>
      (∃ pub, committing a t data pub d (wdisk w'))
      ∧ (publishable a (vol d) → ∃ e, injected e)
  | (None, w') => ∃ pub, committing a t data pub d (wdisk w')
  end.
Proof.
  intros a t d Hhd Hc Hta Hwf Hcwd Hdata.
  pose proof (wp_run _ _ _ _ w (wp_commit hd ns n st t data s d Hhd eq_refl Hc Hta Hwf Hcwd Hdata)) as H.
  destruct (commit st _ w) as [[[?|?]|] w']; naive_solver.
Qed.

(** C22: what [commit] acknowledges survives a loss of power: if every directory
    was on the disk before, then after [commit] has returned, any tree that a
    loss of power may leave holds [data] at the destination and a directory at
    every step of the way to it, including the directories [commit] had to
    make; and every directory is again on the disk. *)
Theorem commit_survives_power_loss hd ns n st data s w w' :
  let a := (resolve hd ++ ns) ++ [n] in
  let t := resolve (path st) in
  let d := wdisk w in
  head_path hd → committed st = false → t ≠ a →
  wf (vol d) → vol d !! cwd = Some NDir → vol d !! t = Some (NFile data s) →
  dirs_durable d →
  commit st (hd ++ (Normal <$> (ns ++ [n]))) w = (Some (Ok ()), w') →
  dirs_durable (wdisk w')
  ∧ ∀ m, power_loss (wdisk w') m →
      m !! a = Some (NFile data true)
      ∧ ∀ q, q `prefix_of` a → q ≠ a → m !! q = Some NDir.
Proof.
  intros a t d Hhd Hc Hta Hwf Hcwd Hdata Hdd Hrun.
  pose proof (wp_run _ _ _ _ w (wp_commit hd ns n st t data s d Hhd eq_refl Hc Hta Hwf Hcwd Hdata)) as H.
  rewrite Hrun in H. destruct H as [[Hcom _] Hdur]. destruct (Hdur Hdd) as [Hda Hdd'].
  split; [done|]. intros m Hm.
  assert (∀ q, q `prefix_of` a → m !! q = vol (wdisk w') !! q) as Heq.
  { intros q Hq. destruct (Hm q) as [-> | ->]; [by apply Hda|done]. }
  pose proof (com_dest _ _ _ _ _ _ Hcom) as Ha. simpl in Ha. split.
  - by rewrite Heq.
  - intros q Hq Hne. rewrite Heq by done.
    eapply wf_prefix_of; [by eapply com_wf|done|done|by eexists].
Qed.
End atomic.

(** ** The theorems at work *)

Definition sample_tree : tree :=
  list_to_map [([], NDir); ([b#"tmp"], NDir); ([b#"tmp"; b#"f.tmp"], NFile (b#"hi") false)].
Definition sample_disk : disk := mkDisk sample_tree sample_tree.
Definition sample_staged : StagedFile := mkStagedFile [RootDir; Normal (b#"tmp"); Normal (b#"f.tmp")] false.
Definition sample_dest : PathBuf := [RootDir] ++ (Normal <$> ([b#"a"; b#"b"] ++ [b#"f"])).

#[local] Existing Instance calm_env.
#[local] Existing Instance calm_env_ok.

Lemma sample_wf : wf (vol sample_disk).
Proof. apply wf_check_sound. by vm_compute. Qed.

Lemma sample_dirs_durable : dirs_durable sample_disk.
Proof. by intros q Hq. Qed.

Lemma commit_all_or_nothing_witness :
  ∃ w', commit sample_staged sample_dest (mkWorld sample_disk 0 ∅) = (Some (Ok ()), w')
  ∧ committing [b#"a"; b#"b"; b#"f"] [b#"tmp"; b#"f.tmp"] (b#"hi") true sample_disk (wdisk w').
Proof.
  destruct (ran_ok (commit sample_staged sample_dest) (mkWorld sample_disk 0 ∅))
    as ([] & w' & Hrun); [|exists w'].
  2: { split; [exact Hrun|].
       pose proof (commit_all_or_nothing [RootDir] [b#"a"; b#"b"] (b#"f")
         sample_staged (b#"hi") false (mkWorld sample_disk 0 ∅) ltac:(right; left; done) eq_refl
         ltac:(done) sample_wf ltac:(by vm_compute) ltac:(by vm_compute)) as H.
       cbv zeta in H. fold sample_dest in H. rewrite Hrun in H. exact H. }
  by vm_compute.
Defined.

Lemma commit_survives_power_loss_witness :
  ∃ w', commit sample_staged sample_dest (mkWorld sample_disk 0 ∅) = (Some (Ok ()), w')
  ∧ ∀ m, power_loss (wdisk w') m → m !! [b#"a"; b#"b"; b#"f"] = Some (NFile (b#"hi") true).
Proof.
  destruct (ran_ok (commit sample_staged sample_dest) (mkWorld sample_disk 0 ∅))
    as ([] & w' & Hrun); [|exists w'].
  2: { split; [exact Hrun|]. intros m Hm.
       eapply (commit_survives_power_loss [RootDir] [b#"a"; b#"b"] (b#"f")
         sample_staged (b#"hi") false (mkWorld sample_disk 0 ∅));
       [right; left; done|done|done|apply sample_wf|by vm_compute|by vm_compute
       |apply sample_dirs_durable|exact Hrun|exact Hm]. }
  by vm_compute.
Defined.
