(* ===== verification/Meta.v ===== *)
(** * The version manifest: [crates/engine/src/meta.rs]

    One manifest per key, newest version first, stored as JSON.  The JSON codec
    is [serde_json], a crate: it enters as a class of operations with the law
    that a value of the Rust type survives serialisation. *)

From S2P Require Import Prelude RustStr RustPath Codec Checksum EngineError Fs FsFacts Atomic.

Definition NULL_VERSION_ID : str := b#"null".
Definition MANIFEST_FORMAT : N := 2.

(** One version of one object.  The map is ordered in the source, which no
    operation of the engine depends on. *)
Record VersionEntry := mkVersionEntry {
  version_id : str;
  etag : str;
  size : N;
  content_type : str;
  user_metadata : gmap str str;
  mtime_epoch_ms : N;
  delete_marker : bool;
  checksum : option StoredChecksum;
}.

Record VersionManifest := mkVersionManifest {
  format : N;
  versions : list VersionEntry;
}.

#[global] Instance version_entry_eq_dec : EqDecision VersionEntry.
Proof. solve_decision. Defined.
#[global] Instance version_manifest_eq_dec : EqDecision VersionManifest.
Proof. solve_decision. Defined.

(** [VersionManifest::latest]. *)
Definition latest (m : VersionManifest) : option VersionEntry := head (versions m).

(** [VersionManifest::upsert]. *)
Definition upsert (m : VersionManifest) (e : VersionEntry) : VersionManifest :=
  mkVersionManifest (format m)
    (e :: filter (λ v, version_id v ≠ version_id e) (versions m)).

(** [VersionManifest::remove]: the entry taken out, and what is left. *)
Definition remove (m : VersionManifest) (id : str) : option VersionEntry * VersionManifest :=
  match list_find (λ v, version_id v = id) (versions m) with
  | Some (at_, e) => (Some e, mkVersionManifest (format m) (delete at_ (versions m)))
  | None => (None, m)
  end.

(** ** The Rust values of these types *)

Definition u64 (n : N) : Prop := (n <= u64_MAX)%N.
Definition u32 (n : N) : Prop := (n <= u32_MAX)%N.

Record valid_entry (e : VersionEntry) : Prop := {
  ve_version_id : utf8 (version_id e);
  ve_etag : utf8 (etag e);
  ve_size : u64 (size e);
  ve_content_type : utf8 (content_type e);
  ve_user_metadata : map_Forall (λ k v, utf8 k ∧ utf8 v) (user_metadata e);
  ve_mtime : u64 (mtime_epoch_ms e);
  ve_checksum c : checksum e = Some c → utf8 (value c);
}.

Definition valid_manifest (m : VersionManifest) : Prop :=
  u32 (format m) ∧ Forall valid_entry (versions m).

(** ** [serde_json] *)

(** [serde_json::to_vec] and [serde_json::from_slice] at one type. *)
Class Serde (A : Type) := {
  to_vec : A → result str BoxedError;
  from_slice : str → result A BoxedError;
}.

(** A value of the type survives the trip, and parsing only makes such values. *)
Class SerdeLaws (A : Type) (valid : A → Prop) `{!Serde A} : Prop := {
  serde_roundtrip a : valid a → ∃ bytes, to_vec a = Ok bytes ∧ from_slice bytes = Ok a;
  serde_valid bytes a : from_slice bytes = Ok a → valid a;
}.

Section manifest_files.
Context {E : Env} `{!Serde VersionManifest}.

(** [load_manifest]. *)
Definition load_manifest (path : PathBuf) : M io_error (option VersionManifest) :=
  r <- attempt (read path);;
  match r with
  | Err e => if bool_decide (kind e = KNotFound) then ret None else throw e
  | Ok bytes =>
      m <- lift (map_err (io_error_new KInvalidData) (from_slice bytes));;
      if (MANIFEST_FORMAT <? format m)%N
      then throw (io_error_new KInvalidData BoxedOther)
      else ret (Some m)
  end.

(** [store_manifest]. *)
Definition store_manifest (tmp path : PathBuf) (m : VersionManifest) : M io_error unit :=
  write_json_atomic tmp path (to_vec m).

(** What the bytes of a manifest file say. *)
Definition parse_manifest (bytes : str) : option VersionManifest :=
  match from_slice bytes with
  | Ok m => if (MANIFEST_FORMAT <? format m)%N then None else Some m
  | Err _ => None
  end.

Lemma wp_load_manifest `{!EnvOk E} p Q F C d :
  wf (vol d) →
  (∀ data s m, vol d !! resolve p = Some (NFile data s) → parse_manifest data = Some m → Q (Some m) d) →
  (vol d !! resolve p = None → (∀ e, walk (vol d) (resolve p) = Err e → kind e = KNotFound) → Q None d) →
  (∀ e data, file_at (vol d) (resolve p) = Some data → parse_manifest data = None →
     kind e = KInvalidData → F e d) →
  (∀ e, walk (vol d) (resolve p) = Err e → kind e ≠ KNotFound → F e d) →
  (vol d !! resolve p = Some NDir → F (os_error KIsADirectory) d) →
  (∀ e, injected e → F e d) → (halts → C d) → wp (load_manifest p) Q F C d.
Proof.
  intros Hwf HQ HN HP HW HD HI HC. apply wp_bind, wp_attempt, wp_read.
  - intros data s Hd. assert (file_at (vol d) (resolve p) = Some data) as Hfile
      by (apply file_at_Some; eauto).
    apply wp_bind, wp_lift.
    + intros m Hm. destruct (from_slice data) as [m'|] eqn:Hp; [injection Hm as ->|done].
      destruct (MANIFEST_FORMAT <? format m)%N eqn:Hlt.
      * apply wp_throw. eapply HP; [done| |done]. unfold parse_manifest. by rewrite Hp, Hlt.
      * apply wp_ret. eapply HQ; [done|]. unfold parse_manifest. by rewrite Hp, Hlt.
    + intros e He. destruct (from_slice data) as [m'|] eqn:Hp; [done|]. injection He as <-.
      eapply HP; [done| |done]. unfold parse_manifest. by rewrite Hp.
  - intros Hd. rewrite bool_decide_false by done. apply wp_throw. auto.
  - intros e He. case_bool_decide; [apply wp_ret, HN|apply wp_throw]; eauto using walk_Err.
    intros e' He'. congruence.
  - intros e He. rewrite bool_decide_false by by apply injected_not_found. apply wp_throw. auto.
  - auto.
Qed.
End manifest_files.

(** ** The manifest as a history *)

(** The history of [m] has one entry per version id. *)
Definition one_per_version (m : VersionManifest) : Prop := NoDup (version_id <$> versions m).

Lemma fmap_filter_ids (l : list VersionEntry) id :
  version_id <$> filter (λ v, version_id v ≠ id) l = filter (λ i, i ≠ id) (version_id <$> l).
Proof.
  induction l as [|v l IH]; [done|]. rewrite filter_cons, fmap_cons, filter_cons.
  case_decide; rewrite ?fmap_cons, IH; done.
Qed.

(** An upsert makes its entry the latest version, keeps one entry per
    version id, keeps every other version in its order, loses the one it
    replaces and no other, so an unversioned overwrite never grows the history;
    and it keeps the manifest a value [serde] can store. *)
Theorem upsert_spec m e :
  one_per_version m →
  latest (upsert m e) = Some e
  ∧ one_per_version (upsert m e)
  ∧ (∀ v, v ∈ versions (upsert m e) ↔ v = e ∨ v ∈ versions m ∧ version_id v ≠ version_id e)
  ∧ tail (versions (upsert m e)) `sublist_of` versions m
  ∧ (length (versions (upsert m e)) =
       if bool_decide (version_id e ∈ version_id <$> versions m)
       then length (versions m) else S (length (versions m)))
  ∧ (valid_manifest m → valid_entry e → valid_manifest (upsert m e)).
Proof.
  intros Hnd. unfold one_per_version, upsert in *. cbn [versions format tail].
  assert (filter (λ v, version_id v ≠ version_id e) (versions m) `sublist_of` versions m) as Hsub
    by apply sublist_filter.
  split_and!; [done| | |done| |].
  - rewrite fmap_cons. constructor.
    + rewrite fmap_filter_ids, list_elem_of_filter. tauto.
    + rewrite fmap_filter_ids. by apply NoDup_filter.
  - intros v. rewrite elem_of_cons, list_elem_of_filter. tauto.
  - rewrite length_cons. clear Hsub. induction (versions m) as [|v l IH]; [done|].
    rewrite fmap_cons in *. apply NoDup_cons in Hnd as [Hv Hnd]. specialize (IH Hnd).
    rewrite filter_cons. destruct (decide (version_id v = version_id e)) as [Heq|Hne].
    + rewrite decide_False by tauto. rewrite bool_decide_true by (rewrite <- Heq; left).
      rewrite bool_decide_false in IH by congruence. by rewrite IH.
    + rewrite decide_True by done. rewrite !length_cons, IH.
      rewrite (bool_decide_ext (version_id e ∈ version_id v :: (version_id <$> l))
        (version_id e ∈ version_id <$> l)) by (rewrite elem_of_cons; naive_solver).
      by case_bool_decide.
  - intros [Hf Hv] He. split; [done|]. constructor; [done|].
    rewrite Forall_forall in *. intros v [_ Hin]%list_elem_of_filter. auto.
Qed.

(** Removing a version takes out the entry with that id and nothing else,
    and undoes an upsert of a version that was not there. *)
Theorem remove_spec m id :
  one_per_version m →
  (let '(r, m') := remove m id in
   (∀ e, r = Some e ↔ e ∈ versions m ∧ version_id e = id)
   ∧ (∀ v, v ∈ versions m' ↔ v ∈ versions m ∧ version_id v ≠ id)
   ∧ one_per_version m')
  ∧ (id ∉ version_id <$> versions m → ∀ e, version_id e = id → remove (upsert m e) id = (Some e, m)).
Proof.
  intros Hnd. split.
  - unfold remove. destruct (list_find _ (versions m)) as [[i e]|] eqn:Hf.
    + apply list_find_Some in Hf as (Hi & He & Hmin).
      assert (versions m = take i (versions m) ++ e :: drop (S i) (versions m)) as Hsplit
        by (symmetry; by apply take_drop_middle).
      assert (delete i (versions m) = take i (versions m) ++ drop (S i) (versions m)) as Hdel
        by apply delete_take_drop.
      unfold one_per_version in *. cbn [versions]. rewrite Hdel. rewrite Hsplit in Hnd.
      rewrite fmap_app, fmap_cons in Hnd. apply NoDup_app in Hnd as (N1 & N12 & N2).
      apply NoDup_cons in N2 as [Ne N2].
      assert (∀ v, v ∈ take i (versions m) ++ drop (S i) (versions m) → version_id v ≠ id) as Hother.
      { intros v [Hv|Hv]%elem_of_app Hid.
        - apply (N12 (version_id v)); [by apply list_elem_of_fmap_2|]. rewrite Hid, <- He. left.
        - apply Ne. rewrite He, <- Hid. by apply list_elem_of_fmap_2. }
      split_and!.
      * intros e'. rewrite Hsplit. split; [intros [= <-]; split; [set_solver|done]|].
        intros [Hin Hid]. f_equal. apply elem_of_app in Hin as [Hin|[->|Hin]%elem_of_cons];
          [|done|]; exfalso; eapply Hother; set_solver.
      * intros v. rewrite Hsplit at 3. split; [intros Hv; split; [set_solver|by apply Hother]|].
        intros [Hin Hid]. apply elem_of_app in Hin as [Hin|[->|Hin]%elem_of_cons]; [set_solver| |set_solver].
        by destruct Hid.
      * rewrite fmap_app. apply NoDup_app. split_and!; [done| |done]. set_solver.
    + apply list_find_None in Hf. rewrite Forall_forall in Hf.
      split_and!; [|naive_solver|done]. intros e. split; [done|]. intros [Hin Hid]. by destruct (Hf e).
  - intros Hid e <-. unfold remove, upsert. cbn [versions format].
    simpl. rewrite decide_True by done. cbn.
    f_equal. destruct m as [f l]. cbn in *. f_equal. clear Hnd.
    induction l as [|v l IH]; [done|]. rewrite fmap_cons, not_elem_of_cons in Hid.
    destruct Hid as [Hv Hl]. rewrite filter_cons_True by done. f_equal. by apply IH.
Qed.

(** ** A codec

    The laws of [serde_json] can be met: any codec, followed by a check of the
    value, meets them. *)

Definition codec_serde {A} `{!Codec A} (valid : A → Prop) `{∀ a, Decision (valid a)} : Serde A := {|
  to_vec a := Ok (enc a);
  from_slice s :=
    match dec s with
    | Some (a, []) => if decide (valid a) then Ok a else Err BoxedOther
    | _ => Err BoxedOther
    end;
|}.

Lemma codec_serde_laws {A} `{!Codec A} (valid : A → Prop) `{∀ a, Decision (valid a)} :
  @SerdeLaws A valid (codec_serde valid).
Proof.
  split; cbn.
  - intros a Ha. eexists. split; [done|]. rewrite <- (app_nil_r (enc a)), dec_enc. by rewrite decide_True.
  - intros s a. destruct (dec s) as [[a' [|]]|]; [|done..]. case_decide; [|done]. by intros [= <-].
Qed.

#[global] Instance codec_checksum_algorithm : Codec ChecksumAlgorithm.
Proof.
  refine (codec_iso (B:=N)
    (λ a, match a with Crc32 => 0 | Crc32c => 1 | Sha1 => 2 | Sha256 => 3 | Crc64Nvme => 4 end)%N
    (λ n, match n with 0 => Crc32 | 1 => Crc32c | 2 => Sha1 | 3 => Sha256 | _ => Crc64Nvme end)%N _).
  by intros [].
Defined.

#[global] Instance codec_stored_checksum : Codec StoredChecksum.
Proof. refine (codec_iso (λ c, (algorithm c, value c)) (λ '(a, v), mkStoredChecksum a v) _). by intros []. Defined.

#[global] Instance codec_version_entry : Codec VersionEntry.
Proof.
  refine (codec_iso
    (λ e, (version_id e, etag e, size e, content_type e, user_metadata e, mtime_epoch_ms e,
           delete_marker e, checksum e))
    (λ '(a, b, c, d, f, g, h, i), mkVersionEntry a b c d f g h i) _).
  by intros [].
Defined.

#[global] Instance codec_version_manifest : Codec VersionManifest.
Proof. refine (codec_iso (λ m, (format m, versions m)) (λ '(f, v), mkVersionManifest f v) _). by intros []. Defined.

Definition dec_from_iff (P Q : Prop) (H : P ↔ Q) (d : Decision P) : Decision Q :=
  match d with
  | left p => left (proj1 H p)
  | right np => right (λ q, np (proj2 H q))
  end.

Lemma valid_entry_alt e : valid_entry e ↔
  utf8 (version_id e) ∧ utf8 (etag e) ∧ (size e <= u64_MAX)%N ∧ utf8 (content_type e)
  ∧ map_Forall (λ k v, utf8 k ∧ utf8 v) (user_metadata e) ∧ (mtime_epoch_ms e <= u64_MAX)%N
  ∧ (match checksum e with Some c => utf8 (value c) | None => True end).
Proof.
  split.
  - intros [? ? ? ? ? ? Hc]. split_and!; try done. destruct (checksum e); auto.
  - intros (? & ? & ? & ? & ? & ? & Hc). split; try done. intros c Hcs. by rewrite Hcs in Hc.
Qed.

#[global] Instance valid_entry_dec e : Decision (valid_entry e).
Proof.
  refine (dec_from_iff _ _ (iff_sym (valid_entry_alt e)) _).
  destruct (checksum e); apply _.
Defined.

#[global] Instance valid_manifest_dec m : Decision (valid_manifest m).
Proof. unfold valid_manifest, u32. apply _. Defined.

Definition manifest_codec : Serde VersionManifest := codec_serde valid_manifest.

Lemma manifest_codec_laws : @SerdeLaws VersionManifest valid_manifest manifest_codec.
Proof. apply codec_serde_laws. Qed.

(** ** The theorems at work *)

Definition sample_entry (id : str) : VersionEntry :=
  mkVersionEntry id (b#"e") 3 (b#"text/plain") ∅ 7 false None.
Definition sample_manifest : VersionManifest :=
  mkVersionManifest MANIFEST_FORMAT [sample_entry (b#"v2"); sample_entry NULL_VERSION_ID].

Lemma sample_one_per_version : one_per_version sample_manifest.
Proof. refine (bool_decide_unpack _ _). by vm_compute. Qed.

Lemma upsert_spec_witness :
  latest (upsert sample_manifest (sample_entry NULL_VERSION_ID)) = Some (sample_entry NULL_VERSION_ID)
  ∧ one_per_version (upsert sample_manifest (sample_entry NULL_VERSION_ID)).
Proof.
  destruct (upsert_spec sample_manifest (sample_entry NULL_VERSION_ID) sample_one_per_version)
    as (H1 & H2 & _). exact (conj H1 H2).
Defined.

Lemma remove_spec_witness :
  remove (upsert sample_manifest (sample_entry (b#"v3"))) (b#"v3")
  = (Some (sample_entry (b#"v3")), sample_manifest).
Proof.
  destruct (remove_spec sample_manifest (b#"v3") sample_one_per_version) as [_ H].
  apply H; [|reflexivity]. apply (bool_decide_unpack _). by vm_compute.
Defined.
