(* ===== verification/Layer.v ===== *)
(** * The storage contract: [crates/engine/src/layer.rs]

    The plain types that cross the boundary between the S3 front end and the
    store, and the operations a store offers, as a class: the handlers are
    written against [ObjectLayer] and know nothing else about storage. *)

From S2P Require Import Prelude RustStr RustPath Checksum EngineError Fs Meta.

(** [BoxByteStream]: the chunks in the order they arrive, each one bytes or the
    error that stopped them. *)
Abbreviation BoxByteStream := (list (result str io_error)).

Record BucketInfo := mkBucketInfo {
  bi_name : str;
  bi_created_epoch_ms : N;
}.

Record ObjectInfo := mkObjectInfo {
  oi_key : str;
  oi_size : N;
  oi_etag : str;
  oi_content_type : str;
  oi_mtime_epoch_ms : N;
  oi_user_metadata : gmap str str;
  oi_checksum : option StoredChecksum;
}.

Record PutOpts := mkPutOpts {
  po_content_type : option str;
  po_user_metadata : gmap str str;
  po_checksum_algorithm : option ChecksumAlgorithm;
}.

(** Inclusive bounds, not yet checked against a size. *)
Inductive ByteRange :=
  | FromTo (first last : N)
  | From (first : N)
  | Suffix (n : N).

Record ListParams := mkListParams {
  lp_prefix : option str;
  lp_delimiter : option str;
  lp_continuation_token : option str;
  lp_start_after : option str;
  lp_max_keys : N;
}.

Record ListResult := mkListResult {
  lr_objects : list ObjectInfo;
  lr_common_prefixes : list str;
  lr_is_truncated : bool;
  lr_next_continuation_token : option str;
}.

(** [ListResult::default]. *)
Definition empty_list_result : ListResult := mkListResult [] [] false None.

#[global] Instance bucket_info_eq_dec : EqDecision BucketInfo.
Proof. solve_decision. Defined.
#[global] Instance object_info_eq_dec : EqDecision ObjectInfo.
Proof. solve_decision. Defined.
#[global] Instance list_result_eq_dec : EqDecision ListResult.
Proof. solve_decision. Defined.

(** [trait ObjectLayer]. *)
Class ObjectLayer := {
  create_bucket : str → M EngineError unit;
  delete_bucket : str → M EngineError unit;
  bucket_exists : str → M EngineError bool;
  list_buckets : M EngineError (list BucketInfo);
  put_object : str → str → BoxByteStream → PutOpts → M EngineError ObjectInfo;
  get_object : str → str → option ByteRange → M EngineError (ObjectInfo * N * N * BoxByteStream);
  head_object : str → str → M EngineError ObjectInfo;
  delete_object : str → str → M EngineError unit;
  list_objects_v2 : str → ListParams → M EngineError ListResult;
}.
