(* ===== verification/Walk.v ===== *)
(** * Walking a bucket's object tree: [crates/engine/src/walk.rs]

    The walk keeps an explicit stack of directories; the model bounds it by the
    number of entries on the disk, and [wp_sorted_keys] shows the bound is
    enough: on a tree that holds what the engine writes, the walk returns
    exactly the keys that have a manifest, in strictly ascending order. *)

From S2P Require Import Prelude RustStr RustPath Paths Checksum EngineError Fs FsFacts.

(** What one directory contributes to the walk. *)
Record DirEntries := mkDirEntries {
  has_manifest : bool;
  dir_children : list str;
}.

Section walk.
Context {E : Env}.

(** The loop of [read_object_dir] over the names of a directory: whether a
    manifest was seen, and the (decoded, encoded) names of the subdirectories. *)
Fixpoint scan_names (dir : PathBuf) (names : list str) : M io_error (bool * list (str * str)) :=
  match names with
  | [] => ret (false, [])
  | name :: rest =>
      if negb (utf8b name) then scan_names dir rest
      else if bool_decide (name = META_FILE) then
        r <- scan_names dir rest;; ret (true, r.2)
      else if starts_with name RESERVED_PREFIX then scan_names dir rest
      else
        match decode_component name with
        | Err _ => scan_names dir rest
        | Ok decoded =>
            t <- attempt (metadata (push dir name));;
            if (match t with Ok n => is_dir_node n | Err _ => false end : bool) then
              r <- scan_names dir rest;; ret (r.1, (decoded, name) :: r.2)
            else scan_names dir rest
        end
  end.

(** [read_object_dir]. *)
Definition read_object_dir (dir : PathBuf) : M io_error DirEntries :=
  iter <- attempt (read_dir dir);;
  match iter with
  | Err e => if bool_decide (kind e = KNotFound) then ret (mkDirEntries false []) else throw e
  | Ok names =>
      r <- scan_names dir names;;
      ret (mkDirEntries r.1 (sort_by (λ a b, str_leb a.1 b.1) r.2).*2)
  end.

(** The loop of [sorted_keys].  The top of the stack is its head. *)
Fixpoint walk_loop (fuel : nat) (stack : list (PathBuf * PathBuf)) : M io_error (list str) :=
  match stack with
  | [] => ret []
  | (dir, rel) :: stack' =>
      match fuel with
      | O => throw (os_error KOther)
      | S fuel' =>
          entries <- read_object_dir dir;;
          let here :=
            if has_manifest entries && negb (bool_decide (rel = []))
            then match rel_path_to_key rel with Ok key => [key] | Err _ => [] end
            else [] in
          keys <- walk_loop fuel'
                    (((λ name, (push dir name, push rel name)) <$> dir_children entries) ++ stack');;
          ret (here ++ keys)
      end
  end.

(** [sorted_keys]. *)
Definition sorted_keys (objects_root : PathBuf) : M io_error (list str) :=
  fuel <- bound;;
  keys <- walk_loop fuel [(objects_root, [])];;
  ret (sort_strings keys).

(** ** The trees the engine writes *)

(** A name that encodes one component of a key. *)
Definition canonical (n : str) : Prop := ∃ c, utf8 c ∧ SEP ∉ c ∧ n = encode_component c.

(** Below [O] there are directories with canonical names, and files of the
    engine's own inside them. *)
Definition object_tree (O : apath) (m : tree) : Prop :=
  ∀ q n x, m !! (O ++ q ++ [n]) = Some x →
    Forall canonical q ∧
    match x with
    | NDir => canonical n
    | NFile _ _ => reserved n = true
    end.

Lemma canonical_plain n : canonical n → plain_name n.
Proof. intros (c & Hc & Hs & ->). by apply encode_component_plain. Qed.

Lemma canonical_not_reserved n : canonical n → reserved n = false.
Proof.
  intros (c & Hc & Hs & ->). by apply encode_component_not_reserved.
Qed.

Lemma canonical_decode n : canonical n → ∃ c, decode_component n = Ok c ∧ n = encode_component c
  ∧ utf8 c ∧ SEP ∉ c.
Proof.
  intros (c & Hc & Hs & ->). exists c. split_and!; [by apply decode_component_encode|done..].
Qed.

(** The names of a key are canonical, and a non-empty list of canonical names
    is the names of a key. *)
Lemma key_names_canonical k : utf8 k → Forall canonical (key_names k).
Proof.
  intros Hk. unfold key_names. apply Forall_fmap, Forall_forall. intros c Hc. exists c.
  pose proof (split_utf8 SEP k SEP_ascii Hk) as H8. pose proof (split_pieces SEP k) as Hp.
  rewrite Forall_forall in H8, Hp. auto.
Qed.

Lemma canonical_key ns : Forall canonical ns → ns ≠ [] →
  ∃ k, utf8 k ∧ ns = key_names k ∧ rel_path_to_key (Normal <$> ns) = Ok k.
Proof.
  intros Hc Hne.
  assert (∃ cs, Forall (λ c, utf8 c ∧ SEP ∉ c) cs ∧ ns = encode_component <$> cs) as (cs & Hcs & ->).
  { clear Hne. induction Hc as [|n ns (c & ? & ? & ->) _ (cs & Hcs & ->)]; [by exists []|].
    exists (c :: cs). split; [by constructor|done]. }
  assert (cs ≠ []) as Hcne by (intros ->; by apply Hne).
  assert (split SEP (join [SEP] cs) = cs) as Hsp.
  { apply split_join; [done|]. eapply Forall_impl; [exact Hcs|]. naive_solver. }
  assert (utf8 (join [SEP] cs)) as H8.
  { clear Hsp Hcne Hc Hne. induction Hcs as [|c cs [Hc _] Hcs IH]; [apply utf8_nil|].
    destruct cs as [|c' cs]; [done|]. rewrite join_cons. apply utf8_app; [done|].
    apply utf8_app; [|done]. by vm_compute. }
  exists (join [SEP] cs). unfold key_names. rewrite Hsp. split_and!; [done..|].
  rewrite <- Hsp at 1. change (encode_component <$> split SEP (join [SEP] cs)) with (key_names (join [SEP] cs)).
  rewrite <- key_to_rel_path_names by done. by apply rel_path_key.
Qed.

(** ** Without faults the walk finds every key *)

Context `{!EnvOk E, !NoFaults E}.

Definition dirb (m : tree) (q : apath) : bool := bool_decide (m !! q = Some NDir).

(** The names inside directory [a] are the engine's. *)
Definition own_names (m : tree) (a : apath) (names : list str) : Prop :=
  ∀ n, n ∈ names → ∃ x, m !! (a ++ [n]) = Some x ∧
    match x with NDir => canonical n | NFile _ _ => reserved n = true end.

Lemma runs_scan_names dir a names d :
  wf (vol d) → resolve dir = a → own_names (vol d) a names →
  runs (scan_names dir names)
    (λ r d', d' = d ∧ r.1 = bool_decide (META_FILE ∈ names)
             ∧ r.2.*2 = filter (λ n, vol d !! (a ++ [n]) = Some NDir) names) d.
Proof.
  intros Hwf Ha. induction names as [|n names IH]; intros Hown; cbn [scan_names].
  { by apply wp_ret. }
  assert (own_names (vol d) a names) as Hown' by (intros k Hk; apply Hown; by right).
  specialize (IH Hown'). destruct (Hown n) as (x & Hx & Hn); [left|].
  assert (reserved META_FILE = true) as Hmeta by (by vm_compute).
  destruct x as [|data s].
  - pose proof (canonical_not_reserved n Hn) as Hres. pose proof (canonical_plain n Hn) as Hpl.
    destruct (canonical_decode n Hn) as (c & Hdec & Henc & Hc & Hs).
    assert (utf8b n = true) as -> by (rewrite Henc; apply encode_component_utf8).
    assert (n ≠ META_FILE) as Hnm by (intros ->; congruence).
    cbn [negb]. rewrite bool_decide_false by done. unfold reserved in Hres. rewrite Hres, Hdec.
    apply wp_bind, wp_attempt. rewrite push_plain by done.
    apply wp_metadata; rewrite ?resolve_snoc, ?Ha.
    + intros y Hy _. rewrite Hx in Hy. injection Hy as <-. cbn [is_dir_node].
      apply wp_bind. eapply wp_mono; [exact IH| |done..].
      intros r d' (-> & H1 & H2). apply wp_ret. cbn [fst snd]. split; [done|]. split.
      * rewrite H1. apply bool_decide_ext. rewrite elem_of_cons. naive_solver.
      * rewrite fmap_cons, H2, filter_cons_True by done. done.
    + intros e He. by rewrite (walk_complete _ _ _ Hwf Hx) in He.
    + intros e He. by apply no_injected in He.
    + intros He. by apply no_halts in He.
  - assert (filter (λ n, vol d !! (a ++ [n]) = Some NDir) (n :: names)
            = filter (λ n, vol d !! (a ++ [n]) = Some NDir) names) as Hfil
      by (apply filter_cons_False; congruence).
    assert (n ≠ META_FILE →
      runs (scan_names dir names)
        (λ r d', d' = d ∧ r.1 = bool_decide (META_FILE ∈ n :: names)
           ∧ r.2.*2 = filter (λ n, vol d !! (a ++ [n]) = Some NDir) (n :: names)) d) as Hskip.
    { intros Hne. eapply wp_mono; [exact IH| |done..]. intros r d' (-> & H1 & H2).
      split_and!; [done| |by rewrite Hfil]. rewrite H1. apply bool_decide_ext.
      rewrite elem_of_cons. naive_solver. }
    destruct (utf8b n) eqn:H8; cbn [negb].
    + destruct (decide (n = META_FILE)) as [Hm|Hm];
        [rewrite (bool_decide_true (n = META_FILE)) by done
        |rewrite (bool_decide_false (n = META_FILE)) by done].
      * apply wp_bind. eapply wp_mono; [exact IH| |done..]. intros r d' (-> & H1 & H2).
        apply wp_ret. cbn [fst snd]. rewrite Hfil. split_and!; [done| |done].
        symmetry. apply bool_decide_eq_true. rewrite Hm. left.
      * unfold reserved in Hn. rewrite Hn. by apply Hskip.
    + apply Hskip. intros ->. by vm_compute in H8.
Qed.

Lemma runs_read_object_dir dir a d :
  wf (vol d) → resolve dir = a → vol d !! a = Some NDir →
  own_names (vol d) a (children (vol d) a) →
  runs (read_object_dir dir)
    (λ r d', d' = d ∧ has_manifest r = bool_decide (META_FILE ∈ children (vol d) a)
             ∧ dir_children r ≡ₚ filter (λ n, vol d !! (a ++ [n]) = Some NDir) (children (vol d) a)) d.
Proof.
  intros Hwf Ha Hdir Hown. apply wp_bind, wp_attempt, wp_read_dir; rewrite ?Ha.
  - intros _. apply wp_bind. pose proof (dir_order_perm (children (vol d) a)) as Hp.
    eapply wp_mono; [apply (runs_scan_names dir a); [done|done|]| |done..].
    { intros n Hn. apply Hown. by rewrite <- Hp. }
    intros r d' (-> & H1 & H2). apply wp_ret. cbn [has_manifest dir_children]. split_and!; [done| |].
    + rewrite H1. apply bool_decide_ext. by rewrite Hp.
    + rewrite (sort_by_perm _ r.2), H2. by rewrite Hp.
  - intros e data s Hf. congruence.
  - intros e He. by rewrite (walk_complete _ _ _ Hwf Hdir) in He.
  - intros e He. by apply no_injected in He.
  - intros He. by apply no_halts in He.
Qed.

Lemma runs_read_object_dir_missing dir a d :
  wf (vol d) → resolve dir = a → walk (vol d) a = Err (os_error KNotFound) →
  runs (read_object_dir dir) (λ r d', d' = d ∧ r = mkDirEntries false []) d.
Proof.
  intros Hwf Ha Hw. pose proof (walk_Err _ _ _ Hwf Hw) as Hno.
  apply wp_bind, wp_attempt, wp_read_dir; rewrite ?Ha.
  - congruence.
  - intros e data s Hf. congruence.
  - intros e He. rewrite Hw in He. injection He as <-. by apply wp_ret.
  - intros e He. by apply no_injected in He.
  - intros He. by apply no_halts in He.
Qed.

(** The directories at or below [O ++ r], relative to [O]. *)
Definition dirs (O : apath) (m : tree) (r : list str) : gset (list str) :=
  list_to_set (omap (λ '(p, x),
    if bool_decide (O ++ r `prefix_of` p ∧ x = NDir) then Some (drop (length O) p) else None)
    (map_to_list m)).

Lemma elem_of_dirs O m r q : q ∈ dirs O m r ↔ r `prefix_of` q ∧ m !! (O ++ q) = Some NDir.
Proof.
  unfold dirs. rewrite elem_of_list_to_set, list_elem_of_omap. split.
  - intros ([p x] & Hin & Hs). case_bool_decide as Hp; [|done]. injection Hs as <-.
    destruct Hp as [[t ->] ->]. apply elem_of_map_to_list in Hin.
    rewrite <- app_assoc in Hin |- *. rewrite drop_app_length. split; [by exists t|done].
  - intros [[t ->] Hq]. exists (O ++ r ++ t, NDir). split; [by apply elem_of_map_to_list|].
    rewrite bool_decide_true by (split; [exists t; by rewrite <- app_assoc|done]).
    by rewrite drop_app_length.
Qed.

(** The keys a visited directory contributes. *)
Definition keys_at (O : apath) (m : tree) (r : list str) : list str :=
  if bool_decide (META_FILE ∈ children m (O ++ r)) && negb (bool_decide (r = []))
  then match rel_path_to_key (Normal <$> r) with Ok key => [key] | Err _ => [] end
  else [].

Definition pending (O : apath) (m : tree) (S : list (list str)) : list (list str) :=
  S ≫= λ r, elements (dirs O m r).

Lemma pending_app O m S S' : pending O m (S ++ S') = pending O m S ++ pending O m S'.
Proof. apply bind_app. Qed.

(** Visiting one directory: itself, and then its subdirectories. *)
Lemma pending_step O m r cs :
  m !! (O ++ r) = Some NDir → wf m →
  cs ≡ₚ filter (λ n, m !! ((O ++ r) ++ [n]) = Some NDir) (children m (O ++ r)) →
  pending O m [r] ≡ₚ r :: pending O m ((λ n, r ++ [n]) <$> cs).
Proof.
  intros Hr Hwf Hcs. unfold pending.
  assert (∀ n, n ∈ cs ↔ m !! (O ++ r ++ [n]) = Some NDir) as Hin.
  { intros n. rewrite Hcs, list_elem_of_filter, elem_of_children, <- app_assoc. naive_solver. }
  assert (NoDup cs) as Hnd.
  { rewrite Hcs. apply NoDup_filter, children_nodup. }
  apply NoDup_Permutation.
  - cbn. rewrite app_nil_r. apply NoDup_elements.
  - apply NoDup_cons. split.
    + rewrite list_elem_of_bind. intros (q & Hq & Hq'). apply elem_of_elements, elem_of_dirs in Hq as [Hp _].
      apply list_elem_of_fmap in Hq' as (n & -> & _). apply prefix_length in Hp.
      rewrite length_app in Hp. simpl in Hp. lia.
    + apply NoDup_bind; [|intros; apply NoDup_elements|by apply NoDup_fmap_2; [intros ?? [_ [=]]%app_inj_tail|]].
      intros q1 q2 q Hq1 Hq2. rewrite !elem_of_elements, !elem_of_dirs. intros [P1 _] [P2 _].
      apply list_elem_of_fmap in Hq1 as (n1 & -> & _). apply list_elem_of_fmap in Hq2 as (n2 & -> & _).
      destruct P1 as [t1 ->], P2 as [t2 Heq]. rewrite <- !app_assoc in Heq.
      apply app_inv_head in Heq. by injection Heq as ->.
  - intros q. cbn. rewrite app_nil_r, elem_of_elements, elem_of_cons, list_elem_of_bind, elem_of_dirs.
    split.
    + intros [[t ->] Hq]. destruct t as [|n t]; [left; by rewrite app_nil_r|right].
      exists (r ++ [n]). rewrite elem_of_elements, elem_of_dirs, list_elem_of_fmap.
      assert (r ++ n :: t = (r ++ [n]) ++ t) as Heq by (by rewrite <- app_assoc).
      rewrite Heq in *. split; [split; [by exists t|done]|].
      exists n. split; [done|]. apply Hin. destruct t as [|k t]; [by rewrite app_nil_r in Hq|].
      rewrite app_assoc in Hq. apply (wf_prefix m _ (k :: t)); [done|done|by eexists].
    + intros [->|(q' & Hq & Hq')]; [done|]. apply list_elem_of_fmap in Hq' as (n & -> & Hn).
      apply elem_of_elements, elem_of_dirs in Hq as [Hp Hq]. split; [|done].
      etrans; [|exact Hp]. by apply prefix_app_r.
Qed.

Definition stack_of (root : PathBuf) (S : list (list str)) : list (PathBuf * PathBuf) :=
  (λ r, (root ++ (Normal <$> r), Normal <$> r)) <$> S.

Lemma object_tree_own O m r : object_tree O m → own_names m (O ++ r) (children m (O ++ r)).
Proof.
  intros Ht n [x Hx]%elem_of_children. exists x. split; [done|].
  rewrite <- app_assoc in Hx. by destruct (Ht _ _ _ Hx) as [_ ?].
Qed.

Lemma push_children root O m r cs :
  object_tree O m → (∀ n, n ∈ cs → m !! (O ++ r ++ [n]) = Some NDir) →
  (λ name, (push (root ++ (Normal <$> r)) name, push (Normal <$> r) name)) <$> cs
  = stack_of root ((λ n, r ++ [n]) <$> cs).
Proof.
  intros Ht Hcs. unfold stack_of. rewrite <- list_fmap_compose. apply list_fmap_ext.
  intros i n Hi. assert (plain_name n) as Hpl.
  { apply canonical_plain. apply list_elem_of_lookup_2, Hcs in Hi.
    by destruct (Ht _ _ _ Hi) as [_ ?]. }
  cbn. rewrite !push_plain by done. by rewrite !fmap_app, app_assoc.
Qed.

Lemma runs_walk_loop root O fuel S d :
  wf (vol d) → resolve root = O → object_tree O (vol d) →
  Forall (λ r, vol d !! (O ++ r) = Some NDir) S →
  length (pending O (vol d) S) ≤ fuel →
  runs (walk_loop fuel (stack_of root S))
    (λ ks d', d' = d ∧ ks ≡ₚ (pending O (vol d) S ≫= keys_at O (vol d))) d.
Proof.
  intros Hwf HO Ht. revert S. induction fuel as [|fuel IH]; intros [|r S] HS Hlen;
    try (by apply wp_ret); apply Forall_cons in HS as [Hr HS].
  - exfalso. assert (r ∈ pending O (vol d) (r :: S)) as Hin.
    { apply list_elem_of_bind. exists r. split; [|left]. by apply elem_of_elements, elem_of_dirs. }
    destruct (pending O (vol d) (r :: S)); [by apply elem_of_nil in Hin|simpl in Hlen; lia].
  - cbn [stack_of fmap list_fmap walk_loop]. apply wp_bind.
    eapply wp_mono; [apply (runs_read_object_dir _ (O ++ r)); [done| |done|by apply object_tree_own]| |done..].
    { by rewrite resolve_normals, HO. }
    intros es d' (-> & Hm & Hcs). apply wp_bind.
    pose proof (pending_step O (vol d) r (dir_children es) Hr Hwf Hcs) as Hstep.
    assert (∀ n, n ∈ dir_children es → vol d !! (O ++ r ++ [n]) = Some NDir) as Hdirs.
    { intros n. rewrite Hcs, list_elem_of_filter, <- app_assoc. naive_solver. }
    rewrite (push_children root O (vol d)) by done.
    change ((λ r, (root ++ (Normal <$> r), Normal <$> r)) <$> S) with (stack_of root S).
    unfold stack_of. rewrite <- fmap_app. fold (stack_of root (((λ n, r ++ [n]) <$> dir_children es) ++ S)).
    change (r :: S) with ([r] ++ S) in *. rewrite pending_app in *.
    rewrite Hstep in Hlen. simpl in Hlen. rewrite length_app in Hlen.
    eapply wp_mono; [apply IH| |done..].
    + apply Forall_app. split; [|done]. apply Forall_fmap, Forall_forall. intros n Hn. cbn. auto.
    + rewrite pending_app, length_app. lia.
    + intros ks d' [-> Hks]. apply wp_ret. split; [done|]. rewrite Hks, Hstep. cbn.
      rewrite pending_app. unfold keys_at at 3. rewrite Hm.
      rewrite (bool_decide_ext (Normal <$> r = []) (r = [])) by (split; [apply fmap_nil_inv|by intros ->]).
      done.
Qed.

Lemma pending_start O m : length (pending O m [[]]) ≤ size m.
Proof.
  unfold pending. cbn. rewrite app_nil_r. unfold dirs.
  transitivity (length (omap (λ '(p, x),
    if bool_decide (O ++ [] `prefix_of` p ∧ x = NDir) then Some (drop (length O) p) else None)
    (map_to_list m))).
  - apply submseteq_length, NoDup_submseteq; [apply NoDup_elements|].
    intros q. by rewrite elem_of_elements, elem_of_list_to_set.
  - rewrite <- length_map_to_list. generalize (map_to_list m). intros l. induction l as [|[p x] l IH]; [done|].
    cbn. case_bool_decide; cbn; lia.
Qed.

(** [k] has a manifest below [O]. *)
Definition has_key (O : apath) (m : tree) (k : str) : Prop :=
  utf8 k ∧ is_Some (m !! (O ++ key_names k ++ [META_FILE])).

Lemma keys_at_spec O m r k : object_tree O m → m !! (O ++ r) = Some NDir →
  k ∈ keys_at O m r ↔ has_key O m k ∧ r = key_names k.
Proof.
  intros Ht Hr. unfold keys_at.
  assert (r ≠ [] → ∃ k, utf8 k ∧ r = key_names k ∧ rel_path_to_key (Normal <$> r) = Ok k) as Hkey.
  { intros Hne. apply canonical_key; [|done]. destruct r as [|n q _] using rev_ind; [done|].
    apply (Ht q n NDir) in Hr as [? ?]. apply Forall_app. split; [done|by apply Forall_singleton]. }
  assert (∀ k, key_names k ≠ []) as Hkn.
  { intros k' Hk'. unfold key_names in Hk'. apply fmap_nil_inv in Hk'.
    by destruct (split_nonempty SEP k') as (? & ? & ?); congruence. }
  destruct (decide (r = [])) as [->|Hne].
  { rewrite (bool_decide_true ([] = [])), andb_false_r by done. split; [by intros ?%elem_of_nil|].
    intros [_ Hk]. by destruct (Hkn k). }
  rewrite (bool_decide_false (r = [])), andb_true_r by done. destruct (Hkey Hne) as (k' & Hk' & -> & ->).
  unfold has_key. destruct (decide (META_FILE ∈ children m (O ++ key_names k'))) as [Hm|Hm];
    [rewrite bool_decide_true by done|rewrite bool_decide_false by done];
    rewrite elem_of_children, <- app_assoc in Hm; [rewrite list_elem_of_singleton|rewrite elem_of_nil]; split.
  - by intros ->.
  - intros [[Hk _] Heq]. apply key_to_rel_path_inj; [done|done|].
    by rewrite !key_to_rel_path_names, Heq by done.
  - done.
  - intros [[Hk ?] Heq]. apply Hm. by rewrite Heq.
Qed.

Lemma wp_sorted_keys root O d :
  wf (vol d) → resolve root = O → object_tree O (vol d) →
  vol d !! O = Some NDir ∨ walk (vol d) O = Err (os_error KNotFound) →
  runs (sorted_keys root)
    (λ ks d', d' = d ∧ StronglySorted str_lt ks ∧ ∀ k, k ∈ ks ↔ has_key O (vol d) k) d.
Proof.
  intros Hwf HO Ht Hdir. unfold sorted_keys. apply wp_bind, wp_bound.
  apply wp_bind. destruct Hdir as [Hdir|Hmiss].
  - replace [(root, [])] with (stack_of root [[]]) by (unfold stack_of; cbn; by rewrite app_nil_r).
    eapply wp_mono; [apply (runs_walk_loop root O); try done| |done..].
    { apply Forall_singleton. by rewrite app_nil_r. }
    { pose proof (pending_start O (vol d)). lia. }
    intros ks d' [-> Hks]. apply wp_ret. split; [done|].
    assert (∀ r, r ∈ pending O (vol d) [[]] ↔ vol d !! (O ++ r) = Some NDir) as Hpend.
    { intros r. unfold pending. cbn. rewrite app_nil_r, elem_of_elements, elem_of_dirs.
      split; [naive_solver|]. split; [apply prefix_nil|done]. }
    split.
    + apply sort_strings_strict. rewrite Hks. apply NoDup_bind.
      * intros r1 r2 k H1%Hpend H2%Hpend K1 K2. apply keys_at_spec in K1 as [_ ->]; [|done..].
        by apply keys_at_spec in K2 as [_ ->].
      * intros r _. unfold keys_at. case_match; [|constructor]. case_match; [|constructor].
        apply NoDup_singleton.
      * unfold pending. cbn. rewrite app_nil_r. apply NoDup_elements.
    + intros k. rewrite (sort_strings_perm ks), Hks, list_elem_of_bind. split.
      * intros (r & Hk & Hr%Hpend). by apply keys_at_spec in Hk as [? _].
      * intros Hk. exists (key_names k). pose proof Hk as [H8 [x Hx]].
        assert (vol d !! (O ++ key_names k) = Some NDir) as Hr.
        { rewrite app_assoc in Hx. eapply wf_parent; [done|by eexists]. }
        split; [by apply keys_at_spec|by apply Hpend].
  - cbn [walk_loop]. apply wp_bind.
    eapply wp_mono; [by apply (runs_read_object_dir_missing root O)| |done..].
    intros es d' [-> ->]. apply wp_bind. cbn [has_manifest dir_children andb app fmap list_fmap].
    replace (walk_loop (size (vol d)) []) with (ret (E := io_error) (@nil str)) by (by destruct (size _)).
    do 3 apply wp_ret. split; [done|]. split; [constructor|]. intros k.
    split; [by intros ?%elem_of_nil|]. intros [_ Hs]. exfalso. apply walk_Err in Hmiss; [|done].
    apply wf_prefix in Hs; [congruence|done|]. by intros [_ ?]%app_eq_nil.
Qed.
End walk.
