(* ===== verification/FsBase.v ===== *)
(** * The pure parts of the engine: [crates/engine/src/fs_engine.rs]

    Names and limits, bucket names, timestamps, byte ranges, the body stream of
    a [GET], the fold of a key into a common prefix, and the views of a version
    the API layer sees.  The operations on the disk are in [FsEngine]. *)

From S2P Require Import Prelude RustStr RustPath Paths Checksum EngineError Fs Meta Layer.

Definition DISK_FORMAT : N := 1.
Definition AKS3_DIR : str := b#".aks3".
Definition TMP_DIR : str := b#"tmp".
Definition FORMAT_FILE : str := b#"format.json".
Definition BUCKETS_DIR : str := b#"buckets".
Definition BUCKET_META_FILE : str := b#".bucket.meta".
Definition OBJECTS_DIR : str := b#"objects".
Definition DEFAULT_CONTENT_TYPE : str := b#"application/octet-stream".
Definition READ_CHUNK : N := 64 * 1024.

(** Contents of [format.json] and of [.bucket.meta]. *)
Record DiskFormat := mkDiskFormat { df_format : N }.
Record BucketMeta := mkBucketMeta { created_epoch_ms : N }.

(** ** Machine arithmetic *)

(** [u64] addition and subtraction in release mode. *)
Definition u64_add (a b : N) : N := ((a + b) mod 2 ^ 64)%N.
Definition u64_sub (a b : N) : N := ((a + (2 ^ 64 - b)) mod 2 ^ 64)%N.

Lemma u64_add_exact a b : (a + b <= u64_MAX)%N → u64_add a b = (a + b)%N.
Proof. unfold u64_add, u64_MAX. intros. apply N.mod_small. lia. Qed.

Lemma u64_sub_exact a b : (b <= a <= u64_MAX)%N → u64_sub a b = (a - b)%N.
Proof.
  unfold u64_sub, u64_MAX. intros H.
  replace (a + (2 ^ 64 - b))%N with ((a - b) + 1 * 2 ^ 64)%N by lia.
  rewrite N.Div0.mod_add. apply N.mod_small. lia.
Qed.

(** ** Bucket names *)

(** [is_bucket_alnum]. *)
Definition is_bucket_alnum (b : byte) : bool := is_ascii_lowercase b || is_ascii_digit b.

(** [is_decimal_group]. *)
Definition is_decimal_group (g : str) : bool :=
  negb (bool_decide (g = [])) && forallb is_ascii_digit g.

(** The iterator of [looks_like_ipv4]: [n] decimal groups and then no more. *)
Fixpoint decimal_groups (n : nat) (groups : list str) : bool :=
  match n, groups with
  | O, [] => true
  | O, _ :: _ => false
  | S _, [] => false
  | S n', g :: groups' => is_decimal_group g && decimal_groups n' groups'
  end.

(** [looks_like_ipv4]. *)
Definition looks_like_ipv4 (name : str) : bool := decimal_groups 4 (split c#"." name).

(** [is_valid_bucket_name]; indexing a byte of an empty name would panic, which
    the length check comes before. *)
Definition is_valid_bucket_name (name : str) : bool :=
  if negb ((3 <=? length name)%nat && (length name <=? 63)%nat) then false
  else if contains name (b#"..") || contains name (b#".-") || contains name (b#"-.") then false
  else if looks_like_ipv4 name then false
  else
    match head name, last name with
    | Some first, Some final =>
        if negb (is_bucket_alnum first) || negb (is_bucket_alnum final) then false
        else forallb (λ b, is_bucket_alnum b || bool_decide (b = c#".") || bool_decide (b = c#"-")) name
    | _, _ => false
    end.

(** ** Time *)

(** [epoch_ms] of a time given in nanoseconds relative to the epoch. *)
Definition epoch_ms (t : Z) : N :=
  if (t <? 0)%Z then 0%N
  else
    let ms := Z.to_N (t / 1000000) in
    if (ms <=? u64_MAX)%N then ms else 0%N.

(** ** Ranges *)

(** [resolve_range]. *)
Definition resolve_range (range : option ByteRange) (size : N) : result (N * N) EngineError :=
  match range with
  | None => Ok (0%N, size)
  | Some range =>
      if (size =? 0)%N then Err InvalidRange
      else
        match range with
        | FromTo first last =>
            if (last <? first)%N || (size <=? first)%N then Err InvalidRange
            else
              let last := N.min last (u64_sub size 1) in
              Ok (first, u64_add (u64_sub last first) 1)
        | From first =>
            if (size <=? first)%N then Err InvalidRange
            else Ok (first, u64_sub size first)
        | Suffix n =>
            if (n =? 0)%N then Err InvalidRange
            else let n := N.min n size in Ok (u64_sub size n, n)
        end
  end.

(** ** The body stream of a [GET] *)

(** What one [read] on the open file does: at most [n] more bytes, at least one
    if there is any, or an error. *)
Inductive read_fate :=
  | Reads (n : nat)
  | ReadFails (e : io_error).

(** The inner loop of [file_stream]: fill a buffer of [want] bytes from [rest],
    the part of the file past the position.  The result is the bytes read, the
    number of the next read and what is left of the file. *)
Fixpoint fill (reads : nat → read_fate) (fuel i want : nat) (rest : str)
    : result (str * nat * str) io_error :=
  match fuel, want with
  | O, _ | _, O => Ok ([], i, rest)
  | S fuel', _ =>
      match reads i with
      | ReadFails e => Err e
      | Reads n =>
          let k := Nat.min (Nat.max 1 n) (Nat.min want (length rest)) in
          match k with
          | O => Ok ([], S i, rest)
          | _ =>
              let? r := fill reads fuel' (S i) (want - k) (drop k rest) in
              Ok (take k rest ++ r.1.1, r.1.2, r.2)
          end
      end
  end.

(** [file_stream], polled to its end.  Every item but the last takes at least
    one byte of the file, so the length of [rest] bounds their number. *)
Fixpoint stream_items (reads : nat → read_fate) (fuel i : nat) (rest : str) (remaining : N)
    : BoxByteStream :=
  match fuel with
  | O => []
  | S fuel' =>
      if (remaining =? 0)%N then []
      else
        let want := N.to_nat (N.min remaining READ_CHUNK) in
        match fill reads want i want rest with
        | Err e => [Err e]
        | Ok ([], _, _) => [Err (io_error_new KUnexpectedEof BoxedOther)]
        | Ok (buf, i', rest') =>
            Ok buf :: stream_items reads fuel' i' rest' (u64_sub remaining (N.of_nat (length buf)))
        end
  end.

Definition file_stream (reads : nat → read_fate) (rest : str) (len : N) : BoxByteStream :=
  stream_items reads (S (length rest)) 0 rest len.

(** A body received to its end: all the bytes, or the error that stopped it. *)
Fixpoint collect (body : BoxByteStream) : result str io_error :=
  match body with
  | [] => Ok []
  | Ok chunk :: body' => let? rest := collect body' in Ok (chunk ++ rest)
  | Err e :: _ => Err e
  end.

(** ** Listing *)

(** [start_bound]. *)
Definition start_bound (p : ListParams) : option str :=
  match lp_continuation_token p, lp_start_after p with
  | Some token, Some after => Some (if str_leb token after then after else token)
  | Some token, None => Some token
  | None, after => after
  end.

(** [common_prefix_of]; the outer [None] is a slice off a character boundary,
    which panics. *)
Definition common_prefix_of (key : str) (prefix_len : nat) (delimiter : str) : option (option str) :=
  rest ← slice_from key prefix_len;
  match find rest delimiter with
  | None => Some None
  | Some at_ => Some <$> slice_to key (prefix_len + at_ + length delimiter)
  end.

(** ** Views of a version *)

(** [new_manifest]. *)
Definition new_manifest : VersionManifest := mkVersionManifest MANIFEST_FORMAT [].

(** [object_info]. *)
Definition object_info (key : str) (entry : VersionEntry) : ObjectInfo :=
  mkObjectInfo key (size entry) (etag entry) (content_type entry) (mtime_epoch_ms entry)
    (user_metadata entry) (checksum entry).

(** [hex_lower]. *)
Definition HEX_LOWER : list byte := b#"0123456789abcdef".
Definition hex_lower (bytes : str) : str :=
  concat ((λ b, [nth (N.to_nat (N.shiftr (u8 b) 4)) HEX_LOWER Byte.x00;
                 nth (N.to_nat (N.land (u8 b) 0x0F)) HEX_LOWER Byte.x00]) <$> bytes).

(** ** Bucket names are safe directory names *)

Definition bucket_char (b : byte) : bool :=
  is_bucket_alnum b || bool_decide (b = c#".") || bool_decide (b = c#"-").

Lemma bucket_char_ascii b : bucket_char b = true → (u8 b < 0x80)%N ∧ b ≠ SEP.
Proof.
  assert (implb (bucket_char b) ((u8 b <? 0x80)%N && negb (bool_decide (b = SEP))) = true) as H
    by byte_cases b.
  intros Hb. rewrite Hb in H. apply andb_true_iff in H as [H1 H2]. apply N.ltb_lt in H1.
  split; [done|]. by apply negb_true_iff, bool_decide_eq_false in H2.
Qed.

Lemma valid_bucket_inv name : is_valid_bucket_name name = true →
  3 ≤ length name ≤ 63 ∧ Forall (λ b, bucket_char b = true) name
  ∧ (∃ f l t, name = f :: t ∧ last name = Some l ∧ is_bucket_alnum f = true ∧ is_bucket_alnum l = true)
  ∧ contains name (b#"..") = false ∧ contains name (b#".-") = false
  ∧ contains name (b#"-.") = false ∧ looks_like_ipv4 name = false.
Proof.
  unfold is_valid_bucket_name.
  destruct ((3 <=? length name)%nat && (length name <=? 63)%nat) eqn:Hlen; [|done]. cbn [negb].
  apply andb_true_iff in Hlen as [?%Nat.leb_le ?%Nat.leb_le].
  destruct (contains name (b#"..")) eqn:?; [done|]. destruct (contains name (b#".-")) eqn:?; [done|].
  destruct (contains name (b#"-.")) eqn:?; [done|]. cbn [orb].
  destruct (looks_like_ipv4 name) eqn:?; [done|].
  destruct name as [|f t]; [simpl in *; lia|]. cbn [head].
  destruct (last (f :: t)) as [l|] eqn:Hl; [|done].
  destruct (is_bucket_alnum f) eqn:?; [|done]. destruct (is_bucket_alnum l) eqn:?; [|done].
  cbn [negb orb]. intros Hall. split_and!; try done.
  - by apply Forall_bool.
  - by exists f, l, t.
Qed.

Lemma valid_bucket_plain name : is_valid_bucket_name name = true → plain_name name.
Proof.
  intros (Hlen & Hall & _)%valid_bucket_inv. split.
  - intros Hin. rewrite Forall_forall in Hall. by destruct (bucket_char_ascii _ (Hall _ Hin)).
  - split_and!; intros ->; cbn in Hlen; lia.
Qed.

Lemma valid_bucket_utf8 name : is_valid_bucket_name name = true → utf8 name.
Proof.
  intros (_ & Hall & _)%valid_bucket_inv. apply utf8_ascii.
  eapply Forall_impl; [exact Hall|]. intros b Hb. by apply bucket_char_ascii.
Qed.

(** A name the engine accepts as a bucket is one plain directory name of 3
    to 63 ASCII bytes that cannot climb out of [buckets/], that no bookkeeping
    name starting with a dot can equal, and that is not shaped like an IPv4
    address. *)
Theorem valid_bucket_name_spec name :
  is_valid_bucket_name name = true →
  plain_name name ∧ 3 ≤ length name ≤ 63 ∧ utf8 name
  ∧ (∀ root, push root name = root ++ [Normal name])
  ∧ starts_with name (b#".") = false
  ∧ name ∉ [AKS3_DIR; BUCKET_META_FILE]
  ∧ (∀ a b c d, name = join (b#".") [a; b; c; d] →
       ¬ Forall (λ g, g ≠ [] ∧ Forall (λ x, is_ascii_digit x = true) g) [a; b; c; d]).
Proof.
  intros Hv. pose proof (valid_bucket_plain name Hv) as Hpl.
  destruct (valid_bucket_inv name Hv) as (Hlen & Hall & (f & l & t & -> & _ & Hf & _) & _ & _ & _ & Hip).
  assert (f ≠ c#".") as Hdot by (intros ->; by vm_compute in Hf).
  split_and!; [done|lia|lia|by apply valid_bucket_utf8|intros; by apply push_plain| | |].
  - apply not_true_iff_false. rewrite starts_with_spec. intros H. by apply prefix_cons_inv_1 in H.
  - rewrite !not_elem_of_cons. split_and!; [by intros [= ]|by intros [= ]|apply not_elem_of_nil].
  - intros a b c d Heq HF. unfold looks_like_ipv4 in Hip. rewrite Heq in Hip.
    change (b#".") with [c#"."] in Hip. rewrite split_join in Hip; [|done|].
    + rewrite !Forall_cons in HF. destruct HF as (Ha & Hb & Hc & Hd & _).
      assert (∀ g, g ≠ [] ∧ Forall (λ x, is_ascii_digit x = true) g → is_decimal_group g = true) as Hg.
      { intros g [Hne Hg]. unfold is_decimal_group. rewrite bool_decide_false by done.
        cbn. by apply Forall_bool. }
      cbn [decimal_groups] in Hip. by rewrite !Hg in Hip.
    + eapply Forall_impl; [exact HF|]. intros g [_ Hg] Hin. rewrite Forall_forall in Hg.
      specialize (Hg _ Hin). by vm_compute in Hg.
Qed.

(** ** Ranges *)

(** Byte [i] of an object of [size] bytes is asked for. *)
Definition in_byte_range (range : ByteRange) (size i : N) : Prop :=
  match range with
  | FromTo first last => (first <= i <= last)%N
  | From first => (first <= i)%N
  | Suffix n => (size <= i + n)%N
  end.

(** A range resolves to exactly the bytes of the object it asks for: the
    span lies inside the object, is not empty, and holds byte [i] if and only
    if the range does; the answer is [InvalidRange] if and only if the range
    holds no byte of the object.  No range at all is the whole object.  The
    [u64] arithmetic never wraps. *)
Theorem resolve_range_spec range size :
  u64 size →
  match resolve_range range size, range with
  | Ok (offset, len), None => offset = 0%N ∧ len = size
  | Ok (offset, len), Some r =>
      (0 < len)%N ∧ (offset + len <= size)%N
      ∧ ∀ i, (i < size)%N → (offset <= i < offset + len)%N ↔ in_byte_range r size i
  | Err e, None => False
  | Err e, Some r => e = InvalidRange ∧ ∀ i, (i < size)%N → ¬ in_byte_range r size i
  end.
Proof.
  unfold u64. intros Hs. destruct range as [r|]; [|done]. unfold resolve_range.
  destruct (N.eqb_spec size 0) as [->|Hne]; [by split; [|lia]|].
  destruct r as [first last|first|n]; unfold in_byte_range.
  - destruct (N.ltb_spec last first); [cbn; split; [done|lia]|].
    destruct (N.leb_spec size first); [cbn; split; [done|lia]|]. cbn [orb].
    rewrite (u64_sub_exact size 1) by lia. rewrite u64_sub_exact by lia.
    rewrite u64_add_exact by lia. split_and!; [lia..|]. intros i Hi. lia.
  - destruct (N.leb_spec size first); [split; [done|lia]|].
    rewrite u64_sub_exact by lia. split_and!; [lia..|]. intros i Hi. lia.
  - destruct (N.eqb_spec n 0) as [->|]; [split; [done|lia]|].
    rewrite u64_sub_exact by lia. split_and!; [lia..|]. intros i Hi. lia.
Qed.

Lemma resolve_range_bounds range size offset len :
  u64 size → resolve_range range size = Ok (offset, len) → (offset + len <= size)%N.
Proof.
  unfold u64. intros Hs. destruct range as [r|]; [|by intros [= <- <-]; lia]. unfold resolve_range.
  destruct (N.eqb_spec size 0) as [->|Hne]; [done|].
  destruct r as [first last|first|n].
  - destruct (N.ltb_spec last first); [done|]. destruct (N.leb_spec size first); [done|]. cbn [orb].
    rewrite (u64_sub_exact size 1), u64_sub_exact, u64_add_exact by lia. intros [= <- <-]. lia.
  - destruct (N.leb_spec size first); [done|]. rewrite u64_sub_exact by lia. intros [= <- <-]. lia.
  - destruct (N.eqb_spec n 0); [done|]. rewrite u64_sub_exact by lia. intros [= <- <-]. lia.
Qed.

(** ** The stream delivers the span or reports an error *)

Lemma fill_spec reads fuel i want rest : want ≤ fuel →
  match fill reads fuel i want rest with
  | Ok (buf, i', rest') => buf = take want rest ∧ rest' = drop want rest
  | Err e => ∃ j, reads j = ReadFails e
  end.
Proof.
  revert i want rest. induction fuel as [|fuel IH]; intros i want rest Hw.
  { assert (want = 0) as -> by lia. cbn. by rewrite take_0, drop_0. }
  destruct want as [|want]; cbn [fill]; [by rewrite take_0, drop_0|].
  destruct (reads i) as [n|e] eqn:Hr; [|by eexists].
  set (k := Nat.min (Nat.max 1 n) (Nat.min (S want) (length rest))).
  assert (k ≤ S want ∧ k ≤ length rest ∧ (k = 0 → length rest = 0)) as (Hk1 & Hk2 & Hk0) by lia.
  destruct k as [|k'] eqn:Hk.
  { specialize (Hk0 eq_refl). apply nil_length_inv in Hk0 as ->. done. }
  rewrite <- Hk in *. specialize (IH (S i) (S want - k) (drop k rest) ltac:(lia)).
  destruct (fill reads fuel (S i) (S want - k) (drop k rest)) as [[[buf i'] rest']|e]; [|done].
  destruct IH as [-> ->]. cbn. split.
  - rewrite <- (take_drop k (take (S want) rest)). rewrite take_take, Nat.min_l by lia.
    by rewrite skipn_firstn_comm.
  - rewrite drop_drop. f_equal. lia.
Qed.

(** Chunks are never empty and never larger than the buffer. *)
Definition chunk_ok (c : result str io_error) : Prop :=
  match c with Ok b => (0 < N.of_nat (length b) <= READ_CHUNK)%N | Err _ => True end.

(** An error is the last item. *)
Definition errors_last (body : BoxByteStream) : Prop :=
  ∀ pre e post, body = pre ++ Err e :: post → post = [].

Lemma errors_last_single e : errors_last [Err e].
Proof. intros [|x pre] e' post Heq; injection Heq as ??; [done|]. by destruct pre. Qed.

Lemma errors_last_cons b body : errors_last body → errors_last (Ok b :: body).
Proof. intros H [|x pre] e post Heq; injection Heq as ??; [done|]. by eapply H. Qed.

(** What the items of a stream over [rest] amount to. *)
Definition delivers (reads : nat → read_fate) (rest : str) (remaining : N) (items : BoxByteStream)
    : Prop :=
  match collect items with
  | Ok body => N.to_nat remaining ≤ length rest ∧ body = take (N.to_nat remaining) rest
  | Err e =>
      (∃ j, reads j = ReadFails e) ∨ kind e = KUnexpectedEof ∧ length rest < N.to_nat remaining
  end.

Lemma delivers_cons reads rest remaining k items :
  k ≤ N.to_nat remaining → k ≤ length rest →
  delivers reads (drop k rest) (remaining - N.of_nat k) items →
  delivers reads rest remaining (Ok (take k rest) :: items).
Proof.
  intros Hk Hr. unfold delivers. cbn [collect]. rewrite length_drop, N2Nat.inj_sub, Nat2N.id.
  destruct (collect items) as [body|e]; cbn.
  - intros [Hle ->]. split; [lia|].
    rewrite <- (take_drop k (take (N.to_nat remaining) rest)), take_take, Nat.min_l by lia.
    by rewrite skipn_firstn_comm.
  - intros [?|[? ?]]; [by left|right; split; [done|lia]].
Qed.

Lemma stream_items_spec reads fuel i rest remaining :
  (remaining <= u64_MAX)%N → length rest < fuel →
  let items := stream_items reads fuel i rest remaining in
  delivers reads rest remaining items ∧ Forall chunk_ok items ∧ errors_last items.
Proof.
  revert i rest remaining. induction fuel as [|fuel IH]; intros i rest remaining Hm Hf; [lia|].
  cbn [stream_items]. destruct (N.eqb_spec remaining 0) as [->|Hne].
  { split_and!; [unfold delivers; cbn; split; [lia|by rewrite take_0]|constructor|].
    by intros [|??] ?? [=]. }
  set (want := N.to_nat (N.min remaining READ_CHUNK)).
  assert (0 < want ∧ want ≤ N.to_nat remaining ∧ (N.of_nat want <= READ_CHUNK)%N) as (Hw & Hwr & Hwc).
  { unfold want, READ_CHUNK. rewrite N2Nat.id. split_and!; lia. }
  pose proof (fill_spec reads want i want rest ltac:(lia)) as Hfill.
  destruct (fill reads want i want rest) as [[[buf i'] rest']|e].
  2: { split_and!; [by left|by apply Forall_singleton|apply errors_last_single]. }
  destruct Hfill as [Hb ->]. pose proof (f_equal length Hb) as Hl. rewrite length_take in Hl.
  destruct buf as [|b0 buf].
  { cbn [length] in Hl.
    split_and!; [right; split; [done|lia]|by apply Forall_singleton|apply errors_last_single]. }
  set (k := Nat.min want (length rest)) in *. cbn zeta. rewrite Hl.
  assert (0 < k) as Hk0 by (rewrite <- Hl; cbn; lia).
  assert (take want rest = take k rest ∧ drop want rest = drop k rest) as [Ht Hd].
  { destruct (Nat.min_spec want (length rest)) as [[? Heq]|[? Heq]]; unfold k; rewrite Heq; [done|].
    by rewrite !take_ge, !drop_ge by lia. }
  rewrite Hb, Ht, Hd. rewrite u64_sub_exact by lia.
  destruct (IH i' (drop k rest) (remaining - N.of_nat k)%N) as (H1 & H2 & H3); [lia|rewrite length_drop; lia|].
  split_and!.
  - apply delivers_cons; [lia..|done].
  - constructor; [|done]. cbn. rewrite length_take. lia.
  - by apply errors_last_cons.
Qed.

(** The body stream of a [GET] hands over exactly the [len] bytes at its
    position or ends with an error: received without an error it is the whole
    span and the file was long enough, it only fails if a read fails or the
    file is shorter than the manifest says, whatever sizes the reads come back
    with; chunks are never empty nor larger than the buffer, and nothing
    follows an error. *)
Theorem file_stream_spec reads rest len :
  u64 len →
  let items := file_stream reads rest len in
  (∀ body, collect items = Ok body → N.to_nat len ≤ length rest ∧ body = take (N.to_nat len) rest)
  ∧ (∀ e, collect items = Err e →
       (∃ j, reads j = ReadFails e) ∨ kind e = KUnexpectedEof ∧ length rest < N.to_nat len)
  ∧ Forall chunk_ok items ∧ errors_last items.
Proof.
  intros Hl. destruct (stream_items_spec reads (S (length rest)) 0 rest len Hl ltac:(lia)) as (H1 & H2 & H3).
  unfold delivers in H1. unfold file_stream. split_and!; [| |done..].
  - intros body Hb. by rewrite Hb in H1.
  - intros e He. by rewrite He in H1.
Qed.

(** ** Folding keys into common prefixes *)

(** The slices of [common_prefix_of] are on character boundaries. *)
Definition fold_key (prefix delimiter key : str) : option str :=
  default None (common_prefix_of key (length prefix) delimiter).

Lemma common_prefix_total prefix delimiter t :
  utf8 prefix → utf8 delimiter → utf8 (prefix ++ t) →
  common_prefix_of (prefix ++ t) (length prefix) delimiter
  = Some ((λ at_, prefix ++ take (at_ + length delimiter) t) <$> find t delimiter).
Proof.
  intros Hp Hd Hk. unfold common_prefix_of, slice_from, slice_to.
  rewrite utf8_prefix_boundary by done. cbn. rewrite drop_app_length.
  destruct (find t delimiter) as [at_|] eqn:Hf; [|done]. cbn.
  pose proof Hf as (Hlen & [u Hu] & _)%find_Some.
  assert (t = take at_ t ++ delimiter ++ u) as Ht by (by rewrite <- Hu, take_drop).
  assert (utf8 (take at_ t)) as Hta.
  { apply utf8_app_cancel in Hk; [|done]. destruct delimiter as [|b delimiter].
    - assert (at_ = 0) as ->; [|apply utf8_nil]. by destruct t; injection Hf as <-.
    - rewrite Ht in Hk. eapply utf8_before; [exact Hk|]. by eapply utf8_head_not_cont. }
  assert (prefix ++ t = (prefix ++ take at_ t ++ delimiter) ++ u) as Heq.
  { rewrite <- !app_assoc. by rewrite <- Ht. }
  assert (length prefix + at_ + length delimiter = length (prefix ++ take at_ t ++ delimiter)) as Hl.
  { rewrite !length_app, length_take. lia. }
  rewrite Hl. rewrite Heq at 1. rewrite utf8_prefix_boundary.
  - cbn. f_equal. f_equal. rewrite Heq, take_app_length. f_equal.
    rewrite Ht at 2. rewrite app_assoc, take_app_length'; [done|]. rewrite length_app, length_take. lia.
  - by repeat apply utf8_app.
  - by rewrite <- Heq.
Qed.

Lemma fold_key_eq prefix delimiter t :
  utf8 prefix → utf8 delimiter → utf8 (prefix ++ t) →
  fold_key prefix delimiter (prefix ++ t)
  = (λ at_, prefix ++ take (at_ + length delimiter) t) <$> find t delimiter.
Proof. intros. unfold fold_key. by rewrite common_prefix_total. Qed.

Lemma fold_key_prefix prefix delimiter key c :
  utf8 prefix → utf8 delimiter → utf8 key → prefix `prefix_of` key →
  fold_key prefix delimiter key = Some c → c `prefix_of` key ∧ prefix `prefix_of` c.
Proof.
  intros Hp Hd Hk [t ->]. rewrite fold_key_eq by done.
  destruct (find t delimiter) as [i|]; [|done]. intros [= <-]. split.
  - exists (drop (i + length delimiter) t). by rewrite <- app_assoc, take_drop.
  - by apply prefix_app_r.
Qed.

Lemma prefix_app_short {A} (d x y : list A) : d `prefix_of` x ++ y → length d ≤ length x → d `prefix_of` x.
Proof.
  intros [t Ht] Hl. apply app_eq_inv in Ht as [(k & -> & _)|(k & Hk & _)]; [by exists k|].
  exists []. rewrite app_nil_r. rewrite Hk in Hl |- *. rewrite length_app in Hl.
  assert (k = []) as -> by (apply nil_length_inv; lia). by rewrite app_nil_r.
Qed.

(** The first occurrence does not depend on what follows it. *)
Lemma find_extend t d i u : find t d = Some i → find (take (i + length d) t ++ u) d = Some i.
Proof.
  intros (Hlen & Hp & Hmin)%find_Some. set (n := i + length d) in *.
  assert (length (take n t) = n) as Hn by (rewrite length_take; lia).
  assert (∀ j, j ≤ i → d `prefix_of` drop j (take n t ++ u) ↔ d `prefix_of` drop j t) as Hsame.
  { intros j Hj. rewrite drop_app_le by lia. rewrite skipn_firstn_comm.
    split.
    - intros H. apply prefix_app_short in H; [|rewrite length_take, length_drop; lia].
      etrans; [exact H|]. eexists. symmetry. apply take_drop.
    - intros [v Hv]. rewrite Hv. rewrite take_app_ge by lia. rewrite <- app_assoc. by apply prefix_app_r. }
  destruct (find (take n t ++ u) d) as [k|] eqn:Hk.
  - f_equal. symmetry. eapply find_Some_unique; [exact Hk| | |].
    + rewrite length_app. lia.
    + by apply Hsame.
    + intros j Hj. rewrite Hsame by lia. by apply Hmin.
  - exfalso. eapply (find_None _ _ Hk i); [rewrite length_app; lia|]. by apply Hsame.
Qed.

(** Every key that starts with a common prefix folds into it. *)
Lemma fold_key_same prefix delimiter a b c :
  utf8 prefix → utf8 delimiter → utf8 a → utf8 b → prefix `prefix_of` b →
  fold_key prefix delimiter b = Some c → c `prefix_of` a → fold_key prefix delimiter a = Some c.
Proof.
  intros Hp Hd Ha Hb [t ->]. rewrite fold_key_eq by done.
  destruct (find t delimiter) as [i|] eqn:Hf; [|done]. intros [= <-] [u ->].
  rewrite <- app_assoc in *. rewrite fold_key_eq by done. rewrite (find_extend t delimiter i u Hf). cbn.
  do 2 f_equal. rewrite take_app_le; [by rewrite take_take, Nat.min_id|].
  apply find_Some in Hf as (? & _). rewrite length_take. lia.
Qed.

(** ** The theorems at work *)

Lemma valid_bucket_name_spec_witness :
  is_valid_bucket_name (b#"my-bucket.v2") = true ∧ plain_name (b#"my-bucket.v2")
  ∧ push [RootDir] (b#"my-bucket.v2") = [RootDir; Normal (b#"my-bucket.v2")].
Proof.
  destruct (valid_bucket_name_spec (b#"my-bucket.v2") ltac:(by vm_compute)) as (Hp & _ & _ & Hpush & _).
  split; [by vm_compute|]. split; [exact Hp|]. exact (Hpush [RootDir]).
Defined.

Lemma resolve_range_spec_witness :
  resolve_range (Some (Suffix 4)) 10 = Ok (6%N, 4%N)
  ∧ ∀ i, (i < 10)%N → (6 <= i < 6 + 4)%N ↔ in_byte_range (Suffix 4) 10 i.
Proof.
  split; [by vm_compute|].
  pose proof (resolve_range_spec (Some (Suffix 4)) 10 ltac:(by vm_compute)) as H.
  cbn in H. apply H.
Defined.

Lemma file_stream_spec_witness :
  collect (file_stream (λ _, Reads 2) (b#"hello") 4) = Ok (b#"hell")
  ∧ ∀ body, collect (file_stream (λ _, Reads 2) (b#"hello") 4) = Ok body → body = take 4 (b#"hello").
Proof.
  destruct (file_stream_spec (λ _, Reads 2) (b#"hello") 4 ltac:(by vm_compute)) as (H & _).
  split; [by vm_compute|]. intros body Hb. apply H in Hb as [_ Hb]. exact Hb.
Defined.
