(* ===== verification/Listing.v ===== *)
(** * Listing pages: the loop of [list_objects_v2]

    The loop cuts one page out of the sorted keys.  The reference is a list of
    items, the objects and the common prefixes of the whole listing in order;
    a page is the first [max_keys] items past the start bound, and following
    the continuation tokens walks through all items exactly once. *)

From S2P Require Import Prelude RustStr RustPath Paths Checksum EngineError Fs FsFacts Meta Layer FsBase.

(** [p.delimiter.as_deref().filter(|d| !d.is_empty())]. *)
Definition effective_delimiter (p : ListParams) : option str :=
  match lp_delimiter p with
  | Some d => if bool_decide (d = []) then None else Some d
  | None => None
  end.

(** [p.prefix.as_deref().unwrap_or_default()]. *)
Definition effective_prefix (p : ListParams) : str := default [] (lp_prefix p).

(** [delimiter.and_then(|d| common_prefix_of(key, prefix.len(), d))]; the outer
    [None] is the panic of a slice off a character boundary. *)
Definition folded (prefix : str) (delimiter : option str) (key : str) : option (option str) :=
  match delimiter with
  | Some d => common_prefix_of key (length prefix) d
  | None => Some None
  end.

(** [start.is_some_and(|start| item <= start)]. *)
Definition at_or_before (item : str) (start : option str) : bool :=
  match start with Some s => str_leb item s | None => false end.

Section loop.
Context (lookup : str → M EngineError (option VersionEntry)).

(** The loop over the keys, from the page so far. *)
Fixpoint list_loop (p : ListParams) (keys : list str) (out : ListResult) : M EngineError ListResult :=
  match keys with
  | [] => ret out
  | key :: keys' =>
      let prefix := effective_prefix p in
      if negb (starts_with key prefix) then list_loop p keys' out
      else
        match folded prefix (effective_delimiter p) key with
        | None => throw (Io (io_error_other BoxedOther))
        | Some folded =>
            let item := default key folded in
            if at_or_before item (start_bound p) then list_loop p keys' out
            else if negb (bool_decide (folded = None))
                    && bool_decide (last (lr_common_prefixes out) = folded)
            then list_loop p keys' out
            else
              entry <- lookup key;;
              match entry with
              | None => list_loop p keys' out
              | Some entry =>
                  if (N.of_nat (length (lr_objects out) + length (lr_common_prefixes out))
                      =? lp_max_keys p)%N
                  then
                    ret (mkListResult (lr_objects out) (lr_common_prefixes out) true
                           (lr_next_continuation_token out))
                  else
                    list_loop p keys'
                      (match folded with
                       | Some common =>
                           mkListResult (lr_objects out) (lr_common_prefixes out ++ [common])
                             (lr_is_truncated out) (Some common)
                       | None =>
                           mkListResult (lr_objects out ++ [object_info key entry])
                             (lr_common_prefixes out) (lr_is_truncated out) (Some key)
                       end)
              end
        end
  end.

(** The page: [if !out.is_truncated { out.next_continuation_token = None }]. *)
Definition list_page (p : ListParams) (keys : list str) : M EngineError ListResult :=
  out <- list_loop p keys empty_list_result;;
  ret (if lr_is_truncated out then out
       else mkListResult (lr_objects out) (lr_common_prefixes out) false None).
End loop.

(** ** The reference *)

Inductive item :=
  | IObject (info : ObjectInfo)
  | IPrefix (common : str).

Definition item_name (i : item) : str :=
  match i with IObject info => oi_key info | IPrefix common => common end.

Definition objects_of (l : list item) : list ObjectInfo :=
  omap (λ i, match i with IObject info => Some info | IPrefix _ => None end) l.
Definition prefixes_of (l : list item) : list str :=
  omap (λ i, match i with IObject _ => None | IPrefix common => Some common end) l.

(** How a key that matches the prefix shows: as itself or as its group. *)
Definition shown (p : ListParams) (key : str) : option str :=
  match effective_delimiter p with
  | Some d => fold_key (effective_prefix p) d key
  | None => None
  end.

Section reference.
Context (entry_of : str → option VersionEntry).

(** The items of the keys past [start], when the group [seen] was the last one
    opened. *)
Fixpoint items_from (p : ListParams) (start seen : option str) (keys : list str) : list item :=
  match keys with
  | [] => []
  | key :: keys' =>
      let item := default key (shown p key) in
      if negb (starts_with key (effective_prefix p)) || at_or_before item start
      then items_from p start seen keys'
      else
        match shown p key, entry_of key with
        | _, None => items_from p start seen keys'
        | Some common, Some _ =>
            if bool_decide (seen = Some common) then items_from p start seen keys'
            else IPrefix common :: items_from p start (Some common) keys'
        | None, Some entry => IObject (object_info key entry) :: items_from p start seen keys'
        end
  end.

(** The items of the whole listing. *)
Definition items (p : ListParams) (keys : list str) : list item := items_from p None None keys.

(** The first [max_keys] of the items, and whether there are more. *)
Definition cut (max_keys : N) (l : list item) : ListResult :=
  let page := take (N.to_nat max_keys) l in
  let truncated := (max_keys <? N.of_nat (length l))%N in
  mkListResult (objects_of page) (prefixes_of page) truncated
    (if truncated then item_name <$> last page else None).
End reference.

(** ** The loop computes the reference *)

Lemma objects_of_app l k : objects_of (l ++ k) = objects_of l ++ objects_of k.
Proof. apply omap_app. Qed.
Lemma prefixes_of_app l k : prefixes_of (l ++ k) = prefixes_of l ++ prefixes_of k.
Proof. apply omap_app. Qed.
Lemma objects_prefixes_length l : length (objects_of l) + length (prefixes_of l) = length l.
Proof. induction l as [|[|] l IH]; simpl; unfold objects_of, prefixes_of in *; lia. Qed.

(** The page so far holds the items [l]. *)
Definition page_of (l : list item) : ListResult :=
  mkListResult (objects_of l) (prefixes_of l) false (item_name <$> last l).

(** The strings of a request and of the keys are Rust strings. *)
Definition request_ok (p : ListParams) : Prop :=
  utf8 (effective_prefix p) ∧ ∀ d, effective_delimiter p = Some d → utf8 d.

Lemma folded_shown p key : request_ok p → utf8 key →
  starts_with key (effective_prefix p) = true →
  folded (effective_prefix p) (effective_delimiter p) key = Some (shown p key).
Proof.
  intros [Hp Hd] Hk Hs. unfold folded, shown. destruct (effective_delimiter p) as [d|]; [|done].
  apply starts_with_spec in Hs as [t ->]. unfold fold_key. rewrite common_prefix_total; auto.
Qed.

Section refines.
Context {E : Env}.
Context (lookup : str → M EngineError (option VersionEntry)) (entry_of : str → option VersionEntry).
Context (d : disk) (p : ListParams).
Hypothesis request_valid : request_ok p.

Definition reads_entries (keys : list str) : Prop :=
  ∀ key, key ∈ keys → utf8 key ∧ runs (lookup key) (λ r d', d' = d ∧ r = entry_of key) d.

Definition finish (l rest : list item) : ListResult :=
  if (length (l ++ rest) <=? N.to_nat (lp_max_keys p))%nat then page_of (l ++ rest)
  else
    let page := take (N.to_nat (lp_max_keys p)) (l ++ rest) in
    mkListResult (objects_of page) (prefixes_of page) true (item_name <$> last page).

Lemma runs_list_loop keys l :
  reads_entries keys → length l ≤ N.to_nat (lp_max_keys p) →
  runs (list_loop lookup p keys (page_of l))
    (λ r d', d' = d ∧ r = finish l (items_from entry_of p (start_bound p) (last (prefixes_of l)) keys)) d.
Proof.
  revert l. induction keys as [|key keys IH]; intros l Hr Hl; cbn [list_loop items_from].
  { apply wp_ret. split; [done|]. unfold finish. rewrite app_nil_r.
    by destruct (Nat.leb_spec (length l) (N.to_nat (lp_max_keys p))); [|lia]. }
  assert (reads_entries keys) as Hr' by (intros k Hk; apply Hr; by right).
  destruct (Hr key) as [H8 Hlook]; [left|].
  destruct (starts_with key (effective_prefix p)) eqn:Hs; cbn [negb orb]; [|by apply IH].
  rewrite folded_shown by done.
  destruct (at_or_before (default key (shown p key)) (start_bound p)); [by apply IH|].
  cbn [lr_common_prefixes page_of].
  destruct (negb (bool_decide (shown p key = None)) && bool_decide (last (prefixes_of l) = shown p key)) eqn:Hdup.
  { apply andb_true_iff in Hdup as [H1 H2]. apply negb_true_iff, bool_decide_eq_false in H1.
    apply bool_decide_eq_true in H2. destruct (shown p key) as [c|]; [|done].
    rewrite (bool_decide_true (_ = Some c)) by done. destruct (entry_of key); by apply IH. }
  apply wp_bind. eapply wp_mono; [exact Hlook| |done..]. intros r d' [-> ->].
  destruct (entry_of key) as [entry|]; [|destruct (shown p key); by apply IH].
  cbn [lr_objects lr_common_prefixes lr_is_truncated page_of lr_next_continuation_token]. rewrite objects_prefixes_length.
  set (next := match shown p key with Some common => IPrefix common
               | None => IObject (object_info key entry) end).
  assert (match shown p key with
          | Some common => if bool_decide (last (prefixes_of l) = Some common)
              then items_from entry_of p (start_bound p) (last (prefixes_of l)) keys
              else IPrefix common :: items_from entry_of p (start_bound p) (Some common) keys
          | None => IObject (object_info key entry)
              :: items_from entry_of p (start_bound p) (last (prefixes_of l)) keys
          end = next :: items_from entry_of p (start_bound p) (last (prefixes_of (l ++ [next]))) keys) as ->.
  { unfold next. rewrite prefixes_of_app. destruct (shown p key) as [c|]; cbn.
    - rewrite bool_decide_false, last_snoc; [done|]. intros Hc. rewrite Hc in Hdup.
      by rewrite (bool_decide_true (Some c = Some c)) in Hdup.
    - by rewrite app_nil_r. }
  destruct (N.eqb_spec (N.of_nat (length l)) (lp_max_keys p)) as [Heq|Hne].
  - apply wp_ret. split; [done|]. unfold finish. rewrite <- Heq, Nat2N.id, length_app. cbn.
    destruct (Nat.leb_spec (length l + S (length (items_from entry_of p (start_bound p)
      (last (prefixes_of (l ++ [next]))) keys))) (length l)); [lia|].
    by rewrite take_app_length.
  - replace (match shown p key with
             | Some common => mkListResult (objects_of l) (prefixes_of l ++ [common]) false (Some common)
             | None => mkListResult (objects_of l ++ [object_info key entry]) (prefixes_of l) false (Some key)
             end) with (page_of (l ++ [next])).
    2: { unfold page_of, next. rewrite objects_of_app, prefixes_of_app, last_snoc.
         destruct (shown p key); cbn; by rewrite ?app_nil_r. }
    eapply wp_mono; [apply IH; [done|rewrite length_app; cbn; lia]| |done..].
    intros r d' [-> ->]. split; [done|]. unfold finish. by rewrite <- app_assoc.
Qed.

Lemma runs_list_page keys :
  reads_entries keys →
  runs (list_page lookup p keys)
    (λ r d', d' = d ∧ r = cut (lp_max_keys p) (items_from entry_of p (start_bound p) None keys)) d.
Proof.
  intros Hr. apply wp_bind. change empty_list_result with (page_of []).
  eapply wp_mono; [apply runs_list_loop; [done|cbn; lia]| |done..].
  intros r d' [-> ->]. apply wp_ret. split; [done|]. unfold finish, cut. cbn [app prefixes_of].
  cbn. set (l := items_from _ _ _ _ _).
  destruct (Nat.leb_spec (length l) (N.to_nat (lp_max_keys p))), (N.ltb_spec (lp_max_keys p) (N.of_nat (length l)));
    try lia; cbn; [|done]. by rewrite take_ge by lia.
Qed.
End refines.

(** ** Items come in strictly ascending order *)

Section order.
Context (entry_of : str → option VersionEntry) (p : ListParams).
Hypothesis request_valid : request_ok p.

Definition name_of (key : str) : str := default key (shown p key).

(** [key] is a string that matches the prefix of the request. *)
Definition matches (key : str) : Prop := utf8 key ∧ effective_prefix p `prefix_of` key.

Lemma shown_prefix key c : matches key → shown p key = Some c → c `prefix_of` key.
Proof.
  intros [H8 Hp]. destruct request_valid as [Hpre Hdel]. unfold shown.
  destruct (effective_delimiter p) as [d|]; [|done]. intros Hf. by apply fold_key_prefix in Hf as [? _]; auto.
Qed.

Lemma shown_same a b c : utf8 a → matches b → shown p b = Some c → c `prefix_of` a → shown p a = Some c.
Proof.
  intros Ha [Hb Hp]. destruct request_valid as [Hpre Hdel]. unfold shown.
  destruct (effective_delimiter p) as [d|]; [|done]. intros Hf Hc. eapply (fold_key_same _ _ a b); eauto.
Qed.

Lemma name_of_le key : matches key → str_le (name_of key) key.
Proof.
  intros Hk. unfold name_of. destruct (shown p key) as [c|] eqn:Hs; cbn; [|done].
  by apply str_prefix_le, shown_prefix.
Qed.

(** Keys in order show as names in order: the keys of a group are contiguous. *)
Lemma name_of_mono a b : matches a → matches b → str_lt a b → str_le (name_of a) (name_of b).
Proof.
  intros Ha Hb Hab. destruct (decide (str_le (name_of a) (name_of b))) as [|Hn]; [done|exfalso].
  apply str_not_le in Hn. pose proof (name_of_le a Ha) as Hla.
  unfold name_of at 1 in Hn. destruct (shown p b) as [c|] eqn:Hs; cbn in Hn.
  - assert (c `prefix_of` a) as Hca.
    { apply (str_prefix_between c a b); [by apply shown_prefix| |by apply str_lt_le].
      apply str_lt_le. by eapply str_lt_le_trans. }
    pose proof (shown_same a b c (proj1 Ha) Hb Hs Hca) as Hsa. unfold name_of in Hn. rewrite Hsa in Hn.
    cbn in Hn. apply (str_not_le c c); [exact Hn|apply str_le_refl].
  - apply (str_not_le b b); [|apply str_le_refl].
    eapply str_lt_le_trans; [exact Hn|]. etrans; [exact Hla|by apply str_lt_le].
Qed.

(** What an item of the listing came from. *)
Definition item_of (key : str) (i : item) : Prop :=
  item_name i = name_of key ∧
  match i with
  | IObject info => oi_key info = key ∧ shown p key = None
  | IPrefix c => shown p key = Some c
  end.

Definition keys_ok (keys : list str) : Prop := StronglySorted str_lt keys ∧ Forall utf8 keys.

Lemma keys_ok_cons key keys : keys_ok (key :: keys) → keys_ok keys ∧ utf8 key ∧ Forall (str_lt key) keys.
Proof. intros [Hs H8]. apply StronglySorted_inv in Hs as [? ?]. apply Forall_cons in H8 as [? ?]. done. Qed.

Lemma items_from_elem start seen keys i :
  Forall utf8 keys → i ∈ items_from entry_of p start seen keys →
  ∃ key, key ∈ keys ∧ matches key ∧ item_of key i.
Proof.
  revert seen. induction keys as [|key keys IH]; intros seen H8; cbn [items_from]; [by intros ?%elem_of_nil|].
  apply Forall_cons in H8 as [Hk H8].
  assert (∀ seen', i ∈ items_from entry_of p start seen' keys →
    ∃ key', key' ∈ key :: keys ∧ matches key' ∧ item_of key' i) as Hrest.
  { intros seen' (k & ? & ? & ?)%IH; [|done]. exists k. split; [by right|done]. }
  destruct (starts_with key (effective_prefix p)) eqn:Hs; cbn [negb orb]; [|apply Hrest].
  apply starts_with_spec in Hs. destruct (at_or_before _ start); [apply Hrest|].
  assert (matches key) as Hm by done. unfold item_of, name_of.
  destruct (shown p key) as [c|] eqn:Hsh, (entry_of key) as [e|]; try apply Hrest.
  - case_bool_decide; [apply Hrest|]. intros [->|Hin]%elem_of_cons; [|by eapply Hrest].
    exists key. rewrite Hsh. split; [left|done].
  - intros [->|Hin]%elem_of_cons; [|by eapply Hrest]. exists key. rewrite Hsh. split; [left|done].
Qed.

(** How a live key is listed. *)
Definition item_for (key : str) (entry : VersionEntry) : item :=
  match shown p key with Some common => IPrefix common | None => IObject (object_info key entry) end.

(** Every key that matches, has a live version and shows past [start] is listed, and
    nothing else. *)
Lemma items_from_live start seen keys i :
  Forall utf8 keys → i ∈ items_from entry_of p start seen keys →
  ∃ key entry, key ∈ keys ∧ matches key ∧ entry_of key = Some entry
    ∧ at_or_before (name_of key) start = false ∧ i = item_for key entry.
Proof.
  revert seen. induction keys as [|key keys IH]; intros seen H8; cbn [items_from]; [by intros ?%elem_of_nil|].
  apply Forall_cons in H8 as [Hk H8].
  assert (∀ seen', i ∈ items_from entry_of p start seen' keys →
    ∃ key' entry, key' ∈ key :: keys ∧ matches key' ∧ entry_of key' = Some entry
      ∧ at_or_before (name_of key') start = false ∧ i = item_for key' entry) as Hrest.
  { intros seen' (k & entry & ? & ? & ? & ? & ?)%IH; [|done]. exists k, entry. split_and!; [by right|done..]. }
  destruct (starts_with key (effective_prefix p)) eqn:Hs; cbn [negb orb]; [|apply Hrest].
  apply starts_with_spec in Hs. destruct (at_or_before _ start) eqn:Hat; [apply Hrest|].
  assert (∀ entry, entry_of key = Some entry → i = item_for key entry →
    ∃ key' entry, key' ∈ key :: keys ∧ matches key' ∧ entry_of key' = Some entry
      ∧ at_or_before (name_of key') start = false ∧ i = item_for key' entry) as Hhere.
  { intros entry He ->. exists key, entry. split_and!; [left|done..]. }
  unfold item_for in Hhere.
  destruct (shown p key) as [c|] eqn:Hsh, (entry_of key) as [e|] eqn:He; try apply Hrest.
  - case_bool_decide; [apply Hrest|]. intros [->|Hin]%elem_of_cons; [by eapply Hhere|by eapply Hrest].
  - intros [->|Hin]%elem_of_cons; [by eapply Hhere|by eapply Hrest].
Qed.

Lemma items_from_complete start seen keys key entry :
  key ∈ keys → matches key → entry_of key = Some entry → at_or_before (name_of key) start = false →
  item_for key entry ∈ items_from entry_of p start seen keys
  ∨ ∃ c, seen = Some c ∧ item_for key entry = IPrefix c.
Proof.
  intros Hin Hm He Hat. revert seen. induction keys as [|k keys IH]; intros seen; [by apply elem_of_nil in Hin|].
  cbn [items_from]. apply elem_of_cons in Hin as [<-|Hin].
  - destruct Hm as [_ Hp]. rewrite (proj2 (starts_with_spec _ _) Hp). unfold name_of in Hat. rewrite Hat. cbn [negb orb].
    rewrite He. unfold item_for. destruct (shown p key) as [c|]; [|left; left].
    case_bool_decide; [right; eauto|left; left].
  - specialize (IH Hin). destruct (negb _ || _); [apply IH|].
    destruct (shown p k) as [c|], (entry_of k) as [e|]; try apply IH.
    + case_bool_decide; [apply IH|]. left. destruct (IH (Some c)) as [?|(c' & [= <-] & ->)]; [by right|left].
    + destruct (IH seen) as [?|?]; [left; by right|by right].
Qed.

Lemma items_from_length start seen keys : length (items_from entry_of p start seen keys) ≤ length keys.
Proof.
  revert seen. induction keys as [|key keys IH]; intros seen; [done|]. cbn [items_from].
  repeat case_match; cbn [length]; first [etrans; [apply IH|lia] | apply le_n_S, IH].
Qed.

(** The group [seen] was opened at or before the keys that are left. *)
Definition seen_ok (seen : option str) (keys : list str) : Prop :=
  ∀ c key, seen = Some c → key ∈ keys → matches key → str_le c (name_of key).

Lemma seen_ok_after key keys c :
  keys_ok (key :: keys) → matches key → name_of key = c → seen_ok (Some c) keys.
Proof.
  intros (Hk & _ & Hlt)%keys_ok_cons Hm <- c' k [= <-] Hin Hmk.
  rewrite Forall_forall in Hlt. apply name_of_mono; auto.
Qed.

Lemma seen_ok_tail seen key keys : seen_ok seen (key :: keys) → seen_ok seen keys.
Proof. intros H c k Hs Hin. apply H; [done|by right]. Qed.

(** A group is opened once. *)
Lemma items_from_seen start c keys :
  keys_ok keys → seen_ok (Some c) keys → IPrefix c ∉ items_from entry_of p start (Some c) keys.
Proof.
  induction keys as [|key keys IH]; intros Hok Hseen; cbn [items_from]; [apply not_elem_of_nil|].
  pose proof (keys_ok_cons _ _ Hok) as (Hok' & H8 & Hlt).
  pose proof (IH Hok' (seen_ok_tail _ _ _ Hseen)) as Hrest.
  destruct (starts_with key (effective_prefix p)) eqn:Hs; cbn [negb orb]; [|done].
  apply starts_with_spec in Hs. assert (matches key) as Hm by done.
  destruct (at_or_before _ start); [done|].
  destruct (shown p key) as [c'|] eqn:Hsh, (entry_of key) as [e|]; try done.
  - case_bool_decide as Heq; [done|]. assert (c ≠ c') as Hne by congruence.
    assert (name_of key = c') as Hnk by (unfold name_of; by rewrite Hsh).
    intros [[= ->]|Hin]%elem_of_cons; [done|].
    apply items_from_elem in Hin as (k & Hk & Hmk & Hi & Hsk); [|apply Hok'].
    pose proof (Hseen c key eq_refl ltac:(left) Hm) as H1. rewrite Hnk in H1.
    pose proof (seen_ok_after key keys c' Hok Hm Hnk c' k eq_refl Hk Hmk) as H2.
    cbn in Hi. rewrite <- Hi in H2. destruct Hne. by apply (anti_symm str_le).
  - intros [[=]|Hin]%elem_of_cons. done.
Qed.

Lemma items_from_sorted start seen keys :
  keys_ok keys → StronglySorted str_lt (item_name <$> items_from entry_of p start seen keys).
Proof.
  revert seen. induction keys as [|key keys IH]; intros seen Hok; cbn [items_from]; [constructor|].
  pose proof (keys_ok_cons _ _ Hok) as (Hok' & H8 & Hlt).
  destruct (starts_with key (effective_prefix p)) eqn:Hs; cbn [negb orb]; [|by apply IH].
  apply starts_with_spec in Hs. assert (matches key) as Hm by done.
  destruct (at_or_before _ start); [by apply IH|].
  assert (∀ seen' j, j ∈ items_from entry_of p start seen' keys →
    ∃ k, matches k ∧ item_of k j ∧ str_lt key k ∧ str_le (name_of key) (item_name j)) as Habove.
  { intros seen' j (k & Hk & Hmk & Hi)%items_from_elem; [|apply Hok']. rewrite Forall_forall in Hlt.
    exists k. split_and!; [done|done|by apply Hlt|]. destruct Hi as [-> _]. apply name_of_mono; auto. }
  destruct (shown p key) as [c|] eqn:Hsh, (entry_of key) as [e|]; try (by apply IH);
    assert (name_of key = default key (shown p key)) as Hnk by done; rewrite Hsh in Hnk; cbn in Hnk.
  - case_bool_decide; [by apply IH|]. rewrite fmap_cons. constructor; [by apply IH|].
    rewrite Forall_fmap, Forall_forall. intros j Hj. cbn.
    destruct (Habove _ _ Hj) as (k & Hmk & [Hi Hi2] & Hkk & Hle). rewrite Hnk in Hle.
    apply str_le_lteq in Hle as [|Heq]; [done|exfalso]. destruct j as [info|c']; cbn in *.
    + destruct Hi2 as [Hkey Hnone]. assert (shown p k = Some c); [|congruence].
      eapply (shown_same k key); [apply Hmk|done|done|]. by rewrite Heq, Hkey.
    + rewrite <- Heq in Hj. eapply items_from_seen in Hj; [done|done|]. by eapply seen_ok_after.
  - rewrite fmap_cons. constructor; [by apply IH|]. rewrite Forall_fmap, Forall_forall. intros j Hj. cbn.
    destruct (Habove _ _ Hj) as (k & Hmk & [Hi Hi2] & Hkk & Hle). rewrite Hnk in Hle.
    apply str_le_lteq in Hle as [|Heq]; [done|exfalso]. destruct j as [info|c']; cbn in *.
    + destruct Hi2 as [Hkey Hnone]. rewrite Heq, Hkey in Hkk. by apply (str_not_lt k k); [apply str_le_refl|].
    + assert (shown p key = Some c'); [|congruence].
      eapply (shown_same key k); [done|done|done|]. by rewrite Heq.
Qed.

(** Starting past [s] leaves out exactly the items up to [s]. *)
Lemma items_from_start s seen seen' keys :
  keys_ok keys → seen_ok seen' keys → (∀ c, str_lt s c → seen = Some c ↔ seen' = Some c) →
  filter (λ i, str_lt s (item_name i)) (items_from entry_of p None seen keys)
  = items_from entry_of p (Some s) seen' keys.
Proof.
  revert seen seen'. induction keys as [|key keys IH]; intros seen seen' Hok Hseen Hrel; [done|].
  cbn [items_from at_or_before]. rewrite orb_false_r.
  pose proof (keys_ok_cons _ _ Hok) as (Hok' & H8 & Hlt).
  pose proof (seen_ok_tail _ _ _ Hseen) as Hseen'.
  destruct (starts_with key (effective_prefix p)) eqn:Hs; cbn [negb orb]; [|by apply IH].
  apply starts_with_spec in Hs. assert (matches key) as Hm by done.
  assert (name_of key = default key (shown p key)) as Hnk by done.
  destruct (str_leb (default key (shown p key)) s) eqn:Hle.
  - apply str_leb_le in Hle. rewrite <- Hnk in Hle.
    destruct (shown p key) as [c|] eqn:Hsh, (entry_of key) as [e|]; cbn in Hnk; try (by apply IH).
    + case_bool_decide; [by apply IH|]. rewrite filter_cons_False by (cbn; rewrite str_not_lt; congruence).
      apply IH; [done|done|]. intros c0 Hc0. split; [intros [= <-]|intros ->]; exfalso.
      * apply (str_not_lt s c); [congruence|done].
      * apply (str_not_lt s c0); [|done]. etrans; [|exact Hle]. by apply (Hseen c0 key); [|left|].
    + rewrite filter_cons_False; [by apply IH|]. cbn. rewrite str_not_lt. congruence.
  - assert (str_lt s (name_of key)) as Hgt.
    { apply str_not_le. rewrite <- str_leb_le, Hnk, Hle. done. }
    destruct (shown p key) as [c|] eqn:Hsh, (entry_of key) as [e|]; cbn in Hnk; try (by apply IH).
    + rewrite Hnk in Hgt. rewrite (bool_decide_ext _ _ (Hrel c Hgt)). case_bool_decide; [by apply IH|].
      rewrite filter_cons_True by done. f_equal. apply IH; [done| |done]. by eapply seen_ok_after.
    + rewrite Hnk in Hgt. rewrite filter_cons_True by done. f_equal. by apply IH.
Qed.

Lemma items_from_filter s keys : keys_ok keys →
  items_from entry_of p (Some s) None keys
  = filter (λ i, str_lt s (item_name i)) (items_from entry_of p None None keys).
Proof. intros Hok. symmetry. by apply items_from_start. Qed.
End order.

(** The keys of a listing are determined by which they are. *)
Lemma keys_ok_unique keys keys' : keys_ok keys → keys_ok keys' → (∀ k, k ∈ keys ↔ k ∈ keys') → keys = keys'.
Proof.
  assert (∀ l, StronglySorted str_lt l → NoDup l) as Hnd.
  { induction 1 as [|x l _ IH Hx]; constructor; [|done]. intros Hin. rewrite Forall_forall in Hx.
    apply (str_not_lt x x); [apply str_le_refl|auto]. }
  assert (AntiSymm (=) str_lt) as Has.
  { intros x y Hxy Hyx%str_lt_le. by apply (str_not_lt x y) in Hyx. }
  intros [Hs _] [Hs' _] Hin. apply (StronglySorted_unique str_lt); [done..|]. by apply NoDup_Permutation; auto.
Qed.

Lemma objects_of_elem l info : info ∈ objects_of l ↔ IObject info ∈ l.
Proof.
  unfold objects_of. rewrite list_elem_of_omap. split; [|by intros ?; exists (IObject info)].
  by intros ([info'|c] & Hin & [= ->]).
Qed.

Lemma prefixes_of_elem l c : c ∈ prefixes_of l ↔ IPrefix c ∈ l.
Proof.
  unfold prefixes_of. rewrite list_elem_of_omap. split; [|by intros ?; exists (IPrefix c)].
  by intros ([info|c'] & Hin & [= ->]).
Qed.

Lemma sorted_items l : StronglySorted str_lt (item_name <$> l) →
  StronglySorted str_lt (oi_key <$> objects_of l) ∧ StronglySorted str_lt (prefixes_of l).
Proof.
  induction l as [|i l IH]; [by split; constructor|]. rewrite fmap_cons.
  intros [Hs Hi]%StronglySorted_inv. destruct (IH Hs) as [Ho Hp]. rewrite Forall_fmap, Forall_forall in Hi.
  destruct i as [info|c]; cbn; (split; [|]); try done; constructor; try done; apply Forall_forall; intros x.
  - rewrite list_elem_of_fmap. intros (info' & -> & Hin%objects_of_elem). by apply Hi in Hin.
  - intros Hin%prefixes_of_elem. by apply Hi in Hin.
Qed.

(** ** Following the continuation tokens *)

(** The request for the page after [token]. *)
Definition resume (p : ListParams) (token : str) : ListParams :=
  mkListParams (lp_prefix p) (lp_delimiter p) (Some token) (lp_start_after p) (lp_max_keys p).

Section pages.
Context (entry_of : str → option VersionEntry) (keys : list str).
Hypothesis keys_valid : keys_ok keys.

(** One page of the listing. *)
Definition page (p : ListParams) : ListResult :=
  cut (lp_max_keys p) (items_from entry_of p (start_bound p) None keys).

(** The pages a client gets that asks again while the listing is truncated. *)
Fixpoint pages (fuel : nat) (p : ListParams) : list ListResult :=
  match fuel with
  | O => []
  | S fuel' =>
      let r := page p in
      r :: match lr_next_continuation_token r with
           | Some token => pages fuel' (resume p token)
           | None => []
           end
  end.

Lemma items_from_resume p start seen token ks :
  items_from entry_of (resume p token) start seen ks = items_from entry_of p start seen ks.
Proof.
  revert seen. induction ks as [|k ks IH]; intros seen; [done|].
  cbn [items_from]. change (shown (resume p token)) with (shown p).
  change (effective_prefix (resume p token)) with (effective_prefix p).
  repeat case_match; by rewrite ?IH.
Qed.

(** Past the bound the items are the full listing's. *)
Lemma items_bound p : request_ok p →
  items_from entry_of p (start_bound p) None keys
  = match start_bound p with
    | Some s => filter (λ i, str_lt s (item_name i)) (items entry_of p keys)
    | None => items entry_of p keys
    end.
Proof. intros Hp. destruct (start_bound p) as [s|]; [|done]. by apply items_from_filter. Qed.

Lemma sorted_filter_after (l k : list item) x :
  StronglySorted str_lt (item_name <$> (l ++ x :: k)) →
  filter (λ i, str_lt (item_name x) (item_name i)) (l ++ x :: k) = k.
Proof.
  intros Hs. rewrite fmap_app, fmap_cons in Hs. rewrite filter_app, filter_cons_False.
  2: { rewrite str_not_lt. apply str_le_refl. }
  assert (filter (λ i, str_lt (item_name x) (item_name i)) l = []) as ->.
  { induction l as [|y l IH]; [done|]. rewrite fmap_cons in Hs. cbn in Hs.
    apply StronglySorted_inv in Hs as [Hs Hy]. rewrite filter_cons_False; [by apply IH|].
    rewrite str_not_lt. apply str_lt_le. rewrite Forall_forall in Hy. apply Hy.
    apply elem_of_app. right. left. }
  induction l as [|y l IH]; cbn in Hs; apply StronglySorted_inv in Hs as [Hs Hx]; [|by apply IH].
  cbn. rewrite Forall_fmap, Forall_forall in Hx. clear Hs.
  induction k as [|y k IH]; [done|]. rewrite filter_cons_True by (apply Hx; left).
  f_equal. apply IH. intros z Hz. apply Hx. by right.
Qed.

(** A page's token is past the bound it started from, so it takes over. *)
Lemma resume_bound p token :
  at_or_before token (start_bound p) = false → start_bound (resume p token) = Some token.
Proof.
  unfold start_bound at 2, resume. cbn [lp_continuation_token lp_start_after].
  unfold start_bound, at_or_before. destruct (lp_start_after p) as [a|]; [|done].
  intros H. destruct (str_leb token a) eqn:Hle; [|done]. apply str_leb_le in Hle.
  destruct (lp_continuation_token p) as [t|].
  - destruct (str_leb t a) eqn:Hta; [apply str_leb_le in Hle; congruence|].
    assert (str_le token t) as Htt; [|apply str_leb_le in Htt; congruence].
    etrans; [exact Hle|]. apply str_lt_le, str_not_le. rewrite <- str_leb_le. congruence.
  - apply str_leb_le in Hle. congruence.
Qed.

Lemma items_past_bound p i : request_ok p →
  i ∈ items_from entry_of p (start_bound p) None keys → at_or_before (item_name i) (start_bound p) = false.
Proof.
  intros Hp. rewrite items_bound by done. destruct (start_bound p) as [s|]; [|done].
  rewrite list_elem_of_filter. intros [Hlt _]. cbn. apply not_true_iff_false.
  rewrite str_leb_le. by apply str_not_le.
Qed.

(** One page, and what the next request still has to list. *)
Lemma page_step p I : request_ok p → (0 < lp_max_keys p)%N →
  I = items_from entry_of p (start_bound p) None keys →
  let n := N.to_nat (lp_max_keys p) in
  match lr_next_continuation_token (page p) with
  | None => length I ≤ n
  | Some token =>
      n < length I ∧ items_from entry_of (resume p token) (start_bound (resume p token)) None keys = drop n I
  end.
Proof.
  intros Hp Hmax HI n. unfold page, cut. rewrite <- HI. fold n. cbn [lr_next_continuation_token].
  destruct (N.ltb_spec (lp_max_keys p) (N.of_nat (length I))) as [Hlt|Hge]; [|lia].
  assert (n < length I) as Hn by lia. assert (0 < n) as Hn0 by lia.
  destruct (last (take n I)) as [x|] eqn:Hx.
  2: { apply last_None in Hx. apply (f_equal length) in Hx. rewrite length_take in Hx. cbn in Hx. lia. }
  change (item_name <$> Some x) with (Some (item_name x)). cbv iota beta.
  split; [done|]. apply last_Some in Hx as [l Hl].
  assert (I = l ++ x :: drop n I) as Hsplit.
  { rewrite <- (take_drop n I) at 1. rewrite Hl. by rewrite <- app_assoc. }
  assert (x ∈ I) as Hin by (rewrite Hsplit; set_solver).
  rewrite items_from_resume, resume_bound by (apply items_past_bound; [done|by rewrite <- HI]).
  rewrite items_from_filter by done.
  assert (filter (λ i, str_lt (item_name x) (item_name i)) (items_from entry_of p None None keys)
    = filter (λ i, str_lt (item_name x) (item_name i)) I) as ->.
  { rewrite HI, items_bound by done. unfold items. destruct (start_bound p) as [s|] eqn:Hs; [|done].
    rewrite list_filter_filter_l; [done|]. intros i Hi.
    rewrite HI, <- Hs in Hin. apply items_past_bound in Hin; [|done]. rewrite Hs in Hin. cbn in Hin.
    eapply str_lt_trans; [|exact Hi]. apply str_not_le. rewrite <- str_leb_le. congruence. }
  rewrite Hsplit at 1. apply sorted_filter_after. rewrite <- Hsplit, HI. by apply items_from_sorted.
Qed.

Lemma pages_fuel fuel p :
  request_ok p → (0 < lp_max_keys p)%N →
  let all := items_from entry_of p (start_bound p) None keys in
  length all < fuel →
  concat (lr_objects <$> pages fuel p) = objects_of all
  ∧ concat (lr_common_prefixes <$> pages fuel p) = prefixes_of all
  ∧ ∃ full final, pages fuel p = full ++ [final] ∧ lr_is_truncated final = false
      ∧ Forall (λ r, lr_is_truncated r = true
          ∧ N.of_nat (length (lr_objects r) + length (lr_common_prefixes r)) = lp_max_keys p) full.
Proof.
  revert p. induction fuel as [|fuel IH]; intros p Hp Hmax I Hfuel; [lia|].
  cbn [pages]. pose proof (page_step p I Hp Hmax eq_refl) as Hstep. cbn zeta in Hstep.
  set (n := N.to_nat (lp_max_keys p)) in *.
  assert (lr_objects (page p) = objects_of (take n I) ∧ lr_common_prefixes (page p) = prefixes_of (take n I)
    ∧ lr_is_truncated (page p) = (lp_max_keys p <? N.of_nat (length I))%N) as (Ho & Hc & Ht) by done.
  destruct (lr_next_continuation_token (page p)) as [token|].
  - destruct Hstep as [Hn Hrest]. destruct (IH (resume p token) Hp Hmax) as (I1 & I2 & full & final & I3 & I4 & I5).
    { rewrite Hrest, length_drop. lia. }
    rewrite Hrest in I1, I2. rewrite !fmap_cons. cbn [concat]. rewrite Ho, Hc, I1, I2.
    rewrite <- objects_of_app, <- prefixes_of_app, take_drop. split_and!; [done..|].
    exists (page p :: full), final. rewrite I3. split_and!; [done..|]. constructor; [|done].
    rewrite Ht, Ho, Hc, objects_prefixes_length, length_take. split; [apply N.ltb_lt; lia|lia].
  - rewrite !fmap_cons. cbn [concat fmap list_fmap]. rewrite !app_nil_r, Ho, Hc, take_ge by lia.
    split_and!; [done..|]. exists [], (page p). split_and!; [done| |constructor].
    rewrite Ht. apply N.ltb_ge. lia.
Qed.

(** Following the continuation tokens goes through the listing exactly once: with a
    positive page size the walk ends, each page but the last is full and says
    it is truncated, the last says it is not, and put together the pages hold
    the objects and common prefixes of the whole listing past the start bound,
    in strictly ascending order without repetition. *)
Theorem pages_cover p :
  request_ok p → (0 < lp_max_keys p)%N →
  let all := items_from entry_of p (start_bound p) None keys in
  let ps := pages (S (length all)) p in
  concat (lr_objects <$> ps) = objects_of all
  ∧ concat (lr_common_prefixes <$> ps) = prefixes_of all
  ∧ StronglySorted str_lt (item_name <$> all)
  ∧ ∃ full final, ps = full ++ [final] ∧ lr_is_truncated final = false
      ∧ Forall (λ r, lr_is_truncated r = true
          ∧ N.of_nat (length (lr_objects r) + length (lr_common_prefixes r)) = lp_max_keys p) full.
Proof.
  intros Hp Hmax all. cbn zeta.
  destruct (pages_fuel (S (length all)) p Hp Hmax (Nat.lt_succ_diag_r _)) as (H1 & H2 & H3).
  split_and!; [done|done|by apply items_from_sorted|done].
Qed.
End pages.

(** ** The theorem at work *)

Definition sample_keys : list str := [b#"a"; b#"dir-x"; b#"dir/one"; b#"dir/two"; b#"z"].
Definition sample_params : ListParams := mkListParams None (Some (b#"/")) None None 2.
Definition sample_entry_of (key : str) : option VersionEntry := Some (Meta.sample_entry (b#"null")).

Lemma sample_keys_ok : keys_ok sample_keys.
Proof.
  split; [|refine (bool_decide_unpack _ _); by vm_compute].
  repeat (constructor; [|refine (bool_decide_unpack _ _); by vm_compute]). constructor.
Qed.

Lemma sample_request_ok : request_ok sample_params.
Proof. split; [by vm_compute|]. by intros d [= <-]. Qed.

Lemma pages_cover_witness :
  concat (lr_common_prefixes <$> pages sample_entry_of sample_keys 5 sample_params) = [b#"dir/"].
Proof.
  destruct (pages_cover sample_entry_of sample_keys sample_keys_ok sample_params sample_request_ok
    ltac:(done)) as (_ & H & _).
  etransitivity; [|etransitivity; [exact H|]]; by vm_compute.
Defined.
