(* ===== verification/FsEngine.v ===== *)
(** * The engine: [crates/engine/src/fs_engine.rs]

    The operations of [FsEngine] on the disk, one definition per method and
    helper, in the order of the source: opening a data directory, the bucket
    operations, [put_object], [get_object], [head_object], [delete_object] and
    [list_objects_v2].  What they guarantee is proved in the files that follow.

    The operations are programs that take and release locks by name.  The files
    up to [FsSamples] run one by itself, with the lock tables a part of the state;
    [Locks] has the tables' own protocol, and from [Conc] on the same programs run
    in parallel. *)

From S2P Require Import Prelude RustStr RustPath Paths Checksum EngineError Fs FsFacts Atomic Meta Layer Walk FsBase Listing.

(** The [md-5] crate. *)
Class Md5Crate := {
  md5 : Type;
  md5_new : md5;
  md5_update : md5 → str → md5;
  md5_finalize : md5 → str;
}.

(** Hashing in pieces is hashing the whole. *)
Class Md5Laws (C : Md5Crate) : Prop := {
  md5_update_app s a b : md5_update (md5_update s a) b = md5_update s (a ++ b);
  md5_update_nil s : md5_update s [] = s;
}.

(** How the reads on an open file come back. *)
Class Reads := reads : nat → read_fate.

(** Run [m] with every [?] on an [io::Error]. *)
Notation "'io!' m" := (mapE from_io m) (at level 10) : aks3_scope.

Module FsEngine.

(** [struct FsEngine]; the lock tables are in the state. *)
Record t := mk { root : PathBuf }.

Section ops.
Context {E : Env} `{!HashCrates, !Md5Crate, !Reads}.
Context `{!Serde VersionManifest, !Serde BucketMeta, !Serde DiskFormat}.

(** ** Locks *)

(** [lock_bucket_shared], [lock_bucket_exclusive], [lock_key]. *)
Definition acquire {F} (l : lock) (md : mode) : M F unit := Acquire l md (ret ()).

(** The drop of a guard. *)
Definition release {F} (l : lock) (md : mode) : M F unit := Release l md (ret ()).

(** A block with a lock held, and the drop at the end of the block. *)
Definition with_lock {F A} (l : lock) (md : mode) (m : M F A) : M F A :=
  acquire l md;;;
  r <- attempt m;;
  release l md;;;
  lift r.

Lemma run_with_lock {F A} l md (m : M F A) w :
  run (with_lock l md m) w =
  match run m (take_entry l w) with
  | (Some r, w') => (Some r, drop_entry l w')
  | (None, w') => (None, w')
  end.
Proof.
  unfold with_lock. rewrite run_bind. cbn. rewrite run_bind, run_attempt.
  by destruct (run m _) as [[r|] w'].
Qed.

(** ** Paths *)

Definition tmp_dir (e : t) : PathBuf := push (push (root e) AKS3_DIR) TMP_DIR.
Definition buckets_dir (e : t) : PathBuf := push (root e) BUCKETS_DIR.
Definition bucket_dir (e : t) (b : str) : PathBuf := push (buckets_dir e) b.

Definition checked_bucket_dir (e : t) (b : str) : result PathBuf EngineError :=
  if is_valid_bucket_name b then Ok (bucket_dir e b) else Err InvalidBucketName.

(** [existing_bucket_dir]. *)
Definition existing_bucket_dir (e : t) (b : str) : M EngineError PathBuf :=
  dir <- lift (checked_bucket_dir e b);;
  r <- attempt (metadata dir);;
  match r with
  | Ok n => if is_dir_node n then ret dir else throw NoSuchBucket
  | Err err => if bool_decide (kind err = KNotFound) then throw NoSuchBucket else throw (from_io err)
  end.

(** [object_dir]. *)
Definition object_dir (bucket_dir : PathBuf) (key : str) : PathBuf :=
  join_path (push bucket_dir OBJECTS_DIR) (key_to_rel_path key).

(** ** Helpers *)

(** [now_epoch_ms]. *)
Definition now_epoch_ms {F} : M F N := ns <- now;; ret (epoch_ms ns).

(** [bucket_created_ms]. *)
Definition bucket_created_ms {F} (dir : PathBuf) : M F N :=
  r <- attempt (read (push dir BUCKET_META_FILE));;
  match (match r with Ok bytes => ok (from_slice (A:=BucketMeta) bytes) | Err _ => None end) with
  | Some meta => ret (created_epoch_ms meta)
  | None =>
      m <- attempt (metadata dir);;
      ret (match m with
           | Ok _ => match dir_mtime (resolve dir) with Some ns => epoch_ms ns | None => 0%N end
           | Err _ => 0%N
           end)
  end.

(** [has_any_entry]. *)
Definition has_any_entry (dir : PathBuf) : M io_error bool :=
  r <- attempt (read_dir dir);;
  match r with
  | Ok names => ret (negb (bool_decide (names = [])))
  | Err e => if bool_decide (kind e = KNotFound) then ret false else throw e
  end.

(** [fsync_dir]. *)
Definition fsync_dir (dir : PathBuf) : M io_error unit := sync_dir dir.

(** [live_version]. *)
Definition live_version (dir : PathBuf) : M EngineError VersionEntry :=
  m <- io! (load_manifest (push dir META_FILE));;
  manifest <- lift (ok_or m NoSuchKey);;
  match latest manifest with
  | Some e => if delete_marker e then throw NoSuchKey else ret e
  | None => throw NoSuchKey
  end.

(** [listable_version]. *)
Definition listable_version (dir : PathBuf) : M EngineError (option VersionEntry) :=
  r <- attempt (live_version dir);;
  match r with
  | Ok entry => ret (Some entry)
  | Err NoSuchKey => ret None
  | Err e => throw e
  end.

(** [remove_if_present]. *)
Definition remove_if_present (path : PathBuf) : M io_error unit :=
  r <- attempt (remove_file path);;
  match r with
  | Ok _ => ret ()
  | Err e => if bool_decide (kind e = KNotFound) then ret () else throw e
  end.

(** [prune_empty_dirs]: every step goes to a shorter path. *)
Fixpoint prune_loop {F} (fuel : nat) (current stop : PathBuf) : M F unit :=
  match fuel with
  | O => ret ()
  | S fuel' =>
      if negb (bool_decide (current = stop)) && path_starts_with current stop then
        r <- attempt (remove_dir current);;
        match r with
        | Err _ => ret ()
        | Ok _ =>
            match parent current with
            | None => ret ()
            | Some p => prune_loop fuel' p stop
            end
        end
      else ret ()
  end.

Definition prune_empty_dirs {F} (dir stop : PathBuf) : M F unit :=
  prune_loop (S (length dir)) dir stop.

(** [deepest_existing]. *)
Fixpoint deepest_loop {F} (fuel : nat) (current stop : PathBuf) : M F (option PathBuf) :=
  match fuel with
  | O => ret None
  | S fuel' =>
      r <- attempt (try_exists current);;
      if (match r with Ok b => b | Err _ => false end : bool) then ret (Some current)
      else if bool_decide (current = stop) then ret None
      else
        match parent current with
        | None => ret None
        | Some p => if path_starts_with p stop then deepest_loop fuel' p stop else ret None
        end
  end.

Definition deepest_existing {F} (dir stop : PathBuf) : M F (option PathBuf) :=
  deepest_loop (S (length dir)) dir stop.

(** ** Opening a data directory *)

(** The loop of [sweep_tmp]. *)
Fixpoint sweep_entries (tmp : PathBuf) (names : list str) : M io_error unit :=
  match names with
  | [] => ret ()
  | name :: rest =>
      let path := tmp ++ [Normal name] in
      ft <- attempt (metadata path);;
      _ <- attempt (if (match ft with Ok n => is_dir_node n | Err _ => false end : bool)
                    then remove_dir_all path else remove_file path);;
      sweep_entries tmp rest
  end.

(** [sweep_tmp]. *)
Definition sweep_tmp (e : t) : M io_error unit :=
  names <- read_dir (tmp_dir e);;
  sweep_entries (tmp_dir e) names.

(** [init_format]. *)
Definition init_format (e : t) : M io_error unit :=
  let path := push (push (root e) AKS3_DIR) FORMAT_FILE in
  r <- attempt (read path);;
  match r with
  | Err err =>
      if bool_decide (kind err = KNotFound)
      then write_json_atomic (tmp_dir e) path (to_vec (mkDiskFormat DISK_FORMAT))
      else throw err
  | Ok bytes =>
      on_disk <- lift (map_err (io_error_new KInvalidData) (from_slice (A:=DiskFormat) bytes));;
      if (DISK_FORMAT <? df_format on_disk)%N
      then throw (io_error_new KInvalidData BoxedOther)
      else ret ()
  end.

(** [FsEngine::open]. *)
Definition open (root : PathBuf) : M EngineError t :=
  let engine := mk root in
  io! (create_dir_all (tmp_dir engine));;;
  io! (create_dir_all (buckets_dir engine));;;
  io! (sweep_tmp engine);;;
  io! (init_format engine);;;
  ret engine.

(** ** Buckets *)

(** [create_bucket]. *)
Definition create_bucket (e : t) (bucket : str) : M EngineError unit :=
  dir <- lift (checked_bucket_dir e bucket);;
  with_lock (BucketLock bucket) Exclusive (
    r <- attempt (create_dir dir);;
    match r with
    | Err err =>
        if bool_decide (kind err = KAlreadyExists) then throw BucketAlreadyExists
        else throw (from_io err)
    | Ok _ =>
        ms <- now_epoch_ms;;
        w <- attempt (write_json_atomic (tmp_dir e) (push dir BUCKET_META_FILE) (to_vec (mkBucketMeta ms)));;
        match w with
        | Err err => _ <- attempt (remove_dir_all dir);; throw (from_io err)
        | Ok _ => io! (fsync_dir (buckets_dir e));;; ret ()
        end
    end).

(** [delete_bucket]. *)
Definition delete_bucket (e : t) (bucket : str) : M EngineError unit :=
  dir <- lift (checked_bucket_dir e bucket);;
  with_lock (BucketLock bucket) Exclusive (
    there <- io! (try_exists dir);;
    if negb there then throw NoSuchBucket
    else
      any <- io! (has_any_entry (push dir OBJECTS_DIR));;
      if (any : bool) then throw BucketNotEmpty
      else
        r <- attempt (remove_dir_all dir);;
        match r with
        | Err err =>
            if bool_decide (kind err = KNotFound) then throw NoSuchBucket else throw (from_io err)
        | Ok _ => io! (fsync_dir (buckets_dir e));;; ret ()
        end).

(** [bucket_exists]. *)
Definition bucket_exists (e : t) (bucket : str) : M EngineError bool :=
  dir <- lift (checked_bucket_dir e bucket);;
  r <- attempt (metadata dir);;
  match r with
  | Ok n => ret (is_dir_node n)
  | Err err => if bool_decide (kind err = KNotFound) then ret false else throw (from_io err)
  end.

(** The loop of [list_buckets]. *)
Fixpoint collect_buckets {F} (dir : PathBuf) (names : list str) : M F (list BucketInfo) :=
  match names with
  | [] => ret []
  | name :: rest =>
      if negb (utf8b name) || negb (is_valid_bucket_name name) then collect_buckets dir rest
      else
        let path := dir ++ [Normal name] in
        ft <- attempt (metadata path);;
        if (match ft with Ok n => is_dir_node n | Err _ => false end : bool) then
          ms <- bucket_created_ms path;;
          out <- collect_buckets dir rest;;
          ret (mkBucketInfo name ms :: out)
        else collect_buckets dir rest
  end.

(** [list_buckets]. *)
Definition list_buckets (e : t) : M EngineError (list BucketInfo) :=
  names <- io! (read_dir (buckets_dir e));;
  out <- collect_buckets (buckets_dir e) names;;
  ret (sort_by (λ a b, str_leb (bi_name a) (bi_name b)) out).

(** ** Objects *)

(** The running hashes and the size of an upload. *)
Record upload := mkUpload {
  up_md5 : md5;
  up_checksummer : option Checksummer;
  up_size : N;
}.

Definition new_upload (opts : PutOpts) : upload :=
  mkUpload md5_new (hasher <$> po_checksum_algorithm opts) 0.

Definition hash_chunk (u : upload) (chunk : str) : upload :=
  mkUpload (md5_update (up_md5 u) chunk) ((λ c, update c chunk) <$> up_checksummer u)
    (u64_add (up_size u) (N.of_nat (length chunk))).

(** The loop of [put_object] that streams the body into the staged file. *)
Fixpoint stage_body (staged : StagedFile) (body : BoxByteStream) (u : upload) : M EngineError upload :=
  match body with
  | [] => ret u
  | Err e :: _ => throw (from_io e)
  | Ok chunk :: body' =>
      io! (write_all staged chunk);;;
      stage_body staged body' (hash_chunk u chunk)
  end.

(** The entry [put_object] records. *)
Definition new_entry (opts : PutOpts) (u : upload) (mtime : N) : VersionEntry :=
  mkVersionEntry NULL_VERSION_ID (hex_lower (md5_finalize (up_md5 u))) (up_size u)
    (match po_content_type opts with
     | Some c => if bool_decide (c = []) then DEFAULT_CONTENT_TYPE else c
     | None => DEFAULT_CONTENT_TYPE
     end)
    (po_user_metadata opts) mtime false
    (match po_checksum_algorithm opts, up_checksummer u with
     | Some algorithm, Some c => Some (mkStoredChecksum algorithm (finalize_base64 c))
     | _, _ => None
     end).

(** The part of [put_object] that publishes, under the locks. *)
Definition publish_object (e : t) (bucket_dir : PathBuf) (key : str) (staged : StagedFile)
    (entry : VersionEntry) : M EngineError ObjectInfo :=
  let dir := object_dir bucket_dir key in
  io! (commit staged (push dir (data_file_name NULL_VERSION_ID)));;;
  m <- io! (load_manifest (push dir META_FILE));;
  let manifest := upsert (default new_manifest m) entry in
  io! (store_manifest (tmp_dir e) (push dir META_FILE) manifest);;;
  ret (object_info key entry).

(** [put_object]. *)
Definition put_object (e : t) (bucket key : str) (body : BoxByteStream) (opts : PutOpts)
    : M EngineError ObjectInfo :=
  bucket_dir <- existing_bucket_dir e bucket;;
  staged <- io! (create (tmp_dir e));;
  u <- or_drop staged (stage_body staged body (new_upload opts));;
  mtime <- now_epoch_ms;;
  let entry := new_entry opts u mtime in
  r <- with_lock (BucketLock bucket) Shared (with_lock (KeyLock bucket key) Exclusive (
         r <- attempt (existing_bucket_dir e bucket);;
         match r with
         | Err err => ret (Err err)
         | Ok _ => info <- publish_object e bucket_dir key staged entry;; ret (Ok info)
         end));;
  match r with
  | Err err => drop_staged staged;;; throw err
  | Ok info => ret info
  end.

(** [fs::File::open] of a file to read, and [seek] on it. *)
Definition open_file (p : PathBuf) : M io_error node := metadata p.
Definition seek (offset : N) : M io_error unit := atomic (λ d, (Ok (), d)).

(** The stream over an open file; reading a directory fails. *)
Definition stream_from (file : node) (offset len : N) : BoxByteStream :=
  match file with
  | NFile data _ => file_stream reads (drop (N.to_nat offset) data) len
  | NDir => file_stream (λ _, ReadFails (os_error KIsADirectory)) [] len
  end.

(** [get_object]. *)
Definition get_object (e : t) (bucket key : str) (range : option ByteRange)
    : M EngineError (ObjectInfo * N * N * BoxByteStream) :=
  bucket_dir <- existing_bucket_dir e bucket;;
  let dir := object_dir bucket_dir key in
  entry <- live_version dir;;
  span <- lift (resolve_range range (size entry));;
  let '(offset, len) := span in
  r <- attempt (open_file (push dir (data_file_name (version_id entry))));;
  match r with
  | Err err => if bool_decide (kind err = KNotFound) then throw NoSuchKey else throw (from_io err)
  | Ok file =>
      (if (0 <? offset)%N then io! (seek offset) else ret ());;;
      ret (object_info key entry, offset, len, stream_from file offset len)
  end.

(** [head_object]. *)
Definition head_object (e : t) (bucket key : str) : M EngineError ObjectInfo :=
  bucket_dir <- existing_bucket_dir e bucket;;
  entry <- live_version (object_dir bucket_dir key);;
  ret (object_info key entry).

(** The body of [delete_object] under the locks. *)
Definition remove_object (bucket_dir : PathBuf) (key : str) : M EngineError unit :=
  let dir := object_dir bucket_dir key in
  io! (remove_if_present (push dir META_FILE));;;
  io! (remove_if_present (push dir (data_file_name NULL_VERSION_ID)));;;
  let objects_dir := push bucket_dir OBJECTS_DIR in
  prune_empty_dirs dir objects_dir;;;
  deepest <- deepest_existing dir objects_dir;;
  match deepest with
  | None => ret ()
  | Some deepest =>
      r <- attempt (fsync_dir deepest);;
      match r with
      | Ok _ => ret ()
      | Err e => if bool_decide (kind e = KNotFound) then ret () else throw (from_io e)
      end
  end.

(** [delete_object]. *)
Definition delete_object (e : t) (bucket key : str) : M EngineError unit :=
  bucket_dir <- existing_bucket_dir e bucket;;
  with_lock (BucketLock bucket) Shared (with_lock (KeyLock bucket key) Exclusive (remove_object bucket_dir key)).

(** [list_objects_v2]. *)
Definition list_objects_v2 (e : t) (bucket : str) (p : ListParams) : M EngineError ListResult :=
  lift (checked_bucket_dir e bucket);;;
  with_lock (BucketLock bucket) Shared (
    bucket_dir <- existing_bucket_dir e bucket;;
    if (lp_max_keys p =? 0)%N then ret empty_list_result
    else
      keys <- io! (blocking (sorted_keys (push bucket_dir OBJECTS_DIR)));;
      list_page (λ key, listable_version (object_dir bucket_dir key)) p keys).
End ops.
End FsEngine.

(** [impl ObjectLayer for FsEngine]. *)
#[global] Instance fs_engine_layer {E : Env} `{!HashCrates, !Md5Crate, !Reads}
    `{!Serde VersionManifest, !Serde BucketMeta, !Serde DiskFormat} (e : FsEngine.t) : ObjectLayer := {|
  create_bucket := FsEngine.create_bucket e;
  delete_bucket := FsEngine.delete_bucket e;
  bucket_exists := FsEngine.bucket_exists e;
  list_buckets := FsEngine.list_buckets e;
  put_object := FsEngine.put_object e;
  get_object := FsEngine.get_object e;
  head_object := FsEngine.head_object e;
  delete_object := FsEngine.delete_object e;
  list_objects_v2 := FsEngine.list_objects_v2 e;
|}.
