(* ===== verification/Tidy.v ===== *)
(** * Every request answers and lets go of its locks

    A program over the file system is tidy if it only fails to answer when the
    process is killed, and if the lock tables are afterwards what they were.
    Every operation of the engine is. *)

From S2P Require Import Prelude RustStr RustPath Paths Checksum EngineError Fs FsFacts Atomic Meta Layer Walk FsBase Listing FsEngine.

Create HintDb tidy.

Section tidy.
Context {E : Env}.

(** Every entry of the tables has a holder. *)
Definition tables_ok (w : world) : Prop := map_Forall (λ _ n, 0 < n) (locks w).

Definition tidy {F A} (m : M F A) : Prop :=
  ∀ w, match m w with
       | (Some _, w') => tables_ok w → locks w' = locks w
       | (None, _) => halts
       end.

Lemma tidy_ret {F A} (a : A) : tidy (F:=F) (ret a).
Proof. by intros w. Qed.
Lemma tidy_throw {F A} (e : F) : tidy (A:=A) (throw e).
Proof. by intros w. Qed.
Lemma tidy_lift {F A} (r : result A F) : tidy (lift r).
Proof. by intros w. Qed.
Lemma tidy_now {F} : tidy (F:=F) now.
Proof. by intros w. Qed.
Lemma tidy_new_uuid {F} : tidy (F:=F) new_uuid.
Proof. by intros w. Qed.

Lemma tidy_bind {F A B} (m : M F A) (k : A → M F B) : tidy m → (∀ a, tidy (k a)) → tidy (bind m k).
Proof.
  intros Hm Hk w. specialize (Hm w). rewrite run_bind. destruct (m w) as [[[a|e]|] w']; [|done..].
  specialize (Hk a w'). destruct (k a w') as [[r|] w'']; [|done]. intros Hw.
  rewrite Hk; [auto|]. unfold tables_ok. by rewrite Hm.
Qed.

Lemma tidy_attempt {F G A} (m : M F A) : tidy m → tidy (F:=G) (attempt m).
Proof. intros Hm w. specialize (Hm w). rewrite run_attempt. by destruct (m w) as [[r|] w']. Qed.

Lemma tidy_mapE {F G A} (f : F → G) (m : M F A) : tidy m → tidy (mapE f m).
Proof. intros Hm w. specialize (Hm w). rewrite run_mapE. by destruct (m w) as [[r|] w']. Qed.

Lemma tidy_blocking {F A} (m : M F A) : tidy m → tidy (blocking m).
Proof. intros Hm w. rewrite run_blocking. apply Hm. Qed.

Lemma tidy_bound {F} : tidy (F:=F) bound.
Proof. by intros w. Qed.

Lemma tidy_syscall {A} (op : disk → result A io_error * disk) part : tidy (syscall op part).
Proof.
  intros w. cbn. destruct (fate_of (ticks w)) eqn:Hf; [|done|by exists (ticks w)].
  by destruct (op (wdisk w)).
Qed.

Lemma tidy_atomic {A} (op : disk → result A io_error * disk) : tidy (atomic op).
Proof. apply tidy_syscall. Qed.

(** A lock taken and released leaves the table as it was. *)
Lemma tidy_with_lock {F A} l md (m : M F A) : tidy m → tidy (FsEngine.with_lock l md m).
Proof.
  intros Hm w. specialize (Hm (take_entry l w)). rewrite FsEngine.run_with_lock.
  destruct (m _) as [[r|] w']; [|done]. intros Hw.
  - cbn in *. rewrite Hm, lookup_insert_eq by (apply map_Forall_insert_2; [lia|done]).
    destruct (locks w !! l) as [n|] eqn:Hl; cbn.
    + specialize (Hw l n Hl). rewrite bool_decide_false by (cbn in Hw; lia).
      rewrite insert_insert_eq. by apply insert_id.
    + by apply delete_insert_id.
Qed.
End tidy.

#[export] Hint Resolve tidy_ret tidy_throw tidy_lift tidy_now tidy_new_uuid tidy_bound tidy_syscall tidy_atomic : tidy.

(** Walk through the structure of a program. *)
Ltac tidy_step :=
  first
  [ solve [eauto with tidy]
  | apply tidy_with_lock
  | apply tidy_bind; [|intro]
  | apply tidy_attempt
  | apply tidy_mapE
  | apply tidy_blocking
  | case_match ].
Ltac tidy := intros; cbn zeta; repeat tidy_step.

Section programs.
Context {E : Env}.

Lemma tidy_metadata p : tidy (metadata p).
Proof. unfold metadata. tidy. Qed.
Lemma tidy_is_dir {F} p : tidy (F:=F) (is_dir p).
Proof. unfold is_dir, metadata. tidy. Qed.
Lemma tidy_try_exists p : tidy (try_exists p).
Proof. unfold try_exists, metadata. tidy. Qed.
Lemma tidy_create_dir p : tidy (create_dir p).
Proof. unfold create_dir. tidy. Qed.
Lemma tidy_create_dir_or_present p : tidy (create_dir_or_present p).
Proof. unfold create_dir_or_present, create_dir, is_dir, metadata. tidy. Qed.
Lemma tidy_read_dir p : tidy (read_dir p).
Proof. unfold read_dir. tidy. Qed.
Lemma tidy_read p : tidy (read p).
Proof. unfold read. tidy. Qed.
Lemma tidy_open_new p : tidy (open_new p).
Proof. unfold open_new. tidy. Qed.
Lemma tidy_append p b : tidy (append p b).
Proof. unfold append. tidy. Qed.
Lemma tidy_flush p : tidy (flush p).
Proof. unfold flush. tidy. Qed.
Lemma tidy_sync_file p : tidy (sync_file p).
Proof. unfold sync_file. tidy. Qed.
Lemma tidy_rename p q : tidy (rename p q).
Proof. unfold rename. tidy. Qed.
Lemma tidy_remove_file p : tidy (remove_file p).
Proof. unfold remove_file. tidy. Qed.
Lemma tidy_remove_dir p : tidy (remove_dir p).
Proof. unfold remove_dir. tidy. Qed.
Lemma tidy_sync_dir p : tidy (sync_dir p).
Proof. unfold sync_dir, metadata. tidy. Qed.
End programs.

#[export] Hint Resolve tidy_metadata tidy_is_dir tidy_try_exists tidy_create_dir tidy_create_dir_or_present
  tidy_read_dir tidy_read tidy_open_new tidy_append tidy_flush tidy_sync_file tidy_rename tidy_remove_file
  tidy_remove_dir tidy_sync_dir : tidy.

Section more_programs.
Context {E : Env}.

Lemma tidy_create_dir_all p : tidy (create_dir_all p).
Proof.
  unfold create_dir_all. apply tidy_blocking. generalize (length p) as n. intros n. revert p.
  induction n as [|n IH]; intros p; destruct p as [|c p]; cbn [create_dir_all_fuel]; tidy.
Qed.

Lemma tidy_unlink_all qs : tidy (unlink_all qs).
Proof. induction qs as [|q qs IH]; cbn [unlink_all]; unfold unlink; tidy. Qed.

Lemma tidy_remove_dir_all p : tidy (remove_dir_all p).
Proof. pose proof tidy_unlink_all. unfold remove_dir_all, snapshot. tidy. Qed.

Lemma tidy_create p : tidy (create p).
Proof. unfold create. tidy. Qed.
Lemma tidy_write_all st b : tidy (write_all st b).
Proof. unfold write_all. tidy. Qed.
Lemma tidy_drop_staged {F} st : tidy (F:=F) (drop_staged st).
Proof. unfold drop_staged. tidy. Qed.
Lemma tidy_or_drop {F A} st (m : M F A) : tidy m → tidy (or_drop st m).
Proof. pose proof (tidy_drop_staged (F:=F)). unfold or_drop. tidy. Qed.
Lemma tidy_sync_chain {F} l : tidy (F:=F) (sync_chain l).
Proof. induction l as [|a l IH]; cbn [sync_chain]; tidy. Qed.
Lemma tidy_sync_dirs l : tidy (sync_dirs l).
Proof. induction l as [|a l IH]; cbn [sync_dirs]; tidy. Qed.
End more_programs.

#[export] Hint Resolve tidy_create_dir_all tidy_remove_dir_all tidy_create tidy_write_all tidy_drop_staged
  tidy_or_drop tidy_sync_chain tidy_sync_dirs : tidy.

Section engine.
Context {E : Env} {HS : HashCrates} {MD : Md5Crate} {RD : Reads}.
Context `{!Serde VersionManifest, !Serde BucketMeta, !Serde DiskFormat}.

Lemma tidy_commit st p : tidy (commit st p).
Proof.
  unfold commit, publish, dirs_to_sync. apply tidy_bind; [|intros; apply tidy_or_drop; tidy].
  apply tidy_or_drop. tidy.
Qed.

Lemma tidy_write_json_atomic t p v : tidy (write_json_atomic t p v).
Proof. pose proof tidy_commit. unfold write_json_atomic. tidy. Qed.

Lemma tidy_load_manifest p : tidy (load_manifest p).
Proof. unfold load_manifest. tidy. Qed.

Lemma tidy_live_version p : tidy (FsEngine.live_version p).
Proof. pose proof tidy_load_manifest. unfold FsEngine.live_version. tidy. Qed.

Lemma tidy_listable_version p : tidy (FsEngine.listable_version p).
Proof. pose proof tidy_live_version. unfold FsEngine.listable_version. tidy. Qed.

Lemma tidy_existing_bucket_dir e b : tidy (FsEngine.existing_bucket_dir e b).
Proof. unfold FsEngine.existing_bucket_dir. tidy. Qed.

Lemma tidy_stage_body st body u : tidy (FsEngine.stage_body st body u).
Proof.
  revert u. induction body as [|[c|e] body IH]; intros u; cbn [FsEngine.stage_body]; tidy.
Qed.

Lemma tidy_put_object e b k body opts : tidy (FsEngine.put_object e b k body opts).
Proof.
  pose proof tidy_existing_bucket_dir. pose proof tidy_stage_body. pose proof tidy_commit.
  pose proof tidy_load_manifest. pose proof tidy_write_json_atomic.
  unfold FsEngine.put_object, FsEngine.now_epoch_ms, FsEngine.publish_object, store_manifest. tidy.
Qed.

Lemma tidy_get_object e b k r : tidy (FsEngine.get_object e b k r).
Proof.
  pose proof tidy_existing_bucket_dir. pose proof tidy_live_version.
  unfold FsEngine.get_object, FsEngine.open_file, FsEngine.seek. tidy.
Qed.

Lemma tidy_head_object e b k : tidy (FsEngine.head_object e b k).
Proof.
  pose proof tidy_existing_bucket_dir. pose proof tidy_live_version. unfold FsEngine.head_object. tidy.
Qed.

Lemma tidy_delete_object e b k : tidy (FsEngine.delete_object e b k).
Proof.
  pose proof tidy_existing_bucket_dir.
  assert (∀ p, tidy (FsEngine.remove_if_present p)) by (unfold FsEngine.remove_if_present; tidy).
  assert (∀ n (p q : PathBuf), tidy (F:=EngineError) (FsEngine.prune_loop n p q)).
  { induction n; cbn [FsEngine.prune_loop]; tidy. }
  assert (∀ n (p q : PathBuf), tidy (F:=EngineError) (FsEngine.deepest_loop n p q)).
  { induction n; cbn [FsEngine.deepest_loop]; tidy. }
  unfold FsEngine.delete_object, FsEngine.remove_object, FsEngine.prune_empty_dirs,
    FsEngine.deepest_existing, FsEngine.fsync_dir. tidy.
Qed.

Lemma tidy_sorted_keys p : tidy (sorted_keys p).
Proof.
  assert (∀ p ns, tidy (scan_names p ns)) by (intros q; induction ns; cbn [scan_names]; tidy).
  assert (∀ n st, tidy (walk_loop n st)) as Hloop.
  { induction n; intros [|[? ?] st]; cbn [walk_loop]; unfold read_object_dir; tidy. }
  unfold sorted_keys. tidy.
Qed.

Lemma tidy_list_objects_v2 e b p : tidy (FsEngine.list_objects_v2 e b p).
Proof.
  pose proof tidy_existing_bucket_dir. pose proof tidy_sorted_keys. pose proof tidy_listable_version.
  assert (∀ look, (∀ k, tidy (look k)) → ∀ ks out, tidy (list_loop look p ks out)).
  { intros look Hl. induction ks as [|key ks IH]; intros out; cbn [list_loop]; tidy. }
  unfold FsEngine.list_objects_v2, list_page. tidy.
Qed.

Lemma tidy_create_bucket e b : tidy (FsEngine.create_bucket e b).
Proof.
  pose proof tidy_write_json_atomic.
  unfold FsEngine.create_bucket, FsEngine.now_epoch_ms, FsEngine.fsync_dir. tidy.
Qed.

Lemma tidy_delete_bucket e b : tidy (FsEngine.delete_bucket e b).
Proof. unfold FsEngine.delete_bucket, FsEngine.has_any_entry, FsEngine.fsync_dir. tidy. Qed.

Lemma tidy_bucket_exists e b : tidy (FsEngine.bucket_exists e b).
Proof. unfold FsEngine.bucket_exists. tidy. Qed.

Lemma tidy_list_buckets e : tidy (FsEngine.list_buckets e).
Proof.
  assert (∀ p ns, tidy (F:=EngineError) (FsEngine.collect_buckets p ns)).
  { intros p. induction ns; cbn [FsEngine.collect_buckets]; unfold FsEngine.bucket_created_ms; tidy. }
  unfold FsEngine.list_buckets. tidy.
Qed.

(** A request to the engine, with what it answers left out. *)
Inductive request :=
  | RCreateBucket (b : str)
  | RDeleteBucket (b : str)
  | RBucketExists (b : str)
  | RListBuckets
  | RPutObject (b k : str) (body : BoxByteStream) (opts : PutOpts)
  | RGetObject (b k : str) (range : option ByteRange)
  | RHeadObject (b k : str)
  | RDeleteObject (b k : str)
  | RListObjects (b : str) (p : ListParams).

Definition serve {L : ObjectLayer} (r : request) : M EngineError unit :=
  match r with
  | RCreateBucket b => create_bucket b
  | RDeleteBucket b => delete_bucket b
  | RBucketExists b => bucket_exists b;;; ret ()
  | RListBuckets => list_buckets;;; ret ()
  | RPutObject b k body opts => put_object b k body opts;;; ret ()
  | RGetObject b k range => get_object b k range;;; ret ()
  | RHeadObject b k => head_object b k;;; ret ()
  | RDeleteObject b k => delete_object b k
  | RListObjects b p => list_objects_v2 b p;;; ret ()
  end.

(** Every request of every kind answers, with a result or an error, unless
    the process is killed, and an answered request leaves the lock tables
    exactly as it found them: no entry stays behind, so the tables are the
    size of the work in progress. *)
Theorem requests_release_locks e r w :
  tables_ok w →
  match @serve (fs_engine_layer e) r w with
  | (Some _, w') => locks w' = locks w
  | (None, _) => halts
  end.
Proof.
  intros Hw.
  pose proof tidy_create_bucket. pose proof tidy_delete_bucket. pose proof tidy_bucket_exists.
  pose proof tidy_list_buckets. pose proof tidy_put_object. pose proof tidy_get_object.
  pose proof tidy_head_object. pose proof tidy_delete_object. pose proof tidy_list_objects_v2.
  assert (tidy (@serve (fs_engine_layer e) r)) as Ht;
    [|specialize (Ht w); destruct (serve r w) as [[?|] ?]; auto].
  destruct r; cbn [serve create_bucket delete_bucket bucket_exists list_buckets put_object get_object
    head_object delete_object list_objects_v2 fs_engine_layer]; tidy.
Qed.

(** Without faults a tidy program answers. *)
Lemma tidy_answers {F A} (m : M F A) `{!NoFaults E} w w' : tidy m → m w ≠ (None, w').
Proof. intros Hm Heq. specialize (Hm w). rewrite Heq in Hm. by apply no_halts in Hm. Qed.
End engine.
