(* ===== verification/FsObject.v ===== *)
(** * What the object operations guarantee

    The objects a tree holds are read off its files; [put_object] and
    [delete_object] change the object they are about and no other, whatever
    fails and wherever the process dies, and [get_object] and [head_object]
    return what is there. *)

From S2P Require Import Prelude RustStr RustPath Paths Checksum EngineError Fs FsFacts Atomic Meta Layer Walk FsBase Listing FsEngine Tidy.

(** A data directory at [hd ++ rs]: a root, a leading [.] or nothing, then plain
    names.  It is not nested so deep that the engine's own files, and those of its
    buckets, overflow the longest path; [error.rs] names that as the one case in
    which its classification is wrong. *)
Class DataDir {E : Env} := {
  dd_head : PathBuf;
  dd_names : list str;
  dd_head_path : head_path dd_head;
  dd_room : path_len (resolve dd_head ++ dd_names) + 256 ≤ path_max;
}.

Section paths.
Context {E : Env} {D : DataDir}.

Definition engine : FsEngine.t := FsEngine.mk (dd_head ++ (Normal <$> dd_names)).

(** The absolute paths of the layout. *)
Definition root_path : apath := resolve dd_head ++ dd_names.
Definition tmp_path : apath := root_path ++ [AKS3_DIR; TMP_DIR].
Definition buckets_path : apath := root_path ++ [BUCKETS_DIR].
Definition bucket_path (b : str) : apath := buckets_path ++ [b].
Definition objects_path (b : str) : apath := bucket_path b ++ [OBJECTS_DIR].
Definition object_path (b k : str) : apath := objects_path b ++ key_names k.
Definition meta_path (b k : str) : apath := object_path b k ++ [META_FILE].
Definition data_path (b k id : str) : apath := object_path b k ++ [data_file_name id].

Lemma root_room : path_len root_path + 256 ≤ path_max.
Proof. apply dd_room. Qed.

(** The directories the engine relies on; the process does not run from inside
    the bucket tree. *)
Record layout (m : tree) : Prop := {
  lay_wf : wf m;
  lay_cwd : m !! cwd = Some NDir;
  lay_tmp : m !! tmp_path = Some NDir;
  lay_buckets : m !! buckets_path = Some NDir;
  lay_outside : ¬ buckets_path `prefix_of` cwd;
}.

Definition names_of (ns : list str) : PathBuf := dd_head ++ (Normal <$> (dd_names ++ ns)).

Lemma push_names ns n : plain_name n → push (names_of ns) n = names_of (ns ++ [n]).
Proof.
  intros Hn. unfold names_of. rewrite push_plain by done.
  by rewrite (app_assoc dd_names), (fmap_app _ (dd_names ++ ns)), app_assoc.
Qed.

Lemma resolve_names ns : resolve (names_of ns) = root_path ++ ns.
Proof. unfold names_of, root_path. by rewrite resolve_normals, app_assoc. Qed.

Lemma plain_lit n : bool_decide (plain_name n) = true → plain_name n.
Proof. apply bool_decide_eq_true. Qed.

Lemma root_names : FsEngine.root engine = names_of [].
Proof. unfold engine, names_of. by rewrite app_nil_r. Qed.

Lemma tmp_dir_names : FsEngine.tmp_dir engine = names_of [AKS3_DIR; TMP_DIR].
Proof. unfold FsEngine.tmp_dir. by rewrite root_names, !push_names by by apply plain_lit. Qed.

Lemma buckets_dir_names : FsEngine.buckets_dir engine = names_of [BUCKETS_DIR].
Proof. unfold FsEngine.buckets_dir. by rewrite root_names, push_names by by apply plain_lit. Qed.

Lemma bucket_dir_names b : is_valid_bucket_name b = true →
  FsEngine.bucket_dir engine b = names_of [BUCKETS_DIR; b].
Proof.
  intros Hb. unfold FsEngine.bucket_dir. rewrite buckets_dir_names.
  by rewrite push_names by by apply valid_bucket_plain.
Qed.

Lemma objects_dir_names b : is_valid_bucket_name b = true →
  push (FsEngine.bucket_dir engine b) OBJECTS_DIR = names_of [BUCKETS_DIR; b; OBJECTS_DIR].
Proof. intros Hb. rewrite bucket_dir_names by done. by rewrite push_names by by apply plain_lit. Qed.

Lemma object_dir_names b k : is_valid_bucket_name b = true → utf8 k →
  FsEngine.object_dir (FsEngine.bucket_dir engine b) k
  = names_of ([BUCKETS_DIR; b; OBJECTS_DIR] ++ key_names k).
Proof.
  intros Hb Hk. unfold FsEngine.object_dir. rewrite objects_dir_names by done.
  rewrite key_to_rel_path_names, join_path_normals by done.
  unfold names_of. by rewrite <- (app_assoc dd_head), <- fmap_app, <- app_assoc.
Qed.

Lemma object_file_names b k n : is_valid_bucket_name b = true → utf8 k → plain_name n →
  push (FsEngine.object_dir (FsEngine.bucket_dir engine b) k) n
  = dd_head ++ (Normal <$> ((dd_names ++ [BUCKETS_DIR; b; OBJECTS_DIR] ++ key_names k) ++ [n])).
Proof.
  intros Hb Hk Hn. rewrite object_dir_names, push_names by done.
  unfold names_of. by rewrite !app_assoc.
Qed.

Lemma object_path_eq b k : object_path b k = root_path ++ [BUCKETS_DIR; b; OBJECTS_DIR] ++ key_names k.
Proof. unfold object_path, objects_path, bucket_path, buckets_path. by rewrite <- !app_assoc. Qed.

Lemma object_path_resolve b k :
  resolve dd_head ++ dd_names ++ [BUCKETS_DIR; b; OBJECTS_DIR] ++ key_names k = object_path b k.
Proof. rewrite object_path_eq. unfold root_path. by rewrite <- !app_assoc. Qed.

(** The staging directory is elsewhere. *)
Lemma tmp_not_below ns : head ns = Some BUCKETS_DIR → ¬ tmp_path `prefix_of` root_path ++ ns.
Proof.
  unfold tmp_path. intros Hh Hp. apply prefix_app_inv in Hp. destruct ns as [|n ns]; [done|].
  injection Hh as ->. by apply prefix_cons_inv_1 in Hp.
Qed.

Lemma tmp_not_object b k n : ¬ tmp_path `prefix_of` object_path b k ++ [n].
Proof. rewrite object_path_eq, <- app_assoc. by apply tmp_not_below. Qed.

(** Different objects have different files. *)
Lemma object_path_inj b b' k k' :
  utf8 k → utf8 k' → object_path b k = object_path b' k' → b = b' ∧ k = k'.
Proof.
  rewrite !object_path_eq. intros Hk Hk' Heq. apply app_inv_head in Heq. cbn in Heq.
  injection Heq as -> Hn. split; [done|]. apply key_to_rel_path_inj; [done..|].
  by rewrite !key_to_rel_path_names, Hn by done.
Qed.

Lemma meta_not_data id : META_FILE ≠ data_file_name id.
Proof. unfold data_file_name. intros Heq. by vm_compute in Heq. Qed.

(** ** Paths that fit *)

Lemma tmp_roomy : roomy tmp_path.
Proof. unfold roomy, tmp_path. rewrite path_len_app. pose proof root_room. cbn. lia. Qed.

(** Where the data of a key's version fits, so does its manifest. *)
Lemma meta_fits b k : nameable (data_path b k NULL_VERSION_ID) → nameable (meta_path b k).
Proof. apply nameable_shorter. vm_compute. lia. Qed.

Section fits.
Context `{!EnvOk E} (m : tree) (Hlay : layout m).

Lemma buckets_fit : nameable buckets_path.
Proof. apply (wf_nameable m (lay_wf _ Hlay)). rewrite (lay_buckets _ Hlay). by eexists. Qed.

(** The directory of a bucket, and a file or directory directly in it. *)
Lemma bucket_fits b : is_valid_bucket_name b = true → nameable (bucket_path b).
Proof.
  intros (Hl & _)%valid_bucket_inv. pose proof (name_max_large (E:=E)). pose proof root_room.
  apply nameable_snoc; [apply buckets_fit| |lia]. unfold buckets_path. rewrite path_len_snoc. cbn. lia.
Qed.

Lemma bucket_child_fits b n : is_valid_bucket_name b = true → length n ≤ 100 → nameable (bucket_path b ++ [n]).
Proof.
  intros Hb Hn. pose proof (name_max_large (E:=E)). pose proof root_room.
  apply nameable_snoc; [by apply bucket_fits| |lia]. apply valid_bucket_inv in Hb as (Hl & _).
  unfold bucket_path, buckets_path. rewrite !path_len_snoc. cbn. lia.
Qed.
End fits.
End paths.

(** ** The objects on a disk *)

Section objects.
Context {E : Env} {D : DataDir} `{!Serde VersionManifest}.

Definition bucket_at (m : tree) (b : str) : Prop := m !! bucket_path b = Some NDir.

(** The version an unqualified read of the key resolves to. *)
Definition entry_at (m : tree) (b k : str) : option VersionEntry :=
  data ← file_at m (meta_path b k);
  manifest ← parse_manifest data;
  e ← latest manifest;
  if delete_marker e then None else Some e.

(** That version and its bytes. *)
Definition object_at (m : tree) (b k : str) : option (VersionEntry * str) :=
  e ← entry_at m b k;
  data ← file_at m (data_path b k (version_id e));
  Some (e, data).

(** The files an operation on one key may touch. *)
Definition own_file (b k : str) (q : apath) : Prop :=
  (q = meta_path b k ∨ q = data_path b k NULL_VERSION_ID) ∨ is_child tmp_path q = true.

Lemma own_file_child b k q : own_file b k q → (∃ n, q = object_path b k ++ [n]) ∨ is_child tmp_path q = true.
Proof. intros [[->| ->]|?]; [left; by eexists|left; by eexists|by right]. Qed.

Lemma own_file_other b k b' k' n :
  utf8 k → utf8 k' → (b', k') ≠ (b, k) → ¬ own_file b k (object_path b' k' ++ [n]).
Proof.
  intros Hk Hk' Hne [[n' Heq]|Ht]%own_file_child.
  - apply app_inj_tail in Heq as [Heq _]. apply object_path_inj in Heq as [-> ->]; done.
  - apply is_child_spec in Ht as [x Hx]. apply (tmp_not_object b' k' n). rewrite Hx. by apply prefix_app_r.
Qed.

(** An object is read off the files of its directory. *)
Lemma object_at_ext b k m m' :
  (∀ n, file_at m' (object_path b k ++ [n]) = file_at m (object_path b k ++ [n])) →
  object_at m' b k = object_at m b k.
Proof.
  intros Hf. unfold object_at, entry_at, meta_path, data_path. rewrite Hf.
  destruct (file_at m _) as [data|]; [|done]. cbn. destruct (parse_manifest data) as [mf|]; [|done]. cbn.
  destruct (latest mf) as [e|]; [|done]. cbn. destruct (delete_marker e); [done|]. cbn. by rewrite Hf.
Qed.

(** If only files of [(b, k)] changed, every other object is what it was. *)
Lemma object_at_frame b k m m' :
  utf8 k → (∀ q, ¬ own_file b k q → file_at m' q = file_at m q) →
  ∀ b' k', utf8 k' → (b', k') ≠ (b, k) → object_at m' b' k' = object_at m b' k'.
Proof.
  intros Hk Hf b' k' Hk' Hne. apply object_at_ext. intros n. by apply Hf, own_file_other.
Qed.
End objects.

(** ** Reading *)

Section reading.
Context {E : Env} {D : DataDir} `{!EnvOk E}.
Context {HS : HashCrates} {MD : Md5Crate} {RD : Reads}.
Context `{!Serde VersionManifest, !Serde BucketMeta, !Serde DiskFormat}.

Lemma wp_with_lock {F A} l md (m : M F A) Q G C d : wp m Q G C d → wp (FsEngine.with_lock l md m) Q G C d.
Proof.
  intros Hm t L. rewrite FsEngine.run_with_lock. unfold take_entry. cbn [wdisk ticks locks].
  specialize (Hm t (<[l := S (default 0 (L !! l))]> L)). by destruct (run m _) as [[[a|e]|] [d' t' L']].
Qed.

Lemma bucket_path_eq b : bucket_path b = root_path ++ [BUCKETS_DIR; b].
Proof. unfold bucket_path, buckets_path. by rewrite <- app_assoc. Qed.

(** [existing_bucket_dir] finds the bucket if and only if it is there. *)
Lemma wp_existing_bucket_dir b Q F C d :
  layout (vol d) →
  (is_valid_bucket_name b = true → bucket_at (vol d) b → Q (FsEngine.bucket_dir engine b) d) →
  (is_valid_bucket_name b = false → F InvalidBucketName d) →
  (is_valid_bucket_name b = true → ¬ bucket_at (vol d) b → F NoSuchBucket d) →
  (∀ e, injected e → F (from_io e) d) → (halts → C d) →
  wp (FsEngine.existing_bucket_dir engine b) Q F C d.
Proof.
  intros Hlay HQ HV HN HI HC. unfold FsEngine.existing_bucket_dir, FsEngine.checked_bucket_dir.
  destruct (is_valid_bucket_name b) eqn:Hb; apply wp_bind, wp_lift; intros x Hx; simplify_eq; auto.
  apply wp_bind, wp_attempt.
  assert (resolve (FsEngine.bucket_dir engine b) = bucket_path b) as Hres.
  { by rewrite bucket_dir_names, resolve_names, bucket_path_eq. }
  apply wp_metadata; rewrite ?Hres.
  - intros x Hx _. destruct x; cbn; [apply wp_ret|apply wp_throw]; [by apply HQ|].
    apply HN; [done|]. unfold bucket_at. congruence.
  - intros e He. assert (kind e = KNotFound) as Hk.
    { assert (vol d !! bucket_path b = None) as Hno by (eapply walk_Err; [apply Hlay|done]).
      unfold bucket_path in He, Hno. rewrite walk_missing in He; [by injection He as <-|apply Hlay|apply Hlay| |done].
      by apply (bucket_fits _ Hlay). }
    rewrite bool_decide_true by done. apply wp_throw, HN; [done|]. unfold bucket_at.
    apply walk_Err in He; [congruence|apply Hlay].
  - intros e He. rewrite bool_decide_false by by apply injected_not_found. apply wp_throw. auto.
  - auto.
Qed.

Lemma object_file_resolve b k n : is_valid_bucket_name b = true → utf8 k → plain_name n →
  resolve (push (FsEngine.object_dir (FsEngine.bucket_dir engine b) k) n) = object_path b k ++ [n].
Proof.
  intros Hb Hk Hn. rewrite object_dir_names, push_names, resolve_names by done.
  by rewrite object_path_eq, <- !app_assoc.
Qed.

Lemma meta_file_plain : plain_name META_FILE.
Proof. by apply plain_lit. Qed.

(** Something other than a missing entry stands in the way of [q]. *)
Definition blocked (m : tree) (q : apath) : Prop :=
  (∃ err, walk m q = Err err ∧ kind err ≠ KNotFound) ∨ m !! q = Some NDir.

Lemma file_not_blocked m q data : wf m → file_at m q = Some data → ¬ blocked m q.
Proof.
  intros Hwf [s Hf]%file_at_Some [(err & He & _)|Hd]; [|congruence].
  by rewrite (walk_complete _ _ _ Hwf Hf) in He.
Qed.

(** The way to [q] ends at a missing entry, if it does not lead there. *)
Definition just_missing (m : tree) (q : apath) : Prop := ∀ err, walk m q = Err err → kind err = KNotFound.

(** The error [err] of reading the manifest of the key: the file system's own, if it
    is not that there is no such file, or that of a file that cannot be parsed. *)
Definition manifest_error (m : tree) (b k : str) (err : io_error) : Prop :=
  (walk m (meta_path b k) = Err err ∧ kind err ≠ KNotFound)
  ∨ (m !! meta_path b k = Some NDir ∧ kind err = KIsADirectory)
  ∨ (kind err = KInvalidData ∧ ∃ data, file_at m (meta_path b k) = Some data ∧ parse_manifest data = None).

(** The error of a read that finds no object. *)
Definition read_error (m : tree) (b k : str) (e : EngineError) : Prop :=
  (e = NoSuchKey ∧ entry_at m b k = None ∧ just_missing m (meta_path b k))
  ∨ (∃ err, injected err ∧ e = from_io err)
  ∨ (∃ err, e = from_io err ∧ manifest_error m b k err).

Lemma found_just_missing m q x : wf m → m !! q = Some x → just_missing m q.
Proof. intros Hwf Hx err He. by rewrite (walk_complete _ _ _ Hwf Hx) in He. Qed.

Lemma manifest_error_blocked m b k err : manifest_error m b k err →
  blocked m (meta_path b k) ∨ ∃ data, file_at m (meta_path b k) = Some data ∧ parse_manifest data = None.
Proof. intros [[? ?]|[[? _]|[_ ?]]]; [left; left; eauto|left; by right|by right]. Qed.

Lemma wp_live_version b k Q F C d :
  layout (vol d) → is_valid_bucket_name b = true → utf8 k →
  (∀ entry, entry_at (vol d) b k = Some entry → Q entry d) →
  (∀ e, read_error (vol d) b k e → F e d) → (halts → C d) →
  wp (FsEngine.live_version (FsEngine.object_dir (FsEngine.bucket_dir engine b) k)) Q F C d.
Proof.
  intros Hlay Hb Hk HQ HF HC. unfold FsEngine.live_version. apply wp_bind, wp_mapE.
  assert (∀ mf data, file_at (vol d) (meta_path b k) = Some data → parse_manifest data = Some mf →
    entry_at (vol d) b k = (e ← latest mf; if delete_marker e then None else Some e)) as Hent.
  { intros mf data Hd Hp. unfold entry_at. rewrite Hd. cbn. by rewrite Hp. }
  apply wp_load_manifest; rewrite ?object_file_resolve by (done || apply meta_file_plain);
    try fold (meta_path b k).
  - apply Hlay.
  - intros data s mf Hd Hp. apply wp_bind, wp_lift; [|done]. intros a [= <-].
    specialize (Hent mf data ltac:(apply file_at_Some; eauto) Hp).
    assert (just_missing (vol d) (meta_path b k)) as Hj by (eapply found_just_missing; [apply Hlay|done]).
    destruct (latest mf) as [e|] eqn:Hl; cbn in Hent.
    + destruct (delete_marker e); [apply wp_throw, HF; by left|apply wp_ret, HQ; done].
    + apply wp_throw, HF. by left.
  - intros Hno Hj. apply wp_bind, wp_lift; [done|]. intros e [= <-]. apply HF. left. split_and!; [done| |done].
    unfold entry_at, file_at. by rewrite Hno.
  - intros e data Hd Hp Hkind. apply HF. right; right. exists e. split; [done|]. right; right. eauto.
  - intros e He Hkind. apply HF. right; right. exists e. split; [done|]. by left.
  - intros Hd. apply HF. right; right. exists (os_error KIsADirectory). split; [done|]. right; by left.
  - intros e He. apply HF. right; left. eauto.
  - done.
Qed.
End reading.

(** ** Uploading *)

Section upload.
Context {E : Env} {D : DataDir} `{!EnvOk E}.
Context {HS : HashCrates} {MD : Md5Crate} {RD : Reads}.
Context `{!Serde VersionManifest, !Serde BucketMeta, !Serde DiskFormat}.
Context `{!HashCratesLaws HS, !Md5Laws MD}.

(** The upload after [data] in one piece. *)
Definition upload_of (u : FsEngine.upload) (data : str) : FsEngine.upload := FsEngine.hash_chunk u data.

Lemma upload_of_nil u : u64 (FsEngine.up_size u) → upload_of u [] = u.
Proof.
  intros Hs. destruct u as [h [c|] n]; unfold upload_of, FsEngine.hash_chunk; cbn in *;
    rewrite md5_update_nil, u64_add_exact, N.add_0_r by (unfold u64 in Hs; lia); [|done].
  by rewrite update_nil.
Qed.

Lemma upload_of_app u a b : upload_of (FsEngine.hash_chunk u a) b = upload_of u (a ++ b).
Proof.
  unfold upload_of, FsEngine.hash_chunk. cbn. f_equal.
  - apply md5_update_app.
  - destruct (FsEngine.up_checksummer u) as [c|]; [|done]. cbn. by rewrite update_app.
  - unfold u64_add. rewrite N.Div0.add_mod_idemp_l, length_app. f_equal. lia.
Qed.

Lemma hash_chunk_u64 u a : u64 (FsEngine.up_size (FsEngine.hash_chunk u a)).
Proof.
  unfold u64, FsEngine.hash_chunk, u64_add, u64_MAX. cbn.
  pose proof (N.mod_lt (FsEngine.up_size u + N.of_nat (length a)) (2 ^ 64) ltac:(done)). lia.
Qed.

Lemma wp_stage_body st tp body u data0 d0 d :
  resolve (path st) = tp → staging tp data0 d0 d → u64 (FsEngine.up_size u) →
  wp (FsEngine.stage_body st body u)
    (λ u' d', ∃ data, collect body = Ok data ∧ u' = upload_of u data ∧ staging tp (data0 ++ data) d0 d')
    (λ e d', (∃ data, staging tp data d0 d')
             ∧ ((∃ err, injected err ∧ e = from_io err) ∨ ∃ err, collect body = Err err ∧ e = from_io err))
    (λ d', ∃ data, staging tp data d0 d') d.
Proof.
  intros Htp. revert u data0 d. induction body as [|[chunk|e] body IH]; intros u data0 d Hst Hu;
    cbn [FsEngine.stage_body collect].
  - apply wp_ret. exists []. rewrite app_nil_r, upload_of_nil; done.
  - apply wp_bind, wp_mapE. eapply wp_mono; [by eapply wp_write_all| | |].
    + intros ? d1 Hst1. eapply wp_mono; [apply IH; [exact Hst1|apply hash_chunk_u64]| | |done].
      * intros u' d2 (data & Hc & -> & Hst2). exists (chunk ++ data). rewrite Hc. cbn.
        split; [done|]. rewrite upload_of_app, app_assoc. done.
      * intros e d2 [Hst2 He]. split; [done|]. destruct He as [?|(err & Hc & ?)]; [by left|right].
        exists err. rewrite Hc. done.
    + intros e d1 [He Hst1]. split; [done|]. left. eauto.
    + done.
  - apply wp_throw. split; [by exists data0|]. right. by exists e.
Qed.

(** ** The two publications *)

(** The entry recorded for [data]. *)
Definition entry_for (opts : PutOpts) (data : str) (mtime : N) : VersionEntry :=
  FsEngine.new_entry opts (upload_of (FsEngine.new_upload opts) data) mtime.

(** The strings of the request are Rust strings. *)
Definition opts_ok (opts : PutOpts) : Prop :=
  (∀ c, po_content_type opts = Some c → utf8 c)
  ∧ map_Forall (λ k v, utf8 k ∧ utf8 v) (po_user_metadata opts).

Lemma hex_lower_utf8 bytes : utf8 (hex_lower bytes).
Proof.
  apply utf8_ascii. unfold hex_lower. induction bytes as [|b bytes IH]; [constructor|].
  rewrite fmap_cons. cbn [concat]. apply Forall_app. split; [|exact IH].
  refine (bool_decide_unpack _ _). byte_cases b.
Qed.

Lemma epoch_ms_u64 ns : u64 (epoch_ms ns).
Proof.
  unfold epoch_ms, u64. destruct (ns <? 0)%Z; [unfold u64_MAX; lia|].
  destruct (N.leb_spec (Z.to_N (ns / 1000000)) u64_MAX); [done|unfold u64_MAX; lia].
Qed.

Lemma entry_for_valid opts data ns : opts_ok opts → valid_entry (entry_for opts data (epoch_ms ns)).
Proof.
  intros [Hct Hum]. unfold entry_for, FsEngine.new_entry. split; cbn.
  - by vm_compute.
  - apply hex_lower_utf8.
  - apply (hash_chunk_u64 (FsEngine.new_upload opts) data).
  - destruct (po_content_type opts) as [c|]; [|by vm_compute].
    case_bool_decide; [by vm_compute|auto].
  - done.
  - apply epoch_ms_u64.
  - intros c Hc. destruct (po_checksum_algorithm opts) as [a|]; [|done]. cbn in Hc. injection Hc as <-. cbn.
    destruct (hasher a); cbn; apply base64_encode_text.
Qed.

(** What [put_object] may have done to the disk: at most the files of the key
    and fresh temp files are different, and directories on the way to them; and
    what was on the disk of the rest is still there. *)
Record put_effect (b k : str) (d d' : disk) : Prop := {
  pe_grows : grows (own_file b k) (object_path b k) (vol d) (vol d');
  pe_durable q x : ¬ own_file b k q → vol d !! q = Some x → dur d !! q = Some x → dur d' !! q = Some x;
}.

Lemma put_effect_refl b k d : wf (vol d) → put_effect b k d d.
Proof. intros. split; [by apply grows_refl|auto]. Qed.

Lemma put_effect_trans b k d1 d2 d3 : put_effect b k d1 d2 → put_effect b k d2 d3 → put_effect b k d1 d3.
Proof.
  intros [G1 D1] [G2 D2]. split; [by eapply grows_trans|]. intros q x Hq Hx Hd.
  apply D2; [done|by eapply gr_keep|auto].
Qed.

Lemma attempted_effect b k a data pub d d' :
  a = meta_path b k ∨ a = data_path b k NULL_VERSION_ID →
  attempted tmp_path a data pub d d' → put_effect b k d d'.
Proof.
  intros Ha [Hg _ Hk].
  assert (removelast a = object_path b k) as Hr by (destruct Ha as [->| ->]; apply removelast_last).
  assert (grows (own_file b k) (object_path b k) (vol d) (vol d')) as Hg'.
  { rewrite Hr in Hg. eapply grows_mono; [|exact Hg]. intros q [->|?]; [by left|by right]. }
  split; [done|]. intros q x Hq Hx Hd. apply Hk; [by eapply gr_keep|done].
Qed.

Lemma put_effect_layout b k d d' : put_effect b k d d' → layout (vol d) → layout (vol d').
Proof. intros [[_ Hd _ Hw] _] [? ? ? ? ?]. split; auto. Qed.
End upload.

Section put.
Context {E : Env} {D : DataDir} `{!EnvOk E}.
Context {HS : HashCrates} {MD : Md5Crate} {RD : Reads}.
Context `{!Serde VersionManifest, !Serde BucketMeta, !Serde DiskFormat}.
Context `{!HashCratesLaws HS, !Md5Laws MD, !SerdeLaws VersionManifest valid_manifest}.

(** The manifest file of the key records [entry] as the latest version. *)
Definition records (m : tree) (b k : str) (entry : VersionEntry) : Prop :=
  ∃ bytes mf, file_at m (meta_path b k) = Some bytes ∧ parse_manifest bytes = Some mf
    ∧ latest mf = Some entry.

(** The key's two files in the middle of a put of [data]: the bytes go first. *)
Definition torn (b k : str) (data : str) (entry : VersionEntry) (m m' : tree) : Prop :=
  (file_at m' (meta_path b k) = file_at m (meta_path b k)
   ∧ (file_at m' (data_path b k NULL_VERSION_ID) = file_at m (data_path b k NULL_VERSION_ID)
      ∨ file_at m' (data_path b k NULL_VERSION_ID) = Some data))
  ∨ (file_at m' (data_path b k NULL_VERSION_ID) = Some data ∧ records m' b k entry).

(** Nothing stands in the way of a put: the path to the key is free, the paths of
    its files are short enough, and the manifest, if there is one, can be read. *)
Record puttable (b k : str) (m : tree) : Prop := {
  pt_creatable : creatable (object_path b k) m;
  pt_fits : nameable (data_path b k NULL_VERSION_ID);
  pt_meta : m !! meta_path b k ≠ Some NDir;
  pt_data : m !! data_path b k NULL_VERSION_ID ≠ Some NDir;
  pt_manifest bytes : file_at m (meta_path b k) = Some bytes → is_Some (parse_manifest bytes);
  pt_fresh : fresh_names tmp_path m;
}.

Lemma data_name_short : length (data_file_name NULL_VERSION_ID) ≤ 255.
Proof. vm_compute. lia. Qed.

Lemma object_publishable b k n m :
  creatable (object_path b k) m → m !! (object_path b k ++ [n]) ≠ Some NDir → nameable (object_path b k ++ [n]) →
  publishable (object_path b k ++ [n]) m.
Proof. intros Hc Hn Hl. split; [by rewrite removelast_last|done]. Qed.

(** Publishing one file leaves the way to the other free. *)
Lemma attempted_creatable b k n data pub d d' :
  attempted tmp_path (object_path b k ++ [n]) data pub d d' →
  creatable (object_path b k) (vol d) → creatable (object_path b k) (vol d').
Proof.
  intros [Hg _ _] [Hn Hc]. split; [done|]. intros q Hq.
  destruct (gr_same _ _ _ _ Hg q) as [->|[_ ->]]; [|auto|auto].
  intros [->|Hch].
  - apply prefix_length in Hq. rewrite length_app in Hq. cbn in Hq. lia.
  - apply is_child_spec in Hch as [x ->]. apply (tmp_not_object b k x).
    transitivity (tmp_path ++ [x]); [by apply prefix_app_r|].
    transitivity (object_path b k); [exact Hq|by apply prefix_app_r].
Qed.

Lemma attempted_nodir b k n n' data pub d d' :
  attempted tmp_path (object_path b k ++ [n]) data pub d d' →
  vol d !! (object_path b k ++ [n']) ≠ Some NDir → vol d' !! (object_path b k ++ [n']) ≠ Some NDir.
Proof.
  intros [Hg _ _] Hn Hn'. apply (gr_new _ _ _ _ Hg) in Hn' as [?|Hp]; [done|].
  rewrite removelast_last in Hp. apply prefix_length in Hp. rewrite length_app in Hp. cbn in Hp. lia.
Qed.

Lemma attempted_other_file b k n n' data pub d d' :
  attempted tmp_path (object_path b k ++ [n]) data pub d d' → n' ≠ n →
  vol d' !! (object_path b k ++ [n']) = vol d !! (object_path b k ++ [n'])
  ∨ vol d !! (object_path b k ++ [n']) = None ∧ vol d' !! (object_path b k ++ [n']) = Some NDir.
Proof.
  intros [Hg _ _] Hn. apply (gr_same _ _ _ _ Hg). intros [Heq|Hch].
  - by apply app_inj_tail in Heq as [_ ?].
  - apply is_child_spec in Hch as [x Hx]. apply (tmp_not_object b k n'). rewrite Hx. by apply prefix_app_r.
Qed.

Lemma attempted_other_at b k n n' data pub d d' :
  attempted tmp_path (object_path b k ++ [n]) data pub d d' → n' ≠ n →
  file_at (vol d') (object_path b k ++ [n']) = file_at (vol d) (object_path b k ++ [n']).
Proof.
  intros Hat Hn. unfold file_at. by destruct (attempted_other_file b k n n' data pub d d' Hat Hn) as [->|[-> ->]].
Qed.

(** The manifest [put_object] writes. *)
Definition old_manifest (m : tree) (b k : str) : VersionManifest :=
  default new_manifest (file_at m (meta_path b k) ≫= parse_manifest).

Lemma parse_manifest_inv bytes mf : parse_manifest bytes = Some mf →
  valid_manifest mf ∧ (format mf <= MANIFEST_FORMAT)%N.
Proof.
  unfold parse_manifest. destruct (from_slice bytes) as [m|] eqn:Hf; [|done].
  destruct (N.ltb_spec MANIFEST_FORMAT (format m)); [done|]. intros [= <-].
  split; [by eapply serde_valid|done].
Qed.

Lemma entry_size m b k entry : entry_at m b k = Some entry → u64 (size entry).
Proof.
  unfold entry_at. destruct (file_at m (meta_path b k)) as [bytes|]; [|done]. cbn.
  destruct (parse_manifest bytes) as [mf|] eqn:Hp; [|done]. cbn. destruct (latest mf) as [e|] eqn:Hl; [|done]. cbn.
  destruct (delete_marker e); [done|]. intros [= <-]. apply parse_manifest_inv in Hp as [[_ Hv] _].
  rewrite Forall_forall in Hv. apply Hv. unfold latest in Hl. by apply head_Some_elem_of in Hl.
Qed.

Lemma stored_manifest mf entry :
  valid_manifest mf → (format mf <= MANIFEST_FORMAT)%N → valid_entry entry →
  ∃ bytes, to_vec (upsert mf entry) = Ok bytes ∧ parse_manifest bytes = Some (upsert mf entry).
Proof.
  intros [Hf Hv] Hle He. destruct (serde_roundtrip (A:=VersionManifest) (upsert mf entry)) as (bytes & Hto & Hfrom).
  - split; [done|]. cbn. constructor; [done|]. rewrite Forall_forall in *.
    intros v [_ Hin]%list_elem_of_filter. auto.
  - exists bytes. split; [done|]. unfold parse_manifest. rewrite Hfrom. cbn.
    by destruct (N.ltb_spec MANIFEST_FORMAT (format mf)); [lia|].
Qed.

Lemma new_manifest_valid : valid_manifest new_manifest ∧ (format new_manifest <= MANIFEST_FORMAT)%N.
Proof. split; [split; [done|constructor]|done]. Qed.

(** Everything a successful put of [data] leaves behind. *)
Record put_done (b k data : str) (entry : VersionEntry) (d d' : disk) : Prop := {
  pd_effect : put_effect b k d d';
  pd_data : file_at (vol d') (data_path b k NULL_VERSION_ID) = Some data;
  pd_records : records (vol d') b k entry;
  pd_clean n : vol d' !! (tmp_path ++ [n]) = vol d !! (tmp_path ++ [n]);
  pd_durable : dirs_durable d →
    dirs_durable d' ∧ durable d' (meta_path b k) ∧ durable d' (data_path b k NULL_VERSION_ID);
}.

Lemma durable_data b k n n' data bytes d1 d2 :
  n' ≠ n → attempted tmp_path (object_path b k ++ [n]) bytes true d1 d2 →
  file_at (vol d1) (object_path b k ++ [n']) = Some data →
  durable d1 (object_path b k ++ [n']) → durable d2 (object_path b k ++ [n]) →
  durable d2 (object_path b k ++ [n']).
Proof.
  intros Hn Hat [s Hd]%file_at_Some H1 H2 q Hq. apply prefix_snoc in Hq as [->|Hq].
  - assert (vol d2 !! (object_path b k ++ [n']) = Some (NFile data s)) as Hv.
    { destruct (attempted_other_file b k n n' bytes true d1 d2 Hat Hn) as [->|[? _]]; congruence. }
    rewrite Hv. apply (att_durable _ _ _ _ _ _ Hat); [done|]. rewrite H1; [done|]. done.
  - apply H2. by apply prefix_app_r.
Qed.

Lemma tmp_path_eq : resolve dd_head ++ dd_names ++ [AKS3_DIR; TMP_DIR] = tmp_path.
Proof. unfold tmp_path, root_path. by rewrite <- app_assoc. Qed.

Lemma torn_first b k data entry pub d d' :
  attempted tmp_path (data_path b k NULL_VERSION_ID) data pub d d' →
  put_effect b k d d' ∧ torn b k data entry (vol d) (vol d').
Proof.
  intros Hat. split; [eapply attempted_effect; [by right|exact Hat]|]. left. split.
  - eapply attempted_other_at; [done|]. apply meta_not_data.
  - pose proof (att_dest _ _ _ _ _ _ Hat) as Hd. destruct pub; auto.
Qed.

Lemma torn_second b k data entry mf bytes pub d d2 d' :
  written tmp_path (data_path b k NULL_VERSION_ID) data d d2 →
  parse_manifest bytes = Some (upsert mf entry) →
  attempted tmp_path (meta_path b k) bytes pub d2 d' →
  put_effect b k d d' ∧ torn b k data entry (vol d) (vol d')
  ∧ (pub = true → file_at (vol d') (data_path b k NULL_VERSION_ID) = Some data ∧ records (vol d') b k entry).
Proof.
  intros [Hat1 _ _] Hp Hat2.
  assert (file_at (vol d') (data_path b k NULL_VERSION_ID) = Some data) as Hdata.
  { unfold data_path. erewrite attempted_other_at; [|exact Hat2|by apply not_eq_sym, meta_not_data].
    apply (att_dest _ _ _ _ _ _ Hat1). }
  pose proof (att_dest _ _ _ _ _ _ Hat2) as Hmeta.
  assert (pub = true → records (vol d') b k entry) as Hrec.
  { intros ->. by exists bytes, (upsert mf entry). }
  split; [eapply put_effect_trans; (eapply attempted_effect; [|eassumption]); auto|]. split; [|auto].
  destruct pub; [right; auto|left]. split; [|by right]. rewrite Hmeta.
  eapply attempted_other_at; [exact Hat1|]. apply meta_not_data.
Qed.

(** Recording the entry, after the data has been written. *)
Lemma wp_record b k data entry mf d d2 :
  is_valid_bucket_name b = true → utf8 k → layout (vol d) → valid_entry entry →
  written tmp_path (data_path b k NULL_VERSION_ID) data d d2 →
  valid_manifest mf → (format mf <= MANIFEST_FORMAT)%N →
  wp (store_manifest (FsEngine.tmp_dir engine)
        (push (FsEngine.object_dir (FsEngine.bucket_dir engine b) k) META_FILE) (upsert mf entry))
    (λ _ d', put_done b k data entry d d')
    (λ e d', (put_effect b k d d' ∧ torn b k data entry (vol d) (vol d'))
             ∧ (puttable b k (vol d) → ∃ err, injected err))
    (λ d', put_effect b k d d' ∧ torn b k data entry (vol d) (vol d')) d2.
Proof.
  intros Hb Hk Hlay Hve Hw1 Hvm Hfm. destruct (stored_manifest mf entry Hvm Hfm Hve) as (bytes & Hto & Hparse).
  pose proof (wr_attempted _ _ _ _ _ Hw1) as Hat1.
  pose proof (put_effect_layout _ _ _ _ (attempted_effect b k _ _ _ _ _ (or_intror eq_refl) Hat1) Hlay) as Hlay2.
  unfold store_manifest. rewrite Hto, tmp_dir_names, object_file_names by (done || apply meta_file_plain).
  unfold names_of. eapply wp_mono.
  { apply (wp_write_json_atomic dd_head (dd_names ++ [AKS3_DIR; TMP_DIR])
      (dd_names ++ [BUCKETS_DIR; b; OBJECTS_DIR] ++ key_names k) META_FILE bytes d2);
      rewrite ?tmp_path_eq, ?object_path_resolve; [apply dd_head_path|apply tmp_not_object|apply Hlay2..|apply tmp_roomy]. }
  all: rewrite tmp_path_eq, object_path_resolve; fold (meta_path b k).
  - intros _ d' Hw2. pose proof (wr_attempted _ _ _ _ _ Hw2) as Hat2.
    destruct (torn_second b k data entry mf bytes true d d2 d' Hw1 Hparse Hat2) as (Heff & _ & Hrec).
    destruct (Hrec eq_refl) as [Hd Hr]. split; [done|done|done| |].
    + intros n. by rewrite (wr_clean _ _ _ _ _ Hw2), (wr_clean _ _ _ _ _ Hw1).
    + intros Hdd. destruct (wr_durable _ _ _ _ _ Hw1 Hdd) as [Hd1 Hdd1].
      destruct (wr_durable _ _ _ _ _ Hw2 Hdd1) as [Hd2 Hdd2]. split_and!; [done..|].
      eapply durable_data; [by apply not_eq_sym, meta_not_data|exact Hat2| |exact Hd1|exact Hd2].
      apply (att_dest _ _ _ _ _ _ Hat1).
  - intros _ d' [(pub & Hat2) Hf].
    destruct (torn_second b k data entry mf bytes pub d d2 d' Hw1 Hparse Hat2) as (Heff & Htorn & _).
    split; [done|]. intros Hpt. apply Hf.
    + intros n. rewrite (wr_clean _ _ _ _ _ Hw1). apply Hpt.
    + apply object_publishable; [eapply attempted_creatable; [exact Hat1|apply Hpt]| |apply meta_fits, Hpt].
      eapply attempted_nodir; [exact Hat1|apply Hpt].
  - intros d' (pub & Hat2).
    by destruct (torn_second b k data entry mf bytes pub d d2 d' Hw1 Hparse Hat2) as (Heff & Htorn & _).
Qed.

Lemma wp_publish_object b k st kt data entry d d1 :
  let tp := tmp_path ++ [kt] in
  is_valid_bucket_name b = true → utf8 k → layout (vol d) → valid_entry entry →
  resolve (path st) = tp → committed st = false → staging tp data d d1 →
  wp (FsEngine.publish_object engine (FsEngine.bucket_dir engine b) k st entry)
    (λ info d', info = object_info k entry ∧ put_done b k data entry d d')
    (λ e d', (put_effect b k d d' ∧ torn b k data entry (vol d) (vol d'))
             ∧ (puttable b k (vol d) → ∃ err, injected err))
    (λ d', put_effect b k d d' ∧ torn b k data entry (vol d) (vol d')) d1.
Proof.
  intros tp Hb Hk Hlay Hve Htp Hc Hst. unfold FsEngine.publish_object. cbn zeta.
  apply wp_bind, wp_mapE. rewrite (object_file_names b k (data_file_name NULL_VERSION_ID))
    by (done || apply data_file_name_plain). eapply wp_mono.
  { apply (wp_commit_staged dd_head (dd_names ++ [BUCKETS_DIR; b; OBJECTS_DIR] ++ key_names k)
      (data_file_name NULL_VERSION_ID) st tmp_path kt data d d1); rewrite ?object_path_resolve; try done;
      [apply dd_head_path|apply tmp_not_object|apply Hlay..]. }
  all: rewrite object_path_resolve; fold (data_path b k NULL_VERSION_ID).
  - intros _ d2 Hw1. pose proof (wr_attempted _ _ _ _ _ Hw1) as Hat1.
    pose proof (torn_first b k data entry true d d2 Hat1) as Ht1.
    pose proof (put_effect_layout _ _ _ _ (proj1 Ht1) Hlay) as Hlay2.
    assert (file_at (vol d2) (meta_path b k) = file_at (vol d) (meta_path b k)) as Hmeta
      by (eapply attempted_other_at; [exact Hat1|apply meta_not_data]).
    assert (∀ mf, valid_manifest mf ∧ (format mf <= MANIFEST_FORMAT)%N →
      wp (io! (store_manifest (FsEngine.tmp_dir engine)
                 (push (FsEngine.object_dir (FsEngine.bucket_dir engine b) k) META_FILE) (upsert mf entry));;;
          ret (object_info k entry))
        (λ info d', info = object_info k entry ∧ put_done b k data entry d d')
        (λ e d', (put_effect b k d d' ∧ torn b k data entry (vol d) (vol d'))
                 ∧ (puttable b k (vol d) → ∃ err, injected err))
        (λ d', put_effect b k d d' ∧ torn b k data entry (vol d) (vol d')) d2) as Hstore.
    { intros mf [Hv Hf]. apply wp_bind, wp_mapE. eapply wp_mono; [by apply (wp_record b k data entry mf d d2)| |done..].
      intros u d' Hdone. by apply wp_ret. }
    apply wp_bind, wp_mapE, wp_load_manifest;
      rewrite ?object_file_resolve by (done || apply meta_file_plain); try fold (meta_path b k).
    + apply Hlay2.
    + intros bytes s mf Hf Hp. apply (Hstore mf). by eapply parse_manifest_inv.
    + intros Hno _. apply (Hstore new_manifest), new_manifest_valid.
    + intros e bytes Hf Hp _. split; [done|]. intros Hpt. rewrite Hmeta in Hf.
      apply pt_manifest in Hf as [? ?]; [congruence|done].
    + intros e He Hkind. split; [done|]. intros Hpt. exfalso. apply Hkind.
      pose proof (walk_Err _ _ _ (lay_wf _ Hlay2) He) as Hno. unfold meta_path in He, Hno.
      rewrite walk_missing in He; [by injection He as <-|apply Hlay2| | |done].
      * pose proof (att_dest _ _ _ _ _ _ Hat1) as [s Hs]%file_at_Some.
        eapply wf_parent; [apply Hlay2|by eexists].
      * apply meta_fits, Hpt.
    + intros Hd. split; [done|]. intros Hpt. exfalso.
      eapply (attempted_nodir b k (data_file_name NULL_VERSION_ID) META_FILE); [exact Hat1|apply Hpt|exact Hd].
    + intros e He. split; [done|]. eauto.
    + done.
  - intros _ d2 [(pub & Hat) Hf]. split; [by eapply torn_first|]. intros Hpt. apply Hf.
    apply object_publishable; [apply Hpt..].
  - intros d2 (pub & Hat). by eapply torn_first.
Qed.

(** The key's files after a put that did not return a result. *)
Definition touched (b k : str) (body : BoxByteStream) (opts : PutOpts) (m m' : tree) : Prop :=
  (file_at m' (meta_path b k) = file_at m (meta_path b k)
   ∧ file_at m' (data_path b k NULL_VERSION_ID) = file_at m (data_path b k NULL_VERSION_ID))
  ∨ ∃ data ns, collect body = Ok data ∧ torn b k data (entry_for opts data (epoch_ms ns)) m m'.

Lemma attempted_untouched b k body opts data d d' :
  attempted tmp_path (data_path b k NULL_VERSION_ID) data false d d' →
  put_effect b k d d' ∧ touched b k body opts (vol d) (vol d').
Proof.
  intros Hat. split; [eapply attempted_effect; [by right|exact Hat]|]. left. split.
  - eapply attempted_other_at; [done|]. apply meta_not_data.
  - apply (att_dest _ _ _ _ _ _ Hat).
Qed.

Lemma debris_untouched b k body opts n d d' :
  wf (vol d') → debris (tmp_path ++ [n]) d d' →
  put_effect b k d d' ∧ touched b k body opts (vol d) (vol d').
Proof.
  intros Hwf Hd. eapply (attempted_untouched b k body opts []), debris_attempted; [|done|exact Hd].
  apply tmp_not_object.
Qed.

Lemma staging_untouched b k body opts n data d d' :
  staging (tmp_path ++ [n]) data d d' →
  put_effect b k d d' ∧ touched b k body opts (vol d) (vol d').
Proof. intros Hst. eapply debris_untouched; [apply Hst|]. right. by exists data. Qed.

Lemma staging_layout n data d d' : staging (tmp_path ++ [n]) data d d' → layout (vol d) → layout (vol d').
Proof.
  intros Hst. destruct (staging_untouched [] [] [] (mkPutOpts None ∅ None) n data d d' Hst) as [He _].
  by eapply put_effect_layout.
Qed.

Lemma staging_bucket b n data d d' :
  staging (tmp_path ++ [n]) data d d' → bucket_at (vol d') b ↔ bucket_at (vol d) b.
Proof.
  intros [_ [s ->] _ _]. unfold bucket_at. rewrite lookup_insert_ne; [done|].
  rewrite bucket_path_eq. unfold tmp_path. rewrite <- app_assoc. intros Heq%app_inv_head. by injection Heq.
Qed.

(** Why [put_object] fails. *)
Inductive put_failure (m : tree) (b k : str) (body : BoxByteStream) : EngineError → Prop :=
  | pf_name : is_valid_bucket_name b = false → put_failure m b k body InvalidBucketName
  | pf_bucket : ¬ bucket_at m b → put_failure m b k body NoSuchBucket
  | pf_body err : is_valid_bucket_name b = true → bucket_at m b → collect body = Err err →
      put_failure m b k body (from_io err)
  | pf_fault err : injected err → put_failure m b k body (from_io err)
  | pf_io e : is_valid_bucket_name b = true → bucket_at m b → (puttable b k m → ∃ err, injected err) →
      put_failure m b k body e.

Lemma put_failure_fault m b k body data e :
  put_failure m b k body e → is_valid_bucket_name b = true → bucket_at m b → collect body = Ok data →
  puttable b k m → ∃ err, injected err.
Proof. intros [| |err ? ? ?|err ?|e' ? ? ?]; [congruence|done|congruence|eauto|auto]. Qed.

Lemma wp_put_object b k body opts d :
  utf8 k → opts_ok opts → layout (vol d) →
  wp (FsEngine.put_object engine b k body opts)
    (λ info d', ∃ data ns, collect body = Ok data
       ∧ info = object_info k (entry_for opts data (epoch_ms ns))
       ∧ put_done b k data (entry_for opts data (epoch_ms ns)) d d')
    (λ e d', (put_effect b k d d' ∧ touched b k body opts (vol d) (vol d'))
       ∧ put_failure (vol d) b k body e)
    (λ d', put_effect b k d d' ∧ touched b k body opts (vol d) (vol d')) d.
Proof.
  intros Hk Hopts Hlay. unfold FsEngine.put_object.
  assert (put_effect b k d d ∧ touched b k body opts (vol d) (vol d)) as Hid
    by (split; [apply put_effect_refl, Hlay|by left]).
  apply wp_bind, wp_existing_bucket_dir; [done| | | | |done].
  2: { intros Hb. split; [done|by constructor]. }
  2: { intros _ Hn. split; [done|by constructor]. }
  2: { intros e He. split; [done|by apply pf_fault]. }
  intros Hb Hbkt. apply wp_bind, wp_mapE. rewrite tmp_dir_names. unfold names_of.
  eapply wp_mono; [apply wp_create; rewrite ?tmp_path_eq; [apply dd_head_path|apply Hlay|apply Hlay|apply tmp_roomy]| | |];
    rewrite ?tmp_path_eq.
  2: { intros e d1 [-> Hf]. split; [done|]. apply pf_io; [done..|]. intros Hpt. exists e. apply Hf, Hpt. }
  2: { intros d1 [-> _]. done. }
  intros st d1 (n & Hpath & Hc & Hst).
  assert (resolve (path st) = tmp_path ++ [n]) as Hres.
  { rewrite Hpath, resolve_normals, <- tmp_path_eq. by rewrite <- !app_assoc. }
  apply wp_bind, (wp_or_drop_staging st (tmp_path ++ [n]) d); [done|done| |].
  2: { intros d2 Hdeb. eapply debris_untouched; [|exact Hdeb].
       destruct Hdeb as [[-> _]|[? []]]; [apply Hlay|done]. }
  eapply wp_mono; [apply (wp_stage_body st (tmp_path ++ [n]) body (FsEngine.new_upload opts) [] d d1);
    [done|done|unfold u64, u64_MAX; cbn; lia]| | |].
  2: { intros e d2 [Hst2 He]. split; [done|]. intros d3 Hdeb Hwf3.
       split; [by eapply debris_untouched|].
       destruct He as [(err & ? & _)|(err & ? & ->)]; [apply pf_io; [done..|]; by exists err|by apply pf_body]. }
  2: { intros d2 [data Hst2]. by eapply staging_untouched. }
  intros u d2 (data & Hbody & -> & Hst2). cbn [app] in Hst2.
  apply wp_bind, wp_bind, wp_now. intros ns. apply wp_ret.
  change (FsEngine.new_entry opts (upload_of (FsEngine.new_upload opts) data) (epoch_ms ns))
    with (entry_for opts data (epoch_ms ns)).
  apply wp_bind, wp_with_lock, wp_with_lock, wp_bind, wp_attempt.
  pose proof (staging_layout _ _ _ _ Hst2 Hlay) as Hlay2.
  apply wp_existing_bucket_dir; [done| |congruence| | |].
  - intros _ _. apply wp_bind.
    eapply wp_mono; [apply (wp_publish_object b k st n data (entry_for opts data (epoch_ms ns)) d d2); try done;
      by apply entry_for_valid| | |].
    + intros info d3 [-> Hdone]. do 2 apply wp_ret. exists data, ns. done.
    + intros e d3 [[Heff Htorn] Hf]. split; [|apply pf_io; auto]. split; [done|]. right. eauto.
    + intros d3 [Heff Htorn]. split; [done|]. right. eauto.
  - intros _ Hn. destruct Hn. by apply (staging_bucket b _ _ _ _ Hst2).
  - intros e He. apply wp_ret, wp_bind.
    eapply (wp_drop_staging st (tmp_path ++ [n])); [done|done|exact Hst2| |].
    + intros d3 Hdeb Hwf3. apply wp_throw. split; [by eapply debris_untouched|]. apply pf_io; eauto.
    + intros d3 Hdeb. eapply debris_untouched; [|exact Hdeb].
      destruct Hdeb as [[-> _]|[? []]]; [apply Hlay|done].
  - intros _. by eapply staging_untouched.
Qed.

(** Without the bucket nothing happens. *)
Lemma wp_put_no_bucket b k body opts d :
  layout (vol d) → ¬ (is_valid_bucket_name b = true ∧ bucket_at (vol d) b) →
  wp (FsEngine.put_object engine b k body opts) (λ _ _, False) (λ _ d', d' = d) (λ d', d' = d) d.
Proof.
  intros Hlay Hn. apply wp_bind, wp_existing_bucket_dir; try done. intros. exfalso. auto.
Qed.

Lemma put_effect_buckets b k b' d d' :
  put_effect b k d d' → bucket_at (vol d) b → bucket_at (vol d') b' ↔ bucket_at (vol d) b'.
Proof.
  intros [Hg _] Hb. unfold bucket_at in *. split; [|by apply (gr_dirs _ _ _ _ Hg)].
  intros [?|Hp]%(gr_new _ _ _ _ Hg); [done|]. unfold object_path, objects_path in Hp.
  rewrite <- app_assoc in Hp. unfold bucket_path in *. rewrite <- app_assoc in Hp.
  apply prefix_app_inv, prefix_cons_inv_1 in Hp as ->. done.
Qed.

Lemma records_object m b k data entry :
  version_id entry = NULL_VERSION_ID → delete_marker entry = false →
  records m b k entry → file_at m (data_path b k NULL_VERSION_ID) = Some data →
  object_at m b k = Some (entry, data).
Proof.
  intros Hid Hdm (bytes & mf & Hf & Hp & Hl) Hd. unfold object_at, entry_at.
  rewrite Hf. cbn. rewrite Hp. cbn. rewrite Hl. cbn. rewrite Hdm. cbn. by rewrite Hid, Hd.
Qed.

(** The objects after a put that returned. *)
Lemma put_done_object b k data entry d d' :
  version_id entry = NULL_VERSION_ID → delete_marker entry = false →
  put_done b k data entry d d' → object_at (vol d') b k = Some (entry, data).
Proof.
  intros Hid Hdm [_ Hdata Hrec _ _]. by apply records_object.
Qed.

Lemma torn_object b k data entry m m' :
  version_id entry = NULL_VERSION_ID → delete_marker entry = false →
  torn b k data entry m m' →
  (∀ id, id ≠ NULL_VERSION_ID → file_at m' (data_path b k id) = file_at m (data_path b k id)) →
  (entry_at m' b k = entry_at m b k
   ∧ (object_at m' b k = object_at m b k
      ∨ ∃ e, entry_at m b k = Some e ∧ version_id e = NULL_VERSION_ID ∧ object_at m' b k = Some (e, data)))
  ∨ object_at m' b k = Some (entry, data).
Proof.
  intros Hid Hdm Ht Hother. destruct Ht as [[Hm Hd]|[Hd (bytes & mf & Hf & Hp & Hl)]].
  - left. assert (entry_at m' b k = entry_at m b k) as He by (unfold entry_at; by rewrite Hm).
    split; [done|]. unfold object_at. rewrite He. destruct (entry_at m b k) as [e|] eqn:Hent; [|by left].
    cbn. destruct (decide (version_id e = NULL_VERSION_ID)) as [Hv|Hv].
    + rewrite Hv. destruct Hd as [->|Hd]; [by left|]. right. exists e. split_and!; [done..|]. by rewrite Hd.
    + left. by rewrite Hother.
  - right. apply records_object; try done. by exists bytes, mf.
Qed.

Lemma own_file_other_version b k id : id ≠ NULL_VERSION_ID → ¬ own_file b k (data_path b k id).
Proof.
  intros Hid [[Heq|Heq]|Ht].
  - apply app_inj_tail in Heq as [_ Heq]. by apply (meta_not_data id).
  - apply app_inj_tail in Heq as [_ Heq]. by apply data_file_name_inj in Heq.
  - apply is_child_spec in Ht as [x Hx]. eapply (tmp_not_object b k). unfold data_path in Hx. rewrite Hx.
    by apply prefix_app_r.
Qed.

(** The bucket was there, or nothing was done. *)
Lemma wp_put_bucket b k body opts d :
  layout (vol d) →
  wp (FsEngine.put_object engine b k body opts)
    (λ _ d', is_valid_bucket_name b = true ∧ bucket_at (vol d) b)
    (λ _ d', is_valid_bucket_name b = true ∧ bucket_at (vol d) b ∨ d' = d)
    (λ d', is_valid_bucket_name b = true ∧ bucket_at (vol d) b ∨ d' = d) d.
Proof.
  intros Hlay. destruct (decide (is_valid_bucket_name b = true)) as [Hb|Hb];
    [destruct (decide (vol d !! bucket_path b = Some NDir)) as [Hd|Hd]|].
  - apply wp_true; auto.
  - eapply wp_mono; [apply wp_put_no_bucket; [done|by intros [_ ?]]|done|by right|by right].
  - eapply wp_mono; [apply wp_put_no_bucket; [done|by intros [? _]]|done|by right|by right].
Qed.

(** Outside the staging directory nothing is different. *)
Definition only_staged (m m' : tree) : Prop := ∀ q, is_child tmp_path q = false → m' !! q = m !! q.

Lemma debris_only_staged n d d' : debris (tmp_path ++ [n]) d d' → only_staged (vol d) (vol d').
Proof.
  intros [[-> _]|(data & [_ [s ->] _ _])] q Hq; [done|]. apply lookup_insert_ne. intros <-.
  by rewrite is_child_here in Hq.
Qed.

(** An upload that breaks off, or whose key has too long a path, is refused with the
    error that says so, and has made no directory. *)
Lemma wp_put_refused b k body opts d :
  utf8 k → layout (vol d) → is_valid_bucket_name b = true → bucket_at (vol d) b → fresh_names tmp_path (vol d) →
  (∃ err, collect body = Err err) ∨ path_max < path_len (object_path b k) →
  wp (FsEngine.put_object engine b k body opts) (λ _ _, False)
    (λ e d', only_staged (vol d) (vol d')
       ∧ ((∃ err, injected err)
          ∨ match collect body with Ok _ => e = KeyTooLong | Err err => e = from_io err end))
    (λ d', only_staged (vol d) (vol d')) d.
Proof.
  intros Hk Hlay Hb Hbkt Hfresh Hcase. unfold FsEngine.put_object.
  assert (only_staged (vol d) (vol d)) as Hid by done.
  apply wp_bind, wp_existing_bucket_dir; [done| |congruence|done|intros e He; split; [done|eauto]|done].
  intros _ _. apply wp_bind, wp_mapE. rewrite tmp_dir_names. unfold names_of.
  eapply wp_mono; [apply wp_create; rewrite ?tmp_path_eq; [apply dd_head_path|apply Hlay|apply Hlay|apply tmp_roomy]| | |];
    rewrite ?tmp_path_eq.
  2: { intros e d1 [-> Hf]. split; [done|]. left. exists e. by apply Hf. }
  2: { intros d1 [-> _]. done. }
  intros st d1 (n & Hpath & Hc & Hst).
  assert (resolve (path st) = tmp_path ++ [n]) as Hres.
  { rewrite Hpath, resolve_normals, <- tmp_path_eq. by rewrite <- !app_assoc. }
  apply wp_bind, (wp_or_drop_staging st (tmp_path ++ [n]) d); [done|done| |by eauto using debris_only_staged].
  eapply wp_mono; [apply (wp_stage_body st (tmp_path ++ [n]) body (FsEngine.new_upload opts) [] d d1);
    [done|done|unfold u64, u64_MAX; cbn; lia]| | |].
  2: { intros e d2 [Hst2 He]. split; [done|]. intros d3 Hdeb _. split; [by eapply debris_only_staged|].
       destruct He as [(err & ? & _)|(err & -> & ->)]; eauto. }
  2: { intros d2 [data Hst2]. eapply debris_only_staged. right. eauto. }
  intros u d2 (data & Hbody & -> & Hst2). destruct Hcase as [[err ?]|Hlong]; [congruence|].
  assert (only_staged (vol d) (vol d2)) as Hs2 by (eapply debris_only_staged; right; eauto).
  apply wp_bind, wp_bind, wp_now. intros ns. apply wp_ret, wp_bind, wp_with_lock, wp_with_lock, wp_bind, wp_attempt.
  pose proof (staging_layout _ _ _ _ Hst2 Hlay) as Hlay2.
  apply wp_existing_bucket_dir; [done| |congruence| | |done].
  - intros _ _. apply wp_bind. unfold FsEngine.publish_object. cbn zeta.
    apply wp_bind, wp_mapE. rewrite (object_file_names b k (data_file_name NULL_VERSION_ID))
      by (done || apply data_file_name_plain).
    eapply wp_mono; [eapply (wp_commit_long dd_head _ _ st (tmp_path ++ [n]) _ d d2);
      [apply dd_head_path|done|done|apply Hlay2|by rewrite object_path_resolve|exact Hst2]|done| |].
    + intros e d3 (Hdeb & _ & He). split; [by eapply debris_only_staged|]. rewrite Hbody.
      destruct He as [He|?]; [right|eauto]. unfold from_io. by rewrite He.
    + intros d3 Hdeb. by eapply debris_only_staged.
  - intros _ Hn. destruct Hn. by apply (staging_bucket b _ _ _ _ Hst2).
  - intros e He. apply wp_ret, wp_bind.
    eapply (wp_drop_staging st (tmp_path ++ [n])); [done|done|exact Hst2| |by eauto using debris_only_staged].
    intros d3 Hdeb _. apply wp_throw. split; [by eapply debris_only_staged|eauto].
Qed.

(** What a put never changes. *)
Lemma put_effect_frame b k d d' :
  utf8 k → layout (vol d) → put_effect b k d d' → bucket_at (vol d) b ∨ d' = d →
  layout (vol d') ∧ (∀ b', bucket_at (vol d') b' ↔ bucket_at (vol d) b')
  ∧ ∀ b' k', utf8 k' → (b', k') ≠ (b, k) → object_at (vol d') b' k' = object_at (vol d) b' k'.
Proof.
  intros Hk Hlay Heff Hb. split_and!; [by eapply put_effect_layout| |].
  - intros b'. destruct Hb as [Hb| ->]; [by eapply put_effect_buckets|done].
  - apply object_at_frame; [done|]. intros q Hq. eapply gr_files; [apply Heff|done].
Qed.

(** The key after a put that did not return. *)
Definition old_or_new (b k : str) (body : BoxByteStream) (opts : PutOpts) (m m' : tree) : Prop :=
  (entry_at m' b k = entry_at m b k
   ∧ (object_at m' b k = object_at m b k
      ∨ ∃ e data, collect body = Ok data ∧ entry_at m b k = Some e
          ∧ version_id e = NULL_VERSION_ID ∧ object_at m' b k = Some (e, data)))
  ∨ ∃ data ns, collect body = Ok data
      ∧ object_at m' b k = Some (entry_for opts data (epoch_ms ns), data).

Lemma touched_object b k body opts d d' :
  put_effect b k d d' → touched b k body opts (vol d) (vol d') →
  old_or_new b k body opts (vol d) (vol d').
Proof.
  intros Heff Ht.
  assert (∀ id, id ≠ NULL_VERSION_ID →
    file_at (vol d') (data_path b k id) = file_at (vol d) (data_path b k id)) as Hother.
  { intros id Hid. eapply gr_files; [apply Heff|by apply own_file_other_version]. }
  destruct Ht as [[Hm Hd]|(data & ns & Hc & Ht)].
  - left. assert (entry_at (vol d') b k = entry_at (vol d) b k) as He by (unfold entry_at; by rewrite Hm).
    split; [done|]. left. unfold object_at. rewrite He.
    destruct (entry_at (vol d) b k) as [e|]; [|done]. cbn.
    destruct (decide (version_id e = NULL_VERSION_ID)) as [->|Hv]; [by rewrite Hd|by rewrite Hother].
  - destruct (torn_object b k data (entry_for opts data (epoch_ms ns)) (vol d) (vol d')) as [[He Ho]|Ho];
      [done..| |right; eauto]. left. split; [done|]. destruct Ho as [?|(e & ? & ? & ?)]; [by left|right; eauto 10].
Qed.

(** C9: [put_object] changes the object it is about and nothing else, whatever
    fails and wherever the process dies.  In every outcome the layout stands,
    the buckets are the same and every other object of every bucket is what it
    was.  If it returns, the body arrived whole, the object now holds exactly
    its bytes, and the description returned is the recorded one.  If it fails
    or dies, the key still shows the version it showed before, or the new
    object; the one state in between is the old version entry over the new
    bytes, and only when there was an unversioned object to overwrite.  It fails
    only for an invalid name, a missing bucket, a body that broke off, a fault,
    or because the way to the key's files is not free. *)
Theorem put_object_atomic b k body opts w :
  utf8 k → opts_ok opts → layout (vol (wdisk w)) →
  let '(r, w') := FsEngine.put_object engine b k body opts w in
  let m := vol (wdisk w) in let m' := vol (wdisk w') in
  layout m'
  ∧ (∀ b', bucket_at m' b' ↔ bucket_at m b')
  ∧ (∀ b' k', utf8 k' → (b', k') ≠ (b, k) → object_at m' b' k' = object_at m b' k')
  ∧ match r with
    | Some (Ok info) =>
        ∃ data ns, collect body = Ok data
          ∧ info = object_info k (entry_for opts data (epoch_ms ns))
          ∧ object_at m' b k = Some (entry_for opts data (epoch_ms ns), data)
    | Some (Err e) => old_or_new b k body opts m m' ∧ put_failure m b k body e
    | None => old_or_new b k body opts m m'
    end.
Proof.
  intros Hk Hopts Hlay.
  pose proof (wp_run _ _ _ _ w (wp_and _ _ _ _ _ _ _ _ (wp_put_object b k body opts (wdisk w) Hk Hopts Hlay)
    (wp_put_bucket b k body opts (wdisk w) Hlay))) as Hwp.
  destruct (FsEngine.put_object engine b k body opts w) as [[[info|e]|] w']; cbn.
  - destruct Hwp as [(data & ns & Hc & Hi & Hdone) [_ Hb]].
    destruct (put_effect_frame b k _ _ Hk Hlay (pd_effect _ _ _ _ _ _ Hdone) (or_introl Hb)) as (? & ? & ?).
    split_and!; [done..|]. exists data, ns. split_and!; [done..|]. by eapply put_done_object.
  - destruct Hwp as [[[Heff Ht] Hf] Hb].
    destruct (put_effect_frame b k _ _ Hk Hlay Heff) as (? & ? & ?); [naive_solver|].
    split_and!; [done..| |done]. by apply touched_object.
  - destruct Hwp as [[Heff Ht] Hb].
    destruct (put_effect_frame b k _ _ Hk Hlay Heff) as (? & ? & ?); [naive_solver|].
    split_and!; [done..|]. by apply touched_object.
Qed.

(** C10: a put that can succeed does: with no faults, in an existing bucket, with
    the way to the key free and short enough for the file system, a readable
    manifest and a body that arrives whole, [put_object] returns.  If every
    directory was on the disk before (which neither [open] nor a concurrent put
    ensures, see [open_leaves_layout_volatile] and [acknowledged_put_volatile]),
    every directory is on the disk again, and what was acknowledged survives a
    loss of power: on any tree it may leave, the object is there with its
    bytes. *)
Theorem put_object_durable b k body opts data w :
  utf8 k → opts_ok opts → layout (vol (wdisk w)) →
  is_valid_bucket_name b = true → bucket_at (vol (wdisk w)) b → puttable b k (vol (wdisk w)) →
  collect body = Ok data → NoFaults E →
  ∃ ns w', FsEngine.put_object engine b k body opts w
           = (Some (Ok (object_info k (entry_for opts data (epoch_ms ns)))), w')
    ∧ (dirs_durable (wdisk w) → dirs_durable (wdisk w')
       ∧ ∀ m, power_loss (wdisk w') m →
           object_at m b k = Some (entry_for opts data (epoch_ms ns), data)).
Proof.
  intros Hk Hopts Hlay Hb Hbkt Hpt Hc Hnf.
  pose proof (wp_run _ _ _ _ w (wp_put_object b k body opts (wdisk w) Hk Hopts Hlay)) as Hwp.
  assert (∀ e, ¬ injected e) as Hni by (intros e; apply no_injected).
  destruct (FsEngine.put_object engine b k body opts w) as [[[info|e]|] w'] eqn:Hrun.
  - destruct Hwp as (data' & ns & Hc' & -> & Hdone). assert (data' = data) as -> by congruence.
    exists ns, w'. split; [done|]. intros Hdd. destruct (pd_durable _ _ _ _ _ _ Hdone Hdd) as (Hdd' & Hdm & Hdt).
    split; [done|]. intros m Hm.
    assert (∀ q, durable (wdisk w') q → m !! q = vol (wdisk w') !! q) as Heq.
    { intros q Hq. destruct (Hm q) as [->| ->]; [|done]. by apply Hq. }
    destruct Hdone as [_ Hd (bytes & mf & Hf & Hp & Hl) _ _].
    apply records_object; [done|done|exists bytes, mf|]; unfold file_at in *; by rewrite Heq.
  - destruct Hwp as [_ Hf]. exfalso. eapply put_failure_fault in Hf as [err Herr]; eauto. by eapply Hni.
  - exfalso. eapply (tidy_answers _ w w'); [apply tidy_put_object|exact Hrun].
Qed.
End put.

(** ** Reading an object *)

Section get.
Context {E : Env} {D : DataDir} `{!EnvOk E}.
Context {HS : HashCrates} {MD : Md5Crate} {RD : Reads}.
Context `{!Serde VersionManifest, !Serde BucketMeta, !Serde DiskFormat}.

(** Why a read of a key fails. *)
Inductive read_failure (m : tree) (b k : str) : EngineError → Prop :=
  | rf_name : is_valid_bucket_name b = false → read_failure m b k InvalidBucketName
  | rf_bucket : ¬ bucket_at m b → read_failure m b k NoSuchBucket
  | rf_key : is_valid_bucket_name b = true → bucket_at m b → object_at m b k = None →
      just_missing m (meta_path b k) → read_failure m b k NoSuchKey
  | rf_fault err : injected err → read_failure m b k (from_io err)
  | rf_manifest err : is_valid_bucket_name b = true → bucket_at m b → manifest_error m b k err →
      read_failure m b k (from_io err)
  | rf_data err e : is_valid_bucket_name b = true → bucket_at m b → entry_at m b k = Some e →
      walk m (data_path b k (version_id e)) = Err err → kind err ≠ KNotFound → read_failure m b k (from_io err).

Lemma object_at_entry m b k e : entry_at m b k = Some e →
  object_at m b k = (λ data, (e, data)) <$> file_at m (data_path b k (version_id e)).
Proof. intros He. unfold object_at. rewrite He. cbn. by destruct (file_at _ _). Qed.

Lemma read_error_failure m b k e : is_valid_bucket_name b = true → bucket_at m b →
  read_error m b k e → read_failure m b k e.
Proof.
  intros Hv Hb [(-> & Hn & Hj)|[(err & Hi & ->)|(err & -> & Hm)]].
  - apply rf_key; [done..| |done]. unfold object_at. by rewrite Hn.
  - by apply rf_fault.
  - by apply rf_manifest.
Qed.

Lemma entry_file m b k e : entry_at m b k = Some e → ∃ bytes s, m !! meta_path b k = Some (NFile bytes s).
Proof.
  unfold entry_at. destruct (file_at m (meta_path b k)) as [bytes|] eqn:Hf; [|done]. intros _.
  apply file_at_Some in Hf as [s Hs]. eauto.
Qed.

Lemma entry_just_missing m b k e : wf m → entry_at m b k = Some e → just_missing m (meta_path b k).
Proof. intros Hwf (bytes & s & Hf)%entry_file. by eapply found_just_missing. Qed.

(** A path that is too long as a whole holds nothing, and the error says so. *)
Lemma long_no_entry m b k : wf m → (path_max < path_len (meta_path b k))%nat → entry_at m b k = None.
Proof.
  intros Hwf Hl. unfold entry_at, file_at.
  by rewrite (walk_Err m (meta_path b k) _ Hwf (walk_long m (meta_path b k) Hl)).
Qed.

Lemma long_read_failure m b k e : wf m → is_valid_bucket_name b = true → bucket_at m b →
  (path_max < path_len (meta_path b k))%nat → (¬ ∃ err, injected err) → read_failure m b k e → e = KeyTooLong.
Proof.
  intros Hwf Hv Hb Hl Hni Hf. pose proof (walk_long m (meta_path b k) Hl) as Hw.
  destruct Hf as [| |_ _ _ Hj|err Hi|err _ _ Hm|err e _ _ He _ _]; try done.
  - congruence.
  - by specialize (Hj _ Hw).
  - by destruct Hni; exists err.
  - destruct Hm as [[Hw' _]|[[Hd _]|(_ & data & [s Hf]%file_at_Some & _)]].
    + rewrite Hw in Hw'. injection Hw' as <-. done.
    + by rewrite (walk_complete _ _ _ Hwf Hd) in Hw.
    + by rewrite (walk_complete _ _ _ Hwf Hf) in Hw.
  - by rewrite long_no_entry in He.
Qed.

(** What [get_object] answers. *)
Definition get_answer (m : tree) (b k : str) (range : option ByteRange)
    (r : ObjectInfo * N * N * BoxByteStream) : Prop :=
  let '(info, offset, len, body) := r in
  is_valid_bucket_name b = true ∧ bucket_at m b ∧ ∃ entry, entry_at m b k = Some entry ∧ info = object_info k entry
    ∧ resolve_range range (size entry) = Ok (offset, len)
    ∧ is_Some (m !! data_path b k (version_id entry))
    ∧ ∀ data, file_at m (data_path b k (version_id entry)) = Some data →
        body = file_stream reads (drop (N.to_nat offset) data) len.

Lemma wp_get_object b k range d :
  utf8 k → layout (vol d) →
  wp (FsEngine.get_object engine b k range)
    (λ r d', d' = d ∧ get_answer (vol d) b k range r)
    (λ e d', d' = d ∧ (read_failure (vol d) b k e
       ∨ e = InvalidRange ∧ is_valid_bucket_name b = true ∧ bucket_at (vol d) b
           ∧ ∃ entry, entry_at (vol d) b k = Some entry ∧ resolve_range range (size entry) = Err InvalidRange))
    (λ d', d' = d) d.
Proof.
  intros Hk Hlay. unfold FsEngine.get_object. apply wp_bind, wp_existing_bucket_dir; [done| | | | |done].
  2: { intros Hb. split; [done|]. left. by apply rf_name. }
  2: { intros _ Hn. split; [done|]. left. by apply rf_bucket. }
  2: { intros e He. split; [done|]. left. by apply rf_fault. }
  intros Hb Hbkt. apply wp_bind, wp_live_version; [done..| | |done].
  2: { intros e He. split; [done|]. left. by apply read_error_failure. }
  intros entry Hent. apply wp_bind, wp_lift.
  2: { intros e He. split; [done|]. right. assert (e = InvalidRange) as ->; [|by eauto 10].
       unfold resolve_range in He. repeat case_match; congruence. }
  intros [offset len] Hr. apply wp_bind, wp_attempt.
  apply wp_metadata; rewrite ?object_file_resolve by (done || apply data_file_name_plain);
    try fold (data_path b k (version_id entry)).
  - intros x Hx _.
    assert (get_answer (vol d) b k range (object_info k entry, offset, len, FsEngine.stream_from x offset len)) as Ha.
    { split_and!; [done..|]. exists entry. split_and!; [done..|by eexists|]. intros data. unfold file_at. rewrite Hx. destruct x; [done|].
      by intros [= <-]. }
    apply wp_bind. destruct (0 <? offset)%N.
    + apply wp_mapE, wp_atomic; [by intros [] ? [= <-]; apply wp_ret|by intros ? ? [=]| |done].
      intros e He. split; [done|]. left. by apply rf_fault.
    + by do 2 apply wp_ret.
  - intros e He. assert (vol d !! data_path b k (version_id entry) = None) as Hno
      by (eapply walk_Err; [apply Hlay|done]).
    assert (file_at (vol d) (data_path b k (version_id entry)) = None) as Hfn by (unfold file_at; by rewrite Hno).
    case_bool_decide; apply wp_throw; (split; [done|]); left.
    + apply rf_key; [done..| |by eapply entry_just_missing; [apply Hlay|]].
      rewrite (object_at_entry _ _ _ _ Hent), Hfn. done.
    + by eapply rf_data.
  - intros e He. rewrite bool_decide_false by by apply injected_not_found. apply wp_throw.
    split; [done|]. left. by apply rf_fault.
  - done.
Qed.

Lemma wp_head_object b k d :
  utf8 k → layout (vol d) →
  wp (FsEngine.head_object engine b k)
    (λ info d', d' = d ∧ is_valid_bucket_name b = true ∧ bucket_at (vol d) b
       ∧ ∃ entry, entry_at (vol d) b k = Some entry ∧ info = object_info k entry)
    (λ e d', d' = d ∧ read_failure (vol d) b k e) (λ d', d' = d) d.
Proof.
  intros Hk Hlay. unfold FsEngine.head_object. apply wp_bind, wp_existing_bucket_dir; [done| | | | |done].
  2: { intros Hb. split; [done|]. by apply rf_name. }
  2: { intros _ Hn. split; [done|]. by apply rf_bucket. }
  2: { intros e He. split; [done|]. by apply rf_fault. }
  intros Hb Hbkt. apply wp_bind, wp_live_version; [done..| | |done].
  - intros entry Hent. apply wp_ret. eauto 10.
  - intros e He. split; [done|]. by apply read_error_failure.
Qed.

End get.

Section put_get.
Context {E : Env} {D : DataDir} `{!EnvOk E}.
Context {HS : HashCrates} {MD : Md5Crate} {RD : Reads}.
Context `{!Serde VersionManifest, !Serde BucketMeta, !Serde DiskFormat}.
Context `{!HashCratesLaws HS, !Md5Laws MD, !SerdeLaws VersionManifest valid_manifest}.

Lemma entry_for_size opts data mtime : (N.of_nat (length data) <= u64_MAX)%N →
  size (entry_for opts data mtime) = N.of_nat (length data).
Proof. intros Hl. unfold entry_for. cbn. by rewrite u64_add_exact by lia. Qed.

(** After a put that returned, a read without faults cannot fail. *)
Lemma put_done_readable b k data entry e d d' :
  NoFaults E → is_valid_bucket_name b = true → bucket_at (vol d) b →
  version_id entry = NULL_VERSION_ID → delete_marker entry = false →
  put_done b k data entry d d' → ¬ read_failure (vol d') b k e.
Proof.
  intros Hnf Hb Hbkt Hid Hdm Hdone Hrf.
  pose proof (put_done_object _ _ _ _ _ _ Hid Hdm Hdone) as Hobj.
  destruct Hdone as [Heff Hd (bytes & mf & Hf & Hp & Hl) _ _].
  assert (wf (vol d')) as Hwf by apply (gr_wf _ _ _ _ (pe_grows _ _ _ _ Heff)).
  destruct Hrf as [|Hn| |err Hi|err _ _ Hm|err e _ _ He Hdn Hk].
  - congruence.
  - apply Hn. by apply (gr_dirs _ _ _ _ (pe_grows _ _ _ _ Heff)).
  - congruence.
  - by apply no_injected in Hi.
  - destruct (manifest_error_blocked _ _ _ _ Hm) as [Hbl|(? & ? & ?)]; [|congruence]. by eapply file_not_blocked.
  - rewrite (object_at_entry _ _ _ _ He) in Hobj. destruct (file_at (vol d') (data_path b k (version_id e))) eqn:Hfd; [|done].
    eapply file_not_blocked; [done|done|left; eauto].
Qed.

Lemma put_done_entry b k data entry d d' :
  version_id entry = NULL_VERSION_ID → delete_marker entry = false →
  put_done b k data entry d d' → entry_at (vol d') b k = Some entry.
Proof.
  intros Hid Hdm [_ _ (bytes & mf & Hf & Hp & Hl) _ _].
  unfold entry_at. rewrite Hf. cbn. rewrite Hp. cbn. rewrite Hl. cbn. by rewrite Hdm.
Qed.

(** The stream over a span inside the data delivers it. *)
Lemma collect_span data offset len :
  (∀ i err, reads i ≠ ReadFails err) → (N.of_nat (length data) <= u64_MAX)%N →
  (offset + len <= N.of_nat (length data))%N →
  collect (file_stream reads (drop (N.to_nat offset) data) len)
  = Ok (take (N.to_nat len) (drop (N.to_nat offset) data)).
Proof.
  intros Hreads Hlen Hbound. assert (u64 len) as Hu by (unfold u64; lia).
  destruct (stream_items_spec reads (S (length (drop (N.to_nat offset) data))) 0
    (drop (N.to_nat offset) data) len Hu ltac:(lia)) as (H1 & _). unfold delivers in H1.
  unfold file_stream. destruct (collect (stream_items _ _ _ _ _)) as [bd|err]; [by destruct H1 as [_ ->]|].
  destruct H1 as [[j Hj]|[_ Hshort]]; [by destruct (Hreads j err)|].
  rewrite length_drop in Hshort. lia.
Qed.

Lemma wp_get_after_put b k opts data ns range offset len d d' :
  NoFaults E → (∀ i err, reads i ≠ ReadFails err) → utf8 k → layout (vol d) →
  is_valid_bucket_name b = true → bucket_at (vol d) b →
  (N.of_nat (length data) <= u64_MAX)%N →
  resolve_range range (N.of_nat (length data)) = Ok (offset, len) →
  put_done b k data (entry_for opts data (epoch_ms ns)) d d' →
  wp (FsEngine.get_object engine b k range)
    (λ r _, ∃ stream, r = (object_info k (entry_for opts data (epoch_ms ns)), offset, len, stream)
      ∧ collect stream = Ok (take (N.to_nat len) (drop (N.to_nat offset) data)))
    (λ _ _, False) (λ _, True) d'.
Proof.
  intros Hnf Hreads Hk Hlay Hb Hbkt Hlen Hr Hdone. set (entry := entry_for opts data (epoch_ms ns)) in *.
  pose proof (put_effect_layout _ _ _ _ (pd_effect _ _ _ _ _ _ Hdone) Hlay) as Hlay'.
  pose proof (put_done_entry b k data entry d d' eq_refl eq_refl Hdone) as Hent.
  assert (size entry = N.of_nat (length data)) as Hsize by (by apply entry_for_size).
  eapply wp_mono; [by apply wp_get_object| | |done].
  - intros [[[info' off'] len'] stream] d'' (_ & _ & _ & e & He & -> & Hr' & _ & Hs).
    assert (e = entry) as -> by congruence. rewrite Hsize, Hr in Hr'.
    injection Hr' as <- <-. exists stream. split; [done|].
    rewrite (Hs data (pd_data _ _ _ _ _ _ Hdone)). apply collect_span; [done|done|].
    by eapply resolve_range_bounds.
  - intros e d'' (_ & [Hrf|(-> & _ & _ & e' & He & Hr')]).
    + eapply (put_done_readable b k data entry e d d'); try done.
    + assert (e' = entry) as -> by congruence. congruence.
Qed.

(** C11: what is written is what is read.  Without faults, a put into an existing
    bucket, with the way to the key free and short enough for the file system and
    a readable manifest if there is one, followed by a get of any satisfiable range
    returns the description the put recorded (size, MD5 etag, type, metadata, checksum) and a body that
    delivers exactly the bytes of that range of the uploaded data, however the
    upload was split into chunks and whatever sizes the reads come back with. *)
Theorem put_then_get b k body opts data range offset len w :
  NoFaults E → (∀ i err, reads i ≠ ReadFails err) →
  utf8 k → opts_ok opts → layout (vol (wdisk w)) →
  is_valid_bucket_name b = true → bucket_at (vol (wdisk w)) b → puttable b k (vol (wdisk w)) →
  collect body = Ok data → (N.of_nat (length data) <= u64_MAX)%N →
  resolve_range range (N.of_nat (length data)) = Ok (offset, len) →
  ∃ ns stream w',
    (FsEngine.put_object engine b k body opts;;; FsEngine.get_object engine b k range) w
    = (Some (Ok (object_info k (entry_for opts data (epoch_ms ns)), offset, len, stream)), w')
    ∧ collect stream = Ok (take (N.to_nat len) (drop (N.to_nat offset) data)).
Proof.
  intros Hnf Hreads Hk Hopts Hlay Hb Hbkt Hpt Hc Hlen Hr.
  assert (wp (FsEngine.put_object engine b k body opts;;; FsEngine.get_object engine b k range)
    (λ r _, ∃ ns stream, r = (object_info k (entry_for opts data (epoch_ms ns)), offset, len, stream)
      ∧ collect stream = Ok (take (N.to_nat len) (drop (N.to_nat offset) data)))
    (λ _ _, False) (λ _, True) (wdisk w)) as Hwp.
  { apply wp_bind. eapply wp_mono; [by apply wp_put_object| | |done].
    - intros info d' (data' & ns & Hc' & -> & Hdone). assert (data' = data) as -> by congruence.
      eapply wp_mono; [by apply (wp_get_after_put b k opts data ns range offset len (wdisk w))| |done..].
      intros r d'' (stream & ? & ?). eauto.
    - intros e d' [_ Hf]. eapply put_failure_fault in Hf as [err Herr]; eauto. by apply no_injected in Herr. }
  apply wp_run in Hwp. destruct ((_;;; _) w) as [[[r|e]|] w'] eqn:Hrun; [|done|].
  - destruct Hwp as (ns & stream & -> & Hs). by exists ns, stream, w'.
  - exfalso. eapply (tidy_answers _ w w'); [|exact Hrun].
    apply tidy_bind; [apply tidy_put_object|intro; apply tidy_get_object].
Qed.
End put_get.
