(* ===== verification/FsDelete.v ===== *)
(** * What [delete_object] guarantees

    It takes the key's two files away and prunes directories that became
    empty; whatever fails, no other object is touched.  When it returns the
    object is gone, and without faults it stays gone after a loss of power. *)

From S2P Require Import Prelude RustStr RustPath Paths Checksum EngineError Fs FsFacts Atomic Meta Layer Walk FsBase Listing FsEngine Tidy FsObject.

Section delete.
Context {E : Env} {D : DataDir} `{!EnvOk E}.
Context {HS : HashCrates} {MD : Md5Crate} {RD : Reads}.
Context `{!Serde VersionManifest, !Serde BucketMeta, !Serde DiskFormat}.

(** From [m] to [m'] at most the key's files and directories below [objects/]
    have gone. *)
Record shrinks (b k : str) (m m' : tree) : Prop := {
  sh_same q : q ≠ meta_path b k → q ≠ data_path b k NULL_VERSION_ID →
    m' !! q = m !! q
    ∨ m !! q = Some NDir ∧ m' !! q = None ∧ ∃ n ns, q = objects_path b ++ n :: ns;
  sh_sub q x : m' !! q = Some x → m !! q = Some x;
  sh_wf : wf m';
}.

Lemma shrinks_refl b k m : wf m → shrinks b k m m.
Proof. intros. split; auto. Qed.

Lemma shrinks_trans b k m1 m2 m3 : shrinks b k m1 m2 → shrinks b k m2 m3 → shrinks b k m1 m3.
Proof.
  intros [S1 U1 _] [S2 U2 W2]. split; [|auto|done]. intros q Hq1 Hq2.
  destruct (S2 q Hq1 Hq2) as [->|(H2 & H3 & Hp)]; [auto|]. right. auto.
Qed.

Lemma shrinks_file b k m q : wf m → m !! q ≠ Some NDir →
  q = meta_path b k ∨ q = data_path b k NULL_VERSION_ID → shrinks b k m (delete q m).
Proof.
  intros Hwf Hq Hown. split.
  - intros q' H1 H2. left. apply lookup_delete_ne. intros ->. by destruct Hown as [->| ->].
  - intros q' x Hx. by apply lookup_delete_Some in Hx as [_ ?].
  - by apply wf_delete_file.
Qed.

Lemma shrinks_dir b k m n ns : wf m → children m (objects_path b ++ n :: ns) = [] →
  m !! (objects_path b ++ n :: ns) = Some NDir →
  shrinks b k m (delete (objects_path b ++ n :: ns) m).
Proof.
  intros Hwf Hc Hd. split.
  - intros q H1 H2. destruct (decide (objects_path b ++ n :: ns = q)) as [<-|Hne].
    + right. rewrite lookup_delete_eq. eauto.
    + left. by apply lookup_delete_ne.
  - intros q' x Hx. by apply lookup_delete_Some in Hx as [_ ?].
  - apply wf_delete; [done|by intros [_ ?]%app_eq_nil|by apply children_nil].
Qed.

Lemma shrinks_files b k m m' q : shrinks b k m m' → ¬ own_file b k q → file_at m' q = file_at m q.
Proof.
  intros [Hs _ _] Hq. unfold file_at.
  destruct (Hs q) as [->|(-> & -> & _)]; [intros ->|intros ->|done|done]; apply Hq; left; auto.
Qed.

Lemma below_objects b n ns : buckets_path `prefix_of` objects_path b ++ n :: ns.
Proof. unfold objects_path, bucket_path. rewrite <- !app_assoc. by apply prefix_app_r. Qed.

(** Directories that are not below [objects/] stay. *)
Lemma shrinks_keep b k m m' q x : shrinks b k m m' → m !! q = Some x →
  q ≠ meta_path b k → q ≠ data_path b k NULL_VERSION_ID →
  (¬ ∃ n ns, q = objects_path b ++ n :: ns) → m' !! q = Some x.
Proof. intros [Hs _ _] Hx H1 H2 Hn. destruct (Hs q H1 H2) as [->|(_ & _ & Hp)]; done. Qed.

Lemma object_file_below b k n : ∃ y ys, object_path b k ++ [n] = objects_path b ++ y :: ys.
Proof.
  unfold object_path. rewrite <- app_assoc.
  destruct (key_names k ++ [n]) as [|y ys] eqn:Hk; [by apply app_eq_nil in Hk as [_ ?]|]. by exists y, ys.
Qed.

Lemma shrinks_dirs b k m m' q x : shrinks b k m m' → m !! q = Some x →
  (¬ ∃ n ns, q = objects_path b ++ n :: ns) → m' !! q = Some x.
Proof.
  intros Hs Hx Hn. eapply shrinks_keep; [done|done| | |done];
    intros ->; apply Hn; apply object_file_below.
Qed.

Lemma shrinks_layout b k m m' : shrinks b k m m' → layout m → layout m'.
Proof.
  intros Hs [Hw Hc Ht Hb Ho].
  assert (∀ q, ¬ buckets_path `prefix_of` q → ¬ ∃ n ns, q = objects_path b ++ n :: ns) as Hout.
  { intros q Hq (n & ns & ->). apply Hq, below_objects. }
  split; [by eapply sh_wf| | | |done].
  - by eapply shrinks_dirs; eauto.
  - eapply shrinks_dirs; [done|done|]. apply Hout. unfold buckets_path, tmp_path.
    intros Hp%prefix_app_inv. by apply prefix_cons_inv_1 in Hp.
  - eapply shrinks_dirs; [done|done|]. intros (n & ns & Heq).
    apply (f_equal length) in Heq. unfold objects_path, bucket_path in Heq.
    rewrite !length_app in Heq. cbn in Heq. lia.
Qed.

Lemma shrinks_buckets b k b' m m' : shrinks b k m m' → bucket_at m' b' ↔ bucket_at m b'.
Proof.
  intros Hs. unfold bucket_at. split; [by apply (sh_sub _ _ _ _ Hs)|].
  intros Hb. eapply shrinks_dirs; [done|done|]. intros (n & ns & Heq).
  apply (f_equal length) in Heq. unfold objects_path, bucket_path in Heq.
  rewrite !length_app in Heq. cbn in Heq. lia.
Qed.

(** ** The steps *)

Lemma wp_remove_if_present b k q p d :
  resolve p = q → q = meta_path b k ∨ q = data_path b k NULL_VERSION_ID → wf (vol d) →
  wp (FsEngine.remove_if_present p)
    (λ _ d', shrinks b k (vol d) (vol d') ∧ dur d' = dur d ∧ vol d' = delete q (vol d))
    (λ e d', d' = d ∧ (injected e ∨ blocked (vol d) q)) (λ d', d' = d) d.
Proof.
  intros Hp Hq Hwf. apply wp_bind, wp_attempt, wp_remove_file; rewrite ?Hp.
  - intros data s Hd. apply wp_ret. split_and!; [|done..]. apply shrinks_file; [done|congruence|done].
  - intros Hd. apply wp_throw. split; [done|]. right. by right.
  - intros e He. case_bool_decide.
    + apply wp_ret. split_and!; [by apply shrinks_refl|done|]. symmetry. apply delete_id. by eapply walk_Err.
    + apply wp_throw. split; [done|]. right. left. eauto.
  - intros e He. rewrite bool_decide_false by by apply injected_not_found. apply wp_throw. auto.
  - done.
Qed.

(** The directory at [objects/ ++ ns]. *)
Definition tree_dir (b : str) (ns : list str) : PathBuf := names_of ([BUCKETS_DIR; b; OBJECTS_DIR] ++ ns).

Lemma tree_dir_resolve b ns : resolve (tree_dir b ns) = objects_path b ++ ns.
Proof.
  unfold tree_dir. rewrite resolve_names. unfold objects_path, bucket_path, buckets_path.
  by rewrite <- !app_assoc.
Qed.

Lemma tree_dir_snoc b ns n : tree_dir b (ns ++ [n]) = tree_dir b ns ++ [Normal n].
Proof. unfold tree_dir, names_of. rewrite (app_assoc [_; _; _]), !app_assoc, fmap_app, app_assoc. done. Qed.

Lemma tree_dir_eq b ns ns' : tree_dir b ns = tree_dir b ns' ↔ ns = ns'.
Proof.
  split; [|by intros ->]. unfold tree_dir, names_of. intros Heq%app_inv_head.
  apply (inj (fmap Normal)) in Heq. by apply app_inv_head, app_inv_head in Heq.
Qed.

Lemma tree_dir_below b ns : path_starts_with (tree_dir b ns) (tree_dir b []) = true.
Proof.
  apply bool_decide_eq_true. exists (Normal <$> ns). unfold tree_dir, names_of.
  rewrite app_nil_r, <- app_assoc, <- fmap_app, <- app_assoc. done.
Qed.

Lemma tree_dir_length b ns : length (tree_dir b ns) = length (tree_dir b []) + length ns.
Proof. unfold tree_dir, names_of. rewrite !length_app, !length_fmap, !length_app. cbn. lia. Qed.

(** No directory on the way to [objects/ ++ ns] is empty. *)
Definition no_empty_dirs (b : str) (ns : list str) (m : tree) : Prop :=
  ∀ l, l ≠ [] → l `prefix_of` ns → m !! (objects_path b ++ l) = Some NDir →
    children m (objects_path b ++ l) ≠ [].

(** Above an entry there is no empty directory. *)
Lemma above_not_empty (m : tree) p q x : wf m → p `prefix_of` q → p ≠ q → m !! q = Some x → children m p ≠ [].
Proof.
  intros Hwf [t ->] Hne Hx Hc. destruct t as [|n t]; [by rewrite app_nil_r in Hne|].
  assert (is_Some (m !! (p ++ [n]))) as [y Hy].
  { destruct t as [|n' t]; [by eexists|]. exists NDir. eapply (wf_prefix m _ (n' :: t)); [done|done|].
    rewrite <- app_assoc. by eexists. }
  rewrite children_nil in Hc. by rewrite Hc in Hy.
Qed.

Lemma no_empty_above b ns m x : wf m → m !! (objects_path b ++ ns) = Some x →
  (x = NDir → children m (objects_path b ++ ns) ≠ []) → no_empty_dirs b ns m.
Proof.
  intros Hwf Hx Hc l _ Hl Hd. destruct (decide (l = ns)) as [->|Hne].
  - apply Hc. congruence.
  - eapply (above_not_empty m _ (objects_path b ++ ns)); [done|by apply prefix_app|by intros ?%app_inv_head|done].
Qed.

Lemma wp_remove_dir_cause p Q F C d : wf (vol d) →
  (vol d !! resolve p = Some NDir → children (vol d) (resolve p) = [] →
     Q () (set_vol (delete (resolve p)) d)) →
  (∀ e, injected e ∨ vol d !! resolve p ≠ Some NDir ∨ children (vol d) (resolve p) ≠ [] → F e d) →
  (halts → C d) → wp (remove_dir p) Q F C d.
Proof.
  intros Hwf HQ HF HC. apply wp_atomic; [| |auto..]; intros r d';
    destruct (walk (vol d) (resolve p)) as [[|]|] eqn:Ew; try done;
    try (case_bool_decide); intros [=]; subst; eauto using walk_Ok; apply HF; right.
  - left. apply walk_Ok in Ew. congruence.
  - left. apply walk_Err in Ew; [congruence|done].
Qed.

Lemma wp_prune_loop {F} b k fuel ns d :
  wf (vol d) → length ns < fuel →
  wp (X:=F) (FsEngine.prune_loop fuel (tree_dir b ns) (tree_dir b []))
    (λ _ d', (shrinks b k (vol d) (vol d') ∧ dur d' = dur d)
       ∧ ((¬ ∃ e, injected e) → vol d !! (objects_path b ++ ns) = Some NDir → no_empty_dirs b ns (vol d'))
       ∧ (vol d !! (objects_path b ++ ns) ≠ Some NDir → vol d' = vol d)) (λ _ _, False)
    (λ d', shrinks b k (vol d) (vol d') ∧ dur d' = dur d) d.
Proof.
  revert ns d. induction fuel as [|fuel IH]; intros ns d Hwf Hf; cbn [FsEngine.prune_loop]; [lia|].
  rewrite tree_dir_below, andb_true_r. rewrite (bool_decide_ext _ _ (tree_dir_eq b ns [])).
  case_bool_decide as Hns; cbn [negb].
  { apply wp_ret. split_and!; [by apply shrinks_refl|done| |done].
    subst ns. intros _ _ l Hl Hp. by apply prefix_nil_inv in Hp. }
  destruct ns as [|n ns _] using rev_ind; [done|]. rewrite length_app in Hf. cbn in Hf.
  apply wp_bind, wp_attempt, wp_remove_dir_cause; rewrite ?tree_dir_resolve; [done|..].
  - intros Hd Hc. rewrite tree_dir_snoc, parent_snoc.
    assert (∃ y ys, ns ++ [n] = y :: ys) as (y & ys & Hy)
      by (destruct ns; eauto).
    assert (shrinks b k (vol d) (delete (objects_path b ++ ns ++ [n]) (vol d))) as Hs.
    { rewrite Hy in *. by apply shrinks_dir. }
    eapply wp_mono; [apply IH; [by eapply sh_wf|lia]| |done|].
    + intros u d' ((Hs' & Hd') & Hem & _). split_and!; [by eapply shrinks_trans|done| |done].
      intros Hni _ l Hl Hp. apply prefix_snoc in Hp as [->|Hp].
      * intros Hx%(sh_sub _ _ _ _ Hs'). cbn in Hx. by rewrite lookup_delete_eq in Hx.
      * apply Hem; [done| |done|done]. cbn. rewrite lookup_delete_ne.
        -- eapply (wf_prefix _ _ [n]); [done|done|]. rewrite <- app_assoc. by eexists.
        -- intros Heq%app_inv_head. apply (f_equal length) in Heq. rewrite length_app in Heq. cbn in Heq. lia.
    + intros d' [Hs' Hd']. split; [by eapply shrinks_trans|done].
  - intros e He. apply wp_ret. split_and!; [by apply shrinks_refl|done| |done].
    intros Hni Hd. destruct He as [?|[?|Hc]]; [by destruct Hni; exists e|done|].
    by eapply no_empty_above.
  - intros _. auto using shrinks_refl.
Qed.

(** The directory found is there, and without faults everything deeper on the
    way to the key is not. *)
Lemma wp_deepest_loop {F} b ns fuel d :
  wf (vol d) → length ns < fuel →
  wp (X:=F) (FsEngine.deepest_loop fuel (tree_dir b ns) (tree_dir b []))
    (λ r d', d' = d ∧ match r with
       | Some p => ∃ l l', ns = l ++ l' ∧ p = tree_dir b l ∧ is_Some (vol d !! (objects_path b ++ l))
           ∧ ((¬ ∃ e, injected e) → ∀ x t, l' = x :: t → vol d !! (objects_path b ++ l ++ [x]) = None)
       | None => (¬ ∃ e, injected e) → vol d !! objects_path b = None
       end) (λ _ _, False) (λ d', d' = d) d.
Proof.
  intros Hwf. revert ns. induction fuel as [|fuel IH]; intros ns Hf; [lia|]. cbn [FsEngine.deepest_loop].
  apply wp_bind, wp_try_exists; [done|..]; rewrite ?tree_dir_resolve.
  - intros Hs. apply wp_ret. split; [done|]. exists ns, []. rewrite app_nil_r. done.
  - intros r Hr Hno. rewrite Hr. rewrite (bool_decide_ext _ _ (tree_dir_eq b ns [])).
    case_bool_decide as Hns.
    { apply wp_ret. split; [done|]. intros Hni. subst ns. rewrite app_nil_r in Hno. by destruct Hno. }
    destruct ns as [|n ns _] using rev_ind; [done|]. rewrite length_app in Hf. cbn in Hf.
    rewrite tree_dir_snoc, parent_snoc, tree_dir_below.
    eapply wp_mono; [apply IH; lia| |done..]. intros [p|] d' [-> Hp]; (split; [done|]); [|done].
    destruct Hp as (l & l' & -> & -> & Hex & Hmiss). exists l, (l' ++ [n]). rewrite <- app_assoc.
    split_and!; [done..|]. intros Hni x t Heq. destruct l' as [|y l']; injection Heq as -> ?; [|by eapply Hmiss].
    rewrite app_nil_r in Hno. by destruct Hno.
  - done.
Qed.

(** Syncing the deepest directory that is left takes a file that is gone off
    the disk. *)
Lemma sync_gone a d n ns : vol d !! (a ++ n :: ns) = None → vol d !! (a ++ [n]) = None ∨ ns = [] →
  dur (sync_entries a d) !! (a ++ n :: ns) = None.
Proof.
  intros Hv Hmiss. unfold sync_entries. cbn [dur]. apply lookup_union_None. split.
  - apply map_lookup_filter_None. by left.
  - apply map_lookup_filter_None. right. intros x _ [Hc Hb].
    destruct Hmiss as [Hmiss| ->]; [|by rewrite (proj2 (is_child_spec a (a ++ [n]))) in Hc; eauto].
    unfold below_missing in Hb. rewrite bool_decide_true in Hb by by apply prefix_app_r.
    rewrite (proj2 (Nat.ltb_lt (length a) (length (a ++ n :: ns)))) in Hb
      by (rewrite length_app; cbn; lia). cbn [andb] in Hb.
    rewrite (cons_middle n a ns), app_assoc, take_app_length' in Hb by (rewrite length_app; cbn; lia).
    by rewrite bool_decide_true in Hb.
Qed.

(** ** [delete_object] *)

(** Everything a delete that returned leaves behind. *)
Record deleted (b k : str) (d d' : disk) : Prop := {
  de_shrinks : shrinks b k (vol d) (vol d');
  de_meta : vol d' !! meta_path b k = None;
  de_data : vol d' !! data_path b k NULL_VERSION_ID = None;
  de_durable : (¬ ∃ e, injected e) → is_Some (vol d !! objects_path b) →
    dur d' !! meta_path b k = None ∧ dur d' !! data_path b k NULL_VERSION_ID = None;
  de_pruned : (¬ ∃ e, injected e) → vol d' = vol d ∨ no_empty_dirs b (key_names k) (vol d');
}.

Lemma gone_durable b k n d l l' :
  vol d !! (object_path b k ++ [n]) = None → key_names k = l ++ l' →
  (∀ x t, l' = x :: t → vol d !! (objects_path b ++ l ++ [x]) = None) →
  dur (sync_entries (objects_path b ++ l) d) !! (object_path b k ++ [n]) = None.
Proof.
  intros Hv Hk Hm. unfold object_path in *. rewrite Hk in *. rewrite !app_assoc in *. rewrite <- (app_assoc _ l') in *.
  destruct l' as [|x t]; cbn in *; apply sync_gone; auto. left. rewrite <- app_assoc. by eapply Hm.
Qed.

Lemma object_dir_tree b k : is_valid_bucket_name b = true → utf8 k →
  FsEngine.object_dir (FsEngine.bucket_dir engine b) k = tree_dir b (key_names k).
Proof. intros. by rewrite object_dir_names. Qed.

Lemma objects_dir_tree b : is_valid_bucket_name b = true →
  push (FsEngine.bucket_dir engine b) OBJECTS_DIR = tree_dir b [].
Proof. intros. rewrite objects_dir_names by done. done. Qed.

(** A delete in progress: the manifest goes before anything else. *)
Definition deleting (b k : str) (d d' : disk) : Prop :=
  shrinks b k (vol d) (vol d') ∧ (vol d' = vol d ∨ vol d' !! meta_path b k = None).

(** Nothing but a missing entry stands in the way of the key's files. *)
Definition removable (b k : str) (m : tree) : Prop :=
  (creatable (object_path b k) m ∧ nameable (data_path b k NULL_VERSION_ID))
  ∧ m !! meta_path b k ≠ Some NDir ∧ m !! data_path b k NULL_VERSION_ID ≠ Some NDir.

Lemma creatable_delete a q m : creatable a m → creatable a (delete q m).
Proof.
  intros [Hn Hc]. split; [done|]. intros p Hp. destruct (decide (q = p)) as [->|?].
  - left. apply lookup_delete_eq.
  - rewrite lookup_delete_ne by done. auto.
Qed.

Lemma creatable_not_blocked b k n m : creatable (object_path b k) m → nameable (object_path b k ++ [n]) →
  m !! (object_path b k ++ [n]) ≠ Some NDir → ¬ blocked m (object_path b k ++ [n]).
Proof.
  intros Hc Hl Hn [(err & He & Hk)|Hd]; [|done]. apply Hk. by eapply walk_file_creatable.
Qed.

Lemma file_not_dir_path (p : apath) n : p ++ [n] ≠ p.
Proof. intros Heq. apply (f_equal length) in Heq. rewrite length_app in Heq. cbn in Heq. lia. Qed.

Lemma wp_remove_object b k d :
  is_valid_bucket_name b = true → utf8 k → layout (vol d) →
  wp (FsEngine.remove_object (FsEngine.bucket_dir engine b) k)
    (λ _ d', deleted b k d d') (λ _ d', deleting b k d d' ∧ (removable b k (vol d) → ∃ e, injected e))
    (λ d', deleting b k d d') d.
Proof.
  intros Hb Hk Hlay. unfold FsEngine.remove_object. cbn zeta.
  assert (deleting b k d d) as H0 by (split; [apply shrinks_refl, Hlay|by left]).
  apply wp_bind, wp_mapE. eapply wp_mono;
    [apply (wp_remove_if_present b k (meta_path b k)); [|by left|apply Hlay]| | |by intros ? ->].
  { apply object_file_resolve; [done|done|apply meta_file_plain]. }
  2: { intros e ? [-> He]. split; [done|]. intros ([Hc Hfit] & Hnm & _). destruct He as [He|Hbl]; [eauto|exfalso].
       eapply creatable_not_blocked; [done|by apply meta_fits|done|done]. }
  intros u d1 (Hs1 & Hd1 & Hv1).
  assert (vol d1 !! meta_path b k = None) as Hm1 by (rewrite Hv1; apply lookup_delete_eq).
  apply wp_bind, wp_mapE. eapply wp_mono;
    [apply (wp_remove_if_present b k (data_path b k NULL_VERSION_ID)); [|by right|by eapply sh_wf]| | |].
  { apply object_file_resolve; [done|done|apply data_file_name_plain]. }
  2: { intros e ? [-> He]. split; [split; auto|]. intros ([Hc Hfit] & _ & Hnd).
       destruct He as [He|Hbl]; [eauto|exfalso]. eapply creatable_not_blocked; [|exact Hfit| |done].
       - rewrite Hv1. by apply creatable_delete.
       - intros Hd. by apply Hnd, (sh_sub _ _ _ _ Hs1). }
  2: { intros ? ->. split; auto. }
  intros u2 d2 (Hs2 & Hd2 & Hv2).
  assert (vol d2 !! data_path b k NULL_VERSION_ID = None) as Hm2 by (rewrite Hv2; apply lookup_delete_eq).
  pose proof (shrinks_trans _ _ _ _ _ Hs1 Hs2) as H02.
  rewrite (object_dir_tree b k), (objects_dir_tree b) by done. unfold FsEngine.prune_empty_dirs.
  assert (∀ d3, shrinks b k (vol d2) (vol d3) →
    vol d3 !! meta_path b k = None ∧ vol d3 !! data_path b k NULL_VERSION_ID = None) as Hgone.
  { intros d3 Hs3. split; apply eq_None_not_Some; intros [x Hx]; apply (sh_sub _ _ _ _ Hs3) in Hx; [|congruence].
    apply (sh_sub _ _ _ _ Hs2) in Hx. congruence. }
  apply wp_bind. eapply wp_mono; [apply (wp_prune_loop b k);
    [by eapply sh_wf|rewrite (tree_dir_length b (key_names k)); lia]| |done|].
  2: { intros d3 [Hs3 _]. split; [by eapply shrinks_trans|]. right. by apply Hgone. }
  intros u3 d3 ([Hs3 Hd3] & Hem & Hsame). pose proof (shrinks_trans _ _ _ _ _ H02 Hs3) as H03.
  assert ((¬ ∃ e, injected e) → vol d3 = vol d ∨ no_empty_dirs b (key_names k) (vol d3)) as Hprune.
  { intros Hni. fold (object_path b k) in Hem, Hsame.
    destruct (decide (vol d2 !! object_path b k = Some NDir)) as [Hd|Hd]; [by right; apply Hem|left].
    rewrite (Hsame Hd), Hv2, Hv1. assert (vol d !! object_path b k ≠ Some NDir) as Hnd.
    { intros Hx. apply Hd. rewrite Hv2, Hv1, !lookup_delete_ne by apply file_not_dir_path. done. }
    assert (∀ n, vol d !! (object_path b k ++ [n]) = None) as Hno
      by (intros n; apply wf_no_child_below; [apply Hlay|done]).
    rewrite (delete_id (vol d)) by apply Hno. apply delete_id, Hno. }
  destruct (Hgone d3 Hs3) as [Hm3 Ht3]. assert (deleting b k d d3) as Hdel by (split; auto).
  apply wp_bind. eapply wp_mono; [apply (wp_deepest_loop b (key_names k));
    [by eapply sh_wf|rewrite (tree_dir_length b (key_names k)); lia]| |done|by intros ? ->].
  intros [p|] d4 [-> Hp].
  - destruct Hp as (l & l' & Hkn & -> & [x Hx] & Hmiss). apply wp_bind, wp_attempt. unfold FsEngine.fsync_dir.
    apply wp_sync_dir; rewrite ?tree_dir_resolve.
    + intros _. apply wp_ret. split; [done..| |done]. intros Hni _.
      split; eapply gone_durable; eauto.
    + intros e He. by rewrite (walk_complete _ _ _ (sh_wf _ _ _ _ H03) Hx) in He.
    + intros e He. rewrite bool_decide_false by by apply injected_not_found. apply wp_throw. eauto.
    + done.
  - apply wp_ret. split; [done..| |done]. intros Hni [x Hx]. exfalso.
    specialize (Hp Hni). eapply (shrinks_dirs b k) in Hx; [|exact H03|].
    + congruence.
    + intros (y & ys & Heq). apply (f_equal length) in Heq. rewrite length_app in Heq. cbn in Heq. lia.
Qed.

(** A key whose path is too long is refused as such. *)
Lemma wp_delete_long b k d :
  utf8 k → layout (vol d) → is_valid_bucket_name b = true → bucket_at (vol d) b →
  (path_max < path_len (meta_path b k))%nat →
  wp (FsEngine.delete_object engine b k) (λ _ _, False)
    (λ e d', d' = d ∧ (e = KeyTooLong ∨ ∃ err, injected err)) (λ d', d' = d) d.
Proof.
  intros Hk Hlay Hv Hb Hl. unfold FsEngine.delete_object.
  apply wp_bind, wp_existing_bucket_dir; [done| |congruence|done|eauto|done].
  intros _ _. apply wp_with_lock, wp_with_lock, wp_bind, wp_mapE. unfold FsEngine.remove_if_present.
  pose proof (walk_long (vol d) (meta_path b k) Hl) as Hw.
  pose proof (walk_Err _ _ _ (lay_wf _ Hlay) Hw) as Hno.
  apply wp_bind, wp_attempt, wp_remove_file;
    rewrite ?object_file_resolve by (done || apply meta_file_plain); try fold (meta_path b k).
  - intros data s Hd. congruence.
  - intros Hd. congruence.
  - intros e He. rewrite Hw in He. injection He as <-. rewrite bool_decide_false by done. apply wp_throw. auto.
  - intros e He. rewrite bool_decide_false by by apply injected_not_found. apply wp_throw. eauto.
  - done.
Qed.

(** Why [delete_object] fails. *)
Inductive remove_failure (m : tree) (b k : str) : EngineError → Prop :=
  | rm_name : is_valid_bucket_name b = false → remove_failure m b k InvalidBucketName
  | rm_bucket : ¬ bucket_at m b → remove_failure m b k NoSuchBucket
  | rm_fault err : injected err → remove_failure m b k (from_io err)
  | rm_io e : is_valid_bucket_name b = true → bucket_at m b → (removable b k m → ∃ err, injected err) →
      remove_failure m b k e.

Lemma wp_delete_object b k d :
  utf8 k → layout (vol d) →
  wp (FsEngine.delete_object engine b k)
    (λ _ d', (is_valid_bucket_name b = true ∧ bucket_at (vol d) b) ∧ deleted b k d d')
    (λ e d', deleting b k d d' ∧ remove_failure (vol d) b k e
       ∧ (d' = d ∨ is_valid_bucket_name b = true ∧ bucket_at (vol d) b))
    (λ d', deleting b k d d') d.
Proof.
  intros Hk Hlay. assert (deleting b k d d) as H0 by (split; [apply shrinks_refl, Hlay|by left]).
  unfold FsEngine.delete_object. apply wp_bind, wp_existing_bucket_dir; [done| | | | |done].
  - intros Hb Hbkt. apply wp_with_lock, wp_with_lock.
    eapply wp_mono; [by apply (wp_remove_object b k)|auto| |done].
    intros e d' [Hd Hf]. split_and!; [done|by constructor|auto].
  - intros Hb. split_and!; [done|by constructor|auto].
  - intros _ Hb. split_and!; [done|by constructor|auto].
  - intros e He. split_and!; [done|by constructor|auto].
Qed.

(** C13: [delete_object] removes the object it is about and nothing else,
    whatever fails and wherever the process dies.  In every outcome the layout
    stands, the buckets are the same and every other object is what it was; the
    key shows the object it showed or no object at all, never something in
    between, and if the call returns there is none.  In an environment in which no
    call fails, and if the bucket's [objects/] was there, the object stays gone on
    every tree a loss of power may leave.  It fails only
    for an invalid name, a missing bucket, a fault, or because something that is
    not the key's own stands in the way of its files. *)
Theorem delete_object_atomic b k w :
  utf8 k → layout (vol (wdisk w)) →
  let '(r, w') := FsEngine.delete_object engine b k w in
  let m := vol (wdisk w) in let m' := vol (wdisk w') in
  layout m'
  ∧ (∀ b', bucket_at m' b' ↔ bucket_at m b')
  ∧ (∀ b' k', utf8 k' → (b', k') ≠ (b, k) → object_at m' b' k' = object_at m b' k')
  ∧ match r with
    | Some (Ok _) =>
        bucket_at m b ∧ object_at m' b k = None
        ∧ ((¬ ∃ e, injected e) → is_Some (m !! objects_path b) →
           ∀ p, power_loss (wdisk w') p → object_at p b k = None)
    | Some (Err e) =>
        (object_at m' b k = object_at m b k ∨ object_at m' b k = None) ∧ remove_failure m b k e
    | None => object_at m' b k = object_at m b k ∨ object_at m' b k = None
    end.
Proof.
  intros Hk Hlay.
  assert (∀ d', deleting b k (wdisk w) d' →
    layout (vol d') ∧ (∀ b', bucket_at (vol d') b' ↔ bucket_at (vol (wdisk w)) b')
    ∧ (∀ b' k', utf8 k' → (b', k') ≠ (b, k) → object_at (vol d') b' k' = object_at (vol (wdisk w)) b' k')
    ∧ (object_at (vol d') b k = object_at (vol (wdisk w)) b k ∨ object_at (vol d') b k = None)) as Hframe.
  { intros d' [Hs Hm]. split_and!.
    - by eapply shrinks_layout.
    - intros b'. by eapply shrinks_buckets.
    - apply object_at_frame; [done|]. intros q Hq. by eapply shrinks_files.
    - destruct Hm as [->|Hm]; [by left|right]. unfold object_at, entry_at, file_at. by rewrite Hm. }
  pose proof (wp_run _ _ _ _ w (wp_delete_object b k (wdisk w) Hk Hlay)) as Hwp.
  destruct (FsEngine.delete_object engine b k w) as [[[u|e]|] w']; cbn.
  - destruct Hwp as [[_ Hb] Hdel]. destruct (Hframe (wdisk w')) as (? & ? & ? & _).
    { split; [apply Hdel|right; apply Hdel]. }
    split_and!; [done..|unfold object_at, entry_at, file_at; by rewrite (de_meta _ _ _ _ Hdel)|].
    intros Hni Hobj p Hp. destruct (de_durable _ _ _ _ Hdel Hni Hobj) as [Hdm _].
    assert (p !! meta_path b k = None) as Hpm.
    { destruct (Hp (meta_path b k)) as [->| ->]; [done|apply Hdel]. }
    unfold object_at, entry_at, file_at. by rewrite Hpm.
  - destruct Hwp as (Hd & Hf & _). destruct (Hframe _ Hd) as (? & ? & ? & ?). done.
  - by apply Hframe.
Qed.
End delete.
