(* ===== verification/FsList.v ===== *)
(** * What [list_objects_v2] returns

    Without faults, on a tree the engine wrote, a listing is a page of the
    reference listing of exactly the keys that have a manifest. *)

From S2P Require Import Prelude RustStr RustPath Paths Checksum EngineError Fs FsFacts Atomic Meta Layer Walk FsBase Listing FsEngine Tidy FsObject.

Section list.
Context {E : Env} {D : DataDir} `{!EnvOk E, !NoFaults E}.
Context {HS : HashCrates} {MD : Md5Crate} {RD : Reads}.
Context `{!Serde VersionManifest, !Serde BucketMeta, !Serde DiskFormat}.

(** The object tree of a bucket holds what the engine writes, and every manifest
    in it can be read. *)
Record bucket_tree (b : str) (m : tree) : Prop := {
  bt_tree : object_tree (objects_path b) m;
  bt_objects data s : m !! objects_path b ≠ Some (NFile data s);
  bt_manifests k bytes : utf8 k → file_at m (meta_path b k) = Some bytes → is_Some (parse_manifest bytes);
}.

Lemma meta_is_file b k m : bucket_tree b m → is_Some (m !! meta_path b k) →
  ∃ bytes s, m !! meta_path b k = Some (NFile bytes s).
Proof.
  intros Hbt [x Hx]. destruct x as [|bytes s]; [|eauto]. exfalso.
  unfold meta_path, object_path in Hx. rewrite <- app_assoc in Hx.
  apply (bt_tree _ _ Hbt) in Hx as [_ Hc]. apply canonical_not_reserved in Hc. by vm_compute in Hc.
Qed.

Lemma has_key_meta b m k : has_key (objects_path b) m k ↔ utf8 k ∧ is_Some (m !! meta_path b k).
Proof. unfold has_key, meta_path, object_path. by rewrite <- app_assoc. Qed.

Lemma runs_listable_version b k d :
  layout (vol d) → is_valid_bucket_name b = true → bucket_tree b (vol d) →
  utf8 k → is_Some (vol d !! meta_path b k) →
  runs (FsEngine.listable_version (FsEngine.object_dir (FsEngine.bucket_dir engine b) k))
    (λ r d', d' = d ∧ r = entry_at (vol d) b k) d.
Proof.
  intros Hlay Hb Hbt Hk Hm. apply wp_bind, wp_attempt, wp_live_version; [done..| | |].
  - intros entry He. apply wp_ret. by rewrite He.
  - intros e [(-> & Hn & _)|[(err & Hi & _)|(err & -> & Hf%manifest_error_blocked)]].
    + apply wp_ret. by rewrite Hn.
    + by apply no_injected in Hi.
    + exfalso. destruct (meta_is_file b k _ Hbt Hm) as (bytes & s & Hs).
      assert (file_at (vol d) (meta_path b k) = Some bytes) as Hfb by (apply file_at_Some; eauto).
      destruct (bt_manifests _ _ Hbt k bytes Hk Hfb) as [mf Hp].
      destruct Hf as [Hbl|(? & ? & ?)]; [|congruence]. eapply file_not_blocked; [apply Hlay|done|done].
  - intros Hh. by apply no_halts in Hh.
Qed.

Lemma objects_found b d :
  layout (vol d) → is_valid_bucket_name b = true → bucket_at (vol d) b → bucket_tree b (vol d) →
  vol d !! objects_path b = Some NDir ∨ walk (vol d) (objects_path b) = Err (os_error KNotFound).
Proof.
  intros Hlay Hb Hbkt Hbt. destruct (vol d !! objects_path b) as [[|data s]|] eqn:Ho; [by left| |right].
  - by apply (bt_objects _ _ Hbt) in Ho.
  - apply walk_missing; [apply Hlay|done| |done]. by apply (bucket_child_fits _ Hlay); [|vm_compute; lia].
Qed.

Lemma runs_list_objects b p d :
  layout (vol d) → is_valid_bucket_name b = true → bucket_at (vol d) b → bucket_tree b (vol d) →
  request_ok p →
  runs (FsEngine.list_objects_v2 engine b p)
    (λ r d', d' = d ∧
       if (lp_max_keys p =? 0)%N then r = empty_list_result
       else ∃ keys, keys_ok keys ∧ (∀ k, k ∈ keys ↔ utf8 k ∧ is_Some (vol d !! meta_path b k))
              ∧ r = page (entry_at (vol d) b) keys p) d.
Proof.
  intros Hlay Hb Hbkt Hbt Hp. unfold FsEngine.list_objects_v2, FsEngine.checked_bucket_dir. rewrite Hb.
  apply wp_bind, wp_lift; [|done]. intros _ _.
  apply wp_with_lock, wp_bind, wp_existing_bucket_dir; [done| |congruence|done| |].
  2: { intros e He. by apply no_injected in He. }
  2: { intros He. by apply no_halts in He. }
  intros _ _. destruct (lp_max_keys p =? 0)%N; [by apply wp_ret|].
  apply wp_bind, wp_mapE, wp_blocking. eapply wp_mono; [apply (wp_sorted_keys _ (objects_path b))| |done..].
  - apply Hlay.
  - rewrite objects_dir_names, resolve_names by done.
    unfold objects_path, bucket_path, buckets_path. by rewrite <- !app_assoc.
  - apply Hbt.
  - by apply objects_found.
  - intros keys d' (-> & Hs & Hin).
    assert (∀ k, k ∈ keys ↔ utf8 k ∧ is_Some (vol d !! meta_path b k)) as Hkeys
      by (intros k; by rewrite Hin, has_key_meta).
    eapply wp_mono; [apply (runs_list_page _ (entry_at (vol d) b) d p Hp)| |done..].
    + intros k Hk%Hkeys. destruct Hk. split; [done|]. by apply runs_listable_version.
    + intros r d' [-> ->]. split; [done|]. exists keys. split; [|done]. split; [done|].
      apply Forall_forall. intros k Hk%Hkeys. by destruct Hk.
Qed.

(** ** Following the tokens *)

(** A client that asks again with the token it got while the listing is truncated. *)
Fixpoint follow_tokens (fuel : nat) (b : str) (p : ListParams) : M EngineError (list ListResult) :=
  match fuel with
  | O => ret []
  | S fuel' =>
      r <- FsEngine.list_objects_v2 engine b p;;
      match lr_next_continuation_token r with
      | None => ret [r]
      | Some token => rest <- follow_tokens fuel' b (resume p token);; ret (r :: rest)
      end
  end.

Lemma runs_follow_tokens fuel b p keys d :
  layout (vol d) → is_valid_bucket_name b = true → bucket_at (vol d) b → bucket_tree b (vol d) →
  keys_ok keys → (∀ k, k ∈ keys ↔ utf8 k ∧ is_Some (vol d !! meta_path b k)) →
  request_ok p → (0 < lp_max_keys p)%N →
  runs (follow_tokens fuel b p) (λ ps d', d' = d ∧ ps = pages (entry_at (vol d) b) keys fuel p) d.
Proof.
  intros Hlay Hb Hbkt Hbt Hok Hkeys. revert p. induction fuel as [|fuel IH]; intros p Hp Hmax; cbn [follow_tokens pages].
  { by apply wp_ret. }
  apply wp_bind. eapply wp_mono; [by apply runs_list_objects| |done..]. intros r d' [-> Hr].
  destruct (N.eqb_spec (lp_max_keys p) 0); [lia|]. destruct Hr as (keys' & Hok' & Hkeys' & ->).
  assert (keys' = keys) as -> by (apply keys_ok_unique; [done..|]; intros k; by rewrite Hkeys, Hkeys').
  destruct (lr_next_continuation_token _) as [token|]; [|by apply wp_ret].
  apply wp_bind. eapply wp_mono; [by apply (IH (resume p token))| |done..]. intros ps d' [-> ->]. by apply wp_ret.
Qed.

(** A bucket has fewer keys than the disk has entries. *)
Lemma keys_few b m keys : wf m → keys_ok keys → (∀ k, k ∈ keys → utf8 k ∧ is_Some (m !! meta_path b k)) →
  length keys < base.size m.
Proof.
  intros Hwf [Hs _] Hin. assert (NoDup ([] :: (meta_path b <$> keys))) as Hnd.
  { constructor.
    - intros (k & Heq & _)%list_elem_of_fmap. symmetry in Heq. by apply app_eq_nil in Heq as [_ ?].
    - clear Hwf. induction Hs as [|k keys _ IH Hk]; [constructor|]. cbn. constructor.
      + intros (k' & Heq & Hk')%list_elem_of_fmap. unfold meta_path in Heq. apply app_inj_tail in Heq as [Heq _].
        apply object_path_inj in Heq as [_ <-]; [|by apply Hin; left|by apply Hin; right].
        rewrite Forall_forall in Hk. apply (str_not_lt k k); [apply str_le_refl|auto].
      + apply IH. intros k' Hk'. apply Hin. by right. }
  assert (base.size (list_to_set (C:=gset apath) ([] :: (meta_path b <$> keys))) ≤ base.size (dom m)) as Hsz.
  { apply subseteq_size. intros q. rewrite elem_of_list_to_set, elem_of_dom, elem_of_cons, list_elem_of_fmap.
    intros [->|(k & -> & Hk)]; [rewrite (wf_root m Hwf); by eexists|by apply Hin]. }
  rewrite size_list_to_set, size_dom in Hsz by done. cbn in Hsz. rewrite length_fmap in Hsz. lia.
Qed.

(** A key with a live version that the request matches and that shows past its start. *)
Definition listed_key (m : tree) (b : str) (p : ListParams) (k : str) (entry : VersionEntry) : Prop :=
  utf8 k ∧ entry_at m b k = Some entry ∧ effective_prefix p `prefix_of` k
  ∧ at_or_before (default k (shown p k)) (start_bound p) = false.

Lemma items_listed m b p keys i :
  request_ok p → keys_ok keys → (∀ k, k ∈ keys ↔ utf8 k ∧ is_Some (m !! meta_path b k)) →
  i ∈ items_from (entry_at m b) p (start_bound p) None keys
  ↔ ∃ k entry, listed_key m b p k entry ∧ i = item_for p k entry.
Proof.
  intros Hp [_ H8] Hkeys. split.
  - intros (k & entry & Hk & [Hu Hpre] & He & Hat & ->)%items_from_live; [|done].
    exists k, entry. done.
  - intros (k & entry & (Hu & He & Hpre & Hat) & ->).
    assert (k ∈ keys) as Hk.
    { apply Hkeys. split; [done|]. destruct (entry_file _ _ _ _ He) as (bytes & s & ->). by eexists. }
    destruct (items_from_complete (entry_at m b) p (start_bound p) None keys k entry) as [?|(c & ? & _)]; done.
Qed.

(** C17: a listing shows exactly what is there.  Without faults, in an existing
    bucket whose tree the engine wrote, [list_objects_v2] returns, leaves the
    disk alone, and its page is the page of the reference listing over exactly
    the keys that have a manifest, in ascending order, each described by its
    live version; a page size of zero is an empty, complete page. *)
Theorem list_objects_refines b p w :
  layout (vol (wdisk w)) → is_valid_bucket_name b = true → bucket_at (vol (wdisk w)) b →
  bucket_tree b (vol (wdisk w)) → request_ok p →
  ∃ r w', FsEngine.list_objects_v2 engine b p w = (Some (Ok r), w') ∧ wdisk w' = wdisk w
    ∧ if (lp_max_keys p =? 0)%N then r = empty_list_result
      else ∃ keys, keys_ok keys
             ∧ (∀ k, k ∈ keys ↔ utf8 k ∧ is_Some (vol (wdisk w) !! meta_path b k))
             ∧ r = page (entry_at (vol (wdisk w)) b) keys p.
Proof.
  intros Hlay Hb Hbkt Hbt Hp.
  destruct (runs_run _ _ w (runs_list_objects b p (wdisk w) Hlay Hb Hbkt Hbt Hp)) as (r & w' & Hr & Hd & Hres).
  eauto 10.
Qed.

(** C18: a client that follows the continuation tokens gets everything exactly once.
    Without faults, in an existing bucket whose tree the engine wrote, asking
    [list_objects_v2] again with the token of each page ends after fewer pages than the
    disk has entries; every page but the last is full and says that it is truncated,
    the last says that it is not; and put together the pages list the description of
    every key that has a live version, matches the prefix, is not folded and is past
    the start, and the common prefix of every such key that is folded, each in
    strictly ascending order, so once, and nothing else. *)
Theorem tokens_list_everything fuel b p w :
  layout (vol (wdisk w)) → is_valid_bucket_name b = true → bucket_at (vol (wdisk w)) b →
  bucket_tree b (vol (wdisk w)) → request_ok p → (0 < lp_max_keys p)%N → base.size (vol (wdisk w)) ≤ fuel →
  ∃ ps w', follow_tokens fuel b p w = (Some (Ok ps), w') ∧ wdisk w' = wdisk w
    ∧ (∀ info, info ∈ concat (lr_objects <$> ps) ↔
         ∃ k entry, listed_key (vol (wdisk w)) b p k entry ∧ shown p k = None ∧ info = object_info k entry)
    ∧ (∀ c, c ∈ concat (lr_common_prefixes <$> ps) ↔
         ∃ k entry, listed_key (vol (wdisk w)) b p k entry ∧ shown p k = Some c)
    ∧ StronglySorted str_lt (oi_key <$> concat (lr_objects <$> ps))
    ∧ StronglySorted str_lt (concat (lr_common_prefixes <$> ps))
    ∧ ∃ full final, ps = full ++ [final] ∧ lr_is_truncated final = false
        ∧ Forall (λ r, lr_is_truncated r = true
            ∧ N.of_nat (length (lr_objects r) + length (lr_common_prefixes r)) = lp_max_keys p) full.
Proof.
  intros Hlay Hb Hbkt Hbt Hp Hmax Hfuel. set (m := vol (wdisk w)) in *.
  destruct (runs_run _ _ w (runs_list_objects b p (wdisk w) Hlay Hb Hbkt Hbt Hp)) as (r & w1 & _ & _ & Hres).
  destruct (N.eqb_spec (lp_max_keys p) 0); [lia|]. destruct Hres as (keys & Hok & Hkeys & _).
  destruct (runs_run _ _ w (runs_follow_tokens fuel b p keys (wdisk w) Hlay Hb Hbkt Hbt Hok Hkeys Hp Hmax))
    as (ps & w' & Hrun & Hd & ->). exists (pages (entry_at m b) keys fuel p), w'.
  split; [done|split; [done|]].
  pose proof (items_from_length (entry_at m b) p (start_bound p) None keys) as Hlen.
  pose proof (keys_few b m keys (lay_wf _ Hlay) Hok (λ k Hk, proj1 (Hkeys k) Hk)) as Hfew.
  destruct (pages_fuel (entry_at m b) keys Hok fuel p Hp Hmax ltac:(lia)) as (Ho & Hc & Hpages).
  rewrite Ho, Hc. pose proof (items_listed m b p keys) as Hit.
  destruct (sorted_items _ (items_from_sorted (entry_at m b) p Hp (start_bound p) None keys Hok)) as [Hso Hsp].
  split; [|split; [|done]].
  - intros info. rewrite objects_of_elem, Hit by done. unfold item_for. split.
    + intros (k & entry & Hl & Heq). destruct (shown p k) eqn:Hs; [done|]. injection Heq as ->. eauto 10.
    + intros (k & entry & Hl & Hs & ->). exists k, entry. by rewrite Hs.
  - intros c. rewrite prefixes_of_elem, Hit by done. unfold item_for. split.
    + intros (k & entry & Hl & Heq). destruct (shown p k) eqn:Hs; [|done]. injection Heq as ->. eauto 10.
    + intros (k & entry & Hl & Hs). exists k, entry. by rewrite Hs.
Qed.
End list.
