(* ===== verification/FsBuckets.v ===== *)
(** * What the bucket operations guarantee

    [create_bucket] makes an empty bucket or reports the name taken,
    [delete_bucket] removes an empty bucket and never an object, and neither
    touches another bucket, whatever fails. *)

From S2P Require Import Prelude RustStr RustPath Paths Checksum EngineError Fs FsFacts Atomic Meta Layer Walk FsBase Listing FsEngine Tidy FsObject.

Section remove_dir_all.
Context {E : Env}.

(** Only entries at or below [p] have gone. *)
Record pruned (p : apath) (m m' : tree) : Prop := {
  pr_out q : ¬ p `prefix_of` q → m' !! q = m !! q;
  pr_in q : m' !! q = m !! q ∨ m' !! q = None;
  pr_wf : wf m';
}.

Lemma pruned_refl p m : wf m → pruned p m m.
Proof. intros. split; auto. Qed.

Lemma pruned_trans p m1 m2 m3 : pruned p m1 m2 → pruned p m2 m3 → pruned p m1 m3.
Proof.
  intros [O1 I1 _] [O2 I2 W]. split; [|intros q|done].
  - intros q Hq. rewrite O2, O1; done.
  - destruct (I2 q) as [->|?]; auto.
Qed.

(** A list of entries to unlink, contents before containers. *)
Definition unlinkable (p : apath) (m : tree) (qs : list apath) : Prop :=
  StronglySorted deeper qs ∧ [] ∉ qs ∧ Forall (λ q, p `prefix_of` q) qs
  ∧ ∀ q n, q ∈ qs → is_Some (m !! (q ++ [n])) → q ++ [n] ∈ qs.

Lemma unlinkable_head p m q qs : wf m → unlinkable p m (q :: qs) →
  pruned p m (delete q m) ∧ unlinkable p (delete q m) qs ∧ children m q = [].
Proof.
  intros Hwf (Hs & Hne & Hp & Hc). apply StronglySorted_inv in Hs as [Hs Hq].
  apply Forall_cons in Hp as [Hpq Hp]. rewrite not_elem_of_cons in Hne. destruct Hne as [Hqe Hne].
  assert (∀ n, m !! (q ++ [n]) = None) as Hno.
  { intros n. apply eq_None_not_Some. intros Hx. specialize (Hc q n ltac:(left) Hx).
    apply elem_of_cons in Hc as [Heq|Hin].
    - apply (f_equal length) in Heq. rewrite length_app in Heq. cbn in Heq. lia.
    - rewrite Forall_forall in Hq. specialize (Hq _ Hin). unfold deeper in Hq.
      rewrite length_app in Hq. cbn in Hq. lia. }
  split; [split|split; [split_and!|by apply children_nil]]; [| |by apply wf_delete|done..|].
  - intros q' Hq'. apply lookup_delete_ne. by intros ->.
  - intros q'. destruct (decide (q = q')) as [->|?]; [right; apply lookup_delete_eq|left; by apply lookup_delete_ne].
  - intros q' n Hin [x Hx]. apply lookup_delete_Some in Hx as [Hne' Hx].
    specialize (Hc q' n ltac:(by right) ltac:(by eexists)). apply elem_of_cons in Hc as [?|?]; [congruence|done].
Qed.

Lemma wp_unlink_all p qs d :
  wf (vol d) → unlinkable p (vol d) qs →
  wp (unlink_all qs)
    (λ _ d', pruned p (vol d) (vol d') ∧ Forall (λ q, vol d' !! q = None) qs ∧ dur d' = dur d)
    (λ e d', pruned p (vol d) (vol d') ∧ injected e) (λ d', pruned p (vol d) (vol d')) d.
Proof.
  revert d. induction qs as [|q qs IH]; intros d Hwf Hu; cbn [unlink_all].
  { apply wp_ret. auto using pruned_refl. }
  destruct (unlinkable_head p (vol d) q qs Hwf Hu) as (Hp & Hu' & Hch).
  unfold unlink. apply wp_bind, wp_atomic; cbn beta; rewrite ?(bool_decide_eq_true_2 _ Hch); [|by intros ? ? [=]| |].
  - intros [] d' [= <-]. eapply wp_mono; [apply IH; [by eapply pr_wf|done]| | |].
    + intros u d2 (Hp2 & Hall & Hd). split_and!; [by eapply pruned_trans| |done].
      constructor; [|done]. destruct (pr_in _ _ _ Hp2 q) as [->|?]; [apply lookup_delete_eq|done].
    + intros e d2 [Hp2 He]. split; [by eapply pruned_trans|done].
    + intros d2 Hp2. by eapply pruned_trans.
  - intros e He. auto using pruned_refl.
  - intros _. by apply pruned_refl.
Qed.

Lemma elem_of_subtree m p q : q ∈ subtree m p ↔ p `prefix_of` q ∧ is_Some (m !! q).
Proof.
  unfold subtree. rewrite merge_sort_Permutation, list_elem_of_filter, list_elem_of_fmap.
  split; (intros [Hp Hq]; split; [done|]).
  - destruct Hq as ([q' x] & -> & Hin). apply elem_of_map_to_list in Hin. by eexists.
  - destruct Hq as [x Hx]. exists (q, x). split; [done|]. by apply elem_of_map_to_list.
Qed.

Lemma subtree_unlinkable m p : p ≠ [] → unlinkable p m (subtree m p).
Proof.
  intros Hp. split_and!.
  - apply StronglySorted_merge_sort; [intros q q' q'' H H'; unfold deeper in *; lia|].
    intros q q'. unfold deeper. lia.
  - rewrite elem_of_subtree. intros [[t Ht] _]. by destruct p.
  - apply Forall_forall. intros q. rewrite elem_of_subtree. by intros [? _].
  - intros q n. rewrite !elem_of_subtree. intros [Hq _] Hx. split; [|done]. by apply prefix_app_r.
Qed.

Lemma wp_remove_dir_all p d :
  wf (vol d) → resolve p ≠ [] →
  wp (remove_dir_all p)
    (λ _ d', pruned (resolve p) (vol d) (vol d') ∧ (∀ q, resolve p `prefix_of` q → vol d' !! q = None)
             ∧ dur d' = dur d ∧ vol d !! resolve p = Some NDir)
    (λ e d', pruned (resolve p) (vol d) (vol d')
             ∧ (injected e ∨ vol d' = vol d ∧ vol d !! resolve p ≠ Some NDir))
    (λ d', pruned (resolve p) (vol d) (vol d')) d.
Proof.
  intros Hwf Hp. apply wp_blocking, wp_bind, wp_metadata.
  - intros x Hx _. apply wp_bind, wp_atomic; [|by intros ? ? [=]|intros e He; auto using pruned_refl
      |intros _; by apply pruned_refl].
    intros m d' [= <- <-]. destruct x.
    + eapply wp_mono; [by apply (wp_unlink_all (resolve p)), subtree_unlinkable| |intros e d' [? ?]; auto|done].
      intros u d' (Hpr & Hall & Hd). split_and!; [done| |done..]. intros q Hq.
      destruct (pr_in _ _ _ Hpr q) as [Heq|?]; [|done].
      destruct (vol d !! q) as [y|] eqn:Hy; [|congruence].
      rewrite Forall_forall in Hall. apply Hall. rewrite elem_of_subtree. eauto.
    + apply wp_throw. split; [by apply pruned_refl|]. right. split; [done|congruence].
  - intros e He. split; [by apply pruned_refl|]. right. split; [done|]. apply walk_Err in He; [congruence|done].
  - intros e He. auto using pruned_refl.
  - intros _. by apply pruned_refl.
Qed.
End remove_dir_all.

Section buckets.
Context {E : Env} {D : DataDir} `{!EnvOk E}.
Context {HS : HashCrates} {MD : Md5Crate} {RD : Reads}.
Context `{!Serde VersionManifest, !Serde BucketMeta, !Serde DiskFormat}.

Lemma publishable_in_dir p n m : wf m → m !! p = Some NDir → m !! (p ++ [n]) ≠ Some NDir →
  nameable (p ++ [n]) → publishable (p ++ [n]) m.
Proof.
  intros Hwf Hp Hn Hln. split; [|done]. rewrite removelast_last.
  split; [by eapply nameable_app_l|]. intros q Hq. destruct (decide (q = p)) as [->|?]; [auto|].
  right. eapply wf_prefix_of; eauto.
Qed.

Lemma bucket_dir_resolve b : is_valid_bucket_name b = true →
  resolve (FsEngine.bucket_dir engine b) = bucket_path b.
Proof. intros Hb. by rewrite bucket_dir_names, resolve_names, bucket_path_eq. Qed.

Lemma buckets_dir_resolve : resolve (FsEngine.buckets_dir engine) = buckets_path.
Proof. by rewrite buckets_dir_names, resolve_names. Qed.

Lemma objects_dir_resolve b : is_valid_bucket_name b = true →
  resolve (push (FsEngine.bucket_dir engine b) OBJECTS_DIR) = objects_path b.
Proof.
  intros Hb. rewrite objects_dir_names, resolve_names by done.
  unfold objects_path. by rewrite bucket_path_eq, <- app_assoc.
Qed.

Lemma bucket_path_not_nil b : bucket_path b ≠ [].
Proof. unfold bucket_path. by intros [_ ?]%app_eq_nil. Qed.

(** Only what is at or below the bucket's directory, and fresh temp files, can
    have changed. *)
Record bucket_effect (b : str) (m m' : tree) : Prop := {
  be_out q : ¬ bucket_path b `prefix_of` q → is_child tmp_path q = false → m' !! q = m !! q;
  be_tmp q : m !! q = Some NDir → ¬ bucket_path b `prefix_of` q → m' !! q = Some NDir;
  be_wf : wf m';
}.

Lemma bucket_effect_refl b m : wf m → bucket_effect b m m.
Proof. intros. split; auto. Qed.

Lemma bucket_effect_trans b m1 m2 m3 : bucket_effect b m1 m2 → bucket_effect b m2 m3 → bucket_effect b m1 m3.
Proof.
  intros [O1 T1 _] [O2 T2 W]. split; [|auto|done]. intros q Hq Ht. rewrite O2, O1; done.
Qed.

Lemma bucket_path_prefix b b' : bucket_path b `prefix_of` bucket_path b' → b = b'.
Proof.
  unfold bucket_path. intros Hp. apply prefix_app_inv in Hp. by apply prefix_cons_inv_1 in Hp.
Qed.

Lemma bucket_not_tmp b : ¬ bucket_path b `prefix_of` tmp_path.
Proof.
  rewrite bucket_path_eq. unfold tmp_path. intros Hp%prefix_app_inv%prefix_cons_inv_1. by vm_compute in Hp.
Qed.

Lemma below_buckets_not_tmp ns : is_child tmp_path (buckets_path ++ ns) = false.
Proof.
  apply not_below. unfold buckets_path. rewrite <- app_assoc. by apply tmp_not_below.
Qed.

Lemma bucket_effect_layout b m m' : layout m → bucket_effect b m m' → layout m'.
Proof.
  intros [Hwf Hc Ht Hb Ho] [_ Hd Hw]. split; [done|..|done]; apply Hd; try done.
  - intros Hp. apply Ho. etrans; [|exact Hp]. unfold bucket_path. by apply prefix_app_r.
  - apply bucket_not_tmp.
  - unfold bucket_path. intros Hp%prefix_length. rewrite length_app in Hp. cbn in Hp. lia.
Qed.

Lemma bucket_effect_buckets b b' m m' : bucket_effect b m m' → b' ≠ b → bucket_at m' b' ↔ bucket_at m b'.
Proof.
  intros Heff Hne. unfold bucket_at. rewrite (be_out _ _ _ Heff); [done|by intros ->%bucket_path_prefix|].
  apply below_buckets_not_tmp.
Qed.

Lemma object_file_in_bucket b k n : object_path b k ++ [n] = bucket_path b ++ OBJECTS_DIR :: (key_names k ++ [n]).
Proof. unfold object_path, objects_path. by rewrite <- !app_assoc. Qed.

(** No objects where there is no [objects/], or nothing in it. *)
Lemma no_objects b k m : wf m → (∀ n, m !! (objects_path b ++ [n]) = None) → object_at m b k = None.
Proof.
  intros Hwf Hno. unfold object_at, entry_at, file_at, meta_path, object_path. rewrite <- app_assoc.
  destruct (key_names k ++ [META_FILE]) as [|x ns] eqn:Hx; [by apply app_eq_nil in Hx as [_ ?]|].
  destruct ns as [|y ns]; [by rewrite Hno|].
  rewrite cons_middle, app_assoc, (wf_no_child_below m (objects_path b ++ [x])); [done|done|].
  by rewrite Hno.
Qed.

Lemma bucket_effect_objects b m m' : wf m → bucket_effect b m m' →
  (∀ n, m !! (objects_path b ++ [n]) = None) → (∀ n, m' !! (objects_path b ++ [n]) = None) →
  ∀ b' k, object_at m' b' k = object_at m b' k.
Proof.
  intros Hwf Heff Hno Hno' b' k. destruct (decide (b' = b)) as [->|Hne].
  { rewrite !no_objects; [done|done|done|by eapply be_wf|done]. }
  apply object_at_ext. intros n. unfold file_at. rewrite (be_out _ _ _ Heff); [done| |];
    rewrite object_file_in_bucket; unfold bucket_path; rewrite <- app_assoc.
  - by intros ->%prefix_app_inv%prefix_cons_inv_1.
  - apply below_buckets_not_tmp.
Qed.

Lemma pruned_effect b m m' : pruned (bucket_path b) m m' → bucket_effect b m m'.
Proof. intros [Ho _ Hw]. split; [auto|intros q Hq Hp; by rewrite Ho|done]. Qed.

(** ** Creating a bucket *)

Lemma bucket_meta_names b : is_valid_bucket_name b = true →
  push (FsEngine.bucket_dir engine b) BUCKET_META_FILE
  = dd_head ++ (Normal <$> ((dd_names ++ [BUCKETS_DIR; b]) ++ [BUCKET_META_FILE])).
Proof.
  intros Hb. rewrite bucket_dir_names, push_names by (done || by apply plain_lit).
  unfold names_of. by rewrite !app_assoc.
Qed.

Lemma bucket_path_resolve b : resolve dd_head ++ dd_names ++ [BUCKETS_DIR; b] = bucket_path b.
Proof. rewrite bucket_path_eq. unfold root_path. by rewrite app_assoc. Qed.

Lemma bucket_insert_effect b m : layout m → is_valid_bucket_name b = true →
  m !! bucket_path b = None → bucket_effect b m (<[bucket_path b := NDir]> m).
Proof.
  intros Hlay Hb Hno. split.
  - intros q Hq _. apply lookup_insert_ne. by intros <-.
  - intros q Hq Hp. rewrite lookup_insert_ne; [done|]. by intros <-.
  - apply wf_insert; [apply Hlay|apply Hlay|by apply (bucket_fits _ Hlay)|by left].
Qed.

Lemma attempted_bucket_effect b n data pub d d' : vol d !! bucket_path b = Some NDir →
  wf (vol d) → attempted tmp_path (bucket_path b ++ [n]) data pub d d' →
  bucket_effect b (vol d) (vol d').
Proof.
  intros Hb Hwf [Hg _ _]. rewrite removelast_last in Hg. split.
  - intros q Hq Ht. assert (¬ (q = bucket_path b ++ [n] ∨ is_child tmp_path q = true)) as Hn.
    { intros [->|?]; [|congruence]. apply Hq. by apply prefix_app_r. }
    destruct (gr_same _ _ _ _ Hg q Hn) as [?|[Hq1 Hq2]]; [done|].
    destruct (gr_new _ _ _ _ Hg q Hq2) as [?|[t Ht']]; [congruence|].
    destruct t as [|x t]; [rewrite app_nil_r in Ht'; congruence|].
    rewrite (wf_prefix (vol d) q (x :: t)) in Hq1; [done|done|done|]. rewrite <- Ht'. eauto.
  - intros q Hq _. by apply (gr_dirs _ _ _ _ Hg).
  - apply Hg.
Qed.

(** The metadata of a bucket, a [u64] in the source. *)
Definition valid_bucket_meta (m : BucketMeta) : Prop := u64 (created_epoch_ms m).

(** A bucket was made, or is being made. *)
Record bucket_made (b : str) (d d' : disk) : Prop := {
  bm_valid : is_valid_bucket_name b = true;
  bm_absent : vol d !! bucket_path b = None;
  bm_effect : bucket_effect b (vol d) (vol d');
  bm_objects : vol d' !! objects_path b = None;
}.

Lemma absent_objects b m : wf m → m !! bucket_path b = None → m !! objects_path b = None.
Proof. intros Hwf Hno. apply wf_no_child_below; [done|by rewrite Hno]. Qed.

Lemma no_objects_empty b m n : wf m → m !! objects_path b = None → m !! (objects_path b ++ [n]) = None.
Proof. intros Hwf Hno. apply wf_no_child_below; [done|by rewrite Hno]. Qed.

Lemma bucket_not_objects b : bucket_path b ≠ objects_path b.
Proof. unfold objects_path. intros Heq%(f_equal length). rewrite length_app in Heq. cbn in Heq. lia. Qed.

Lemma attempted_objects b data pub d d' :
  attempted tmp_path (bucket_path b ++ [BUCKET_META_FILE]) data pub d d' →
  vol d !! objects_path b = None → vol d' !! objects_path b = None.
Proof.
  intros [Hg _ _] Hno. destruct (gr_same _ _ _ _ Hg (objects_path b)) as [->|[_ Hd]]; [|done|].
  - unfold objects_path. intros [Heq%app_inv_head|Hc]; [done|].
    unfold bucket_path in Hc. by rewrite <- app_assoc, below_buckets_not_tmp in Hc.
  - apply (gr_new _ _ _ _ Hg) in Hd as [?|Hp]; [congruence|]. rewrite removelast_last in Hp.
    apply prefix_length in Hp. unfold objects_path in Hp. rewrite length_app in Hp. cbn in Hp. lia.
Qed.

(** The rollback after a failed write of the metadata. *)
Lemma pruned_made b d d1 d2 :
  pruned (bucket_path b) (vol d1) (vol d2) → bucket_made b d d1 → bucket_made b d d2.
Proof.
  intros Hp [Hv Ha He Hn]. split; [done|done|eapply bucket_effect_trans; [done|by apply pruned_effect]|].
  by destruct (pr_in _ _ _ Hp (objects_path b)) as [->|?].
Qed.

(** The disk after the new directory, and after the metadata. *)
Lemma made_dir b d : layout (vol d) → is_valid_bucket_name b = true → vol d !! bucket_path b = None →
  bucket_made b d (set_vol <[bucket_path b := NDir]> d).
Proof.
  intros Hlay Hb Hno. split; [done|done|by apply bucket_insert_effect|].
  cbn. rewrite lookup_insert_ne by apply bucket_not_objects. apply absent_objects; [apply Hlay|done].
Qed.

Lemma made_meta b data pub d d1 d' : bucket_made b d d1 → vol d1 !! bucket_path b = Some NDir →
  attempted tmp_path (bucket_path b ++ [BUCKET_META_FILE]) data pub d1 d' → bucket_made b d d'.
Proof.
  intros [Hv Ha He Hn] Hd Hat. split; [done|done| |].
  - eapply bucket_effect_trans; [done|]. eapply attempted_bucket_effect; [done|by eapply be_wf|done].
  - by eapply attempted_objects.
Qed.

(** Once [buckets/] is synced the new bucket is on the disk. *)
Lemma made_durable b data d d1 d' :
  d1 = set_vol <[bucket_path b := NDir]> d → wf (vol d1) → wf (vol d') →
  attempted tmp_path (bucket_path b ++ [BUCKET_META_FILE]) data true d1 d' → dirs_durable d →
  dirs_durable (sync_entries buckets_path d') ∧ durable (sync_entries buckets_path d') (bucket_path b).
Proof.
  intros -> Hwf1 Hwf [Hg _ Hk] Hdd. rewrite removelast_last in Hg.
  assert (vol d' !! bucket_path b = Some NDir) as Hb.
  { apply (gr_dirs _ _ _ _ Hg). cbn. apply lookup_insert_eq. }
  assert (dirs_durable (sync_entries buckets_path d')) as Hdd'.
  { intros q Hq. cbn [vol sync_entries] in Hq. rewrite (sync_entries_lookup _ _ _ NDir) by done.
    destruct (is_child buckets_path q) eqn:Hc; [done|]. apply Hk; [done|]. apply Hdd.
    assert (q ≠ bucket_path b) as Hne by (intros ->; unfold bucket_path in Hc; by rewrite is_child_here in Hc).
    assert (vol (set_vol <[bucket_path b := NDir]> d) !! q = Some NDir) as Hq1.
    { apply (gr_new _ _ _ _ Hg) in Hq as [Hq|Hq]; [done|].
      eapply wf_prefix_of; [exact Hwf1|done|done|]. cbn. rewrite lookup_insert_eq. by eexists. }
    cbn in Hq1. by rewrite lookup_insert_ne in Hq1. }
  split; [done|]. intros q Hq.
  destruct (decide (q = bucket_path b)) as [->|Hne].
  - cbn [vol sync_entries]. rewrite Hb. by apply Hdd'.
  - rewrite Hdd' by (by eapply (wf_prefix_of (vol d')); eauto). symmetry. cbn. by eapply wf_prefix_of; eauto.
Qed.

(** Why [create_bucket] fails. *)
Inductive create_failure (m : tree) (b : str) : EngineError → Prop :=
  | cf_name : is_valid_bucket_name b = false → create_failure m b InvalidBucketName
  | cf_exists : is_valid_bucket_name b = true → is_Some (m !! bucket_path b) → create_failure m b BucketAlreadyExists
  | cf_io err : (fresh_names tmp_path m → ∃ e, injected e) → create_failure m b (from_io err).

Context `{!SerdeLaws BucketMeta valid_bucket_meta}.

Lemma made_fresh b m : fresh_names tmp_path m → fresh_names tmp_path (<[bucket_path b := NDir]> m).
Proof.
  intros Hf n. rewrite lookup_insert_ne; [done|]. intros Heq.
  apply (tmp_not_below [BUCKETS_DIR; b]); [done|]. rewrite <- bucket_path_eq, Heq. by apply prefix_app_r.
Qed.

Lemma made_no_meta b m : wf m → m !! bucket_path b = None →
  <[bucket_path b := NDir]> m !! (bucket_path b ++ [BUCKET_META_FILE]) ≠ Some NDir.
Proof.
  intros Hwf Hno. rewrite lookup_insert_ne.
  - by rewrite (wf_no_child_below m (bucket_path b) _ []) by (done || by rewrite Hno).
  - intros Heq%(f_equal length). rewrite length_app in Heq. cbn in Heq. lia.
Qed.

Lemma wp_create_bucket b d :
  layout (vol d) →
  wp (FsEngine.create_bucket engine b)
    (λ _ d', is_valid_bucket_name b = true ∧ bucket_made b d d' ∧ bucket_at (vol d') b
       ∧ (dirs_durable d → dirs_durable d' ∧ durable d' (bucket_path b)))
    (λ e d', create_failure (vol d) b e ∧ (d' = d ∨ bucket_made b d d'))
    (λ d', d' = d ∨ bucket_made b d d') d.
Proof.
  intros Hlay. unfold FsEngine.create_bucket, FsEngine.checked_bucket_dir.
  destruct (is_valid_bucket_name b) eqn:Hb; apply wp_bind, wp_lift; intros x Hx; simplify_eq;
    [|split; [by constructor|by left]].
  apply wp_with_lock, wp_bind, wp_attempt, wp_create_dir; rewrite ?bucket_dir_resolve by done.
  - intros _ _ _ _ _ Hno. set (d1 := set_vol <[bucket_path b := NDir]> d).
    pose proof (made_dir b d Hlay Hb Hno) as Hm1. fold d1 in Hm1.
    assert (vol d1 !! bucket_path b = Some NDir) as Hd1 by apply lookup_insert_eq.
    pose proof (bucket_effect_layout _ _ _ Hlay (bm_effect _ _ _ Hm1)) as Hlay1.
    apply wp_bind, wp_bind, wp_now. intros ns. apply wp_ret, wp_bind, wp_attempt.
    destruct (serde_roundtrip (mkBucketMeta (epoch_ms ns))) as (data & -> & _); [apply epoch_ms_u64|].
    rewrite bucket_meta_names, tmp_dir_names by done. unfold names_of.
    eapply wp_mono; [apply (wp_write_json_atomic dd_head (dd_names ++ [AKS3_DIR; TMP_DIR])
      (dd_names ++ [BUCKETS_DIR; b]) BUCKET_META_FILE data d1)| | |];
      rewrite ?bucket_path_resolve, ?tmp_path_eq; try apply Hlay1; try apply dd_head_path; try apply tmp_roomy.
    + unfold bucket_path. rewrite <- app_assoc. unfold buckets_path. rewrite <- app_assoc. by apply tmp_not_below.
    + intros u d2 Hw. pose proof (made_meta b data true d d1 d2 Hm1 Hd1 (wr_attempted _ _ _ _ _ Hw)) as Hm2.
      apply wp_bind, wp_mapE. apply wp_sync_dir; rewrite ?buckets_dir_resolve.
      * intros _. apply wp_ret. split_and!; [done|destruct Hm2; by split| |].
        -- apply (gr_dirs _ _ _ _ (att_grows _ _ _ _ _ _ (wr_attempted _ _ _ _ _ Hw))). done.
        -- eapply (made_durable b data d d1); [done|apply Hlay1|by eapply be_wf, bm_effect|apply Hw].
      * intros e He. exfalso. rewrite (walk_complete _ _ NDir) in He; [done|by eapply be_wf, bm_effect|].
        apply (bucket_effect_layout b (vol d)); [done|apply Hm2].
      * intros e He. split; [constructor; eauto|by right].
      * intros _. by right.
    + intros e d2 [(pub & Hat) Hf]. pose proof (made_meta b data pub d d1 d2 Hm1 Hd1 Hat) as Hm2.
      assert (create_failure (vol d) b (from_io e)) as Hfail.
      { constructor. intros Hfresh. apply Hf; [by apply made_fresh|apply publishable_in_dir; [apply Hlay1|done|by apply made_no_meta; [apply Hlay|]|]].
        apply (bucket_child_fits _ Hlay); [done|vm_compute; lia]. }
      apply wp_bind, wp_attempt. eapply wp_mono; [apply wp_remove_dir_all; [by eapply be_wf, bm_effect|]| | |];
        rewrite ?bucket_dir_resolve by done.
      * apply bucket_path_not_nil.
      * intros u d3 (Hp & _). apply wp_throw. split; [done|right; by eapply pruned_made].
      * intros e' d3 [Hp _]. apply wp_throw. split; [done|right; by eapply pruned_made].
      * intros d3 Hp. right. by eapply pruned_made.
    + intros d2 [pub Hat]. right. by eapply made_meta.
  - intros e He. exfalso. unfold bucket_path in He. rewrite walk_new_snoc in He; [done|apply Hlay|apply Hlay|].
    by apply (bucket_fits _ Hlay).
  - intros Hex. rewrite bool_decide_true by done. apply wp_throw. split; [by constructor|by left].
  - intros e He. rewrite bool_decide_false.
    + apply wp_throw. split; [constructor; eauto|by left].
    + apply injected_kind in He as [[Hk|Hk] _]; by rewrite Hk.
  - intros _. by left.
Qed.

(** C15: [create_bucket] makes an empty bucket under a name that was free, or
    changes nothing that can be seen, whatever fails.  In every outcome the
    layout stands, the other buckets are the same and every object of every
    bucket is what it was.  If it returns, the name was valid and free and the
    bucket is there, and a loss of power cannot take it back if every directory
    was on the disk before.  It reports an invalid name only for an invalid name
    and a taken name only for a taken name, and fails otherwise only if the
    environment does. *)
Theorem create_bucket_spec b w :
  layout (vol (wdisk w)) →
  let '(r, w') := FsEngine.create_bucket engine b w in
  let m := vol (wdisk w) in let m' := vol (wdisk w') in
  layout m'
  ∧ (∀ b', b' ≠ b → bucket_at m' b' ↔ bucket_at m b')
  ∧ (∀ b' k, object_at m' b' k = object_at m b' k)
  ∧ match r with
    | Some (Ok _) =>
        is_valid_bucket_name b = true ∧ m !! bucket_path b = None ∧ bucket_at m' b
        ∧ (dirs_durable (wdisk w) → dirs_durable (wdisk w') ∧ ∀ p, power_loss (wdisk w') p → bucket_at p b)
    | Some (Err e) => create_failure m b e
    | None => True
    end.
Proof.
  intros Hlay.
  assert (∀ d', d' = wdisk w ∨ bucket_made b (wdisk w) d' →
    layout (vol d') ∧ (∀ b', b' ≠ b → bucket_at (vol d') b' ↔ bucket_at (vol (wdisk w)) b')
    ∧ (∀ b' k, object_at (vol d') b' k = object_at (vol (wdisk w)) b' k)) as Hframe.
  { intros d' [->|[_ Ha He Hn]]; [done|]. split_and!.
    - by eapply bucket_effect_layout.
    - intros b' Hne. by eapply bucket_effect_buckets.
    - eapply bucket_effect_objects; [apply Hlay|done| |].
      + intros n. apply no_objects_empty; [apply Hlay|]. apply absent_objects; [apply Hlay|done].
      + intros n. apply no_objects_empty; [by eapply be_wf|done]. }
  pose proof (wp_run _ _ _ _ w (wp_create_bucket b (wdisk w) Hlay)) as Hwp.
  destruct (FsEngine.create_bucket engine b w) as [[[u|e]|] w']; cbn.
  - destruct Hwp as (Hb & Hm & Hbkt & Hdur). destruct (Hframe (wdisk w')) as (? & ? & ?); [by right|].
    split_and!; [done..|apply Hm|done|]. intros Hdd. destruct (Hdur Hdd) as [Hdd' Hd]. split; [done|].
    intros p Hp. unfold bucket_at. destruct (Hp (bucket_path b)) as [->| ->]; [|done].
    by rewrite (Hd (bucket_path b)).
  - destruct Hwp as [Hf Hd]. destruct (Hframe (wdisk w') Hd) as (? & ? & ?). done.
  - destruct (Hframe (wdisk w') Hwp) as (? & ? & ?). done.
Qed.
End buckets.

(** ** Deleting a bucket *)

Section delete_bucket.
Context {E : Env} {D : DataDir} `{!EnvOk E}.
Context {HS : HashCrates} {MD : Md5Crate} {RD : Reads}.
Context `{!Serde VersionManifest, !Serde BucketMeta, !Serde DiskFormat}.

(** [has_any_entry] says whether a directory has entries; a directory that is
    not there has none. *)
Lemma wp_has_any_entry p Q F C d : wf (vol d) →
  (∀ n, is_Some (vol d !! (resolve p ++ [n])) → Q true d) →
  ((∀ n, vol d !! (resolve p ++ [n]) = None) → Q false d) →
  (∀ e, injected e → F e d) →
  (∀ e, vol d !! resolve p ≠ Some NDir → walk (vol d) (resolve p) ≠ Err (os_error KNotFound) → F e d) →
  (halts → C d) → wp (FsEngine.has_any_entry p) Q F C d.
Proof.
  intros Hwf HT HF HI HE HC. apply wp_bind, wp_attempt, wp_read_dir; [| | | |done].
  - intros Hd. apply wp_ret. pose proof (dir_order_perm (children (vol d) (resolve p))) as Hperm.
    destruct (children (vol d) (resolve p)) as [|n l] eqn:Hc.
    + apply Permutation_nil_r in Hperm as ->. apply HF. by apply children_nil.
    + rewrite bool_decide_false by (intros Hn; rewrite Hn in Hperm; by apply Permutation_nil_l in Hperm).
      apply (HT n), elem_of_children. rewrite Hc. left.
  - intros e data s Hf. case_bool_decide.
    + apply wp_ret, HF. intros n. apply wf_no_child_below; [done|by rewrite Hf].
    + apply wp_throw, HE; [by rewrite Hf|]. by rewrite (walk_complete _ _ _ Hwf Hf).
  - intros e He. assert (vol d !! resolve p = None) as Hno by by eapply walk_Err. case_bool_decide.
    + apply wp_ret, HF. intros n. apply wf_no_child_below; [done|by rewrite Hno].
    + apply wp_throw, HE; [by rewrite Hno|]. rewrite He. intros [= ->]. done.
  - intros e He. rewrite bool_decide_false by by apply injected_not_found. by apply wp_throw, HI.
Qed.

Definition is_file (m : tree) (q : apath) : bool :=
  match m !! q with Some (NFile _ _) => true | _ => false end.

(** Why [delete_bucket] fails. *)
Inductive delete_failure (m : tree) (b : str) : EngineError → Prop :=
  | xf_name : is_valid_bucket_name b = false → delete_failure m b InvalidBucketName
  | xf_missing : ¬ bucket_at m b → delete_failure m b NoSuchBucket
  | xf_not_empty n : is_valid_bucket_name b = true → is_Some (m !! (objects_path b ++ [n])) → delete_failure m b BucketNotEmpty
  | xf_io err : is_valid_bucket_name b = true → (is_file m (bucket_path b) = false → is_file m (objects_path b) = false →
      ∃ e, injected e) → delete_failure m b (from_io err).

(** A bucket without objects is going away. *)
Definition bucket_leaving (b : str) (m m' : tree) : Prop :=
  m' = m ∨ (∀ n, m !! (objects_path b ++ [n]) = None) ∧ pruned (bucket_path b) m m'.

Lemma objects_walk b m : layout m → is_valid_bucket_name b = true → bucket_at m b → m !! objects_path b = None →
  walk m (objects_path b) = Err (os_error KNotFound).
Proof.
  intros Hlay Hv Hb Hno. apply walk_missing; [apply Hlay|done| |done].
  by apply (bucket_child_fits _ Hlay); [|vm_compute; lia].
Qed.

Lemma bucket_gone_durable b d : wf (vol d) → vol d !! bucket_path b = None →
  dur (sync_entries buckets_path d) !! bucket_path b = None.
Proof.
  intros Hwf Hno. unfold sync_entries. cbn [dur]. apply lookup_union_None. split.
  - apply map_lookup_filter_None. by left.
  - apply map_lookup_filter_None. right. intros x _. unfold bucket_path. by rewrite is_child_here; intros [? _].
Qed.

Lemma pruned_dirs_durable p q d d' : pruned p (vol d) (vol d') → dur d' = dur d → dirs_durable d →
  dirs_durable (sync_entries q d').
Proof.
  intros Hp Hdur Hdd a Ha. cbn [vol sync_entries] in Ha.
  rewrite (sync_entries_lookup _ _ _ NDir); [|by eapply pr_wf|done]. case_match; [done|].
  rewrite Hdur. apply Hdd. destruct (pr_in _ _ _ Hp a) as [<-|?]; [done|congruence].
Qed.

Lemma wp_delete_bucket b d :
  layout (vol d) →
  wp (FsEngine.delete_bucket engine b)
    (λ _ d', is_valid_bucket_name b = true ∧ bucket_at (vol d) b ∧ bucket_leaving b (vol d) (vol d')
       ∧ vol d' !! bucket_path b = None ∧ dur d' !! bucket_path b = None
       ∧ (dirs_durable d → dirs_durable d'))
    (λ e d', delete_failure (vol d) b e ∧ bucket_leaving b (vol d) (vol d')
       ∧ (vol d' = vol d ∨ ∃ err, injected err))
    (λ d', bucket_leaving b (vol d) (vol d')) d.
Proof.
  intros Hlay. assert (bucket_leaving b (vol d) (vol d)) as H0 by by left.
  unfold FsEngine.delete_bucket, FsEngine.checked_bucket_dir.
  destruct (is_valid_bucket_name b) eqn:Hb; apply wp_bind, wp_lift; intros x Hx; simplify_eq;
    [|split_and!; [by constructor|done|by left]].
  assert (∀ err, injected err → delete_failure (vol d) b (from_io err)) as Hio
    by (intros err He; constructor; eauto).
  apply wp_with_lock, wp_bind, wp_mapE, wp_bind, wp_attempt, wp_metadata; rewrite ?bucket_dir_resolve by done.
  2: { intros e He. assert (vol d !! bucket_path b = None) as Hno by (eapply walk_Err; [apply Hlay|done]).
    rewrite bool_decide_true.
    - apply wp_ret, wp_throw. split_and!; [|done|by left]. constructor. unfold bucket_at. by rewrite Hno.
    - unfold bucket_path in He, Hno. rewrite walk_missing in He; [by injection He as <-|apply Hlay..| |done].
      by apply (bucket_fits _ Hlay). }
  2: { intros e He. rewrite bool_decide_false by by apply injected_not_found. apply wp_throw. auto. }
  2: { done. }
  intros x Hx _. apply wp_ret, wp_bind, wp_mapE, wp_has_any_entry; rewrite ?objects_dir_resolve by done.
  - apply Hlay.
  - intros n Hn. apply wp_throw. split_and!; [by econstructor|done|by left].
  - intros Hno. apply wp_bind, wp_attempt. eapply wp_mono; [apply wp_remove_dir_all; [apply Hlay|]| | |];
      rewrite ?bucket_dir_resolve by done; [apply bucket_path_not_nil| | |].
    + intros u d1 (Hp & Hgone & Hdur & Hbkt). apply wp_bind, wp_mapE.
      assert (bucket_leaving b (vol d) (vol d1)) as Hl by (right; done).
      assert (layout (vol d1)) as Hlay1 by (by eapply bucket_effect_layout, pruned_effect).
      apply wp_sync_dir; rewrite ?buckets_dir_resolve.
      * intros _. apply wp_ret. split_and!; [done..|by apply Hgone|by apply bucket_gone_durable; [apply Hlay1|apply Hgone]|].
        by eapply pruned_dirs_durable.
      * intros e He. rewrite (walk_complete _ _ NDir) in He; [done|apply Hlay1..].
      * intros e He. split_and!; eauto.
      * done.
    + intros e d1 [Hp He]. assert (bucket_leaving b (vol d) (vol d1)) as Hl by (right; done).
      destruct He as [He|[Heq Hnd]].
      * rewrite bool_decide_false by by apply injected_not_found. apply wp_throw. split_and!; eauto.
      * case_bool_decide; apply wp_throw; (split_and!; [|done|by left]); constructor; [done|done|].
        intros Hf. exfalso. unfold is_file in Hf. rewrite Hx in Hf. destruct x; [congruence|done].
    + intros d1 Hp. by right.
  - intros e He. auto.
  - intros e Hnd Hw. split_and!; [|done|by left]. constructor; [done|]. intros Hf Hf'. exfalso. unfold is_file in Hf, Hf'.
    rewrite Hx in Hf. destruct x; [|done]. destruct (vol d !! objects_path b) as [[|]|] eqn:Ho; [done..|].
    by rewrite objects_walk in Hw.
  - done.
Qed.

(** C14: [delete_bucket] never removes an object.  In every outcome, whatever
    fails and wherever the process dies, the layout stands, the other buckets
    are the same and every object of every bucket is what it was.  If it
    returns, the bucket was there and is gone, and stays gone after a loss of
    power.  It reports a missing bucket only for a missing one and a bucket that
    is not empty only when [objects/] has an entry, and fails otherwise only if
    the environment does or a file is where the bucket or [objects/] should be. *)
Theorem delete_bucket_spec b w :
  layout (vol (wdisk w)) →
  let '(r, w') := FsEngine.delete_bucket engine b w in
  let m := vol (wdisk w) in let m' := vol (wdisk w') in
  layout m'
  ∧ (∀ b', b' ≠ b → bucket_at m' b' ↔ bucket_at m b')
  ∧ (∀ b' k, object_at m' b' k = object_at m b' k)
  ∧ match r with
    | Some (Ok _) =>
        is_valid_bucket_name b = true ∧ bucket_at m b ∧ ¬ bucket_at m' b
        ∧ (dirs_durable (wdisk w) → dirs_durable (wdisk w'))
        ∧ ∀ p, power_loss (wdisk w') p → ¬ bucket_at p b
    | Some (Err e) => delete_failure m b e
    | None => True
    end.
Proof.
  intros Hlay.
  assert (∀ m', bucket_leaving b (vol (wdisk w)) m' →
    layout m' ∧ (∀ b', b' ≠ b → bucket_at m' b' ↔ bucket_at (vol (wdisk w)) b')
    ∧ (∀ b' k, object_at m' b' k = object_at (vol (wdisk w)) b' k)) as Hframe.
  { intros m' [->|[Hn Hp]]; [done|]. pose proof (pruned_effect _ _ _ Hp) as He. split_and!.
    - by eapply bucket_effect_layout.
    - intros b' Hne. by eapply bucket_effect_buckets.
    - eapply bucket_effect_objects; [apply Hlay|done..|]. intros n.
      destruct (pr_in _ _ _ Hp (objects_path b ++ [n])) as [->|?]; done. }
  pose proof (wp_run _ _ _ _ w (wp_delete_bucket b (wdisk w) Hlay)) as Hwp.
  destruct (FsEngine.delete_bucket engine b w) as [[[u|e]|] w']; cbn.
  - destruct Hwp as (Hb & Hbkt & Hl & Hv & Hd & Hdd). destruct (Hframe _ Hl) as (? & ? & ?).
    unfold bucket_at in *. split_and!; [done..|by rewrite Hv|done|]. intros p Hp.
    by destruct (Hp (bucket_path b)) as [->| ->]; rewrite ?Hv, ?Hd.
  - destruct Hwp as (Hf & Hl & _). destruct (Hframe _ Hl) as (? & ? & ?). done.
  - destruct (Hframe _ Hwp) as (? & ? & ?). done.
Qed.
End delete_bucket.

(** ** Listing buckets *)

Section list_buckets.
Context {E : Env} {D : DataDir} `{!EnvOk E, !NoFaults E}.
Context `{!Serde BucketMeta}.

(** The creation time recorded for a bucket, if it can be read. *)
Definition recorded_ms (m : tree) (b : str) : option N :=
  bytes ← file_at m (bucket_path b ++ [BUCKET_META_FILE]);
  created_epoch_ms <$> ok (from_slice (A:=BucketMeta) bytes).

(** An entry of the listing describes a bucket. *)
Definition describes (m : tree) (i : BucketInfo) : Prop :=
  ∀ ms, recorded_ms m (bi_name i) = Some ms → bi_created_epoch_ms i = ms.

Definition is_bucket (m : tree) (b : str) : Prop := is_valid_bucket_name b = true ∧ bucket_at m b.

Lemma bucket_entry_resolve b : resolve (FsEngine.buckets_dir engine ++ [Normal b]) = bucket_path b.
Proof. by rewrite resolve_snoc, buckets_dir_resolve. Qed.

(** Without faults, [read] gives the bytes of the file, if it is one. *)
Lemma runs_attempt_read {F} p d : wf (vol d) →
  runs (attempt (F:=F) (read p)) (λ r d', d' = d ∧ ok r = file_at (vol d) (resolve p)) d.
Proof.
  intros Hwf. apply wp_attempt, wp_read; unfold file_at.
  - by intros data s ->.
  - by intros ->.
  - intros e He. by rewrite (walk_Err _ _ _ Hwf He).
  - by intros e ?%no_injected.
  - by intros ?%no_halts.
Qed.

Lemma runs_bucket_created_ms {F} b d :
  wf (vol d) →
  runs (FsEngine.bucket_created_ms (F:=F) (FsEngine.buckets_dir engine ++ [Normal b]))
    (λ ms d', d' = d ∧ ∀ ms', recorded_ms (vol d) b = Some ms' → ms = ms') d.
Proof.
  intros Hwf. unfold FsEngine.bucket_created_ms.
  assert (resolve (push (FsEngine.buckets_dir engine ++ [Normal b]) BUCKET_META_FILE)
          = bucket_path b ++ [BUCKET_META_FILE]) as Hres.
  { rewrite push_plain by by apply plain_lit. by rewrite resolve_snoc, bucket_entry_resolve. }
  apply wp_bind. eapply wp_mono; [by apply runs_attempt_read| |done..]. rewrite Hres.
  intros r d' [-> Hr].
  assert (recorded_ms (vol d) b = created_epoch_ms <$> match r with
    Ok bytes => ok (from_slice (A:=BucketMeta) bytes) | Err _ => None end) as ->.
  { unfold recorded_ms. rewrite <- Hr. by destruct r. }
  destruct (match r with Ok bytes => _ | Err _ => None end) as [meta|].
  - apply wp_ret. split; [done|]. by intros ms' [= ->].
  - apply wp_bind, wp_attempt, wp_metadata; [intros; by apply wp_ret..|]. by intros ?%no_halts.
Qed.

Lemma runs_collect_buckets {F} names d :
  layout (vol d) → NoDup names →
  runs (FsEngine.collect_buckets (F:=F) (FsEngine.buckets_dir engine) names)
    (λ out d', d' = d ∧ NoDup (bi_name <$> out) ∧ Forall (describes (vol d)) out
       ∧ ∀ b, b ∈ bi_name <$> out ↔ b ∈ names ∧ is_bucket (vol d) b) d.
Proof.
  intros Hlay. induction names as [|n names IH]; intros Hnd; cbn [FsEngine.collect_buckets].
  { apply wp_ret. split_and!; [done|constructor..|]. set_solver. }
  apply NoDup_cons in Hnd as [Hn Hnd]. specialize (IH Hnd).
  assert (¬ is_bucket (vol d) n →
    runs (FsEngine.collect_buckets (F:=F) (FsEngine.buckets_dir engine) names)
      (λ out d', d' = d ∧ NoDup (bi_name <$> out) ∧ Forall (describes (vol d)) out
         ∧ ∀ b, b ∈ bi_name <$> out ↔ b ∈ n :: names ∧ is_bucket (vol d) b) d) as Hskip.
  { intros Hnb. eapply wp_mono; [exact IH| |done..]. intros out d' (-> & ? & ? & Hin).
    split_and!; [done..|]. intros b. rewrite Hin. set_solver. }
  destruct (negb (utf8b n) || negb (is_valid_bucket_name n)) eqn:Hv.
  { apply Hskip. intros [Hvalid _]. apply orb_true_iff in Hv as [Hu|Hu]; apply negb_true_iff in Hu; [|congruence].
    apply valid_bucket_utf8 in Hvalid. congruence. }
  apply orb_false_iff in Hv as [_ Hv%negb_false_iff].
  apply wp_bind, wp_attempt, wp_metadata; rewrite ?bucket_entry_resolve.
  - intros x Hx _. destruct x; cbn [is_dir_node].
    2: { apply Hskip. intros [_ Hb]. unfold bucket_at in Hb. congruence. }
    apply wp_bind. eapply wp_mono; [apply runs_bucket_created_ms, Hlay| |done..].
    intros ms d' [-> Hms]. apply wp_bind. eapply wp_mono; [exact IH| |done..].
    intros out d' (-> & Hnd' & Hall & Hin). apply wp_ret. split_and!; [done|..].
    + cbn. constructor; [|done]. rewrite Hin. by intros [? _].
    + by constructor.
    + intros b. cbn. rewrite !elem_of_cons, Hin. unfold is_bucket, bucket_at. set_solver.
  - intros e He. apply Hskip. apply walk_Err in He; [|apply Hlay]. intros [_ Hb]. unfold bucket_at in Hb. congruence.
  - intros e He. by apply no_injected in He.
  - intros He. by apply no_halts in He.
Qed.

Lemma runs_list_buckets d :
  layout (vol d) →
  runs (FsEngine.list_buckets engine)
    (λ out d', d' = d ∧ StronglySorted str_lt (bi_name <$> out) ∧ Forall (describes (vol d)) out
       ∧ ∀ b, b ∈ bi_name <$> out ↔ is_bucket (vol d) b) d.
Proof.
  intros Hlay. apply wp_bind, wp_mapE, wp_read_dir; rewrite ?buckets_dir_resolve.
  - intros _. apply wp_bind. eapply wp_mono; [apply runs_collect_buckets; [done|]| |done..].
    + rewrite dir_order_perm. apply children_nodup.
    + intros out d' (-> & Hnd & Hall & Hin). apply wp_ret.
      rewrite (sort_by_fmap str_leb bi_name). split_and!; [done|by apply sort_strings_strict| |].
      * by rewrite (sort_by_perm _ out).
      * intros b. fold (sort_strings (bi_name <$> out)). rewrite sort_strings_perm, Hin.
        rewrite dir_order_perm, elem_of_children. split; [by intros [_ ?]|]. intros Hb. split; [|done].
        destruct Hb as [_ Hb]. unfold bucket_at in Hb. eauto.
  - intros e data s' Hf. by rewrite (lay_buckets _ Hlay) in Hf.
  - intros e He. apply walk_Err in He; [|apply Hlay]. by rewrite (lay_buckets _ Hlay) in He.
  - by intros e ?%no_injected.
  - by intros ?%no_halts.
Qed.

(** [list_buckets] shows exactly the buckets.  Without faults it returns,
    changes nothing, and lists, in strictly ascending order, the valid names
    that are directories of [buckets/] and nothing else, each with the creation
    time recorded in its metadata wherever that can be read. *)
Theorem list_buckets_spec w :
  layout (vol (wdisk w)) →
  ∃ out w', FsEngine.list_buckets engine w = (Some (Ok out), w') ∧ wdisk w' = wdisk w
    ∧ StronglySorted str_lt (bi_name <$> out)
    ∧ (∀ b, b ∈ bi_name <$> out ↔ is_valid_bucket_name b = true ∧ bucket_at (vol (wdisk w)) b)
    ∧ ∀ i, i ∈ out → ∀ ms, recorded_ms (vol (wdisk w)) (bi_name i) = Some ms → bi_created_epoch_ms i = ms.
Proof.
  intros Hlay. destruct (runs_run _ _ w (runs_list_buckets (wdisk w) Hlay)) as (out & w' & Hr & Hd & Hs & Hall & Hin).
  exists out, w'. rewrite Forall_forall in Hall. split_and!; [done..|]. intros i Hi. by apply Hall.
Qed.
End list_buckets.
