(* ===== verification/FsOpen.v ===== *)
(** * Opening a data directory

    [FsEngine::open] makes the layout the other operations rely on, clears the
    staging directory and checks the format marker; it touches no bucket and
    no object. *)

From S2P Require Import Prelude RustStr RustPath Paths Checksum EngineError Fs FsFacts Atomic Meta Layer Walk FsBase Listing FsEngine Tidy FsObject FsBuckets.

Section sweep.
Context {E : Env} {D : DataDir} `{!EnvOk E}.

(** Entries of the staging directory have gone; the directory has not. *)
Definition swept (m m' : tree) : Prop :=
  pruned tmp_path m m' ∧ m' !! tmp_path = m !! tmp_path.

Lemma swept_refl m : wf m → swept m m.
Proof. split; [by apply pruned_refl|done]. Qed.

Lemma swept_trans m1 m2 m3 : swept m1 m2 → swept m2 m3 → swept m1 m3.
Proof. intros [P1 T1] [P2 T2]. split; [by eapply pruned_trans|congruence]. Qed.

Lemma swept_entry n m m' : pruned (tmp_path ++ [n]) m m' → swept m m'.
Proof.
  intros [Ho Hi Hw]. split; [split; [|done..]|].
  - intros q Hq. apply Ho. intros Hp. apply Hq. etrans; [|exact Hp]. by apply prefix_app_r.
  - apply Ho. intros Hp%prefix_length. rewrite length_app in Hp. cbn in Hp. lia.
Qed.

Lemma swept_file n m : wf m → m !! (tmp_path ++ [n]) ≠ Some NDir → swept m (delete (tmp_path ++ [n]) m).
Proof.
  intros Hwf Hn. apply (swept_entry n). split; [| |by apply wf_delete_file].
  - intros q Hq. apply lookup_delete_ne. by intros <-.
  - intros q. destruct (decide (tmp_path ++ [n] = q)) as [<-|?];
      [right; apply lookup_delete_eq|left; by apply lookup_delete_ne].
Qed.

Lemma tmp_entry_resolve n : resolve (FsEngine.tmp_dir engine ++ [Normal n]) = tmp_path ++ [n].
Proof. by rewrite resolve_snoc, tmp_dir_names, resolve_names. Qed.

(** Taking one entry away, as the loop does: without faults it is gone. *)
Lemma wp_sweep_remove n ft (Q : result unit io_error → disk → Prop) (F : io_error → disk → Prop) C d :
  wf (vol d) →
  ((¬ ∃ e, injected e) → (ft = true ↔ vol d !! (tmp_path ++ [n]) = Some NDir)) →
  (∀ r d', swept (vol d) (vol d') →
     ((¬ ∃ e, injected e) → vol d' !! (tmp_path ++ [n]) = None) → Q r d') →
  (∀ d', swept (vol d) (vol d') → C d') →
  wp (attempt (if (ft : bool) then remove_dir_all (FsEngine.tmp_dir engine ++ [Normal n])
               else remove_file (FsEngine.tmp_dir engine ++ [Normal n]))) Q F C d.
Proof.
  intros Hwf Hft HQ HC. apply wp_attempt. destruct ft.
  - eapply wp_mono; [apply wp_remove_dir_all; [done|]| | |]; rewrite ?tmp_entry_resolve.
    + by intros [_ ?]%app_eq_nil.
    + intros u d' (Hp & Hgone & _). apply HQ; [by eapply swept_entry|intros _; by apply Hgone].
    + intros e d' [Hp He]. apply HQ; [by eapply swept_entry|]. intros Hni. exfalso.
      destruct He as [He|[_ Hnd]]; [apply Hni; by exists e|]. by apply Hnd, Hft.
    + intros d' Hp. apply HC. by eapply swept_entry.
  - apply wp_remove_file; rewrite ?tmp_entry_resolve.
    + intros data s Hf. apply HQ; [apply swept_file; [done|by rewrite Hf]|]. intros _. apply lookup_delete_eq.
    + intros Hd. apply HQ; [by apply swept_refl|]. intros Hni. exfalso. by apply (Hft Hni) in Hd.
    + intros e He. apply HQ; [by apply swept_refl|]. intros _. by apply walk_Err in He.
    + intros e He. apply HQ; [by apply swept_refl|]. intros []. eauto.
    + intros _. apply HC. by apply swept_refl.
Qed.

Lemma wp_sweep_entries names d (F : io_error → disk → Prop) :
  wf (vol d) →
  wp (FsEngine.sweep_entries (FsEngine.tmp_dir engine) names)
    (λ _ d', swept (vol d) (vol d')
       ∧ ((¬ ∃ e, injected e) → Forall (λ n, vol d' !! (tmp_path ++ [n]) = None) names))
    F (λ d', swept (vol d) (vol d')) d.
Proof.
  revert d. induction names as [|n names IH]; intros d Hwf; cbn [FsEngine.sweep_entries].
  { apply wp_ret. split; [by apply swept_refl|constructor]. }
  assert (∀ ft : result node io_error,
    ((¬ ∃ e, injected e) → (match ft with Ok n => is_dir_node n | Err _ => false end = true
       ↔ vol d !! (tmp_path ++ [n]) = Some NDir)) →
    wp (_ <- attempt (if (match ft with Ok n => is_dir_node n | Err _ => false end : bool)
                      then remove_dir_all (FsEngine.tmp_dir engine ++ [Normal n])
                      else remove_file (FsEngine.tmp_dir engine ++ [Normal n]));;
        FsEngine.sweep_entries (FsEngine.tmp_dir engine) names)
      (λ _ d', swept (vol d) (vol d')
         ∧ ((¬ ∃ e, injected e) → Forall (λ n, vol d' !! (tmp_path ++ [n]) = None) (n :: names)))
      F (λ d', swept (vol d) (vol d')) d) as Hround.
  { intros ft Hft. apply wp_bind, wp_sweep_remove; [done|done| |done].
    intros r d1 Hs1 Hg1. eapply wp_mono; [apply IH, Hs1| |done|].
    - intros u d2 [Hs2 Hg2]. split; [by eapply swept_trans|]. intros Hni. constructor; [|auto].
      destruct (pr_in _ _ _ (proj1 Hs2) (tmp_path ++ [n])) as [->|?]; auto.
    - intros d2 Hs2. by eapply swept_trans. }
  apply wp_bind, wp_attempt, wp_metadata; rewrite ?tmp_entry_resolve.
  - intros x Hx _. apply (Hround (Ok x)). intros _. rewrite Hx. destruct x; naive_solver.
  - intros e He. apply (Hround (Err e)). intros _. apply walk_Err in He; [|done]. by rewrite He.
  - intros e He. apply (Hround (Err e)). intros []. eauto.
  - intros _. by apply swept_refl.
Qed.

Lemma wp_sweep_tmp d :
  wf (vol d) → vol d !! tmp_path = Some NDir →
  wp (FsEngine.sweep_tmp engine)
    (λ _ d', swept (vol d) (vol d')
       ∧ ((¬ ∃ e, injected e) → ∀ n, vol d' !! (tmp_path ++ [n]) = None))
    (λ e d', d' = d ∧ injected e) (λ d', swept (vol d) (vol d')) d.
Proof.
  intros Hwf Ht. assert (resolve (FsEngine.tmp_dir engine) = tmp_path) as Hres.
  { by rewrite tmp_dir_names, resolve_names. }
  apply wp_bind, wp_read_dir; rewrite ?Hres.
  - intros _. eapply wp_mono; [by apply (wp_sweep_entries _ _ (λ _ _, False))| |done|done].
    intros u d' [Hs Hg]. split; [done|]. intros Hni n. specialize (Hg Hni).
    destruct (pr_in _ _ _ (proj1 Hs) (tmp_path ++ [n])) as [Heq|?]; [|done].
    destruct (vol d !! (tmp_path ++ [n])) eqn:Hn; [|done].
    rewrite Forall_forall in Hg. apply Hg. rewrite dir_order_perm. apply elem_of_children. eauto.
  - intros e data s Hf. congruence.
  - intros e He. apply walk_Err in He; [congruence|done].
  - done.
  - intros _. by apply swept_refl.
Qed.
End sweep.

(** ** The format marker *)

Section open.
Context {E : Env} {D : DataDir} `{!EnvOk E}.
Context `{!Serde VersionManifest, !Serde DiskFormat}.

Definition format_path : apath := root_path ++ [AKS3_DIR; FORMAT_FILE].

(** A [u32] in the source. *)
Definition valid_disk_format (f : DiskFormat) : Prop := u32 (df_format f).

(** The marker says a format this build reads. *)
Definition format_ok (m : tree) (bytes : str) : Prop :=
  file_at m format_path = Some bytes
  ∧ ∃ f, from_slice bytes = Ok f ∧ (df_format f <= DISK_FORMAT)%N.

Context `{!SerdeLaws DiskFormat valid_disk_format}.

Lemma format_file_names :
  push (push (FsEngine.root engine) AKS3_DIR) FORMAT_FILE
  = dd_head ++ (Normal <$> ((dd_names ++ [AKS3_DIR]) ++ [FORMAT_FILE])).
Proof.
  rewrite root_names, !push_names by by apply plain_lit. unfold names_of. by rewrite <- (app_assoc dd_names).
Qed.

Lemma format_path_resolve : (resolve dd_head ++ dd_names ++ [AKS3_DIR]) ++ [FORMAT_FILE] = format_path.
Proof. unfold format_path, root_path. by rewrite <- !app_assoc. Qed.

Lemma tmp_not_format : ¬ tmp_path `prefix_of` format_path.
Proof.
  unfold tmp_path, format_path. intros Hp%prefix_app_inv%prefix_cons_inv_2%prefix_cons_inv_1. by vm_compute in Hp.
Qed.

Lemma format_fits m : wf m → m !! (root_path ++ [AKS3_DIR]) = Some NDir → nameable ((root_path ++ [AKS3_DIR]) ++ [FORMAT_FILE]).
Proof.
  intros Hwf Hd. pose proof root_room. pose proof (name_max_large (E:=E)).
  apply nameable_snoc; [by apply (wf_nameable _ Hwf); eexists|rewrite path_len_snoc|];
    change (length AKS3_DIR) with 5; change (length FORMAT_FILE) with 11; lia.
Qed.

Lemma wp_init_format d :
  wf (vol d) → vol d !! cwd = Some NDir → vol d !! tmp_path = Some NDir →
  wp (FsEngine.init_format engine)
    (λ _ d', ∃ bytes, format_ok (vol d') bytes
       ∧ (d' = d ∨ vol d !! format_path = None ∧ written tmp_path format_path bytes d d'))
    (λ _ d', (d' = d ∨ vol d !! format_path = None ∧ ∃ bytes pub, attempted tmp_path format_path bytes pub d d')
       ∧ (fresh_names tmp_path (vol d) →
          vol d !! format_path = None ∨ (∃ bytes, format_ok (vol d) bytes) → ∃ e, injected e))
    (λ d', d' = d ∨ vol d !! format_path = None ∧ ∃ bytes pub, attempted tmp_path format_path bytes pub d d') d.
Proof.
  intros Hwf Hc Ht. unfold FsEngine.init_format. rewrite format_file_names, tmp_dir_names.
  assert (resolve (dd_head ++ (Normal <$> ((dd_names ++ [AKS3_DIR]) ++ [FORMAT_FILE]))) = format_path) as Hres.
  { rewrite resolve_normals, app_assoc. apply format_path_resolve. }
  assert (format_path = (root_path ++ [AKS3_DIR]) ++ [FORMAT_FILE]) as Hfp by (unfold format_path; by rewrite <- app_assoc).
  assert (vol d !! (root_path ++ [AKS3_DIR]) = Some NDir) as Hdir.
  { eapply (wf_prefix _ _ [TMP_DIR]); [done|done|]. rewrite <- app_assoc. eauto. }
  apply wp_bind, wp_attempt, wp_read; rewrite ?Hres.
  - intros bytes s Hf. assert (file_at (vol d) format_path = Some bytes) as Hfb by (apply file_at_Some; eauto).
    apply wp_bind, wp_lift.
    + intros f Hpf. destruct (from_slice bytes) as [f'|] eqn:Hfs; [|done]. injection Hpf as <-.
      destruct (N.ltb_spec DISK_FORMAT (df_format f')).
      * apply wp_throw. split; [by left|]. intros _ [?|(bytes' & Hb' & f & Hf' & Hle)]; [congruence|].
        assert (bytes' = bytes) as -> by congruence. assert (f = f') as -> by congruence. lia.
      * apply wp_ret. exists bytes. split; [|by left]. split; [done|eauto].
    + intros e Hpf. split; [by left|]. intros _ [?|(bytes' & Hb' & f & Hf' & Hle)]; [congruence|].
      assert (bytes' = bytes) as -> by congruence. by rewrite Hf' in Hpf.
  - intros Hd. apply wp_throw. split; [by left|]. intros _ [?|(bytes' & Hb' & _)]; [congruence|].
    unfold file_at in Hb'. by rewrite Hd in Hb'.
  - intros e He. pose proof (walk_Err _ _ _ Hwf He) as Hno. case_bool_decide as Hk.
    + destruct (serde_roundtrip (mkDiskFormat DISK_FORMAT)) as (data & -> & Hfs); [by vm_compute|].
      unfold names_of. eapply wp_mono; [apply (wp_write_json_atomic dd_head (dd_names ++ [AKS3_DIR; TMP_DIR])
        (dd_names ++ [AKS3_DIR]) FORMAT_FILE data d)| | |]; rewrite ?tmp_path_eq, ?format_path_resolve;
        [apply dd_head_path|apply tmp_not_format|done..|apply tmp_roomy| | |].
      * intros u d' Hw. exists data. split; [|by right]. split; [apply Hw|]. by exists (mkDiskFormat DISK_FORMAT).
      * intros e' d' [(pub & Hat) Hf]. split; [right; eauto|]. intros Hfr _. apply Hf; [done|].
        rewrite Hfp. apply publishable_in_dir; rewrite <- ?Hfp, ?Hno; [done..|]. rewrite Hfp. by eapply format_fits.
      * intros d' [pub Hat]. right. eauto.
    + exfalso. rewrite Hfp in He, Hno. rewrite walk_missing in He; [by injection He as <-|done..| |done].
      by eapply format_fits.
  - intros e He. rewrite bool_decide_false by by apply injected_not_found. apply wp_throw. split; [by left|eauto].
  - intros _. by left.
Qed.

(** ** The whole of [open] *)

(** Nothing inside [buckets/] has changed, and a marker that was there is the
    same. *)
Record untouched (m m' : tree) : Prop := {
  un_buckets n ns : m' !! (buckets_path ++ n :: ns) = m !! (buckets_path ++ n :: ns);
  un_format x : m !! format_path = Some x → m' !! format_path = Some x;
}.

Lemma untouched_refl m : untouched m m.
Proof. by split. Qed.

Lemma untouched_trans m1 m2 m3 : untouched m1 m2 → untouched m2 m3 → untouched m1 m3.
Proof. intros [B1 F1] [B2 F2]. split; [intros; by rewrite B2|auto]. Qed.

Lemma prefix_buckets_aks3 ns ns' : ¬ buckets_path ++ ns `prefix_of` root_path ++ AKS3_DIR :: ns'.
Proof.
  unfold buckets_path. rewrite <- app_assoc. intros Hp%prefix_app_inv%prefix_cons_inv_1. by vm_compute in Hp.
Qed.

Lemma prefix_format_buckets : ¬ format_path `prefix_of` buckets_path.
Proof. unfold buckets_path, format_path. intros Hp%prefix_app_inv%prefix_cons_inv_1. by vm_compute in Hp. Qed.

Lemma prefix_format_tmp : ¬ format_path `prefix_of` tmp_path.
Proof.
  unfold tmp_path, format_path. intros Hp%prefix_app_inv%prefix_cons_inv_2%prefix_cons_inv_1. by vm_compute in Hp.
Qed.

Lemma prefix_longer (p : apath) n ns : ¬ p ++ n :: ns `prefix_of` p.
Proof. intros Hp%prefix_length. rewrite length_app in Hp. cbn in Hp. lia. Qed.

Lemma buckets_path_eq : resolve dd_head ++ dd_names ++ [BUCKETS_DIR] = buckets_path.
Proof. unfold buckets_path, root_path. by rewrite app_assoc. Qed.

Lemma mkdirs_untouched a m m' : a = tmp_path ∨ a = buckets_path → mkdirs a m m' →
  untouched m m' ∧ m' !! format_path = m !! format_path.
Proof.
  intros Ha Hm. assert (m' !! format_path = m !! format_path) as Hf.
  { destruct (Hm format_path) as [?|(_ & _ & Hp)]; [done|]. exfalso.
    destruct Ha as [->| ->]; [by apply prefix_format_tmp|by apply prefix_format_buckets]. }
  split; [|done]. split; [|by rewrite Hf]. intros n ns.
  destruct (Hm (buckets_path ++ n :: ns)) as [?|(_ & _ & Hp)]; [done|]. exfalso.
  destruct Ha as [->| ->]; [by eapply prefix_buckets_aks3|by eapply prefix_longer].
Qed.

Lemma swept_untouched m m' : swept m m' → untouched m m' ∧ m' !! format_path = m !! format_path.
Proof.
  intros [[Ho _ _] _]. assert (m' !! format_path = m !! format_path) as Hf by apply Ho, tmp_not_format.
  split; [|done]. split; [|by rewrite Hf]. intros n ns. apply Ho.
  unfold buckets_path. rewrite <- app_assoc. by apply tmp_not_below.
Qed.

Lemma attempted_untouched_buckets bytes pub d d' :
  vol d !! format_path = None → attempted tmp_path format_path bytes pub d d' → untouched (vol d) (vol d').
Proof.
  intros Hno [Hg _ _]. split; [|intros x; by rewrite Hno]. intros n ns.
  destruct (gr_same _ _ _ _ Hg (buckets_path ++ n :: ns)) as [?|[_ Hd]]; [|done|].
  - intros [Heq|Hc].
    + eapply (prefix_buckets_aks3 (n :: ns) [FORMAT_FILE]). by rewrite Heq.
    + by rewrite below_buckets_not_tmp in Hc.
  - destruct (gr_new _ _ _ _ Hg _ Hd) as [?|Hp]; [congruence|]. exfalso.
    eapply (prefix_buckets_aks3 (n :: ns) [FORMAT_FILE]). by apply prefix_removelast.
Qed.

Lemma swept_layout m m' :
  wf m → m !! cwd = Some NDir → m !! tmp_path = Some NDir → m !! buckets_path = Some NDir →
  ¬ buckets_path `prefix_of` cwd → ¬ tmp_path `prefix_of` cwd → swept m m' → layout m'.
Proof.
  intros Hwf Hc Ht Hb Ho Ho' [[Hout _ Hw] Htmp]. split; [done|by rewrite Hout|by rewrite Htmp| |done].
  rewrite Hout; [done|]. by apply tmp_not_below.
Qed.

Lemma wp_mark_format d :
  layout (vol d) →
  wp (mapE from_io (FsEngine.init_format engine);;; ret engine)
    (λ e d', e = engine ∧ layout (vol d') ∧ untouched (vol d) (vol d')
       ∧ (∃ bytes, format_ok (vol d') bytes)
       ∧ ∀ n, vol d' !! (tmp_path ++ [n]) = vol d !! (tmp_path ++ [n]))
    (λ _ d', untouched (vol d) (vol d')
       ∧ (fresh_names tmp_path (vol d) →
          vol d !! format_path = None ∨ (∃ bytes, format_ok (vol d) bytes) → ∃ e, injected e))
    (λ d', untouched (vol d) (vol d')) d.
Proof.
  intros Hlay. apply wp_bind, wp_mapE. eapply wp_mono; [apply wp_init_format; apply Hlay| | |].
  - intros u d' (bytes & Hok & Hd). apply wp_ret. destruct Hd as [->|[Hno Hw]].
    + split_and!; eauto using untouched_refl.
    + pose proof (wr_attempted _ _ _ _ _ Hw) as Hat.
      split_and!; [done| |by eapply attempted_untouched_buckets|eauto|apply Hw].
      destruct Hat as [[_ Hdirs _ Hw'] _ _]. destruct Hlay. split; auto.
  - intros e d' [Hd Hf]. split; [|done]. destruct Hd as [->|(Hno & bytes & pub & Hat)];
      [apply untouched_refl|by eapply attempted_untouched_buckets].
  - intros d' Hd. destruct Hd as [->|(Hno & bytes & pub & Hat)];
      [apply untouched_refl|by eapply attempted_untouched_buckets].
Qed.

Lemma wp_open d :
  wf (vol d) → vol d !! cwd = Some NDir → ¬ buckets_path `prefix_of` cwd → ¬ tmp_path `prefix_of` cwd →
  wp (FsEngine.open (FsEngine.root engine))
    (λ e d', e = engine ∧ layout (vol d') ∧ untouched (vol d) (vol d')
       ∧ (∃ bytes, format_ok (vol d') bytes)
       ∧ ((¬ ∃ e, injected e) → ∀ n, vol d' !! (tmp_path ++ [n]) = None))
    (λ _ d', untouched (vol d) (vol d')
       ∧ (creatable tmp_path (vol d) → creatable buckets_path (vol d) →
          vol d !! format_path = None ∨ (∃ bytes, format_ok (vol d) bytes) → ¬ ¬ ∃ e, injected e))
    (λ d', untouched (vol d) (vol d')) d.
Proof.
  intros Hwf Hc Hout Hout'. unfold FsEngine.open. fold engine.
  change (FsEngine.mk (FsEngine.root engine)) with engine.
  rewrite tmp_dir_names. unfold names_of at 1.
  apply wp_bind, wp_mapE. eapply wp_mono; [by apply wp_create_dir_all; [apply dd_head_path|..]| | |];
    rewrite ?tmp_path_eq.
  2: { intros e d1 [(Hm & _) Hf]. apply mkdirs_untouched in Hm as [Hu _]; [|by left].
    split; [done|]. intros Ht _ _ Hni. by apply Hni, Hf. }
  2: { intros d1 [(Hm & _) _]. apply mkdirs_untouched in Hm as [Hu _]; [done|by left]. }
  intros u d1 [(Hm1 & Hwf1 & _) Ht1]. destruct (mkdirs_untouched _ _ _ (or_introl eq_refl) Hm1) as [Hu1 Hf1].
  pose proof (mkdirs_keep _ _ _ _ _ Hm1 Hc) as Hc1.
  rewrite buckets_dir_names. unfold names_of at 1.
  apply wp_bind, wp_mapE. eapply wp_mono; [by apply wp_create_dir_all; [apply dd_head_path|..]| | |];
    rewrite ?buckets_path_eq.
  2: { intros e d2 [(Hm & _) Hf]. apply mkdirs_untouched in Hm as [Hu _]; [|by right].
    split; [by eapply untouched_trans|]. intros _ Hb _ Hni. apply Hni, Hf. by eapply creatable_mkdirs. }
  2: { intros d2 [(Hm & _) _]. apply mkdirs_untouched in Hm as [Hu _]; [by eapply untouched_trans|by right]. }
  intros u2 d2 [(Hm2 & Hwf2 & _) Hb2]. destruct (mkdirs_untouched _ _ _ (or_intror eq_refl) Hm2) as [Hu2 Hf2].
  pose proof (mkdirs_keep _ _ _ _ _ Hm2 Hc1) as Hc2. pose proof (mkdirs_keep _ _ _ _ _ Hm2 Ht1) as Ht2.
  pose proof (untouched_trans _ _ _ Hu1 Hu2) as Hu02. rewrite Hf1 in Hf2. clear Hm1 Hm2 Hu1 Hu2 Hf1.
  apply wp_bind, wp_mapE. eapply wp_mono; [by apply wp_sweep_tmp| | |].
  2: { intros e d3 [-> He]. split; [done|]. intros _ _ _ Hni. apply Hni. eauto. }
  2: { intros d3 [Hu3 _]%swept_untouched. by eapply untouched_trans. }
  intros u3 d3 [Hs Hempty]. destruct (swept_untouched _ _ Hs) as [Hu3 Hf3].
  pose proof (untouched_trans _ _ _ Hu02 Hu3) as Hu03. rewrite Hf2 in Hf3.
  assert (layout (vol d3)) as Hlay3 by by eapply swept_layout.
  eapply wp_mono; [by apply wp_mark_format| | |].
  - intros e d4 (-> & Hl & Hu & Hok & Hclean). split_and!; [done..|by eapply untouched_trans|done|].
    intros Hni n. rewrite Hclean. auto.
  - intros e d4 [Hu Hf]. split; [by eapply untouched_trans|]. intros _ _ Hfmt Hni. apply Hni, Hf.
    + intros n. by apply Hempty.
    + unfold format_ok, file_at in *. by rewrite Hf3.
  - intros d4 Hu. by eapply untouched_trans.
Qed.

(** Nothing in the bucket directory has changed, so no object has. *)
Lemma untouched_objects (m m' : tree) :
  untouched m m' → (∀ b, bucket_at m' b ↔ bucket_at m b) ∧ ∀ b k, object_at m' b k = object_at m b k.
Proof.
  intros [Hb Hf]. split.
  - intros b. unfold bucket_at, bucket_path. by rewrite Hb.
  - intros b k. apply object_at_ext. intros n. unfold file_at.
    rewrite object_file_in_bucket. unfold bucket_path. rewrite <- app_assoc. cbn. by rewrite Hb.
Qed.

(** C16: [open] lays out the data directory and touches nothing in it.  In every
    outcome, whatever fails and wherever the process dies, every bucket and
    every object is what it was and a format marker that was there is the same.
    If it returns, the directories every other operation relies on are there and
    the marker names a format this build reads, so a directory written in a
    newer format is refused; and if no call failed the staging directory is
    empty.  It fails only if the environment does, the directories cannot be
    made, or the marker is not one this build accepts. *)
Theorem open_spec w :
  let m := vol (wdisk w) in
  wf m → m !! cwd = Some NDir → ¬ buckets_path `prefix_of` cwd → ¬ tmp_path `prefix_of` cwd →
  let '(r, w') := FsEngine.open (FsEngine.root engine) w in
  let m' := vol (wdisk w') in
  (∀ b, bucket_at m' b ↔ bucket_at m b)
  ∧ (∀ b k, object_at m' b k = object_at m b k)
  ∧ (∀ x, m !! format_path = Some x → m' !! format_path = Some x)
  ∧ match r with
    | Some (Ok e) =>
        e = engine ∧ layout m' ∧ (∃ bytes, format_ok m' bytes)
        ∧ ((¬ ∃ e, injected e) → ∀ n, m' !! (tmp_path ++ [n]) = None)
    | Some (Err _) =>
        creatable tmp_path m → creatable buckets_path m →
        m !! format_path = None ∨ (∃ bytes, format_ok m bytes) → ¬ ¬ ∃ e, injected e
    | None => True
    end.
Proof.
  intros m Hwf Hc Hout Hout'.
  assert (∀ m', untouched m m' → (∀ b, bucket_at m' b ↔ bucket_at m b)
    ∧ (∀ b k, object_at m' b k = object_at m b k)
    ∧ (∀ x, m !! format_path = Some x → m' !! format_path = Some x)) as Hframe.
  { intros m' Hu. destruct (untouched_objects _ _ Hu). split_and!; [done..|]. apply Hu. }
  pose proof (wp_run _ _ _ _ w (wp_open (wdisk w) Hwf Hc Hout Hout')) as Hwp.
  destruct (FsEngine.open (FsEngine.root engine) w) as [[[e|e]|] w']; cbn.
  - destruct Hwp as (He & Hl & Hu & Hok & Hempty). destruct (Hframe _ Hu) as (? & ? & ?). done.
  - destruct Hwp as [Hu Hf]. destruct (Hframe _ Hu) as (? & ? & ?). done.
  - destruct (Hframe _ Hwp) as (? & ? & ?). done.
Qed.
End open.
