(* ===== verification/ReadOnly.v ===== *)
(** * The requests that only read

    [get_object], [head_object], [bucket_exists], [list_buckets] and
    [list_objects_v2] leave the disk as it is, whatever fails. *)

From S2P Require Import Prelude RustStr RustPath Paths Checksum EngineError Fs FsFacts Atomic Meta Layer Walk FsBase Listing FsEngine.

Create HintDb readonly.

(** No call of the program changes the disk. *)
Definition quiet X (op : disk → result X io_error * disk) (part : nat → disk → disk) : Prop :=
  (∀ d, (op d).2 = d) ∧ ∀ n d, part n d = d.

Abbreviation readonly := (every quiet (λ _ _, True)).

Section readonly.
Context {E : Env}.

Lemma readonly_run {F A} (m : M F A) w : readonly m → wdisk (m w).2 = wdisk w.
Proof.
  revert w. induction m as [r|Z op part k IH|k IH|k IH|k IH|l md k IH|l md k IH|k IH|k IH]; intros w Hm; cbn;
    try (rewrite IH; [done|by try apply Hm]); [done|].
  destruct Hm as [[Hop Hpart] Hk]. destruct (fate_of (ticks w)) as [|e n|]; [|rewrite IH; [apply Hpart|done]|done].
  specialize (Hop (wdisk w)). destruct (op (wdisk w)) as [r d]. cbn in Hop. subst d. by rewrite IH.
Qed.

Lemma every_with_lock C L {F A} l md (m : M F A) : L l md → every C L m → every C L (FsEngine.with_lock l md m).
Proof.
  intros Hl Hm. split; [done|]. cbn. apply every_bind; [by apply every_attempt|intros r]. by split.
Qed.

Lemma readonly_with_lock {F A} l md (m : M F A) : readonly m → readonly (FsEngine.with_lock l md m).
Proof. by apply every_with_lock. Qed.

Lemma readonly_atomic {A} (op : disk → result A io_error * disk) :
  (∀ d, (op d).2 = d) → readonly (atomic op).
Proof. intros Hop. by apply every_atomic. Qed.

Lemma readonly_metadata p : readonly (metadata p).
Proof. by apply readonly_atomic. Qed.
Lemma readonly_read p : readonly (read p).
Proof. apply readonly_atomic. intros d. by repeat case_match. Qed.
Lemma readonly_read_dir p : readonly (read_dir p).
Proof. apply readonly_atomic. intros d. by repeat case_match. Qed.
End readonly.

#[export] Hint Resolve readonly_metadata readonly_read readonly_read_dir : every.

Ltac readonly := intros; cbn zeta; repeat first [apply readonly_with_lock | every_step].

Section requests.
Context {E : Env} {HS : HashCrates} {MD : Md5Crate} {RD : Reads}.
Context `{!Serde VersionManifest, !Serde BucketMeta, !Serde DiskFormat}.

Lemma readonly_existing_bucket_dir e b : readonly (FsEngine.existing_bucket_dir e b).
Proof. unfold FsEngine.existing_bucket_dir. readonly. Qed.

Lemma readonly_live_version p : readonly (FsEngine.live_version p).
Proof. unfold FsEngine.live_version, load_manifest. readonly. Qed.

Lemma readonly_bucket_exists e b : readonly (FsEngine.bucket_exists e b).
Proof. unfold FsEngine.bucket_exists. readonly. Qed.

Lemma readonly_list_buckets e : readonly (FsEngine.list_buckets e).
Proof.
  assert (∀ p ns, readonly (FsEngine.collect_buckets (F:=EngineError) p ns)).
  { intros p. induction ns; cbn [FsEngine.collect_buckets]; unfold FsEngine.bucket_created_ms; readonly. }
  unfold FsEngine.list_buckets. readonly.
Qed.

Lemma readonly_head_object e b k : readonly (FsEngine.head_object e b k).
Proof.
  pose proof readonly_existing_bucket_dir. pose proof readonly_live_version.
  unfold FsEngine.head_object. readonly.
Qed.

Lemma readonly_get_object e b k range : readonly (FsEngine.get_object e b k range).
Proof.
  pose proof readonly_existing_bucket_dir. pose proof readonly_live_version.
  assert (∀ o, readonly (FsEngine.seek o)) by (intros o; by apply readonly_atomic).
  unfold FsEngine.get_object, FsEngine.open_file. readonly.
Qed.

Lemma readonly_sorted_keys p : readonly (sorted_keys p).
Proof.
  assert (∀ p ns, readonly (scan_names p ns)) by (intros q; induction ns; cbn [scan_names]; readonly).
  assert (∀ n st, readonly (walk_loop n st)) as Hloop.
  { induction n; intros [|[? ?] st]; cbn [walk_loop]; unfold read_object_dir; readonly. }
  unfold sorted_keys. readonly.
Qed.

Lemma readonly_list_objects_v2 e b p : readonly (FsEngine.list_objects_v2 e b p).
Proof.
  pose proof readonly_existing_bucket_dir. pose proof readonly_sorted_keys. pose proof readonly_live_version.
  assert (∀ p, readonly (FsEngine.listable_version p)) by (unfold FsEngine.listable_version; readonly).
  assert (∀ look, (∀ k, readonly (look k)) → ∀ ks out, readonly (list_loop look p ks out)).
  { intros look Hl. induction ks as [|key ks IH]; intros out; cbn [list_loop]; readonly. }
  unfold FsEngine.list_objects_v2, list_page. readonly.
Qed.
End requests.
