(* ===== verification/Store.v ===== *)
(** * The store as a whole

    The invariant of a data directory: a layout, buckets whose trees hold only
    what the engine writes, and manifests that can be read.  Every request keeps
    it, whatever fails and wherever the process dies, and in such a store the
    way to every key whose path fits is free. *)

From S2P Require Import Prelude RustStr RustPath Paths Checksum EngineError Fs FsFacts Atomic Meta Layer Walk FsBase Listing FsEngine Tidy FsObject FsDelete FsList FsBuckets FsOpen ReadOnly.

Section invariant.
Context {E : Env} {D : DataDir} `{!EnvOk E}.
Context {HS : HashCrates} {MD : Md5Crate} {RD : Reads}.
Context `{!Serde VersionManifest, !Serde BucketMeta, !Serde DiskFormat}.

(** The layout stands, and below every bucket there is what the engine writes. *)
Record store_ok (m : tree) : Prop := {
  so_layout : layout m;
  so_trees b : bucket_at m b → bucket_tree b m;
}.

(** ** What keeps the trees *)

(** Taking entries away keeps a tree what the engine writes. *)
Lemma bucket_tree_sub b m m' : (∀ q x, m' !! q = Some x → m !! q = Some x) → bucket_tree b m → bucket_tree b m'.
Proof.
  intros Hsub [Ht Ho Hm]. split.
  - intros q n x Hx. by apply Ht, Hsub.
  - intros data s Hx. by eapply Ho, Hsub.
  - intros k bytes Hk [s Hf]%file_at_Some. apply (Hm k); [done|]. apply file_at_Some. eauto.
Qed.

Lemma meta_path_eq b k : meta_path b k = objects_path b ++ key_names k ++ [META_FILE].
Proof. unfold meta_path, object_path. by rewrite <- app_assoc. Qed.

(** Only entries below the bucket matter. *)
Lemma bucket_tree_ext b m m' : (∀ ns, m' !! (bucket_path b ++ ns) = m !! (bucket_path b ++ ns)) →
  bucket_tree b m → bucket_tree b m'.
Proof.
  intros Hext [Ht Ho Hm]. assert (∀ q, m' !! (objects_path b ++ q) = m !! (objects_path b ++ q)) as Hq.
  { intros q. unfold objects_path. by rewrite <- app_assoc, Hext. }
  split.
  - intros q n x. rewrite Hq. apply Ht.
  - intros data s. pose proof (Hq []) as H0. rewrite app_nil_r in H0. rewrite H0. apply Ho.
  - intros k bytes. unfold file_at. rewrite meta_path_eq, Hq, <- meta_path_eq. apply Hm.
Qed.

(** No tree at all. *)
Lemma bucket_tree_none b m : wf m → m !! objects_path b = None → bucket_tree b m.
Proof.
  intros Hwf Hno. assert (∀ n ns, m !! (objects_path b ++ n :: ns) = None) as Hn.
  { intros n ns. apply wf_no_child_below; [done|by rewrite Hno]. }
  split.
  - intros q n x Hx. destruct q as [|y q]; cbn in Hx; by rewrite Hn in Hx.
  - intros data s. by rewrite Hno.
  - intros k bytes _ [s Hf]%file_at_Some. unfold meta_path, object_path in Hf. rewrite <- app_assoc in Hf.
    destruct (key_names k ++ [META_FILE]) as [|y ns] eqn:Hk; [by apply app_eq_nil in Hk as [_ ?]|].
    by rewrite Hn in Hf.
Qed.

Lemma objects_path_inj b b' q q' : objects_path b ++ q = objects_path b' ++ q' → b = b' ∧ q = q'.
Proof.
  unfold objects_path, bucket_path. rewrite <- !app_assoc. intros Heq%app_inv_head. by injection Heq as -> ->.
Qed.

Lemma data_path_eq b k id : data_path b k id = objects_path b ++ key_names k ++ [data_file_name id].
Proof. unfold data_path, object_path. by rewrite <- app_assoc. Qed.

Lemma tree_not_tmp b ns : is_child tmp_path (objects_path b ++ ns) = false.
Proof. unfold objects_path, bucket_path. rewrite <- !app_assoc. apply below_buckets_not_tmp. Qed.

Lemma data_name_reserved id : reserved (data_file_name id) = true.
Proof.
  apply starts_with_spec. unfold data_file_name. change PREFIX with (RESERVED_PREFIX ++ b#".v.").
  rewrite <- app_assoc. by eexists.
Qed.

(** A put keeps every tree, if the key's manifest can still be read. *)
Lemma put_effect_tree b k b' d d' :
  utf8 k → put_effect b k d d' →
  (∀ bytes, file_at (vol d') (meta_path b k) = Some bytes → is_Some (parse_manifest bytes)) →
  bucket_tree b' (vol d) → bucket_tree b' (vol d').
Proof.
  intros Hk [Hg _] Hman [Ht Ho Hm].
  assert (∀ q n data s, vol d' !! (objects_path b' ++ q ++ [n]) = Some (NFile data s) →
    vol d !! (objects_path b' ++ q ++ [n]) = Some (NFile data s)
    ∨ b' = b ∧ q = key_names k ∧ reserved n = true) as Hfile.
  { intros q n data s Hx. destruct (decide (is_child tmp_path (objects_path b' ++ q ++ [n]) = true)) as [Hc|Hc].
    { by rewrite tree_not_tmp in Hc. }
    destruct (decide (objects_path b' ++ q ++ [n] = meta_path b k)) as [Heq|Hnm].
    { rewrite meta_path_eq in Heq. apply objects_path_inj in Heq as [-> [-> ->]%app_inj_tail]. by right. }
    destruct (decide (objects_path b' ++ q ++ [n] = data_path b k NULL_VERSION_ID)) as [Heq|Hnd].
    { rewrite data_path_eq in Heq. apply objects_path_inj in Heq as [-> [-> ->]%app_inj_tail]. right. auto using data_name_reserved. }
    left. destruct (gr_same _ _ _ _ Hg (objects_path b' ++ q ++ [n])) as [<-|[_ ?]]; [|done|congruence].
    intros [[?|?]|?]; done. }
  split.
  - intros q n [|data s] Hx.
    + apply (gr_new _ _ _ _ Hg) in Hx as [Hx|[t Hp]]; [by apply (Ht q n NDir)|].
      unfold object_path in Hp. rewrite <- app_assoc in Hp. apply objects_path_inj in Hp as [-> Hp].
      pose proof (key_names_canonical k Hk) as Hc. rewrite Hp in Hc.
      apply Forall_app in Hc as [Hc _]. apply Forall_app in Hc as [Hc Hn].
      split; [done|]. by rewrite Forall_singleton in Hn.
    + destruct (Hfile q n data s Hx) as [Hx'|(-> & -> & Hr)]; [by apply (Ht q n (NFile data s))|].
      split; [by apply key_names_canonical|done].
  - intros data s Hx. destruct (gr_same _ _ _ _ Hg (objects_path b')) as [Heq|[_ ?]]; [| |congruence].
    + intros [[Heq|Heq]|Hc].
      * rewrite meta_path_eq in Heq. apply (f_equal length) in Heq.
        unfold objects_path, bucket_path in Heq. rewrite !length_app in Heq. cbn in Heq. lia.
      * rewrite data_path_eq in Heq. apply (f_equal length) in Heq.
        unfold objects_path, bucket_path in Heq. rewrite !length_app in Heq. cbn in Heq. lia.
      * by rewrite <- (app_nil_r (objects_path b')), tree_not_tmp in Hc.
    + rewrite Heq in Hx. by eapply Ho.
  - intros k' bytes Hk' Hf. destruct (decide ((b', k') = (b, k))) as [[= -> ->]|Hne]; [auto|].
    apply (Hm k'); [done|]. rewrite <- Hf. symmetry. eapply gr_files; [exact Hg|].
    by apply own_file_other.
Qed.

Context `{!HashCratesLaws HS, !Md5Laws MD, !SerdeLaws VersionManifest valid_manifest}.
Context `{!SerdeLaws BucketMeta valid_bucket_meta}.

Lemma torn_readable b k data entry m m' : torn b k data entry m m' →
  (∀ bytes, file_at m (meta_path b k) = Some bytes → is_Some (parse_manifest bytes)) →
  ∀ bytes, file_at m' (meta_path b k) = Some bytes → is_Some (parse_manifest bytes).
Proof.
  intros [[-> _]|[_ (bytes' & mf & Hf & Hp & _)]] Hm bytes Hb; [auto|].
  rewrite Hf in Hb. injection Hb as <-. eauto.
Qed.

Lemma touched_readable b k body opts m m' : touched b k body opts m m' →
  (∀ bytes, file_at m (meta_path b k) = Some bytes → is_Some (parse_manifest bytes)) →
  ∀ bytes, file_at m' (meta_path b k) = Some bytes → is_Some (parse_manifest bytes).
Proof. intros [[-> _]|(data & ns & _ & Ht)] Hm; [done|by eapply torn_readable]. Qed.

Lemma put_effect_ok b k d d' :
  utf8 k → store_ok (vol d) → bucket_at (vol d) b → put_effect b k d d' →
  (∀ bytes, file_at (vol d') (meta_path b k) = Some bytes → is_Some (parse_manifest bytes)) →
  store_ok (vol d').
Proof.
  intros Hk [Hlay Ht] Hb Heff Hm. split; [by eapply put_effect_layout|].
  intros b' Hb'. eapply put_effect_tree; [done..|]. apply Ht. by apply (put_effect_buckets b k b' d d').
Qed.

Lemma wp_put_ok b k body opts d : utf8 k → opts_ok opts → store_ok (vol d) →
  wp (FsEngine.put_object engine b k body opts) (λ _ d', store_ok (vol d')) (λ _ d', store_ok (vol d'))
    (λ d', store_ok (vol d')) d.
Proof.
  intros Hk Hopts Hok. eapply wp_mono;
    [apply (wp_and _ _ _ _ _ _ _ _ (wp_put_object b k body opts d Hk Hopts (so_layout _ Hok))
       (wp_put_bucket b k body opts d (so_layout _ Hok)))|..].
  - intros info d' [(data & ns & _ & _ & Hdone) [_ Hb]]. eapply put_effect_ok; [done..|apply Hdone|].
    destruct (pd_records _ _ _ _ _ _ Hdone) as (bytes & mf & Hf & Hp & _). intros bytes' Hb'.
    rewrite Hf in Hb'. injection Hb' as <-. eauto.
  - intros e d' [[[Heff Ht] _] [[_ Hb]| ->]]; [|done]. eapply put_effect_ok; [done..|].
    eapply touched_readable; [done|]. intros bytes. apply (bt_manifests _ _ (so_trees _ Hok b Hb)). done.
  - intros d' [[Heff Ht] [[_ Hb]| ->]]; [|done]. eapply put_effect_ok; [done..|].
    eapply touched_readable; [done|]. intros bytes. apply (bt_manifests _ _ (so_trees _ Hok b Hb)). done.
Qed.

Lemma shrinks_ok b k m m' : store_ok m → shrinks b k m m' → store_ok m'.
Proof.
  intros [Hlay Ht] Hs. split; [by eapply shrinks_layout|]. intros b' Hb'.
  eapply bucket_tree_sub; [by apply Hs|]. apply Ht. by eapply sh_sub.
Qed.

Lemma wp_delete_ok b k d : utf8 k → store_ok (vol d) →
  wp (FsEngine.delete_object engine b k) (λ _ d', store_ok (vol d')) (λ _ d', store_ok (vol d'))
    (λ d', store_ok (vol d')) d.
Proof.
  intros Hk Hok. eapply wp_mono; [apply wp_delete_object; [done|apply Hok]|..].
  - intros u d' [_ Hd]. eapply shrinks_ok; [done|apply Hd].
  - intros e d' [[Hs _] _]. by eapply shrinks_ok.
  - intros d' [Hs _]. by eapply shrinks_ok.
Qed.

Lemma bucket_effect_tree b b' m m' : bucket_effect b m m' → b' ≠ b → bucket_tree b' m → bucket_tree b' m'.
Proof.
  intros Heff Hne. apply bucket_tree_ext. intros ns. apply (be_out _ _ _ Heff).
  - unfold bucket_path. rewrite <- app_assoc. cbn. by intros ->%prefix_app_inv%prefix_cons_inv_1.
  - unfold bucket_path. rewrite <- app_assoc. apply below_buckets_not_tmp.
Qed.

Lemma bucket_made_ok b d d' : store_ok (vol d) → bucket_made b d d' → store_ok (vol d').
Proof.
  intros [Hlay Ht] [_ Ha He Hn]. split; [by eapply bucket_effect_layout|]. intros b' Hb'.
  destruct (decide (b' = b)) as [->|Hne].
  - apply bucket_tree_none; [by eapply be_wf|done].
  - eapply bucket_effect_tree; [done..|]. apply Ht. by apply (bucket_effect_buckets b b' (vol d) (vol d')).
Qed.

Lemma bucket_leaving_ok b m m' : store_ok m → bucket_leaving b m m' → store_ok m'.
Proof.
  intros Hok [->|[_ Hp]]; [done|]. destruct Hok as [Hlay Ht].
  split; [by eapply bucket_effect_layout, pruned_effect|]. intros b' Hb'.
  assert (∀ q x, m' !! q = Some x → m !! q = Some x) as Hsub.
  { intros q x Hx. destruct (pr_in _ _ _ Hp q) as [<-|?]; [done|congruence]. }
  eapply bucket_tree_sub; [done|]. apply Ht. by apply Hsub.
Qed.

(** The strings of a request are Rust strings. *)
Definition request_strings (r : request) : Prop :=
  match r with
  | RPutObject _ k _ opts => utf8 k ∧ opts_ok opts
  | RGetObject _ k _ | RHeadObject _ k | RDeleteObject _ k => utf8 k
  | RListObjects _ p => request_ok p
  | RCreateBucket _ | RDeleteBucket _ | RBucketExists _ | RListBuckets => True
  end.

Lemma serve_readonly {A} (m : M EngineError A) w :
  readonly m → wdisk ((m;;; ret ()) w).2 = wdisk w.
Proof. intros Hm. apply readonly_run. by apply every_bind. Qed.

Lemma wp_always {F A} (m : M F A) (P : disk → Prop) w :
  wp m (λ _, P) (λ _, P) P (wdisk w) → P (wdisk (m w).2).
Proof. intros Hwp%wp_run. by destruct (m w) as [[[a|e]|] w']. Qed.

(** The invariant of a data directory holds after every request, whatever
    fails and wherever the process dies in the middle of it: the layout stands,
    and below every bucket there are only directories whose names decode to
    parts of keys and files with reserved names, with every manifest readable.
    This is what every other operation relies on, so a crash can never leave a
    data directory the engine cannot work with. *)
Theorem requests_keep_store r w :
  request_strings r → store_ok (vol (wdisk w)) →
  store_ok (vol (wdisk (@serve (fs_engine_layer engine) r w).2)).
Proof.
  intros Hr Hok. destruct r; cbn [serve create_bucket delete_bucket bucket_exists list_buckets put_object
    get_object head_object delete_object list_objects_v2 fs_engine_layer]; cbn in Hr.
  - apply (wp_always _ (λ d, store_ok (vol d))). eapply wp_mono; [apply wp_create_bucket, Hok|..].
    + intros u d' (_ & Hm & _). by eapply bucket_made_ok.
    + intros e d' [_ [->|Hm]]; [done|by eapply bucket_made_ok].
    + intros d' [->|Hm]; [done|by eapply bucket_made_ok].
  - apply (wp_always _ (λ d, store_ok (vol d))). eapply wp_mono; [apply wp_delete_bucket, Hok|..].
    + intros u d' (_ & _ & Hm & _). by eapply bucket_leaving_ok.
    + intros e d' (_ & Hm & _). by eapply bucket_leaving_ok.
    + intros d' Hm. by apply (bucket_leaving_ok b (vol (wdisk w))).
  - rewrite serve_readonly; [done|apply readonly_bucket_exists].
  - rewrite serve_readonly; [done|apply readonly_list_buckets].
  - destruct Hr. apply (wp_always _ (λ d, store_ok (vol d))). apply wp_bind.
    eapply wp_mono; [by apply wp_put_ok| |done|done]. intros. by apply wp_ret.
  - rewrite serve_readonly; [done|apply readonly_get_object].
  - rewrite serve_readonly; [done|apply readonly_head_object].
  - apply (wp_always _ (λ d, store_ok (vol d))). by apply wp_delete_ok.
  - rewrite serve_readonly; [done|apply readonly_list_objects_v2].
Qed.
End invariant.

(** ** The abstract store *)

Section abstract.
Context {E : Env} {D : DataDir} `{!EnvOk E}.
Context {HS : HashCrates} {MD : Md5Crate} {RD : Reads}.
Context `{!Serde VersionManifest, !Serde BucketMeta, !Serde DiskFormat}.

(** The key fits the file system: every name of its path and the path as a whole,
    down to its data file. *)
Definition short_key (b k : str) : Prop := nameable (data_path b k NULL_VERSION_ID).

(** The path to the key is too long as a whole: the file system refuses it before
    it looks anything up. *)
Definition long_key (b k : str) : Prop := path_max < path_len (object_path b k).

Lemma long_meta b k : long_key b k → path_max < path_len (meta_path b k).
Proof. unfold long_key, meta_path. rewrite path_len_snoc. lia. Qed.

Lemma tree_dir_free b k q m :
  bucket_tree b m → utf8 k → q `prefix_of` key_names k →
  m !! (objects_path b ++ q) = None ∨ m !! (objects_path b ++ q) = Some NDir.
Proof.
  intros [Ht Ho _] Hk [t Hq]. destruct (m !! (objects_path b ++ q)) as [[|data s]|] eqn:Hx; [by right| |by left].
  exfalso. destruct q as [|n q _] using rev_ind.
  - rewrite app_nil_r in Hx. by eapply Ho.
  - apply Ht in Hx as [_ Hr]. pose proof (key_names_canonical k Hk) as Hc. rewrite Hq in Hc.
    apply Forall_app in Hc as [[_ Hn]%Forall_app _]. rewrite Forall_singleton in Hn.
    apply canonical_not_reserved in Hn. congruence.
Qed.

Lemma object_dir_free b k m :
  store_ok m → bucket_at m b → utf8 k → short_key b k → creatable (object_path b k) m.
Proof.
  intros Hok Hb Hk Hs. pose proof (lay_wf _ (so_layout _ Hok)) as Hwf. split; [by eapply nameable_app_l|].
  unfold object_path.
  intros q [t Hq]. destruct (decide (objects_path b `prefix_of` q)) as [[q' ->]|Hn].
  - rewrite <- app_assoc in Hq. apply app_inv_head in Hq. eapply tree_dir_free; [by apply so_trees|done|by eexists].
  - right. assert (q `prefix_of` objects_path b) as Hp.
    { destruct (prefix_weak_total q (objects_path b) (objects_path b ++ key_names k)) as [?|?];
        [by exists t|by apply prefix_app_r|done|done]. }
    unfold objects_path in Hp. apply prefix_snoc in Hp as [->|Hp]; [by destruct Hn|].
    destruct (decide (q = bucket_path b)) as [->|?]; [done|]. eapply wf_prefix_of; eauto.
Qed.

Lemma own_not_dir b k n m : bucket_tree b m → utf8 k → reserved n = true → m !! (object_path b k ++ [n]) ≠ Some NDir.
Proof.
  intros [Ht _ _] Hk Hr Hx. unfold object_path in Hx. rewrite <- app_assoc in Hx. apply Ht in Hx as [_ Hc].
  apply canonical_not_reserved in Hc. congruence.
Qed.

Lemma store_puttable b k m :
  store_ok m → bucket_at m b → utf8 k → short_key b k → fresh_names tmp_path m → puttable b k m.
Proof.
  intros Hok Hb Hk Hs Hf. pose proof (so_trees _ Hok b Hb) as Ht. split.
  - by apply object_dir_free.
  - done.
  - by apply own_not_dir.
  - apply own_not_dir; [done..|apply data_name_reserved].
  - intros bytes. by apply (bt_manifests _ _ Ht).
  - done.
Qed.
End abstract.
