(* ===== verification/Refine.v ===== *)
(** * The engine implements a map of maps

    The abstract store is a map from bucket names to maps from keys to a
    description and its bytes; [spec] says what each request answers and how it
    changes the map.  Without faults every request of the engine answers as
    the abstract store does, and the data directory goes on representing it.
    The directory holds nothing but the objects: below [objects/] there are only
    the files of keys that are there and the directories on the way to them, so a
    bucket whose last object went can be deleted. *)

From S2P Require Import Prelude RustStr RustPath Paths Checksum EngineError Fs FsFacts Atomic Meta Layer Walk FsBase Listing FsEngine Tidy FsObject FsDelete FsList FsBuckets FsOpen ReadOnly Store.

Abbreviation objects := (gmap str (VersionEntry * str)).
Abbreviation astore := (gmap str (gmap str (VersionEntry * str))).

(** What a request answers; the creation times of buckets are left out. *)
Inductive reply :=
  | Acked
  | Found (found : bool)
  | Names (names : list str)
  | Info (info : ObjectInfo)
  | Object (info : ObjectInfo) (offset len : N) (body : str)
  | Page (page : ListResult).

(** Serving a request, with the body of a [GET] read to its end. *)
Definition answer {L : ObjectLayer} (r : request) : M EngineError reply :=
  match r with
  | RCreateBucket b => create_bucket b;;; ret Acked
  | RDeleteBucket b => delete_bucket b;;; ret Acked
  | RBucketExists b => found <- bucket_exists b;; ret (Found found)
  | RListBuckets => out <- list_buckets;; ret (Names (bi_name <$> out))
  | RPutObject b k body opts => info <- put_object b k body opts;; ret (Info info)
  | RGetObject b k range =>
      r <- get_object b k range;;
      let '(info, offset, len, stream) := r in
      body <- lift (map_err from_io (collect stream));;
      ret (Object info offset len body)
  | RHeadObject b k => info <- head_object b k;; ret (Info info)
  | RDeleteObject b k => delete_object b k;;; ret Acked
  | RListObjects b p => r <- list_objects_v2 b p;; ret (Page r)
  end.

(** The bucket a request needs. *)
Definition bucket_of (r : request) : option str :=
  match r with
  | RCreateBucket _ | RBucketExists _ | RListBuckets => None
  | RDeleteBucket b => Some b
  | RPutObject b _ _ _ | RGetObject b _ _ | RHeadObject b _ | RDeleteObject b _ | RListObjects b _ => Some b
  end.

Definition named (r : request) : option str :=
  match r with
  | RCreateBucket b | RBucketExists b => Some b
  | _ => bucket_of r
  end.

(** The keys of a bucket in order. *)
Definition keys_of (objs : objects) (keys : list str) : Prop :=
  keys_ok keys ∧ ∀ k, k ∈ keys ↔ is_Some (objs !! k).

(** The object a request is about. *)
Definition key_of (r : request) : option (str * str) :=
  match r with
  | RPutObject b k _ _ | RGetObject b k _ | RHeadObject b k | RDeleteObject b k => Some (b, k)
  | _ => None
  end.

(** The upload a request carries arrives. *)
Definition body_whole (r : request) : Prop :=
  match r with
  | RPutObject _ _ body _ => ∃ data, collect body = Ok data
  | _ => True
  end.

Section spec.
Context {E : Env} {D : DataDir}.
Context {HS : HashCrates} {MD : Md5Crate}.

(** One request on the abstract store. *)
Inductive spec (A : astore) : request → result reply EngineError → astore → Prop :=
  | spec_bad_name r b : named r = Some b → is_valid_bucket_name b = false →
      spec A r (Err InvalidBucketName) A
  | spec_no_bucket r b : bucket_of r = Some b → A !! b = None → spec A r (Err NoSuchBucket) A
  | spec_too_long r b k : key_of r = Some (b, k) → is_Some (A !! b) → long_key b k → body_whole r →
      spec A r (Err KeyTooLong) A
  | spec_create b : is_valid_bucket_name b = true → A !! b = None →
      spec A (RCreateBucket b) (Ok Acked) (<[b := ∅]> A)
  | spec_create_taken b : is_Some (A !! b) → spec A (RCreateBucket b) (Err BucketAlreadyExists) A
  | spec_delete b : A !! b = Some ∅ → spec A (RDeleteBucket b) (Ok Acked) (delete b A)
  | spec_delete_refused b objs : A !! b = Some objs → objs ≠ ∅ → spec A (RDeleteBucket b) (Err BucketNotEmpty) A
  | spec_exists b : is_valid_bucket_name b = true →
      spec A (RBucketExists b) (Ok (Found (bool_decide (is_Some (A !! b))))) A
  | spec_list_buckets names : StronglySorted str_lt names → (∀ b, b ∈ names ↔ is_Some (A !! b)) →
      spec A RListBuckets (Ok (Names names)) A
  | spec_put b k body opts objs data ns : A !! b = Some objs → short_key b k → collect body = Ok data →
      let entry := entry_for opts data (epoch_ms ns) in
      spec A (RPutObject b k body opts) (Ok (Info (object_info k entry)))
        (<[b := <[k := (entry, data)]> objs]> A)
  | spec_put_cut b k body opts objs err : A !! b = Some objs → collect body = Err err →
      spec A (RPutObject b k body opts) (Err (from_io err)) A
  | spec_get b k range objs entry data offset len : A !! b = Some objs → objs !! k = Some (entry, data) →
      resolve_range range (size entry) = Ok (offset, len) →
      spec A (RGetObject b k range)
        (Ok (Object (object_info k entry) offset len (take (N.to_nat len) (drop (N.to_nat offset) data)))) A
  | spec_get_range b k range objs entry data : A !! b = Some objs → objs !! k = Some (entry, data) →
      resolve_range range (size entry) = Err InvalidRange →
      spec A (RGetObject b k range) (Err InvalidRange) A
  | spec_get_missing b k range objs : A !! b = Some objs → short_key b k → objs !! k = None →
      spec A (RGetObject b k range) (Err NoSuchKey) A
  | spec_head b k objs entry data : A !! b = Some objs → objs !! k = Some (entry, data) →
      spec A (RHeadObject b k) (Ok (Info (object_info k entry))) A
  | spec_head_missing b k objs : A !! b = Some objs → short_key b k → objs !! k = None →
      spec A (RHeadObject b k) (Err NoSuchKey) A
  | spec_delete_object b k objs : A !! b = Some objs → short_key b k →
      spec A (RDeleteObject b k) (Ok Acked) (<[b := delete k objs]> A)
  | spec_list b p objs keys : A !! b = Some objs → keys_of objs keys →
      spec A (RListObjects b p)
        (Ok (Page (if (lp_max_keys p =? 0)%N then empty_list_result
                   else page (λ k, fst <$> objs !! k) keys p))) A.
End spec.

(** ** What a data directory represents *)

Section represents.
Context {E : Env} {D : DataDir} `{!EnvOk E}.
Context {HS : HashCrates} {MD : Md5Crate} {RD : Reads}.
Context `{!Serde VersionManifest, !Serde BucketMeta, !Serde DiskFormat}.
Context `{!HashCratesLaws HS, !Md5Laws MD, !SerdeLaws VersionManifest valid_manifest}.
Context `{!SerdeLaws BucketMeta valid_bucket_meta}.

(** Below [objects/] of a bucket there are the two files of each of its keys, the
    directories on the way to them, and nothing else. *)
Definition clean (A : astore) (m : tree) : Prop :=
  ∀ b objs q x, A !! b = Some objs → q ≠ [] → m !! (objects_path b ++ q) = Some x →
    ∃ k, is_Some (objs !! k) ∧
      match x with
      | NDir => q `prefix_of` key_names k
      | NFile _ _ => q = key_names k ++ [META_FILE] ∨ q = key_names k ++ [data_file_name NULL_VERSION_ID]
      end.

Record represents (A : astore) (m : tree) : Prop := {
  rp_ok : store_ok m;
  rp_buckets b : is_Some (A !! b) ↔ is_valid_bucket_name b = true ∧ bucket_at m b;
  rp_objects b objs k : A !! b = Some objs → utf8 k → objs !! k = object_at m b k;
  rp_keys b objs k : A !! b = Some objs → is_Some (objs !! k) → utf8 k;
  rp_sizes b objs k e data : A !! b = Some objs → objs !! k = Some (e, data) →
    size e = N.of_nat (length data) ∧ u64 (size e);
  rp_whole b k : is_valid_bucket_name b = true → bucket_at m b → utf8 k →
    is_Some (file_at m (meta_path b k)) → is_Some (object_at m b k);
  rp_stray b data s : is_valid_bucket_name b = true → m !! bucket_path b ≠ Some (NFile data s);
  rp_clean : clean A m;
}.

Lemma rp_bucket A m b : represents A m → is_valid_bucket_name b = true → bucket_at m b →
  ∃ objs, A !! b = Some objs.
Proof. intros Hr Hb Hbkt. by apply (rp_buckets _ _ Hr). Qed.

Lemma rp_no_bucket A m b : represents A m → ¬ bucket_at m b → A !! b = None.
Proof.
  intros Hr Hn. apply eq_None_not_Some. intros Hs%(rp_buckets _ _ Hr). by destruct Hs.
Qed.

(** The key has a version if and only if it has an object. *)
Lemma rp_entry A m b objs k : represents A m → A !! b = Some objs → utf8 k →
  entry_at m b k = fst <$> objs !! k.
Proof.
  intros Hr Hb Hk. rewrite (rp_objects _ _ Hr b objs k) by done.
  assert (is_valid_bucket_name b = true ∧ bucket_at m b) as [Hv Hbkt] by (apply (rp_buckets _ _ Hr); eauto).
  destruct (entry_at m b k) as [e|] eqn:He.
  - destruct (rp_whole _ _ Hr b k) as [[e' data] Ho]; [done..| |].
    + unfold entry_at in He. destruct (file_at m (meta_path b k)); [by eexists|done].
    + rewrite Ho. rewrite (object_at_entry _ _ _ _ He) in Ho.
      destruct (file_at m _); [|done]. by injection Ho as <- <-.
  - unfold object_at. by rewrite He.
Qed.

(** Reading requests find nothing in the way. *)
Lemma rp_not_blocked A m b k n : represents A m → bucket_at m b → utf8 k → short_key b k →
  nameable (object_path b k ++ [n]) → reserved n = true → ¬ blocked m (object_path b k ++ [n]).
Proof.
  intros Hr Hb Hk Hs Hl Hn. apply creatable_not_blocked; [|done|].
  - apply object_dir_free; [apply Hr|done..].
  - apply own_not_dir; [|done..]. by apply so_trees, Hb; apply Hr.
Qed.

(** ** The changes *)

(** Only the object [(b, k)] may be different. *)
Record only_object (b k : str) (m m' : tree) : Prop := {
  oo_ok : store_ok m';
  oo_buckets b' : bucket_at m' b' ↔ bucket_at m b';
  oo_objects b' k' : utf8 k' → (b', k') ≠ (b, k) → object_at m' b' k' = object_at m b' k';
  oo_meta b' k' : utf8 k' → (b', k') ≠ (b, k) →
    file_at m' (meta_path b' k') = file_at m (meta_path b' k');
  oo_stray b' data s : m' !! bucket_path b' = Some (NFile data s) → m !! bucket_path b' = Some (NFile data s);
}.

(** Setting or clearing one object. *)
Lemma represents_object A b k objs (v : option (VersionEntry * str)) m m' :
  represents A m → A !! b = Some objs → utf8 k → only_object b k m m' →
  object_at m' b k = v →
  (∀ e data, v = Some (e, data) → size e = N.of_nat (length data) ∧ u64 (size e)) →
  (is_Some (file_at m' (meta_path b k)) → is_Some v) →
  clean (<[b := partial_alter (λ _, v) k objs]> A) m' →
  represents (<[b := partial_alter (λ _, v) k objs]> A) m'.
Proof.
  intros Hr Hb Hk Hoo Hv Hsz Hw Hcl.
  assert (is_valid_bucket_name b = true ∧ bucket_at m b) as [Hvb Hbkt] by (apply (rp_buckets _ _ Hr); eauto).
  split.
  - apply Hoo.
  - intros b'. rewrite (oo_buckets _ _ _ _ Hoo). rewrite <- (rp_buckets _ _ Hr).
    destruct (decide (b = b')) as [<-|?]; [rewrite lookup_insert_eq|by rewrite lookup_insert_ne].
    rewrite Hb. split; eauto.
  - intros b' objs' k' Hb' Hk'. destruct (decide (b = b')) as [<-|Hne].
    + rewrite lookup_insert_eq in Hb'. injection Hb' as <-. destruct (decide (k = k')) as [<-|Hnk].
      * by rewrite lookup_partial_alter_eq.
      * rewrite lookup_partial_alter_ne by done. rewrite (oo_objects _ _ _ _ Hoo) by (done || congruence).
        by apply (rp_objects _ _ Hr).
    + rewrite lookup_insert_ne in Hb' by done. rewrite (oo_objects _ _ _ _ Hoo) by (done || congruence).
      by apply (rp_objects _ _ Hr).
  - intros b' objs' k' Hb' Hs. destruct (decide (b = b')) as [<-|Hne].
    + rewrite lookup_insert_eq in Hb'. injection Hb' as <-. destruct (decide (k = k')) as [<-|Hnk]; [done|].
      rewrite lookup_partial_alter_ne in Hs by done. by eapply (rp_keys _ _ Hr).
    + rewrite lookup_insert_ne in Hb' by done. by eapply (rp_keys _ _ Hr).
  - intros b' objs' k' e data Hb' Hs. destruct (decide (b = b')) as [<-|Hne].
    + rewrite lookup_insert_eq in Hb'. injection Hb' as <-. destruct (decide (k = k')) as [<-|Hnk].
      * rewrite lookup_partial_alter_eq in Hs. auto.
      * rewrite lookup_partial_alter_ne in Hs by done. by eapply (rp_sizes _ _ Hr).
    + rewrite lookup_insert_ne in Hb' by done. by eapply (rp_sizes _ _ Hr).
  - intros b' k' Hvb' Hb' Hk' Hf. rewrite (oo_buckets _ _ _ _ Hoo) in Hb'.
    destruct (decide ((b', k') = (b, k))) as [[= -> ->]|Hne]; [rewrite Hv; auto|].
    rewrite (oo_meta _ _ _ _ Hoo) in Hf by done. rewrite (oo_objects _ _ _ _ Hoo) by done.
    by apply (rp_whole _ _ Hr).
  - intros b' data s Hvb' Hx%(oo_stray _ _ _ _ Hoo). by eapply (rp_stray _ _ Hr).
  - done.
Qed.

(** ** What is below [objects/] *)

Lemma meta_in_tree b k b' q : objects_path b' ++ q = meta_path b k → b' = b ∧ q = key_names k ++ [META_FILE].
Proof. rewrite meta_path_eq. apply objects_path_inj. Qed.

Lemma data_in_tree b k id b' q :
  objects_path b' ++ q = data_path b k id → b' = b ∧ q = key_names k ++ [data_file_name id].
Proof. rewrite data_path_eq. apply objects_path_inj. Qed.

(** An upload adds the files of its key and directories on the way to them. *)
Lemma clean_put A b k objs v d d' :
  clean A (vol d) → A !! b = Some objs → put_effect b k d d' →
  clean (<[b := <[k := v]> objs]> A) (vol d').
Proof.
  intros Hcl Hb Heff b' objs' q x Hb' Hq Hx. pose proof (pe_grows _ _ _ _ Heff) as Hg.
  assert (∀ o, A !! b' = Some o → vol d !! (objects_path b' ++ q) = Some x → ∃ k0, is_Some (objs' !! k0) ∧
    match x with
    | NDir => q `prefix_of` key_names k0
    | NFile _ _ => q = key_names k0 ++ [META_FILE] ∨ q = key_names k0 ++ [data_file_name NULL_VERSION_ID]
    end) as Hold.
  { intros o Ho Hx0. destruct (Hcl b' o q x Ho Hq Hx0) as (k0 & Hk0 & Hm). exists k0. split; [|done].
    destruct (decide (b = b')) as [<-|Hne].
    - rewrite lookup_insert_eq in Hb'. injection Hb' as <-. assert (o = objs) as -> by congruence.
      by apply lookup_insert_is_Some'; right.
    - rewrite lookup_insert_ne in Hb' by done. congruence. }
  assert (∃ o, A !! b' = Some o) as [o Ho].
  { destruct (decide (b = b')) as [<-|Hne]; [eauto|]. rewrite lookup_insert_ne in Hb' by done. eauto. }
  assert (b' = b → is_Some (objs' !! k)) as Hnew.
  { intros ->. rewrite lookup_insert_eq in Hb'. injection Hb' as <-. rewrite lookup_insert_eq. by eexists. }
  destruct x as [|data s].
  - apply (gr_new _ _ _ _ Hg) in Hx as [Hx|Hp]; [by eapply Hold|]. unfold object_path in Hp.
    destruct Hp as [t Hp]. rewrite <- app_assoc in Hp. apply objects_path_inj in Hp as [<- Hp].
    exists k. split; [auto|]. by exists t.
  - destruct (decide (objects_path b' ++ q = meta_path b k)) as [[-> ->]%meta_in_tree|Hnm]; [eauto|].
    destruct (decide (objects_path b' ++ q = data_path b k NULL_VERSION_ID)) as [[-> ->]%data_in_tree|Hnd]; [eauto|].
    destruct (gr_same _ _ _ _ Hg (objects_path b' ++ q)) as [Hsame|[_ ?]]; [| |congruence].
    + intros [[?|?]|Hc]; [done..|]. by rewrite tree_not_tmp in Hc.
    + rewrite Hsame in Hx. by eapply Hold.
Qed.

Lemma not_empty_child (m : tree) p : children m p ≠ [] → ∃ n x, m !! (p ++ [n]) = Some x.
Proof.
  intros Hc. destruct (children m p) as [|n l] eqn:Hl; [done|]. exists n.
  assert (n ∈ children m p) as Hin by (rewrite Hl; left). by apply elem_of_children in Hin as [x ?]; exists x.
Qed.

(** A deletion takes the files of its key, and every directory that only led to
    them. *)
Lemma clean_delete A b k objs d d' :
  clean A (vol d) → A !! b = Some objs → deleted b k d d' → (¬ ∃ e, injected e) →
  (is_Some (objs !! k) → is_Some (vol d !! meta_path b k)) →
  clean (<[b := delete k objs]> A) (vol d').
Proof.
  intros Hcl Hb Hdel Hni Hmeta b' objs' q x Hb' Hq Hx. pose proof (de_shrinks _ _ _ _ Hdel) as Hs.
  destruct (decide (b = b')) as [<-|Hne].
  2: { rewrite lookup_insert_ne in Hb' by done. by eapply Hcl, (sh_sub _ _ _ _ Hs). }
  rewrite lookup_insert_eq in Hb'. injection Hb' as <-.
  assert (∀ j q x, S (length (key_names k)) - length q ≤ j → q ≠ [] → vol d' !! (objects_path b ++ q) = Some x →
    ∃ k0, is_Some (delete k objs !! k0) ∧
      match x with
      | NDir => q `prefix_of` key_names k0
      | NFile _ _ => q = key_names k0 ++ [META_FILE] ∨ q = key_names k0 ++ [data_file_name NULL_VERSION_ID]
      end) as Hind; [|by eapply Hind].
  clear q x Hq Hx. intros j. induction j as [|j IH]; intros q x Hj Hq Hx;
    destruct (Hcl b objs q x Hb Hq (sh_sub _ _ _ _ Hs _ _ Hx)) as (k0 & Hk0 & Hm);
    (destruct (decide (k0 = k)) as [->|Hne]; [|exists k0; by rewrite lookup_delete_ne]).
  all: destruct x as [|data s]; [|destruct Hm as [-> | ->]; rewrite <- ?meta_path_eq, <- ?data_path_eq in Hx;
    by rewrite ?(de_meta _ _ _ _ Hdel), ?(de_data _ _ _ _ Hdel) in Hx].
  all: pose proof (prefix_length _ _ Hm) as Hlen.
  { lia. }
  destruct (de_pruned _ _ _ _ Hdel Hni) as [Hsame|Hem].
  { destruct (Hmeta Hk0) as [y Hy]. rewrite <- Hsame, (de_meta _ _ _ _ Hdel) in Hy. done. }
  destruct (not_empty_child _ _ (Hem q Hq Hm Hx)) as (n & y & Hy). rewrite <- app_assoc in Hy.
  destruct (IH (q ++ [n]) y) as (k1 & Hk1 & Hm1); [rewrite length_app; cbn; lia|by intros [_ ?]%app_eq_nil|done|].
  exists k1. split; [done|]. destruct y as [|data s].
  - etrans; [|exact Hm1]. by apply prefix_app_r.
  - by destruct Hm1 as [[-> _]%app_inj_tail|[-> _]%app_inj_tail].
Qed.


Lemma own_file_bucket b k b' : ¬ own_file b k (bucket_path b').
Proof.
  intros [[n Heq]|Hc]%own_file_child.
  - apply (f_equal length) in Heq. unfold object_path, objects_path, bucket_path in Heq.
    rewrite !length_app in Heq. cbn in Heq. lia.
  - unfold bucket_path in Hc. by rewrite below_buckets_not_tmp in Hc.
Qed.

Lemma put_only_object b k d d' : utf8 k → bucket_at (vol d) b → put_effect b k d d' →
  store_ok (vol d') → only_object b k (vol d) (vol d').
Proof.
  intros Hk Hb Heff Hok. split; [done| | | |].
  - intros b'. by eapply put_effect_buckets.
  - apply object_at_frame; [done|]. intros q Hq. eapply gr_files; [apply Heff|done].
  - intros b' k' Hk' Hne. eapply gr_files; [apply Heff|]. by apply own_file_other.
  - intros b' data s Hx. destruct (gr_same _ _ _ _ (pe_grows _ _ _ _ Heff) (bucket_path b')) as [<-|[_ ?]];
      [apply own_file_bucket|done|congruence].
Qed.

Lemma delete_only_object b k m m' : utf8 k → store_ok m → shrinks b k m m' → only_object b k m m'.
Proof.
  intros Hk Hok Hs. split; [by eapply shrinks_ok| | | |].
  - intros b'. by eapply shrinks_buckets.
  - apply object_at_frame; [done|]. intros q Hq. by eapply shrinks_files.
  - intros b' k' Hk' Hne. eapply shrinks_files; [done|]. by apply own_file_other.
  - intros b' data s. by apply (sh_sub _ _ _ _ Hs).
Qed.

(** The bucket [b] may have come or gone; no object is different. *)
Record only_bucket (b : str) (m m' : tree) : Prop := {
  ob_ok : store_ok m';
  ob_buckets b' : b' ≠ b → bucket_at m' b' ↔ bucket_at m b';
  ob_objects b' k : object_at m' b' k = object_at m b' k;
  ob_meta b' k : b' ≠ b → file_at m' (meta_path b' k) = file_at m (meta_path b' k);
  ob_empty k : file_at m' (meta_path b k) = None;
  ob_stray b' data s : m' !! bucket_path b' = Some (NFile data s) → m !! bucket_path b' = Some (NFile data s);
}.

Lemma bucket_effect_meta b b' k m m' : bucket_effect b m m' → b' ≠ b →
  file_at m' (meta_path b' k) = file_at m (meta_path b' k).
Proof.
  intros Heff Hne. unfold file_at, meta_path. rewrite (be_out _ _ _ Heff); [done| |];
    rewrite object_file_in_bucket; unfold bucket_path; rewrite <- app_assoc.
  - by intros ->%prefix_app_inv%prefix_cons_inv_1.
  - apply below_buckets_not_tmp.
Qed.

Lemma empty_no_meta b k m : wf m → (∀ n, m !! (objects_path b ++ [n]) = None) → file_at m (meta_path b k) = None.
Proof.
  intros Hwf Hno. unfold file_at. rewrite meta_path_eq.
  destruct (key_names k ++ [META_FILE]) as [|x ns] eqn:Hx; [by apply app_eq_nil in Hx as [_ ?]|].
  destruct ns as [|y ns]; [by rewrite Hno|].
  rewrite cons_middle, app_assoc, (wf_no_child_below m (objects_path b ++ [x])); [done|done|by rewrite Hno].
Qed.

Lemma bucket_made_only b d d' : store_ok (vol d) → bucket_made b d d' → bucket_at (vol d') b →
  only_bucket b (vol d) (vol d').
Proof.
  intros Hok Hm Hb. pose proof (lay_wf _ (so_layout _ Hok)) as Hwf.
  pose proof (bucket_made_ok b d d' Hok Hm) as Hok'. destruct Hm as [_ Ha He Hn].
  pose proof (be_wf _ _ _ He) as Hwf'.
  split; [done| | | | |].
  - intros b' Hne. by eapply bucket_effect_buckets.
  - eapply bucket_effect_objects; [done..| |]; intros n; apply no_objects_empty; try done. by apply absent_objects.
  - intros b' k. by eapply bucket_effect_meta.
  - intros k. apply empty_no_meta; [done|]. intros n. by apply no_objects_empty.
  - intros b' data s. destruct (decide (b' = b)) as [->|Hne]; [unfold bucket_at in Hb; congruence|].
    rewrite (be_out _ _ _ He); [done|by intros ->%bucket_path_prefix|apply below_buckets_not_tmp].
Qed.

Lemma bucket_leaving_only b m m' : store_ok m → bucket_leaving b m m' → m' = m ∨ only_bucket b m m'.
Proof.
  intros Hok Hl. pose proof (bucket_leaving_ok b m m' Hok Hl) as Hok'.
  destruct Hl as [?|[Hn Hp]]; [by left|right]. pose proof (pruned_effect _ _ _ Hp) as He.
  assert (∀ q x, m' !! q = Some x → m !! q = Some x) as Hsub.
  { intros q x Hx. destruct (pr_in _ _ _ Hp q) as [<-|?]; [done|congruence]. }
  assert (∀ n, m' !! (objects_path b ++ [n]) = None) as Hn'.
  { intros n. destruct (pr_in _ _ _ Hp (objects_path b ++ [n])) as [->|?]; done. }
  split; [done| | | | |].
  - intros b' Hne. by eapply bucket_effect_buckets.
  - eapply bucket_effect_objects; [apply Hok|done..].
  - intros b' k. by eapply bucket_effect_meta.
  - intros k. apply empty_no_meta; [apply Hp|done].
  - intros b' data s. apply Hsub.
Qed.

(** A bucket came or went, and the others are the same. *)
Lemma clean_bucket A b v m m' :
  clean A m → bucket_effect b m m' →
  (∀ objs q x, v = Some objs → q ≠ [] → m' !! (objects_path b ++ q) = Some x → False) →
  clean (partial_alter (λ _, v) b A) m'.
Proof.
  intros Hcl Heff Hnone b' objs q x Hb' Hq Hx. destruct (decide (b = b')) as [<-|Hne].
  - rewrite lookup_partial_alter_eq in Hb'. by exfalso; eapply Hnone.
  - rewrite lookup_partial_alter_ne in Hb' by done. eapply Hcl; [done..|]. rewrite <- Hx. symmetry.
    apply (be_out _ _ _ Heff); [|apply tree_not_tmp]. unfold objects_path. rewrite <- app_assoc.
    unfold bucket_path. rewrite <- app_assoc. intros Hp%prefix_app_inv%prefix_cons_inv_1. congruence.
Qed.

(** A bucket without objects came or went. *)
Lemma represents_bucket (A : astore) (b : str) (v : option objects) (m m' : tree) :
  represents A m → only_bucket b m m' → (∀ k, object_at m b k = None) →
  (is_Some v ↔ is_valid_bucket_name b = true ∧ bucket_at m' b) → default ∅ v = ∅ →
  clean (partial_alter (λ _, v) b A) m' →
  represents (partial_alter (λ _, v) b A) m'.
Proof.
  intros Hr Hob Hno Hv Hd Hcl.
  assert (∀ b' objs, partial_alter (λ _, v) b A !! b' = Some objs →
    b' = b ∧ objs = ∅ ∨ b' ≠ b ∧ A !! b' = Some objs) as Hcase.
  { intros b' objs Hb'. destruct (decide (b = b')) as [<-|Hne].
    - rewrite lookup_partial_alter_eq in Hb'. subst v. by left.
    - rewrite lookup_partial_alter_ne in Hb' by done. by right. }
  split.
  - apply Hob.
  - intros b'. destruct (decide (b = b')) as [<-|Hne]; [by rewrite lookup_partial_alter_eq|].
    rewrite lookup_partial_alter_ne, (ob_buckets _ _ _ Hob) by done. apply (rp_buckets _ _ Hr).
  - intros b' objs k Hb' Hk. rewrite (ob_objects _ _ _ Hob).
    destruct (Hcase _ _ Hb') as [[-> ->]|[_ ?]]; [by rewrite Hno, lookup_empty|by apply (rp_objects _ _ Hr)].
  - intros b' objs k Hb' Hs. destruct (Hcase _ _ Hb') as [[-> ->]|[_ ?]]; [by destruct Hs|by eapply (rp_keys _ _ Hr)].
  - intros b' objs k e data Hb' Hs. destruct (Hcase _ _ Hb') as [[-> ->]|[_ ?]]; [done|by eapply (rp_sizes _ _ Hr)].
  - intros b' k Hvb Hb' Hk Hf. destruct (decide (b' = b)) as [->|Hne].
    + rewrite (ob_empty _ _ _ Hob) in Hf. by destruct Hf.
    + rewrite (ob_meta _ _ _ Hob) in Hf by done. rewrite (ob_objects _ _ _ Hob).
      apply (rp_whole _ _ Hr); try done. by apply (ob_buckets _ _ _ Hob).
  - intros b' data s Hvb Hx%(ob_stray _ _ _ Hob). by eapply (rp_stray _ _ Hr).
  - done.
Qed.
End represents.

(** ** Every request is simulated *)

Section simulation.
Context {E : Env} {D : DataDir} `{!EnvOk E, !NoFaults E}.
Context {HS : HashCrates} {MD : Md5Crate} {RD : Reads}.
Context `{!Serde VersionManifest, !Serde BucketMeta, !Serde DiskFormat}.
Context `{!HashCratesLaws HS, !Md5Laws MD, !SerdeLaws VersionManifest valid_manifest}.
Context `{!SerdeLaws BucketMeta valid_bucket_meta}.
Hypothesis reads_fine : ∀ i err, reads i ≠ ReadFails err.

(** The path of the key fits the file system down to its files, or not even the
    directory's does.  In between, where one name is too long or only the last
    one is one too many, the answer depends on the directories that are there. *)
Definition fitting (b k : str) : Prop := short_key b k ∨ long_key b k.

(** The request is one the engine is meant for: its strings are Rust strings, the
    body of an upload fits a [u64], and the random names a write draws are free. *)
Definition ready (r : request) (m : tree) : Prop :=
  request_strings r
  ∧ match r with
    | RPutObject b k body _ =>
        fitting b k ∧ fresh_names tmp_path m
        ∧ ∀ data, collect body = Ok data → u64 (N.of_nat (length data))
    | RCreateBucket _ => fresh_names tmp_path m
    | RGetObject b k _ | RHeadObject b k | RDeleteObject b k => fitting b k
    | _ => True
    end.

(** The outcome is one of the abstract store. *)
Definition simulated (A : astore) (r : request) (res : result reply EngineError) (d : disk) : Prop :=
  ∃ A', spec A r res A' ∧ represents A' (vol d).

Definition simulates (A : astore) (r : request) (d : disk) : Prop :=
  wp (@answer (fs_engine_layer engine) r)
    (λ a, simulated A r (Ok a)) (λ e, simulated A r (Err e)) (λ _, True) d.

Lemma simulated_same A r res d : spec A r res A → represents A (vol d) → simulated A r res d.
Proof. intros Hs Hr. by exists A. Qed.

Lemma bucket_at_dec m b : bucket_at m b ∨ ¬ bucket_at m b.
Proof. unfold bucket_at. destruct (decide (m !! bucket_path b = Some NDir)); auto. Qed.

Lemma no_fault : ¬ ∃ e, injected e.
Proof. intros [e He]. by apply no_injected in He. Qed.

Lemma wp_create_reply b A d :
  represents A (vol d) → ready (RCreateBucket b) (vol d) → simulates A (RCreateBucket b) d.
Proof.
  intros Hr [_ Hfresh]. apply wp_bind. eapply wp_mono; [apply wp_create_bucket, Hr| | |done].
  - intros u d' (Hb & Hm & Hbkt & _). apply wp_ret.
    pose proof (bucket_made_only b d d' (rp_ok _ _ Hr) Hm Hbkt) as Hob.
    pose proof (bm_absent _ _ _ Hm) as Hab. exists (<[b := ∅]> A). split.
    + constructor; [done|]. apply (rp_no_bucket _ _ _ Hr). unfold bucket_at. by rewrite Hab.
    + apply (represents_bucket A b (Some ∅) (vol d)); [done..| | |done|].
      * intros k. apply no_objects; [apply Hr|]. intros n.
        pose proof (lay_wf _ (so_layout _ (rp_ok _ _ Hr))). apply no_objects_empty; [done|by apply absent_objects].
      * split; [done|eauto].
      * apply (clean_bucket A b (Some ∅) (vol d)); [apply Hr|apply Hm|]. intros objs [|n q] x _ Hq Hx; [done|].
        rewrite wf_no_child_below in Hx; [done|by eapply be_wf, bm_effect|by rewrite (bm_objects _ _ _ Hm)].
  - intros e d' [Hf Hd]. destruct Hf as [Hn|Hv Hex|err Hf].
    + destruct Hd as [->|Hm]; [|by rewrite (bm_valid _ _ _ Hm) in Hn].
      apply simulated_same; [|done]. by apply (spec_bad_name A _ b).
    + destruct Hd as [->|Hm]; [|rewrite (bm_absent _ _ _ Hm) in Hex; by destruct Hex].
      apply simulated_same; [|done]. constructor. apply (rp_buckets _ _ Hr). split; [done|].
      destruct Hex as [[|data s] Hx]; [done|]. by apply (rp_stray _ _ Hr) in Hx.
    + exfalso. by apply no_fault, Hf.
Qed.

Lemma rp_no_stray A m b : represents A m → is_valid_bucket_name b = true → is_file m (bucket_path b) = false.
Proof.
  intros Hr Hv. unfold is_file. destruct (m !! bucket_path b) as [[|data s]|] eqn:Hx; [done| |done].
  by apply (rp_stray _ _ Hr) in Hx.
Qed.

Lemma rp_objects_dir A m b : represents A m → is_file m (objects_path b) = false.
Proof.
  intros Hr. unfold is_file. destruct (m !! objects_path b) as [[|data s]|] eqn:Hx; [done| |done].
  assert (bucket_at m b) as Hb.
  { eapply (wf_parent m); [apply Hr|]. unfold objects_path in Hx. eauto. }
  by apply (bt_objects _ _ (so_trees _ (rp_ok _ _ Hr) b Hb)) in Hx.
Qed.

Lemma wp_delete_reply b A d :
  represents A (vol d) → simulates A (RDeleteBucket b) d.
Proof.
  intros Hr. pose proof (lay_wf _ (so_layout _ (rp_ok _ _ Hr))) as Hwf.
  apply wp_bind. eapply wp_mono; [apply wp_delete_bucket, Hr| | |done].
  - intros u d' (Hv & Hb & Hl & Hgone & _). apply wp_ret.
    destruct (rp_bucket _ _ b Hr Hv Hb) as [objs Hobjs].
    assert (∀ n, vol d !! (objects_path b ++ [n]) = None) as Hn.
    { destruct Hl as [Heq|[Hn _]]; [|done]. unfold bucket_at in Hb. congruence. }
    assert (objs = ∅) as ->.
    { apply map_empty. intros k. destruct (objs !! k) as [o|] eqn:Ho; [|done].
      rewrite (rp_objects _ _ Hr b objs k) in Ho; [|done|by eapply (rp_keys _ _ Hr)].
      by rewrite (no_objects b k) in Ho. }
    exists (delete b A). split; [by constructor|].
    destruct (bucket_leaving_only b _ _ (rp_ok _ _ Hr) Hl) as [Heq|Hob].
    { unfold bucket_at in Hb. congruence. }
    apply (represents_bucket A b None (vol d)); [done..| | |done|].
    + intros k. by apply no_objects.
    + split; [by intros []|]. unfold bucket_at. rewrite Hgone. by intros [_ ?].
    + apply (clean_bucket A b None (vol d)); [apply Hr| |done].
      destruct Hl as [Heq|[_ Hp]]; [unfold bucket_at in Hb; congruence|by apply pruned_effect].
  - intros e d' (Hf & _ & Heq). assert (vol d' = vol d) as Hv by (destruct Heq; [done|by destruct no_fault]).
    apply simulated_same; [|by rewrite Hv]. destruct Hf as [Hn|Hn|n Hvb Hn|err Hvb Hf].
    + by apply (spec_bad_name A _ b).
    + apply (spec_no_bucket A _ b); [done|]. by apply (rp_no_bucket _ _ _ Hr).
    + destruct (rp_bucket _ _ b Hr Hvb) as [objs Hobjs].
      { unfold bucket_at. eapply (wf_prefix _ _ [OBJECTS_DIR; n]); [done|done|].
        unfold objects_path in Hn. by rewrite <- app_assoc in Hn. }
      destruct Hn as [x Hx]. destruct (rp_clean _ _ Hr b objs [n] x Hobjs) as (k & [o Ho] & _); [done..|].
      eapply spec_delete_refused; [done|]. intros ->. done.
    + exfalso. by apply no_fault, Hf; [apply (rp_no_stray A)|apply (rp_objects_dir A)].
Qed.

(** An upload that was refused changed nothing. *)
Lemma only_staged_clean A m m' : only_staged m m' → clean A m → clean A m'.
Proof. intros Hs Hcl b objs q x Hb Hq Hx. rewrite Hs in Hx by apply tree_not_tmp. by eapply Hcl. Qed.

Lemma represents_refused A m m' : represents A m → only_staged m m' → store_ok m' → represents A m'.
Proof.
  intros Hr Hs Hok.
  assert (∀ b, m' !! bucket_path b = m !! bucket_path b) as Hbkt by (intros b'; apply Hs, below_buckets_not_tmp).
  assert (∀ b k n, file_at m' (object_path b k ++ [n]) = file_at m (object_path b k ++ [n])) as Hf.
  { intros b' k' n. unfold file_at, object_path. rewrite <- app_assoc, Hs by apply tree_not_tmp. done. }
  assert (∀ b k, object_at m' b k = object_at m b k) as Hobj by (intros b' k'; by apply object_at_ext).
  destruct Hr as [_ Hbk Ho Hks Hsz Hw Hst Hcl]. split; [done|..].
  - intros b'. unfold bucket_at. rewrite Hbkt. apply Hbk.
  - intros b' objs k'. rewrite Hobj. apply Ho.
  - done.
  - done.
  - intros b' k'. unfold bucket_at, meta_path. rewrite Hbkt, Hf, Hobj. apply Hw.
  - intros b' data s. rewrite Hbkt. apply Hst.
  - by eapply only_staged_clean.
Qed.

(** An upload that breaks off, or to a key with too long a path. *)
Lemma wp_put_refused_reply b k body opts A d :
  represents A (vol d) → ready (RPutObject b k body opts) (vol d) →
  is_valid_bucket_name b = true → bucket_at (vol d) b →
  (∃ err, collect body = Err err) ∨ long_key b k → simulates A (RPutObject b k body opts) d.
Proof.
  intros Hr [[Hk Hopts] (_ & Hfresh & _)] Hv Hb Hcase. pose proof (so_layout _ (rp_ok _ _ Hr)) as Hlay.
  destruct (rp_bucket _ _ b Hr Hv Hb) as [objs Hobjs].
  apply wp_bind. eapply wp_mono; [apply (wp_and _ _ _ _ _ _ _ _ (wp_put_refused b k body opts d Hk Hlay Hv Hb Hfresh Hcase)
    (wp_put_ok b k body opts d Hk Hopts (rp_ok _ _ Hr)))| | |done].
  - by intros info d' [? _].
  - intros e d' [[Hs [?|He]] Hok]; [by destruct no_fault|].
    apply simulated_same; [|by eapply represents_refused].
    destruct (collect body) as [data|err] eqn:Hc; subst e.
    + destruct Hcase as [[err ?]|Hl]; [done|]. eapply (spec_too_long A _ b k); [done|eauto|done|by exists data].
    + by eapply spec_put_cut.
Qed.

Lemma wp_put_whole_reply b k body opts A d :
  represents A (vol d) → ready (RPutObject b k body opts) (vol d) →
  (is_valid_bucket_name b = true → bucket_at (vol d) b → (∃ data, collect body = Ok data) ∧ short_key b k) →
  simulates A (RPutObject b k body opts) d.
Proof.
  intros Hr [[Hk Hopts] (_ & Hfresh & Hlen)] Hcase. pose proof (so_layout _ (rp_ok _ _ Hr)) as Hlay.
  apply wp_bind. eapply wp_mono; [apply (wp_and _ _ _ _ _ _ _ _
    (wp_and _ _ _ _ _ _ _ _ (wp_put_object b k body opts d Hk Hopts Hlay) (wp_put_bucket b k body opts d Hlay))
    (wp_put_ok b k body opts d Hk Hopts (rp_ok _ _ Hr)))| | |done].
  - intros info d' [[(data & ns & Hc & -> & Hdone) [Hv Hb]] Hok]. apply wp_ret.
    destruct (rp_bucket _ _ b Hr Hv Hb) as [objs Hobjs].
    exists (<[b := <[k := (entry_for opts data (epoch_ms ns), data)]> objs]> A).
    split; [econstructor; [done|by apply Hcase|done]|].
    apply (represents_object A b k objs (Some (entry_for opts data (epoch_ms ns), data)) (vol d)); try done.
    + apply put_only_object; [done..|apply Hdone|done].
    + by eapply put_done_object.
    + intros e data' [= <- <-]. specialize (Hlen data Hc). rewrite entry_for_size by done. done.
    + eapply clean_put; [apply Hr|done|apply Hdone].
  - intros e d' [[[[Heff Ht] Hf] Hb] Hok].
    destruct Hf as [Hn|Hn|err Hvb Hbkt Hc|err Hi|e Hvb Hbkt Hf].
    + destruct Hb as [[? _]| ->]; [congruence|]. apply simulated_same; [|done]. by apply (spec_bad_name A _ b).
    + destruct Hb as [[_ ?]| ->]; [done|]. apply simulated_same; [|done].
      apply (spec_no_bucket A _ b); [done|]. by apply (rp_no_bucket _ _ _ Hr).
    + destruct (Hcase Hvb Hbkt) as [[data ?] _]. congruence.
    + by apply no_injected in Hi.
    + exfalso. apply no_fault, Hf, store_puttable; [apply Hr|done..|by apply Hcase|done].
Qed.

Lemma wp_put_reply b k body opts A d :
  represents A (vol d) → ready (RPutObject b k body opts) (vol d) → simulates A (RPutObject b k body opts) d.
Proof.
  intros Hr Hready. pose proof Hready as [_ (Hfit & _)].
  destruct (decide (is_valid_bucket_name b = true ∧ vol d !! bucket_path b = Some NDir)) as [[Hv Hb]|Hn].
  - destruct (collect body) as [data|err] eqn:Hc; [destruct Hfit as [Hs|Hl]|].
    + apply wp_put_whole_reply; eauto.
    + apply wp_put_refused_reply; auto.
    + apply wp_put_refused_reply; eauto.
  - apply wp_put_whole_reply; [done..|]. intros. by destruct Hn.
Qed.

(** A failed read is one the abstract store explains. *)
Definition explained (A : astore) (b k : str) (e : EngineError) : Prop :=
  e = InvalidBucketName ∧ is_valid_bucket_name b = false
  ∨ e = NoSuchBucket ∧ A !! b = None
  ∨ e = KeyTooLong ∧ is_Some (A !! b) ∧ long_key b k
  ∨ e = NoSuchKey ∧ short_key b k ∧ ∃ objs, A !! b = Some objs ∧ objs !! k = None.

Lemma short_failure_explained A b k m e :
  represents A m → utf8 k → short_key b k → read_failure m b k e → explained A b k e.
Proof.
  intros Hr Hk Hs Hf. pose proof (lay_wf _ (so_layout _ (rp_ok _ _ Hr))) as Hwf. unfold explained.
  destruct Hf as [|Hn|Hv Hb Ho _|err Hi|err Hv Hb Hm|err e Hv Hb He Hw Hkind].
  - auto.
  - right; left. split; [done|]. by apply (rp_no_bucket _ _ _ Hr).
  - right; right; right. split_and!; [done..|]. destruct (rp_bucket _ _ b Hr Hv Hb) as [objs Hobjs].
    exists objs. by rewrite (rp_objects _ _ Hr b objs k).
  - by apply no_injected in Hi.
  - exfalso. apply manifest_error_blocked in Hm as [Hbl|(bytes & Hf & Hp)].
    + eapply (rp_not_blocked A m b k META_FILE); try done. by apply meta_fits.
    + destruct (bt_manifests _ _ (so_trees _ (rp_ok _ _ Hr) b Hb) k bytes Hk Hf). congruence.
  - exfalso. destruct (rp_bucket _ _ b Hr Hv Hb) as [objs Hobjs].
    assert (is_Some (object_at m b k)) as [[e' data] Ho].
    { rewrite <- (rp_objects _ _ Hr b objs k) by done. rewrite (rp_entry _ _ _ _ _ Hr Hobjs Hk) in He.
      destruct (objs !! k); [by eexists|done]. }
    rewrite (object_at_entry _ _ _ _ He) in Ho.
    destruct (file_at m (data_path b k (version_id e))) as [x|] eqn:Hf; [|done].
    eapply file_not_blocked; [done|done|left; eauto].
Qed.

Lemma read_failure_explained A b k m e :
  represents A m → utf8 k → fitting b k → read_failure m b k e → explained A b k e.
Proof.
  intros Hr Hk [Hs|Hl] Hf; [by eapply short_failure_explained|].
  assert (is_valid_bucket_name b = true → bucket_at m b → explained A b k e) as Hlong.
  { intros Hv Hb. right; right; left. split_and!; [|by eapply rp_bucket|done].
    eapply long_read_failure; [apply Hr|done..|by apply long_meta|apply no_fault|done]. }
  unfold explained in *. destruct Hf; auto.
  - right; left. split; [done|]. by apply (rp_no_bucket _ _ _ Hr).
  - by destruct no_fault; eexists.
Qed.

Lemma rp_read A m b k objs entry : represents A m → A !! b = Some objs → utf8 k → entry_at m b k = Some entry →
  ∃ data, objs !! k = Some (entry, data) ∧ file_at m (data_path b k (version_id entry)) = Some data
    ∧ size entry = N.of_nat (length data) ∧ u64 (size entry).
Proof.
  intros Hr Hobjs Hk He. pose proof (rp_entry _ _ _ _ _ Hr Hobjs Hk) as Hent. rewrite He in Hent.
  destruct (objs !! k) as [[e data]|] eqn:Ho; [|done]. injection Hent as ->. exists data. split; [done|].
  split; [|by eapply (rp_sizes _ _ Hr)].
  rewrite (rp_objects _ _ Hr b objs k), (object_at_entry _ _ _ _ He) in Ho by done.
  destruct (file_at m _); [|done]. by injection Ho as <-.
Qed.

Lemma wp_get_reply b k range A d :
  represents A (vol d) → ready (RGetObject b k range) (vol d) → simulates A (RGetObject b k range) d.
Proof.
  intros Hr [Hk Hs]. cbn in Hk, Hs. apply wp_bind.
  eapply wp_mono; [apply wp_get_object; [done|apply Hr]| | |done].
  - intros [[[info offset] len] stream] d' [-> (Hv & Hb & entry & He & -> & Hrange & _ & Hbody)].
    destruct (rp_bucket _ _ b Hr Hv Hb) as [objs Hobjs].
    destruct (rp_read _ _ _ _ _ _ Hr Hobjs Hk He) as (data & Ho & Hf & Hsz & Hu).
    rewrite (Hbody data Hf), collect_span; [|done|by rewrite <- Hsz|].
    + apply wp_bind, wp_lift; [|done]. intros body [= <-]. apply wp_ret, simulated_same; [|done].
      by eapply spec_get.
    + rewrite <- Hsz. by eapply resolve_range_bounds.
  - intros e d' [-> [Hf|(-> & Hv & Hb & entry & He & Hrange)]]; (apply simulated_same; [|done]).
    + destruct (read_failure_explained A b k _ e Hr Hk Hs Hf) as [[-> ?]|[[-> ?]|[(-> & ? & ?)|(-> & ? & objs & ? & ?)]]].
      * by apply (spec_bad_name A _ b).
      * by apply (spec_no_bucket A _ b).
      * by apply (spec_too_long A _ b k).
      * by eapply spec_get_missing.
    + destruct (rp_bucket _ _ b Hr Hv Hb) as [objs Hobjs].
      destruct (rp_read _ _ _ _ _ _ Hr Hobjs Hk He) as (data & Ho & _). by eapply spec_get_range.
Qed.

Lemma wp_head_reply b k A d :
  represents A (vol d) → ready (RHeadObject b k) (vol d) → simulates A (RHeadObject b k) d.
Proof.
  intros Hr [Hk Hs]. cbn in Hk, Hs. apply wp_bind.
  eapply wp_mono; [apply wp_head_object; [done|apply Hr]| | |done].
  - intros info d' (-> & Hv & Hb & entry & He & ->). apply wp_ret, simulated_same; [|done].
    destruct (rp_bucket _ _ b Hr Hv Hb) as [objs Hobjs].
    destruct (rp_read _ _ _ _ _ _ Hr Hobjs Hk He) as (data & Ho & _). by eapply spec_head.
  - intros e d' [-> Hf]. apply simulated_same; [|done].
    destruct (read_failure_explained A b k _ e Hr Hk Hs Hf) as [[-> ?]|[[-> ?]|[(-> & ? & ?)|(-> & ? & objs & ? & ?)]]].
    + by apply (spec_bad_name A _ b).
    + by apply (spec_no_bucket A _ b).
    + by apply (spec_too_long A _ b k).
    + by eapply spec_head_missing.
Qed.

Lemma rp_listed A m b objs k : represents A m → A !! b = Some objs →
  utf8 k ∧ is_Some (m !! meta_path b k) ↔ is_Some (objs !! k).
Proof.
  intros Hr Hobjs. assert (is_valid_bucket_name b = true ∧ bucket_at m b) as [Hv Hb]
    by (apply (rp_buckets _ _ Hr); eauto).
  split.
  - intros [Hk Hm]. destruct (meta_is_file b k m) as (bytes & s & Hf); [by apply so_trees, Hb; apply Hr|done|].
    rewrite (rp_objects _ _ Hr b objs k) by done. apply (rp_whole _ _ Hr); try done.
    exists bytes. apply file_at_Some. eauto.
  - intros Ho. assert (utf8 k) as Hk by by eapply (rp_keys _ _ Hr). split; [done|].
    rewrite (rp_objects _ _ Hr b objs k) in Ho by done. unfold object_at, entry_at, file_at in Ho.
    destruct (m !! meta_path b k); [by eexists|]. by destruct Ho.
Qed.

Lemma wp_remove_short_reply b k A d :
  represents A (vol d) → utf8 k → (is_valid_bucket_name b = true → bucket_at (vol d) b → short_key b k) →
  simulates A (RDeleteObject b k) d.
Proof.
  intros Hr Hk Hs. apply wp_bind.
  eapply wp_mono; [apply wp_delete_object; [done|apply Hr]| | |done].
  - intros u d' [[Hv Hb] Hdel]. apply wp_ret. destruct (rp_bucket _ _ b Hr Hv Hb) as [objs Hobjs].
    exists (<[b := delete k objs]> A). split; [constructor; auto|].
    apply (represents_object A b k objs None (vol d)); try done.
    + apply delete_only_object; [done|apply Hr|apply Hdel].
    + unfold object_at, entry_at, file_at. by rewrite (de_meta _ _ _ _ Hdel).
    + unfold file_at. rewrite (de_meta _ _ _ _ Hdel). by intros [].
    + eapply clean_delete; [apply Hr|done..|apply no_fault|]. intros Ho. by eapply rp_listed.
  - intros e d' (_ & Hf & Hd). destruct Hf as [Hn|Hn|err Hi|e Hv Hb Hf].
    + destruct Hd as [->|[? _]]; [|congruence]. apply simulated_same; [|done]. by apply (spec_bad_name A _ b).
    + destruct Hd as [->|[_ ?]]; [|done]. apply simulated_same; [|done].
      apply (spec_no_bucket A _ b); [done|]. by apply (rp_no_bucket _ _ _ Hr).
    + by apply no_injected in Hi.
    + exfalso. apply no_fault, Hf. pose proof (so_trees _ (rp_ok _ _ Hr) b Hb) as Ht. split_and!.
      * apply object_dir_free; [apply Hr|done..|auto].
      * by apply Hs.
      * by apply own_not_dir.
      * apply own_not_dir; [done..|apply data_name_reserved].
Qed.

Lemma wp_remove_reply b k A d :
  represents A (vol d) → ready (RDeleteObject b k) (vol d) → simulates A (RDeleteObject b k) d.
Proof.
  intros Hr [Hk Hfit]. cbn in Hk, Hfit.
  destruct (decide (is_valid_bucket_name b = true ∧ vol d !! bucket_path b = Some NDir)) as [[Hv Hb]|Hn];
    [destruct Hfit as [Hs|Hl]|]; [by apply wp_remove_short_reply| |].
  - apply wp_bind. eapply wp_mono; [apply wp_delete_long; [done|apply Hr|done..|by apply long_meta]|done| |done].
    intros e d' [-> [->|?]]; [|by destruct no_fault]. apply simulated_same; [|done].
    apply (spec_too_long A _ b k); [done| |done|done]. by apply (rp_buckets _ _ Hr).
  - apply wp_remove_short_reply; [done..|]. intros. by destruct Hn.
Qed.

(** The page only looks at the entries of its keys. *)
Lemma items_from_ext f g p start seen keys : (∀ k, k ∈ keys → f k = g k) →
  items_from f p start seen keys = items_from g p start seen keys.
Proof.
  revert seen. induction keys as [|k keys IH]; intros seen Hfg; [done|]. cbn [items_from].
  rewrite (Hfg k) by left. assert (∀ seen, items_from f p start seen keys = items_from g p start seen keys) as Hrest.
  { intros seen'. apply IH. intros k' Hk'. apply Hfg. by right. }
  by repeat (case_match || rewrite Hrest).
Qed.

(** The keys of a bucket, in order. *)
Lemma rp_has_keys A m b objs : represents A m → A !! b = Some objs → ∃ keys, keys_of objs keys.
Proof.
  intros Hr Hobjs. exists (sort_strings (map_to_list objs).*1). split; [split|].
  - apply sort_strings_strict, NoDup_fst_map_to_list.
  - apply Forall_forall. intros k. rewrite sort_strings_perm. intros ([k' o] & -> & Hin)%list_elem_of_fmap.
    apply elem_of_map_to_list in Hin. eapply (rp_keys _ _ Hr); [done|]. by eexists.
  - intros k. rewrite sort_strings_perm, list_elem_of_fmap. split.
    + intros ([k' o] & -> & Hin). apply elem_of_map_to_list in Hin. by eexists.
    + intros [o Ho]. exists (k, o). split; [done|]. by apply elem_of_map_to_list.
Qed.

Lemma wp_list_no_bucket b p d : layout (vol d) →
  ¬ (is_valid_bucket_name b = true ∧ bucket_at (vol d) b) →
  wp (FsEngine.list_objects_v2 engine b p) (λ _ _, False)
    (λ e d', d' = d ∧ (e = InvalidBucketName ∧ is_valid_bucket_name b = false
                      ∨ e = NoSuchBucket ∧ ¬ bucket_at (vol d) b)) (λ _, True) d.
Proof.
  intros Hlay Hn. unfold FsEngine.list_objects_v2, FsEngine.checked_bucket_dir.
  destruct (is_valid_bucket_name b) eqn:Hb; apply wp_bind, wp_lift; intros x [= <-]; [|auto].
  apply wp_with_lock, wp_bind, wp_existing_bucket_dir; [done|..].
  - intros _ Hbkt. by destruct Hn.
  - congruence.
  - auto.
  - by intros e ?%no_injected.
  - done.
Qed.

Lemma wp_list_reply b p A d :
  represents A (vol d) → ready (RListObjects b p) (vol d) → simulates A (RListObjects b p) d.
Proof.
  intros Hr [Hp _]. apply wp_bind. pose proof (so_layout _ (rp_ok _ _ Hr)) as Hlay.
  destruct (decide (is_valid_bucket_name b = true ∧ vol d !! bucket_path b = Some NDir)) as [[Hv Hb]|Hn].
  - destruct (rp_bucket _ _ b Hr Hv Hb) as [objs Hobjs].
    pose proof (so_trees _ (rp_ok _ _ Hr) b Hb) as Ht.
    eapply wp_mono; [by apply runs_list_objects| |done|done].
    intros r d' [-> Hres]. apply wp_ret, simulated_same; [|done].
    destruct (lp_max_keys p =? 0)%N eqn:Hmax.
    + destruct (rp_has_keys _ _ _ _ Hr Hobjs) as [keys Hkeys]. subst r.
      pose proof (spec_list A b p objs keys Hobjs Hkeys) as Hspec. by rewrite Hmax in Hspec.
    + destruct Hres as (keys & Hok & Hin & ->).
      assert (keys_of objs keys) as Hkeys.
      { split; [done|]. intros k. rewrite Hin. by eapply rp_listed. }
      pose proof (spec_list A b p objs keys Hobjs Hkeys) as Hspec. rewrite Hmax in Hspec.
      replace (page (entry_at (vol d) b) keys p) with (page (λ k, fst <$> objs !! k) keys p); [done|].
      unfold page. f_equal. apply items_from_ext. intros k Hk. symmetry.
      apply (rp_entry A); [done..|]. by apply Hin in Hk as [? _].
  - eapply wp_mono; [by apply wp_list_no_bucket|done| |done].
    intros e d' [-> [[-> Hb]|[-> Hb]]]; (apply simulated_same; [|done]).
    + by apply (spec_bad_name A _ b).
    + apply (spec_no_bucket A _ b); [done|]. by apply (rp_no_bucket _ _ _ Hr).
Qed.

Lemma wp_exists_reply b A d : represents A (vol d) → simulates A (RBucketExists b) d.
Proof.
  intros Hr. pose proof (so_layout _ (rp_ok _ _ Hr)) as Hlay. apply wp_bind.
  cbn [bucket_exists fs_engine_layer]. unfold FsEngine.bucket_exists, FsEngine.checked_bucket_dir.
  destruct (is_valid_bucket_name b) eqn:Hb; apply wp_bind, wp_lift; intros x [= <-].
  2: { apply simulated_same; [|done]. by apply (spec_bad_name A _ b). }
  assert (∀ found, (found = true ↔ bucket_at (vol d) b) → simulated A (RBucketExists b) (Ok (Found found)) d) as Hsim.
  { intros found Hf. apply simulated_same; [|done].
    replace found with (bool_decide (is_Some (A !! b))); [by constructor|].
    apply eq_true_iff_eq. rewrite bool_decide_eq_true, (rp_buckets _ _ Hr), Hf. tauto. }
  apply wp_bind, wp_attempt, wp_metadata; rewrite ?bucket_dir_resolve by done.
  - intros x Hx _. do 2 apply wp_ret. apply Hsim. unfold bucket_at. rewrite Hx. by destruct x.
  - intros e He. assert (vol d !! bucket_path b = None) as Hno by (eapply walk_Err; [apply Hlay|done]).
    rewrite bool_decide_true.
    + do 2 apply wp_ret. apply Hsim. unfold bucket_at. by rewrite Hno.
    + unfold bucket_path in He, Hno. rewrite walk_missing in He; [by injection He as <-|apply Hlay..| |done].
      by apply (bucket_fits _ Hlay).
  - by intros e ?%no_injected.
  - done.
Qed.

Lemma wp_buckets_reply A d : represents A (vol d) → simulates A RListBuckets d.
Proof.
  intros Hr. apply wp_bind. eapply wp_mono; [apply runs_list_buckets, Hr| |done..].
  intros out d' (-> & Hs & _ & Hin). apply wp_ret, simulated_same; [|done]. constructor; [done|].
  intros b. by rewrite Hin, (rp_buckets _ _ Hr).
Qed.

Lemma simulates_all A r d : represents A (vol d) → ready r (vol d) → simulates A r d.
Proof.
  intros Hr Hready. destruct r; eauto using wp_create_reply, wp_delete_reply, wp_exists_reply, wp_buckets_reply,
    wp_put_reply, wp_get_reply, wp_head_reply, wp_remove_reply, wp_list_reply.
Qed.

Lemma tidy_answer e r : tidy (@answer (fs_engine_layer e) r).
Proof.
  pose proof tidy_create_bucket. pose proof tidy_delete_bucket. pose proof tidy_bucket_exists.
  pose proof tidy_list_buckets. pose proof tidy_put_object. pose proof tidy_get_object.
  pose proof tidy_head_object. pose proof tidy_delete_object. pose proof tidy_list_objects_v2.
  destruct r; cbn [answer create_bucket delete_bucket bucket_exists list_buckets put_object get_object
    head_object delete_object list_objects_v2 fs_engine_layer]; tidy.
Qed.

(** C1: the engine implements a map of maps.  Whenever a data directory represents
    an abstract store (bucket names to keys to descriptions and bytes), every
    request of every kind, in the absence of faults, is answered; the answer is
    one the abstract store gives (create and delete of buckets, upload, ranged
    download, head, delete, paged listing, and each of their refusals); and the
    directory afterwards represents the store the abstract request leads to.  A
    bucket is refused deletion only while it holds an object.  A key whose path
    is longer than the file system allows is answered [KeyTooLong] by upload,
    download, head and delete alike and stays absent; keys with a single name that
    is too long, or for which only the path of a file in their directory is, are
    left out by [ready], since there the answer depends on the directories that
    happen to be there. *)
Theorem engine_refines A r w :
  represents A (vol (wdisk w)) → ready r (vol (wdisk w)) →
  ∃ res w' A', @answer (fs_engine_layer engine) r w = (Some res, w')
    ∧ spec A r res A' ∧ represents A' (vol (wdisk w')).
Proof.
  intros Hr Hready. pose proof (wp_run _ _ _ _ w (simulates_all A r (wdisk w) Hr Hready)) as Hwp.
  pose proof (tidy_answers (@answer (fs_engine_layer engine) r) w) as Ht.
  destruct (@answer (fs_engine_layer engine) r w) as [[[a|e]|] w'].
  - destruct Hwp as (A' & ? & ?). by exists (Ok a), w', A'.
  - destruct Hwp as (A' & ? & ?). by exists (Err e), w', A'.
  - exfalso. eapply Ht; [apply tidy_answer|done].
Qed.
End simulation.
