(* ===== verification/FsSamples.v ===== *)
(** * The engine at work

    A concrete data directory on a concrete machine, on which the theorems about
    the engine are applied: their hypotheses hold there and what they conclude
    can be computed.  The crates the engine calls are instantiated by simple
    functions that satisfy their laws. *)

From S2P Require Import Prelude RustStr RustPath Codec Paths Checksum EngineError Fs FsFacts Atomic Meta Layer Walk FsBase Listing FsEngine Tidy FsObject FsDelete FsList FsBuckets FsOpen ReadOnly Store Refine.

(** ** The crates *)

#[local] Existing Instance plain_crates.
#[local] Existing Instance plain_crates_laws.
#[local] Existing Instance manifest_codec.
#[local] Existing Instance manifest_codec_laws.

(** An MD5 that returns its input. *)
#[local] Instance plain_md5 : Md5Crate := {| md5 := str; md5_new := []; md5_update := app; md5_finalize h := h |}.

#[local] Instance plain_md5_laws : Md5Laws plain_md5.
Proof. split; cbn; [intros s a b; symmetry; apply app_assoc|apply app_nil_r]. Qed.

(** Reads that come back with one byte each. *)
#[local] Instance byte_reads : Reads := λ _, FsBase.Reads 1.

#[global] Instance codec_bucket_meta : Codec BucketMeta.
Proof. refine (codec_iso created_epoch_ms mkBucketMeta _). by intros []. Defined.
#[global] Instance codec_disk_format : Codec DiskFormat.
Proof. refine (codec_iso df_format mkDiskFormat _). by intros []. Defined.

#[global] Instance valid_bucket_meta_dec m : Decision (valid_bucket_meta m).
Proof. unfold valid_bucket_meta, u64. apply _. Defined.
#[global] Instance valid_disk_format_dec m : Decision (valid_disk_format m).
Proof. unfold valid_disk_format, u32. apply _. Defined.

#[local] Instance bucket_meta_codec : Serde BucketMeta := codec_serde valid_bucket_meta.
#[local] Instance bucket_meta_codec_laws : SerdeLaws BucketMeta valid_bucket_meta.
Proof. apply codec_serde_laws. Qed.
#[local] Instance disk_format_codec : Serde DiskFormat := codec_serde valid_disk_format.
#[local] Instance disk_format_codec_laws : SerdeLaws DiskFormat valid_disk_format.
Proof. apply codec_serde_laws. Qed.

(** ** The machine and the directory [/d] *)

#[local] Existing Instance calm_env.
#[local] Existing Instance calm_env_ok.
#[local] Existing Instance calm_env_no_faults.

(** The directory on a machine on which calls may fail. *)
Definition slash_d_on (f : nat → fate) : @DataDir (env_with f).
Proof. refine {| dd_head := [RootDir]; dd_names := [b#"d"] |}; [right; by left|vm_compute; lia]. Defined.

#[local] Instance slash_d : DataDir := slash_d_on (λ _, Proceed).

(** Bucket [bkt] with object [a/b] holding [old]. *)
Definition old_entry : VersionEntry :=
  mkVersionEntry NULL_VERSION_ID (b#"e") 3 (b#"text/plain") ∅ 7 false None.

Definition encoded {A} `{Serde A} (a : A) : str := match to_vec a with Ok s => s | Err _ => [] end.

Definition old_bytes : str := encoded (mkVersionManifest MANIFEST_FORMAT [old_entry]).

Definition store : tree :=
  list_to_map ([([], NDir); ([b#"d"], NDir); ([b#"d"; AKS3_DIR], NDir); (tmp_path, NDir);
    (buckets_path, NDir); (bucket_path (b#"bkt"), NDir); (objects_path (b#"bkt"), NDir);
    (objects_path (b#"bkt") ++ [b#"a"], NDir); (object_path (b#"bkt") (b#"a/b"), NDir);
    (meta_path (b#"bkt") (b#"a/b"), NFile old_bytes true);
    (data_path (b#"bkt") (b#"a/b") NULL_VERSION_ID, NFile (b#"old") true)]).

Definition store_disk : disk := mkDisk store store.
Definition at_store : world := mkWorld store_disk 0 ∅.

Lemma store_layout : layout store.
Proof.
  split; [apply wf_check_sound; by vm_compute|by vm_compute..|].
  refine (bool_decide_unpack _ _). by vm_compute.
Qed.

Lemma store_bucket : bucket_at store (b#"bkt").
Proof. by vm_compute. Qed.

Lemma store_durable : dirs_durable store_disk.
Proof. by intros q Hq. Qed.

(** Whether nothing stands in the way of a directory, by computation. *)
Definition creatable_check (a : apath) (m : tree) : bool :=
  forallb (λ n, length n <=? name_max)%nat a && (path_len a <=? path_max)%nat
  && forallb (λ i, match m !! take i a with Some (NFile _ _) => false | _ => true end) (seq 0 (S (length a))).

Lemma creatable_check_sound a m : creatable_check a m = true → creatable a m.
Proof.
  unfold creatable_check. rewrite !andb_true_iff, !forallb_forall. intros [[Hn Hl] Hd]. split; [split|].
  - by apply Nat.leb_le.
  - apply Forall_forall. intros n Hin. apply Nat.leb_le, Hn, list_elem_of_In, Hin.
  - intros q [t ->]. specialize (Hd (length q)). rewrite take_app_length in Hd.
    destruct (m !! q) as [[|]|]; [by right| |by left].
    discriminate Hd. apply in_seq. rewrite length_app. lia.
Qed.


Lemma store_meta : file_at store (meta_path (b#"bkt") (b#"a/b")) = Some old_bytes.
Proof. by vm_compute. Qed.

Lemma store_manifest_readable : is_Some (parse_manifest old_bytes).
Proof. refine (bool_decide_unpack _ _). by vm_compute. Qed.

Lemma sample_puttable : puttable (b#"bkt") (b#"a/b") store.
Proof.
  split.
  - apply creatable_check_sound. by vm_compute.
  - apply (creatable_check_sound (data_path (b#"bkt") (b#"a/b") NULL_VERSION_ID) ∅). by vm_compute.
  - by vm_compute.
  - by vm_compute.
  - intros bytes. rewrite store_meta. intros [= <-]. apply store_manifest_readable.
  - intros n. by vm_compute.
Qed.

(** A request: two chunks, a type, one metadata pair and a checksum. *)
Definition new_opts : PutOpts := mkPutOpts (Some (b#"text/html")) {[ b#"color" := b#"red" ]} (Some Crc32).
Definition new_body : BoxByteStream := [Ok (b#"he"); Ok (b#"llo")].

Lemma new_opts_ok : opts_ok new_opts.
Proof.
  split; [by intros c [= <-]|]. apply map_Forall_singleton. by vm_compute.
Qed.

Lemma reads_succeed i err : reads i ≠ ReadFails err.
Proof. by intros [=]. Qed.

Lemma key_utf8 : utf8 (b#"a/b").
Proof. by vm_compute. Qed.

(** ** The theorems at work *)

Lemma put_object_atomic_witness :
  ∃ info w', FsEngine.put_object engine (b#"bkt") (b#"a/b") new_body new_opts at_store = (Some (Ok info), w')
    ∧ layout (vol (wdisk w'))
    ∧ ∃ data ns, collect new_body = Ok data
        ∧ object_at (vol (wdisk w')) (b#"bkt") (b#"a/b") = Some (entry_for new_opts data (epoch_ms ns), data).
Proof.
  destruct (ran_ok (FsEngine.put_object engine (b#"bkt") (b#"a/b") new_body new_opts) at_store)
    as (info & w' & Hrun); [by vm_compute|].
  exists info, w'. split; [exact Hrun|].
  pose proof (put_object_atomic (b#"bkt") (b#"a/b") new_body new_opts at_store
    key_utf8 new_opts_ok store_layout) as H.
  rewrite Hrun in H. destruct H as (Hlay & _ & _ & data & ns & Hc & _ & Hobj). eauto.
Defined.

Lemma put_object_durable_witness :
  ∃ ns w', FsEngine.put_object engine (b#"bkt") (b#"a/b") new_body new_opts at_store
           = (Some (Ok (object_info (b#"a/b") (entry_for new_opts (b#"hello") (epoch_ms ns)))), w')
    ∧ ∀ m, power_loss (wdisk w') m →
        object_at m (b#"bkt") (b#"a/b") = Some (entry_for new_opts (b#"hello") (epoch_ms ns), b#"hello").
Proof.
  destruct (put_object_durable (b#"bkt") (b#"a/b") new_body new_opts (b#"hello") at_store
    key_utf8 new_opts_ok store_layout eq_refl store_bucket sample_puttable eq_refl
    calm_env_no_faults) as (ns & w' & Hrun & Hdur).
  exists ns, w'. split; [exact Hrun|]. apply Hdur, store_durable.
Defined.


Lemma put_then_get_witness :
  ∃ ns stream w',
    (FsEngine.put_object engine (b#"bkt") (b#"a/b") new_body new_opts;;;
     FsEngine.get_object engine (b#"bkt") (b#"a/b") (Some (Suffix 3))) at_store
    = (Some (Ok (object_info (b#"a/b") (entry_for new_opts (b#"hello") (epoch_ms ns)), 2%N, 3%N, stream)), w')
    ∧ collect stream = Ok (b#"llo").
Proof.
  apply (put_then_get (b#"bkt") (b#"a/b") new_body new_opts (b#"hello") (Some (Suffix 3)) 2 3 at_store
    calm_env_no_faults reads_succeed key_utf8 new_opts_ok store_layout eq_refl store_bucket
    sample_puttable eq_refl ltac:(done) eq_refl).
Defined.

Lemma delete_object_atomic_witness :
  ∃ w', FsEngine.delete_object engine (b#"bkt") (b#"a/b") at_store = (Some (Ok ()), w')
    ∧ object_at (vol (wdisk w')) (b#"bkt") (b#"a/b") = None
    ∧ ∀ p, power_loss (wdisk w') p → object_at p (b#"bkt") (b#"a/b") = None.
Proof.
  destruct (ran_ok (FsEngine.delete_object engine (b#"bkt") (b#"a/b")) at_store)
    as ([] & w' & Hrun); [by vm_compute|].
  exists w'. split; [exact Hrun|].
  pose proof (delete_object_atomic (b#"bkt") (b#"a/b") at_store key_utf8 store_layout) as H.
  rewrite Hrun in H. destruct H as (_ & _ & _ & _ & Hobj & Hdur). split; [done|].
  apply Hdur; [intros [e He]; by apply no_injected in He|]. by eexists.
Defined.

Lemma create_bucket_spec_witness :
  ∃ w', FsEngine.create_bucket engine (b#"new") at_store = (Some (Ok ()), w')
    ∧ bucket_at (vol (wdisk w')) (b#"new") ∧ ∀ p, power_loss (wdisk w') p → bucket_at p (b#"new").
Proof.
  destruct (ran_ok (FsEngine.create_bucket engine (b#"new")) at_store) as ([] & w' & Hrun); [by vm_compute|].
  exists w'. split; [exact Hrun|].
  pose proof (create_bucket_spec (b#"new") at_store store_layout) as H.
  rewrite Hrun in H. destruct H as (_ & _ & _ & _ & _ & Hb & Hdur). split; [done|]. apply Hdur, store_durable.
Defined.

Lemma delete_bucket_spec_witness :
  ∃ w', FsEngine.delete_bucket engine (b#"bkt") at_store = (Some (Err BucketNotEmpty), w')
    ∧ object_at (vol (wdisk w')) (b#"bkt") (b#"a/b") = object_at store (b#"bkt") (b#"a/b").
Proof.
  assert ((FsEngine.delete_bucket engine (b#"bkt") at_store).1 = Some (Err BucketNotEmpty)) as Hrun by by vm_compute.
  pose proof (delete_bucket_spec (b#"bkt") at_store store_layout) as H.
  destruct (FsEngine.delete_bucket engine (b#"bkt") at_store) as [r w']. cbn [fst] in Hrun. subst r.
  exists w'. split; [done|]. apply H.
Defined.

Lemma list_buckets_spec_witness :
  ∃ out w', FsEngine.list_buckets engine at_store = (Some (Ok out), w') ∧ b#"bkt" ∈ bi_name <$> out.
Proof.
  destruct (list_buckets_spec at_store store_layout) as (out & w' & Hrun & _ & _ & Hin & _).
  exists out, w'. split; [exact Hrun|]. apply Hin. split; [done|]. apply store_bucket.
Defined.

Lemma open_spec_witness :
  ∃ e w', FsEngine.open (FsEngine.root engine) at_store = (Some (Ok e), w') ∧ layout (vol (wdisk w'))
    ∧ object_at (vol (wdisk w')) (b#"bkt") (b#"a/b") = object_at store (b#"bkt") (b#"a/b").
Proof.
  destruct (ran_ok (FsEngine.open (FsEngine.root engine)) at_store) as (e & w' & Hrun); [by vm_compute|].
  exists e, w'. split; [exact Hrun|].
  pose proof (open_spec at_store (lay_wf _ store_layout) eq_refl (lay_outside _ store_layout)
    ltac:(refine (bool_decide_unpack _ _); by vm_compute)) as H.
  rewrite Hrun in H. destruct H as (_ & Hobj & _ & _ & Hlay & _). split; [exact Hlay|apply Hobj].
Defined.

Lemma requests_release_locks_witness :
  locks ((@serve (fs_engine_layer engine) (RDeleteObject (b#"bkt") (b#"a/b")) at_store).2) = ∅
  ∧ ran (@serve (fs_engine_layer engine) (RDeleteObject (b#"bkt") (b#"a/b")) at_store).1 = true.
Proof.
  assert (ran (@serve (fs_engine_layer engine) (RDeleteObject (b#"bkt") (b#"a/b")) at_store).1 = true)
    as Hrun by by vm_compute.
  split; [|exact Hrun].
  pose proof (requests_release_locks engine (RDeleteObject (b#"bkt") (b#"a/b")) at_store
    (map_Forall_empty _)) as H.
  destruct (@serve (fs_engine_layer engine) (RDeleteObject (b#"bkt") (b#"a/b")) at_store) as [[r|] w'];
    [exact H|done].
Defined.

(** ** Trees by computation *)

Definition canonical_check (n : str) : bool :=
  match decode_component n with Ok c => bool_decide (encode_component c = n) | Err _ => false end.

Lemma canonical_check_sound n : canonical_check n = true → canonical n.
Proof.
  unfold canonical_check. destruct (decode_component n) as [c|] eqn:Hd; [|done].
  rewrite bool_decide_eq_true. intros <-. apply decode_component_no_sep in Hd as [? ?]. by exists c.
Qed.

Definition entry_check (O p : apath) (x : node) : bool :=
  match drop (length O) p with
  | [] => true
  | ns =>
      match last ns with
      | None => true
      | Some n =>
          forallb canonical_check (removelast ns)
          && match x with NDir => canonical_check n | NFile _ _ => reserved n end
      end
  end.

Definition tree_check (b : str) (m : tree) : bool :=
  forallb (λ '(p, x), negb (bool_decide (objects_path b `prefix_of` p)) || entry_check (objects_path b) p x)
    (map_to_list m)
  && match m !! objects_path b with Some (NFile _ _) => false | _ => true end
  && forallb (λ '(p, x), match x with
       | NDir => true
       | NFile data _ => negb (bool_decide (last p = Some META_FILE)) || bool_decide (is_Some (parse_manifest data))
       end) (map_to_list m).

Lemma tree_check_sound b m : tree_check b m = true → bucket_tree b m.
Proof.
  unfold tree_check. rewrite !andb_true_iff, !forallb_forall. intros [[Ht Ho] Hm]. split.
  - intros q n x Hx. specialize (Ht (objects_path b ++ q ++ [n], x)).
    rewrite <- list_elem_of_In, elem_of_map_to_list in Ht. specialize (Ht Hx).
    rewrite bool_decide_true in Ht by by apply prefix_app_r. cbn [negb orb] in Ht. unfold entry_check in Ht.
    rewrite drop_app_length in Ht. destruct (q ++ [n]) as [|y ns] eqn:Hq; [by apply app_eq_nil in Hq as [_ ?]|].
    rewrite <- Hq, last_snoc, removelast_last, andb_true_iff, forallb_forall in Ht. destruct Ht as [Hc Hn]. split.
    + apply Forall_forall. intros c Hin. apply canonical_check_sound, Hc, list_elem_of_In, Hin.
    + destruct x; [by apply canonical_check_sound|done].
  - intros data s Hx. by rewrite Hx in Ho.
  - intros k bytes _ [s Hf]%file_at_Some. specialize (Hm (meta_path b k, NFile bytes s)).
    rewrite <- list_elem_of_In, elem_of_map_to_list in Hm. specialize (Hm Hf). unfold meta_path in Hm.
    rewrite last_snoc, (bool_decide_true (Some META_FILE = _)) in Hm by done. cbn [negb orb] in Hm.
    by apply bool_decide_eq_true in Hm.
Qed.

Lemma store_tree : bucket_tree (b#"bkt") store.
Proof. apply tree_check_sound. by vm_compute. Qed.

Definition page_params : ListParams := mkListParams None None None None 10.

Lemma list_objects_refines_witness :
  ∃ r w' keys, FsEngine.list_objects_v2 engine (b#"bkt") page_params at_store = (Some (Ok r), w')
    ∧ (∀ k, k ∈ keys ↔ utf8 k ∧ is_Some (store !! meta_path (b#"bkt") k))
    ∧ r = page (entry_at store (b#"bkt")) keys page_params.
Proof.
  destruct (list_objects_refines (b#"bkt") page_params at_store store_layout eq_refl store_bucket store_tree
    ltac:(done)) as (r & w' & Hrun & _ & keys & _ & Hin & Hr).
  exists r, w', keys. split; [exact Hrun|]. split; [exact Hin|exact Hr].
Defined.

Lemma stored_entry : is_Some (entry_at store (b#"bkt") (b#"a/b")).
Proof. refine (bool_decide_unpack _ _). by vm_compute. Qed.

(** One key a page. *)
Definition small_page : ListParams := mkListParams None None None None 1.

Lemma tokens_list_everything_witness :
  ∃ ps w', follow_tokens 20 (b#"bkt") small_page at_store = (Some (Ok ps), w')
    ∧ (b#"a/b") ∈ (oi_key <$> concat (lr_objects <$> ps)).
Proof.
  destruct (tokens_list_everything 20 (b#"bkt") small_page at_store store_layout eq_refl store_bucket store_tree
    ltac:(done) ltac:(done) ltac:(by vm_compute; lia)) as (ps & w' & Hrun & _ & Hin & _).
  exists ps, w'. split; [exact Hrun|]. apply list_elem_of_fmap.
  destruct stored_entry as [entry He].
  exists (object_info (b#"a/b") entry). split; [reflexivity|]. apply Hin. exists (b#"a/b"), entry.
  split; [|split; reflexivity].
  split; [exact key_utf8|]. split; [exact He|]. split; [apply prefix_nil|reflexivity].
Defined.

(** ** An empty data directory *)

Definition fresh_store : tree :=
  list_to_map [([], NDir); ([b#"d"], NDir); ([b#"d"; AKS3_DIR], NDir); (tmp_path, NDir); (buckets_path, NDir)].
Definition at_fresh : world := mkWorld (mkDisk fresh_store fresh_store) 0 ∅.

Lemma fresh_layout : layout fresh_store.
Proof.
  split; [apply wf_check_sound; by vm_compute|by vm_compute..|].
  refine (bool_decide_unpack _ _). by vm_compute.
Qed.

Lemma fresh_no_bucket b : fresh_store !! bucket_path b = None.
Proof.
  apply not_elem_of_list_to_map_1. cbn [fmap list_fmap fst]. rewrite !not_elem_of_cons.
  split_and!; [done..|apply not_elem_of_nil].
Qed.

Lemma fresh_represents : represents ∅ fresh_store.
Proof.
  assert (∀ b, ¬ bucket_at fresh_store b) as Hno.
  { intros b. unfold bucket_at. by rewrite fresh_no_bucket. }
  split; try done.
  - split; [apply fresh_layout|]. by intros b ?%Hno.
  - intros b. rewrite lookup_empty. split; [by intros []|]. by intros [_ ?%Hno].
  - by intros b k _ ?%Hno.
  - intros b data s _. by rewrite fresh_no_bucket.
Qed.

Lemma fresh_ready b : ready (RCreateBucket b) fresh_store.
Proof. split; [done|]. intros n. by vm_compute. Qed.

Lemma engine_refines_witness :
  ∃ res w' A', @answer (fs_engine_layer engine) (RCreateBucket (b#"bkt")) at_fresh = (Some res, w')
    ∧ spec ∅ (RCreateBucket (b#"bkt")) res A' ∧ represents A' (vol (wdisk w')).
Proof.
  exact (engine_refines reads_succeed ∅ (RCreateBucket (b#"bkt")) at_fresh fresh_represents (fresh_ready _)).
Defined.

Lemma requests_keep_store_witness :
  store_ok (vol (wdisk (@serve (fs_engine_layer engine) (RCreateBucket (b#"bkt")) at_fresh).2)).
Proof.
  exact (requests_keep_store (RCreateBucket (b#"bkt")) at_fresh I (rp_ok _ _ fresh_represents)).
Defined.

(** ** What the code does not guarantee *)

(** A machine on which one call finds the disk full. *)
Definition full_at (n : nat) : nat → fate :=
  λ t, if decide (t = n) then Fail (os_error KStorageFull) 0 else Proceed.

(** C40: an upload that is refused may already have replaced the object's bytes.
    The object [a/b] is there with a manifest that describes its three bytes;
    [put_object] publishes the data file before it writes the manifest, and when the
    disk is full by then the request is refused ([StorageFull]), the manifest is
    the old one, and the bytes are those of the refused upload: a [GET] afterwards
    answers with the old description, its entity tag and size, and sends bytes of
    the upload that was refused. *)
Theorem refused_put_replaces_bytes :
  let E := env_with (full_at 18) in let D := slash_d_on (full_at 18) in
  let put := FsEngine.put_object engine (b#"bkt") (b#"a/b") new_body new_opts at_store in
  object_at store (b#"bkt") (b#"a/b") = Some (old_entry, b#"old")
  ∧ put.1 = Some (Err StorageFull)
  ∧ object_at (vol (wdisk put.2)) (b#"bkt") (b#"a/b") = Some (old_entry, b#"hello")
  ∧ match (FsEngine.get_object engine (b#"bkt") (b#"a/b") None put.2).1 with
    | Some (Ok (info, _, _, body)) => info = object_info (b#"a/b") old_entry ∧ collect body = Ok (b#"hel")
    | _ => False
    end.
Proof. cbn zeta. split_and!; by vm_compute. Qed.

(** A disk with nothing but the directory [/d]. *)
Definition bare_store : tree := list_to_map [([], NDir); ([b#"d"], NDir)].
Definition at_bare : world := mkWorld (mkDisk bare_store bare_store) 0 ∅.

(** C39: nothing makes the directories that [open] creates durable.  On a new data
    directory a bucket and an object can be created and acknowledged while the
    entry of [buckets/] in the root is not on the disk, so after a loss of power
    the lookup of the object's files may fail: [open] does not sync the root,
    and every later sync is of a directory below it. *)
Theorem open_leaves_layout_volatile :
  let run := (FsEngine.open (FsEngine.root engine);;;
              FsEngine.create_bucket engine (b#"bkt");;;
              FsEngine.put_object engine (b#"bkt") (b#"a/b") new_body new_opts) at_bare in
  ran run.1 = true ∧ power_loss (wdisk run.2) (dur (wdisk run.2))
  ∧ walk (dur (wdisk run.2)) (data_path (b#"bkt") (b#"a/b") NULL_VERSION_ID) = Err (os_error KNotFound).
Proof.
  cbn zeta. split_and!; [by vm_compute|by left|by vm_compute].
Qed.

(** Two staged files, and a machine on which the first publication fails at the
    rename. *)
Definition two_staged : tree :=
  list_to_map [([], NDir); ([b#"tmp"], NDir); ([b#"tmp"; b#"1"], NFile (b#"one") false);
    ([b#"tmp"; b#"2"], NFile (b#"two") false)].
Definition staged_1 : StagedFile := mkStagedFile [RootDir; Normal (b#"tmp"); Normal (b#"1")] false.
Definition staged_2 : StagedFile := mkStagedFile [RootDir; Normal (b#"tmp"); Normal (b#"2")] false.
Definition dest_ab : PathBuf := [RootDir; Normal (b#"a"); Normal (b#"b"); Normal (b#"f")].

(** [commit] can acknowledge a file that a loss of power takes back.  It syncs
    the directories that did not exist when it started and the deepest one that
    did; a directory that an earlier, failed commit made is taken for durable
    although its entry was never synced.  Here the first commit makes [/a/b] and
    fails at the rename, the second one succeeds, and on the disk there is no
    [/a]. *)
Theorem commit_after_failed_commit_volatile :
  let E := env_with (full_at 8) in
  let start := mkWorld (mkDisk two_staged two_staged) 0 ∅ in
  let run := (attempt (F := io_error) (commit staged_1 dest_ab);;; commit staged_2 dest_ab) start in
  ran (commit staged_1 dest_ab start).1 = false
  ∧ ran run.1 = true ∧ file_at (vol (wdisk run.2)) [b#"a"; b#"b"; b#"f"] = Some (b#"two")
  ∧ power_loss (wdisk run.2) (dur (wdisk run.2))
  ∧ walk (dur (wdisk run.2)) [b#"a"; b#"b"; b#"f"] = Err (os_error KNotFound).
Proof.
  cbn zeta. split_and!; [by vm_compute..|by left|by vm_compute].
Qed.

(** A key with a component longer than a file name may be, below a directory
    that is not there. *)
Definition long_key : str := b#"none/" ++ replicate 300 (c#"a").

(** The verbs do not agree on such a key: a put reports it too long, but on the
    way to it the missing directory is found first, so that a read reports no
    such key and a delete succeeds. *)
Theorem long_key_verbs_differ :
  (FsEngine.put_object engine (b#"bkt") long_key new_body new_opts at_store).1 = Some (Err KeyTooLong)
  ∧ (FsEngine.head_object engine (b#"bkt") long_key at_store).1 = Some (Err NoSuchKey)
  ∧ (FsEngine.get_object engine (b#"bkt") long_key None at_store).1 = Some (Err NoSuchKey)
  ∧ (FsEngine.delete_object engine (b#"bkt") long_key at_store).1 = Some (Ok ()).
Proof. split_and!; by vm_compute. Qed.
