(* ===== verification/Locks.v ===== *)
(** * The lock tables: [LockEntry] in [crates/engine/src/fs_engine.rs]

    The locks of the engine live in two [DashMap]s from names to [Arc]s.  A
    request clones the [Arc] of a name, making the entry if it is not there,
    waits for the lock, and on release drops the guard and then takes the entry
    out if the table is its only holder left.  Here requests run concurrently,
    one atomic action at a time, and any of them may be cancelled while it
    waits.  The two tables are one map, since their names are disjoint.  What a
    request may rely on is locks by name, without tables: a [book] of who holds
    which names, which is all that [Conc] has of this file. *)

From S2P Require Import Prelude RustStr RustPath Checksum EngineError Fs.

(** ** State *)

(** The address of a lock, what an [Arc] points to. *)
Abbreviation lock_id := nat.

(** A lock a request holds: the guard owns the clone of the [Arc]. *)
Record guard := mkGuard { g_lock : lock; g_mode : mode; g_id : lock_id }.

#[global] Instance guard_eq_dec : EqDecision guard.
Proof. solve_decision. Defined.

(** What a request does to the bucket, and the locks it takes for it, in order. *)
Inductive work :=
  | ChangeBucket (b : str)
  | ListBucket (b : str)
  | WriteKey (b k : str).

Definition plan (w : work) : list (lock * mode) :=
  match w with
  | ChangeBucket b => [(BucketLock b, Exclusive)]
  | ListBucket b => [(BucketLock b, Shared)]
  | WriteKey b k => [(BucketLock b, Shared); (KeyLock b k, Exclusive)]
  end.

(** Where a request is: about to take the next lock (or at work, if there is
    none), waiting for one it has cloned, or with a guard dropped whose entry it
    has yet to look at.  The guards held are latest first. *)
Inductive phase :=
  | Running (todo : list (lock * mode)) (held : list guard)
  | Waiting (g : guard) (todo : list (lock * mode)) (held : list guard)
  | Releasing (l : lock) (held : list guard).

Record state := mkState {
  table : gmap lock lock_id;
  tasks : gmap nat phase;
  next_id : lock_id;
}.

Definition initial : state := mkState ∅ ∅ 0.

Definition held_of (p : phase) : list guard :=
  match p with Running _ held | Waiting _ _ held | Releasing _ held => held end.

(** The clones of [Arc]s a request owns. *)
Definition refs_of (p : phase) : list guard :=
  match p with Waiting g _ held => g :: held | _ => held_of p end.

(** [Arc::strong_count] of a lock in the table. *)
Definition strong_count (s : state) (id : lock_id) : nat :=
  S (sum_list_with (λ '(_, p), length (filter (λ g, g_id g = id) (refs_of p))) (map_to_list (tasks s))).

(** ** Actions *)

Definition with_phase (t : nat) (p : phase) (s : state) : state :=
  mkState (table s) (<[t := p]> (tasks s)) (next_id s).

(** [Arc::clone(&table.entry(name).or_default())]. *)
Definition clone_entry (s : state) (l : lock) : lock_id * state :=
  match table s !! l with
  | Some id => (id, s)
  | None => (next_id s, mkState (<[l := next_id s]> (table s)) (tasks s) (S (next_id s)))
  end.

(** A lock can be had: an exclusive holder excludes everyone, any holder an
    exclusive one. *)
Definition grantable (s : state) (g : guard) : Prop :=
  map_Forall (λ _ p, Forall (λ g', g_id g' ≠ g_id g ∨ (g_mode g = Shared ∧ g_mode g' = Shared)) (held_of p)) (tasks s).

#[global] Instance grantable_dec s g : Decision (grantable s g).
Proof. apply map_Forall_dec. intros _ p. apply _. Defined.

(** [table.remove_if(&key, |_, lock| Arc::strong_count(lock) == 1)]. *)
Definition remove_entry (s : state) (l : lock) : state :=
  match table s !! l with
  | Some id =>
      if bool_decide (strong_count s id = 1)
      then mkState (delete l (table s)) (tasks s) (next_id s) else s
  | None => s
  end.

(** One action of one request; [cancel] says whether requests may be dropped
    while they wait, their guards with them.  A request takes its locks in a row
    and may return at any point after, which is what [Running []] allows. *)
Inductive step (cancel : bool) : state → state → Prop :=
  | step_spawn s t w : tasks s !! t = None →
      step cancel s (with_phase t (Running (plan w) []) s)
  | step_clone s t l m todo held :
      tasks s !! t = Some (Running ((l, m) :: todo) held) →
      step cancel s
        (with_phase t (Waiting (mkGuard l m (clone_entry s l).1) todo held) (clone_entry s l).2)
  | step_grant s t g todo held :
      tasks s !! t = Some (Waiting g todo held) → grantable s g →
      step cancel s (with_phase t (Running todo (g :: held)) s)
  | step_unlock s t g held :
      tasks s !! t = Some (Running [] (g :: held)) →
      step cancel s (with_phase t (Releasing (g_lock g) held) s)
  | step_remove s t l held :
      tasks s !! t = Some (Releasing l held) →
      step cancel s (with_phase t (Running [] held) (remove_entry s l))
  | step_done s t :
      tasks s !! t = Some (Running [] []) →
      step cancel s (mkState (table s) (delete t (tasks s)) (next_id s))
  | step_cancel s t g todo held :
      cancel = true → tasks s !! t = Some (Waiting g todo held) →
      step cancel s (with_phase t (Running [] held) s).

Definition reachable (cancel : bool) : state → Prop := rtc (step cancel) initial.

(** ** The invariant *)

(** The shapes a request goes through: the bucket's lock first, the key's last. *)
Definition shape_ok (p : phase) : Prop :=
  match p with
  | Running todo held =>
      (∃ w, todo = plan w ∧ held = [])
      ∨ (∃ b k g, todo = [(KeyLock b k, Exclusive)] ∧ held = [g] ∧ g_lock g = BucketLock b)
      ∨ todo = []
  | Waiting g todo held =>
      (∃ b, g_lock g = BucketLock b ∧ held = [] ∧ (todo = [] ∨ ∃ k, todo = [(KeyLock b k, Exclusive)]))
      ∨ (∃ b k g', g_lock g = KeyLock b k ∧ todo = [] ∧ held = [g'] ∧ g_lock g' = BucketLock b)
  | Releasing _ _ => True
  end.

Record inv (s : state) : Prop := {
  inv_refs t p g : tasks s !! t = Some p → g ∈ refs_of p → table s !! g_lock g = Some (g_id g);
  inv_inj l l' id : table s !! l = Some id → table s !! l' = Some id → l = l';
  inv_next l id : table s !! l = Some id → id < next_id s;
  inv_excl t t' p p' g g' : tasks s !! t = Some p → tasks s !! t' = Some p' → t ≠ t' →
    g ∈ held_of p → g' ∈ held_of p' → g_id g = g_id g' → g_mode g = Shared ∧ g_mode g' = Shared;
  inv_shape t p : tasks s !! t = Some p → shape_ok p;
}.

Lemma held_refs p g : g ∈ held_of p → g ∈ refs_of p.
Proof. destruct p; cbn; [done|by right|done]. Qed.

(** A count of one means no request owns a clone. *)
Lemma strong_count_one s id : strong_count s id = 1 →
  ∀ t p g, tasks s !! t = Some p → g ∈ refs_of p → g_id g ≠ id.
Proof.
  unfold strong_count. intros [= Hsum] t p g Ht Hg Hid.
  apply elem_of_map_to_list, list_elem_of_split in Ht as (l1 & l2 & Heq).
  rewrite Heq, sum_list_with_app in Hsum. cbn in Hsum.
  assert (g ∈ filter (λ g, g_id g = id) (refs_of p)) as Hin by by apply list_elem_of_filter.
  destruct (filter _ _); [by apply not_elem_of_nil in Hin|cbn in Hsum; lia].
Qed.

(** Changing one request keeps the invariant if its clones are in the table and
    the guards it holds do not clash. *)
Lemma inv_with_phase s t p :
  inv s → shape_ok p →
  (∀ g, g ∈ refs_of p → table s !! g_lock g = Some (g_id g)) →
  (∀ t' p' g g', tasks s !! t' = Some p' → t' ≠ t → g ∈ held_of p → g' ∈ held_of p' → g_id g = g_id g' →
     g_mode g = Shared ∧ g_mode g' = Shared) →
  inv (with_phase t p s).
Proof.
  intros [Hr Hi Hn Hx Hs] Hp Hrefs Hex. split; cbn; [|done|done| |].
  - intros t' p' g. rewrite lookup_insert_Some. intros [[<- <-]|[_ ?]]; eauto.
  - intros t1 t2 p1 p2 g1 g2. rewrite !lookup_insert_Some.
    intros [[<- <-]|[? H1]] [[<- <-]|[? H2]] Hne Hg1 Hg2 Hid; [done|eauto| |eauto].
    symmetry in Hid. destruct (Hex t1 p1 g2 g1) as [? ?]; auto.
  - intros t' p'. rewrite lookup_insert_Some. intros [[<- <-]|[_ ?]]; eauto.
Qed.

(** A request that holds no more than before clashes no more. *)
Lemma inv_shrink s t p p' :
  inv s → tasks s !! t = Some p → shape_ok p' → (∀ g, g ∈ refs_of p' → g ∈ held_of p) → inv (with_phase t p' s).
Proof.
  intros Hi Ht Hp Hsub. apply inv_with_phase; [done..| |].
  - intros g Hg. eapply inv_refs; [done..|]. by apply held_refs, Hsub.
  - intros t' q g g' Ht' Hne Hg Hg' Hid. eapply (inv_excl s Hi t t' p q); eauto. by apply Hsub, held_refs.
Qed.

Lemma inv_clone_entry s l : inv s → inv (clone_entry s l).2 ∧ table (clone_entry s l).2 !! l = Some (clone_entry s l).1
  ∧ tasks (clone_entry s l).2 = tasks s
  ∧ ∀ l' id, table s !! l' = Some id → table (clone_entry s l).2 !! l' = Some id.
Proof.
  intros Hi. unfold clone_entry. destruct (table s !! l) as [id|] eqn:Hl; [done|]. cbn.
  assert (∀ l' id, table s !! l' = Some id → <[l := next_id s]> (table s) !! l' = Some id) as Hkeep.
  { intros l' id Hl'. rewrite lookup_insert_ne; [done|]. congruence. }
  split_and!; [|apply lookup_insert_eq|done|done]. destruct Hi as [Hr Hi Hn Hx Hs]. split; cbn; eauto.
  - intros l1 l2 id. rewrite !lookup_insert_Some.
    intros [[<- <-]|[_ H1]] [[<- H2]|[_ H2]]; [done| | |eauto]; [apply Hn in H2|subst; apply Hn in H1]; lia.
  - intros l' id. rewrite lookup_insert_Some. intros [[_ <-]|[_ ?%Hn]]; lia.
Qed.

Lemma inv_remove_entry s l : inv s → inv (remove_entry s l) ∧ tasks (remove_entry s l) = tasks s.
Proof.
  intros Hi. unfold remove_entry. destruct (table s !! l) as [id|] eqn:Hl; [|done].
  case_bool_decide as Hc; [|done]. pose proof (strong_count_one s id Hc) as Hno. split; [|done].
  destruct Hi as [Hr Hi Hn Hx Hs]. split; cbn; eauto.
  - intros t p g Ht Hg. specialize (Hno t p g Ht Hg). specialize (Hr t p g Ht Hg).
    rewrite lookup_delete_ne; [done|]. intros ->. congruence.
  - intros l1 l2 id'. rewrite !lookup_delete_Some. intros [_ ?] [_ ?]. eauto.
  - intros l' id'. rewrite lookup_delete_Some. intros [_ ?]. eauto.
Qed.

Lemma shape_clone l m todo held id : shape_ok (Running ((l, m) :: todo) held) →
  shape_ok (Waiting (mkGuard l m id) todo held).
Proof.
  intros [(w & Hw & ->)|[(b & k & g & [= -> -> ->] & -> & Hg)|?]]; [|right; naive_solver|done].
  left. destruct w; injection Hw as -> -> ->; cbn; naive_solver.
Qed.

Lemma shape_grant g todo held : shape_ok (Waiting g todo held) → shape_ok (Running todo (g :: held)).
Proof.
  intros [(b & Hg & -> & [->|[k ->]])|(b & k & g' & Hg & -> & -> & Hg')]; cbn; [by auto| |by auto].
  right; left. naive_solver.
Qed.

Lemma shape_running held : shape_ok (Running [] held).
Proof. cbn. auto. Qed.

Lemma grantable_shared s g : grantable s g → ∀ t p g', tasks s !! t = Some p → g' ∈ held_of p →
  g_id g = g_id g' → g_mode g = Shared ∧ g_mode g' = Shared.
Proof.
  intros Hg t p g' Ht Hg' Hid. specialize (Hg t p Ht). cbn in Hg. rewrite Forall_forall in Hg.
  destruct (Hg g' Hg') as [Hne|?]; [by rewrite Hid in Hne|done].
Qed.

Lemma inv_step cancel s s' : inv s → step cancel s s' → inv s'.
Proof.
  intros Hi Hstep. revert Hi.
  destruct Hstep as [s1 t w Ht|s1 t l m todo held Ht|s1 t g todo held Ht Hg|s1 t g held Ht|s1 t l held Ht
                    |s1 t Ht|s1 t g todo held _ Ht]; intros Hi.
  - apply inv_with_phase; [done|left; naive_solver|by intros g ?%not_elem_of_nil|].
    by intros ? ? ? ? ? ? ?%not_elem_of_nil.
  - destruct (inv_clone_entry s1 l Hi) as (Hi' & Hl & Htasks & Hkeep).
    apply inv_with_phase; [done|apply shape_clone; exact (inv_shape s1 Hi _ _ Ht)| |].
    + intros g' [->|Hg']%elem_of_cons; [done|]. apply Hkeep. exact (inv_refs s1 Hi _ _ _ Ht Hg').
    + rewrite Htasks. intros t' p' g' g'' Ht' Hne Hg' Hg'' Hid. eapply (inv_excl s1 Hi t t'); eauto.
  - apply inv_with_phase; [done|apply shape_grant; exact (inv_shape s1 Hi _ _ Ht)| |].
    + intros g' Hg'. exact (inv_refs s1 Hi _ _ _ Ht Hg').
    + intros t' p' g1 g2 Ht' Hne [->|H1]%elem_of_cons H2 Hid; [by apply (grantable_shared s1 g Hg t' p')|].
      eapply (inv_excl s1 Hi t t'); eauto.
  - eapply inv_shrink; [done..|]. cbn. intros g' Hg'. by right.
  - destruct (inv_remove_entry s1 l Hi) as [Hi' Htasks].
    eapply inv_shrink; [done|by rewrite Htasks|apply shape_running|done].
  - destruct Hi as [Hr Hi Hn Hx Hs]. split; cbn; try done.
    + intros t' p g [_ ?]%lookup_delete_Some. eauto.
    + intros t1 t2 p1 p2 g1 g2 [_ ?]%lookup_delete_Some [_ ?]%lookup_delete_Some. eauto.
    + intros t' p [_ ?]%lookup_delete_Some. eauto.
  - eapply inv_shrink; [done..|apply shape_running|done].
Qed.

Lemma reachable_inv cancel s : reachable cancel s → inv s.
Proof.
  intros Hr. assert (inv initial) as H0 by by split.
  revert H0. unfold reachable in Hr. induction Hr; eauto using inv_step.
Qed.

(** ** What the tables promise *)

(** Locks without tables: who holds which names. *)
Abbreviation book := (gmap nat (list (lock * mode))).

(** Nobody holds the name in a way that excludes [md]. *)
Definition free_for (bk : book) (l : lock) (md : mode) : Prop :=
  ∀ t held md', bk !! t = Some held → (l, md') ∈ held → md = Shared ∧ md' = Shared.

Inductive book_step : book → book → Prop :=
  | book_arrive bk t : bk !! t = None → book_step bk (<[t := []]> bk)
  | book_take bk t held l md : bk !! t = Some held → free_for bk l md → book_step bk (<[t := (l, md) :: held]> bk)
  | book_drop bk t x held : bk !! t = Some (x :: held) → book_step bk (<[t := held]> bk)
  | book_leave bk t : bk !! t = Some [] → book_step bk (delete t bk).

Definition named (g : guard) : lock * mode := (g_lock g, g_mode g).

Definition book_of (s : state) : book := (λ p, named <$> held_of p) <$> tasks s.

Lemma lookup_book_of s t : book_of s !! t = (λ p, named <$> held_of p) <$> tasks s !! t.
Proof. apply lookup_fmap. Qed.

Lemma book_of_phase s t p : book_of (with_phase t p s) = <[t := named <$> held_of p]> (book_of s).
Proof. apply (fmap_insert (λ p, named <$> held_of p)). Qed.

Lemma book_of_same s t p p' : tasks s !! t = Some p → held_of p' = held_of p → book_of (with_phase t p' s) = book_of s.
Proof. intros Ht Hh. rewrite book_of_phase. apply insert_id. by rewrite lookup_book_of, Ht, Hh. Qed.

(** Two guards of one name are of one lock, and of one lock have one name. *)
Lemma same_lock s t t' p p' g g' : inv s → tasks s !! t = Some p → tasks s !! t' = Some p' →
  g ∈ refs_of p → g' ∈ refs_of p' → g_id g = g_id g' ↔ g_lock g = g_lock g'.
Proof.
  intros Hi Ht Ht' Hg Hg'. pose proof (inv_refs s Hi t p g Ht Hg) as H1. pose proof (inv_refs s Hi t' p' g' Ht' Hg') as H2.
  split; intros Heq; [|congruence]. rewrite Heq in H1. by eapply (inv_inj s Hi).
Qed.

(** What a waiting request is granted, by the lock its [Arc] points to, is what is
    free by name. *)
Lemma grantable_free s t g todo held : inv s → tasks s !! t = Some (Waiting g todo held) →
  grantable s g ↔ free_for (book_of s) (g_lock g) (g_mode g).
Proof.
  intros Hi Ht. assert (g ∈ refs_of (Waiting g todo held)) as Hg by by left. split.
  - intros Hgr t' h md'. rewrite lookup_book_of. destruct (tasks s !! t') as [p'|] eqn:Ht'; [|done].
    intros [= <-] (g' & Heq & Hg')%list_elem_of_fmap. unfold named in Heq. injection Heq as Hl ->.
    apply (grantable_shared s g Hgr t' p' g' Ht' Hg'). by apply (same_lock s t t' _ p' g g' Hi Ht Ht' Hg (held_refs _ _ Hg')).
  - intros Hfree t' p' Ht'. apply Forall_forall. intros g' Hg'.
    destruct (decide (g_id g' = g_id g)) as [Hid|]; [right|by left].
    apply (Hfree t' (named <$> held_of p')); [by rewrite lookup_book_of, Ht'|].
    apply list_elem_of_fmap. exists g'. split; [|done]. unfold named. f_equal.
    by apply (same_lock s t t' _ p' g g' Hi Ht Ht' Hg (held_refs _ _ Hg')).
Qed.

Lemma step_book cancel s s' : inv s → step cancel s s' → book_of s' = book_of s ∨ book_step (book_of s) (book_of s').
Proof.
  intros Hi Hstep. revert Hi.
  destruct Hstep as [s1 t w Ht|s1 t l m todo held Ht|s1 t g todo held Ht Hg|s1 t g held Ht|s1 t l held Ht
                    |s1 t Ht|s1 t g todo held _ Ht]; intros Hi.
  - right. rewrite book_of_phase. apply book_arrive. by rewrite lookup_book_of, Ht.
  - left. destruct (inv_clone_entry s1 l Hi) as (_ & _ & Htasks & _).
    assert (book_of (clone_entry s1 l).2 = book_of s1) as <- by (unfold book_of; by rewrite Htasks).
    by eapply book_of_same; [rewrite Htasks|].
  - right. rewrite book_of_phase. cbn [held_of]. rewrite fmap_cons. apply (book_take (book_of s1) t (named <$> held) (g_lock g) (g_mode g)); [by rewrite lookup_book_of, Ht|].
    by eapply grantable_free.
  - right. rewrite book_of_phase. cbn [held_of]. apply (book_drop (book_of s1) t (named g) (named <$> held)). by rewrite lookup_book_of, Ht.
  - left. destruct (inv_remove_entry s1 l Hi) as [_ Htasks].
    assert (book_of (remove_entry s1 l) = book_of s1) as <- by (unfold book_of; by rewrite Htasks).
    by eapply book_of_same; [rewrite Htasks|].
  - right. assert (book_of (mkState (table s1) (delete t (tasks s1)) (next_id s1)) = delete t (book_of s1)) as ->
      by apply (fmap_delete (λ p, named <$> held_of p)). apply book_leave. by rewrite lookup_book_of, Ht.
  - left. by eapply book_of_same.
Qed.

(** C19: the lock tables implement locks by name.  In every interleaving of requests
    that clone entries, wait, hold, release and look whether an entry can go, even
    with requests cancelled while they wait, every action is an action of the locks
    without tables or changes nothing for them; a request that waits is granted its
    lock exactly when nobody holds the name in a way that excludes it; and two
    requests hold one name at the same time only if both hold it shared.  An entry is
    never taken out while a request owns or waits for its lock, so two requests never
    lock different locks of one name. *)
Theorem tables_refine_locks cancel s s' :
  reachable cancel s → step cancel s s' →
  (book_of s' = book_of s ∨ book_step (book_of s) (book_of s'))
  ∧ (∀ t g todo held, tasks s !! t = Some (Waiting g todo held) →
       grantable s g ↔ free_for (book_of s) (g_lock g) (g_mode g))
  ∧ (∀ t t' h h' l m m', t ≠ t' → book_of s !! t = Some h → book_of s !! t' = Some h' → (l, m) ∈ h → (l, m') ∈ h' →
       m = Shared ∧ m' = Shared).
Proof.
  intros Hi%reachable_inv Hs. split_and!; [by eapply step_book|intros; by eapply grantable_free|].
  intros t t' h h' l m m' Hne. rewrite !lookup_book_of.
  destruct (tasks s !! t) as [p|] eqn:Ht; [|done]. destruct (tasks s !! t') as [p'|] eqn:Ht'; [|done].
  intros [= <-] [= <-] (g & [= -> ->] & Hg)%list_elem_of_fmap (g' & Heq & Hg')%list_elem_of_fmap.
  unfold named in Heq. injection Heq as Hl ->. eapply (inv_excl s Hi t t'); eauto.
  by apply (same_lock s t t' p p' g g' Hi Ht Ht' (held_refs _ _ Hg) (held_refs _ _ Hg')).
Qed.

Definition running (p : phase) : Prop := match p with Waiting _ _ _ => False | _ => True end.
Definition wants_key (p : phase) : Prop :=
  match p with Waiting g _ _ => match g_lock g with KeyLock _ _ => True | BucketLock _ => False end | _ => False end.

#[global] Instance running_dec p : Decision (running p).
Proof. destruct p; cbn; apply _. Defined.
#[global] Instance wants_key_dec p : Decision (wants_key p).
Proof. destruct p as [|g|]; cbn; [apply _|destruct (g_lock g); apply _|apply _]. Defined.

(** A request can take its next action by itself. *)
Definition can_run (s : state) (t : nat) : Prop :=
  ∃ p, tasks s !! t = Some p ∧ running p.

(** A lock somebody waits for and nobody holds, so that whoever is first in its
    queue gets it. *)
Definition free_and_wanted (s : state) (id : lock_id) : Prop :=
  (∃ t g todo held, tasks s !! t = Some (Waiting g todo held) ∧ g_id g = id)
  ∧ ∀ t p g, tasks s !! t = Some p → g ∈ held_of p → g_id g ≠ id.

(** Requests that wait hold bucket locks only. *)
Lemma waiting_free s t g todo held :
  inv s → (∀ t' q, tasks s !! t' = Some q → ∃ g todo held, q = Waiting g todo held) →
  tasks s !! t = Some (Waiting g todo held) → (∀ b, g_lock g ≠ BucketLock b) →
  ∀ t' p' g', tasks s !! t' = Some p' → g' ∈ held_of p' → g_id g' ≠ g_id g.
Proof.
  intros Hi Hwait Ht Hnb t' p' g' Ht' Hg' Hid. destruct (Hwait t' p' Ht') as (g1 & todo1 & held1 & ->).
  pose proof (inv_refs s Hi _ _ g Ht ltac:(by left)) as H1.
  pose proof (inv_refs s Hi _ _ g' Ht' (held_refs _ _ Hg')) as H2. rewrite Hid in H2.
  destruct (inv_shape s Hi _ _ Ht') as [(b & _ & -> & _)|(b & k & g2 & _ & _ & -> & Hb)]; cbn in Hg'.
  - by apply not_elem_of_nil in Hg'.
  - apply list_elem_of_singleton in Hg' as ->. apply (Hnb b). rewrite <- Hb. by eapply (inv_inj s Hi).
Qed.

(** The engine never deadlocks.  In every reachable state with a request in
    progress some request can take its next action by itself, or some lock that
    is waited for is held by nobody: the locks are always taken in the order
    bucket, key. *)
Theorem locks_progress cancel s t p :
  reachable cancel s → tasks s !! t = Some p →
  (∃ t', can_run s t') ∨ ∃ id, free_and_wanted s id.
Proof.
  intros Hi%reachable_inv Ht.
  destruct (decide (map_Exists (λ _, running) (tasks s)))
    as [(t' & q & Hq & Hrun)|Hall]; [left; by exists t', q|right].
  assert (∀ t' q, tasks s !! t' = Some q → ∃ g todo held, q = Waiting g todo held) as Hwait.
  { intros t' q Hq. destruct q as [todo held|g todo held|l held]; [|eauto|]; exfalso; apply Hall; by eexists _, _. }
  destruct (decide (map_Exists (λ _, wants_key) (tasks s)))
    as [(t' & q & Hq & Hkey)|Hnone].
  - destruct (Hwait t' q Hq) as (g & todo & held & ->). exists (g_id g). split; [naive_solver|].
    eapply waiting_free; [done..|]. intros b Hb. cbn in Hkey. by rewrite Hb in Hkey.
  - destruct (Hwait t p Ht) as (g & todo & held & ->). exists (g_id g). split; [naive_solver|].
    intros t1 p1 g1 Ht1 Hg1 _. destruct (Hwait t1 p1 Ht1) as (g2 & todo2 & held2 & ->).
    destruct (inv_shape s Hi _ _ Ht1) as [(b & _ & -> & _)|(b & k & g' & Hg' & _)].
    + by apply not_elem_of_nil in Hg1.
    + apply Hnone. eexists _, _. split; [done|]. cbn. by rewrite Hg'.
Qed.

(** A request uses the entry of a name: it owns a clone of its [Arc], or has just
    dropped it and is about to look at the entry. *)
Definition uses (p : phase) (l : lock) : Prop :=
  l ∈ g_lock <$> refs_of p ∨ ∃ held, p = Releasing l held.

Definition in_use (s : state) : Prop :=
  ∀ l, is_Some (table s !! l) → ∃ t p, tasks s !! t = Some p ∧ uses p l.

(** A count above one means some request owns a clone. *)
Lemma strong_count_more s id : strong_count s id ≠ 1 →
  ∃ t p g, tasks s !! t = Some p ∧ g ∈ refs_of p ∧ g_id g = id.
Proof.
  unfold strong_count. intros Hsum.
  assert (∃ x, x ∈ map_to_list (tasks s) ∧ length (filter (λ g, g_id g = id) (refs_of x.2)) ≠ 0) as ([t p] & Hx & Hlen).
  { induction (map_to_list (tasks s)) as [|[t p] l IH]; cbn in Hsum; [done|].
    destruct (decide (length (filter (λ g, g_id g = id) (refs_of p)) = 0)) as [Hz|Hz].
    - destruct IH as (x & ? & ?); [lia|]. exists x. split; [by right|done].
    - exists (t, p). split; [by left|done]. }
  apply elem_of_map_to_list in Hx. cbn in Hlen.
  destruct (filter _ _) as [|g gs] eqn:Hf; [done|].
  assert (g ∈ filter (λ g, g_id g = id) (refs_of p)) as Hg by (rewrite Hf; by left).
  apply list_elem_of_filter in Hg as [? ?]. by exists t, p, g.
Qed.

(** A changed request leaves an entry in use if it still uses it. *)
Lemma in_use_with_phase s t p p' :
  in_use s → tasks s !! t = Some p → (∀ l, uses p l → uses p' l) → in_use (with_phase t p' s).
Proof.
  intros Hu Ht Hsub l Hl. destruct (Hu l Hl) as (t' & q & Hq & Huse). destruct (decide (t' = t)) as [->|Hne].
  - exists t, p'. split; [apply lookup_insert_eq|]. apply Hsub. congruence.
  - exists t', q. split; [cbn; by rewrite lookup_insert_ne|done].
Qed.

Lemma uses_refs p p' : refs_of p ⊆ refs_of p' → (∀ l held, p ≠ Releasing l held) → ∀ l, uses p l → uses p' l.
Proof.
  intros Hsub Hne l [(g & -> & Hg)%list_elem_of_fmap|[held Hr]]; [|by apply Hne in Hr].
  left. apply list_elem_of_fmap. eauto.
Qed.

(** After the look at an entry the request no longer accounts for it: either the
    entry is gone, or another request's clone kept it. *)
Lemma in_use_remove s t l held :
  inv s → tasks s !! t = Some (Releasing l held) → in_use s →
  in_use (with_phase t (Running [] held) (remove_entry s l)).
Proof.
  intros Hi Ht Hu l' Hl'. destruct (decide (l' = l)) as [->|Hne].
  - unfold remove_entry in Hl'. destruct (table s !! l) as [id|] eqn:Hl; cbn in Hl';
      [|rewrite Hl in Hl'; by destruct Hl'].
    case_bool_decide as Hc; cbn in Hl'; [rewrite lookup_delete_eq in Hl'; by destruct Hl'|].
    destruct (strong_count_more s id Hc) as (t' & p & g & Hp & Hg & Hid).
    assert (g_lock g = l) as Hgl.
    { eapply (inv_inj s Hi); [|done]. rewrite <- Hid. exact (inv_refs s Hi _ _ _ Hp Hg). }
    assert (l ∈ g_lock <$> refs_of p) as Huse by (apply list_elem_of_fmap; eauto).
    unfold remove_entry. rewrite Hl, bool_decide_eq_false_2 by done. cbn.
    destruct (decide (t' = t)) as [->|Hne]; [exists t, (Running [] held)|exists t', p].
    + split; [apply lookup_insert_eq|left]. rewrite Ht in Hp. by injection Hp as <-.
    + split; [by rewrite lookup_insert_ne|by left].
  - assert (is_Some (table s !! l')) as Hl0.
    { revert Hl'. unfold remove_entry. destruct (table s !! l); [|done]. case_bool_decide; [|done].
      cbn. by rewrite lookup_delete_ne. }
    destruct (Hu l' Hl0) as (t' & p & Hp & Huse).
    pose proof (proj2 (inv_remove_entry s l Hi)) as Htasks.
    destruct (decide (t' = t)) as [->|Hnt]; [exists t, (Running [] held)|exists t', p]; cbn; rewrite Htasks.
    + split; [apply lookup_insert_eq|]. rewrite Ht in Hp. injection Hp as <-.
      destruct Huse as [?|[held' [= ->]]]; [by left|done].
    + split; [by rewrite lookup_insert_ne|done].
Qed.

Lemma in_use_step s s' : inv s → step false s s' → in_use s → in_use s'.
Proof.
  intros Hi Hstep. revert Hi.
  destruct Hstep as [s1 t w Ht|s1 t l m todo held Ht|s1 t g todo held Ht Hg|s1 t g held Ht|s1 t l held Ht
                    |s1 t Ht|s1 t g todo held Hc Ht]; intros Hi Hu; [..|done].
  - intros l Hl. destruct (Hu l Hl) as (t' & q & Hq & Huse). exists t', q. split; [|done].
    cbn. rewrite lookup_insert_ne; [done|congruence].
  - destruct (decide (is_Some (table s1 !! l))) as [[id Hl]|Hl].
    + unfold clone_entry. rewrite Hl. cbn. eapply in_use_with_phase; [done..|]. apply uses_refs; [|done].
      intros g Hg. by right.
    + intros l' Hl'. destruct (decide (l' = l)) as [->|Hne].
      { exists t, (Waiting (mkGuard l m (clone_entry s1 l).1) todo held). split; [apply lookup_insert_eq|].
        left. cbn. by left. }
      apply eq_None_not_Some in Hl. unfold clone_entry in *. rewrite Hl in *. cbn in *.
      rewrite lookup_insert_ne in Hl' by done.
      refine (in_use_with_phase s1 t _ (Waiting (mkGuard l m (next_id s1)) todo held) Hu Ht _ l' Hl').
      apply uses_refs; [|done]. intros g Hg. by right.
  - eapply in_use_with_phase; [done..|]. by apply uses_refs.
  - eapply in_use_with_phase; [done..|]. intros l [Hl|[? ?]]; [|done]. cbn in Hl.
    apply elem_of_cons in Hl as [->|Hl]; [right; by eexists|by left].
  - by apply in_use_remove.
  - intros l Hl. destruct (Hu l Hl) as (t' & q & Hq & Huse). exists t', q. split; [|done].
    cbn. rewrite lookup_delete_ne; [done|]. intros <-. rewrite Ht in Hq. injection Hq as <-.
    destruct Huse as [H|[? H]]; [by apply not_elem_of_nil in H|done].
Qed.

(** C20: while no request is cancelled as it waits, the tables are exactly as large
    as the concurrent work: every entry is one that some request in progress
    holds, waits for or is releasing, and with no request in progress the tables
    are empty. *)
Theorem tables_bounded s :
  reachable false s → in_use s ∧ (tasks s = ∅ → table s = ∅).
Proof.
  intros Hr. assert (in_use s) as Hu.
  { assert (inv initial) as H0 by by split. assert (in_use initial) as H1 by (intros l [? ?]; done).
    revert H0 H1. unfold reachable in Hr. induction Hr; eauto using inv_step, in_use_step. }
  split; [done|]. intros Hnone. apply map_eq. intros l. rewrite lookup_empty.
  destruct (table s !! l) eqn:Hl; [|done]. destruct (Hu l ltac:(eauto)) as (t & p & Ht & _).
  by rewrite Hnone in Ht.
Qed.

(** ** Runs *)

(** Follows a run one action at a time; what an action asks of the state it starts
    in is checked by evaluation. *)
Local Ltac follow tac := eapply rtc_l; [tac; by vm_compute|].

(** A request that gets the first lock it asks for. *)
Definition take_first (t : nat) (w : work) (l : lock) (m : mode) (todo : list (lock * mode)) (s : state) : state :=
  let s1 := with_phase t (Running (plan w) []) s in
  let '(id, s2) := clone_entry s1 l in
  with_phase t (Running todo [mkGuard l m id]) (with_phase t (Waiting (mkGuard l m id) todo []) s2).

Lemma take_first_reach cancel t w l m todo s :
  reachable cancel s → tasks s !! t = None → plan w = (l, m) :: todo →
  (let s1 := with_phase t (Running (plan w) []) s in
   grantable (with_phase t (Waiting (mkGuard l m (clone_entry s1 l).1) todo []) (clone_entry s1 l).2)
     (mkGuard l m (clone_entry s1 l).1)) →
  reachable cancel (take_first t w l m todo s).
Proof.
  intros Hr Ht Hw Hg. unfold take_first. set (s1 := with_phase t (Running (plan w) []) s) in *. cbn zeta in Hg.
  assert (step cancel s1 (with_phase t (Waiting (mkGuard l m (clone_entry s1 l).1) todo []) (clone_entry s1 l).2)) as H2.
  { apply step_clone. cbn. by rewrite lookup_insert_eq, Hw. }
  destruct (clone_entry s1 l) as [id s2] eqn:Hc. cbn [fst snd] in *.
  eapply rtc_r; [eapply rtc_r; [eapply rtc_r; [exact Hr|by apply step_spawn]|exact H2]|].
  eapply step_grant; [cbn; apply lookup_insert_eq|done].
Qed.

(** Two writers of one bucket, each with the bucket's lock. *)
Definition two_writers : state :=
  take_first 1 (WriteKey (b#"b") (b#"l")) (BucketLock (b#"b")) Shared [(KeyLock (b#"b") (b#"l"), Exclusive)]
    (take_first 0 (WriteKey (b#"b") (b#"k")) (BucketLock (b#"b")) Shared [(KeyLock (b#"b") (b#"k"), Exclusive)]
       initial).

Lemma two_writers_reachable cancel : reachable cancel two_writers.
Proof.
  apply take_first_reach; [|by vm_compute|by vm_compute|apply (bool_decide_unpack _); by vm_compute].
  apply take_first_reach; [apply rtc_refl|by vm_compute|by vm_compute|apply (bool_decide_unpack _); by vm_compute].
Qed.

(** The first writer goes on to its key while the second has the bucket's lock too. *)
Lemma tables_refine_locks_witness :
  let s' := with_phase 0 (Waiting (mkGuard (KeyLock (b#"b") (b#"k")) Exclusive 1) []
    [mkGuard (BucketLock (b#"b")) Shared 0]) (clone_entry two_writers (KeyLock (b#"b") (b#"k"))).2 in
  reachable true two_writers ∧ step true two_writers s'
  ∧ (book_of s' = book_of two_writers ∨ book_step (book_of two_writers) (book_of s')).
Proof.
  cbn zeta. set (s' := with_phase _ _ _).
  assert (step true two_writers s') as Hs by exact (step_clone true two_writers 0 _ _ _ _ eq_refl).
  split; [apply two_writers_reachable|]. split; [exact Hs|].
  exact (proj1 (tables_refine_locks true two_writers s' (two_writers_reachable true) Hs)).
Defined.

Lemma locks_progress_witness :
  reachable true two_writers ∧ ((∃ t, can_run two_writers t) ∨ ∃ id, free_and_wanted two_writers id).
Proof.
  split; [apply two_writers_reachable|].
  eapply (locks_progress true two_writers 0); [apply two_writers_reachable|by vm_compute].
Defined.

Lemma tables_bounded_witness : reachable false two_writers ∧ in_use two_writers.
Proof. split; [apply two_writers_reachable|]. apply tables_bounded, two_writers_reachable. Defined.

(** A request cancelled while it waits may leave its entry behind.  The holder
    of a bucket's lock looks at the entry while another request waits for it and
    leaves it there; the other is cancelled, which drops its clone without a look
    at the table, and the entry stays with no request in progress. *)
Theorem cancelled_wait_leaks_entry :
  ∃ s, reachable true s ∧ tasks s = ∅ ∧ is_Some (table s !! BucketLock (b#"b")).
Proof.
  eexists. split_and!.
  - follow ltac:(apply (step_spawn _ _ 0 (ChangeBucket (b#"b")))).
    follow ltac:(eapply (step_clone _ _ 0)).
    eapply rtc_l; [eapply (step_grant _ _ 0); [by vm_compute|apply (bool_decide_unpack _); by vm_compute]|].
    follow ltac:(apply (step_spawn _ _ 1 (ChangeBucket (b#"b")))).
    follow ltac:(eapply (step_clone _ _ 1)).
    follow ltac:(eapply (step_unlock _ _ 0)).
    follow ltac:(eapply (step_remove _ _ 0)).
    follow ltac:(eapply (step_done _ _ 0)).
    eapply rtc_l; [eapply (step_cancel _ _ 1); [done|by vm_compute]|].
    follow ltac:(eapply (step_done _ _ 1)). apply rtc_refl.
  - by vm_compute.
  - eexists. by vm_compute.
Qed.
