(* ===== verification/RustNum.v ===== *)
(** * Text, continued: [trim], [rsplit_once], decimal numbers, IP addresses

    The rest of the standard library the front end and the server use: white
    space, splitting at the last separator, printing and parsing a [u64], and
    the recogniser of textual IP addresses. *)

From S2P Require Import Prelude RustStr Checksum.

(** ** White space *)

(** [char::is_whitespace]: the Unicode property [White_Space]. *)
Definition is_whitespace (c : N) : bool :=
  ((0x9 <=? c) && (c <=? 0xD) || (c =? 0x20) || (c =? 0x85) || (c =? 0xA0) || (c =? 0x1680)
   || (0x2000 <=? c) && (c <=? 0x200A) || (c =? 0x2028) || (c =? 0x2029) || (c =? 0x202F)
   || (c =? 0x205F) || (c =? 0x3000))%N.

Fixpoint skip_while {A} (f : A → bool) (l : list A) : list A :=
  match l with
  | [] => []
  | x :: l' => if f x then skip_while f l' else l
  end.

(** [str::trim]; a Rust string always decodes. *)
Definition trim (s : str) : str :=
  match chars s with
  | Some cs => of_chars (reverse (skip_while is_whitespace (reverse (skip_while is_whitespace cs))))
  | None => s
  end.

(** ** Splitting once *)

(** [str::split_once] and [str::rsplit_once] at a one-byte separator. *)
Fixpoint split_once (c : byte) (s : str) : option (str * str) :=
  match s with
  | [] => None
  | b :: s' => if bool_decide (b = c) then Some ([], s') else (λ '(x, y), (b :: x, y)) <$> split_once c s'
  end.

Definition rsplit_once (c : byte) (s : str) : option (str * str) :=
  (λ '(x, y), (reverse y, reverse x)) <$> split_once c (reverse s).

Lemma split_once_Some c s x y : split_once c s = Some (x, y) ↔ s = x ++ c :: y ∧ c ∉ x.
Proof.
  revert x. induction s as [|b s IH]; intros x; cbn.
  - split; [done|]. intros [H _]. by destruct x.
  - case_bool_decide as Hb.
    + subst b. split.
      * intros [= <- <-]. split; [done|apply not_elem_of_nil].
      * intros [H Hx]. destruct x as [|c' x]; inversion H; subst; [done|]. exfalso. apply Hx. by left.
    + rewrite fmap_Some. split.
      * intros ([x' y'] & H & [= -> ->]). apply IH in H as [-> Hx]. split; [done|].
        intros [->|?]%elem_of_cons; done.
      * intros [H Hx]. destruct x as [|b' x]; inversion H; subst; [done|]. exists (x, y).
        split; [|done]. apply IH. split; [done|]. intros ?. apply Hx. by right.
Qed.

Lemma rsplit_once_Some c s x y : rsplit_once c s = Some (x, y) ↔ s = x ++ c :: y ∧ c ∉ y.
Proof.
  unfold rsplit_once. rewrite fmap_Some. split.
  - intros ([a b] & [Hs Ha]%split_once_Some & [= -> ->]). split.
    + rewrite <- (reverse_involutive s), Hs, reverse_app, reverse_cons, <- (assoc_L (++)). done.
    + by rewrite elem_of_reverse.
  - intros [-> Hy]. exists (reverse y, reverse x). rewrite !reverse_involutive. split; [|done].
    apply split_once_Some. rewrite reverse_app, reverse_cons, <- (assoc_L (++)). split; [done|].
    by rewrite elem_of_reverse.
Qed.

Lemma rsplit_once_None c s : rsplit_once c s = None → c ∉ s.
Proof.
  intros Hn Hin. apply list_elem_of_split in Hin as (x & y & ->).
  assert (∃ x' y', x ++ c :: y = x' ++ c :: y' ∧ c ∉ y') as (x' & y' & Heq & Hy).
  { clear Hn. revert x. induction y as [|b y IH] using rev_ind; intros x.
    - exists x, []. split; [done|apply not_elem_of_nil].
    - destruct (decide (b = c)) as [->|Hb].
      + exists (x ++ c :: y), []. rewrite <- (assoc_L (++)). split; [done|apply not_elem_of_nil].
      + destruct (IH x) as (x' & y' & Heq & Hy). exists x', (y' ++ [b]).
        replace (x ++ c :: y ++ [b]) with ((x ++ c :: y) ++ [b]) by by rewrite <- (assoc_L (++)).
        rewrite Heq, <- (assoc_L (++)). split; [done|].
        intros [?|Hc%list_elem_of_singleton]%elem_of_app; done. }
  assert (rsplit_once c (x ++ c :: y) = Some (x', y')) as H by by apply rsplit_once_Some.
  by rewrite Hn in H.
Qed.

(** ** Decimal numbers *)

(** One decimal digit, and its value. *)
Definition digit (d : N) : byte := as_u8 (0x30 + d).
Definition digit_value (b : byte) : option N := if is_ascii_digit b then Some (u8 b - 0x30)%N else None.

(** [u64::to_string]; the largest [u64] has twenty digits. *)
Fixpoint to_string_fuel (f : nat) (n : N) : str :=
  match f with
  | O => []
  | S f' => (if (n <? 10)%N then [] else to_string_fuel f' (n / 10)) ++ [digit (n mod 10)]
  end.

Definition to_string (n : N) : str := to_string_fuel 20 n.

(** The loop of [u64::from_str_radix] with its overflow checks. *)
Definition push_digit (acc : option N) (b : byte) : option N :=
  v ← acc; d ← digit_value b;
  let m := (v * 10)%N in
  if (u64_MAX <? m)%N then None else if (u64_MAX <? m + d)%N then None else Some (m + d)%N.

(** [str::parse::<u64>]: digits, with one [+] allowed before them. *)
Definition parse_u64 (s : str) : option N :=
  match s with
  | [] => None
  | [b] => push_digit (Some 0%N) b
  | b :: rest => if bool_decide (b = c#"+") then fold_left push_digit rest (Some 0%N) else fold_left push_digit s (Some 0%N)
  end.

Lemma digit_value_digit d : (d < 10)%N → digit_value (digit d) = Some d.
Proof.
  intros Hd. unfold digit_value, digit, is_ascii_digit.
  assert (u8 (as_u8 (0x30 + d)) = 0x30 + d)%N as Hu by (apply as_u8_u8; lia).
  destruct (in_range _ _ _) eqn:Hr.
  - rewrite Hu. f_equal. lia.
  - assert (in_range 0x30 0x39 (as_u8 (0x30 + d)) = true) as Ht by (apply in_range_spec; lia). congruence.
Qed.

(** One step of the loop, on the digit that comes last. *)
Lemma push_last_digit n : (n <= u64_MAX)%N → push_digit (Some (n / 10)%N) (digit (n mod 10)) = Some n.
Proof.
  intros Hn. assert (n = 10 * (n / 10) + n mod 10)%N as Hdm by (apply N.div_mod; lia).
  assert (n mod 10 < 10)%N as Hm by (apply N.mod_lt; lia).
  unfold push_digit. cbn -[N.mul N.add N.div N.modulo N.ltb u64_MAX digit].
  rewrite digit_value_digit by done. cbn -[N.mul N.add N.div N.modulo N.ltb u64_MAX].
  generalize dependent (n mod 10)%N. generalize dependent (n / 10)%N. intros q r Hdm Hr.
  rewrite (proj2 (N.ltb_ge _ (q * 10))) by lia. rewrite (proj2 (N.ltb_ge _ (q * 10 + r))) by lia. f_equal. lia.
Qed.

Lemma to_string_fuel_parse f n : (n < 10 ^ N.of_nat (S f))%N → (n <= u64_MAX)%N →
  fold_left push_digit (to_string_fuel (S f) n) (Some 0%N) = Some n.
Proof.
  revert n. induction f as [|f IH]; intros n Hf Hn.
  - cbn [to_string_fuel]. rewrite fold_left_app. rewrite (proj2 (N.ltb_lt n 10)) by exact Hf.
    pose proof (push_last_digit n Hn) as Hp. by rewrite N.div_small in Hp by exact Hf.
  - remember (S f) as f' eqn:Hf'. cbn [to_string_fuel]. rewrite fold_left_app. cbn [fold_left].
    rewrite <- (push_last_digit n Hn). f_equal. destruct (N.ltb_spec n 10) as [Hlt|Hge].
    + by rewrite N.div_small.
    + apply IH; [|assert (n / 10 <= n)%N by (apply N.Div0.div_le_upper_bound; lia); lia].
      apply N.Div0.div_lt_upper_bound. rewrite Nat2N.inj_succ, N.pow_succ_r' in Hf. lia.
Qed.

Lemma to_string_digits f n : Forall (λ b, is_ascii_digit b = true) (to_string_fuel f n).
Proof.
  revert n. induction f as [|f IH]; intros n; cbn [to_string_fuel]; [constructor|].
  apply Forall_app. split; [destruct (n <? 10)%N; [constructor|apply IH]|].
  apply Forall_singleton. unfold digit.
  assert (n mod 10 < 10)%N as Hm by (apply N.mod_lt; lia). revert Hm. generalize (n mod 10)%N as d. intros d Hd.
  apply in_range_spec. rewrite as_u8_u8 by lia. lia.
Qed.

Lemma to_string_nonempty n : to_string n ≠ [].
Proof. unfold to_string. cbn [to_string_fuel]. by destruct (if (n <? 10)%N then _ else _). Qed.

(** Printing and parsing a number gives it back. *)
Lemma parse_to_string n : (n <= u64_MAX)%N → parse_u64 (to_string n) = Some n.
Proof.
  intros Hn. assert (n < 10 ^ N.of_nat 20)%N as Hl by (eapply N.le_lt_trans; [exact Hn|done]).
  pose proof (to_string_fuel_parse 19 n Hl Hn) as Hp.
  pose proof (to_string_digits 20 n) as Hd. fold (to_string n) in Hp, Hd.
  pose proof (to_string_nonempty n). unfold parse_u64. destruct (to_string n) as [|b [|b' s]]; [done|done|].
  case_bool_decide as Hb; [|done]. subst b. inversion Hd as [|? ? Hb _]; subst. by vm_compute in Hb.
Qed.

(** ** IP addresses

    The recogniser behind [str::parse::<IpAddr>]; only whether it succeeds is
    used, so the address itself is not built. *)

(** [char::to_digit], for the radices ten and sixteen. *)
Definition to_digit (radix : N) (b : byte) : option N :=
  let v := if is_ascii_digit b then Some (u8 b - 0x30)%N
           else if in_range 0x61 0x66 b then Some (u8 b - 0x61 + 10)%N
           else if in_range 0x41 0x46 b then Some (u8 b - 0x41 + 10)%N
           else None in
  d ← v; if (d <? radix)%N then Some d else None.

(** The digits at the front of the input: how many, their value, and the rest. *)
Fixpoint read_digits (radix : N) (s : str) (count : nat) (acc : N) : nat * N * str :=
  match s with
  | b :: s' =>
      match to_digit radix b with
      | Some d => read_digits radix s' (S count) (acc * radix + d)
      | None => (count, acc, s)
      end
  | [] => (count, acc, [])
  end.

(** [read_number]: at least one digit and at most [max_digits], a value that
    fits, and no superfluous zero in front unless it is allowed. *)
Definition read_number (radix : N) (max_digits : nat) (allow_zero_prefix : bool) (max : N) (s : str) : option str :=
  let '(count, v, rest) := read_digits radix s 0 0 in
  if (max_digits <? count)%nat || (max <? v)%N || (count =? 0)%nat then None
  else if negb allow_zero_prefix && starts_with s [c#"0"] && (1 <? count)%nat then None
  else Some rest.

(** [read_separator]: the separator is expected before every part but the first. *)
Definition read_separator (sep : byte) (index : nat) (inner : str → option str) (s : str) : option str :=
  match index with
  | O => inner s
  | S _ => match s with b :: s' => if bool_decide (b = sep) then inner s' else None | [] => None end
  end.

Definition read_ipv4_addr (s : str) : option str :=
  let octet i := read_separator (c#".") i (read_number 10 3 false 255) in
  s1 ← octet 0 s; s2 ← octet 1 s1; s3 ← octet 2 s2; octet 3 s3.

(** [read_groups]: the number of groups read into [slots] slots from number [i]
    on, whether they end in an embedded IPv4 address, and the rest. *)
Fixpoint read_groups (slots i : nat) (s : str) : nat * bool * str :=
  match slots with
  | O => (i, false, s)
  | S slots' =>
      match (if (1 <=? slots')%nat then read_separator (c#":") i read_ipv4_addr s else None) with
      | Some s' => (i + 2, true, s')
      | None =>
          match read_separator (c#":") i (read_number 16 4 true 0xFFFF) s with
          | Some s' => read_groups slots' (S i) s'
          | None => (i, false, s)
          end
      end
  end.

Definition read_ipv6_addr (s : str) : option str :=
  let '(head_size, head_ipv4, s1) := read_groups 8 0 s in
  if (head_size =? 8)%nat then Some s1
  else if (head_ipv4 : bool) then None
  else match strip_prefix s1 (b#"::") with
       | None => None
       | Some s2 => Some (read_groups (8 - (head_size + 1)) 0 s2).2
       end.

(** [name.parse::<IpAddr>().is_ok()]. *)
Definition is_ip_addr (s : str) : bool :=
  match (match read_ipv4_addr s with Some rest => Some rest | None => read_ipv6_addr s end) with
  | Some [] => true
  | _ => false
  end.

Example ip_addresses :
  is_ip_addr <$> [b#"127.0.0.1"; b#"::1"; b#"1:2:3:4:5:6:7:8"; b#"::ffff:10.0.0.1"; b#"fe80::1:2"]
  = [true; true; true; true; true].
Proof. by vm_compute. Qed.

Example not_ip_addresses :
  is_ip_addr <$> [b#""; b#"127.0.0.01"; b#"256.0.0.1"; b#"1.2.3"; b#"1:2:3:4:5:6:7"; b#"::1::"; b#"s3.example.com"; b#"12345::"]
  = [false; false; false; false; false; false; false; false].
Proof. by vm_compute. Qed.
