(* ===== verification/Wire.v ===== *)
(** * The wire vocabulary: what the front end takes from [http] and [s3s]

    Headers are a parameter, with the little the front end relies on as laws;
    requests, responses and errors are plain records holding the fields the
    front end reads or sets.  A response field it leaves at its default has no
    counterpart here. *)

From S2P Require Import Prelude RustStr Checksum EngineError Fs Meta Layer.

(** ** Headers *)

Class HttpCrate := {
  HeaderMap : Type;
  HeaderName : Type;
  HeaderValue : Type;
  (** [HeaderName::from_static], for a name in lower case. *)
  from_static : str → HeaderName;
  (** [HeaderName::from_bytes]: a token in any case. *)
  from_bytes : str → option HeaderName;
  (** [HeaderMap::get] and [HeaderMap::contains_key]. *)
  get : HeaderMap → HeaderName → option HeaderValue;
  contains_key : HeaderMap → HeaderName → bool;
  (** [HeaderValue::to_str]. *)
  to_str : HeaderValue → option str;
}.

(** A token in lower case is its own name, and a key is in the map if it has a
    value. *)
Class HttpLaws (C : HttpCrate) : Prop := {
  from_bytes_static s : Forall (λ b, is_ascii_lowercase b || is_ascii_digit b || bool_decide (b = c#"-") = true) s →
    s ≠ [] → from_bytes s = Some (from_static s);
  contains_key_get m n : contains_key m n = true ↔ is_Some (get m n);
}.

(** The text of a header, if it is there and is text. *)
Definition header_text `{HttpCrate} (m : HeaderMap) (name : HeaderName) : option str := get m name ≫= to_str.

(** [s3s::TrailingHeaders]: what [read] shows once the body has been consumed,
    which is nothing if no trailer arrived. *)
Record TrailingHeaders `{HttpCrate} := mkTrailing { read_trailers : option HeaderMap }.

(** ** Errors *)

(** The [s3s::S3ErrorCode]s the program answers with. *)
Inductive S3ErrorCode :=
  | BadDigest
  | CBucketAlreadyOwnedByYou
  | CBucketNotEmpty
  | IncompleteBody
  | InternalError
  | InvalidAccessKeyId
  | CInvalidBucketName
  | CInvalidRange
  | InvalidRequest
  | KeyTooLongError
  | CNoSuchBucket
  | CNoSuchKey
  | ServiceUnavailable.

#[global] Instance s3_error_code_eq_dec : EqDecision S3ErrorCode.
Proof. solve_decision. Defined.

(** [s3s::S3Error], as [s3_error!] makes it: a code and perhaps a message. *)
Record S3Error := mkS3Error {
  err_code : S3ErrorCode;
  err_message : option str;
}.

#[global] Instance s3_error_eq_dec : EqDecision S3Error.
Proof. solve_decision. Defined.

(** [s3_error!] with a message and without. *)
Definition s3_error (code : S3ErrorCode) (message : str) : S3Error := mkS3Error code (Some message).
Definition s3_error_bare (code : S3ErrorCode) : S3Error := mkS3Error code None.

(** ** Bodies *)

(** A [StreamingBlob]: the chunks of a request body, or the failure of the
    connection.  The failure's payload is never looked at. *)
Abbreviation StreamingBlob := (list (result str unit)).
