(* ===== verification/ApiError.v ===== *)
(** * Engine failures as S3 errors: [crates/api/src/error.rs]

    The one table from [EngineError] to the wire, and what it keeps apart: a
    client can tell every engine condition from every other, and learns nothing
    about an I/O failure but that there was one. *)

From S2P Require Import Prelude RustStr Checksum EngineError Fs Meta Layer Wire.

(** [map_engine_err]. *)
Definition map_engine_err (err : EngineError) : S3Error :=
  match err with
  | NoSuchBucket => s3_error CNoSuchBucket (b#"The specified bucket does not exist")
  | BucketAlreadyExists =>
      s3_error CBucketAlreadyOwnedByYou
        (b#"Your previous request to create the named bucket succeeded and you already own it")
  | BucketNotEmpty => s3_error CBucketNotEmpty (b#"The bucket you tried to delete is not empty")
  | InvalidBucketName => s3_error CInvalidBucketName (b#"The specified bucket is not valid")
  | NoSuchKey => s3_error CNoSuchKey (b#"The specified key does not exist")
  | InvalidRange => s3_error CInvalidRange (b#"The requested range is not satisfiable")
  | KeyTooLong => s3_error KeyTooLongError (b#"Your key is too long")
  | StorageFull =>
      s3_error ServiceUnavailable
        (b#"The server is out of storage capacity to complete the request; retry later")
  | Io _ => s3_error_bare InternalError
  end.

(** Two engine errors look the same on the wire only if they are the same, or
    both are I/O failures. *)
Lemma map_engine_err_code e e' :
  err_code (map_engine_err e) = err_code (map_engine_err e') → e = e' ∨ ∃ io io', e = Io io ∧ e' = Io io'.
Proof. destruct e, e'; cbn; intros [=]; eauto. Qed.

(** An I/O failure never reaches the wire. *)
Lemma map_engine_err_io e : err_message (map_engine_err e) = None ↔ ∃ io, e = Io io.
Proof. destruct e; cbn; split; intros H; (done || (by destruct H) || eauto). Qed.
