(* ===== verification/ApiChecksum.v ===== *)
(** * Verifying a client's checksum: [crates/api/src/checksum.rs]

    Which checksum a [PutObject] asks for, the stream that checks it as the body
    passes, and the shape of what goes back.  The stream is the state machine
    the source polls; its theorem says what the engine sees of it. *)

From S2P Require Import Prelude RustStr RustNum Checksum EngineError Fs Meta Layer FsBase Wire ApiError.

Section api_checksum.
Context {HC : HttpCrate} {HS : HashCrates}.

(** ** Which checksum *)

Definition X_AMZ_TRAILER : HeaderName := from_static (b#"x-amz-trailer").
Definition CHECKSUM_TRAILER_PREFIX : str := b#"x-amz-checksum-".

(** Where the expected value is read from. *)
Inductive Expected :=
  | Immediate (value : str)
  | Trailer (handle : TrailingHeaders) (name : HeaderName).

Record PutChecksum := mkPutChecksum {
  pc_algorithm : ChecksumAlgorithm;
  pc_expected : Expected;
}.

(** [Expected::resolve]. *)
Definition resolve_expected (e : Expected) : option str :=
  match e with
  | Immediate value => Some value
  | Trailer handle name => map ← read_trailers handle; header_text map name
  end.

(** The part of [PutObjectInput] the front end reads. *)
Record PutObjectInput := mkPutObjectInput {
  pi_bucket : str;
  pi_key : str;
  pi_body : option StreamingBlob;
  pi_content_type : option str;
  pi_metadata : option (gmap str str);
  pi_checksum_crc32 : option str;
  pi_checksum_crc32c : option str;
  pi_checksum_sha1 : option str;
  pi_checksum_sha256 : option str;
  pi_checksum_crc64nvme : option str;
}.

(** The loop over the header forms. *)
Fixpoint first_header (fields : list (ChecksumAlgorithm * option str)) : option PutChecksum :=
  match fields with
  | [] => None
  | (algorithm, Some value) :: _ => Some (mkPutChecksum algorithm (Immediate value))
  | (_, None) :: rest => first_header rest
  end.

Definition header_form (input : PutObjectInput) : list (ChecksumAlgorithm * option str) :=
  [(Crc32, pi_checksum_crc32 input); (Crc32c, pi_checksum_crc32c input); (Sha1, pi_checksum_sha1 input);
   (Sha256, pi_checksum_sha256 input); (Crc64Nvme, pi_checksum_crc64nvme input)].

(** The loop over the entries of [x-amz-trailer]. *)
Fixpoint first_trailer (handle : TrailingHeaders) (tokens : list str) : option PutChecksum :=
  match tokens with
  | [] => None
  | token :: rest =>
      let token := trim token in
      match strip_prefix token CHECKSUM_TRAILER_PREFIX with
      | None => first_trailer handle rest
      | Some algo_name =>
          match from_name algo_name with
          | None => first_trailer handle rest
          | Some algorithm =>
              match from_bytes token with
              | None => first_trailer handle rest
              | Some name => Some (mkPutChecksum algorithm (Trailer handle name))
              end
          end
      end
  end.

(** [detect]. *)
Definition detect (input : PutObjectInput) (headers : HeaderMap) (trailing : option TrailingHeaders)
    : option PutChecksum :=
  match first_header (header_form input) with
  | Some c => Some c
  | None =>
      handle ← trailing;
      declared ← header_text headers X_AMZ_TRAILER;
      first_trailer handle (split (c#",") declared)
  end.

(** ** Verification *)

(** [ChecksumError::algorithm]. *)
Definition checksum_error_algorithm (e : ChecksumError) : ChecksumAlgorithm :=
  match e with Mismatch a | MissingTrailer a => a end.

(** [impl Display for ChecksumError]. *)
Definition checksum_error_display (e : ChecksumError) : str :=
  match e with
  | Mismatch a => as_str a ++ b#" checksum mismatch"
  | MissingTrailer a => as_str a ++ b#" checksum trailer declared but not sent"
  end.

(** [evaluate]. *)
Definition evaluate (algorithm : ChecksumAlgorithm) (computed expected : option str) : option ChecksumError :=
  match computed, expected with
  | Some computed, Some expected =>
      if negb (bool_decide (computed = expected)) then Some (Mismatch algorithm) else None
  | Some _, None => Some (MissingTrailer algorithm)
  | _, _ => None
  end.

Record VerifyingStream := mkVerifyingStream {
  vs_inner : BoxByteStream;
  vs_algorithm : ChecksumAlgorithm;
  vs_checksummer : option Checksummer;
  vs_expected : option Expected;
  vs_finished : bool;
}.

(** [VerifyingStream::new]. *)
Definition new_verifying (inner : BoxByteStream) (checksum : PutChecksum) : VerifyingStream :=
  mkVerifyingStream inner (pc_algorithm checksum) (Some (hasher (pc_algorithm checksum)))
    (Some (pc_expected checksum)) false.

(** [poll_next], when the inner stream is ready: the item, or [None] at the end. *)
Definition poll_next (this : VerifyingStream) : option (result str io_error) * VerifyingStream :=
  if vs_finished this then (None, this)
  else
    match vs_inner this with
    | Ok chunk :: inner =>
        (Some (Ok chunk),
         mkVerifyingStream inner (vs_algorithm this) ((λ c, update c chunk) <$> vs_checksummer this)
           (vs_expected this) false)
    | Err e :: inner =>
        (Some (Err e), mkVerifyingStream inner (vs_algorithm this) (vs_checksummer this) (vs_expected this) true)
    | [] =>
        let computed := finalize_base64 <$> vs_checksummer this in
        let expected := vs_expected this ≫= resolve_expected in
        (match evaluate (vs_algorithm this) computed expected with
         | Some err => Some (Err (io_error_other (BoxedChecksum err)))
         | None => None
         end,
         mkVerifyingStream [] (vs_algorithm this) None None true)
    end.

(** [StreamExt::boxed]: the items polled until the end. *)
Fixpoint polled (fuel : nat) (this : VerifyingStream) : BoxByteStream :=
  match fuel with
  | O => []
  | S fuel' =>
      match poll_next this with
      | (None, _) => []
      | (Some item, this') => item :: polled fuel' this'
      end
  end.

(** Every poll but the last two takes an item of the inner stream. *)
Definition boxed (this : VerifyingStream) : BoxByteStream := polled (S (S (length (vs_inner this)))) this.

(** ** Responses *)

(** [put_error]. *)
Definition put_error (err : EngineError) : S3Error :=
  match err with
  | Io io =>
      match get_ref io with
      | Some (BoxedChecksum e) =>
          let algorithm := as_str (checksum_error_algorithm e) in
          match e with
          | Mismatch _ =>
              s3_error BadDigest
                (b#"The " ++ algorithm
                 ++ b#" checksum you specified did not match the checksum of the object received.")
          | MissingTrailer _ =>
              s3_error InvalidRequest
                (b#"A " ++ algorithm
                 ++ b#" checksum trailer was declared with x-amz-trailer but no trailing checksum was sent.")
          end
      | _ => map_engine_err err
      end
  | _ => map_engine_err err
  end.

(** [ChecksumType]; the only one in use. *)
Inductive ChecksumType := FULL_OBJECT.

Record ChecksumFields := mkChecksumFields {
  cf_crc32 : option str;
  cf_crc32c : option str;
  cf_sha1 : option str;
  cf_sha256 : option str;
  cf_crc64nvme : option str;
  cf_checksum_type : option ChecksumType;
}.

(** [fields_for]. *)
Definition fields_for (stored : option StoredChecksum) : ChecksumFields :=
  match stored with
  | None => mkChecksumFields None None None None None None
  | Some s =>
      let v := Some (value s) in
      let t := Some FULL_OBJECT in
      match algorithm s with
      | Crc32 => mkChecksumFields v None None None None t
      | Crc32c => mkChecksumFields None v None None None t
      | Sha1 => mkChecksumFields None None v None None t
      | Sha256 => mkChecksumFields None None None v None t
      | Crc64Nvme => mkChecksumFields None None None None v t
      end
  end.

(** The field of an algorithm. *)
Definition field_of (a : ChecksumAlgorithm) (f : ChecksumFields) : option str :=
  match a with
  | Crc32 => cf_crc32 f
  | Crc32c => cf_crc32c f
  | Sha1 => cf_sha1 f
  | Sha256 => cf_sha256 f
  | Crc64Nvme => cf_crc64nvme f
  end.

(** What a client asked of the body. *)
Definition confirmed (c : PutChecksum) (data : str) : Prop :=
  resolve_expected (pc_expected c) = Some (checksum_of (pc_algorithm c) data).

#[global] Instance confirmed_dec c data : Decision (confirmed c data).
Proof. unfold confirmed. apply _. Defined.

(** Why a body is refused. *)
Definition refusal (c : PutChecksum) : ChecksumError :=
  match resolve_expected (pc_expected c) with
  | Some _ => Mismatch (pc_algorithm c)
  | None => MissingTrailer (pc_algorithm c)
  end.

(** ** Lemmas *)

Lemma field_of_fields_for a stored :
  field_of a (fields_for stored)
  = match stored with Some s => if bool_decide (algorithm s = a) then Some (value s) else None | None => None end.
Proof. destruct stored as [[[] v]|]; destruct a; reflexivity. Qed.

Lemma evaluate_confirmed c data :
  evaluate (pc_algorithm c) (Some (checksum_of (pc_algorithm c) data)) (resolve_expected (pc_expected c))
  = if bool_decide (confirmed c data) then None else Some (refusal c).
Proof.
  case_bool_decide as Hc; unfold confirmed in Hc; unfold evaluate, refusal.
  - rewrite Hc. by rewrite bool_decide_eq_true_2.
  - destruct (resolve_expected (pc_expected c)); [|done]. rewrite bool_decide_eq_false_2; [done|congruence].
Qed.

(** The stream with part of the body gone by. *)
Definition verifying_at (inner : BoxByteStream) (c : PutChecksum) (seen : str) : VerifyingStream :=
  mkVerifyingStream inner (pc_algorithm c) (Some (update (hasher (pc_algorithm c)) seen)) (Some (pc_expected c)) false.

Definition verdict (c : PutChecksum) (data : str) : BoxByteStream :=
  if bool_decide (confirmed c data) then [] else [Err (io_error_other (BoxedChecksum (refusal c)))].

(** What is seen of a body: everything to the end, then the verdict; or
    everything to the failure. *)
Fixpoint checked (c : PutChecksum) (seen : str) (inner : BoxByteStream) : BoxByteStream :=
  match inner with
  | [] => verdict c seen
  | Ok chunk :: inner' => Ok chunk :: checked c (seen ++ chunk) inner'
  | Err e :: _ => [Err e]
  end.

Lemma polled_finished fuel this : vs_finished this = true → polled fuel this = [].
Proof. intros Hf. destruct fuel; [done|]. cbn. unfold poll_next. by rewrite Hf. Qed.

Context {HL : HashCratesLaws HS}.

Lemma polled_checked inner c seen fuel :
  length inner + 2 ≤ fuel → polled fuel (verifying_at inner c seen) = checked c seen inner.
Proof.
  revert seen fuel. induction inner as [|[chunk|e] inner IH]; intros seen fuel Hf.
  - destruct fuel as [|fuel]; [cbn in Hf; lia|]. cbn [polled checked].
    unfold poll_next. cbn [vs_finished verifying_at vs_inner vs_checksummer vs_expected vs_algorithm].
    pose proof (evaluate_confirmed c seen) as Hev. unfold checksum_of in Hev. cbn in Hev |- *. rewrite Hev.
    unfold verdict. case_bool_decide; [done|]. by rewrite polled_finished.
  - destruct fuel as [|fuel]; [cbn in Hf; lia|]. cbn [polled checked]. cbn. f_equal.
    rewrite <- (IH (seen ++ chunk) fuel) by (cbn in Hf; lia). unfold verifying_at. cbn. by rewrite update_app.
  - destruct fuel as [|fuel]; [cbn in Hf; lia|]. cbn. by rewrite polled_finished.
Qed.

Lemma boxed_checked inner c : boxed (new_verifying inner c) = checked c [] inner.
Proof.
  unfold boxed. rewrite <- (polled_checked inner c [] (S (S (length inner)))) by lia.
  f_equal. unfold verifying_at, new_verifying. by rewrite update_nil.
Qed.

Lemma collect_checked c seen inner :
  collect (checked c seen inner)
  = let? data := collect inner in
    if bool_decide (confirmed c (seen ++ data)) then Ok data
    else Err (io_error_other (BoxedChecksum (refusal c))).
Proof.
  revert seen. induction inner as [|[chunk|e] inner IH]; intros seen; cbn [checked collect]; [|rewrite IH|done].
  - rewrite app_nil_r. unfold verdict. by case_bool_decide.
  - destruct (collect inner) as [data|e]; [|done]. rewrite <- (assoc_L (++)). by case_bool_decide.
Qed.

(** C27: a body that goes through the verifier reaches the engine whole if and only
    if it arrived whole and its checksum is the one the client sent: the chunks
    pass unchanged and in order; a failure of the connection is passed on; and
    after the last chunk the stream ends if the computed checksum is the
    expected one, and otherwise fails with a mismatch, or with a missing trailer
    if the client announced a value and never sent it.  After its last item the
    stream stays ended. *)
Theorem verifying_stream_spec inner c :
  collect (boxed (new_verifying inner c))
  = (let? data := collect inner in
     if bool_decide (confirmed c data) then Ok data else Err (io_error_other (BoxedChecksum (refusal c))))
  ∧ (∀ n chunk, inner !! n = Some (Ok chunk) → (∀ m e, m < n → inner !! m ≠ Some (Err e)) →
      boxed (new_verifying inner c) !! n = Some (Ok chunk))
  ∧ ∀ this item this', poll_next this = (item, this') → (∀ chunk, item ≠ Some (Ok chunk)) →
      poll_next this' = (None, this').
Proof.
  rewrite boxed_checked. split_and!.
  - apply collect_checked.
  - assert (∀ n seen chunk, inner !! n = Some (Ok chunk) → (∀ m e, m < n → inner !! m ≠ Some (Err e)) →
      checked c seen inner !! n = Some (Ok chunk)) as H; [|intros n chunk; apply H].
    induction inner as [|[x|e] inner IH]; intros n seen chunk Hn Hno; [done| |].
    + destruct n as [|n]; [done|]. cbn. apply IH; [done|]. intros m e Hm. apply (Hno (S m) e). lia.
    + destruct n as [|n]; [done|]. exfalso. apply (Hno 0 e); [lia|done].
  - intros this item this' Hp Hitem. unfold poll_next in Hp. destruct (vs_finished this) eqn:Hf.
    + injection Hp as <- <-. unfold poll_next. by rewrite Hf.
    + destruct (vs_inner this) as [|[chunk|e] inner']; injection Hp as <- <-; [done| |done].
      by destruct (Hitem chunk).
Qed.
End api_checksum.

(** ** Which requests are recognised *)

Section recognised.
Context {HC : HttpCrate} {HCL : HttpLaws HC}.

(** The trailer an algorithm's value arrives in. *)
Definition trailer_name (a : ChecksumAlgorithm) : str := CHECKSUM_TRAILER_PREFIX ++ to_ascii_lowercase (as_str a).

(** No field of the request carries a value. *)
Definition no_header_form (input : PutObjectInput) : Prop :=
  ∀ a v, (a, v) ∈ header_form input → v = None.

Lemma no_header_form_first input : no_header_form input ↔ first_header (header_form input) = None.
Proof.
  unfold no_header_form, header_form. split.
  - intros H. cbn. rewrite (H Crc32 _ ltac:(by left)). rewrite (H Crc32c _ ltac:(right; by left)).
    rewrite (H Sha1 _ ltac:(do 2 right; by left)), (H Sha256 _ ltac:(do 3 right; by left)).
    by rewrite (H Crc64Nvme _ ltac:(do 4 right; by left)).
  - intros H a v Hin. cbn in H.
    repeat match type of H with context [match ?x with Some _ => _ | None => _ end] => destruct x; [done|] end.
    rewrite !elem_of_cons in Hin. destruct_or! Hin; try congruence. by apply not_elem_of_nil in Hin.
Qed.

Lemma trailer_name_token a : from_bytes (trailer_name a) = Some (from_static (trailer_name a)).
Proof.
  apply from_bytes_static; [|by destruct a]. apply (bool_decide_unpack _). by destruct a; vm_compute.
Qed.

(** A requested checksum is found in either form.  The value of a checksum
    header is taken if there is one, the first in the fixed order if there are
    several; else, for a body with trailers whose [x-amz-trailer] header names
    the trailer of any of the five algorithms, that trailer is the one whose
    value will be compared. *)
Theorem detect_recognises input headers handle :
  (∀ a v pre post, header_form input = pre ++ (a, Some v) :: post → (∀ a' v', (a', v') ∈ pre → v' = None) →
     detect input headers handle = Some (mkPutChecksum a (Immediate v)))
  ∧ (∀ h a, no_header_form input → handle = Some h →
       header_text headers X_AMZ_TRAILER = Some (trailer_name a) →
       detect input headers handle = Some (mkPutChecksum a (Trailer h (from_static (trailer_name a)))))
  ∧ (no_header_form input → header_text headers X_AMZ_TRAILER = None ∨ handle = None →
       detect input headers handle = None).
Proof.
  unfold detect. split_and!.
  - intros a v pre post -> Hpre. induction pre as [|[a' v'] pre IH]; [done|]. cbn.
    rewrite (Hpre a' v' ltac:(by left)). apply IH. intros a'' v'' Hin. apply (Hpre a''). by right.
  - intros h a Hno%no_header_form_first -> Htext. rewrite Hno, Htext. cbn -[split trim from_name strip_prefix chr trailer_name].
    pose proof (trailer_name_token a) as Htok.
    assert (split (c#",") (trailer_name a) = [trailer_name a]) as -> by (by destruct a; vm_compute).
    cbn -[split trim from_name strip_prefix chr trailer_name].
    assert (trim (trailer_name a) = trailer_name a) as -> by (by destruct a; vm_compute). rewrite Htok.
    by destruct a.
  - intros Hno%no_header_form_first Hh. rewrite Hno. destruct Hh as [Ht| ->]; [|done].
    destruct handle; [|done]. cbn. by rewrite Ht.
Qed.

(** The value the request carries for an algorithm in its header. *)
Definition input_field (input : PutObjectInput) (a : ChecksumAlgorithm) : option str :=
  match a with
  | Crc32 => pi_checksum_crc32 input
  | Crc32c => pi_checksum_crc32c input
  | Sha1 => pi_checksum_sha1 input
  | Sha256 => pi_checksum_sha256 input
  | Crc64Nvme => pi_checksum_crc64nvme input
  end.

(** The request asks for the algorithm [a], and [expected] is the value it sends for
    it, if it does.  Either it carries the header of [a] and of no other algorithm;
    or it carries none, its body has trailers, the list in [x-amz-trailer] announces
    the trailer of [a], spelled in lower case, and of no other algorithm, and the value
    is that trailer's, if it arrived. *)
Inductive asks_for (input : PutObjectInput) (headers : HeaderMap) :
    option TrailingHeaders → ChecksumAlgorithm → option str → Prop :=
  | asks_header trailing a v :
      input_field input a = Some v → (∀ a', a' ≠ a → input_field input a' = None) →
      asks_for input headers trailing a (Some v)
  | asks_trailer h a declared token :
      (∀ a', input_field input a' = None) → header_text headers X_AMZ_TRAILER = Some declared →
      token ∈ split (c#",") declared → trim token = trailer_name a →
      (∀ token', token' ∈ split (c#",") declared → starts_with (trim token') CHECKSUM_TRAILER_PREFIX = true →
         trim token' = trailer_name a) →
      asks_for input headers (Some h) a
        (map ← read_trailers h; header_text map (from_static (trailer_name a))).

Lemma first_header_only input a v :
  input_field input a = Some v → (∀ a', a' ≠ a → input_field input a' = None) →
  first_header (header_form input) = Some (mkPutChecksum a (Immediate v)).
Proof.
  intros Ha Hother. pose proof (Hother Crc32) as H1. pose proof (Hother Crc32c) as H2. pose proof (Hother Sha1) as H3.
  pose proof (Hother Sha256) as H4. destruct a; cbn in *; rewrite ?H1, ?H2, ?H3, ?H4 by done; by rewrite Ha.
Qed.

Lemma no_fields_no_header input : (∀ a, input_field input a = None) → first_header (header_form input) = None.
Proof.
  intros Hno. apply no_header_form_first. intros a v Hin. rewrite <- (Hno a). unfold header_form in Hin.
  rewrite !elem_of_cons in Hin. destruct Hin as [[= -> ->]|[[= -> ->]|[[= -> ->]|[[= -> ->]|[[= -> ->]|Hin]]]]]; [done..|].
  by apply not_elem_of_nil in Hin.
Qed.

Lemma first_trailer_announced h a tokens token :
  token ∈ tokens → trim token = trailer_name a →
  (∀ token', token' ∈ tokens → starts_with (trim token') CHECKSUM_TRAILER_PREFIX = true → trim token' = trailer_name a) →
  first_trailer h tokens = Some (mkPutChecksum a (Trailer h (from_static (trailer_name a)))).
Proof.
  intros Hin Htok. induction tokens as [|t tokens IH]; intros Hall; [by apply not_elem_of_nil in Hin|].
  cbn [first_trailer]. cbn zeta. destruct (decide (trim t = trailer_name a)) as [->|Hne].
  - rewrite trailer_name_token. by destruct a.
  - assert (starts_with (trim t) CHECKSUM_TRAILER_PREFIX = false) as Hs.
    { apply not_true_iff_false. intros Hs. apply Hne, Hall; [by left|done]. }
    unfold strip_prefix. rewrite Hs. apply IH; [|intros t' Ht'; apply Hall; by right].
    apply elem_of_cons in Hin as [->|?]; [congruence|done].
Qed.

(** What a request asks for is what is found. *)
Lemma asked_detected input headers trailing a expected :
  asks_for input headers trailing a expected →
  ∃ c, detect input headers trailing = Some c ∧ pc_algorithm c = a ∧ resolve_expected (pc_expected c) = expected.
Proof.
  intros [trailing' a' v Ha Hother|h a' declared token Hno Ht Hin Htok Hall]; unfold detect.
  - rewrite (first_header_only input a' v Ha Hother). by eexists.
  - rewrite (no_fields_no_header input Hno). cbn -[split chr]. rewrite Ht. cbn -[split chr].
    rewrite (first_trailer_announced h a' _ token Hin Htok Hall). by eexists.
Qed.

(** Header names are not case sensitive, but the prefix is matched as it is
    spelled: a trailer announced in capitals is not recognised, and the body is
    stored without the check the client asked for. *)
Theorem capital_trailer_ignored input headers h :
  no_header_form input → header_text headers X_AMZ_TRAILER = Some (b#"X-Amz-Checksum-Crc32") →
  detect input headers (Some h) = None.
Proof. intros Hno%no_header_form_first Ht. unfold detect. rewrite Hno. cbn -[split chr]. rewrite Ht. by vm_compute. Qed.
End recognised.

(** ** Concrete headers *)

(** Headers as an association from names in lower case. *)
Definition plain_http : HttpCrate := {|
  HeaderMap := gmap str str;
  HeaderName := str;
  HeaderValue := str;
  from_static s := s;
  from_bytes s :=
    let l := to_ascii_lowercase s in
    if bool_decide (l ≠ []) && forallb (λ b, is_ascii_lowercase b || is_ascii_digit b || bool_decide (b = c#"-")) l
    then Some l else None;
  get m n := m !! n;
  contains_key m n := bool_decide (is_Some (m !! n));
  to_str v := if forallb (in_range 0x20 0x7E) v then Some v else None;
|}.

Lemma plain_http_laws : HttpLaws plain_http.
Proof.
  split; [|intros m n; apply bool_decide_eq_true].
  intros s Hs Hne. cbn [from_bytes from_static plain_http]. assert (to_ascii_lowercase s = s) as ->.
  { unfold to_ascii_lowercase. rewrite <- (list_fmap_id s) at 2. apply list_fmap_ext.
    intros i b Hb. rewrite Forall_lookup in Hs. specialize (Hs i b Hb). clear -Hs. by destruct b. }
  rewrite bool_decide_eq_true_2 by done.
  assert (forallb (λ b, is_ascii_lowercase b || is_ascii_digit b || bool_decide (b = c#"-")) s = true) as ->; [|done].
  apply forallb_forall. intros b Hb. rewrite Forall_forall in Hs. apply Hs. by apply list_elem_of_In.
Qed.

Lemma verifying_stream_spec_witness :
  let c := @mkPutChecksum plain_http Crc32c (Immediate (@checksum_of plain_crates Crc32c (b#"hello"))) in
  @collect (@boxed plain_http plain_crates (@new_verifying plain_http plain_crates [Ok (b#"hel"); Ok (b#"lo")] c))
  = Ok (b#"hello")
  ∧ @collect (@boxed plain_http plain_crates (@new_verifying plain_http plain_crates [Ok (b#"help")] c))
    = Err (io_error_other (BoxedChecksum (Mismatch Crc32c))).
Proof.
  intros c.
  destruct (@verifying_stream_spec plain_http plain_crates plain_crates_laws [Ok (b#"hel"); Ok (b#"lo")] c) as [H1 _].
  destruct (@verifying_stream_spec plain_http plain_crates plain_crates_laws [Ok (b#"help")] c) as [H2 _].
  rewrite H1, H2. clear H1 H2. split; by vm_compute.
Defined.

Lemma detect_recognises_witness :
  let input := mkPutObjectInput (b#"b") (b#"k") None None None None None None None None in
  let headers : @HeaderMap plain_http := <[b#"x-amz-trailer" := b#"x-amz-checksum-sha256"]> ∅ in
  let h := @mkTrailing plain_http None in
  @detect plain_http input headers (Some h)
  = Some (@mkPutChecksum plain_http Sha256 (@Trailer plain_http h (b#"x-amz-checksum-sha256"))).
Proof.
  intros input headers h.
  apply (proj1 (proj2 (@detect_recognises plain_http plain_http_laws input headers (Some h))) h Sha256);
    [by apply (@no_header_form_first plain_http)|done|by vm_compute].
Defined.
