(* ===== verification/Service.v ===== *)
(** * The S3 handlers: [crates/api/src/service.rs]

    [Aks3] answers each S3 operation by calling the [ObjectLayer] it holds.  The
    handlers are written against the class and proved in [ServiceFacts] against
    a contract of the layer. *)

From S2P Require Import Prelude RustStr RustNum Checksum EngineError Fs Meta Layer FsBase Wire ApiError ApiChecksum.

Definition OWNER_ID : str := b#"aks3-root".
Definition OWNER_DISPLAY_NAME : str := b#"aks3".
Definition ACCEPT_RANGES : str := b#"bytes".

(** ** Conversions *)

Definition MAX_TIMESTAMP_MS : N := 253402300799000.

(** [UNIX_EPOCH.checked_add]: the seconds of a [SystemTime] are an [i64]. *)
Definition checked_add_ms (ms : N) : option N := if (ms / 1000 <? 2 ^ 63)%N then Some ms else None.

(** [epoch_ms_to_systemtime]: a [SystemTime] is its milliseconds since the epoch. *)
Definition epoch_ms_to_systemtime (ms : N) : N := default 0%N (checked_add_ms (N.min ms MAX_TIMESTAMP_MS)).

(** [Timestamp::from], which panics past the year 9999. *)
Definition Timestamp_from (t : N) : option N := if (t <=? MAX_TIMESTAMP_MS)%N then Some t else None.

(** [s3s::dto::Range]. *)
Inductive DtoRange :=
  | RangeInt (first : N) (last : option N)
  | RangeSuffix (length : N).

(** [to_byte_range]. *)
Definition to_byte_range (range : DtoRange) : ByteRange :=
  match range with
  | RangeInt first (Some last) => FromTo first last
  | RangeInt first None => From first
  | RangeSuffix length => Suffix length
  end.

(** [u64::saturating_add] and [u64::saturating_sub]. *)
Definition saturating_add (a b : N) : N := N.min (a + b) u64_MAX.
Definition saturating_sub (a b : N) : N := (a - b)%N.

(** [content_range]. *)
Definition content_range (offset len size : N) : str :=
  let last := saturating_sub (saturating_add offset len) 1 in
  b#"bytes " ++ to_string offset ++ b#"-" ++ to_string last ++ b#"/" ++ to_string size.

(** [MaxKeys], an [i32]. *)
Definition MAX_KEYS_PER_PAGE : Z := 1000.

(** [page_size]. *)
Definition page_size (requested : option Z) : Z :=
  Z.max 0 (Z.min (default MAX_KEYS_PER_PAGE requested) MAX_KEYS_PER_PAGE).

(** [wire_length]: [ContentLength] is an [i64]. *)
Definition i64_MAX : N := 0x7FFFFFFFFFFFFFFF.
Definition wire_length (len : N) : Z := if (len <=? i64_MAX)%N then Z.of_N len else Z.of_N i64_MAX.

(** [checksum_mode_enabled]. *)
Definition checksum_mode_enabled (mode : option str) : bool :=
  match mode with Some m => eq_ignore_ascii_case m (b#"ENABLED") | None => false end.

(** [SyncStream]: the mutex's poison is ignored. *)
Record SyncStream := mkSyncStream { ss_poisoned : bool; ss_stream : BoxByteStream }.

Definition sync_poll_next (s : SyncStream) : option (result str io_error) * SyncStream :=
  match ss_stream s with
  | [] => (None, s)
  | item :: rest => (Some item, mkSyncStream (ss_poisoned s) rest)
  end.

(** ** Requests and responses *)

Record S3Request `{HttpCrate} (I : Type) := mkRequest {
  req_input : I;
  req_headers : HeaderMap;
  req_trailing_headers : option TrailingHeaders;
}.
Arguments mkRequest {_ I}.
Arguments req_input {_ I}.
Arguments req_headers {_ I}.
Arguments req_trailing_headers {_ I}.

Record Bucket := mkBucket { bk_name : option str; bk_creation_date : option N }.
Record Owner := mkOwner { ow_display_name : option str; ow_id : option str }.
Record ListBucketsOutput := mkListBucketsOutput {
  lbo_buckets : option (list Bucket);
  lbo_owner : option Owner;
}.

Record PutObjectOutput := mkPutObjectOutput {
  poo_e_tag : option str;
  poo_checksums : ChecksumFields;
}.

Record GetObjectInput := mkGetObjectInput {
  gi_bucket : str;
  gi_key : str;
  gi_range : option DtoRange;
  gi_checksum_mode : option str;
}.

Record GetObjectOutput := mkGetObjectOutput {
  goo_body : option SyncStream;
  goo_accept_ranges : option str;
  goo_content_length : option Z;
  goo_content_range : option str;
  goo_content_type : option str;
  goo_e_tag : option str;
  goo_last_modified : option N;
  goo_metadata : option (gmap str str);
  goo_checksums : ChecksumFields;
}.

Record HeadObjectInput := mkHeadObjectInput {
  hi_bucket : str;
  hi_key : str;
  hi_checksum_mode : option str;
}.

Record HeadObjectOutput := mkHeadObjectOutput {
  hoo_accept_ranges : option str;
  hoo_content_length : option Z;
  hoo_content_type : option str;
  hoo_e_tag : option str;
  hoo_last_modified : option N;
  hoo_metadata : option (gmap str str);
  hoo_checksums : ChecksumFields;
}.

Record ListObjectsV2Input := mkListObjectsV2Input {
  li_bucket : str;
  li_prefix : option str;
  li_delimiter : option str;
  li_continuation_token : option str;
  li_start_after : option str;
  li_max_keys : option Z;
}.

Record Object := mkObject {
  ob_key : option str;
  ob_size : option Z;
  ob_e_tag : option str;
  ob_last_modified : option N;
}.

Record ListObjectsV2Output := mkListObjectsV2Output {
  lo_name : option str;
  lo_prefix : option str;
  lo_delimiter : option str;
  lo_max_keys : option Z;
  lo_key_count : option Z;
  lo_continuation_token : option str;
  lo_start_after : option str;
  lo_is_truncated : option bool;
  lo_next_continuation_token : option str;
  lo_contents : option (list Object);
  lo_common_prefixes : option (list str);
}.

(** ** aws-chunked framing *)

Definition STREAMING_SENTINELS : list str :=
  [b#"STREAMING-AWS4-HMAC-SHA256-PAYLOAD";
   b#"STREAMING-AWS4-HMAC-SHA256-PAYLOAD-TRAILER";
   b#"STREAMING-UNSIGNED-PAYLOAD-TRAILER";
   b#"STREAMING-AWS4-ECDSA-P256-SHA256-PAYLOAD";
   b#"STREAMING-AWS4-ECDSA-P256-SHA256-PAYLOAD-TRAILER"].

(** [declares_aws_chunked]. *)
Definition declares_aws_chunked (value : str) : bool :=
  existsb (λ token, eq_ignore_ascii_case (trim token) (b#"aws-chunked")) (split (c#",") value).

Section framing.
Context {HC : HttpCrate}.

Definition CONTENT_ENCODING : HeaderName := from_static (b#"content-encoding").
Definition X_AMZ_CONTENT_SHA256 : HeaderName := from_static (b#"x-amz-content-sha256").
Definition X_AMZ_DECODED_CONTENT_LENGTH : HeaderName := from_static (b#"x-amz-decoded-content-length").

(** [is_some_and]. *)
Definition is_some_and {A} (f : A → bool) (o : option A) : bool :=
  match o with Some a => f a | None => false end.

(** [reject_contradictory_aws_chunked]. *)
Definition reject_contradictory_aws_chunked (headers : HeaderMap) : result unit S3Error :=
  let announces_chunked := is_some_and declares_aws_chunked (header_text headers CONTENT_ENCODING) in
  let has_decoded_length := contains_key headers X_AMZ_DECODED_CONTENT_LENGTH in
  if negb announces_chunked && negb has_decoded_length then Ok ()
  else
    let is_streaming :=
      is_some_and (λ sentinel, existsb (eq_ignore_ascii_case sentinel) STREAMING_SENTINELS)
        (header_text headers X_AMZ_CONTENT_SHA256) in
    if is_streaming then Ok ()
    else
      Err (s3_error InvalidRequest
        (b#"Content-Encoding: aws-chunked or x-amz-decoded-content-length declares aws-chunked framing, but x-amz-content-sha256 is not a streaming payload sentinel, so the framing would be stored as the object's bytes")).
End framing.

(** ** The handlers *)

Module Aks3.
Section handlers.
Context {HC : HttpCrate} {HS : HashCrates} {L : ObjectLayer}.

(** [.await.map_err(map_engine_err)?]. *)
Local Notation "'engine!' m" := (mapE map_engine_err m) (at level 10).

(** A wire timestamp; [Timestamp::from] never panics here, see
    [timestamp_never_panics]. *)
Definition timestamp (ms : N) : option N := Timestamp_from (epoch_ms_to_systemtime ms).

(** [create_bucket]: the answer is the [location]. *)
Definition create_bucket (bucket : str) : M S3Error (option str) :=
  engine! (Layer.create_bucket bucket);;;
  ret (Some (b#"/" ++ bucket)).

(** [head_bucket]. *)
Definition head_bucket (bucket : str) : M S3Error unit :=
  found <- engine! (Layer.bucket_exists bucket);;
  if (found : bool) then ret () else throw (s3_error_bare CNoSuchBucket).

(** [delete_bucket]. *)
Definition delete_bucket (bucket : str) : M S3Error unit :=
  engine! (Layer.delete_bucket bucket);;;
  ret ().

(** [list_buckets]. *)
Definition list_buckets : M S3Error ListBucketsOutput :=
  buckets <- engine! Layer.list_buckets;;
  ret (mkListBucketsOutput
         (Some ((λ b, mkBucket (Some (bi_name b)) (timestamp (bi_created_epoch_ms b))) <$> buckets))
         (Some (mkOwner (Some OWNER_DISPLAY_NAME) (Some OWNER_ID)))).

(** [body.map_err(std::io::Error::other).boxed()]. *)
Definition request_body (body : StreamingBlob) : BoxByteStream :=
  map_err (λ _, io_error_other BoxedOther) <$> body.

(** [put_object]. *)
Definition put_object (req : S3Request PutObjectInput) : M S3Error PutObjectOutput :=
  lift (reject_contradictory_aws_chunked (req_headers req));;;
  let checksum := detect (req_input req) (req_headers req) (req_trailing_headers req) in
  let input := req_input req in
  match pi_body input with
  | None => throw (s3_error_bare IncompleteBody)
  | Some body =>
      let opts := mkPutOpts (pi_content_type input) (default ∅ (pi_metadata input)) (pc_algorithm <$> checksum) in
      let body := request_body body in
      let body := match checksum with Some checksum => boxed (new_verifying body checksum) | None => body end in
      info <- mapE put_error (Layer.put_object (pi_bucket input) (pi_key input) body opts);;
      ret (mkPutObjectOutput (Some (oi_etag info)) (fields_for (oi_checksum info)))
  end.

(** [get_object]. *)
Definition get_object (input : GetObjectInput) : M S3Error GetObjectOutput :=
  let range := to_byte_range <$> gi_range input in
  let want_checksum := bool_decide (range = None) && checksum_mode_enabled (gi_checksum_mode input) in
  r <- engine! (Layer.get_object (gi_bucket input) (gi_key input) range);;
  let '(info, offset, len, body) := r in
  let fields := fields_for (if want_checksum then oi_checksum info else None) in
  ret {| goo_body := Some (mkSyncStream false body);
         goo_accept_ranges := Some ACCEPT_RANGES;
         goo_content_length := Some (wire_length len);
         goo_content_range := (λ _, content_range offset len (oi_size info)) <$> range;
         goo_content_type := Some (oi_content_type info);
         goo_e_tag := Some (oi_etag info);
         goo_last_modified := timestamp (oi_mtime_epoch_ms info);
         goo_metadata := Some (oi_user_metadata info);
         goo_checksums := fields |}.

(** [head_object]. *)
Definition head_object (input : HeadObjectInput) : M S3Error HeadObjectOutput :=
  let want_checksum := checksum_mode_enabled (hi_checksum_mode input) in
  info <- engine! (Layer.head_object (hi_bucket input) (hi_key input));;
  let fields := fields_for (if want_checksum then oi_checksum info else None) in
  ret {| hoo_accept_ranges := Some ACCEPT_RANGES;
         hoo_content_length := Some (wire_length (oi_size info));
         hoo_content_type := Some (oi_content_type info);
         hoo_e_tag := Some (oi_etag info);
         hoo_last_modified := timestamp (oi_mtime_epoch_ms info);
         hoo_metadata := Some (oi_user_metadata info);
         hoo_checksums := fields |}.

(** [delete_object]. *)
Definition delete_object (bucket key : str) : M S3Error unit :=
  engine! (Layer.delete_object bucket key);;;
  ret ().

(** [usize::try_from(max_keys).unwrap_or(0)]. *)
Definition usize_or_zero (n : Z) : N := if (0 <=? n)%Z then Z.to_N n else 0.

(** [KeyCount::try_from(n).unwrap_or(MAX_KEYS_PER_PAGE)]: a [KeyCount] is an [i32]. *)
Definition key_count (n : nat) : Z := if (Z.of_nat n <=? 2 ^ 31 - 1)%Z then Z.of_nat n else MAX_KEYS_PER_PAGE.

Definition list_params (input : ListObjectsV2Input) : ListParams :=
  mkListParams (li_prefix input) (li_delimiter input) (li_continuation_token input) (li_start_after input)
    (usize_or_zero (page_size (li_max_keys input))).

(** [list_objects_v2]. *)
Definition list_objects_v2 (input : ListObjectsV2Input) : M S3Error ListObjectsV2Output :=
  let max_keys := page_size (li_max_keys input) in
  let params := list_params input in
  page <- engine! (Layer.list_objects_v2 (li_bucket input) params);;
  let contents :=
    (λ o, mkObject (Some (oi_key o)) (Some (wire_length (oi_size o))) (Some (oi_etag o))
            (timestamp (oi_mtime_epoch_ms o))) <$> lr_objects page in
  let common_prefixes := lr_common_prefixes page in
  ret {| lo_name := Some (li_bucket input);
         lo_prefix := lp_prefix params;
         lo_delimiter := lp_delimiter params;
         lo_max_keys := Some max_keys;
         lo_key_count := Some (key_count (length contents + length common_prefixes));
         lo_continuation_token := lp_continuation_token params;
         lo_start_after := lp_start_after params;
         lo_is_truncated := Some (lr_is_truncated page);
         lo_next_continuation_token := lr_next_continuation_token page;
         lo_contents := Some contents;
         lo_common_prefixes := Some common_prefixes |}.
End handlers.
End Aks3.
