(* ===== verification/ServiceFacts.v ===== *)
(** * What the handlers promise

    The contract a handler relies on is a class over [ObjectLayer]: what a put,
    a read and a listing guarantee.  The handlers' theorems are proved for any
    layer that keeps it, and the engine is shown to keep it. *)

From S2P Require Import Prelude RustStr RustNum RustPath Paths Checksum EngineError Fs FsFacts Atomic Meta Layer Walk FsBase Listing FsEngine Tidy FsObject FsDelete FsList Wire ApiError ApiChecksum Service.

(** ** The contract *)

(** A page fits its budget, and has a token exactly when there is more. *)
Definition page_ok (p : ListParams) (r : ListResult) : Prop :=
  (N.of_nat (length (lr_objects r) + length (lr_common_prefixes r)) <= lp_max_keys p)%N
  ∧ (lr_is_truncated r = true ↔ is_Some (lr_next_continuation_token r)).

(** [bytes] are the bytes of [data] from [offset] on, all [len] of them. *)
Definition span_of (data : str) (offset len : N) (bytes : str) : Prop :=
  bytes = take (N.to_nat len) (drop (N.to_nat offset) data) ∧ N.of_nat (length bytes) = len.

(** A layer over objects that can be looked at: [shown d b k] is the object
    under a key, and [settled] is what the layer keeps true of the disk. *)
Class LayerContract {E : Env} {HS : HashCrates} {MD : Md5Crate} (L : ObjectLayer)
    (settled : disk → Prop) (shown : disk → str → str → option (VersionEntry * str)) : Prop := {
  put_object_contract b k body opts d : settled d → utf8 k → opts_ok opts →
    wp (put_object b k body opts)
      (λ info d', ∃ data ns, collect body = Ok data
         ∧ info = object_info k (entry_for opts data (epoch_ms ns))
         ∧ shown d' b k = Some (entry_for opts data (epoch_ms ns), data))
      (λ e d', ∀ err, collect body = Err err → ∀ b' k', utf8 k' → shown d' b' k' = shown d b' k')
      (λ d', ∀ err, collect body = Err err → ∀ b' k', utf8 k' → shown d' b' k' = shown d b' k') d;
  get_object_contract b k range d : settled d → utf8 k →
    wp (get_object b k range)
      (λ r d', d' = d ∧ let '(info, offset, len, body) := r in
         oi_key info = k ∧ resolve_range range (oi_size info) = Ok (offset, len)
         ∧ ∀ entry data, shown d b k = Some (entry, data) → info = object_info k entry
             ∧ ∀ bytes, collect body = Ok bytes → span_of data offset len bytes)
      (λ e d', d' = d) (λ d', d' = d) d;
  head_object_contract b k range w info offset len body w' :
    get_object b k range w = (Some (Ok (info, offset, len, body)), w') →
    ∃ w'', head_object b k w = (Some (Ok info), w'');
  list_objects_contract b p d : wp (list_objects_v2 b p) (λ r d', page_ok p r) (λ _ _, True) (λ _, True) d;
}.

(** ** The engine keeps the contract *)

Section loop.
Context {E : Env} (lookup : str → M EngineError (option VersionEntry)).

(** The page so far: within the budget, and its token is its last item. *)
Definition page_so_far (p : ListParams) (r : ListResult) : Prop :=
  (N.of_nat (length (lr_objects r) + length (lr_common_prefixes r)) <= lp_max_keys p)%N
  ∧ (lr_next_continuation_token r = None → lr_objects r = [] ∧ lr_common_prefixes r = [])
  ∧ (0 < lp_max_keys p)%N.

Lemma wp_list_loop_ok p keys out d :
  page_so_far p out → lr_is_truncated out = false →
  wp (list_loop lookup p keys out)
    (λ r _, page_so_far p r ∧ (lr_is_truncated r = true → is_Some (lr_next_continuation_token r)))
    (λ _ _, True) (λ _, True) d.
Proof.
  revert out d. induction keys as [|key keys IH]; intros out d Hout Ht; cbn [list_loop].
  { apply wp_ret. split; [done|]. by rewrite Ht. }
  destruct (negb _); [by apply IH|]. destruct (folded _ _ _) as [fold|]; [|by apply wp_throw].
  destruct (at_or_before _ _); [by apply IH|]. destruct (_ && _); [by apply IH|].
  apply wp_bind, wp_true; [|done..]. intros [entry|] d'; [|by apply IH].
  destruct Hout as (Hlen & Htok & Hpos). destruct (N.eqb_spec (N.of_nat (length (lr_objects out) + length (lr_common_prefixes out))) (lp_max_keys p)) as [Heq|Hne].
  - apply wp_ret. split; [by split_and!|]. intros _. cbn [lr_next_continuation_token].
    destruct (lr_next_continuation_token out); [done|]. destruct Htok as [Ho Hp]; [done|].
    rewrite Ho, Hp in Heq. cbn in Heq. lia.
  - apply IH; destruct fold as [common|]; [| |done..];
      (split_and!; cbn [lr_objects lr_common_prefixes lr_next_continuation_token]; [|done|done]); rewrite length_app; cbn; lia.
Qed.

Lemma wp_list_page_ok p keys d : (0 < lp_max_keys p)%N →
  wp (list_page lookup p keys) (λ r _, page_ok p r) (λ _ _, True) (λ _, True) d.
Proof.
  intros Hpos. unfold list_page. apply wp_bind. eapply wp_mono; [apply wp_list_loop_ok| |done..].
  - split_and!; [cbn; lia|done|done].
  - done.
  - intros r d' [(Hlen & _ & _) Ht]. apply wp_ret. destruct (lr_is_truncated r) eqn:Htr; split; cbn; [done| |done|].
    + rewrite Htr. split; [|done]. intros _. by apply Ht.
    + split; [done|]. by intros [? ?].
Qed.
End loop.

Section engine.
Context {E : Env} {D : DataDir} `{!EnvOk E}.
Context {HS : HashCrates} {MD : Md5Crate} {RD : Reads}.
Context `{!Serde VersionManifest, !Serde BucketMeta, !Serde DiskFormat}.
Context `{!HashCratesLaws HS, !Md5Laws MD, !SerdeLaws VersionManifest valid_manifest}.

(** The object under a key of the data directory. *)
Definition on_disk (d : disk) (b k : str) : option (VersionEntry * str) := object_at (vol d) b k.

(** A put of a body that broke off leaves every object as it was. *)
Lemma cut_put_frame b k body opts d d' err :
  utf8 k → layout (vol d) → collect body = Err err →
  put_effect b k d d' → touched b k body opts (vol d) (vol d') → bucket_at (vol d) b ∨ d' = d →
  ∀ b' k', utf8 k' → on_disk d' b' k' = on_disk d b' k'.
Proof.
  intros Hk Hlay Hc Heff Ht Hb b' k' Hk'. unfold on_disk.
  destruct (decide ((b', k') = (b, k))) as [[= -> ->]|Hne]; [|by apply (put_effect_frame b k d d' Hk Hlay Heff Hb)].
  destruct (touched_object b k body opts d d' Heff Ht) as [[_ [?|(? & ? & ? & _)]]|(? & ? & ? & _)]; congruence.
Qed.

#[export] Instance fs_engine_contract :
  LayerContract (fs_engine_layer engine) (λ d, layout (vol d)) on_disk.
Proof.
  split.
  - intros b k body opts d Hlay Hk Hopts. cbn.
    eapply wp_mono; [apply (wp_and _ _ _ _ _ _ _ _ (wp_put_object b k body opts d Hk Hopts Hlay)
                              (wp_put_bucket b k body opts d Hlay))|..].
    + intros info d' [(data & ns & Hc & Hi & Hdone) _]. exists data, ns. split_and!; [done..|]. by eapply put_done_object.
    + intros e d' [[[Heff Ht] _] Hb] err Hc. eapply cut_put_frame; try done. naive_solver.
    + intros d' [[Heff Ht] Hb] err Hc. eapply cut_put_frame; try done. naive_solver.
  - intros b k range d Hlay Hk. cbn. eapply wp_mono; [by apply wp_get_object|..].
    + intros [[[info offset] len] body] d' (-> & _ & _ & entry & Hen & -> & Hr & _ & Hs). split_and!; [done..|].
      pose proof (entry_size _ _ _ _ Hen) as Hu. pose proof (resolve_range_bounds _ _ _ _ Hu Hr) as Hle.
      intros entry' data. unfold on_disk. rewrite (object_at_entry _ _ _ _ Hen).
      destruct (file_at _ _) as [data'|] eqn:Hf; [|done]. intros [= <- <-]. split; [done|]. intros bytes Hb.
      rewrite (Hs data' eq_refl) in Hb. destruct (file_stream_spec reads (drop (N.to_nat offset) data') len) as (Hfs & _);
        [unfold u64 in *; lia|]. destruct (Hfs bytes Hb) as [Hlen ->].
      split; [done|]. rewrite length_take, Nat.min_l by done. lia.
    + by intros e d' [-> _].
    + done.
  - intros b k range w info offset len body w'. cbn [get_object head_object fs_engine_layer].
    unfold FsEngine.get_object, FsEngine.head_object. rewrite !run_bind.
    destruct (FsEngine.existing_bucket_dir engine b w) as [[[dir|]|] w1]; [|done..].
    rewrite !run_bind. destruct (FsEngine.live_version _ w1) as [[[entry|]|] w2]; [|done..]. rewrite run_bind. cbn [run lift].
    destruct (resolve_range range (size entry)) as [[o l]|]; [|done]. rewrite run_bind, run_attempt.
    destruct (FsEngine.open_file _ w2) as [[[file|err]|] w3]; [| |done].
    + rewrite run_bind. destruct (0 <? o)%N; [destruct (mapE from_io (FsEngine.seek o) w3) as [[[?|?]|] w4]; [|done..]|];
        intros [= <- _ _ _ _]; by eexists.
    + by case_bool_decide.
  - intros b p d. cbn. unfold FsEngine.list_objects_v2.
    apply wp_bind, wp_true; [|done..]. intros _ d1. apply wp_with_lock.
    apply wp_bind, wp_true; [|done..]. intros dir d2.
    destruct (N.eqb_spec (lp_max_keys p) 0) as [Hz|Hz].
    + apply wp_ret. split; [cbn; lia|]. split; [done|]. by intros [? ?].
    + apply wp_bind, wp_true; [|done..]. intros keys d3. apply wp_list_page_ok. lia.
Qed.
End engine.

(** ** Conversions *)

(** A wire timestamp is always made, however large the recorded time. *)
Lemma timestamp_never_panics ms : Aks3.timestamp ms = Some (N.min ms MAX_TIMESTAMP_MS).
Proof.
  unfold Aks3.timestamp, Timestamp_from, epoch_ms_to_systemtime, checked_add_ms.
  assert (N.min ms MAX_TIMESTAMP_MS / 1000 < 2 ^ 63)%N as Hlt.
  { apply N.Div0.div_lt_upper_bound. eapply N.le_lt_trans; [apply N.le_min_r|done]. }
  rewrite (proj2 (N.ltb_lt _ _) Hlt). change (default 0%N (Some ?x)) with x.
  by rewrite (proj2 (N.leb_le _ _) (N.le_min_r ms MAX_TIMESTAMP_MS)).
Qed.

Lemma wire_length_exact len : (len <= i64_MAX)%N → wire_length len = Z.of_N len.
Proof. intros H. unfold wire_length. by rewrite (proj2 (N.leb_le _ _) H). Qed.

Lemma page_size_bounds requested : (0 <= page_size requested <= MAX_KEYS_PER_PAGE)%Z.
Proof. unfold page_size, MAX_KEYS_PER_PAGE. lia. Qed.

(** A satisfiable range holds at least one byte. *)
Lemma resolve_range_nonempty r size offset len :
  u64 size → resolve_range (Some r) size = Ok (offset, len) → (0 < len)%N.
Proof.
  unfold u64. intros Hs. unfold resolve_range. destruct (N.eqb_spec size 0) as [->|Hne]; [done|].
  destruct r as [first last|first|n].
  - destruct (N.ltb_spec last first); [done|]. destruct (N.leb_spec size first); [done|]. cbn [orb].
    rewrite (u64_sub_exact size 1), u64_sub_exact, u64_add_exact by lia. intros [= <- <-]. lia.
  - destruct (N.leb_spec size first); [done|]. rewrite u64_sub_exact by lia. intros [= <- <-]. lia.
  - destruct (N.eqb_spec n 0); [done|]. rewrite u64_sub_exact by lia. intros [= <- <-]. lia.
Qed.

(** The span of a range, spelled out. *)
Lemma content_range_exact r offset len size :
  u64 size → resolve_range (Some r) size = Ok (offset, len) →
  content_range offset len size
  = b#"bytes " ++ to_string offset ++ b#"-" ++ to_string (offset + len - 1) ++ b#"/" ++ to_string size.
Proof.
  intros Hs Hr. pose proof (resolve_range_bounds (Some r) size offset len Hs Hr) as Hle.
  unfold content_range, saturating_sub, saturating_add. unfold u64 in Hs.
  rewrite N.min_l by (unfold u64_MAX in *; lia). done.
Qed.

Section handlers.
Context {E : Env} {HC : HttpCrate} {HS : HashCrates} {MD : Md5Crate} {L : ObjectLayer}.
Context {settled : disk → Prop} {shown : disk → str → str → option (VersionEntry * str)}.
Context `{!HttpLaws HC, !HashCratesLaws HS, !LayerContract L settled shown}.

(** The strings of a request are Rust strings. *)
Definition input_ok (input : PutObjectInput) : Prop :=
  utf8 (pi_key input) ∧ (∀ c, pi_content_type input = Some c → utf8 c)
  ∧ map_Forall (λ k v, utf8 k ∧ utf8 v) (default ∅ (pi_metadata input)).

Lemma entry_for_checksum opts data ms a :
  po_checksum_algorithm opts = Some a →
  checksum (entry_for opts data ms) = Some (mkStoredChecksum a (checksum_of a data)).
Proof. intros Ha. unfold entry_for, FsEngine.new_entry, FsEngine.new_upload. cbn. by rewrite Ha. Qed.

(** What [put_object] hands the layer when there is a checksum to check. *)
Definition verified_put (input : PutObjectInput) (c : PutChecksum) (body : StreamingBlob) : M EngineError ObjectInfo :=
  Layer.put_object (pi_bucket input) (pi_key input) (boxed (new_verifying (Aks3.request_body body) c))
    (mkPutOpts (pi_content_type input) (default ∅ (pi_metadata input)) (Some (pc_algorithm c))).

Lemma put_object_verified req c body :
  reject_contradictory_aws_chunked (req_headers req) = Ok () →
  detect (req_input req) (req_headers req) (req_trailing_headers req) = Some c →
  pi_body (req_input req) = Some body →
  ∀ w, Aks3.put_object req w
  = (info <- mapE put_error (verified_put (req_input req) c body);;
     ret (mkPutObjectOutput (Some (oi_etag info)) (fields_for (oi_checksum info)))) w.
Proof. intros Hrej Hdet Hbody w. unfold Aks3.put_object. rewrite Hrej, Hdet, Hbody. done. Qed.

(** The upload arrived whole, and it is what the client sent the checksum of. *)
Definition upload_confirmed (input : PutObjectInput) (a : ChecksumAlgorithm) (expected : option str) (data : str) : Prop :=
  ∃ body, pi_body input = Some body ∧ collect (Aks3.request_body body) = Ok data
    ∧ expected = Some (checksum_of a data).

(** C8: no upload is acknowledged without the check its client asked for.  A request
    asks for a checksum if it carries the header of exactly one of the five algorithms,
    or if it carries none, announces the trailer of exactly one of them in
    [x-amz-trailer], in lower case, and its body has trailers ([asks_for]).  When such an upload is
    acknowledged, the body arrived whole, its checksum is the value the client sent,
    the object under the key is exactly these bytes with that checksum recorded,
    and the response reports it.  When the body is missing, breaks off, does not
    match or its announced trailer never comes, the request is not acknowledged and
    every object of the store is what it was before, in every failure and wherever
    the process dies.  (A trailer announced in capitals is not recognised:
    [capital_trailer_ignored].) *)
Theorem put_object_verifies req a expected w :
  settled (wdisk w) → input_ok (req_input req) →
  asks_for (req_input req) (req_headers req) (req_trailing_headers req) a expected →
  let b := pi_bucket (req_input req) in let k := pi_key (req_input req) in
  let '(r, w') := Aks3.put_object req w in
  match r with
  | Some (Ok out) =>
      ∃ data entry, upload_confirmed (req_input req) a expected data
        ∧ shown (wdisk w') b k = Some (entry, data)
        ∧ checksum entry = Some (mkStoredChecksum a (checksum_of a data))
        ∧ field_of a (poo_checksums out) = Some (checksum_of a data)
        ∧ poo_e_tag out = Some (etag entry)
  | _ =>
      ¬ (∃ data, upload_confirmed (req_input req) a expected data) →
      ∀ b' k', utf8 k' → shown (wdisk w') b' k' = shown (wdisk w) b' k'
  end.
Proof.
  intros Hset (Hk & Hct & Hmd) (c & Hdet & <- & <-)%asked_detected b k.
  destruct (reject_contradictory_aws_chunked (req_headers req)) as [[]|e] eqn:Hrej.
  2: { unfold Aks3.put_object. by rewrite Hrej. }
  destruct (pi_body (req_input req)) as [body|] eqn:Hbody.
  2: { unfold Aks3.put_object. by rewrite Hrej, Hbody. }
  rewrite (put_object_verified req c body Hrej Hdet Hbody w).
  set (vbody := boxed (new_verifying (Aks3.request_body body) c)).
  assert (collect vbody = (let? data := collect (Aks3.request_body body) in
     if bool_decide (confirmed c data) then Ok data else Err (io_error_other (BoxedChecksum (refusal c))))) as Hv.
  { unfold vbody. rewrite boxed_checked. apply collect_checked. }
  assert (¬ (∃ data, upload_confirmed (req_input req) (pc_algorithm c) (resolve_expected (pc_expected c)) data) →
    ∃ err, collect vbody = Err err) as Hcut.
  { intros Hno. rewrite Hv. destruct (collect (Aks3.request_body body)) as [data|err] eqn:Hc; [|eauto].
    case_bool_decide; [|eauto]. destruct Hno. exists data, body. done. }
  pose proof (wp_run _ _ _ _ w (put_object_contract b k vbody
    (mkPutOpts (pi_content_type (req_input req)) (default ∅ (pi_metadata (req_input req))) (Some (pc_algorithm c)))
    (wdisk w) Hset Hk (conj Hct Hmd))) as Hwp.
  unfold verified_put. rewrite run_bind, run_mapE. fold vbody b k.
  destruct (Layer.put_object b k vbody _ w) as [[[info|e]|] w']; cbn [map_err].
  - destruct Hwp as (data & ns & Hc & -> & Hsh). rewrite Hv in Hc.
    destruct (collect (Aks3.request_body body)) as [data'|] eqn:Hcb; [|done]. case_bool_decide as Hconf; [|done].
    injection Hc as ->. eexists data, _. split_and!; [by exists body|exact Hsh|by apply entry_for_checksum| |done].
    cbn [poo_checksums]. rewrite field_of_fields_for. cbn [object_info oi_checksum].
    rewrite (entry_for_checksum _ data _ (pc_algorithm c)) by done. cbn. by rewrite bool_decide_eq_true_2.
  - intros Hno. destruct (Hcut Hno) as [err Herr]. by apply (Hwp err).
  - intros Hno. destruct (Hcut Hno) as [err Herr]. by apply (Hwp err).
Qed.

(** The description a [GET] and a [HEAD] share. *)
Definition describes (out : GetObjectOutput) (info : ObjectInfo) : Prop :=
  goo_accept_ranges out = Some (b#"bytes")
  ∧ goo_content_type out = Some (oi_content_type info)
  ∧ goo_e_tag out = Some (oi_etag info)
  ∧ goo_last_modified out = Some (N.min (oi_mtime_epoch_ms info) MAX_TIMESTAMP_MS)
  ∧ goo_metadata out = Some (oi_user_metadata info).

(** What a [HEAD] of the object [out] was read from answers, given whether the
    checksum was asked for. *)
Definition head_of (out : GetObjectOutput) (mode : option str) (info : ObjectInfo) : HeadObjectOutput :=
  mkHeadObjectOutput (goo_accept_ranges out) (Some (wire_length (oi_size info))) (goo_content_type out)
    (goo_e_tag out) (goo_last_modified out) (goo_metadata out)
    (fields_for (if checksum_mode_enabled mode then oi_checksum info else None)).

(** C30: a [GET] is answered with what the layer read, and the store is not
    touched.  The response describes the object the layer gave and sends the layer's
    stream; where the store shows an object under the key, the description is that
    object's, and what the stream delivers to its end is exactly the span of its bytes;
    the length is that of the span; [Content-Range] is there exactly when the request
    had a range, names the first and last byte of the span and the size of the whole
    object, and these never saturate; the stored checksum is reported only for a whole
    read that asked for it.  A [HEAD] in the same state gives the same description.
    An error is the one the layer gave, translated. *)
Theorem get_object_answer input w :
  settled (wdisk w) → utf8 (gi_key input) →
  let '(r, w') := Aks3.get_object input w in
  wdisk w' = wdisk w ∧
  match r with
  | Some (Ok out) =>
      ∃ info offset len body,
        (Layer.get_object (gi_bucket input) (gi_key input) (to_byte_range <$> gi_range input) w).1
          = Some (Ok (info, offset, len, body))
        ∧ (∀ entry data, shown (wdisk w) (gi_bucket input) (gi_key input) = Some (entry, data) →
             info = object_info (gi_key input) entry
             ∧ ∀ bytes, collect body = Ok bytes → span_of data offset len bytes)
        ∧ resolve_range (to_byte_range <$> gi_range input) (oi_size info) = Ok (offset, len)
        ∧ describes out info
        ∧ goo_body out = Some (mkSyncStream false body)
        ∧ ((len <= i64_MAX)%N → goo_content_length out = Some (Z.of_N len))
        ∧ (gi_range input = None → goo_content_range out = None)
        ∧ (u64 (oi_size info) → is_Some (gi_range input) →
             (offset <= offset + len - 1 < oi_size info)%N
             ∧ goo_content_range out = Some (b#"bytes " ++ to_string offset ++ b#"-"
                 ++ to_string (offset + len - 1) ++ b#"/" ++ to_string (oi_size info)))
        ∧ goo_checksums out = fields_for (if bool_decide (gi_range input = None)
                                             && checksum_mode_enabled (gi_checksum_mode input)
                                          then oi_checksum info else None)
        ∧ ∀ mode, ∃ w'', Aks3.head_object (mkHeadObjectInput (gi_bucket input) (gi_key input) mode) w
                         = (Some (Ok (head_of out mode info)), w'')
  | Some (Err e) =>
      ∃ err, (Layer.get_object (gi_bucket input) (gi_key input) (to_byte_range <$> gi_range input) w).1
               = Some (Err err) ∧ e = map_engine_err err
  | None => True
  end.
Proof.
  intros Hset Hk. unfold Aks3.get_object. rewrite run_bind, run_mapE.
  set (range := to_byte_range <$> gi_range input).
  assert (range = None ↔ gi_range input = None) as Hrange by (unfold range; destruct (gi_range input); naive_solver).
  pose proof (wp_run _ _ _ _ w (get_object_contract (gi_bucket input) (gi_key input) range (wdisk w) Hset Hk)) as Hwp.
  destruct (Layer.get_object _ _ _ w) as [[[[[[info offset] len] body]|e]|] w'] eqn:Hget; cbn; [|by eauto|done].
  destruct Hwp as (Hd & Hkey & Hr & Hspan). split; [done|]. exists info, offset, len, body. split_and!; [done|done|done|..].
  - unfold describes. cbn. by rewrite timestamp_never_panics.
  - done.
  - intros Hl. by rewrite wire_length_exact.
  - intros Hn. by rewrite (proj2 Hrange Hn).
  - intros Hs [dr Hdr]. unfold range in *. rewrite Hdr in *. change (resolve_range (Some (to_byte_range dr)) (oi_size info) = Ok (offset, len)) in Hr.
    pose proof (resolve_range_bounds _ _ _ _ Hs Hr). pose proof (resolve_range_nonempty _ _ _ _ Hs Hr).
    split; [lia|]. exact (f_equal Some (content_range_exact (to_byte_range dr) _ _ _ Hs Hr)).
  - f_equal. by rewrite (bool_decide_ext _ _ Hrange).
  - intros mode. destruct (head_object_contract _ _ _ _ _ _ _ _ _ Hget) as [w'' Hh]. exists w''.
    unfold Aks3.head_object. rewrite run_bind, run_mapE. cbn. by rewrite Hh.
Qed.

(** C31: a page of a listing is within its budget.  The budget reported is the one
    asked for, brought into 0..1000, or 1000 if none was; the count reported is
    the number of objects and common prefixes on the page and never above it;
    there is a token to go on with exactly when the page is truncated; and the
    query comes back as it was sent. *)
Theorem list_objects_answer input w out w' :
  Aks3.list_objects_v2 input w = (Some (Ok out), w') →
  ∃ max_keys contents prefixes,
    lo_max_keys out = Some max_keys ∧ lo_contents out = Some contents ∧ lo_common_prefixes out = Some prefixes
    ∧ lo_key_count out = Some (Z.of_nat (length contents + length prefixes))
    ∧ (0 <= Z.of_nat (length contents + length prefixes) <= max_keys)%Z ∧ (max_keys <= 1000)%Z
    ∧ (∀ n, li_max_keys input = Some n → (0 <= n <= 1000)%Z → max_keys = n)
    ∧ (li_max_keys input = None → max_keys = 1000%Z)
    ∧ (lo_is_truncated out = Some true ↔ is_Some (lo_next_continuation_token out))
    ∧ lo_name out = Some (li_bucket input) ∧ lo_prefix out = li_prefix input
    ∧ lo_delimiter out = li_delimiter input ∧ lo_start_after out = li_start_after input
    ∧ lo_continuation_token out = li_continuation_token input.
Proof.
  unfold Aks3.list_objects_v2. rewrite run_bind, run_mapE. set (params := Aks3.list_params input).
  pose proof (wp_run _ _ _ _ w (list_objects_contract (li_bucket input) params (wdisk w))) as Hwp.
  destruct (Layer.list_objects_v2 _ _ w) as [[[page|e]|] w1]; cbn; [|done..]. intros [= <- <-].
  destruct Hwp as [Hlen Htr]. pose proof (page_size_bounds (li_max_keys input)) as Hb.
  unfold params, Aks3.list_params, Aks3.usize_or_zero in Hlen. cbn [lp_max_keys] in Hlen.
  rewrite (proj2 (Z.leb_le 0 _)) in Hlen by lia. unfold MAX_KEYS_PER_PAGE in Hb.
  exists (page_size (li_max_keys input)). eexists _, _. cbn. rewrite length_fmap.
  assert (Z.of_nat (length (lr_objects page) + length (lr_common_prefixes page)) <= page_size (li_max_keys input))%Z as Hle
    by lia.
  split_and!; try done; rewrite ?length_fmap; try lia.
  - unfold Aks3.key_count. rewrite (proj2 (Z.leb_le _ _)); [done|lia].
  - intros n -> Hn. unfold page_size, MAX_KEYS_PER_PAGE. cbn. lia.
  - by intros ->.
  - rewrite <- Htr. split; [by intros [= ->]|by intros ->].
Qed.
End handlers.

(** ** Framing *)

Section framing.
Context {HC : HttpCrate} {HCL : HttpLaws HC} {HS : HashCrates} {L : ObjectLayer}.

(** The request says its body is in aws-chunked framing. *)
Definition announces_framing (headers : HeaderMap) : Prop :=
  (∃ v token, header_text headers CONTENT_ENCODING = Some v ∧ token ∈ split (c#",") v
     ∧ to_ascii_lowercase (trim token) = b#"aws-chunked")
  ∨ is_Some (get headers X_AMZ_DECODED_CONTENT_LENGTH).

(** The request says so in the header that makes [s3s] decode it. *)
Definition signs_framing (headers : HeaderMap) : Prop :=
  ∃ v sentinel, header_text headers X_AMZ_CONTENT_SHA256 = Some v ∧ sentinel ∈ STREAMING_SENTINELS
    ∧ to_ascii_lowercase v = to_ascii_lowercase sentinel.

Lemma announces_framing_check headers :
  announces_framing headers ↔
  is_some_and declares_aws_chunked (header_text headers CONTENT_ENCODING) = true
  ∨ contains_key headers X_AMZ_DECODED_CONTENT_LENGTH = true.
Proof.
  unfold announces_framing. rewrite contains_key_get. f_equiv.
  destruct (header_text headers CONTENT_ENCODING) as [v|]; cbn [is_some_and]; [|naive_solver].
  unfold declares_aws_chunked. rewrite existsb_exists. split.
  - intros (? & token & [= <-] & Hin & Heq). exists token. split; [by apply list_elem_of_In|].
    by apply eq_ignore_ascii_case_spec.
  - intros (token & Hin & Heq). exists v, token. split_and!; [done|by apply list_elem_of_In|].
    by apply eq_ignore_ascii_case_spec in Heq.
Qed.

Lemma signs_framing_check headers :
  signs_framing headers ↔
  is_some_and (λ sentinel, existsb (eq_ignore_ascii_case sentinel) STREAMING_SENTINELS)
    (header_text headers X_AMZ_CONTENT_SHA256) = true.
Proof.
  unfold signs_framing. destruct (header_text headers X_AMZ_CONTENT_SHA256) as [v|]; cbn [is_some_and]; [|naive_solver].
  rewrite existsb_exists. split.
  - intros (? & s & [= <-] & Hin & Heq). exists s. split; [by apply list_elem_of_In|]. by apply eq_ignore_ascii_case_spec.
  - intros (s & Hin & Heq). exists v, s. split_and!; [done|by apply list_elem_of_In|].
    by apply eq_ignore_ascii_case_spec in Heq.
Qed.

(** C29: the envelope of an aws-chunked body never becomes an object.  A [PutObject]
    that announces the framing, by [Content-Encoding] or by a decoded length,
    without a sentinel that makes it decoded is answered [InvalidRequest]
    before the layer or the body is touched; no other request is refused for
    its framing. *)
Theorem chunked_framing_refused req :
  (announces_framing (req_headers req) → ¬ signs_framing (req_headers req) →
     ∃ e, Aks3.put_object req = throw e ∧ err_code e = InvalidRequest)
  ∧ (reject_contradictory_aws_chunked (req_headers req) = Ok ()
     ↔ ¬ announces_framing (req_headers req) ∨ signs_framing (req_headers req)).
Proof.
  unfold Aks3.put_object, reject_contradictory_aws_chunked. rewrite announces_framing_check, signs_framing_check.
  destruct (is_some_and declares_aws_chunked _), (contains_key _ _), (is_some_and _ (header_text _ X_AMZ_CONTENT_SHA256));
    cbn [negb andb]; (split; [intros Ha Hs|]); try (exfalso; naive_solver); try (by eexists); naive_solver.
Qed.
End framing.

(** ** The answer to a bad checksum *)

Section refusal.
Context {E : Env} {D : DataDir} `{!EnvOk E}.
Context {HC : HttpCrate} {HS : HashCrates} {MD : Md5Crate} {RD : Reads}.
Context `{!Serde VersionManifest, !Serde BucketMeta, !Serde DiskFormat}.
Context `{!HashCratesLaws HS, !Md5Laws MD, !SerdeLaws VersionManifest valid_manifest}.

(** C28: a body that does not match is refused for that reason.  Without faults,
    for an upload that could be stored, a checksum that is not the client's is
    answered [BadDigest], an announced trailer that never came
    [InvalidRequest], and nothing changes. *)
Theorem bad_checksum_answer req c body data w :
  NoFaults E → layout (vol (wdisk w)) → input_ok (req_input req) →
  let b := pi_bucket (req_input req) in let k := pi_key (req_input req) in
  is_valid_bucket_name b = true → bucket_at (vol (wdisk w)) b → puttable b k (vol (wdisk w)) →
  reject_contradictory_aws_chunked (req_headers req) = Ok () →
  detect (req_input req) (req_headers req) (req_trailing_headers req) = Some c →
  pi_body (req_input req) = Some body →
  collect (Aks3.request_body body) = Ok data → ¬ confirmed c data →
  ∃ e w', @Aks3.put_object HC HS (fs_engine_layer engine) req w = (Some (Err e), w')
    ∧ err_code e = (if bool_decide (resolve_expected (pc_expected c) = None) then InvalidRequest else BadDigest)
    ∧ ∀ b' k', utf8 k' → object_at (vol (wdisk w')) b' k' = object_at (vol (wdisk w)) b' k'.
Proof.
  intros Hnf Hlay (Hk & Hct & Hmd) b k Hb Hbkt Hpt Hrej Hdet Hbody Hdata Hconf.
  rewrite (put_object_verified req c body Hrej Hdet Hbody w).
  set (vbody := boxed (new_verifying (Aks3.request_body body) c)).
  assert (collect vbody = Err (io_error_other (BoxedChecksum (refusal c)))) as Hv.
  { unfold vbody. rewrite boxed_checked, collect_checked, Hdata. by rewrite bool_decide_eq_false_2. }
  set (opts := mkPutOpts (pi_content_type (req_input req)) (default ∅ (pi_metadata (req_input req))) (Some (pc_algorithm c))).
  pose proof (wp_run _ _ _ _ w (wp_and _ _ _ _ _ _ _ _ (wp_put_object b k vbody opts (wdisk w) Hk (conj Hct Hmd) Hlay)
    (wp_put_bucket b k vbody opts (wdisk w) Hlay))) as Hwp.
  unfold verified_put. rewrite run_bind, run_mapE. fold vbody b k opts. cbn [put_object fs_engine_layer].
  destruct (FsEngine.put_object engine b k vbody opts w) as [[[info|e]|] w'] eqn:Hrun; cbn [map_err].
  - destruct Hwp as [(data' & ns & Hc & _) _]. congruence.
  - destruct Hwp as [[[Heff Ht] Hf] _]. exists (put_error e), w'. split; [done|]. split.
    + assert (e = from_io (io_error_other (BoxedChecksum (refusal c)))) as ->.
      { destruct Hf as [?|?|err ? ? ?|err Hi|e' ? ? Hi]; [congruence|done|congruence|by apply no_injected in Hi|].
        destruct (Hi Hpt) as [err Herr]. by apply no_injected in Herr. }
      cbn. unfold refusal. case_bool_decide as Hn; [by rewrite Hn|].
      by destruct (resolve_expected (pc_expected c)).
    + by eapply cut_put_frame; try done; left.
  - exfalso. eapply (tidy_answers _ w w'); [apply tidy_put_object|exact Hrun].
Qed.
End refusal.
