(* ===== verification/ServiceSamples.v ===== *)
(** * The handlers at work

    Requests to the handlers over the engine and the data directory of
    [FsSamples], on which the theorems of [ServiceFacts] are applied. *)

From S2P Require Import Prelude RustStr RustNum RustPath Codec Paths Checksum EngineError Fs FsFacts Atomic Meta Layer Walk FsBase Listing FsEngine Tidy FsObject FsDelete FsList FsBuckets FsSamples Wire ApiError ApiChecksum Service ServiceFacts.

#[local] Existing Instance plain_crates.
#[local] Existing Instance plain_crates_laws.
#[local] Existing Instance manifest_codec.
#[local] Existing Instance manifest_codec_laws.
#[local] Existing Instance plain_md5.
#[local] Existing Instance plain_md5_laws.
#[local] Existing Instance byte_reads.
#[local] Existing Instance bucket_meta_codec.
#[local] Existing Instance disk_format_codec.
#[local] Existing Instance calm_env.
#[local] Existing Instance calm_env_ok.
#[local] Existing Instance calm_env_no_faults.
#[local] Existing Instance slash_d.
#[local] Existing Instance plain_http.
#[local] Existing Instance plain_http_laws.

Abbreviation the_layer := (fs_engine_layer engine).

(** An upload with a CRC-32C header over [hello], in two chunks. *)
Definition upload_input (body : StreamingBlob) : PutObjectInput :=
  mkPutObjectInput (b#"bkt") (b#"a/b") (Some body) (Some (b#"text/html")) None
    None (Some (checksum_of Crc32c (b#"hello"))) None None None.

Definition sample_upload (body : StreamingBlob) : S3Request PutObjectInput := mkRequest (upload_input body) ∅ None.

Definition header_checksum : PutChecksum := mkPutChecksum Crc32c (Immediate (checksum_of Crc32c (b#"hello"))).

Lemma upload_input_ok body : input_ok (upload_input body).
Proof. split_and!; [by vm_compute|by intros c [= <-]|apply map_Forall_empty]. Qed.

Lemma upload_asks body :
  asks_for (upload_input body) ∅ None Crc32c (Some (checksum_of Crc32c (b#"hello"))).
Proof. constructor; [reflexivity|]. intros [] Ha; (reflexivity || by destruct Ha). Qed.

Lemma put_object_verifies_witness :
  ∃ out w', Aks3.put_object (L := the_layer) (sample_upload [Ok (b#"hel"); Ok (b#"lo")]) at_store = (Some (Ok out), w')
    ∧ ∃ data entry, Some (checksum_of Crc32c (b#"hello")) = Some (checksum_of Crc32c data)
        ∧ on_disk (wdisk w') (b#"bkt") (b#"a/b") = Some (entry, data).
Proof.
  destruct (ran_ok (Aks3.put_object (L := the_layer) (sample_upload [Ok (b#"hel"); Ok (b#"lo")])) at_store)
    as (out & w' & Hrun); [by vm_compute|].
  exists out, w'. split; [exact Hrun|].
  pose proof (put_object_verifies (L := the_layer) (sample_upload [Ok (b#"hel"); Ok (b#"lo")]) Crc32c
    (Some (checksum_of Crc32c (b#"hello"))) at_store store_layout (upload_input_ok _)
    (upload_asks _)) as H.
  rewrite Hrun in H. destruct H as (data & entry & (body & _ & _ & Hc) & Hs & _). exists data, entry. split; [exact Hc|exact Hs].
Defined.

Lemma bad_checksum_answer_witness :
  ∃ e w', Aks3.put_object (L := the_layer) (sample_upload [Ok (b#"help")]) at_store = (Some (Err e), w')
    ∧ err_code e = BadDigest
    ∧ object_at (vol (wdisk w')) (b#"bkt") (b#"a/b") = object_at store (b#"bkt") (b#"a/b").
Proof.
  destruct (bad_checksum_answer (sample_upload [Ok (b#"help")]) header_checksum [Ok (b#"help")] (b#"help") at_store
    calm_env_no_faults store_layout (upload_input_ok _) eq_refl store_bucket sample_puttable
    eq_refl eq_refl eq_refl eq_refl ltac:(apply (bool_decide_unpack _); by vm_compute)) as (e & w' & Hrun & He & Hobj).
  exists e, w'. split; [exact Hrun|]. split; [exact He|]. exact (Hobj (b#"bkt") (b#"a/b") key_utf8).
Defined.

Definition ranged_get : GetObjectInput := mkGetObjectInput (b#"bkt") (b#"a/b") (Some (RangeInt 1 (Some 2%N))) None.

Lemma get_object_answer_witness :
  ∃ out w', Aks3.get_object (L := the_layer) ranged_get at_store = (Some (Ok out), w')
    ∧ wdisk w' = wdisk at_store
    ∧ ∃ body, goo_body out = Some (mkSyncStream false body) ∧ ∀ bytes, collect body = Ok bytes → bytes = b#"ld".
Proof.
  destruct (ran_ok (Aks3.get_object (L := the_layer) ranged_get) at_store) as (out & w' & Hrun); [by vm_compute|].
  exists out, w'. split; [exact Hrun|].
  pose proof (get_object_answer (L := the_layer) ranged_get at_store store_layout key_utf8) as H.
  rewrite Hrun in H. destruct H as (Hd & info & offset & len & body & _ & Hshow & Hr & _ & Hbody & _). split; [exact Hd|].
  exists body. split; [exact Hbody|]. destruct (Hshow old_entry (b#"old")) as [Hi Hs]; [by vm_compute|]. subst info.
  injection Hr as <- <-. intros bytes Hb. apply Hs in Hb as [-> _]. reflexivity.
Defined.

Definition listing : ListObjectsV2Input := mkListObjectsV2Input (b#"bkt") None (Some (b#"/")) None None (Some 5000%Z).

Lemma list_objects_answer_witness :
  ∃ out w' max_keys, Aks3.list_objects_v2 (L := the_layer) listing at_store = (Some (Ok out), w')
    ∧ lo_max_keys out = Some max_keys ∧ (max_keys <= 1000)%Z.
Proof.
  destruct (ran_ok (Aks3.list_objects_v2 (L := the_layer) listing) at_store) as (out & w' & Hrun); [by vm_compute|].
  destruct (list_objects_answer (L := the_layer) listing at_store out w' Hrun)
    as (max_keys & contents & prefixes & Hm & _ & _ & _ & _ & Hle & _).
  exists out, w', max_keys. split; [exact Hrun|]. split; [exact Hm|exact Hle].
Defined.

(** A body announced as aws-chunked but signed as unsigned payload. *)
Definition chunked_headers : HeaderMap :=
  <[b#"content-encoding" := b#"gzip, aws-chunked"]> (<[b#"x-amz-content-sha256" := b#"UNSIGNED-PAYLOAD"]> ∅).

Lemma chunked_framing_refused_witness :
  ∃ e, Aks3.put_object (L := the_layer) (mkRequest (upload_input [Ok (b#"hello")]) chunked_headers None) = throw e
    ∧ err_code e = InvalidRequest.
Proof.
  destruct (chunked_framing_refused (L := the_layer) (mkRequest (upload_input [Ok (b#"hello")]) chunked_headers None))
    as [H _].
  apply H; [apply announces_framing_check; left; by vm_compute|]. rewrite signs_framing_check. by intros [=].
Defined.
