(* ===== verification/Host.v ===== *)
(** * Virtual-hosted-style addressing: [crates/server/src/host.rs]

    Which [Host] headers name a bucket.  A host under a configured domain names
    the bucket its first part spells; any other host is read as path style. *)

From S2P Require Import Prelude RustStr RustNum.

(** ** The parser *)

Record VirtualHostDomains := mkVirtualHostDomains { domains : list str }.

(** [s3s::host::VirtualHost]. *)
Record VirtualHost := mkVirtualHost { vh_domain : str; vh_bucket : option str }.

(** [host_name]. *)
Definition host_name (host : str) : option str :=
  let name :=
    match rsplit_once (c#":") host with
    | Some (head, port) =>
        if negb (bool_decide (port = [])) && forallb is_ascii_digit port && negb (bool_decide (head = []))
        then head else host
    | None => host
    end in
  if starts_with name [c#"["] || is_ip_addr name then None else Some name.

(** [strip_domain_suffix]. *)
Definition strip_domain_suffix (name domain : str) : option str :=
  if (length name <? length domain)%nat then None
  else
    let split := length name - length domain in
    if (split =? 0)%nat || negb (is_char_boundary name split) then None
    else
      let prefix := take split name in
      let tail := drop split name in
      if negb (eq_ignore_ascii_case tail domain) then None
      else
        bucket ← strip_suffix prefix [c#"."];
        if bool_decide (bucket = []) then None else Some bucket.

(** [iter().find_map]. *)
Fixpoint find_map {A B} (f : A → option B) (l : list A) : option B :=
  match l with
  | [] => None
  | a :: l' => match f a with Some b => Some b | None => find_map f l' end
  end.

(** [VirtualHostDomains::bucket_of]. *)
Definition bucket_of (v : VirtualHostDomains) (host : str) : option str :=
  name ← host_name host;
  to_ascii_lowercase <$> find_map (strip_domain_suffix name) (domains v).

(** [parse_host_header]: never an error. *)
Definition parse_host_header (v : VirtualHostDomains) (host : str) : VirtualHost :=
  match bucket_of v host with
  | Some bucket => mkVirtualHost host (Some bucket)
  | None => mkVirtualHost host None
  end.

(** ** Facts *)

Lemma strip_suffix_byte p c x : strip_suffix p [c] = Some x ↔ p = x ++ [c].
Proof.
  unfold strip_suffix. destruct (ends_with p [c]) eqn:He.
  - apply ends_with_spec in He as [y ->]. rewrite length_app. cbn [length].
    replace (length y + 1 - 1) with (length y) by lia. rewrite take_app_length.
    split; [by intros [= <-]|]. intros Heq%app_inj_tail. by destruct Heq as [-> _].
  - split; [done|]. intros ->. assert (ends_with (x ++ [c]) [c] = true); [|congruence].
    apply ends_with_spec. by exists x.
Qed.

(** A name sits under a domain: a bucket, a dot, and the domain in any case. *)
Definition under (name domain bucket : str) : Prop :=
  ∃ tail, name = bucket ++ [c#"."] ++ tail ∧ to_ascii_lowercase tail = to_ascii_lowercase domain ∧ bucket ≠ [].

Lemma strip_domain_suffix_under name domain bucket :
  strip_domain_suffix name domain = Some bucket → under name domain bucket.
Proof.
  unfold strip_domain_suffix. destruct (Nat.ltb_spec (length name) (length domain)) as [|Hlen]; [done|].
  destruct (_ || _); [done|]. destruct (eq_ignore_ascii_case _ _) eqn:Heq; [|done]. cbn [negb mbind option_bind].
  destruct (strip_suffix _ _) as [x|] eqn:Hs; [|done]. cbn [mbind option_bind]. case_bool_decide as Hx; [done|]. intros [= <-].
  apply eq_ignore_ascii_case_spec in Heq. apply strip_suffix_byte in Hs. exists (drop (length name - length domain) name).
  split_and!; [|done|done]. rewrite (assoc_L (++)), <- Hs. symmetry. apply take_drop.
Qed.

(** Letters in lower case are ASCII exactly when they were. *)
Lemma lowercase_byte_cont b : is_cont (to_ascii_lowercase_byte b) = is_cont b.
Proof. byte_cases b. Qed.

Lemma boundary_tail x tail : (∀ b, head tail = Some b → is_cont b = false) →
  is_char_boundary (x ++ tail) (length x) = true.
Proof.
  intros Hh. unfold is_char_boundary. rewrite lookup_app_r, Nat.sub_diag by lia.
  destruct tail as [|b tail]; cbn; [|by rewrite Hh].
  rewrite app_nil_r. by apply bool_decide_eq_true.
Qed.

Lemma under_strip name domain bucket :
  (∀ b, head domain = Some b → is_cont b = false) →
  under name domain bucket → strip_domain_suffix name domain = Some bucket.
Proof.
  intros Hascii (tail & -> & Hlow & Hb). unfold strip_domain_suffix.
  assert (length tail = length domain) as Hlen by (by rewrite <- (to_ascii_lowercase_length tail), Hlow, to_ascii_lowercase_length).
  rewrite (assoc_L (++)), length_app, Hlen. rewrite (proj2 (Nat.ltb_ge _ _)) by lia.
  replace (length (bucket ++ [c#"."]) + length domain - length domain) with (length (bucket ++ [c#"."])) by lia.
  rewrite take_app_length, drop_app_length.
  rewrite (proj2 (Nat.eqb_neq _ _)) by (rewrite length_app; cbn; lia). cbn [orb].
  rewrite boundary_tail.
  - cbn [negb]. rewrite (proj2 (eq_ignore_ascii_case_spec _ _) Hlow). cbn [negb].
    rewrite (proj2 (strip_suffix_byte _ _ bucket) eq_refl). cbn. by rewrite bool_decide_eq_false_2.
  - intros b Ht. destruct tail as [|b' tail]; [done|]. injection Ht as ->. destruct domain as [|d domain]; [done|].
    injection Hlow as Hlow _. rewrite <- lowercase_byte_cont, Hlow, lowercase_byte_cont. by apply Hascii.
Qed.

Lemma find_map_Some {A B} (f : A → option B) l b :
  find_map f l = Some b → ∃ a, a ∈ l ∧ f a = Some b.
Proof.
  induction l as [|a l IH]; cbn; [done|]. destruct (f a) eqn:Hf.
  - intros [= ->]. exists a. split; [by left|done].
  - intros (a' & ? & ?)%IH. exists a'. split; [by right|done].
Qed.

Lemma find_map_unique {A B} (f : A → option B) l b :
  (∀ a b', a ∈ l → f a = Some b' → b' = b) → (∃ a, a ∈ l ∧ f a = Some b) → find_map f l = Some b.
Proof.
  induction l as [|a l IH]; intros Hu (a' & Hin & Ha'); [by apply not_elem_of_nil in Hin|]. cbn.
  destruct (f a) as [b'|] eqn:Hf.
  - f_equal. apply (Hu a); [by left|done].
  - apply IH; [intros a'' b' ? ?; apply (Hu a''); [by right|done]|].
    apply elem_of_cons in Hin as [->|Hin]; [congruence|eauto].
Qed.

(** ** Domains that do not overlap *)

Definition no_overlap (ds : list str) : Prop :=
  ∀ d d', d ∈ ds → d' ∈ ds → d `suffix_of` d' → d = d'.

(** A domain as the settings give it: in lower case, starting a character, and
    without a port. *)
Definition domain_ok (d : str) : Prop :=
  to_ascii_lowercase d = d ∧ (∀ b, head d = Some b → is_cont b = false) ∧ c#":" ∉ d.

Lemma suffix_total {A} (x y z : list A) : x `suffix_of` z → y `suffix_of` z → x `suffix_of` y ∨ y `suffix_of` x.
Proof.
  intros Hx Hy. destruct (decide (length x ≤ length y)) as [H|H].
  - left. destruct Hx as [a ->], Hy as [b Hb]. exists (drop (length b) a).
    assert (length a ≥ length b) by (apply (f_equal length) in Hb; rewrite !length_app in Hb; lia).
    apply (f_equal (drop (length b))) in Hb. rewrite drop_app_length in Hb. rewrite <- Hb.
    rewrite drop_app_le by lia. done.
  - right. destruct Hx as [a ->], Hy as [b Hb]. exists (drop (length a) b).
    assert (length b ≥ length a) by (apply (f_equal length) in Hb; rewrite !length_app in Hb; lia).
    apply (f_equal (drop (length a))) in Hb. rewrite drop_app_length in Hb. rewrite Hb.
    rewrite drop_app_le by lia. done.
Qed.

(** A host is under at most one of them. *)
Lemma under_unique ds name d d' x x' :
  no_overlap ds → Forall domain_ok ds → d ∈ ds → d' ∈ ds → under name d x → under name d' x' → d = d' ∧ x = x'.
Proof.
  intros Hno Hok Hd Hd' (t & Hn & Ht & _) (t' & Hn' & Ht' & _). rewrite Forall_forall in Hok.
  destruct (Hok d Hd) as [Hl _], (Hok d' Hd') as [Hl' _]. rewrite Hl in Ht. rewrite Hl' in Ht'.
  assert (d = d') as <-.
  { assert (d `suffix_of` to_ascii_lowercase name) as S.
    { rewrite Hn. unfold to_ascii_lowercase in *. rewrite !fmap_app, Ht. by do 2 apply suffix_app_r. }
    assert (d' `suffix_of` to_ascii_lowercase name) as S'.
    { rewrite Hn'. unfold to_ascii_lowercase in *. rewrite !fmap_app, Ht'. by do 2 apply suffix_app_r. }
    destruct (suffix_total _ _ _ S S'); [by apply Hno|symmetry; by apply Hno]. }
  split; [done|]. rewrite Hn' in Hn.
  assert (length t = length t') by (rewrite <- (to_ascii_lowercase_length t), <- (to_ascii_lowercase_length t'); congruence).
  rewrite !(assoc_L (++)) in Hn. apply app_inj_2 in Hn as [Hn _]; [|done]. by apply app_inj_tail in Hn as [-> _].
Qed.

Lemma bucket_of_under v host b :
  Forall domain_ok (domains v) → no_overlap (domains v) →
  bucket_of v host = Some b
  ↔ ∃ name d x, host_name host = Some name ∧ d ∈ domains v ∧ under name d x ∧ b = to_ascii_lowercase x.
Proof.
  intros Hok Hno. unfold bucket_of. destruct (host_name host) as [name|]; cbn; [|naive_solver].
  rewrite fmap_Some. split.
  - intros (x & (d & Hd & Hs)%find_map_Some & ->). exists name, d, x. split_and!; [done|done| |done].
    by apply strip_domain_suffix_under.
  - intros (? & d & x & [= <-] & Hd & Hu & ->). exists x. split; [|done]. apply find_map_unique.
    + intros d' x' Hd' Hx'%strip_domain_suffix_under. symmetry. by eapply (under_unique (domains v) name d d' x x').
    + exists d. split; [done|]. apply under_strip; [|done]. rewrite Forall_forall in Hok. by apply Hok.
Qed.

(** The port of a host is left out. *)
Lemma host_name_plain name : c#":" ∉ name →
  host_name name = if starts_with name [c#"["] || is_ip_addr name then None else Some name.
Proof.
  intros Hn. unfold host_name. destruct (rsplit_once (c#":") name) as [[x y]|] eqn:Hr; [|done].
  apply rsplit_once_Some in Hr as [-> _]. exfalso. apply Hn. set_solver.
Qed.

Lemma host_name_port name port : c#":" ∉ name → name ≠ [] → port ≠ [] → Forall (λ b, is_ascii_digit b = true) port →
  host_name (name ++ c#":" :: port) = host_name name.
Proof.
  intros Hn Hne Hp Hd. rewrite (host_name_plain name Hn). unfold host_name.
  assert (rsplit_once (c#":") (name ++ c#":" :: port) = Some (name, port)) as ->.
  { apply rsplit_once_Some. split; [done|]. intros Hin. rewrite Forall_forall in Hd. by specialize (Hd _ Hin). }
  rewrite bool_decide_eq_false_2 by done. rewrite bool_decide_eq_false_2 by done. cbn [negb andb].
  assert (forallb is_ascii_digit port = true) as ->; [|done].
  apply forallb_forall. intros b Hb. rewrite Forall_forall in Hd. apply Hd. by apply list_elem_of_In.
Qed.

(** C32: a [Host] header names a bucket exactly when it says so under a configured
    domain.  For domains in lower case that do not overlap, a host names a
    bucket if and only if its name, without the port, is a nonempty label (or
    several), a dot and one of the domains in any case, and is not an address;
    the bucket is what stands before the dot, in lower case.  So every host
    [bucket.domain] and [bucket.domain:port] reads back as the bucket, the
    endpoint itself and foreign hosts are path style, and no host is an
    error. *)
Theorem virtual_host_spec v :
  Forall domain_ok (domains v) → no_overlap (domains v) →
  (∀ host, vh_domain (parse_host_header v host) = host)
  ∧ (∀ host b, vh_bucket (parse_host_header v host) = Some b
       ↔ ∃ name d x, host_name host = Some name ∧ d ∈ domains v ∧ under name d x ∧ b = to_ascii_lowercase x)
  ∧ (∀ x d port, d ∈ domains v → x ≠ [] →
       let name := x ++ [c#"."] ++ d in
       c#":" ∉ name → starts_with name [c#"["] = false → is_ip_addr name = false →
       port = [] ∨ (∃ digits, port = c#":" :: digits ∧ digits ≠ [] ∧ Forall (λ b, is_ascii_digit b = true) digits) →
       vh_bucket (parse_host_header v (name ++ port)) = Some (to_ascii_lowercase x))
  ∧ (∀ d, d ∈ domains v → vh_bucket (parse_host_header v d) = None).
Proof.
  intros Hok Hno.
  assert (∀ host, vh_bucket (parse_host_header v host) = bucket_of v host) as Hb
    by (intros host; unfold parse_host_header; by destruct (bucket_of v host)).
  split_and!.
  - intros host. unfold parse_host_header. by destruct (bucket_of v host).
  - intros host b. rewrite Hb. by apply bucket_of_under.
  - intros x d port Hd Hx name Hc Hbr Hip Hport. rewrite Hb. apply bucket_of_under; [done..|].
    exists name, d, x. split_and!; [|done| |done].
    + assert (host_name name = Some name) as Hn by (by rewrite host_name_plain, Hbr, Hip).
      destruct Hport as [->|(digits & -> & ? & ?)]; [by rewrite app_nil_r|].
      rewrite host_name_port; [done|done| |done|done]. unfold name. by destruct x.
    + by exists d.
  - intros d Hd. rewrite Hb. destruct (bucket_of v d) as [b|] eqn:Hbd; [exfalso|done].
    apply bucket_of_under in Hbd as (name & d' & x & Hn & Hd' & (tail & -> & Ht & Hx) & _); [|done..].
    rewrite Forall_forall in Hok. destruct (Hok d Hd) as (Hl & _ & Hc), (Hok d' Hd') as (Hl' & _).
    rewrite host_name_plain in Hn by done. destruct (_ || _); [done|]. injection Hn as Hn.
    assert (d' `suffix_of` d) as Hs.
    { rewrite <- Hl, Hn. unfold to_ascii_lowercase in *. rewrite fmap_app, fmap_cons, Ht, Hl'.
      apply suffix_app_r. by exists [to_ascii_lowercase_byte (c#".")]. }
    apply Hno in Hs; [|done..]. rewrite Hl' in Ht. apply (f_equal length) in Hs. rewrite <- Ht, to_ascii_lowercase_length in Hs.
    rewrite Hn, length_app in Hs. cbn in Hs. lia.
Qed.

Definition two_domains : VirtualHostDomains := mkVirtualHostDomains [b#"s3.example.com"; b#"objects.test"].

Lemma virtual_host_spec_witness :
  vh_bucket (parse_host_header two_domains (b#"MyBucket.objects.test:9000")) = Some (b#"mybucket")
  ∧ vh_bucket (parse_host_header two_domains (b#"s3.example.com")) = None.
Proof.
  destruct (virtual_host_spec two_domains) as (_ & _ & Hrt & Hend).
  - apply Forall_cons; split; [|apply Forall_singleton];
      (split_and!; [by vm_compute|by intros b [= <-]|apply (bool_decide_unpack _); by vm_compute]).
  - intros d d'. cbn [two_domains domains]. rewrite !elem_of_cons, !elem_of_nil. intros Hd Hd' Hs.
    destruct Hd as [->|[->|[]]], Hd' as [->|[->|[]]]; try done; exfalso;
      apply ends_with_spec in Hs; by vm_compute in Hs.
  - split; [|apply Hend; by left].
    apply (Hrt (b#"MyBucket") (b#"objects.test") (b#":9000")); try (by vm_compute).
    + right. by left.
    + apply (bool_decide_unpack _). by vm_compute.
    + right. exists (b#"9000"). split_and!; [done|done|]. apply (bool_decide_unpack _). by vm_compute.
Defined.
