(* ===== verification/Config.v ===== *)
(** * Settings: [crates/server/src/config.rs]

    A TOML file overridden by the environment.  The TOML parser is a parameter,
    as is the file system it reads from; the checks on the values are modelled
    in full.  The domains that pass them are proved to be unambiguous for the
    host parser. *)

From Stdlib Require Import Strings.Byte.
From S2P Require Import Prelude RustStr RustNum RustPath Checksum EngineError Host.

(** ** Data *)

Definition DEFAULT_LISTEN : str := b#"127.0.0.1:9000".
Definition DEFAULT_DATA_DIR : str := b#"./data".
Definition DEFAULT_SHUTDOWN_GRACE_SECONDS : N := 8.
Definition MAX_SHUTDOWN_GRACE_SECONDS : N := 600.

Definition ENV_LISTEN : str := b#"AKS3_LISTEN".
Definition ENV_DATA_DIR : str := b#"AKS3_DATA_DIR".
Definition ENV_ROOT_USER : str := b#"AKS3_ROOT_USER".
Definition ENV_ROOT_PASSWORD : str := b#"AKS3_ROOT_PASSWORD".
Definition ENV_SHUTDOWN_GRACE : str := b#"AKS3_SHUTDOWN_GRACE".
Definition ENV_VIRTUAL_HOST_DOMAINS : str := b#"AKS3_VIRTUAL_HOST_DOMAINS".

(** [toml::de::Error]; never looked into. *)
Record toml_error := mkTomlError { te_message : str }.

Inductive ConfigError :=
  | CfgRead (path : PathBuf) (source : io_error)
  | CfgParse (path : PathBuf) (source : toml_error)
  | CfgMissing (variable : str)
  | CfgInvalid (setting value expected : str).

Record TlsConfig := mkTlsConfig { cert_pem : PathBuf; key_pem : PathBuf }.

Record Config := mkConfig {
  listen : str;
  data_dir : PathBuf;
  root_access_key : str;
  root_secret_key : str;
  cfg_shutdown_grace_seconds : N;
  cfg_virtual_host_domains : list str;
  tls : option TlsConfig;
}.

Record FileConfig := mkFileConfig {
  f_listen : option str;
  f_data_dir : option PathBuf;
  f_root_access_key : option str;
  f_root_secret_key : option str;
  f_shutdown_grace_seconds : option N;
  f_virtual_host_domains : option (list str);
  f_tls : option TlsConfig;
}.

(** [FileConfig::default]. *)
Definition default_file : FileConfig := mkFileConfig None None None None None None None.

(** ** Checks *)

(** [is_hostname]. *)
Definition is_hostname (s : str) : bool :=
  negb (bool_decide (s = []))
  && forallb (λ label, negb (bool_decide (label = []))
                       && forallb (λ b, is_ascii_alphanumeric b || bool_decide (b = c#"-")) label)
       (split (c#".") s).

Definition DOMAINS_SETTING : str := b#"virtual_host_domains".

(** The example the messages quote. *)
Definition EXAMPLE_DOMAIN : str := [Byte.x22] ++ b#"s3.example.com" ++ [Byte.x22].

(** The loop over the listed domains, from the ones accepted so far. *)
Fixpoint accept_domains (listed accepted : list str) : result (list str) ConfigError :=
  match listed with
  | [] => Ok accepted
  | domain :: listed' =>
      if contains domain [c#":"] then
        Err (CfgInvalid DOMAINS_SETTING domain
          (b#"a hostname without a port, such as " ++ EXAMPLE_DOMAIN
           ++ b#" (the port a client connects to is not part of the name it sends)"))
      else if negb (is_hostname domain) then
        Err (CfgInvalid DOMAINS_SETTING domain
          (b#"a hostname of dot-separated letters, digits and hyphens, such as " ++ EXAMPLE_DOMAIN))
      else
        match list_find (λ other, ends_with domain other || ends_with other domain = true) accepted with
        | Some (_, other) =>
            Err (CfgInvalid DOMAINS_SETTING (domain ++ b#" and " ++ other)
              (b#"domains that do not overlap, so that a host under one of them names one bucket"))
        | None => accept_domains listed' (accepted ++ [domain])
        end
  end.

(** The listed domains of either source. *)
Definition listed_domains (from_env : option str) (from_file : option (list str)) : list str :=
  match from_env with
  | Some text => to_ascii_lowercase <$> filter (λ part, part ≠ []) (trim <$> split (c#",") text)
  | None => filter (λ domain, domain ≠ []) ((λ domain, to_ascii_lowercase (trim domain)) <$> default [] from_file)
  end.

(** [virtual_host_domains]. *)
Definition virtual_host_domains (from_env : option str) (from_file : option (list str))
    : result (list str) ConfigError :=
  accept_domains (listed_domains from_env from_file) [].

Definition GRACE_SETTING : str := b#"shutdown_grace_seconds".
Definition GRACE_EXPECTED : str := b#"a whole number of seconds, at most 600".

(** [shutdown_grace_seconds]. *)
Definition shutdown_grace_seconds (from_env : option str) (from_file : option N) : result N ConfigError :=
  let? seconds :=
    match from_env with
    | Some text => ok_or (parse_u64 text) (CfgInvalid GRACE_SETTING text GRACE_EXPECTED)
    | None => Ok (default DEFAULT_SHUTDOWN_GRACE_SECONDS from_file)
    end in
  if (MAX_SHUTDOWN_GRACE_SECONDS <? seconds)%N
  then Err (CfgInvalid GRACE_SETTING (to_string seconds) GRACE_EXPECTED)
  else Ok seconds.

(** ** Loading *)

(** [Option::or]. *)
Definition or {A} (x y : option A) : option A := match x with Some a => Some a | None => y end.

Section load.
(** The file system at startup, and the [toml] crate. *)
Context (read_to_string : PathBuf → result str io_error) (toml_from_str : str → result FileConfig toml_error).

(** The file, or nothing. *)
Definition load_file (path : option PathBuf) : result FileConfig ConfigError :=
  match path with
  | Some path =>
      let? text := map_err (CfgRead path) (read_to_string path) in
      map_err (CfgParse path) (toml_from_str text)
  | None => Ok default_file
  end.

(** The settings out of a file and an environment, in the order of the fields. *)
Definition settle (file : FileConfig) (env : str → option str) : result Config ConfigError :=
  let listen := default DEFAULT_LISTEN (or (env ENV_LISTEN) (f_listen file)) in
  let data_dir := default (parse DEFAULT_DATA_DIR) (or (parse <$> env ENV_DATA_DIR) (f_data_dir file)) in
  let? root_access_key := ok_or (or (env ENV_ROOT_USER) (f_root_access_key file)) (CfgMissing ENV_ROOT_USER) in
  let? root_secret_key := ok_or (or (env ENV_ROOT_PASSWORD) (f_root_secret_key file)) (CfgMissing ENV_ROOT_PASSWORD) in
  let? grace := shutdown_grace_seconds (env ENV_SHUTDOWN_GRACE) (f_shutdown_grace_seconds file) in
  let? domains := virtual_host_domains (env ENV_VIRTUAL_HOST_DOMAINS) (f_virtual_host_domains file) in
  Ok (mkConfig listen data_dir root_access_key root_secret_key grace domains (f_tls file)).

(** [Config::load_from]. *)
Definition load_from (path : option PathBuf) (env : str → option str) : result Config ConfigError :=
  let? file := load_file path in settle file env.

(** [Config::load]: the environment of the process; a variable that is not Unicode
    counts as not set. *)
Definition load {VarError} (env_var : str → result str VarError) (path : option PathBuf) : result Config ConfigError :=
  load_from path (λ name, match env_var name with Ok value => Some value | Err _ => None end).
End load.

(** What [debug_struct] is given for a field. *)
Inductive debug_value :=
  | DebugStr (s : str)
  | DebugPath (p : PathBuf)
  | DebugNum (n : N)
  | DebugStrs (l : list str)
  | DebugTls (t : option TlsConfig).

(** [impl Debug for Config]: the fields it shows. *)
Definition config_debug_fields (c : Config) : list (str * debug_value) :=
  [(b#"listen", DebugStr (listen c)); (b#"data_dir", DebugPath (data_dir c));
   (b#"root_access_key", DebugStr (root_access_key c)); (b#"root_secret_key", DebugStr (b#"[REDACTED]"));
   (b#"shutdown_grace_seconds", DebugNum (cfg_shutdown_grace_seconds c));
   (b#"virtual_host_domains", DebugStrs (cfg_virtual_host_domains c)); (b#"tls", DebugTls (tls c))].

(** ** Facts *)

Lemma split_snoc c a x : c ∉ a → split c (a ++ c :: x) = a :: split c x.
Proof.
  intros Ha. induction a as [|y a IH]; cbn; [by rewrite bool_decide_eq_true_2|].
  rewrite bool_decide_eq_false_2 by set_solver. by rewrite IH by set_solver.
Qed.

Lemma is_hostname_head d b : is_hostname d = true → head d = Some b → is_cont b = false.
Proof.
  unfold is_hostname. rewrite andb_true_iff. intros [_ Hall] Hh. destruct d as [|x d]; [done|]. injection Hh as ->.
  cbn in Hall. case_bool_decide as Hb; [by subst; vm_compute|].
  destruct (split _ d) as [|p ps]; cbn in Hall.
  all: apply andb_true_iff in Hall as [[Hb' _]%andb_true_iff _]; clear -Hb'; by destruct b.
Qed.

(** What an accepted list is. *)
Definition accepted_ok (ds : list str) : Prop :=
  Forall (λ d, is_hostname d = true ∧ to_ascii_lowercase d = d ∧ c#":" ∉ d) ds ∧ NoDup ds ∧ no_overlap ds.

Lemma accept_domains_ok listed accepted ds :
  Forall (λ d, to_ascii_lowercase d = d) listed → accepted_ok accepted →
  accept_domains listed accepted = Ok ds → accepted_ok ds.
Proof.
  revert accepted. induction listed as [|d listed IH]; intros accepted Hl Hacc; cbn [accept_domains]; [by intros [= <-]|].
  apply Forall_cons in Hl as [Hd Hl]. destruct (contains d [c#":"]) eqn:Hcolon; [done|]. destruct (is_hostname d) eqn:Hh; [|done]. cbn [negb].
  destruct (list_find _ _) as [[? ?]|] eqn:Hf; [done|]. apply IH; [done|].
  rewrite list_find_None, Forall_forall in Hf. destruct Hacc as (Hok & Hnd & Hno).
  assert (∀ o, o ∈ accepted → ¬ o `suffix_of` d ∧ ¬ d `suffix_of` o) as Hsep.
  { intros o Ho. specialize (Hf o Ho). rewrite orb_true_iff, !ends_with_spec in Hf. tauto. }
  split_and!.
  - apply Forall_app. split; [done|]. apply Forall_singleton. split_and!; [done|done|].
    rewrite <- contains_byte. by rewrite Hcolon.
  - apply NoDup_app. split_and!; [done| |apply NoDup_singleton].
    intros o Ho ->%list_elem_of_singleton. by destruct (Hsep d Ho).
  - intros x y Hx Hy Hxy. apply elem_of_app in Hx as [Hx|Hx%list_elem_of_singleton], Hy as [Hy|Hy%list_elem_of_singleton];
      subst; [by apply Hno| | |done]; exfalso; [by destruct (Hsep x Hx)|by destruct (Hsep y Hy)].
Qed.

Lemma listed_domains_lower from_env from_file :
  Forall (λ d, to_ascii_lowercase d = d) (listed_domains from_env from_file).
Proof.
  unfold listed_domains. destruct from_env as [text|].
  - apply Forall_fmap, Forall_forall. intros x _. apply to_ascii_lowercase_idem.
  - apply Forall_forall. intros d [_ (x & -> & _)%list_elem_of_fmap]%list_elem_of_filter. apply to_ascii_lowercase_idem.
Qed.

Lemma virtual_host_domains_ok from_env from_file ds :
  virtual_host_domains from_env from_file = Ok ds → accepted_ok ds.
Proof.
  apply accept_domains_ok; [apply listed_domains_lower|]. split_and!; [constructor|constructor|].
  by intros x y ?%not_elem_of_nil.
Qed.

Lemma accepted_domain_ok ds : accepted_ok ds → Forall domain_ok ds.
Proof.
  intros [H _]. eapply Forall_impl; [exact H|]. intros d (Hh & Hl & Hc). split_and!; [done| |done].
  intros b. by apply is_hostname_head.
Qed.

(** ** The theorems *)

(** C33: the domains the server starts with are unambiguous.  Every accepted
    domain is a hostname in lower case without a port, no two overlap, and so
    the bucket a [Host] header names does not depend on the order in which the
    settings list the domains. *)
Theorem configured_domains_unambiguous from_env from_file ds :
  virtual_host_domains from_env from_file = Ok ds →
  Forall (λ d, is_hostname d = true ∧ to_ascii_lowercase d = d ∧ c#":" ∉ d) ds ∧ NoDup ds
  ∧ (∀ d d', d ∈ ds → d' ∈ ds → d `suffix_of` d' → d = d')
  ∧ ∀ ds' host, ds' ≡ₚ ds →
      parse_host_header (mkVirtualHostDomains ds') host = parse_host_header (mkVirtualHostDomains ds) host.
Proof.
  intros Hds. pose proof (virtual_host_domains_ok _ _ _ Hds) as Hok. pose proof Hok as (Hall & Hnd & Hno).
  split_and!; [done..|]. intros ds' host Hperm.
  assert (bucket_of (mkVirtualHostDomains ds') host = bucket_of (mkVirtualHostDomains ds) host) as Heq;
    [|unfold parse_host_header; by rewrite Heq].
  apply option_eq. intros b. rewrite !bucket_of_under; cbn [domains]; try (by apply accepted_domain_ok); try done.
  - by setoid_rewrite Hperm.
  - rewrite Hperm. by apply accepted_domain_ok.
  - intros d d'. rewrite Hperm. apply Hno.
Qed.

(** The drain window is settled and bounded.  A setting is accepted if and
    only if it is a decimal [u64] (or the file's number, or the default of
    eight) of at most 600, and it is that number; anything else, a number that
    overflows included, is reported with the setting's name and what it should
    have been. *)
Theorem shutdown_grace_spec from_env from_file :
  match shutdown_grace_seconds from_env from_file with
  | Ok n => (n <= 600)%N
      ∧ match from_env with
        | Some text => parse_u64 text = Some n
        | None => n = default 8%N from_file
        end
  | Err e => (∃ value, e = CfgInvalid (b#"shutdown_grace_seconds") value (b#"a whole number of seconds, at most 600"))
      ∧ match from_env with
        | Some text => ∀ n, parse_u64 text = Some n → (600 < n)%N
        | None => ∃ n, from_file = Some n ∧ (600 < n)%N
        end
  end
  ∧ ∀ n, (n <= 600)%N → shutdown_grace_seconds (Some (to_string n)) from_file = Ok n.
Proof.
  unfold shutdown_grace_seconds. split.
  - destruct from_env as [text|]; [destruct (parse_u64 text) as [n|]; cbn [ok_or]|].
    + destruct (N.ltb_spec MAX_SHUTDOWN_GRACE_SECONDS n) as [H|H]; unfold MAX_SHUTDOWN_GRACE_SECONDS in H; [|done].
      split; [by eexists|]. by intros m [= <-].
    + split; [by eexists|done].
    + destruct (N.ltb_spec MAX_SHUTDOWN_GRACE_SECONDS (default DEFAULT_SHUTDOWN_GRACE_SECONDS from_file)) as [H|H];
        unfold MAX_SHUTDOWN_GRACE_SECONDS in H; [|done].
      split; [by eexists|]. destruct from_file as [n|]; [by exists n|]. by vm_compute in H.
  - intros n Hn. rewrite parse_to_string by (unfold u64_MAX; lia). cbn [ok_or].
    by rewrite (proj2 (N.ltb_ge _ _)) by (unfold MAX_SHUTDOWN_GRACE_SECONDS; lia).
Qed.

(** Two files that agree where the environment is silent. *)
Definition agree (env : str → option str) (f f' : FileConfig) : Prop :=
  (env ENV_LISTEN = None → f_listen f = f_listen f')
  ∧ (env ENV_DATA_DIR = None → f_data_dir f = f_data_dir f')
  ∧ (env ENV_ROOT_USER = None → f_root_access_key f = f_root_access_key f')
  ∧ (env ENV_ROOT_PASSWORD = None → f_root_secret_key f = f_root_secret_key f')
  ∧ (env ENV_SHUTDOWN_GRACE = None → f_shutdown_grace_seconds f = f_shutdown_grace_seconds f')
  ∧ (env ENV_VIRTUAL_HOST_DOMAINS = None → f_virtual_host_domains f = f_virtual_host_domains f')
  ∧ f_tls f = f_tls f'.

(** The environment wins.  Whatever the environment sets, the file's value for
    it does not matter: two files that differ only there give the same settings
    or the same error; and without a file and with the credential pair in the
    environment the server starts on the defaults. *)
Theorem environment_wins read toml path path' env f f' :
  load_file read toml path = Ok f → load_file read toml path' = Ok f' → agree env f f' →
  load_from read toml path env = load_from read toml path' env
  ∧ ∀ user password, env ENV_ROOT_USER = Some user → env ENV_ROOT_PASSWORD = Some password →
      env ENV_LISTEN = None → env ENV_DATA_DIR = None → env ENV_SHUTDOWN_GRACE = None →
      env ENV_VIRTUAL_HOST_DOMAINS = None →
      load_from read toml None env
      = Ok (mkConfig (b#"127.0.0.1:9000") [CurDir; Normal (b#"data")] user password 8 [] None).
Proof.
  intros Hf Hf' (H1 & H2 & H3 & H4 & H5 & H6 & H7). split.
  - unfold load_from. rewrite Hf, Hf'. unfold settle, shutdown_grace_seconds, virtual_host_domains, listed_domains.
    destruct (env ENV_LISTEN), (env ENV_DATA_DIR), (env ENV_ROOT_USER), (env ENV_ROOT_PASSWORD),
      (env ENV_SHUTDOWN_GRACE), (env ENV_VIRTUAL_HOST_DOMAINS); cbn [or fmap option_fmap option_map];
      rewrite ?H1, ?H2, ?H3, ?H4, ?H5, ?H6, ?H7 by done; done.
  - intros user password Hu Hp Hl Hd Hg Hv. unfold load_from, load_file, settle. rewrite Hu, Hp, Hl, Hd, Hg, Hv.
    by vm_compute.
Qed.

(** ** The theorems at work *)

Lemma configured_domains_unambiguous_witness :
  virtual_host_domains (Some (b#" S3.Example.com ,, objects.test ")) None = Ok [b#"s3.example.com"; b#"objects.test"]
  ∧ ∀ host, parse_host_header (mkVirtualHostDomains [b#"objects.test"; b#"s3.example.com"]) host
            = parse_host_header (mkVirtualHostDomains [b#"s3.example.com"; b#"objects.test"]) host.
Proof.
  assert (virtual_host_domains (Some (b#" S3.Example.com ,, objects.test ")) None
          = Ok [b#"s3.example.com"; b#"objects.test"]) as H by by vm_compute.
  split; [exact H|]. intros host. apply (configured_domains_unambiguous _ _ _ H). constructor.
Defined.

(** A file that sets everything, and one that sets nothing but the credentials. *)
Definition full_file : FileConfig :=
  mkFileConfig (Some (b#"0.0.0.0:80")) (Some (parse (b#"/srv"))) (Some (b#"user")) (Some (b#"password"))
    (Some 30%N) (Some [b#"s3.example.com"]) None.

Definition sample_env (name : str) : option str :=
  if bool_decide (name = ENV_ROOT_USER) then Some (b#"root")
  else if bool_decide (name = ENV_ROOT_PASSWORD) then Some (b#"secret-key")
  else if bool_decide (name = ENV_LISTEN) then Some (b#"[::1]:9000")
  else if bool_decide (name = ENV_DATA_DIR) then Some (b#"/var/lib/aks3")
  else if bool_decide (name = ENV_SHUTDOWN_GRACE) then Some (b#"+20")
  else if bool_decide (name = ENV_VIRTUAL_HOST_DOMAINS) then Some []
  else None.

Lemma environment_wins_witness :
  load_from (λ _, Ok []) (λ _, Ok full_file) (Some []) sample_env
  = load_from (λ _, Ok []) (λ _, Ok full_file) None sample_env
  ∧ load_from (λ _, Ok []) (λ _, Ok full_file) None sample_env
    = Ok (mkConfig (b#"[::1]:9000") (parse (b#"/var/lib/aks3")) (b#"root") (b#"secret-key") 20 [] None).
Proof.
  split; [|by vm_compute].
  apply (environment_wins (λ _, Ok []) (λ _, Ok full_file) (Some []) None sample_env full_file default_file eq_refl eq_refl).
  unfold agree. split_and!; try done; by vm_compute.
Defined.
