(* ===== verification/Iam.v ===== *)
(** * Identity: [crates/iam/src/lib.rs]

    The root credential pair and the provider that answers a request's access
    key with the secret to check its signature against. *)

From S2P Require Import Prelude RustStr Checksum EngineError Fs Meta Layer Wire.

Definition MIN_ACCESS_KEY_LEN : nat := 3.
Definition MIN_SECRET_KEY_LEN : nat := 8.
Definition REDACTED : str := b#"[REDACTED]".

Inductive CredentialsError := AccessKeyTooShort | SecretKeyTooShort.

Record RootCredentials := mkRootCredentials { access_key : str; secret_key : str }.

(** [s.chars().count()]; a Rust string always decodes. *)
Definition char_count (s : str) : nat := match chars s with Some cs => length cs | None => 0 end.

(** [RootCredentials::new]. *)
Definition new_credentials (access_key secret_key : str) : result RootCredentials CredentialsError :=
  if (char_count access_key <? MIN_ACCESS_KEY_LEN)%nat then Err AccessKeyTooShort
  else if (char_count secret_key <? MIN_SECRET_KEY_LEN)%nat then Err SecretKeyTooShort
  else Ok (mkRootCredentials access_key secret_key).

(** [impl Debug for RootCredentials]: the fields it shows. *)
Definition debug_fields (c : RootCredentials) : list (str * str) :=
  [(b#"access_key", access_key c); (b#"secret_key", REDACTED)].

Record IamAuth := mkIamAuth { auth_root : RootCredentials }.

(** [S3Auth::get_secret_key]. *)
Definition get_secret_key (auth : IamAuth) (key : str) : result str S3Error :=
  if bool_decide (key = access_key (auth_root auth)) then Ok (secret_key (auth_root auth))
  else Err (s3_error_bare InvalidAccessKeyId).

(** ** Theorems *)

(** The length of a string in characters, independent of how they are encoded. *)
Lemma char_count_of_chars cs : Forall is_char cs → char_count (of_chars cs) = length cs.
Proof. intros Hcs. unfold char_count. by rewrite (proj2 (chars_spec _ cs) (conj eq_refl Hcs)). Qed.

(** Only a request that names the root access key is given a secret.  A pair
    is accepted exactly when its access key has at least three characters and
    its secret at least eight, counted as characters and not as bytes, the
    access key being reported first; the provider built from an accepted pair
    answers that access key with that secret and every other key, however
    close, with [InvalidAccessKeyId]; and what is printed of a pair does not
    depend on the secret. *)
Theorem root_credentials_spec acs scs :
  Forall is_char acs → Forall is_char scs →
  let access := of_chars acs in let secret := of_chars scs in
  match new_credentials access secret with
  | Ok c =>
      3 ≤ length acs ∧ 8 ≤ length scs
      ∧ (∀ key, get_secret_key (mkIamAuth c) key = Ok secret ↔ key = access)
      ∧ (∀ key, key ≠ access → get_secret_key (mkIamAuth c) key = Err (mkS3Error InvalidAccessKeyId None))
      ∧ ∀ secret', debug_fields c = debug_fields (mkRootCredentials access secret')
  | Err AccessKeyTooShort => length acs < 3
  | Err SecretKeyTooShort => 3 ≤ length acs ∧ length scs < 8
  end.
Proof.
  intros Ha Hs access secret. unfold new_credentials. unfold access, secret.
  rewrite !char_count_of_chars by done. unfold MIN_ACCESS_KEY_LEN, MIN_SECRET_KEY_LEN.
  destruct (Nat.ltb_spec (length acs) 3); [done|]. destruct (Nat.ltb_spec (length scs) 8); [done|].
  split_and!; [lia|lia| | |done]; unfold get_secret_key; cbn.
  - intros key. case_bool_decide; naive_solver.
  - intros key Hkey. by rewrite bool_decide_eq_false_2.
Qed.

(** Eight accented letters, sixteen bytes. *)
Lemma root_credentials_spec_witness :
  let access := of_chars [0x61; 0x62; 0x63]%N in let secret := of_chars (replicate 8 0xE9%N) in
  new_credentials access secret = Ok (mkRootCredentials access secret)
  ∧ ∀ key, get_secret_key (mkIamAuth (mkRootCredentials access secret)) key = Ok secret ↔ key = access.
Proof.
  intros access secret.
  assert (new_credentials access secret = Ok (mkRootCredentials access secret)) as Hnew by by vm_compute.
  split; [exact Hnew|].
  pose proof (root_credentials_spec [0x61; 0x62; 0x63]%N (replicate 8 0xE9%N)) as H. cbn zeta in H.
  fold access secret in H. rewrite Hnew in H. apply H; apply Forall_forall; intros c Hc; left.
  - rewrite !elem_of_cons, elem_of_nil in Hc. naive_solver lia.
  - apply elem_of_replicate in Hc as [-> _]. lia.
Defined.
