(* ===== verification/Serve.v ===== *)
(** * Starting and stopping the server: [crates/server/src/serve.rs]

    [run] opens the store, checks the credentials, assembles the service, loads
    the TLS material and binds the listener, in that order; then the accept loop
    hands connections out until the shutdown trigger resolves, and drains.  The
    PEM and TLS libraries, the sockets and the file system outside the data
    directory are parameters; the loop is a timed transition system. *)

From S2P Require Import Prelude RustStr RustNum RustPath Codec Paths Checksum EngineError Fs FsFacts Atomic Meta Layer Walk FsBase Listing FsEngine Tidy FsObject FsDelete FsList FsBuckets FsOpen FsSamples Wire ApiError ApiChecksum Service Host Config Iam.

(** ** Starting *)

Inductive TlsError :=
  | OpeningCertificate (e : io_error)
  | ReadingCertificate
  | NoCertificate
  | OpeningPrivateKey (e : io_error)
  | ReadingPrivateKey
  | NoPrivateKey
  | KeyMismatch.

Inductive StartError :=
  | OpeningStore (e : EngineError)
  | CredentialsRejected (e : CredentialsError)
  | TlsRejected (e : TlsError)
  | Binding (e : io_error)
  | ReadingAddress (e : io_error).

(** What the server takes from outside: files by path, [rustls_pemfile],
    [rustls] and the listener. *)
Class Outside := {
  Certificate : Type;
  PrivateKey : Type;
  ServerConfig : Type;
  SocketAddr : Type;
  Listener : Type;
  open_outside : PathBuf → result str io_error;
  pem_certs : str → list (result Certificate unit);
  pem_private_key : str → result (option PrivateKey) unit;
  with_single_cert : list Certificate → PrivateKey → result ServerConfig unit;
  bind_listener : str → result Listener io_error;
  local_addr : Listener → result SocketAddr io_error;
}.

(** The accepted TLS material, with the protocols offered. *)
Record TlsAcceptor `{Outside} := mkTlsAcceptor { acceptor_config : ServerConfig; alpn_protocols : list str }.

Arguments mkTlsAcceptor {_}.

Inductive Transport `{Outside} :=
  | Plain
  | Tls (acceptor : TlsAcceptor).

Definition ALPN_PROTOCOLS : list str := [b#"h2"; b#"http/1.1"].

(** [S3ServiceBuilder]: the layer, the auth provider and the host parser. *)
Record S3Service := mkS3Service {
  svc_engine : FsEngine.t;
  svc_auth : option IamAuth;
  svc_host : option VirtualHostDomains;
}.

(** [collect::<Result<Vec<_>, _>>()]. *)
Fixpoint collect_results {A X} (l : list (result A X)) : result (list A) X :=
  match l with
  | [] => Ok []
  | Ok a :: l' => let? rest := collect_results l' in Ok (a :: rest)
  | Err e :: _ => Err e
  end.

Section start.
Context {E : Env} `{!Serde DiskFormat} {O : Outside}.

(** [load_certs]. *)
Definition load_certs (path : PathBuf) : result (list Certificate) TlsError :=
  let? file := map_err OpeningCertificate (open_outside path) in
  let? certs := map_err (λ _, ReadingCertificate) (collect_results (pem_certs file)) in
  match certs with [] => Err NoCertificate | _ => Ok certs end.

(** [load_private_key]. *)
Definition load_private_key (path : PathBuf) : result PrivateKey TlsError :=
  let? file := map_err OpeningPrivateKey (open_outside path) in
  let? key := map_err (λ _, ReadingPrivateKey) (pem_private_key file) in
  ok_or key NoPrivateKey.

(** [tls_acceptor]. *)
Definition tls_acceptor (tls : TlsConfig) : result TlsAcceptor TlsError :=
  let? certs := load_certs (cert_pem tls) in
  let? key := load_private_key (key_pem tls) in
  let? config := map_err (λ _, KeyMismatch) (with_single_cert certs key) in
  Ok (mkTlsAcceptor config ALPN_PROTOCOLS).

(** The service of [run]: a host parser only if there is a domain to match. *)
Definition build_service (engine : FsEngine.t) (credentials : RootCredentials) (domains : list str) : S3Service :=
  mkS3Service engine (Some (mkIamAuth credentials))
    (if bool_decide (domains = []) then None else Some (mkVirtualHostDomains domains)).

(** What [run] has in hand when it enters the accept loop. *)
Record Started := mkStarted {
  st_service : S3Service;
  st_transport : Transport;
  st_addr : SocketAddr;
  st_grace_ms : N;
}.

(** [run], up to the accept loop. *)
Definition start (cfg : Config) : M StartError Started :=
  engine <- mapE OpeningStore (FsEngine.open (data_dir cfg));;
  credentials <- lift (map_err CredentialsRejected (new_credentials (root_access_key cfg) (root_secret_key cfg)));;
  let service := build_service engine credentials (cfg_virtual_host_domains cfg) in
  transport <- lift (match tls cfg with
                     | Some t => let? acceptor := map_err TlsRejected (tls_acceptor t) in Ok (Tls acceptor)
                     | None => Ok Plain
                     end);;
  listener <- lift (map_err Binding (bind_listener (listen cfg)));;
  addr <- lift (map_err ReadingAddress (local_addr listener));;
  ret (mkStarted service transport addr (cfg_shutdown_grace_seconds cfg * 1000)).

Lemma start_grace cfg w st w' : run (start cfg) w = (Some (Ok st), w') → st_grace_ms st = (cfg_shutdown_grace_seconds cfg * 1000)%N.
Proof.
  unfold start. rewrite run_bind. destruct (run (mapE OpeningStore _) w) as [[[e|e]|] w1]; [|done|done].
  unfold bind, lift. destruct (new_credentials _ _) as [c|]; [|done]. cbn [map_err andThen run].
  destruct (match tls cfg with Some _ => _ | None => _ end) as [tr|]; [|done]. cbn [andThen run].
  destruct (bind_listener (listen cfg)) as [l|]; [|done]. cbn [map_err andThen run].
  destruct (local_addr l) as [a|]; [|done]. by intros [= <- _].
Qed.
End start.

(** ** The accept loop *)

(** [ACCEPT_ERROR_BACKOFF], in milliseconds. *)
Definition ACCEPT_ERROR_BACKOFF : N := 100.

(** Where the loop is: selecting on the listener and the trigger, pausing after a
    failed accept, draining until a deadline, or over, with every connection
    closed or not. *)
Inductive loop_phase :=
  | Accepting
  | Pausing (until : N)
  | Draining (deadline : N)
  | Stopped (all_closed : bool).

(** The clock in milliseconds, the connections a watcher is held for, the time at
    which the trigger resolved, and, as a history of the run, how many failed
    accepts the loop has taken since then. *)
Record loop_state := mkLoop {
  l_now : N;
  l_phase : loop_phase;
  l_open : gset nat;
  l_triggered : option N;
  l_late : N;
}.

Definition loop_start : loop_state := mkLoop 0 Accepting ∅ None 0.

Definition set_phase (p : loop_phase) (s : loop_state) : loop_state :=
  mkLoop (l_now s) p (l_open s) (l_triggered s) (l_late s).

(** A failed accept was taken: a late one, if the trigger had resolved. *)
Definition failed_accept (s : loop_state) : loop_state :=
  mkLoop (l_now s) (Pausing (l_now s + ACCEPT_ERROR_BACKOFF)) (l_open s) (l_triggered s)
    (match l_triggered s with Some _ => l_late s + 1 | None => l_late s end).

(** The loop itself has something to do now. *)
Definition due (s : loop_state) : Prop :=
  match l_phase s with
  | Accepting => is_Some (l_triggered s)
  | Pausing until => (until <= l_now s)%N
  | Draining deadline => l_open s = ∅ ∨ (deadline <= l_now s)%N
  | Stopped _ => False
  end.

(** One event.  Time passes only while the loop waits; the trigger and the peers
    may act at any time.  When an accept, a failed one too, and the trigger are
    ready together, [select!] takes either. *)
Inductive loop_step (grace : N) : loop_state → loop_state → Prop :=
  | step_tick s : ¬ due s → (∀ c, l_phase s ≠ Stopped c) →
      loop_step grace s (mkLoop (l_now s + 1) (l_phase s) (l_open s) (l_triggered s) (l_late s))
  | step_trigger s : l_triggered s = None →
      loop_step grace s (mkLoop (l_now s) (l_phase s) (l_open s) (Some (l_now s)) (l_late s))
  | step_close s c : c ∈ l_open s →
      loop_step grace s (mkLoop (l_now s) (l_phase s) (l_open s ∖ {[ c ]}) (l_triggered s) (l_late s))
  | step_accept s c : l_phase s = Accepting → c ∉ l_open s →
      loop_step grace s (mkLoop (l_now s) Accepting ({[ c ]} ∪ l_open s) (l_triggered s) (l_late s))
  | step_accept_error s : l_phase s = Accepting →
      loop_step grace s (failed_accept s)
  | step_resume s until : l_phase s = Pausing until → (until <= l_now s)%N →
      loop_step grace s (set_phase Accepting s)
  | step_shutdown s : l_phase s = Accepting → is_Some (l_triggered s) →
      loop_step grace s (set_phase (Draining (l_now s + grace)) s)
  | step_drained s deadline : l_phase s = Draining deadline → l_open s = ∅ →
      loop_step grace s (set_phase (Stopped true) s)
  | step_timeout s deadline : l_phase s = Draining deadline → (deadline <= l_now s)%N →
      loop_step grace s (set_phase (Stopped false) s).

(** ** The loop's invariant *)

(** One backoff for a pause that was under way and one for each late failure. *)
Definition pauses (s : loop_state) : N := ACCEPT_ERROR_BACKOFF * (l_late s + 1).

(** Once the trigger has resolved, at [t0], every phase but the last has an end
    in sight, and the drain is given its whole window. *)
Definition in_time (grace t0 : N) (s : loop_state) : Prop :=
  (t0 <= l_now s)%N
  ∧ match l_phase s with
    | Accepting => (l_now s <= t0 + pauses s)%N
    | Pausing until => (until <= t0 + pauses s)%N
    | Draining deadline => (t0 + grace <= deadline <= t0 + pauses s + grace)%N
    | Stopped true => True
    | Stopped false => (t0 + grace <= l_now s)%N
    end.

Record loop_inv (grace : N) (s : loop_state) : Prop := {
  li_pause until : l_phase s = Pausing until → (l_now s <= until <= l_now s + ACCEPT_ERROR_BACKOFF)%N;
  li_drain deadline : l_phase s = Draining deadline → (l_now s <= deadline)%N ∧ is_Some (l_triggered s);
  li_stop c : l_phase s = Stopped c → is_Some (l_triggered s) ∧ (c = true → l_open s = ∅);
  li_time t0 : l_triggered s = Some t0 → in_time grace t0 s;
  li_late : l_triggered s = None → l_late s = 0%N;
}.

Local Ltac loop_case := split; unfold in_time, pauses, failed_accept; cbn; try done.

Lemma loop_inv_step grace s s' : loop_inv grace s → loop_step grace s s' → loop_inv grace s'.
Proof.
  intros [Hp Hd Hs Ht Hl] Hstep. revert Hp Hd Hs Ht Hl. unfold in_time, pauses.
  destruct Hstep as [s Hdue Hns|s Htr|s c Hc|s c Hph Hc|s Hph|s until Hph Hle|s Hph Htr|s dl Hph Ho|s dl Hph Hle];
    intros Hp Hd Hs Ht Hl.
  - unfold due in Hdue. destruct (l_phase s) as [|u|dl|c] eqn:Hph; [| | |by destruct (Hns c)]; loop_case.
    + intros t0 Ht0. destruct Hdue. eauto.
    + intros u' [= <-]. specialize (Hp u eq_refl). lia.
    + intros t0 Ht0. specialize (Ht t0 Ht0). lia.
    + intros dl' [= <-]. destruct (Hd dl eq_refl). split; [|done].
      assert (¬ (dl <= l_now s)%N) by tauto. lia.
    + intros t0 Ht0. specialize (Ht t0 Ht0). lia.
  - loop_case; [naive_solver|naive_solver|]. intros t0 [= <-]. rewrite (Hl Htr). split; [lia|].
    destruct (l_phase s) as [|u|dl|c] eqn:Hph; [unfold ACCEPT_ERROR_BACKOFF; lia|specialize (Hp u eq_refl); lia|..].
    + destruct (Hd dl eq_refl) as [_ [? ?]]. congruence.
    + destruct (Hs c eq_refl) as [[? ?] _]. congruence.
  - loop_case. intros c' Hc'. destruct (Hs c' Hc') as [? Hop]. split; [done|].
    intros ->. rewrite (Hop eq_refl) in Hc. by apply not_elem_of_empty in Hc.
  - rewrite Hph in Ht. loop_case.
  - loop_case.
    + intros u [= <-]. unfold ACCEPT_ERROR_BACKOFF. lia.
    + intros t0 Ht0. specialize (Ht t0 Ht0). rewrite Hph in Ht. rewrite Ht0. lia.
    + intros Hn. rewrite Hn. auto.
  - loop_case. intros t0 Ht0. specialize (Ht t0 Ht0). rewrite Hph in Ht. specialize (Hp until Hph). lia.
  - loop_case.
    + intros dl [= <-]. split; [lia|done].
    + intros t0 Ht0. specialize (Ht t0 Ht0). rewrite Hph in Ht. lia.
  - loop_case.
    + intros c [= <-]. split; [|done]. by apply (Hd dl).
    + intros t0 Ht0. split; [|done]. by apply (Ht t0).
  - loop_case.
    + intros c [= <-]. split; [|done]. by apply (Hd dl).
    + intros t0 Ht0. specialize (Ht t0 Ht0). rewrite Hph in Ht. lia.
Qed.

Lemma loop_reachable_inv grace s : rtc (loop_step grace) loop_start s → loop_inv grace s.
Proof.
  intros Hr. assert (loop_inv grace loop_start) as H0 by by split. revert H0.
  induction Hr; eauto using loop_inv_step.
Qed.

(** The loop has seen the trigger. *)
Definition past_accepting (s : loop_state) : Prop :=
  match l_phase s with Draining _ | Stopped _ => True | _ => False end.

Lemma past_accepting_step grace s s' : loop_step grace s s' → past_accepting s →
  past_accepting s' ∧ l_open s' ⊆ l_open s.
Proof. unfold past_accepting. intros [] Hp; cbn in *; simplify_eq; repeat case_match; set_solver. Qed.

(** An action of the loop itself, the clock included, is possible. *)
Lemma loop_can_act grace s : (∀ c, l_phase s ≠ Stopped c) →
  ∃ s', loop_step grace s s' ∧ l_open s' = l_open s ∧ l_triggered s' = l_triggered s ∧ s' ≠ s.
Proof.
  intros Hns. assert (∀ p, p ≠ l_phase s → set_phase p s ≠ s) as Hne by (intros p Hp Heq; apply Hp; by rewrite <- Heq).
  assert (¬ due s → ∃ s', loop_step grace s s' ∧ l_open s' = l_open s ∧ l_triggered s' = l_triggered s ∧ s' ≠ s) as Htick.
  { intros Hd. eexists. split_and!; [by apply step_tick|done|done|]. intros Heq%(f_equal l_now). cbn in Heq. lia. }
  unfold due in Htick. destruct (l_phase s) as [|u|dl|c] eqn:Hph; [| | |by destruct (Hns c)].
  - destruct (l_triggered s) as [t|] eqn:Ht; [|apply Htick; by intros [? ?]].
    eexists. split_and!; [apply step_shutdown; [done|by rewrite Ht]|done|done|by apply Hne].
  - destruct (decide (u <= l_now s)%N); [|by apply Htick].
    eexists. split_and!; [by eapply step_resume|done|done|by apply Hne].
  - destruct (decide (l_open s = ∅)); [eexists; split_and!; [by eapply step_drained|done|done|by apply Hne]|].
    destruct (decide (dl <= l_now s)%N); [eexists; split_and!; [by eapply step_timeout|done|done|by apply Hne]|].
    apply Htick. tauto.
Qed.

(** Asked to stop, a loop that goes on is not late. *)
Lemma loop_not_late grace s t0 : loop_inv grace s → l_triggered s = Some t0 → (∀ c, l_phase s ≠ Stopped c) →
  (l_now s <= t0 + 100 * (l_late s + 1) + grace)%N.
Proof.
  intros [Hp Hd Hs Ht _] Ht0 Hns. destruct (Ht t0 Ht0) as [_ Hin]. unfold pauses, ACCEPT_ERROR_BACKOFF in Hin.
  destruct (l_phase s) as [|u|dl|c] eqn:Hph; [lia| | |by destruct (Hns c)].
  - destruct (Hp u eq_refl). lia.
  - destruct (Hd dl eq_refl). lia.
Qed.

(** A drain that gave up waited for the whole window. *)
Lemma loop_gave_up grace s t0 : loop_inv grace s → l_triggered s = Some t0 → l_phase s = Stopped false →
  (t0 + grace <= l_now s)%N.
Proof. intros Hinv Ht0 Hph. destruct (li_time _ _ Hinv t0 Ht0) as [_ H]. by rewrite Hph in H. Qed.

(** Asked to stop, the server stops in time and cuts no connection it need
    not.  Whenever the trigger resolves, the loop is over at most one grace period
    and one backoff later, with one backoff more for every failed accept that won
    over the trigger; it never ends before it is asked to; once it has seen the
    trigger it takes no new connection; if it reports all connections closed they
    are, and if not they had the whole grace period; and until it is over it can
    always act. *)
Theorem shutdown_in_time grace s :
  rtc (loop_step grace) loop_start s →
  (∀ t0, l_triggered s = Some t0 → (∀ c, l_phase s ≠ Stopped c) → (l_now s <= t0 + 100 * (l_late s + 1) + grace)%N)
  ∧ (past_accepting s → is_Some (l_triggered s) ∧ ∀ s', rtc (loop_step grace) s s' → l_open s' ⊆ l_open s)
  ∧ (l_phase s = Stopped true → l_open s = ∅)
  ∧ (∀ t0, l_triggered s = Some t0 → l_phase s = Stopped false → (t0 + grace <= l_now s)%N)
  ∧ ((∀ c, l_phase s ≠ Stopped c) → ∃ s', loop_step grace s s').
Proof.
  intros Hr. pose proof (loop_reachable_inv grace s Hr) as Hinv. pose proof Hinv as [Hp Hd Hs Ht _]. split_and!.
  - intros t0. by apply loop_not_late.
  - intros Hpast. split.
    + unfold past_accepting in Hpast. destruct (l_phase s) as [|u|dl|c] eqn:Hph; [done|done| |].
      * by apply (Hd dl).
      * by apply (Hs c).
    + intros s' Hr'. clear -Hpast Hr'. induction Hr' as [|s1 s2 s3 H12 _ IH]; [done|].
      destruct (past_accepting_step _ _ _ H12 Hpast). set_solver.
  - intros Hst. by apply (Hs true).
  - intros t0. by apply loop_gave_up.
  - intros Hns. destruct (loop_can_act grace s Hns) as (s' & ? & _). by exists s'.
Qed.

(** The number of failed accepts is not bounded, so nothing bounds the wait: as
    long as accepting fails, every pass may take the failure and pause again,
    though the trigger has resolved. *)
Lemma tick_to grace s u k : l_phase s = Pausing u → (l_now s + N.of_nat k <= u)%N →
  rtc (loop_step grace) s (mkLoop (l_now s + N.of_nat k) (l_phase s) (l_open s) (l_triggered s) (l_late s)).
Proof.
  intros Hph Hle. induction k as [|k IH].
  - rewrite N.add_0_r. destruct s; apply rtc_refl.
  - eapply rtc_r; [apply IH; lia|].
    replace (l_now s + N.of_nat (S k))%N with (l_now s + N.of_nat k + 1)%N by lia.
    refine (step_tick grace (mkLoop (l_now s + N.of_nat k) _ _ _ _) _ _); unfold due; cbn; rewrite Hph; [lia|done].
Qed.

Theorem failing_accepts_delay_shutdown grace n :
  ∃ s, rtc (loop_step grace) loop_start s ∧ l_triggered s = Some 0%N ∧ l_phase s = Accepting
    ∧ l_now s = (100 * N.of_nat n)%N.
Proof.
  induction n as [|n (s & Hr & Ht & Hph & Hnow)].
  - exists (mkLoop 0 Accepting ∅ (Some 0%N) 0). split; [|done]. apply rtc_once. by apply (step_trigger grace loop_start).
  - pose proof (step_accept_error grace s Hph) as H1.
    pose proof (tick_to grace (failed_accept s) _ 100 eq_refl ltac:(cbn; unfold ACCEPT_ERROR_BACKOFF; lia)) as H2.
    eexists. split_and!; [eapply rtc_r; [etrans; [eapply rtc_r; [exact Hr|exact H1]|exact H2]|]|..].
    + eapply step_resume; [done|]. cbn. unfold ACCEPT_ERROR_BACKOFF. lia.
    + done.
    + done.
    + cbn. lia.
Qed.

(** ** The server that starts *)

Lemma load_from_checked read toml path env cfg : load_from read toml path env = Ok cfg →
  accepted_ok (cfg_virtual_host_domains cfg) ∧ (cfg_shutdown_grace_seconds cfg <= 600)%N.
Proof.
  unfold load_from. destruct (load_file read toml path) as [file|]; [|done]. unfold settle.
  destruct (ok_or (or (env ENV_ROOT_USER) _) _) as [user|]; [|done].
  destruct (ok_or (or (env ENV_ROOT_PASSWORD) _) _) as [password|]; [|done].
  destruct (shutdown_grace_seconds _ _) as [grace|] eqn:Hg; [|done].
  destruct (virtual_host_domains _ _) as [ds|] eqn:Hd; [|done]. intros [= <-]. cbn. split.
  - by eapply virtual_host_domains_ok.
  - pose proof (proj1 (shutdown_grace_spec (env ENV_SHUTDOWN_GRACE) (f_shutdown_grace_seconds file))) as Hs.
    rewrite Hg in Hs. apply Hs.
Qed.

Lemma load_from_grace read toml path env cfg : load_from read toml path env = Ok cfg →
  ∃ file, load_file read toml path = Ok file ∧ (cfg_shutdown_grace_seconds cfg <= 600)%N
    ∧ match env ENV_SHUTDOWN_GRACE with
      | Some text => parse_u64 text = Some (cfg_shutdown_grace_seconds cfg)
      | None => cfg_shutdown_grace_seconds cfg = default 8%N (f_shutdown_grace_seconds file)
      end.
Proof.
  unfold load_from. destruct (load_file read toml path) as [file|]; [|done]. unfold settle.
  destruct (ok_or (or (env ENV_ROOT_USER) _) _) as [user|]; [|done].
  destruct (ok_or (or (env ENV_ROOT_PASSWORD) _) _) as [password|]; [|done].
  pose proof (proj1 (shutdown_grace_spec (env ENV_SHUTDOWN_GRACE) (f_shutdown_grace_seconds file))) as Hs.
  destruct (shutdown_grace_seconds _ _) as [grace|]; [|done].
  destruct (virtual_host_domains _ _) as [ds|]; [|done]. intros [= <-]. by exists file.
Qed.

Section started.
Context {E : Env} {D : DataDir} `{!EnvOk E} {O : Outside}.
Context `{!Serde VersionManifest, !Serde DiskFormat, !SerdeLaws DiskFormat valid_disk_format}.

(** The TLS material at the configured paths: a chain of at least one certificate, a
    key, and the configuration [rustls] makes of the two, offering HTTP/2 first. *)
Definition serves_tls (t : TlsConfig) (a : TlsAcceptor) : Prop :=
  ∃ cert_file certs key_file key,
    open_outside (cert_pem t) = Ok cert_file ∧ pem_certs cert_file = Ok <$> certs ∧ certs ≠ []
    ∧ open_outside (key_pem t) = Ok key_file ∧ pem_private_key key_file = Ok (Some key)
    ∧ with_single_cert certs key = Ok (acceptor_config a) ∧ alpn_protocols a = [b#"h2"; b#"http/1.1"].

Lemma collect_results_ok {A X} (l : list (result A X)) out : collect_results l = Ok out ↔ l = Ok <$> out.
Proof.
  split; [|intros ->; by induction out as [|a out IH]; cbn; [|rewrite IH]].
  revert out. induction l as [|[a|e] l IH]; intros out; cbn; [by intros [= <-]| |done].
  destruct (collect_results l) as [rest|e]; [|done]. intros [= <-]. by rewrite (IH rest).
Qed.

(** [tls_acceptor] finds the material if it is there. *)
Lemma tls_acceptor_spec t a : tls_acceptor t = Ok a ↔ serves_tls t a.
Proof.
  unfold tls_acceptor, load_certs, load_private_key, serves_tls. split.
  - destruct (open_outside (cert_pem t)) as [file|]; [|done]. cbn.
    destruct (collect_results (pem_certs file)) as [certs|] eqn:Hc; [|done]. cbn. apply collect_results_ok in Hc.
    destruct certs as [|c certs]; [done|].
    destruct (open_outside (key_pem t)) as [kfile|] eqn:Hkf; [|done]. cbn.
    destruct (pem_private_key kfile) as [[key|]|] eqn:Hk; [|done|done]. cbn.
    destruct (with_single_cert (c :: certs) key) as [config|] eqn:Hw; [|done]. cbn. intros [= <-].
    exists file, (c :: certs), kfile, key. done.
  - intros (file & certs & kfile & key & -> & Hc & Hne & -> & Hk & Hw & Ha). cbn.
    apply collect_results_ok in Hc. rewrite Hc. cbn. destruct certs as [|c certs]; [done|]. rewrite Hk. cbn. rewrite Hw.
    cbn. destruct a as [config protocols]. cbn in *. by subst.
Qed.

(** What a refusal to start says. *)
Definition start_refused (cfg : Config) (e : StartError) : Prop :=
  match e with
  | OpeningStore _ => True
  | CredentialsRejected _ => char_count (root_access_key cfg) < 3 ∨ char_count (root_secret_key cfg) < 8
  | TlsRejected _ => ∃ t, tls cfg = Some t ∧ ∀ a, ¬ serves_tls t a
  | Binding e => bind_listener (listen cfg) = Err e
  | ReadingAddress e => ∃ l, bind_listener (listen cfg) = Ok l ∧ local_addr l = Err e
  end.

(** What [start] makes of the settings once the store is open. *)
Lemma run_start cfg w :
  run (start cfg) w =
  match run (FsEngine.open (data_dir cfg)) w with
  | (None, w') => (None, w')
  | (Some (Err e), w') => (Some (Err (OpeningStore e)), w')
  | (Some (Ok engine), w') =>
      (Some (let? credentials := map_err CredentialsRejected (new_credentials (root_access_key cfg) (root_secret_key cfg)) in
             let? transport := match tls cfg with
                               | Some t => let? acceptor := map_err TlsRejected (tls_acceptor t) in Ok (Tls acceptor)
                               | None => Ok Plain
                               end in
             let? listener := map_err Binding (bind_listener (listen cfg)) in
             let? addr := map_err ReadingAddress (local_addr listener) in
             Ok (mkStarted (build_service engine credentials (cfg_virtual_host_domains cfg)) transport addr
                   (cfg_shutdown_grace_seconds cfg * 1000))), w')
  end.
Proof.
  unfold start. rewrite run_bind, run_mapE. destruct (run (FsEngine.open (data_dir cfg)) w) as [[[e|e]|] w']; [|done..].
  cbn [map_err]. unfold bind, lift. destruct (new_credentials _ _) as [c|]; [|done]. cbn [map_err andThen run].
  destruct (match tls cfg with Some _ => _ | None => _ end) as [tr|]; [|done]. cbn [andThen run].
  destruct (bind_listener (listen cfg)) as [l|]; [|done]. cbn [map_err andThen run].
  by destruct (local_addr l) as [a|].
Qed.

(** C34: a server that starts is the one that was configured.  From settings that
    loaded, starting leaves every bucket and object as it was, in every outcome.
    When it succeeds the layout is there; the service is over this store, gives
    the configured secret to the configured access key and to no other, and reads
    buckets out of hosts only if domains were configured, with exactly those,
    unambiguously; connections are served in the clear if no TLS was configured,
    and otherwise with the certificates and the key of the configured files;
    the address is that of the configured listener; and the drain window is the
    configured number of seconds: the environment's if it sets one, else the
    file's, else eight, and at most 600.  A refusal to start once the store is
    open names what was at fault: credentials that are too short, TLS files that
    do not hold what is needed, an address that cannot be bound or read back. *)
Theorem start_spec read toml path env cfg w :
  load_from read toml path env = Ok cfg → data_dir cfg = FsEngine.root engine →
  let m := vol (wdisk w) in
  wf m → m !! cwd = Some NDir → ¬ buckets_path `prefix_of` cwd → ¬ tmp_path `prefix_of` cwd →
  let '(r, w') := start cfg w in
  let m' := vol (wdisk w') in
  (∀ b, bucket_at m' b ↔ bucket_at m b) ∧ (∀ b k, object_at m' b k = object_at m b k)
  ∧ match r with
    | Some (Ok st) =>
        layout m' ∧ svc_engine (st_service st) = engine
        ∧ (∃ auth, svc_auth (st_service st) = Some auth
             ∧ ∀ key, get_secret_key auth key = Ok (root_secret_key cfg) ↔ key = root_access_key cfg)
        ∧ match svc_host (st_service st) with
          | None => cfg_virtual_host_domains cfg = []
          | Some v => domains v = cfg_virtual_host_domains cfg ∧ Forall domain_ok (domains v) ∧ no_overlap (domains v)
          end
        ∧ match tls cfg with
          | None => st_transport st = Plain
          | Some t => ∃ a, st_transport st = Tls a ∧ serves_tls t a
          end
        ∧ (∃ l, bind_listener (listen cfg) = Ok l ∧ local_addr l = Ok (st_addr st))
        ∧ (∃ seconds file, load_file read toml path = Ok file ∧ st_grace_ms st = (1000 * seconds)%N ∧ (seconds <= 600)%N
             ∧ match env ENV_SHUTDOWN_GRACE with
               | Some text => parse_u64 text = Some seconds
               | None => seconds = default 8%N (f_shutdown_grace_seconds file)
               end)
    | Some (Err (OpeningStore _)) | None => True
    | Some (Err e) => layout m' ∧ start_refused cfg e
    end.
Proof.
  intros Hload Hdir m Hwf Hc Hout Hout'. destruct (load_from_checked _ _ _ _ _ Hload) as [Hds _].
  destruct (load_from_grace _ _ _ _ _ Hload) as (file & Hfile & Hgr).
  pose proof (wp_run _ _ _ _ w (wp_open (wdisk w) Hwf Hc Hout Hout')) as Hwp.
  rewrite run_start, Hdir.
  destruct (FsEngine.open (FsEngine.root engine) w) as [[[e|e]|] w'].
  2: { destruct Hwp as [Hu _]. by destruct (untouched_objects _ _ Hu). }
  2: { by destruct (untouched_objects _ _ Hwp). }
  destruct Hwp as (-> & Hlay & Hu & _). apply untouched_objects in Hu as [Hb Ho]. unfold new_credentials.
  destruct (Nat.ltb_spec (char_count (root_access_key cfg)) MIN_ACCESS_KEY_LEN) as [Ha|Ha].
  { split; [done|]. split; [done|]. split; [done|by left]. }
  destruct (Nat.ltb_spec (char_count (root_secret_key cfg)) MIN_SECRET_KEY_LEN) as [Hs|Hs].
  { split; [done|]. split; [done|]. split; [done|by right]. }
  cbn [map_err].
  assert (match (match tls cfg with
                 | Some t => let? acceptor := map_err TlsRejected (tls_acceptor t) in Ok (Tls acceptor)
                 | None => Ok Plain
                 end) with
          | Ok tr => match tls cfg with None => tr = Plain | Some t => ∃ a, tr = Tls a ∧ serves_tls t a end
          | Err e => ∃ te t, e = TlsRejected te ∧ tls cfg = Some t ∧ ∀ a, ¬ serves_tls t a
          end) as Htr.
  { destruct (tls cfg) as [t|]; [|done]. destruct (tls_acceptor t) as [a|te] eqn:Hta; cbn.
    - exists a. by rewrite <- tls_acceptor_spec.
    - exists te, t. split_and!; [done..|]. intros a. rewrite <- tls_acceptor_spec. congruence. }
  destruct (match tls cfg with Some _ => _ | None => _ end) as [tr|e'].
  2: { destruct Htr as (te & t & -> & Ht & Hno). split; [done|]. split; [done|]. split; [done|by exists t]. }
  destruct (bind_listener (listen cfg)) as [l|] eqn:Hbl; [|done]. cbn.
  destruct (local_addr l) as [addr|] eqn:Hla.
  2: { split; [done|]. split; [done|]. split; [done|by exists l]. }
  cbn [map_err].
  split_and!; [done|done|done|done| | |done|by exists l|].
  - eexists. split; [done|]. intros key. unfold get_secret_key. cbn. case_bool_decide; naive_solver.
  - cbn. case_bool_decide; [done|]. cbn. split_and!; [done|by apply accepted_domain_ok|apply Hds].
  - exists (cfg_shutdown_grace_seconds cfg), file. split; [done|]. split; [cbn; lia|done].
Qed.
End started.

(** ** The theorems at work *)

#[local] Existing Instance manifest_codec.
#[local] Existing Instance disk_format_codec.
#[local] Existing Instance disk_format_codec_laws.
#[local] Existing Instance calm_env.
#[local] Existing Instance calm_env_ok.
#[local] Existing Instance slash_d.

(** A machine without certificates whose listener gets the address it asks for. *)
#[local] Instance plain_outside : Outside := {|
  Certificate := unit; PrivateKey := unit; ServerConfig := unit; SocketAddr := str; Listener := str;
  open_outside _ := Err (os_error KNotFound);
  pem_certs _ := [];
  pem_private_key _ := Ok None;
  with_single_cert _ _ := Err ();
  bind_listener a := Ok a;
  local_addr l := Ok l;
|}.

Definition d_env (name : str) : option str :=
  if bool_decide (name = ENV_DATA_DIR) then Some (b#"/d") else sample_env name.

Definition d_config : Config :=
  mkConfig (b#"[::1]:9000") (parse (b#"/d")) (b#"root") (b#"secret-key") 20 [] None.

Lemma start_spec_witness :
  ∃ st w', start d_config at_store = (Some (Ok st), w') ∧ layout (vol (wdisk w'))
    ∧ svc_engine (st_service st) = engine
    ∧ object_at (vol (wdisk w')) (b#"bkt") (b#"a/b") = object_at store (b#"bkt") (b#"a/b").
Proof.
  destruct (ran_ok (start d_config) at_store) as (st & w' & Hrun); [by vm_compute|].
  exists st, w'. split; [exact Hrun|].
  pose proof (start_spec (λ _, Ok []) (λ _, Ok default_file) None d_env d_config at_store
    ltac:(by vm_compute) ltac:(by vm_compute)
    (lay_wf _ store_layout) eq_refl (lay_outside _ store_layout)
    ltac:(refine (bool_decide_unpack _ _); by vm_compute)) as H.
  rewrite Hrun in H. destruct H as (_ & Ho & Hl & He & _). split; [exact Hl|]. split; [exact He|]. apply Ho.
Defined.

(** Asked at once, over at once. *)
Lemma shutdown_in_time_witness :
  let s := mkLoop 0 (Stopped true) ∅ (Some 0%N) 0 in
  rtc (loop_step 8000) loop_start s ∧ (l_phase s = Stopped true → l_open s = ∅).
Proof.
  intros s. assert (rtc (loop_step 8000) loop_start s) as Hr.
  { eapply rtc_l; [by apply step_trigger|]. eapply rtc_l; [by apply step_shutdown|].
    eapply rtc_l; [by eapply step_drained|]. apply rtc_refl. }
  split; [exact Hr|]. apply (shutdown_in_time 8000 s Hr).
Defined.
