(* ===== verification/Main.v ===== *)
(** * The process: [crates/server/src/main.rs], [ShutdownSignals] and the connections

    [main] installs the signal handlers, reads the command line and the settings,
    and runs the server; the server's connections are tasks of their own
    ([serve_connection]) that the accept loop of [Serve] only counts.  The process is
    a transition system in which signals arrive at any time, clients come and go, and
    the accept loop takes its steps; it refines the loop, so that what is shown there
    of stopping holds of the process ([stop_requests_honoured]). *)

From S2P Require Import Prelude RustStr RustNum RustPath Codec Paths Checksum EngineError Fs FsFacts Atomic Meta Layer Walk FsBase Listing FsEngine Tidy FsObject FsDelete FsList FsBuckets FsOpen FsSamples Wire ApiError ApiChecksum Service Host Config Iam Serve.

(** ** The command line *)

Definition CONFIG_FLAG : str := b#"--config".
Definition USAGE : str := b#"usage: aks3 [--config <path>]".

(** [config_path_from_args]; an error is its message. *)
Definition config_path_from_args (args : list str) : result (option PathBuf) str :=
  match args with
  | [] => Ok None
  | flag :: args' =>
      if negb (bool_decide (flag = CONFIG_FLAG))
      then Err (b#"unexpected argument " ++ flag ++ [Byte.x0a] ++ USAGE)
      else
        match args' with
        | [] => Err (CONFIG_FLAG ++ b#" needs a path" ++ [Byte.x0a] ++ USAGE)
        | path :: args'' =>
            match args'' with
            | _ :: _ => Err (b#"too many arguments" ++ [Byte.x0a] ++ USAGE)
            | [] => Ok (Some (parse path))
            end
        end
  end.

(** A command line is accepted only as a whole: nothing, or the flag and a path. *)
Lemma config_path_from_args_ok args p :
  config_path_from_args args = Ok p ↔ args = [] ∧ p = None ∨ ∃ path, args = [CONFIG_FLAG; path] ∧ p = Some (parse path).
Proof.
  unfold config_path_from_args. split.
  - destruct args as [|flag args]; [intros [= <-]; by left|]. case_bool_decide as Hf; [|done]. cbn [negb].
    destruct args as [|path [|x args]]; [done| |done]. intros [= <-]. right. exists path. by subst.
  - intros [[-> ->]|(path & -> & ->)]; [done|]. by rewrite bool_decide_eq_true_2.
Qed.

(** ** Signals *)

Inductive SignalKind := SIGINT | SIGTERM.

#[global] Instance signal_kind_eq_dec : EqDecision SignalKind.
Proof. solve_decision. Defined.

(** [tokio::signal::unix::signal]: whether the handler can be registered. *)
Class SignalHandlers := register : SignalKind → result unit io_error.

(** The two streams; each says whether its signal has arrived since it was
    registered. *)
Record ShutdownSignals := mkShutdownSignals { interrupt : bool; terminate : bool }.

(** What stops [main] before the accept loop. *)
Inductive MainError :=
  | ListeningFor (s : SignalKind) (e : io_error)
  | BadArguments (message : str)
  | BadSettings (e : ConfigError)
  | NotStarted (e : StartError).

(** [ShutdownSignals::install]. *)
Definition install {H : SignalHandlers} : result ShutdownSignals MainError :=
  let? _ := map_err (ListeningFor SIGINT) (register SIGINT) in
  let? _ := map_err (ListeningFor SIGTERM) (register SIGTERM) in
  Ok (mkShutdownSignals false false).

(** A signal arrives. *)
Definition arrives (k : SignalKind) (s : ShutdownSignals) : ShutdownSignals :=
  match k with
  | SIGINT => mkShutdownSignals true (terminate s)
  | SIGTERM => mkShutdownSignals (interrupt s) true
  end.

(** [ShutdownSignals::recv]: what it may resolve to; [select!] takes either when
    both have arrived. *)
Definition recv (s : ShutdownSignals) : list str :=
  (if interrupt s then [b#"SIGINT"] else []) ++ (if terminate s then [b#"SIGTERM"] else []).

(** ** Connections *)

(** The task of a connection: in the TLS handshake, or speaking HTTP. *)
Inductive conn := Handshaking | Speaking.

(** [serve_connection], up to its first wait. *)
Definition serve_connection {O : Outside} (transport : Transport) : conn :=
  match transport with Plain => Speaking | Tls _ => Handshaking end.

(** What [serve_connection] and [serve_http] go on to when what they wait for is
    there: the handshake succeeded or failed, the client hung up or was served to
    the end; [None] is the end of the task. *)
Inductive conn_step : conn → option conn → Prop :=
  | cs_secured : conn_step Handshaking (Some Speaking)
  | cs_handshake_failed : conn_step Handshaking None
  | cs_http_ended : conn_step Speaking None.

(** ** The process *)

Inductive outcome :=
  | Returned (r : result bool MainError)
  | Killed.

Inductive stage `{Outside} :=
  | Installing
  | Booting
  | Running (st : Started) (l : loop_state) (conns : gmap nat conn)
  | Exited (o : outcome).

Record process `{Outside} := mkProcess {
  p_world : world;
  p_signals : option ShutdownSignals;
  p_stage : stage;
}.
Arguments mkProcess {_}.

Section process.
Context {E : Env} `{!Serde DiskFormat} {O : Outside} {H : SignalHandlers} {VarError : Type}.
Context (read_to_string : PathBuf → result str io_error) (toml_from_str : str → result FileConfig toml_error).
Context (env_var : str → result str VarError) (args : list str).

(** [main] between the signal handlers and the accept loop. *)
Definition boot : M MainError Started :=
  config_path <- lift (map_err BadArguments (config_path_from_args args));;
  config <- lift (map_err BadSettings (load read_to_string toml_from_str env_var config_path));;
  mapE NotStarted (start config).

(** The accept loop as [run] enters it; the trigger may have resolved already. *)
Definition enter_loop (s : ShutdownSignals) : loop_state :=
  mkLoop 0 Accepting ∅ (if bool_decide (recv s = []) then None else Some 0%N) 0.

(** The trigger of a running loop resolves when a signal arrives. *)
Definition triggered (l : loop_state) : loop_state :=
  mkLoop (l_now l) (l_phase l) (l_open l) (Some (default (l_now l) (l_triggered l))) (l_late l).

(** One event.  Before the handlers are there a signal is lost, in a container, or
    ends the process; after that it is kept for the loop. *)
Inductive process_step : process → process → Prop :=
  | ps_signal_lost w g (k : SignalKind) :
      process_step (mkProcess w None g) (mkProcess w None g)
  | ps_signal_kills w g (k : SignalKind) :
      process_step (mkProcess w None g) (mkProcess w None (Exited Killed))
  | ps_signal w s g k :
      process_step (mkProcess w (Some s) g)
        (mkProcess w (Some (arrives k s)) (match g with Running st l conns => Running st (triggered l) conns | _ => g end))
  | ps_install w s :
      install = Ok s → process_step (mkProcess w None Installing) (mkProcess w (Some s) Booting)
  | ps_install_fails w e :
      install = Err e → process_step (mkProcess w None Installing) (mkProcess w None (Exited (Returned (Err e))))
  | ps_boot w w' s st :
      run boot w = (Some (Ok st), w') →
      process_step (mkProcess w (Some s) Booting) (mkProcess w' (Some s) (Running st (enter_loop s) ∅))
  | ps_boot_fails w w' s e :
      run boot w = (Some (Err e), w') →
      process_step (mkProcess w (Some s) Booting) (mkProcess w' (Some s) (Exited (Returned (Err e))))
  | ps_boot_killed w w' s :
      run boot w = (None, w') →
      process_step (mkProcess w (Some s) Booting) (mkProcess w' (Some s) (Exited Killed))
  | ps_loop w s st l l' conns :
      loop_step (st_grace_ms st) l l' → l_open l' = l_open l → l_triggered l' = l_triggered l →
      process_step (mkProcess w s (Running st l conns)) (mkProcess w s (Running st l' conns))
  | ps_accept w s st l conns c :
      l_phase l = Accepting → conns !! c = None →
      process_step (mkProcess w s (Running st l conns))
        (mkProcess w s (Running st (mkLoop (l_now l) Accepting ({[ c ]} ∪ l_open l) (l_triggered l) (l_late l))
          (<[c := serve_connection (st_transport st)]> conns)))
  | ps_secured w s st l conns c x x' :
      conns !! c = Some x → conn_step x (Some x') →
      process_step (mkProcess w s (Running st l conns)) (mkProcess w s (Running st l (<[c := x']> conns)))
  | ps_closed w s st l conns c x :
      conns !! c = Some x → conn_step x None →
      process_step (mkProcess w s (Running st l conns))
        (mkProcess w s (Running st (mkLoop (l_now l) (l_phase l) (l_open l ∖ {[ c ]}) (l_triggered l) (l_late l)) (delete c conns)))
  | ps_return w s st l conns all_closed :
      l_phase l = Stopped all_closed →
      process_step (mkProcess w s (Running st l conns)) (mkProcess w s (Exited (Returned (Ok all_closed)))).

Definition process_start (w : world) : process := mkProcess w None Installing.

(** ** What holds of the process *)

Lemma run_boot w : run boot w =
  match config_path_from_args args with
  | Err m => (Some (Err (BadArguments m)), w)
  | Ok path =>
      match load read_to_string toml_from_str env_var path with
      | Err e => (Some (Err (BadSettings e)), w)
      | Ok cfg => run (mapE NotStarted (start cfg)) w
      end
  end.
Proof.
  unfold boot, bind, lift. destruct (config_path_from_args args) as [path|m]; [|done]. cbn [map_err andThen].
  by destruct (load read_to_string toml_from_str env_var path) as [cfg|e].
Qed.

(** The window is the one of the settings the process was started with. *)
Definition configured_grace (st : Started) : Prop :=
  ∃ path cfg, config_path_from_args args = Ok path ∧ load read_to_string toml_from_str env_var path = Ok cfg
    ∧ st_grace_ms st = (1000 * cfg_shutdown_grace_seconds cfg)%N ∧ (cfg_shutdown_grace_seconds cfg <= 600)%N.

Lemma boot_grace w st w' : run boot w = (Some (Ok st), w') → configured_grace st.
Proof.
  rewrite run_boot. destruct (config_path_from_args args) as [path|] eqn:Hp; [|done].
  destruct (load _ _ _ _) as [cfg|] eqn:Hl; [|done]. rewrite run_mapE.
  destruct (run (start cfg) w) as [[[st'|]|] w1] eqn:Hs; [|done|done]. intros [= <- <-].
  apply start_grace in Hs. exists path, cfg. split_and!; [done|done|lia|].
  by apply load_from_checked in Hl as [_ Hg].
Qed.

Lemma boot_refused w e w' : run boot w = (Some (Err e), w') → (∀ e', e ≠ NotStarted e') → w' = w.
Proof.
  rewrite run_boot. destruct (config_path_from_args args) as [path|]; [|by intros [= <- <-]].
  destruct (load _ _ _ _) as [cfg|]; [|by intros [= <- <-]]. rewrite run_mapE.
  destruct (run (start cfg) w) as [[[st'|e0]|] w1]; [done| |done]. intros [= <- <-] Hne. by destruct (Hne e0).
Qed.

Definition stage_inv (w0 w : world) (signals : option ShutdownSignals) (g : stage) : Prop :=
  match g with
  | Installing => signals = None ∧ w = w0
  | Booting => is_Some signals ∧ w = w0
  | Running st l conns =>
      ∃ s, signals = Some s ∧ rtc (loop_step (st_grace_ms st)) loop_start l
        ∧ dom conns = l_open l ∧ (l_triggered l = None ↔ recv s = []) ∧ configured_grace st
        ∧ (st_transport st = Plain → map_Forall (λ _ x, x = Speaking) conns)
  | Exited (Returned (Ok _)) => ∃ s, signals = Some s ∧ recv s ≠ []
  | Exited (Returned (Err e)) => (∀ e', e ≠ NotStarted e') → w = w0
  | Exited Killed => True
  end.

Lemma recv_arrives k s : recv (arrives k s) ≠ [].
Proof. destruct k; cbn; [done|]. by destruct (interrupt s). Qed.

Lemma triggered_step grace l : rtc (loop_step grace) l (triggered l).
Proof.
  unfold triggered. destruct (l_triggered l) as [t|] eqn:Ht; cbn.
  - destruct l; cbn in *; subst. apply rtc_refl.
  - by apply rtc_once, step_trigger.
Qed.

Lemma stage_inv_step w0 p p' : process_step p p' → stage_inv w0 (p_world p) (p_signals p) (p_stage p) →
  stage_inv w0 (p_world p') (p_signals p') (p_stage p').
Proof.
  destruct 1 as [w g k|w g k|w s g k|w s Hi|w e Hi|w w' s st Hb|w w' s e Hb|w w' s Hb|w s st l l' conns Hl Ho Ht
    |w s st l conns c Hph Hc|w s st l conns c x x' Hc Hx|w s st l conns c x Hc Hx|w s st l conns b Hph]; cbn; intros Hinv.
  - done.
  - done.
  - destruct g as [| |st l conns|[[b|e]|]]; cbn in *; [by destruct Hinv|split; [by eexists|apply Hinv]| | |done|done].
    + destruct Hinv as (s' & [= <-] & Hr & Hd & Htr & Hg & Hp). exists (arrives k s). split_and!; [done| |done| |done|done].
      * etrans; [exact Hr|apply triggered_step].
      * split; [done|]. intros Heq. by destruct (recv_arrives k s).
    + destruct Hinv as (s' & [= <-] & _). eexists. split; [done|]. apply recv_arrives.
  - destruct Hinv as [_ ->]. split; [by eexists|done].
  - by destruct Hinv as [_ ->].
  - exists s. destruct Hinv as [_ ->]. split_and!; [done| |done| |by eapply boot_grace|done].
    + unfold enter_loop. case_bool_decide; [done|]. apply rtc_once. by apply (step_trigger _ loop_start).
    + unfold enter_loop. cbn. case_bool_decide; naive_solver.
  - destruct Hinv as [_ ->]. by eapply boot_refused.
  - done.
  - destruct Hinv as (s' & -> & Hr & Hd & Htr & Hg & Hp). exists s'. rewrite Ho, Ht. split_and!; try done. by eapply rtc_r.
  - destruct Hinv as (s' & -> & Hr & Hd & Htr & Hg & Hp). exists s'. split_and!; try done; cbn.
    + eapply rtc_r; [exact Hr|]. apply step_accept; [done|]. rewrite <- Hd. by apply not_elem_of_dom.
    + by rewrite dom_insert_L, Hd.
    + intros Hpl. apply map_Forall_insert_2; [by rewrite Hpl|by apply Hp].
  - destruct Hinv as (s' & -> & Hr & Hd & Htr & Hg & Hp). exists s'. split_and!; try done.
    + rewrite dom_insert_lookup_L; [done|by eexists].
    + intros Hpl. apply map_Forall_insert_2; [|by apply Hp]. by inversion Hx.
  - destruct Hinv as (s' & -> & Hr & Hd & Htr & Hg & Hp). exists s'. split_and!; try done; cbn.
    + eapply rtc_r; [exact Hr|]. apply step_close. rewrite <- Hd. apply elem_of_dom. by eexists.
    + by rewrite dom_delete_L, Hd.
    + intros Hpl. apply map_Forall_delete. by apply Hp.
  - destruct Hinv as (s' & -> & Hr & _ & Htr & _). exists s'. split; [done|]. intros Hn. apply Htr in Hn.
    destruct (li_stop _ _ (loop_reachable_inv _ _ Hr) b Hph) as [[t Ht] _]. congruence.
Qed.

Lemma process_inv w0 p : rtc process_step (process_start w0) p → stage_inv w0 (p_world p) (p_signals p) (p_stage p).
Proof.
  intros Hr. assert (stage_inv w0 (p_world (process_start w0)) (p_signals (process_start w0)) (p_stage (process_start w0)))
    as H0 by done. revert H0. induction Hr; eauto using stage_inv_step.
Qed.

Lemma process_can_go_on w0 p : rtc process_step (process_start w0) p → (∀ o, p_stage p ≠ Exited o) →
  ∃ p', process_step p p' ∧ p_stage p' ≠ p_stage p.
Proof.
  intros Hr Hne. apply process_inv in Hr. destruct p as [w signals g]; cbn in *.
  destruct g as [| |st l conns|o]; [| | |by destruct (Hne o)].
  - destruct Hr as [-> _]. destruct (install (H:=H)) as [s|e] eqn:Hi; eexists; split; [by apply ps_install|done|by apply ps_install_fails|done].
  - destruct Hr as [[s ->] _]. destruct (run boot w) as [[[st|e]|] w'] eqn:Hb; eexists; split;
      [by eapply ps_boot|done|by eapply ps_boot_fails|done|by eapply ps_boot_killed|done].
  - assert ((∃ c, l_phase l = Stopped c) ∨ ∀ c, l_phase l ≠ Stopped c) as [[c Hc]|Hns] by (destruct (l_phase l); eauto).
    + eexists. split; [by eapply ps_return|done].
    + destruct (loop_can_act (st_grace_ms st) l) as (l' & Hl & Ho & Ht & Hd); [done|].
      eexists. split; [by eapply ps_loop|]. cbn. congruence.
Qed.

(** C35: a request to stop is neither lost nor ignored, from the moment the signal
    handlers are installed, which is the first thing the process does.  In every
    run, whenever SIGINT or SIGTERM arrives while the process is starting or
    serving, the accept loop finds its trigger resolved, and the loop leaves
    accepting for no other reason.  The time from then, or from the start of the
    loop if the signal came earlier, until the loop is over is at most the
    configured grace period, one backoff for a pause that was under way, and one
    more for every failed accept that won over the trigger; a drain that gives up
    on connections has waited for the whole grace period.  The process never
    returns successfully without having been asked to; a bad command line or bad
    settings end it with the data directory untouched; every connection the drain
    waits for is a task that is still there; and until the process has exited it
    can go on. *)
Theorem stop_requests_honoured w p :
  rtc process_step (process_start w) p →
  (∀ st l conns, p_stage p = Running st l conns →
     ∃ s, p_signals p = Some s ∧ (recv s ≠ [] ↔ is_Some (l_triggered l)) ∧ configured_grace st
       ∧ (past_accepting l → is_Some (l_triggered l))
       ∧ (∀ t0, l_triggered l = Some t0 →
            ((∀ c, l_phase l ≠ Stopped c) → (l_now l <= t0 + 100 * (l_late l + 1) + st_grace_ms st)%N)
            ∧ (l_phase l = Stopped false → (t0 + st_grace_ms st <= l_now l)%N))
       ∧ dom conns = l_open l ∧ (l_phase l = Stopped true → conns = ∅))
  ∧ (∀ b, p_stage p = Exited (Returned (Ok b)) → ∃ s, p_signals p = Some s ∧ recv s ≠ [])
  ∧ (∀ e, p_stage p = Exited (Returned (Err e)) → (∀ e', e ≠ NotStarted e') → p_world p = w)
  ∧ ((∀ o, p_stage p ≠ Exited o) → ∃ p', process_step p p' ∧ p_stage p' ≠ p_stage p).
Proof.
  intros Hr. pose proof (process_inv w p Hr) as Hinv. split_and!.
  - intros st l conns Hg. rewrite Hg in Hinv. destruct Hinv as (s & Hs & Hl & Hd & Ht & Hgr & _).
    pose proof (loop_reachable_inv _ _ Hl) as Hli. exists s. split_and!; [done| |done| | |done|].
    + rewrite <- not_eq_None_Some. by rewrite Ht.
    + apply (shutdown_in_time _ _ Hl).
    + intros t0 Ht0. split; [by apply loop_not_late|by apply loop_gave_up].
    + intros Hst. apply dom_empty_iff_L. rewrite Hd. by apply (li_stop _ _ Hli true).
  - intros b Hg. by rewrite Hg in Hinv.
  - intros e Hg. by rewrite Hg in Hinv.
  - by eapply process_can_go_on.
Qed.
End process.

(** ** The theorem at work *)

#[local] Existing Instance manifest_codec.
#[local] Existing Instance disk_format_codec.
#[local] Existing Instance calm_env.
#[local] Existing Instance slash_d.
#[local] Existing Instance plain_outside.

#[local] Instance plain_handlers : SignalHandlers := λ _, Ok ().

Definition d_env_var (name : str) : result str unit := match d_env name with Some value => Ok value | None => Err () end.

Abbreviation sample_steps := (process_step (λ _, Ok []) (λ _, Ok default_file) d_env_var []).

Lemma sample_settings : load (λ _, Ok []) (λ _, Ok default_file) d_env_var None = Ok d_config.
Proof. by vm_compute. Qed.

(** SIGTERM arrives while the store is being opened, and an accept fails once before
    the loop sees it. *)
Lemma stop_requests_honoured_witness :
  ∃ st w', rtc sample_steps (process_start at_store)
      (mkProcess w' (Some (mkShutdownSignals false true)) (Running st (mkLoop 0 (Pausing 100) ∅ (Some 0%N) 1) ∅))
    ∧ (0 <= 0 + 100 * (1 + 1) + st_grace_ms st)%N ∧ st_grace_ms st = 20000%N.
Proof.
  destruct (ran_ok (boot (λ _, Ok []) (λ _, Ok default_file) d_env_var []) at_store) as (st & w' & Hboot); [by vm_compute|].
  exists st, w'. set (p := mkProcess _ _ _).
  assert (rtc sample_steps (process_start at_store) p) as Hr.
  { eapply rtc_l; [by apply (ps_install _ _ _ _ _ (mkShutdownSignals false false))|].
    eapply rtc_l; [apply (ps_signal _ _ _ _ _ _ _ SIGTERM)|].
    eapply rtc_l; [by eapply ps_boot|].
    eapply rtc_l; [by apply ps_loop; [apply step_accept_error|..]|]. apply rtc_refl. }
  split; [exact Hr|].
  destruct (stop_requests_honoured (λ _, Ok []) (λ _, Ok default_file) d_env_var [] at_store p Hr) as [H _].
  destruct (H _ _ _ eq_refl) as (s & _ & _ & (path & cfg & [= <-] & Hload & -> & _) & _ & Hlate & _).
  rewrite sample_settings in Hload. injection Hload as <-. split; [by apply (Hlate 0%N)|reflexivity].
Defined.
