(* ===== verification/Conc.v ===== *)
(** * Requests in parallel

    Many requests at once over one disk: a pool of programs, of which at each
    step any may take its next step.  A call may be refused by the machine at any
    time, a UUID is one that was never drawn before, a lock is granted when
    nobody holds it in a way that excludes it, and a request may be cancelled (its
    client is gone, and [hyper] drops the future): what it owns is dropped, and
    with [detach] a call it had handed to the blocking pool still runs to its
    end.

    Two facts about all interleavings are shown here: every request takes the
    locks its kind calls for, in one order and no other ([follow_plan]; that it
    works under them is in [ConcLocks]); and the pool never gets stuck and always
    comes to an end ([requests_all_answered]).  What the requests do to the disk
    meanwhile is in [ConcStore] and [ConcDetach]. *)

From S2P Require Import Prelude RustStr RustPath Paths Checksum EngineError Fs FsFacts Atomic Meta Layer Walk FsBase Listing FsEngine Tidy Store Refine Locks.

(** ** The pool *)

(** A request in progress: what it serves ([None] once it is cancelled), what is
    left to do, whether it is inside a closure on the blocking pool, the locks it
    holds and the UUIDs it drew. *)
Record thread := mkThread {
  th_request : option request;
  th_prog : M EngineError reply;
  th_inside : bool;
  th_held : list (lock * mode);
  th_drawn : list str;
}.

(** The disk, the requests in progress by number, the UUIDs drawn so far, and the
    first number that was never used. *)
Record pool := mkPool {
  pdisk : disk;
  threads : gmap nat thread;
  issued : gset str;
  fresh : nat;
}.

Definition with_prog (th : thread) (m : M EngineError reply) : thread :=
  mkThread (th_request th) m (th_inside th) (th_held th) (th_drawn th).

Definition set_thread (t : nat) (th : thread) (s : pool) : pool :=
  mkPool (pdisk s) (<[t := th]> (threads s)) (issued s) (fresh s `max` S t).

(** A thread that made a call: the disk and its program have moved on. *)
Definition called (t : nat) (th : thread) (d : disk) (s : pool) : pool :=
  mkPool d (<[t := th]> (threads s)) (issued s) (fresh s).

Definition drop_lock (x : lock * mode) (held : list (lock * mode)) : list (lock * mode) :=
  filter (λ y, y ≠ x) held.

(** Who holds what, as in [Locks.tables_refine_locks]: what the lock tables grant is
    what nobody holds in a way that excludes it. *)
Definition holders (s : pool) : book := th_held <$> threads s.

Definition obtainable (s : pool) (l : lock) (md : mode) : Prop := free_for (holders s) l md.

Lemma obtainable_alt s l md : obtainable s l md ↔
  ∀ t th md', threads s !! t = Some th → (l, md') ∈ th_held th → md = Shared ∧ md' = Shared.
Proof.
  unfold obtainable, free_for, holders. split.
  - intros Hf t th md' Ht Hin. apply (Hf t (th_held th) md'); [|done]. by rewrite lookup_fmap, Ht.
  - intros Hf t h md'. rewrite lookup_fmap. intros (th & Ht & ->)%fmap_Some Hin. eauto.
Qed.

(** ** Cancellation *)

(** What is dropped with the future of a request: its staged files, which are
    removed if they are still there, and its guards. *)
Inductive cleanup :=
  | Unlink (u : str)
  | LetGo (l : lock) (md : mode).

(** The answer nobody is there to read. *)
Definition stopped : M EngineError reply := throw (Io (os_error KOther)).

Section semantics.
Context {E : Env} {HS : HashCrates} {MD : Md5Crate} {RD : Reads}.
Context `{!Serde VersionManifest, !Serde BucketMeta, !Serde DiskFormat}.
Context (e : FsEngine.t).

(** The program of a request. *)
Definition program (r : request) : M EngineError reply := @answer (fs_engine_layer e) r.

Fixpoint unwind (acts : list cleanup) : M EngineError reply :=
  match acts with
  | [] => stopped
  | Unlink u :: rest =>
      _ <- attempt (remove_file (push (FsEngine.tmp_dir e) (u ++ b#".tmp")));; unwind rest
  | LetGo l md :: rest => FsEngine.release l md;;; unwind rest
  end.

(** Everything a request owns, in some order. *)
Definition owns (th : thread) (acts : list cleanup) : Prop :=
  acts ≡ₚ (Unlink <$> th_drawn th) ++ ((λ x, LetGo x.1 x.2) <$> th_held th).

(** The call, or the closure of calls, that is under way at a point of a program. *)
Fixpoint in_flight (inside : bool) (m : M EngineError reply) : M EngineError reply :=
  match m with
  | Sys op part k => Sys op part (λ r, if inside then in_flight true (k r) else stopped)
  | Bound k => if inside then Bound (λ n, in_flight true (k n)) else stopped
  | Enter k => in_flight true k
  | _ => stopped
  end.

(** A version 4 UUID: it makes a file name. *)
Definition uuid_ok (u : str) : Prop :=
  plain_name (u ++ b#".tmp") ∧ length (u ++ b#".tmp") ≤ 40.

(** ** Steps *)

(** A request in progress takes its next step.  (The bound of a loop that follows
    the disk is left open: the disk moves under it, so no count taken at one moment
    would be right.) *)
Inductive advance (s : pool) : pool → Prop :=
  | adv_call t th X (op : disk → result X io_error * disk) part k :
      threads s !! t = Some th → th_prog th = Sys op part k →
      advance s (called t (with_prog th (k (op (pdisk s)).1)) (op (pdisk s)).2 s)
  | adv_fail t th X (op : disk → result X io_error * disk) part k err n :
      threads s !! t = Some th → th_prog th = Sys op part k →
      environmental (kind err) → get_ref err = None →
      advance s (called t (with_prog th (k (Err err))) (part n (pdisk s)) s)
  | adv_now t th k z :
      threads s !! t = Some th → th_prog th = Now k →
      advance s (set_thread t (with_prog th (k z)) s)
  | adv_uuid t th k u :
      threads s !! t = Some th → th_prog th = Uuid k → uuid_ok u → u ∉ issued s →
      advance s (mkPool (pdisk s)
        (<[t := mkThread (th_request th) (k u) (th_inside th) (th_held th) (u :: th_drawn th)]> (threads s))
        ({[u]} ∪ issued s) (fresh s))
  | adv_bound t th k n :
      threads s !! t = Some th → th_prog th = Bound k →
      advance s (set_thread t (with_prog th (k n)) s)
  | adv_acquire t th l md k :
      threads s !! t = Some th → th_prog th = Acquire l md k → obtainable s l md →
      advance s (set_thread t (mkThread (th_request th) k (th_inside th) ((l, md) :: th_held th) (th_drawn th)) s)
  | adv_release t th l md k :
      threads s !! t = Some th → th_prog th = Release l md k →
      advance s (set_thread t
        (mkThread (th_request th) k (th_inside th) (drop_lock (l, md) (th_held th)) (th_drawn th)) s)
  | adv_enter t th k :
      threads s !! t = Some th → th_prog th = Enter k →
      advance s (set_thread t (mkThread (th_request th) k true (th_held th) (th_drawn th)) s)
  | adv_leave t th k :
      threads s !! t = Some th → th_prog th = Leave k →
      advance s (set_thread t (mkThread (th_request th) k false (th_held th) (th_drawn th)) s)
  | adv_answer t th r :
      threads s !! t = Some th → th_prog th = Done r →
      advance s (mkPool (pdisk s) (delete t (threads s)) (issued s) (fresh s)).

(** A step of the pool: work, a new request, or a cancelled one. *)
Inductive pool_step (detach : bool) (s : pool) : pool → Prop :=
  | step_advance s' : advance s s' → pool_step detach s s'
  | step_spawn t r :
      threads s !! t = None → fresh s ≤ t → request_strings r →
      pool_step detach s (set_thread t (mkThread (Some r) (program r) false [] []) s)
  | step_cancel t th acts :
      threads s !! t = Some th → is_Some (th_request th) → th_inside th = false → owns th acts →
      pool_step detach s (set_thread t (mkThread None (unwind acts) false (th_held th) (th_drawn th)) s)
  | step_detach t th acts t' :
      detach = true → threads s !! t = Some th → is_Some (th_request th) → owns th acts →
      threads s !! t' = None → fresh s ≤ t' → t' ≠ t →
      pool_step detach s
        (set_thread t' (mkThread None (in_flight (th_inside th) (th_prog th)) true [] [])
          (set_thread t (mkThread None (unwind acts) false (th_held th) (th_drawn th)) s)).

(** A server that has just opened its data directory. *)
Definition idle (d : disk) : pool := mkPool d ∅ ∅ 0.

Definition pool_reachable (detach : bool) (d : disk) : pool → Prop := rtc (pool_step detach) (idle d).
End semantics.

(** ** The order of the locks *)

(** Run with [todo] still to be taken and [held] in hand, the program takes the
    locks of [todo] in order, lets go only of what it holds and takes none after
    that; [Q] holds of what is left when it is done. *)
Fixpoint follows {X A} (todo held : list (lock * mode)) (m : M X A)
    (Q : result A X → list (lock * mode) → list (lock * mode) → Prop) : Prop :=
  match m with
  | Done r => Q r todo held
  | Sys _ _ k => ∀ r, follows todo held (k r) Q
  | Now k => ∀ z, follows todo held (k z) Q
  | Uuid k => ∀ u, follows todo held (k u) Q
  | Bound k => ∀ n, follows todo held (k n) Q
  | Acquire l md k =>
      match todo with
      | x :: todo' => x = (l, md) ∧ follows todo' (x :: held) k Q
      | [] => False
      end
  | Release l md k => (l, md) ∈ held ∧ follows [] (drop_lock (l, md) held) k Q
  | Enter k | Leave k => follows todo held k Q
  end.

Lemma follows_mono {X A} (m : M X A) todo held (Q Q' : _ → _ → _ → Prop) :
  follows todo held m Q → (∀ r t h, Q r t h → Q' r t h) → follows todo held m Q'.
Proof.
  intros Hm HQ. revert todo held Hm.
  induction m as [r|X' op part k IH|k IH|k IH|k IH|l md k IH|l md k IH|k IH|k IH]; intros todo held; cbn; eauto.
  - destruct todo as [|x todo]; [done|]. intros (-> & ?). eauto.
  - intros [? ?]. eauto.
Qed.

Lemma follows_andThen {X Y A B} (m : M X A) (k : result A X → M Y B) todo held Q :
  follows todo held m (λ r t h, follows t h (k r) Q) → follows todo held (andThen m k) Q.
Proof.
  revert todo held. induction m as [r|X' op part c IH|c IH|c IH|c IH|l md c IH|l md c IH|c IH|c IH]; intros todo held; cbn; eauto.
  - destruct todo as [|x todo]; [done|]. intros (-> & ?). eauto.
  - intros [? ?]. eauto.
Qed.

Lemma follows_bind {X A B} (m : M X A) (k : A → M X B) todo held Q :
  follows todo held m (λ r t h, match r with Ok a => follows t h (k a) Q | Err e => Q (Err e) t h end) →
  follows todo held (bind m k) Q.
Proof. intros Hm. apply follows_andThen. eapply follows_mono; [exact Hm|]. by intros [a|e]. Qed.

Lemma drop_lock_head x held : x ∉ held → drop_lock x (x :: held) = held.
Proof.
  intros Hx. unfold drop_lock. rewrite filter_cons_False by naive_solver.
  induction held as [|y held IH]; [done|]. apply not_elem_of_cons in Hx as [Hy Hx].
  rewrite filter_cons_True by done. by rewrite IH.
Qed.

Lemma elem_of_drop_lock x y held : y ∈ drop_lock x held ↔ y ≠ x ∧ y ∈ held.
Proof. unfold drop_lock. by rewrite list_elem_of_filter. Qed.

Lemma follows_with_lock {X A} l md (m : M X A) todo held (Q : _ → _ → _ → Prop) :
  (l, md) ∉ held →
  follows todo ((l, md) :: held) m (λ r t h, h = (l, md) :: held ∧ Q r [] held) →
  follows ((l, md) :: todo) held (FsEngine.with_lock l md m) Q.
Proof.
  intros Hno Hm. split; [done|]. cbn [follows]. apply follows_bind, follows_andThen.
  eapply follows_mono; [exact Hm|]. intros r t h [-> HQ]. split; [by left|]. by rewrite drop_lock_head.
Qed.

(** A program that asks for no lock. *)
Abbreviation unlocked := (every (λ _ _ _, True) (λ _ _, False)).

Lemma follows_unlocked {X A} (m : M X A) todo held (Q : _ → _ → _ → Prop) :
  unlocked m → (∀ r, Q r todo held) → follows todo held m Q.
Proof. intros Hm HQ. induction m; cbn in *; naive_solver. Qed.

#[local] Hint Extern 1 (every _ _ (syscall _ _)) => (by apply every_syscall) : every.
#[local] Hint Extern 1 (every _ _ (atomic _)) => (by apply every_atomic) : every.

Section discipline.
Context {E : Env} {HS : HashCrates} {MD : Md5Crate} {RD : Reads}.
Context `{!Serde VersionManifest, !Serde BucketMeta, !Serde DiskFormat}.

Lemma unlocked_metadata p : unlocked (metadata p).
Proof. by apply every_atomic. Qed.
Lemma unlocked_is_dir {F} p : unlocked (is_dir (F:=F) p).
Proof. pose proof unlocked_metadata. unfold is_dir. every. Qed.
Lemma unlocked_try_exists p : unlocked (try_exists p).
Proof. pose proof unlocked_metadata. unfold try_exists. every. Qed.

Lemma unlocked_create_dir_all p : unlocked (create_dir_all p).
Proof.
  pose proof @unlocked_is_dir. assert (∀ q, unlocked (create_dir q)) by (unfold create_dir; every).
  unfold create_dir_all. apply every_blocking. generalize (length p) as n. intros n. revert p.
  induction n as [|n IH]; intros [|c p]; cbn [create_dir_all_fuel]; unfold create_dir_or_present; every.
Qed.

Lemma unlocked_sync_dir p : unlocked (sync_dir p).
Proof. pose proof unlocked_metadata. unfold sync_dir. every. Qed.

Lemma unlocked_commit st dest : unlocked (commit st dest).
Proof.
  pose proof unlocked_create_dir_all. pose proof unlocked_try_exists.
  assert (∀ s, unlocked (drop_staged (F:=io_error) s)) by (unfold drop_staged, remove_file; every).
  assert (∀ dirs, unlocked (sync_dirs dirs)).
  { pose proof unlocked_sync_dir. induction dirs; cbn [sync_dirs]; every. }
  assert (∀ l, unlocked (sync_chain (F:=io_error) l)).
  { induction l; cbn [sync_chain]; every. }
  unfold commit, or_drop, publish, dirs_to_sync, flush, sync_file, rename. every.
Qed.

Lemma unlocked_create p : unlocked (create p).
Proof. unfold create, open_new. every. Qed.

Lemma unlocked_write_json_atomic tmp dest v : unlocked (write_json_atomic tmp dest v).
Proof.
  pose proof unlocked_commit. pose proof unlocked_create. unfold write_json_atomic, or_drop, drop_staged, write_all, append, remove_file.
  every.
Qed.

Lemma unlocked_remove_dir_all p : unlocked (remove_dir_all p).
Proof.
  pose proof unlocked_metadata. assert (∀ qs, unlocked (unlink_all qs)).
  { induction qs; cbn [unlink_all]; unfold unlink; every. }
  unfold remove_dir_all, snapshot. every.
Qed.

Lemma unlocked_existing_bucket_dir e b : unlocked (FsEngine.existing_bucket_dir e b).
Proof. pose proof unlocked_metadata. unfold FsEngine.existing_bucket_dir. every. Qed.

Lemma unlocked_live_version p : unlocked (FsEngine.live_version p).
Proof. unfold FsEngine.live_version, load_manifest, read. every. Qed.

(** The work a request does under locks. *)
Definition work_of (r : request) : option work :=
  match r with
  | RCreateBucket b | RDeleteBucket b => Some (ChangeBucket b)
  | RListObjects b _ => Some (ListBucket b)
  | RPutObject b k _ _ | RDeleteObject b k => Some (WriteKey b k)
  | RBucketExists _ | RListBuckets | RGetObject _ _ _ | RHeadObject _ _ => None
  end.

Definition lock_plan (r : request) : list (lock * mode) := default [] (plan <$> work_of r).

(** With nothing held at the end. *)
Abbreviation follows_plan todo m := (follows todo [] m (λ _ _ h, h = [])).

Local Ltac planned_step :=
  first
  [ done
  | match goal with |- _ ∧ _ => split end
  | apply follows_with_lock; [set_solver|]
  | apply follows_unlocked; [solve [every]|intros; cbn beta; repeat case_match]
  | apply follows_bind
  | case_match ].
Local Ltac planned := cbn zeta; repeat planned_step.

Lemma follows_put e b k body opts :
  follows_plan (plan (WriteKey b k)) (FsEngine.put_object e b k body opts).
Proof.
  pose proof unlocked_existing_bucket_dir. pose proof unlocked_create. pose proof unlocked_commit.
  pose proof unlocked_write_json_atomic.
  assert (∀ st l u, unlocked (FsEngine.stage_body st l u)).
  { intros st. induction l as [|[c|?] l IH]; intros u; cbn [FsEngine.stage_body]; unfold write_all, append; every. }
  assert (∀ s, unlocked (drop_staged (F:=EngineError) s)) by (unfold drop_staged, remove_file; every).
  unfold FsEngine.put_object, FsEngine.publish_object, or_drop, FsEngine.now_epoch_ms, load_manifest, read, store_manifest.
  planned.
Qed.

Lemma follows_delete e b k : follows_plan (plan (WriteKey b k)) (FsEngine.delete_object e b k).
Proof.
  pose proof unlocked_existing_bucket_dir. pose proof unlocked_try_exists. pose proof unlocked_sync_dir.
  assert (∀ n p q, unlocked (FsEngine.prune_loop (F:=EngineError) n p q)).
  { induction n as [|n IH]; intros p q; cbn [FsEngine.prune_loop]; unfold remove_dir; every. }
  assert (∀ n p q, unlocked (FsEngine.deepest_loop (F:=EngineError) n p q)).
  { induction n as [|n IH]; intros p q; cbn [FsEngine.deepest_loop]; every. }
  unfold FsEngine.delete_object, FsEngine.remove_object, FsEngine.prune_empty_dirs, FsEngine.deepest_existing,
    FsEngine.remove_if_present, remove_file, FsEngine.fsync_dir.
  planned.
Qed.

Lemma follows_create_bucket e b : follows_plan (plan (ChangeBucket b)) (FsEngine.create_bucket e b).
Proof.
  pose proof unlocked_write_json_atomic. pose proof unlocked_remove_dir_all. pose proof unlocked_sync_dir.
  unfold FsEngine.create_bucket, create_dir, FsEngine.now_epoch_ms, FsEngine.fsync_dir. planned.
Qed.

Lemma follows_delete_bucket e b : follows_plan (plan (ChangeBucket b)) (FsEngine.delete_bucket e b).
Proof.
  pose proof unlocked_try_exists. pose proof unlocked_remove_dir_all. pose proof unlocked_sync_dir.
  unfold FsEngine.delete_bucket, FsEngine.has_any_entry, read_dir, FsEngine.fsync_dir. planned.
Qed.

Lemma unlocked_sorted_keys p : unlocked (sorted_keys p).
Proof.
  pose proof unlocked_metadata.
  assert (∀ q ns, unlocked (scan_names q ns)) by (intros q; induction ns; cbn [scan_names]; every).
  assert (∀ n st, unlocked (walk_loop n st)).
  { induction n; intros [|[? ?] st]; cbn [walk_loop]; unfold read_object_dir, read_dir; every. }
  unfold sorted_keys. every.
Qed.

Lemma follows_list_objects e b p : follows_plan (plan (ListBucket b)) (FsEngine.list_objects_v2 e b p).
Proof.
  pose proof unlocked_existing_bucket_dir. pose proof unlocked_sorted_keys. pose proof unlocked_live_version.
  assert (∀ p, unlocked (FsEngine.listable_version p)) by (unfold FsEngine.listable_version; every).
  assert (∀ look, (∀ k, unlocked (look k)) → ∀ ks out, unlocked (list_loop look p ks out)).
  { intros look Hl. induction ks as [|key ks IH]; intros out; cbn [list_loop]; every. }
  unfold FsEngine.list_objects_v2, list_page. planned.
Qed.

Lemma unlocked_get_object e b k range : unlocked (FsEngine.get_object e b k range).
Proof.
  pose proof unlocked_existing_bucket_dir. pose proof unlocked_live_version. pose proof unlocked_metadata.
  unfold FsEngine.get_object, FsEngine.open_file, FsEngine.seek. every.
Qed.

Lemma unlocked_list_buckets e : unlocked (FsEngine.list_buckets e).
Proof.
  pose proof unlocked_metadata.
  assert (∀ p ns, unlocked (FsEngine.collect_buckets (F:=EngineError) p ns)).
  { intros p. induction ns; cbn [FsEngine.collect_buckets]; unfold FsEngine.bucket_created_ms, read; every. }
  unfold FsEngine.list_buckets, read_dir. every.
Qed.

(** A request and what it answers. *)
Lemma follows_answer {A} (m : M EngineError A) (f : A → M EngineError reply) todo :
  follows_plan todo m → (∀ a, unlocked (f a)) → follows_plan todo (bind m f).
Proof.
  intros Hm Hf. apply follows_bind. eapply follows_mono; [exact Hm|]. intros [a|err] t h ->; [|done].
  by apply follows_unlocked.
Qed.

(** Every request takes the locks its work calls for, in order, and no other;
    it takes none once it has let go of one; and it holds none when it answers. *)
Lemma program_follows e r : follows_plan (lock_plan r) (program e r).
Proof.
  destruct r; cbn [lock_plan work_of fmap option_fmap option_map default program answer create_bucket delete_bucket
    bucket_exists list_buckets put_object get_object head_object delete_object list_objects_v2 fs_engine_layer].
  - apply follows_answer; [apply follows_create_bucket|every].
  - apply follows_answer; [apply follows_delete_bucket|every].
  - apply follows_unlocked; [|done]. pose proof unlocked_metadata. unfold FsEngine.bucket_exists. every.
  - apply follows_unlocked; [|done]. pose proof unlocked_list_buckets. every.
  - apply follows_answer; [apply follows_put|every].
  - apply follows_unlocked; [|done]. pose proof unlocked_get_object. every.
  - apply follows_unlocked; [|done]. pose proof unlocked_existing_bucket_dir. pose proof unlocked_live_version.
    unfold FsEngine.head_object. every.
  - apply follows_answer; [apply follows_delete|every].
  - apply follows_answer; [apply follows_list_objects|every].
Qed.

(** ** What holds of every request in progress *)

Record thread_ok (th : thread) (todo : list (lock * mode)) : Prop := {
  to_follows : follows todo (th_held th) (th_prog th) (λ _ _ h, h = []);
  to_plan : todo = [] ∨ ∃ r, th_request th = Some r ∧ reverse (th_held th) ++ todo = lock_plan r;
  to_held r x : th_request th = Some r → x ∈ th_held th → x ∈ lock_plan r;
  to_nodup : NoDup (th_held th);
}.

Definition threads_ok (ths : gmap nat thread) : Prop := map_Forall (λ _ th, ∃ todo, thread_ok th todo) ths.

Lemma lock_plan_nodup r : NoDup (lock_plan r).
Proof.
  destruct r; cbn; try apply NoDup_nil; try apply NoDup_singleton; try done;
    (apply NoDup_cons; split; [|apply NoDup_singleton]; by rewrite list_elem_of_singleton).
Qed.

Definition guard_of (a : cleanup) : option (lock * mode) :=
  match a with LetGo l md => Some (l, md) | Unlink _ => None end.

Lemma drop_lock_perm x held held' : NoDup held → held ≡ₚ x :: held' → drop_lock x held ≡ₚ held'.
Proof.
  intros Hnd Hp. pose proof Hnd as Hnd'. rewrite Hp in Hnd'. apply NoDup_cons in Hnd' as [Hx _].
  unfold drop_lock. rewrite Hp. fold (drop_lock x (x :: held')). by rewrite drop_lock_head.
Qed.

Lemma follows_unwind e acts held :
  NoDup held → held ≡ₚ omap guard_of acts → follows [] held (unwind e acts) (λ _ _ h, h = []).
Proof.
  revert held. induction acts as [|a acts IH]; intros held Hh Hp; cbn [unwind].
  { by apply Permutation_nil_r in Hp. }
  destruct a as [u|l md].
  - apply follows_bind, follows_andThen, follows_unlocked; [unfold remove_file; every|]. intros r. by apply IH.
  - cbn in Hp. split; [rewrite Hp; by left|]. apply IH; [by apply NoDup_filter|]. by apply drop_lock_perm.
Qed.

Lemma owns_guards th acts : owns th acts → th_held th ≡ₚ omap guard_of acts.
Proof.
  unfold owns. intros ->. rewrite omap_app. assert (omap guard_of (Unlink <$> th_drawn th) = []) as ->.
  { induction (th_drawn th) as [|u us IH]; [done|]. cbn. exact IH. }
  cbn [app]. induction (th_held th) as [|[l md] h IH]; [done|]. cbn. by rewrite <- IH.
Qed.

Lemma unlocked_in_flight b m : unlocked (in_flight b m).
Proof.
  revert b. induction m as [r|X op part k IH|k IH|k IH|k IH|l md k IH|l md k IH|k IH|k IH]; intros b; cbn; try done.
  - split; [done|]. intros r. by destruct b.
  - destruct b; [|done]. by intros n; apply IH.
Qed.

Lemma thread_ok_cancelled e th acts todo : thread_ok th todo → owns th acts →
  thread_ok (mkThread None (unwind e acts) false (th_held th) (th_drawn th)) [].
Proof.
  intros [Hf _ _ Hnd] Ho. split; cbn; [|by left|done|done].
  apply follows_unwind; [done|by apply owns_guards].
Qed.

(** A thread that did something else than take or drop a lock. *)
Lemma thread_ok_move th th' todo :
  thread_ok th todo → th_request th' = th_request th → th_held th' = th_held th →
  follows todo (th_held th) (th_prog th') (λ _ _ h, h = []) → thread_ok th' todo.
Proof. intros [_ Hp Hh Hn] Hr He Hf. split; rewrite ?Hr, ?He; done. Qed.

Lemma thread_ok_acquire th l md k todo :
  thread_ok th todo → th_prog th = Acquire l md k →
  ∃ todo', todo = (l, md) :: todo'
    ∧ thread_ok (mkThread (th_request th) k (th_inside th) ((l, md) :: th_held th) (th_drawn th)) todo'.
Proof.
  intros [Hf Hp Hh Hn] Hk. rewrite Hk in Hf. cbn in Hf. destruct todo as [|x todo]; [done|].
  destruct Hf as [-> Hf]. destruct Hp as [?|(r & Hr & Hp)]; [done|]. exists todo. split; [done|].
  assert (reverse ((l, md) :: th_held th) ++ todo = lock_plan r) as Hp' by (by rewrite reverse_cons, <- app_assoc).
  pose proof (lock_plan_nodup r) as Hnd. rewrite <- Hp' in Hnd. apply NoDup_app in Hnd as [Hnd _].
  split; cbn [th_prog th_held th_request].
  - done.
  - right. eauto.
  - intros r' x Hr' Hx. rewrite Hr in Hr'. injection Hr' as <-. rewrite <- Hp'. apply elem_of_app. left.
    by apply elem_of_reverse.
  - by rewrite reverse_Permutation in Hnd.
Qed.

Lemma thread_ok_release th l md k todo :
  thread_ok th todo → th_prog th = Release l md k →
  thread_ok (mkThread (th_request th) k (th_inside th) (drop_lock (l, md) (th_held th)) (th_drawn th)) [].
Proof.
  intros [Hf Hp Hh Hn] Hk. rewrite Hk in Hf. cbn in Hf. destruct Hf as [_ Hf].
  split; cbn; [done|by left| |by apply NoDup_filter].
  intros r x Hr [_ Hx]%elem_of_drop_lock. eauto.
Qed.

Lemma advance_threads_ok s s' : advance s s' → threads_ok (threads s) → threads_ok (threads s').
Proof.
  intros Ha Hok. destruct Ha as [t th X op part k Ht Hk|t th X op part k err n Ht Hk|t th k z Ht Hk|t th k u Ht Hk
    |t th k n Ht Hk|t th l md k Ht Hk|t th l md k Ht Hk|t th k Ht Hk|t th k Ht Hk|t th r Ht Hk]; cbn;
    destruct (Hok t th Ht) as [todo Hth]; try (apply map_Forall_insert_2; [|done]).
  6: { destruct (thread_ok_acquire th l md k todo Hth Hk) as (todo' & _ & ?). eauto. }
  6: { eexists. by eapply thread_ok_release. }
  8: by apply map_Forall_delete.
  all: exists todo; eapply thread_ok_move; [exact Hth|done|done|];
    pose proof (to_follows _ _ Hth) as Hf; rewrite Hk in Hf; cbn in *; auto.
Qed.

Lemma step_threads_ok e detach s s' : pool_step e detach s s' → threads_ok (threads s) → threads_ok (threads s').
Proof.
  intros Hs Hok. destruct Hs as [s' Ha|t r Ht|t th acts Ht _ _ Ho|t th acts t' _ Ht _ Ho _ _ _].
  - by eapply advance_threads_ok.
  - apply map_Forall_insert_2; [|done]. exists (lock_plan r). split; cbn;
      [apply program_follows|right; eauto|by intros ? ? _ ?%elem_of_nil|apply NoDup_nil_2].
  - destruct (Hok t th Ht) as [todo Hth]. apply map_Forall_insert_2; [|done].
    exists []. by eapply thread_ok_cancelled.
  - destruct (Hok t th Ht) as [todo Hth]. apply map_Forall_insert_2; [|apply map_Forall_insert_2; [|done]].
    + exists []. split; cbn; [|by left|done|apply NoDup_nil_2]. apply follows_unlocked; [apply unlocked_in_flight|done].
    + exists []. by eapply thread_ok_cancelled.
Qed.

Lemma reachable_threads_ok e detach d s : pool_reachable e detach d s → threads_ok (threads s).
Proof.
  intros Hr. assert (threads_ok (threads (idle d))) as H0 by apply map_Forall_empty.
  revert H0. unfold pool_reachable in Hr. induction Hr; eauto using step_threads_ok.
Qed.

(** ** The pool comes to an end *)

(** What may be left of a program after one step. *)
Definition rest_of {X A} (m' m : M X A) : Prop :=
  match m with
  | Done _ => False
  | Sys _ _ k => ∃ r, m' = k r
  | Now k => ∃ z, m' = k z
  | Uuid k => ∃ u, m' = k u
  | Bound k => ∃ n, m' = k n
  | Acquire _ _ k | Release _ _ k | Enter k | Leave k => m' = k
  end.

Lemma rest_of_wf {X A} (m : M X A) : Acc rest_of m.
Proof. induction m; constructor; cbn; naive_solver. Qed.

(** One thread has moved on or answered. *)
Definition shrunk (ths' ths : gmap nat thread) : Prop :=
  ∃ t th, ths !! t = Some th
    ∧ (ths' = delete t ths ∨ ∃ th', ths' = <[t := th']> ths ∧ rest_of (th_prog th') (th_prog th)).

Lemma shrunk_insert t th ths : Acc shrunk ths → ths !! t = None → Acc shrunk (<[t := th]> ths).
Proof.
  remember (th_prog th) as m eqn:Hm. pose proof (rest_of_wf m) as Hacc. revert th Hm ths.
  induction Hacc as [m _ IHm]; intros th -> ths Hths. induction Hths as [ths Hths IHths]; intros Hno.
  constructor. intros ths' (t1 & th1 & Ht1 & Hc). destruct (decide (t1 = t)) as [->|Hne].
  - rewrite lookup_insert_eq in Ht1. injection Ht1 as <-. destruct Hc as [->|(th' & -> & Hr)].
    + rewrite delete_insert_id by done. by constructor.
    + rewrite insert_insert_eq. by eapply IHm.
  - rewrite lookup_insert_ne in Ht1 by done. destruct Hc as [->|(th' & -> & Hr)].
    + rewrite delete_insert_ne by done. apply IHths; [exists t1, th1; auto|by rewrite lookup_delete_ne].
    + rewrite insert_insert_ne by done. apply IHths; [exists t1, th1; eauto|by rewrite lookup_insert_ne].
Qed.

Lemma shrunk_wf ths : Acc shrunk ths.
Proof.
  refine (map_ind (Acc shrunk) _ _ ths).
  - constructor. intros ths' (t & th & Ht & _). by rewrite lookup_empty in Ht.
  - intros t th m Ht IH. exact (shrunk_insert t th m IH Ht).
Qed.

Lemma advance_shrunk s s' : advance s s' → shrunk (threads s') (threads s).
Proof.
  destruct 1 as [t th X op part k Ht Hk|t th X op part k err n Ht Hk|t th k z Ht Hk|t th k u Ht Hk
    |t th k n Ht Hk|t th l md k Ht Hk|t th l md k Ht Hk|t th k Ht Hk|t th k Ht Hk|t th r Ht Hk]; exists t, th;
    (split; [done|]); [right..|by left]; eexists; (split; [done|]); cbn [th_prog with_prog]; rewrite Hk; cbn; eauto.
Qed.

Lemma advance_ends s : Acc (flip advance) s.
Proof.
  remember (threads s) as ths eqn:Hths. revert s Hths. induction (shrunk_wf ths) as [ths _ IH]. intros s ->.
  constructor. intros s' Ha. by eapply IH; [apply advance_shrunk|].
Qed.

(** The lock a request waits for, if that is its next step. *)
Definition waits_for (th : thread) : option (lock * mode) :=
  match th_prog th with Acquire l md _ => Some (l, md) | _ => None end.

Definition waits_for_key (th : thread) : bool :=
  match waits_for th with Some (KeyLock _ _, _) => true | _ => false end.

(** A lock somebody waits for and nobody holds: whoever is first in its queue gets
    it. *)
Definition free_wanted (s : pool) (l : lock) : Prop :=
  (∃ t th md, threads s !! t = Some th ∧ waits_for th = Some (l, md))
  ∧ ∀ t th md, threads s !! t = Some th → (l, md) ∉ th_held th.

(** A request that waits has taken the first part of its plan: nothing if it waits
    for a bucket, the bucket if it waits for a key. *)
Lemma waiting_holds th todo l md : thread_ok th todo → waits_for th = Some (l, md) →
  ∀ l' md', (l', md') ∈ th_held th → ∃ b k, l = KeyLock b k ∧ l' = BucketLock b.
Proof.
  intros Hth Hw l' md' Hin. unfold waits_for in Hw. destruct (th_prog th) as [| | | | |l0 md0 k0| | |] eqn:Hk; try done.
  injection Hw as -> ->. destruct (thread_ok_acquire th l md k0 todo Hth Hk) as (todo' & -> & _).
  destruct (to_plan _ _ Hth) as [?|(r & _ & Hp)]; [done|]. apply elem_of_reverse in Hin.
  destruct (reverse (th_held th)) as [|x hs]; [by apply elem_of_nil in Hin|].
  unfold lock_plan in Hp. destruct (work_of r) as [[b|b|b k]|]; cbn in Hp; [..|done]; injection Hp as -> Hp;
    [by destruct hs..|]. destruct hs as [|y hs]; cbn in Hp; simplify_eq; [|by destruct hs].
  apply list_elem_of_singleton in Hin. simplify_eq. eauto.
Qed.

Lemma pool_progress s :
  threads_ok (threads s) → threads s ≠ ∅ →
  (∃ t th, threads s !! t = Some th ∧ waits_for th = None) ∨ ∃ l, free_wanted s l.
Proof.
  intros Hok Hne. destruct (decide (map_Exists (λ _ th, waits_for th = None) (threads s)))
    as [(t & th & ? & ?)|Hall]; [left; eauto|right].
  assert (∀ t th, threads s !! t = Some th → is_Some (waits_for th)) as Hw.
  { intros t th Ht. destruct (waits_for th) eqn:Heq; [by eexists|]. destruct Hall. exists t, th. done. }
  destruct (decide (map_Exists (λ _ th, waits_for_key th = true) (threads s)))
    as [(t & th & Ht & Hkey)|Hnone].
  - unfold waits_for_key in Hkey. destruct (waits_for th) as [[[b|b k] md]|] eqn:Hwt; [done| |done]. exists (KeyLock b k). split; [eauto 10|].
    intros t' th' md' Ht' Hin. destruct (Hw t' th' Ht') as [[l' m'] Hw']. destruct (Hok t' th' Ht') as [todo Hth].
    by destruct (waiting_holds th' todo l' m' Hth Hw' _ _ Hin) as (? & ? & _ & ?).
  - apply map_choose in Hne as (t & th & Ht). destruct (Hw t th Ht) as [[l md] Hwt]. exists l. split; [eauto|].
    intros t' th' md' Ht' Hin. destruct (Hw t' th' Ht') as [[l' m'] Hw']. destruct (Hok t' th' Ht') as [todo Hth].
    destruct (waiting_holds th' todo l' m' Hth Hw' _ _ Hin) as (b & k & -> & _).
    apply Hnone. exists t', th'. unfold waits_for_key. by rewrite Hw'.
Qed.

Lemma can_advance s t th : threads s !! t = Some th → waits_for th = None →
  (∃ u, uuid_ok u ∧ u ∉ issued s) → ∃ s', advance s s'.
Proof.
  intros Ht Hw (u & Hu & Hnew). unfold waits_for in Hw.
  destruct (th_prog th) as [r|X op part k|k|k|k|l md k|l md k|k|k] eqn:Hk; [..|done| | |].
  all: eexists; first [by eapply adv_answer | by eapply adv_call | by eapply (adv_now _ _ _ _ 0%Z)
    | by eapply (adv_uuid _ _ _ _ u) | by eapply (adv_bound _ _ _ _ 0) | by eapply adv_release
    | by eapply adv_enter | by eapply adv_leave].
Qed.

(** C6: whatever is asked at the same time, the engine answers.  In every reachable
    state of the pool, with calls failing, requests cancelled and calls left in
    flight, the requests in progress together have only finitely many steps to
    take, in whatever order they take them; and as long as one is in progress,
    some request can go on without a lock or some lock that is waited for is held
    by nobody, so that a step is possible (given that UUIDs have not run out). *)
Theorem requests_all_answered e detach d s :
  pool_reachable e detach d s →
  Acc (flip advance) s
  ∧ (threads s ≠ ∅ →
     ((∃ t th, threads s !! t = Some th ∧ waits_for th = None) ∨ ∃ l, free_wanted s l)
     ∧ ((∃ u, uuid_ok u ∧ u ∉ issued s) → ∃ s', advance s s')).
Proof.
  intros Hok%reachable_threads_ok. split; [apply advance_ends|]. intros Hne.
  pose proof (pool_progress s Hok Hne) as Hp. split; [done|]. intros Hu.
  destruct Hp as [(t & th & Ht & Hw)|(l & (t & th & md & Ht & Hw) & Hfree)]; [by eapply (can_advance s t th)|].
  unfold waits_for in Hw. destruct (th_prog th) as [| | | | |l0 md0 k| | |] eqn:Hk; try done. injection Hw as -> ->.
  eexists. eapply adv_acquire; [done..|]. apply obtainable_alt. intros t' th' md' Ht' Hin. by destruct (Hfree t' th' md' Ht').
Qed.

(** Each request in progress has taken a first part of the locks of its plan, in
    that order, or takes no further lock; and it holds no lock outside its plan. *)
Lemma follow_plan e detach d s t th r :
  pool_reachable e detach d s → threads s !! t = Some th → th_request th = Some r →
  (∀ l md, waits_for th = Some (l, md) →
     ∃ todo, reverse (th_held th) ++ (l, md) :: todo = lock_plan r)
  ∧ (∀ x, x ∈ th_held th → x ∈ lock_plan r)
  ∧ (∀ res, th_prog th = Done res → th_held th = []).
Proof.
  intros Hok%reachable_threads_ok Ht Hr. destruct (Hok t th Ht) as [todo Hth]. split_and!.
  - intros l md Hw. unfold waits_for in Hw. destruct (th_prog th) as [| | | | |l0 md0 k| | |] eqn:Hk; try done.
    injection Hw as -> ->. destruct (thread_ok_acquire th l md k todo Hth Hk) as (todo' & -> & _).
    destruct (to_plan _ _ Hth) as [?|(r' & Hr' & Hp)]; [done|]. exists todo'. congruence.
  - intros x. by apply (to_held _ _ Hth).
  - intros res Hd. pose proof (to_follows _ _ Hth) as Hf. by rewrite Hd in Hf.
Qed.
End discipline.
