(* ===== verification/Rely.v ===== *)
(** * Reasoning about one request among others

    A judgement about one program of the pool, in the rely-guarantee style: [I]
    holds of the disk between any two steps, and [G] says what a thread may do to
    the disk in one call, given the locks it holds and the UUIDs it drew.  Between
    two steps of the program the others may have done anything their locks and
    UUIDs allow ([rely]).  [pool_sound] lifts the judgements about all programs to
    the whole pool. *)

From S2P Require Import Prelude RustStr RustPath Paths Checksum EngineError Fs FsFacts Atomic Meta Layer Walk FsBase Listing FsEngine Tidy Store Refine Locks Conc.

(** The locks a thread holds and the UUIDs it drew. *)
Record local := mkLocal {
  held : list (lock * mode);
  drawn : list str;
}.

Definition nothing : local := mkLocal [] [].
Definition take_lock (l : lock) (md : mode) (σ : local) : local := mkLocal ((l, md) :: held σ) (drawn σ).
Definition let_go (l : lock) (md : mode) (σ : local) : local := mkLocal (drop_lock (l, md) (held σ)) (drawn σ).
Definition draw (u : str) (σ : local) : local := mkLocal (held σ) (u :: drawn σ).

(** Two threads whose locks do not exclude each other, with different UUIDs. *)
Record apart (σ σ' : local) : Prop := {
  ap_locks l md md' : (l, md) ∈ held σ → (l, md') ∈ held σ' → md = Shared ∧ md' = Shared;
  ap_drawn u : u ∈ drawn σ → u ∉ drawn σ';
}.

#[global] Instance apart_sym : Symmetric apart.
Proof. intros σ σ' [Hl Hd]. split; naive_solver. Qed.

Section rely.
Context {E : Env} (I : disk → Prop) (G : local → disk → disk → Prop).

(** A step of some other thread, and any number of them. *)
Definition other (σ : local) (d d' : disk) : Prop := ∃ σ', apart σ σ' ∧ I d ∧ I d' ∧ G σ' d d'.
Definition rely (σ : local) : disk → disk → Prop := rtc (other σ).

(** Whenever the thread goes on, with the disk as the others have left it, its
    next call does what [G] allows and keeps [I]; [Q] holds when it is done.  The
    disk at the moment a lock was let go is remembered in [L]. *)
Fixpoint rwp {X A} (m : M X A) (Q : result A X → local → gmap lock disk → disk → Prop)
    (σ : local) (L : gmap lock disk) (d : disk) : Prop :=
  match m with
  | Done r => Q r σ L d
  | Sys op part k => ∀ d', rely σ d d' → I d' →
      (I (op d').2 ∧ G σ d' (op d').2 ∧ rwp (k (op d').1) Q σ L (op d').2)
      ∧ ∀ e n, environmental (kind e) → get_ref e = None →
          I (part n d') ∧ G σ d' (part n d') ∧ rwp (k (Err e)) Q σ L (part n d')
  | Now k => ∀ d', rely σ d d' → I d' → ∀ z, rwp (k z) Q σ L d'
  | Uuid k => ∀ d', rely σ d d' → I d' → ∀ u, uuid_ok u → u ∉ drawn σ → rwp (k u) Q (draw u σ) L d'
  | Bound k => ∀ d', rely σ d d' → I d' → ∀ n, rwp (k n) Q σ L d'
  | Acquire l md k => ∀ d', rely σ d d' → I d' → rwp k Q (take_lock l md σ) L d'
  | Release l md k => ∀ d', rely σ d d' → I d' → rwp k Q (let_go l md σ) (<[l := d']> L) d'
  | Enter k | Leave k => ∀ d', rely σ d d' → I d' → rwp k Q σ L d'
  end.

(** ** Rules *)

Lemma rwp_mono {X A} (m : M X A) (Q Q' : _ → _ → _ → _ → Prop) σ L d :
  rwp m Q σ L d → (∀ r σ' L' d', Q r σ' L' d' → Q' r σ' L' d') → rwp m Q' σ L d.
Proof.
  intros Hm HQ. revert σ L d Hm.
  induction m as [r|Y op part k IH|k IH|k IH|k IH|l md k IH|l md k IH|k IH|k IH]; intros σ L d Hm; cbn in *; eauto.
  intros d' Hr Hi. destruct (Hm d' Hr Hi) as [(? & ? & ?) Hf]. split; [eauto|].
  intros e n He Hn. destruct (Hf e n He Hn) as (? & ? & ?). eauto.
Qed.

Lemma rwp_andThen {X Y A B} (m : M X A) (k : result A X → M Y B) Q σ L d :
  rwp m (λ r σ' L' d', rwp (k r) Q σ' L' d') σ L d → rwp (andThen m k) Q σ L d.
Proof.
  revert σ L d.
  induction m as [r|Z op part c IH|c IH|c IH|c IH|l md c IH|l md c IH|c IH|c IH]; intros σ L d Hm; cbn in *; eauto.
  intros d' Hr Hi. destruct (Hm d' Hr Hi) as [(? & ? & ?) Hf]. split; [eauto|].
  intros e n He Hn. destruct (Hf e n He Hn) as (? & ? & ?). eauto.
Qed.

Lemma rwp_bind {X A B} (m : M X A) (k : A → M X B) Q σ L d :
  rwp m (λ r σ' L' d', match r with Ok a => rwp (k a) Q σ' L' d' | Err e => Q (Err e) σ' L' d' end) σ L d →
  rwp (bind m k) Q σ L d.
Proof. intros Hm. apply rwp_andThen. eapply rwp_mono; [exact Hm|]. by intros [a|e]. Qed.

Lemma rwp_attempt {X Y A} (m : M X A) Q σ L d :
  rwp m (λ r, Q (Ok r)) σ L d → rwp (attempt m : M Y _) Q σ L d.
Proof. intros Hm. by apply rwp_andThen. Qed.

Lemma rwp_mapE {X Y A} (f : X → Y) (m : M X A) Q σ L d :
  rwp m (λ r, Q (map_err f r)) σ L d → rwp (mapE f m) Q σ L d.
Proof. intros Hm. by apply rwp_andThen. Qed.

Lemma rwp_here {X A} (m : M X A) Q σ L d :
  (∀ d', rely σ d d' → I d' → rwp m Q σ L d') → (∀ r, m ≠ Done r) → rwp m Q σ L d.
Proof.
  intros Hm Hne. destruct m; [by edestruct Hne|..]; cbn; intros d' Hr Hi; specialize (Hm d' Hr Hi); cbn in Hm;
    by apply Hm.
Qed.

Lemma rwp_blocking {X A} (m : M X A) Q σ L d :
  (∀ d', rely σ d d' → I d' → rwp m (λ r σ' L' d', ∀ d'', rely σ' d' d'' → I d'' → Q r σ' L' d'') σ L d') →
  rwp (blocking m) Q σ L d.
Proof. intros Hm. cbn. intros d' Hr Hi. apply rwp_andThen. by apply Hm. Qed.

Lemma rwp_syscall {A} (op : disk → result A io_error * disk) part Q σ L d :
  (∀ d', rely σ d d' → I d' →
     (∀ r d2, op d' = (r, d2) → I d2 ∧ G σ d' d2 ∧ Q r σ L d2)
     ∧ ∀ e n, environmental (kind e) → get_ref e = None →
         I (part n d') ∧ G σ d' (part n d') ∧ Q (Err e) σ L (part n d')) →
  rwp (syscall op part) Q σ L d.
Proof.
  intros Hm d' Hr Hi. destruct (Hm d' Hr Hi) as [Ho Hp]. split; [|done]. apply Ho. by destruct (op d').
Qed.

(** Nothing has moved yet. *)
Definition at_rest {X A} (Q : result A X → local → gmap lock disk → disk → Prop) : Prop :=
  ∀ r σ L d d', Q r σ L d → rely σ d d' → I d' → Q r σ L d'.

Lemma rwp_rely {X A} (m : M X A) Q σ L d d' :
  at_rest Q → rwp m Q σ L d → rely σ d d' → I d' → rwp m Q σ L d'.
Proof.
  intros HQ Hm Hr Hi. destruct m; cbn in *; try (intros d'' Hr' Hi'; apply Hm; [by etrans|done]).
  by eapply HQ.
Qed.
End rely.

(** ** From one request to the pool *)

Section pool.
Context {E : Env} {HS : HashCrates} {MD : Md5Crate} {RD : Reads}.
Context `{!Serde VersionManifest, !Serde BucketMeta, !Serde DiskFormat}.
Context (I : disk → Prop) (G : local → disk → disk → Prop) (e : FsEngine.t).
Context (Post : option request → result reply EngineError → local → gmap lock disk → disk → Prop).

Definition local_of (th : thread) : local := mkLocal (th_held th) (th_drawn th).

(** What is shown of the programs: every request, and the end of a cancelled one. *)
Class Verified : Prop := {
  vf_post r : at_rest I G (Post r);
  vf_program r d : request_strings r → I d → rwp I G (program e r) (Post (Some r)) nothing ∅ d;
  vf_unwind acts σ L d : (∀ u, Unlink u ∈ acts → u ∈ drawn σ ∧ uuid_ok u) → I d → rwp I G (unwind e acts) (Post None) σ L d;
}.

(** On the way from [s0] to [s] the disk was [d0] at a moment when the request [r],
    as thread [t], held the lock [l]. *)
Definition held_at (s0 s : pool) (t : nat) (r : option request) (l : lock) (d0 : disk) : Prop :=
  ∃ s1 th1 md, rtc (pool_step e false) s0 s1 ∧ rtc (pool_step e false) s1 s
    ∧ threads s1 !! t = Some th1 ∧ th_request th1 = r ∧ (l, md) ∈ th_held th1 ∧ pdisk s1 = d0.

Lemma held_at_step s0 s s' t r l d0 : pool_step e false s s' → held_at s0 s t r l d0 → held_at s0 s' t r l d0.
Proof. intros Hs (s1 & th1 & md & H1 & H2 & H3). exists s1, th1, md. split_and!; [done|by eapply rtc_r|apply H3..]. Qed.

(** The judgement holds of every thread, with the disks it remembers those at which
    it let go of its locks, and the threads are apart. *)
Record pool_ok (s0 s : pool) : Prop := {
  pk_inv : I (pdisk s);
  pk_threads t th : threads s !! t = Some th →
    ∃ L, rwp I G (th_prog th) (Post (th_request th)) (local_of th) L (pdisk s)
      ∧ ∀ l d0, L !! l = Some d0 → held_at s0 s t (th_request th) l d0;
  pk_apart t t' th th' : t ≠ t' → threads s !! t = Some th → threads s !! t' = Some th' →
    apart (local_of th) (local_of th');
  pk_issued t th u : threads s !! t = Some th → u ∈ th_drawn th → u ∈ issued s ∧ uuid_ok u;
}.

Context `{!Verified}.

(** One thread has moved, by what it may do. *)
Lemma pool_ok_move s0 s t th th' d' L' iss n :
  let s' := mkPool d' (<[t := th']> (threads s)) iss n in
  pool_step e false s s' →
  pool_ok s0 s → threads s !! t = Some th → I d' → d' = pdisk s ∨ G (local_of th) (pdisk s) d' →
  rwp I G (th_prog th') (Post (th_request th')) (local_of th') L' d' →
  (∀ l d0, L' !! l = Some d0 → held_at s0 s t (th_request th') l d0) →
  (∀ t2 th2, t2 ≠ t → threads s !! t2 = Some th2 → apart (local_of th') (local_of th2)) →
  issued s ⊆ iss → (∀ u, u ∈ th_drawn th' → u ∈ iss ∧ uuid_ok u) →
  pool_ok s0 s'.
Proof.
  intros s' Hs [Hi Ht Ha Hu] Hth Hi' Hstep Hrwp HL Hap Hiss Hdr. split; cbn.
  - done.
  - intros t2 th2. destruct (decide (t2 = t)) as [->|Hne].
    { rewrite lookup_insert_eq. intros [= <-]. exists L'. split; [done|]. intros l d0 Hl. by eapply held_at_step, HL. }
    rewrite lookup_insert_ne by done. intros H2. destruct (Ht t2 th2 H2) as (L2 & H2' & HL2). exists L2.
    split; [|intros l d0 Hl; by eapply held_at_step, HL2].
    destruct Hstep as [->|Hg]; [done|]. eapply rwp_rely; [apply vf_post|exact H2'| |done].
    apply rtc_once. exists (local_of th). split_and!; [|done..]. eapply Ha; [exact Hne|done..].
  - intros t1 t2 th1 th2 Hne. destruct (decide (t1 = t)) as [->|H1], (decide (t2 = t)) as [->|H2];
      rewrite ?lookup_insert_eq, ?lookup_insert_ne by done; [done| | |].
    + intros [= <-]. by apply Hap.
    + intros Hl [= <-]. symmetry. by eapply Hap.
    + by apply Ha.
  - intros t2 th2 u. destruct (decide (t2 = t)) as [->|Hne].
    { rewrite lookup_insert_eq. intros [= <-]. auto. }
    rewrite lookup_insert_ne by done. intros H2 Hin. destruct (Hu t2 th2 u H2 Hin). auto.
Qed.

(** A thread that keeps its locks, its UUIDs and its request. *)
Lemma pool_ok_same s0 s t th th' d' L n :
  let s' := mkPool d' (<[t := th']> (threads s)) (issued s) n in
  pool_step e false s s' →
  pool_ok s0 s → threads s !! t = Some th → I d' → d' = pdisk s ∨ G (local_of th) (pdisk s) d' →
  rwp I G (th_prog th') (Post (th_request th')) (local_of th) L d' →
  (∀ l d0, L !! l = Some d0 → held_at s0 s t (th_request th') l d0) →
  th_held th' = th_held th → th_drawn th' = th_drawn th →
  pool_ok s0 s'.
Proof.
  intros s' Hs Hok Ht Hi Hd Hr HL He Hn. assert (local_of th' = local_of th) as Hl by (unfold local_of; by rewrite He, Hn).
  eapply pool_ok_move; [done..| |done| |done|]; rewrite ?Hl; [done| |].
  - intros t2 th2 Hne H2. by eapply (pk_apart s0 s Hok t t2).
  - rewrite Hn. intros u. by eapply (pk_issued s0 s Hok t).
Qed.

Lemma advance_sound s0 s s' :
  rtc (pool_step e false) s0 s → threads_ok (threads s) → advance s s' → pool_ok s0 s → pool_ok s0 s'.
Proof.
  intros Hreach Hths Ha Hok. pose proof (pk_inv s0 s Hok) as Hi. pose proof (step_advance e false s s' Ha) as Hstep.
  destruct Ha as [t th X op part k Ht Hk|t th X op part k err n Ht Hk He Hn|t th k z Ht Hk|t th k u Ht Hk Huu Hu
    |t th k n Ht Hk|t th l md k Ht Hk Hob|t th l md k Ht Hk|t th k Ht Hk|t th k Ht Hk|t th r Ht Hk];
    destruct (pk_threads s0 s Hok t th Ht) as (L & Hr & HL); rewrite Hk in Hr; cbn in Hr;
    try specialize (Hr (pdisk s) (rtc_refl _ _) Hi);
    (* what the others may have had in common with the thread before, they have now *)
    pose proof (λ t2 th2 Hne, pk_apart s0 s Hok t t2 th th2 (not_eq_sym Hne) Ht) as Hap;
    pose proof (λ u, pk_issued s0 s Hok t th u Ht) as Hiss.
  - destruct Hr as [(? & ? & ?) _]. eapply (pool_ok_same s0 s t th); [done..|by right|done|done|done|done].
  - destruct Hr as [_ Hf]. destruct (Hf err n He Hn) as (? & ? & ?).
    eapply (pool_ok_same s0 s t th); [done..|by right|done|done|done|done].
  - eapply (pool_ok_same s0 s t th); [done..|by left|apply Hr|done|done|done].
  - assert (u ∉ th_drawn th) as Hnew by (intros Hin; apply Hu; by apply Hiss).
    eapply (pool_ok_move s0 s t th); [done|done|done|done|by left|by apply Hr|exact HL| |set_solver|].
    + intros t2 th2 Hne H2. destruct (Hap t2 th2 Hne H2) as [Hl Hd]. split; [exact Hl|].
      cbn. intros u' [->|Hin]%elem_of_cons; [|by apply Hd]. intros Hin. apply Hu.
      exact (proj1 (pk_issued s0 s Hok t2 th2 u H2 Hin)).
    + cbn. intros u' [->|Hin]%elem_of_cons; [split; [set_solver|done]|].
      destruct (Hiss u' Hin). split; [by apply elem_of_union_r|done].
  - eapply (pool_ok_same s0 s t th); [done..|by left|apply Hr|done|done|done].
  - eapply (pool_ok_move s0 s t th); [done|done|done|done|by left|exact Hr|exact HL| |done|exact Hiss].
    intros t2 th2 Hne H2. destruct (Hap t2 th2 Hne H2) as [Hl Hd]. split; [|exact Hd].
    cbn. intros l' m m' [[= -> ->]|Hin]%elem_of_cons Hin'; [exact (proj1 (obtainable_alt _ _ _) Hob t2 th2 m' H2 Hin')|exact (Hl l' m m' Hin Hin')].
  - eapply (pool_ok_move s0 s t th); [done|done|done|done|by left|exact Hr| | |done|exact Hiss].
    + cbn. intros l' d0 [[<- <-]|[_ Hl]]%lookup_insert_Some; [|by apply HL].
      destruct (Hths t th Ht) as [todo Hth]. pose proof (to_follows _ _ Hth) as Hf. rewrite Hk in Hf. destruct Hf as [Hin _].
      exists s, th, md. by split_and!.
    + intros t2 th2 Hne H2. destruct (Hap t2 th2 Hne H2) as [Hl Hd]. split; [|exact Hd].
      cbn. intros l' m m' [_ Hin]%elem_of_drop_lock Hin'. exact (Hl l' m m' Hin Hin').
  - eapply (pool_ok_same s0 s t th); [done..|by left|apply Hr|done|done|done].
  - eapply (pool_ok_same s0 s t th); [done..|by left|apply Hr|done|done|done].
  - destruct Hok as [_ H1 H2 H3]. split; cbn; [done|..].
    + intros t2 th2 [_ Ht2]%lookup_delete_Some. destruct (H1 t2 th2 Ht2) as (L2 & ? & HL2). exists L2.
      split; [done|]. intros l d0 Hl. by eapply held_at_step, HL2.
    + intros t1 t2 th1 th2 Hne [_ ?]%lookup_delete_Some [_ ?]%lookup_delete_Some. eauto.
    + intros t2 th2 u [_ ?]%lookup_delete_Some. eauto.
Qed.

Lemma pool_sound s0 s s' :
  rtc (pool_step e false) s0 s → threads_ok (threads s) → pool_step e false s s' → pool_ok s0 s → pool_ok s0 s'.
Proof.
  intros Hreach Hths Hs Hok. pose proof Hs as Hstep.
  destruct Hs as [s' Ha|t r Ht Hfresh Hreq|t th acts Ht Hreq Hin Ho|t th acts t' Hd]; [..|done].
  - by eapply advance_sound.
  - pose proof Hok as [Hi H1 H2 H3]. split; cbn; [done|..].
    + intros t2 th2 [[<- <-]|[_ Ht2]]%lookup_insert_Some.
      { exists ∅. split; [by apply vf_program|]. intros l d0. by rewrite lookup_empty. }
      destruct (H1 t2 th2 Ht2) as (L2 & ? & HL2). exists L2. split; [done|]. intros l d0 Hl. by eapply held_at_step, HL2.
    + intros t1 t2 th1 th2 Hne [[<- <-]|[? ?]]%lookup_insert_Some [[<- <-]|[? ?]]%lookup_insert_Some; [done|..|eauto];
        split; cbn; try (by intros ? ?%elem_of_nil); try (by intros ? ? ? ?%elem_of_nil);
        try (by intros ? ? ? _ ?%elem_of_nil); intros ? _; apply not_elem_of_nil.
    + intros t2 th2 u [[<- <-]|[_ ?]]%lookup_insert_Some; [by intros ?%elem_of_nil|eauto].
  - eapply (pool_ok_same s0 s t th _ (pdisk s) ∅); [done|done|done|apply Hok|by left| |by intros l d0; rewrite lookup_empty|done..].
    apply vf_unwind; [|apply Hok]. intros u Hu. unfold owns in Ho. rewrite Ho in Hu.
    apply elem_of_app in Hu as [(? & [= ->] & ?)%list_elem_of_fmap|(? & ? & ?)%list_elem_of_fmap]; [|done].
    split; [done|]. by eapply (pk_issued s0 s Hok t th).
Qed.

Lemma pool_ok_idle d : I d → pool_ok (idle d) (idle d).
Proof.
  intros Hi.
  split; [done|..]; cbn; [intros t th Ht|intros t t' th th' _ Ht _|intros t th u Ht _]; by rewrite lookup_empty in Ht.
Qed.

Lemma reachable_ok d s : I d → pool_reachable e false d s → pool_ok (idle d) s.
Proof.
  intros Hi. revert s. unfold pool_reachable. apply rtc_ind_r; [by apply pool_ok_idle|].
  intros s s' Hr Hs. apply pool_sound; [done|by eapply reachable_threads_ok|done].
Qed.

(** What a step of the pool does to the disk is done by a call of one thread,
    within what it may do. *)
Lemma step_guarantee s0 s s' : pool_ok s0 s → pool_step e false s s' → pdisk s' ≠ pdisk s →
  ∃ t th X op part k, threads s !! t = Some th ∧ th_prog th = @Sys _ _ X op part k
    ∧ (pdisk s' = (op (pdisk s)).2 ∨ ∃ n, pdisk s' = part n (pdisk s))
    ∧ G (local_of th) (pdisk s) (pdisk s').
Proof.
  intros Hok Hs Hne. destruct Hs as [s' Ha|t r Ht Hfr Hreq|t th acts Ht Hreq Hin Ho|t th acts t' Hd]; [|done..].
  destruct Ha as [t th X op part k Ht Hk|t th X op part k err n Ht Hk He Hn| | | | | | | |]; [..|done|done|done|done|done|done|done|done];
    destruct (pk_threads s0 s Hok t th Ht) as (L & Hr & _); rewrite Hk in Hr;
    destruct (Hr (pdisk s) (rtc_refl _ _) (pk_inv s0 s Hok)) as [(_ & ? & _) Hf];
    exists t, th, X, op, part, k; (split_and!; [done|done|eauto|]); [done|].
  by destruct (Hf err n He Hn) as (_ & ? & _).
Qed.
End pool.
