(* ===== verification/ConcStore.v ===== *)
(** * What the requests do to the store, in parallel

    The protocol the requests of the engine keep among each other: which entries of
    the disk a request may change, given the locks it holds and the staged files it
    owns ([may_change]).  Every step of every request keeps it and the invariant
    of the data directory, so that what a lock protects does not change under its
    holder. *)

From S2P Require Import Prelude RustStr RustPath Paths Checksum EngineError Fs FsFacts Atomic Meta Layer Walk FsBase Listing FsEngine Tidy FsObject FsDelete FsList FsBuckets FsOpen ReadOnly Store Refine Locks Conc Rely.

Section protocol.
Context {E : Env} {D : DataDir} `{!EnvOk E} `{!Serde VersionManifest}.

(** ** The protocol *)

(** The staged file named by a UUID. *)
Definition tmp_file (u : str) : apath := tmp_path ++ [u ++ b#".tmp"].

(** The two files of an object. *)
Definition object_file (n : str) : Prop := n = META_FILE ∨ n = data_file_name NULL_VERSION_ID.

(** What a thread may make of the entry at [q]: its staged files; with the bucket
    and the key locked, the two files of the object, a manifest only one that can
    be read; with the bucket locked, directories for keys; with the bucket locked
    exclusively, anything in it but an object. *)
Inductive may_change (σ : local) (q : apath) (x x' : option node) : Prop :=
  | mc_tmp u : u ∈ drawn σ → q = tmp_file u → x ≠ Some NDir → x' ≠ Some NDir → may_change σ q x x'
  | mc_file b k md n :
      (BucketLock b, md) ∈ held σ → (KeyLock b k, Exclusive) ∈ held σ → utf8 k → object_file n →
      q = object_path b k ++ [n] → x' ≠ Some NDir →
      (n = META_FILE → ∀ bytes s, x' = Some (NFile bytes s) → is_Some (parse_manifest bytes)) →
      may_change σ q x x'
  | mc_dir b md r :
      (BucketLock b, md) ∈ held σ → Forall canonical r → q = objects_path b ++ r →
      (x = None ∧ x' = Some NDir) ∨ (x = Some NDir ∧ x' = None) → may_change σ q x x'
  | mc_bucket b r :
      (BucketLock b, Exclusive) ∈ held σ → q = bucket_path b ++ r →
      (head r = Some OBJECTS_DIR → x = Some NDir ∧ x' = None) → may_change σ q x x'.

Definition allowed (σ : local) (d d' : disk) : Prop :=
  ∀ q, vol d' !! q = vol d !! q ∨ may_change σ q (vol d !! q) (vol d' !! q).

(** The invariant of the data directory. *)
Definition sound (d : disk) : Prop := store_ok (vol d).

(** ** Paths *)

Lemma bucket_path_inj b b' r r' : bucket_path b ++ r = bucket_path b' ++ r' → b = b' ∧ r = r'.
Proof.
  rewrite !bucket_path_eq, <- !app_assoc. intros Heq%app_inv_head. cbn in Heq. by injection Heq.
Qed.

Lemma objects_in_bucket b r : objects_path b ++ r = bucket_path b ++ OBJECTS_DIR :: r.
Proof. unfold objects_path. by rewrite <- app_assoc. Qed.

Lemma tmp_file_inj u u' : tmp_file u = tmp_file u' → u = u'.
Proof. unfold tmp_file. intros [_ Heq]%app_inj_tail. by apply app_inv_tail in Heq. Qed.

Lemma tmp_file_bucket u b r : tmp_file u ≠ bucket_path b ++ r.
Proof.
  unfold tmp_file, tmp_path. rewrite bucket_path_eq, <- !app_assoc. intros Heq%app_inv_head. by injection Heq.
Qed.

Lemma buckets_below b r : bucket_path b ++ r = buckets_path ++ b :: r.
Proof. unfold bucket_path. by rewrite <- app_assoc. Qed.

Lemma object_file_reserved n : object_file n → reserved n = true.
Proof. intros [->| ->]; [done|apply data_name_reserved]. Qed.

(** Where a change is: a staged file, or in a bucket that is locked. *)
Lemma may_change_where σ q x x' : may_change σ q x x' →
  (∃ u, u ∈ drawn σ ∧ q = tmp_file u) ∨ ∃ b md r, (BucketLock b, md) ∈ held σ ∧ q = bucket_path b ++ r.
Proof.
  destruct 1 as [u ? ->|b k md n ? ? ? ? ->|b md r ? ? ->|b r ? ->]; [left; eauto|right..].
  - exists b, md. rewrite object_file_in_bucket. eauto.
  - exists b, md. rewrite objects_in_bucket. eauto.
  - eauto.
Qed.

(** ** The invariant is kept *)

Lemma allowed_refl σ d d' : vol d' = vol d → allowed σ d d'.
Proof. intros Heq q. left. by rewrite Heq. Qed.

(** A directory outside the buckets stays. *)
Lemma allowed_dir σ d d' q : allowed σ d d' → vol d !! q = Some NDir → (∀ b r, q ≠ bucket_path b ++ r) →
  vol d' !! q = Some NDir.
Proof.
  intros Ha Hq Hout. destruct (Ha q) as [->|Hc]; [done|].
  destruct (may_change_where _ _ _ _ Hc) as [(u & _ & ->)|(b & md & r & _ & ->)]; [|by destruct (Hout b r)].
  exfalso. inversion Hc as [u' _ _ Hx _|b k md n _ _ _ _ Heq _ _|b md r _ _ Heq _|b r _ Heq _].
  - by destruct Hx.
  - rewrite object_file_in_bucket in Heq. by apply tmp_file_bucket in Heq.
  - rewrite objects_in_bucket in Heq. by apply tmp_file_bucket in Heq.
  - by apply tmp_file_bucket in Heq.
Qed.

Lemma allowed_layout σ d d' : layout (vol d) → wf (vol d') → allowed σ d d' → layout (vol d').
Proof.
  intros [Hwf Hc Ht Hb Ho] Hwf' Ha. split; [done|..|done]; eapply allowed_dir; try done.
  - intros b r Heq. apply Ho. rewrite Heq, buckets_below. by apply prefix_app_r.
  - intros b r. unfold tmp_path. rewrite bucket_path_eq, <- app_assoc. intros Heq%app_inv_head. by injection Heq.
  - intros b r. rewrite buckets_below. intros Heq%(f_equal length). rewrite length_app in Heq. cbn in Heq. lia.
Qed.

(** Below [objects] a change leaves what the engine writes. *)
Lemma may_change_tree σ b r x x' : may_change σ (objects_path b ++ r) x (Some x') →
  (∃ k n, utf8 k ∧ object_file n ∧ r = key_names k ++ [n] ∧ x' ≠ NDir
     ∧ (n = META_FILE → ∀ bytes s, x' = NFile bytes s → is_Some (parse_manifest bytes)))
  ∨ Forall canonical r ∧ x' = NDir.
Proof.
  inversion 1 as [u _ Heq _ _|b' k md n _ _ Hk Hn Heq Hx Hm|b' md r' _ Hr Heq Hx|b' r' _ Heq Hx].
  - rewrite objects_in_bucket in Heq. symmetry in Heq. by apply tmp_file_bucket in Heq.
  - left. unfold object_path in Heq. rewrite <- app_assoc in Heq. apply objects_path_inj in Heq as [-> ->].
    exists k, n. split_and!; try done; [congruence|]. intros ? bytes s ->. by eapply Hm.
  - right. apply objects_path_inj in Heq as [-> ->]. split; [done|]. destruct Hx as [[_ [= ->]]|[_ ?]]; done.
  - rewrite objects_in_bucket in Heq. apply bucket_path_inj in Heq as [-> <-].
    by destruct (Hx eq_refl) as [_ ?].
Qed.

Lemma allowed_sound σ d d' : sound d → wf (vol d') → allowed σ d d' → sound d'.
Proof.
  intros [Hlay Htr] Hwf' Ha. split; [by eapply allowed_layout|]. intros b _.
  assert (∀ r x, vol d !! (objects_path b ++ r) = Some x → bucket_tree b (vol d)) as Hold.
  { intros r x Hx. apply Htr. rewrite objects_in_bucket in Hx.
    apply (wf_prefix _ _ (OBJECTS_DIR :: r)); [apply Hlay|done|by eexists]. }
  split.
  - intros q n x Hx. destruct (Ha (objects_path b ++ q ++ [n])) as [Heq|Hc].
    + rewrite Heq in Hx. by apply (bt_tree _ _ (Hold _ _ Hx)).
    + rewrite Hx in Hc. apply may_change_tree in Hc as [(k & n' & Hk & Hn & Heq & Hnd & _)|[Hr ->]].
      * apply app_inj_tail in Heq as [-> ->]. split; [by apply key_names_canonical|].
        destruct x; [done|]. by apply object_file_reserved.
      * apply Forall_app in Hr as [? Hr]. by rewrite Forall_singleton in Hr.
  - intros data s Hx. rewrite <- (app_nil_r (objects_path b)) in Hx. destruct (Ha (objects_path b ++ [])) as [Heq|Hc].
    + rewrite Heq in Hx. pose proof (Hold _ _ Hx) as Hbt. rewrite app_nil_r in Hx. by eapply (bt_objects _ _ Hbt).
    + rewrite Hx in Hc. apply may_change_tree in Hc as [(k & n & _ & _ & Heq & _)|[_ ?]]; [|done].
      by destruct (key_names k).
  - intros k bytes Hk [s Hx]%file_at_Some. rewrite meta_path_eq in Hx.
    destruct (Ha (objects_path b ++ key_names k ++ [META_FILE])) as [Heq|Hc].
    + rewrite Heq in Hx. apply (bt_manifests _ _ (Hold _ _ Hx) k); [done|]. apply file_at_Some. exists s. by rewrite meta_path_eq.
    + rewrite Hx in Hc. apply may_change_tree in Hc as [(k' & n' & _ & _ & Heq & _ & Hm)|[_ ?]]; [|done].
      apply app_inj_tail in Heq as [_ <-]. by eapply Hm.
Qed.

(** ** What the locks protect *)

(** The entries nobody else changes: the thread's staged files, the directory of a
    bucket it has locked, everything in a bucket it has locked exclusively, and the
    files of a key it has locked. *)
Inductive owned (σ : local) (q : apath) : Prop :=
  | own_tmp u : u ∈ drawn σ → q = tmp_file u → owned σ q
  | own_bucket b md : (BucketLock b, md) ∈ held σ → q = bucket_path b → owned σ q
  | own_all b r : (BucketLock b, Exclusive) ∈ held σ → q = bucket_path b ++ r → owned σ q
  | own_file_of b k md n :
      (BucketLock b, md) ∈ held σ → (KeyLock b k, Exclusive) ∈ held σ → utf8 k → object_file n →
      q = object_path b k ++ [n] → owned σ q.

Abbreviation store_rely := (rely sound allowed).
Abbreviation store_rwp := (rwp sound allowed).

Lemma apart_exclusive σ σ' l md : apart σ σ' → (l, Exclusive) ∈ held σ → (l, md) ∉ held σ'.
Proof. intros Ha Hl Hl'. by destruct (ap_locks _ _ Ha l Exclusive md Hl Hl'). Qed.

Lemma owned_other σ d d' q : owned σ q → other sound allowed σ d d' → vol d' !! q = vol d !! q.
Proof.
  intros Ho (σ' & Hap & _ & _ & Ha). destruct (Ha q) as [?|Hc]; [done|exfalso].
  pose proof (may_change_where _ _ _ _ Hc) as Hw. pose proof (symmetry Hap) as Hap'.
  destruct Ho as [u Hu ->|b md Hb ->|b r Hb ->|b k md n Hb Hk H8 Hn ->].
  - destruct Hw as [(u' & Hu' & ->%tmp_file_inj)|(b & md & r & _ & Heq)]; [by apply (ap_drawn _ _ Hap u')|].
    by apply tmp_file_bucket in Heq.
  - rewrite <- (app_nil_r (bucket_path b)) in Hc.
    inversion Hc as [u _ Heq _ _|b' k md' n _ _ _ _ Heq _ _|b' md' r _ _ Heq _|b' r Hb' Heq _].
    + symmetry in Heq. by apply tmp_file_bucket in Heq.
    + rewrite object_file_in_bucket in Heq. by apply bucket_path_inj in Heq as [_ ?].
    + rewrite objects_in_bucket in Heq. by apply bucket_path_inj in Heq as [_ ?].
    + apply bucket_path_inj in Heq as [-> _]. by eapply (apart_exclusive σ' σ).
  - destruct Hw as [(u' & _ & Heq)|(b' & md & r' & Hb' & [-> _]%bucket_path_inj)];
      [symmetry in Heq; by apply tmp_file_bucket in Heq|]. by eapply (apart_exclusive σ σ').
  - inversion Hc as [u _ Heq _ _|b' k' md' n' _ Hk' H8' _ Heq _ _|b' md' r _ Hr Heq _|b' r Hb' Heq _].
    + rewrite object_file_in_bucket in Heq. symmetry in Heq. by apply tmp_file_bucket in Heq.
    + apply app_inj_tail in Heq as [Heq _]. apply object_path_inj in Heq as [-> ->]; [|done..].
      by eapply (apart_exclusive σ σ').
    + unfold object_path in Heq. rewrite <- app_assoc in Heq. apply objects_path_inj in Heq as [_ <-].
      apply Forall_app in Hr as [_ Hr]. rewrite Forall_singleton in Hr. apply canonical_not_reserved in Hr.
      apply object_file_reserved in Hn. congruence.
    + rewrite object_file_in_bucket in Heq. apply bucket_path_inj in Heq as [-> _]. by eapply (apart_exclusive σ' σ).
Qed.

Lemma owned_rely σ d d' q : owned σ q → store_rely σ d d' → vol d' !! q = vol d !! q.
Proof. intros Ho Hr. induction Hr as [|d1 d2 d3 H12 _ IH]; [done|]. by rewrite IH, (owned_other σ d1 d2). Qed.

(** Known entries. *)
Definition facts (l : list (apath * option node)) (m : tree) : Prop := Forall (λ qx, m !! qx.1 = qx.2) l.

Definition mine (σ : local) (l : list (apath * option node)) : Prop := Forall (λ qx, owned σ qx.1) l.

Lemma rely_facts σ l d d' : mine σ l → store_rely σ d d' → facts l (vol d) → facts l (vol d').
Proof.
  intros Hm Hr Hf. unfold facts, mine in *. rewrite Forall_forall in *. intros [q x] Hin.
  rewrite (owned_rely σ d d'); [by apply (Hf (q, x))|by apply (Hm (q, x))|done].
Qed.

(** A thread that has drawn more UUIDs. *)
Record grown (σ σ' : local) : Prop := {
  gn_held : held σ' = held σ;
  gn_drawn u : u ∈ drawn σ → u ∈ drawn σ';
}.

#[global] Instance grown_refl : Reflexive grown.
Proof. by intros σ. Qed.
#[global] Instance grown_trans : Transitive grown.
Proof. intros σ1 σ2 σ3 [H1 D1] [H2 D2]. split; [congruence|auto]. Qed.

Lemma grown_draw u σ : grown σ (draw u σ).
Proof. split; [done|]. intros u' Hu. by right. Qed.

Lemma grown_owned σ σ' q : grown σ σ' → owned σ q → owned σ' q.
Proof.
  intros [Hh Hd] Ho. destruct Ho; [eapply own_tmp|eapply own_bucket|eapply own_all|eapply own_file_of]; rewrite ?Hh; eauto.
Qed.

Lemma grown_mine σ σ' l : grown σ σ' → mine σ l → mine σ' l.
Proof. intros Hg Hm. eapply Forall_impl; [exact Hm|]. intros qx. by apply grown_owned. Qed.

Lemma grown_allowed σ σ' d d' : grown σ σ' → allowed σ d d' → allowed σ' d d'.
Proof.
  intros [Hh Hd] Ha q. destruct (Ha q) as [?|Hc]; [by left|right].
  destruct Hc; [eapply mc_tmp|eapply mc_file|eapply mc_dir|eapply mc_bucket]; rewrite ?Hh; eauto.
Qed.

(** ** Programs whose calls are all harmless *)

(** A step within the protocol that keeps what is known. *)
Record good (σ : local) (l : list (apath * option node)) (d d' : disk) : Prop := {
  gd_sound : sound d';
  gd_allowed : allowed σ d d';
  gd_facts : facts l (vol d');
}.

Lemma good_same σ l d d' : sound d → facts l (vol d) → vol d' = vol d → good σ l d d'.
Proof. intros Hs Hf Heq. split; [unfold sound; by rewrite Heq|by apply allowed_refl|by rewrite Heq]. Qed.

Definition call_ok (σ : local) (l : list (apath * option node)) X
    (op : disk → result X io_error * disk) (part : nat → disk → disk) : Prop :=
  ∀ d, sound d → facts l (vol d) → good σ l d (op d).2 ∧ ∀ n, good σ l d (part n d).

(** Whatever is answered, every call is within the protocol and keeps what is
    known; no lock is taken. *)
Abbreviation safe σ l := (every (call_ok σ l) (λ _ _, False)).

Lemma rwp_safe {X A} (m : M X A) σ l Q L d :
  safe σ l m → mine σ l → sound d → facts l (vol d) →
  (∀ r σ' d', grown σ σ' → sound d' → facts l (vol d') → Q r σ' L d') →
  store_rwp m Q σ L d.
Proof.
  intros Hm Hl Hs Hf HQ.
  assert (∀ σ' d, grown σ σ' → sound d → facts l (vol d) → store_rwp m Q σ' L d) as H; [|by apply H].
  clear d Hs Hf. induction m as [r|Z op part k IH|k IH|k IH|k IH|lk md k IH|lk md k IH|k IH|k IH]; intros σ' d Hg Hs Hf;
    cbn in Hm |- *; [by apply HQ| | | | |by destruct Hm..| |];
    intros d' Hr Hs'; pose proof (rely_facts σ' l d d' (grown_mine _ _ _ Hg Hl) Hr Hf) as Hf'.
  - destruct Hm as [Hop Hk]. destruct (Hop d' Hs' Hf') as [[? ? ?] Hp]. split.
    + split_and!; [done|by eapply grown_allowed|by apply IH].
    + intros e n _ _. destruct (Hp n) as [? ? ?]. split_and!; [done|by eapply grown_allowed|by apply IH].
  - intros z. by apply IH.
  - intros u _ _. apply IH; [done| |done|done]. etrans; [done|apply grown_draw].
  - intros n. by apply IH.
  - by apply IH.
  - by apply IH.
Qed.

(** ** Locks *)

Lemma rwp_with_lock {X A} lk md (m : M X A) Q σ L d :
  (∀ d', store_rely σ d d' → sound d' →
     store_rwp m (λ r σ' L' d', ∀ d'', store_rely σ' d' d'' → sound d'' →
                    Q r (let_go lk md σ') (<[lk := d'']> L') d'') (take_lock lk md σ) L d') →
  store_rwp (FsEngine.with_lock lk md m) Q σ L d.
Proof.
  intros Hm d' Hr Hs. cbn. apply rwp_andThen, rwp_andThen.
  eapply rwp_mono; [by apply Hm|]. intros r σ' L' d2 HQ. cbn. exact HQ.
Qed.

(** ** The calls *)

Lemma facts_insert l q x m : q ∉ l.*1 → facts l m → facts l (<[q := x]> m).
Proof.
  intros Hq Hf. unfold facts in *. rewrite Forall_forall in *. intros [q' x'] Hin. cbn.
  rewrite lookup_insert_ne; [by apply (Hf (q', x'))|]. intros <-. apply Hq. by apply (list_elem_of_fmap_2 fst _ (q, x')).
Qed.

Lemma facts_delete l q m : q ∉ l.*1 → facts l m → facts l (delete q m).
Proof.
  intros Hq Hf. unfold facts in *. rewrite Forall_forall in *. intros [q' x'] Hin. cbn.
  rewrite lookup_delete_ne; [by apply (Hf (q', x'))|]. intros <-. apply Hq. by apply (list_elem_of_fmap_2 fst _ (q, x')).
Qed.

Lemma good_insert σ l q x d : sound d → facts l (vol d) → q ∉ l.*1 → wf (<[q := x]> (vol d)) →
  may_change σ q (vol d !! q) (Some x) → good σ l d (set_vol <[q := x]> d).
Proof.
  intros Hs Hf Hq Hwf Hc. assert (allowed σ d (set_vol <[q := x]> d)) as Ha.
  { intros q'. cbn. destruct (decide (q = q')) as [<-|Hne]; [right; by rewrite lookup_insert_eq|].
    left. by apply lookup_insert_ne. }
  split; [by eapply allowed_sound|done|by apply facts_insert].
Qed.

Lemma good_delete σ l q d : sound d → facts l (vol d) → q ∉ l.*1 → wf (delete q (vol d)) →
  may_change σ q (vol d !! q) None → good σ l d (set_vol (delete q) d).
Proof.
  intros Hs Hf Hq Hwf Hc. assert (allowed σ d (set_vol (delete q) d)) as Ha.
  { intros q'. cbn. destruct (decide (q = q')) as [<-|Hne]; [right; by rewrite lookup_delete_eq|].
    left. by apply lookup_delete_ne. }
  split; [by eapply allowed_sound|done|by apply facts_delete].
Qed.

Lemma call_ok_same σ l X (op : disk → result X io_error * disk) part :
  (∀ d, vol (op d).2 = vol d) → (∀ n d, vol (part n d) = vol d) → call_ok σ l X op part.
Proof. intros Ho Hp d Hs Hf. split; [|intros n]; by apply good_same. Qed.

Lemma safe_atomic_same {A} σ l (op : disk → result A io_error * disk) :
  (∀ d, vol (op d).2 = vol d) → safe σ l (atomic op).
Proof. intros Ho. by apply every_atomic, call_ok_same. Qed.

Lemma safe_metadata σ l p : safe σ l (metadata p).
Proof. by apply safe_atomic_same. Qed.
Lemma safe_read σ l p : safe σ l (read p).
Proof. apply safe_atomic_same. intros d. by repeat case_match. Qed.
Lemma safe_read_dir σ l p : safe σ l (read_dir p).
Proof. apply safe_atomic_same. intros d. by repeat case_match. Qed.
Lemma safe_flush σ l p : safe σ l (flush p).
Proof. by apply safe_atomic_same. Qed.

Lemma safe_is_dir {F} σ l p : safe σ l (is_dir (F:=F) p).
Proof. pose proof safe_metadata. unfold is_dir. every. Qed.
Lemma safe_try_exists σ l p : safe σ l (try_exists p).
Proof. pose proof safe_metadata. unfold try_exists. every. Qed.

Lemma safe_sync_dir σ l p : safe σ l (sync_dir p).
Proof.
  pose proof safe_metadata. unfold sync_dir. apply every_bind; [done|]. intros _. by apply safe_atomic_same.
Qed.

Lemma safe_sync_dirs σ l dirs : safe σ l (sync_dirs dirs).
Proof. pose proof safe_sync_dir. induction dirs; cbn [sync_dirs]; every. Qed.

Lemma safe_dirs_to_sync {F} σ l dir : safe σ l (dirs_to_sync (F:=F) dir).
Proof.
  pose proof safe_try_exists. unfold dirs_to_sync. generalize (ancestors dir) as ps.
  induction ps; cbn [sync_chain]; every.
Qed.

(** A directory the thread may find or make. *)
Definition dir_ok (σ : local) (l : list (apath * option node)) (q : apath) : Prop :=
  (∀ d, sound d → facts l (vol d) → is_Some (vol d !! q))
  ∨ (q ∉ l.*1 ∧ ∃ b md r, (BucketLock b, md) ∈ held σ ∧ Forall canonical r ∧ q = objects_path b ++ r)
  ∨ (q ∉ l.*1 ∧ ∃ b, (BucketLock b, Exclusive) ∈ held σ ∧ q = bucket_path b).

Lemma safe_create_dir σ l p : dir_ok σ l (resolve p) → safe σ l (create_dir p).
Proof.
  intros Hd. apply every_atomic. intros d Hs Hf. split; [|intros _; by apply good_same]. cbn.
  destruct (walk_new (vol d) (resolve p)) as [[]|] eqn:Hw; [|by apply good_same].
  destruct (vol d !! resolve p) eqn:Hp; [by apply good_same|].
  destruct (walk_new_Ok _ _ Hw) as (a & n & Ha & Hdir & Hn).
  assert (wf (<[resolve p := NDir]> (vol d))) as Hwf by (rewrite Ha; apply wf_insert; [apply Hs|done|done|by left]).
  destruct Hd as [Hd|[(Hq & b & md & r & Hb & Hr & Heq)|(Hq & b & Hb & Heq)]]; [destruct (Hd d Hs Hf); congruence|..];
    cbn; (apply good_insert; [done..|]); rewrite Hp.
  - eapply mc_dir; eauto.
  - eapply (mc_bucket _ _ _ _ b []); [done|by rewrite app_nil_r|done].
Qed.

Lemma safe_create_dir_all σ l hd ns :
  head_path hd → (∀ ns', ns' `prefix_of` ns → dir_ok σ l (resolve hd ++ ns')) →
  safe σ l (create_dir_all (hd ++ (Normal <$> ns))).
Proof.
  intros Hhd Hd. pose proof (@safe_is_dir).
  assert (∀ n p, (∃ ns', p = hd ++ (Normal <$> ns') ∧ ns' `prefix_of` ns) → safe σ l (create_dir_all_fuel n p)) as Hall;
    [|apply every_blocking, Hall; eauto].
  assert (∀ p, (∃ ns', p = hd ++ (Normal <$> ns') ∧ ns' `prefix_of` ns) → safe σ l (create_dir p)) as Hc.
  { intros p (ns' & -> & Hp). apply safe_create_dir. rewrite resolve_normals. auto. }
  induction n as [|n IH]; intros p Hp; (destruct (decide (p = [])) as [->|Hne]; [done|]);
    rewrite create_dir_all_unfold by done.
  - pose proof (Hc p Hp). every.
  - pose proof (Hc p Hp). apply every_bind; [by apply every_attempt|]. intros [u|err]; [done|].
    case_match; [|every]. destruct (parent p) as [q|] eqn:Hq; [|done]. apply every_bind.
    + destruct Hp as (ns' & -> & Hp). destruct ns' as [|x ns' _] using rev_ind.
      * cbn in Hq. rewrite app_nil_r in Hq. destruct Hhd as [->|[->| ->]]; [done|done|].
        injection Hq as <-. by destruct n.
      * rewrite fmap_app, app_assoc in Hq. cbn [fmap list_fmap] in Hq. rewrite parent_snoc in Hq. injection Hq as <-.
        apply IH. exists ns'. split; [done|]. etrans; [|exact Hp]. by apply prefix_app_r.
    + intros _. unfold create_dir_or_present. every.
Qed.

Lemma safe_remove_dir σ l p b md r :
  (BucketLock b, md) ∈ held σ → Forall canonical r → resolve p = objects_path b ++ r → resolve p ∉ l.*1 →
  safe σ l (remove_dir p).
Proof.
  intros Hb Hr Hp Hl. apply every_atomic. intros d Hs Hf. split; [|intros _; by apply good_same]. cbn.
  destruct (walk (vol d) (resolve p)) as [[|]|] eqn:Hw; [|by apply good_same..].
  case_bool_decide as Hc; [|by apply good_same]. apply walk_Ok in Hw. apply good_delete; [done..| |].
  - apply wf_delete; [apply Hs| |by apply children_nil]. rewrite Hp. unfold objects_path.
    intros [[_ ?]%app_eq_nil _]%app_eq_nil. done.
  - rewrite Hw. eapply mc_dir; eauto.
Qed.

(** A file the thread may remove. *)
Definition removable (σ : local) (q : apath) : Prop := ∀ data s, may_change σ q (Some (NFile data s)) None.

Lemma removable_tmp σ u : u ∈ drawn σ → removable σ (tmp_file u).
Proof. intros Hu data s. by eapply mc_tmp. Qed.

Lemma removable_file σ b k md n : (BucketLock b, md) ∈ held σ → (KeyLock b k, Exclusive) ∈ held σ → utf8 k →
  object_file n → removable σ (object_path b k ++ [n]).
Proof. intros. intros data s. by eapply mc_file. Qed.

Lemma good_remove σ l q d data s : sound d → facts l (vol d) → q ∉ l.*1 → removable σ q →
  vol d !! q = Some (NFile data s) → good σ l d (set_vol (delete q) d).
Proof.
  intros Hs Hf Hq Hr Hx. apply good_delete; [done..| |by rewrite Hx]. apply wf_delete_file; [apply Hs|congruence].
Qed.

Lemma safe_remove_file σ l p : removable σ (resolve p) → resolve p ∉ l.*1 → safe σ l (remove_file p).
Proof.
  intros Hr Hl. apply every_atomic. intros d Hs Hf. split; [|intros _; by apply good_same]. cbn.
  destruct (walk (vol d) (resolve p)) as [[|]|] eqn:Hw; [by apply good_same| |by apply good_same].
  apply walk_Ok in Hw. by eapply good_remove.
Qed.

(** ** Staged files *)

(** A staged file of the thread, that is not among the known entries. *)
Record staged_as (σ : local) (l : list (apath * option node)) (st : StagedFile) (u : str) : Prop := {
  sa_path : resolve (path st) = tmp_file u;
  sa_drawn : u ∈ drawn σ;
  sa_new : tmp_file u ∉ l.*1;
}.

Lemma tmp_file_new σ l u : mine σ l → u ∉ drawn σ → tmp_file u ∉ l.*1.
Proof.
  intros Hm Hu ([q x] & Hq & Hin)%list_elem_of_fmap. unfold mine in Hm. rewrite Forall_forall in Hm.
  specialize (Hm (q, x) Hin). cbn in *. subst q.
  destruct Hm as [u' Hu' Heq|b md _ Heq|b r _ Heq|b k md n _ _ _ _ Heq].
  - apply tmp_file_inj in Heq as ->. done.
  - rewrite <- (app_nil_r (bucket_path b)) in Heq. by apply tmp_file_bucket in Heq.
  - by apply tmp_file_bucket in Heq.
  - rewrite object_file_in_bucket in Heq. by apply tmp_file_bucket in Heq.
Qed.

Lemma tmp_file_resolve u : plain_name (u ++ b#".tmp") →
  resolve (push (FsEngine.tmp_dir engine) (u ++ b#".tmp")) = tmp_file u.
Proof.
  intros Hu. rewrite tmp_dir_names, push_names, resolve_names by done. unfold tmp_file, tmp_path. by rewrite <- app_assoc.
Qed.

Lemma rwp_create l Q σ L d :
  mine σ l → sound d → facts l (vol d) →
  (∀ st u d', grown σ (draw u σ) → staged_as (draw u σ) l st u → committed st = false → sound d' →
     facts ((tmp_file u, Some (NFile [] false)) :: l) (vol d') → Q (Ok st) (draw u σ) L d') →
  (∀ e σ' d', grown σ σ' → sound d' → facts l (vol d') → Q (Err e) σ' L d') →
  store_rwp (create (FsEngine.tmp_dir engine)) Q σ L d.
Proof.
  intros Hm Hs Hf HO HE. unfold create. apply rwp_bind. cbn [rwp new_uuid]. intros d1 Hr1 Hs1 u [Hpl Hlen] Hu.
  pose proof (rely_facts _ _ _ _ Hm Hr1 Hf) as Hf1. pose proof (tmp_file_new σ l u Hm Hu) as Hnew.
  pose proof (grown_draw u σ) as Hg. cbn zeta. apply rwp_bind, rwp_syscall. intros d2 Hr2 Hs2.
  pose proof (rely_facts _ _ _ _ (grown_mine _ _ _ Hg Hm) Hr2 Hf1) as Hf2.
  split; [|intros e n _ _; split_and!; [done|by apply allowed_refl|by apply HE]].
  intros r d3. cbn zeta. rewrite tmp_file_resolve by done.
  destruct (walk_new (vol d2) (tmp_file u)) as [[]|e] eqn:Hw.
  2: { intros [= <- <-]. split_and!; [done|by apply allowed_refl|by apply HE]. }
  destruct (vol d2 !! tmp_file u) as [x|] eqn:Hx; intros [= <- <-].
  { split_and!; [done|by apply allowed_refl|by apply HE]. }
  destruct (good_insert (draw u σ) l (tmp_file u) (NFile [] false) d2) as [? ? ?]; [done|done|done| | |].
  - destruct (walk_new_Ok _ _ Hw) as (a & n & Ha & Hdir & Hn). rewrite Ha.
    apply wf_insert; [apply Hs2|done|done|]. rewrite <- Ha. right. congruence.
  - rewrite Hx. by eapply mc_tmp; [left|..].
  - split_and!; [done..|]. apply HO; [done| |done|done|].
    + split; [by apply tmp_file_resolve|by left|done].
    + constructor; [apply lookup_insert_eq|done].
Qed.

(** One call, with what is known before it. *)
Lemma rwp_call {A} (op : disk → result A io_error * disk) part l Q σ L d :
  mine σ l → facts l (vol d) →
  (∀ d', sound d' → facts l (vol d') →
     (∀ r d2, op d' = (r, d2) → good σ [] d' d2 ∧ Q r σ L d2)
     ∧ ∀ e n, environmental (kind e) → good σ [] d' (part n d') ∧ Q (Err e) σ L (part n d')) →
  store_rwp (syscall op part) Q σ L d.
Proof.
  intros Hm Hf Hop. apply rwp_syscall. intros d' Hr Hs. destruct (Hop d' Hs (rely_facts _ _ _ _ Hm Hr Hf)) as [Ho Hp].
  split.
  - intros r d2 Heq. by destruct (Ho r d2 Heq) as [[? ? _] ?].
  - intros e n He _. by destruct (Hp e n He) as [[? ? _] ?].
Qed.

(** A call that leaves the disk alone. *)
Lemma rwp_look {A} (op : disk → result A io_error * disk) l Q σ L d :
  (∀ d, (op d).2 = d) → mine σ l → facts l (vol d) →
  (∀ d', sound d' → facts l (vol d') → Q (op d').1 σ L d' ∧ ∀ e, environmental (kind e) → Q (Err e) σ L d') →
  store_rwp (atomic op) Q σ L d.
Proof.
  intros Hq Hm Hf HQ. apply (rwp_call _ _ l); [done..|]. intros d' Hs Hf'. destruct (HQ d' Hs Hf') as [HO HE]. split.
  - intros r d2 Heq. pose proof (Hq d') as Hd. rewrite Heq in *. cbn in *. subst. split; [|done].
    by apply good_same; [|constructor|].
  - intros e n He. split; [|by apply HE]. by apply good_same; [|constructor|].
Qed.

Lemma good_set_tmp σ l u d data s data' s' :
  u ∈ drawn σ → sound d → facts l (vol d) → tmp_file u ∉ l.*1 → vol d !! tmp_file u = Some (NFile data s) →
  good σ l d (set_vol <[tmp_file u := NFile data' s']> d).
Proof.
  intros Hu Hs Hf Hl Hx. apply good_insert; [done..| |].
  - eapply wf_set_file; [apply Hs|exact Hx].
  - rewrite Hx. by eapply mc_tmp.
Qed.

Lemma good_nil σ l d d' : good σ l d d' → good σ [] d d'.
Proof. intros [? ? _]. by split; [..|constructor]. Qed.

Lemma rwp_write_all st u data s buf l Q σ L d :
  mine σ l → staged_as σ l st u → facts ((tmp_file u, Some (NFile data s)) :: l) (vol d) →
  (∀ r d', sound d' → (∃ data', (r = Ok () → data' = data ++ buf)
                       ∧ facts ((tmp_file u, Some (NFile data' false)) :: l) (vol d')) → Q r σ L d') →
  store_rwp (write_all st buf) Q σ L d.
Proof.
  intros Hm [Hp Hu Hnew] Hf HQ.
  apply (rwp_call _ _ ((tmp_file u, Some (NFile data s)) :: l)); [by constructor; [eapply own_tmp|]|done|].
  intros d' Hs Hf'. pose proof (Forall_inv Hf') as Hx. cbn in Hx. pose proof (Forall_inv_tail Hf') as Hl. rewrite Hp.
  assert (∀ extra, good σ l d' (append_bytes (tmp_file u) extra d')
    ∧ facts ((tmp_file u, Some (NFile (data ++ extra) false)) :: l) (vol (append_bytes (tmp_file u) extra d'))) as Happ.
  { intros extra. unfold append_bytes. rewrite Hx.
    pose proof (good_set_tmp σ l u d' data s (data ++ extra) false Hu Hs Hl Hnew Hx) as Hg. split; [done|].
    constructor; [apply lookup_insert_eq|apply Hg]. }
  split.
  - intros r d2 [= <- <-]. destruct (Happ buf) as [Hg Hfa]. split; [by eapply good_nil|].
    apply HQ; [apply Hg|]. by exists (data ++ buf).
  - intros e n _. destruct (Happ (take n buf)) as [Hg Hfa]. split; [by eapply good_nil|].
    apply HQ; [apply Hg|]. by exists (data ++ take n buf).
Qed.

Lemma rwp_sync_file st u data s l Q σ L d :
  mine σ l → staged_as σ l st u → facts ((tmp_file u, Some (NFile data s)) :: l) (vol d) →
  (∀ d', sound d' → facts ((tmp_file u, Some (NFile data true)) :: l) (vol d') → Q (Ok ()) σ L d') →
  (∀ e d', sound d' → facts ((tmp_file u, Some (NFile data s)) :: l) (vol d') → Q (Err e) σ L d') →
  store_rwp (sync_file (path st)) Q σ L d.
Proof.
  intros Hm [Hp Hu Hnew] Hf HO HE.
  apply (rwp_call _ _ ((tmp_file u, Some (NFile data s)) :: l)); [by constructor; [eapply own_tmp|]|done|].
  intros d' Hs Hf'. pose proof (Forall_inv Hf') as Hx. cbn in Hx. pose proof (Forall_inv_tail Hf') as Hl. rewrite Hp, Hx. split.
  - intros r d2 [= <- <-]. pose proof (good_set_tmp σ l u d' data s data true Hu Hs Hl Hnew Hx) as Hg.
    split; [by eapply good_nil|]. apply HO; [apply Hg|]. constructor; [apply lookup_insert_eq|apply Hg].
  - intros e n _. split; [by apply good_same; [|constructor|]|by apply HE].
Qed.

(** A file the thread may put [data] in. *)
Definition writable (σ : local) (q : apath) (data : str) : Prop :=
  ∀ x s, x ≠ Some NDir → may_change σ q x (Some (NFile data s)).

Lemma good_rename σ l u q data s d a n :
  u ∈ drawn σ → sound d → facts l (vol d) → tmp_file u ∉ l.*1 → q ∉ l.*1 → writable σ q data →
  vol d !! tmp_file u = Some (NFile data s) → q = a ++ [n] → vol d !! a = Some NDir → nameable (a ++ [n]) →
  vol d !! q ≠ Some NDir → tmp_file u ≠ q →
  good σ l d (set_vol (λ m, <[q := NFile data s]> (delete (tmp_file u) m)) d).
Proof.
  intros Hu Hs Hf Hl Hlq Hw Hx Hq Ha Hn Hnd Hne.
  assert (allowed σ d (set_vol (λ m, <[q := NFile data s]> (delete (tmp_file u) m)) d)) as Hal.
  { intros p. cbn. destruct (decide (q = p)) as [<-|Hp].
    - right. rewrite lookup_insert_eq. by apply Hw.
    - rewrite lookup_insert_ne by done. destruct (decide (tmp_file u = p)) as [<-|Hp'].
      + right. rewrite lookup_delete_eq, Hx. by eapply mc_tmp.
      + left. by apply lookup_delete_ne. }
  split; [|done|by apply facts_insert, facts_delete].
  eapply allowed_sound; [done| |exact Hal]. cbn. rewrite Hq. apply wf_insert.
  - apply wf_delete_file; [apply Hs|congruence].
  - rewrite lookup_delete_ne; [done|]. intros Heq. rewrite Heq in Hx. congruence.
  - done.
  - right. rewrite <- Hq. by rewrite lookup_delete_ne.
Qed.

Lemma rwp_rename st u data s dest q x l Q σ L d :
  mine σ ((q, x) :: l) → staged_as σ ((q, x) :: l) st u → resolve dest = q → q ∉ l.*1 → writable σ q data →
  facts ((tmp_file u, Some (NFile data s)) :: (q, x) :: l) (vol d) →
  (∀ d', sound d' → facts ((q, Some (NFile data s)) :: l) (vol d') → Q (Ok ()) σ L d') →
  (∀ e d', sound d' → facts ((tmp_file u, Some (NFile data s)) :: (q, x) :: l) (vol d') → Q (Err e) σ L d') →
  store_rwp (rename (path st) dest) Q σ L d.
Proof.
  intros Hm [Hp Hu Hnew] Hq Hlq Hw Hf HO HE. rewrite fmap_cons, not_elem_of_cons in Hnew. destruct Hnew as [Hne Hnew].
  apply (rwp_call _ _ ((tmp_file u, Some (NFile data s)) :: (q, x) :: l)); [by constructor; [eapply own_tmp|]|done|].
  intros d' Hs Hf'. pose proof (Forall_inv Hf') as Hx. cbn in Hx.
  pose proof (Forall_inv_tail (Forall_inv_tail Hf')) as Hl.
  assert (∀ e, good σ [] d' d' ∧ Q (Err e) σ L d') as Herr.
  { intros e. split; [by apply good_same; [|constructor|]|by apply HE]. }
  split; [|intros e n _; apply Herr]. intros r d2. cbn zeta. rewrite Hp, Hq.
  rewrite (walk_complete _ _ (NFile data s)) by (done || apply Hs).
  destruct (walk_new (vol d') q) as [[]|e] eqn:Hwn; [|intros [= <- <-]; apply Herr].
  destruct (walk_new_Ok _ _ Hwn) as (a & n & Ha & Hdir & Hn).
  assert (vol d' !! q ≠ Some NDir → (Ok (), set_vol (λ m, <[q := NFile data s]> (delete (tmp_file u) m)) d') = (r, d2) →
    good σ [] d' d2 ∧ Q r σ L d2) as Hok.
  { intros Hnd [= <- <-]. pose proof (good_rename σ l u q data s d' a n Hu Hs Hl Hnew Hlq Hw Hx Ha Hdir Hn Hnd Hne) as Hg.
    split; [by eapply good_nil|]. apply HO; [apply Hg|]. constructor; [apply lookup_insert_eq|apply Hg]. }
  destruct (vol d' !! q) as [[|data' s']|] eqn:Hvq; [intros [= <- <-]; apply Herr|by apply Hok..].
Qed.

Lemma grown_staged σ σ' l st u : grown σ σ' → staged_as σ l st u → staged_as σ' l st u.
Proof. intros Hg [? ? ?]. split; [done|by apply Hg|done]. Qed.

Lemma grown_may_change σ σ' q x x' : grown σ σ' → may_change σ q x x' → may_change σ' q x x'.
Proof.
  intros [Hh Hd] Hc. destruct Hc; [eapply mc_tmp|eapply mc_file|eapply mc_dir|eapply mc_bucket]; rewrite ?Hh; eauto.
Qed.

Lemma grown_writable σ σ' q data : grown σ σ' → writable σ q data → writable σ' q data.
Proof. intros Hg Hw x s Hx. eapply grown_may_change; [done|by apply Hw]. Qed.

Lemma grown_dir_ok σ σ' l q : grown σ σ' → dir_ok σ l q → dir_ok σ' l q.
Proof.
  intros Hg [?|[(? & b & md & r & ? & ?)|(? & b & ?)]]; [by left|right; left|right; right]; (split; [done|]);
    [exists b, md, r|exists b]; by rewrite (gn_held _ _ Hg).
Qed.

Lemma staged_tail σ l qx st u : staged_as σ (qx :: l) st u → staged_as σ l st u.
Proof. intros [? ? Hn]. split; [done..|]. rewrite fmap_cons, not_elem_of_cons in Hn. apply Hn. Qed.

Lemma safe_drop_staged {F} σ l st u : staged_as σ l st u → safe σ l (drop_staged (F:=F) st).
Proof.
  intros [Hp Hu Hn]. unfold drop_staged. destruct (committed st); [done|].
  apply every_bind; [|done]. apply every_attempt, safe_remove_file; rewrite Hp; [by apply removable_tmp|done].
Qed.

(** Dropping the staged file on the way out. *)
Lemma rwp_drop_throw {X A} st u (err : X) l (Q : result A X → _ → _ → _ → Prop) σ L d :
  mine σ l → staged_as σ l st u → sound d → facts l (vol d) →
  (∀ e σ' d', grown σ σ' → sound d' → facts l (vol d') → Q (Err e) σ' L d') →
  store_rwp (drop_staged st;;; throw err) Q σ L d.
Proof.
  intros Hm Hst Hs Hf HQ. apply rwp_bind. eapply (rwp_safe _ σ l); [by eapply safe_drop_staged|done..|].
  intros [[]|e'] σ' d' Hg Hs' Hf'; by apply HQ.
Qed.

Lemma rwp_or_drop {X A} st u (m : M X A) l (Q : result A X → _ → _ → _ → Prop) σ L d :
  staged_as σ l st u → mine σ l →
  store_rwp m (λ r σ' L' d', match r with
    | Ok a => Q (Ok a) σ' L' d'
    | Err e => grown σ σ' ∧ L' = L ∧ sound d' ∧ facts l (vol d')
    end) σ L d →
  (∀ e σ' d', grown σ σ' → sound d' → facts l (vol d') → Q (Err e) σ' L d') →
  store_rwp (or_drop st m) Q σ L d.
Proof.
  intros Hst Hmine Hm HQ. unfold or_drop. apply rwp_bind, rwp_attempt. eapply rwp_mono; [exact Hm|].
  intros [a|e] σ' L' d'; [done|]. intros (Hg & -> & Hs & Hf).
  eapply rwp_drop_throw; [by eapply grown_mine|by eapply grown_staged|done|done|].
  intros e' σ2 d2 Hg2. apply HQ. by etrans.
Qed.

Section commit.
Context (hd : PathBuf) (ns : list str) (n : str) (st : StagedFile) (u data : str) (x : option node).
Context (l : list (apath * option node)).
Context (Hhd : head_path hd).
Let q : apath := resolve hd ++ ns ++ [n].
Let dest : PathBuf := hd ++ (Normal <$> (ns ++ [n])).

(** The way to the file is free. *)
Definition way_free (σ : local) : Prop :=
  ∀ s ns', ns' `prefix_of` ns → dir_ok σ ((tmp_file u, Some (NFile data s)) :: (q, x) :: l) (resolve hd ++ ns').

Lemma rwp_publish s (Q : result (list PathBuf) io_error → _ → _ → _ → Prop) σ L d :
  mine σ ((q, x) :: l) → staged_as σ ((q, x) :: l) st u → q ∉ l.*1 → writable σ q data → way_free σ →
  sound d → facts ((tmp_file u, Some (NFile data s)) :: (q, x) :: l) (vol d) →
  (∀ dirs σ' d', grown σ σ' → sound d' → facts ((q, Some (NFile data true)) :: l) (vol d') → Q (Ok dirs) σ' L d') →
  (∀ e σ' d', grown σ σ' → sound d' → facts l (vol d') → Q (Err e) σ' L d') →
  store_rwp (publish st dest) Q σ L d.
Proof.
  intros Hm Hst Hq Hw Hway Hs Hf HO HE. unfold publish.
  assert (∀ s' σ' d' e, grown σ σ' → sound d' → facts ((tmp_file u, Some (NFile data s')) :: (q, x) :: l) (vol d') →
    Q (Err e) σ' L d') as Herr.
  { intros s' σ' d' e Hg Hs' Hf'. apply HE; [done..|]. exact (Forall_inv_tail (Forall_inv_tail Hf')). }
  assert (∀ s' σ', grown σ σ' → mine σ' ((tmp_file u, Some (NFile data s')) :: (q, x) :: l)) as Hmine.
  { intros s' σ' Hg. constructor; [eapply own_tmp; [by apply Hg, Hst|done]|by eapply grown_mine]. }
  apply rwp_bind. eapply (rwp_safe _ σ _); [apply safe_flush|by apply Hmine|done|exact Hf|].
  intros [[]|e] σ1 d1 Hg1 Hs1 Hf1; [|by eapply Herr]. apply rwp_bind.
  apply (rwp_sync_file st u data s ((q, x) :: l)); [by eapply grown_mine|by eapply grown_staged|done| |].
  2: { intros e d2 Hs2 Hf2. by eapply Herr. }
  intros d2 Hs2 Hf2. cbn zeta. apply rwp_bind.
  eapply (rwp_safe _ σ1 _); [apply safe_dirs_to_sync|by apply Hmine|done|exact Hf2|].
  intros [dirs|e] σ3 d3 Hg3 Hs3 Hf3; [|eapply Herr; [|done..]; by etrans].
  assert (grown σ σ3) as Hg03 by (by etrans). apply rwp_bind.
  destruct (parent_dir_spec hd ns n Hhd) as (hd' & Hhd' & Hres & Hpar). fold dest in Hpar. rewrite Hpar.
  eapply (rwp_safe _ σ3 ((tmp_file u, Some (NFile data true)) :: (q, x) :: l)); [|by apply Hmine|done|exact Hf3|].
  { apply safe_create_dir_all; [done|]. intros ns' Hns. rewrite Hres. eapply grown_dir_ok; [exact Hg03|by apply Hway]. }
  intros [[]|e] σ4 d4 Hg4 Hs4 Hf4; [|eapply Herr; [|done..]; by etrans].
  assert (grown σ σ4) as Hg04 by (by etrans). apply rwp_bind.
  apply (rwp_rename st u data true dest q x l); [by eapply grown_mine|by eapply grown_staged| |done|by eapply grown_writable|done| |].
  - unfold dest, q. by rewrite resolve_normals.
  - intros d5 Hs5 Hf5. by apply HO.
  - intros e d5 Hs5 Hf5. by eapply Herr.
Qed.

Lemma rwp_commit s (Q : result unit io_error → _ → _ → _ → Prop) σ L d :
  mine σ ((q, x) :: l) → staged_as σ ((q, x) :: l) st u → q ∉ l.*1 → writable σ q data → way_free σ → owned σ q →
  sound d → facts ((tmp_file u, Some (NFile data s)) :: (q, x) :: l) (vol d) →
  (∀ σ' d', grown σ σ' → sound d' → facts ((q, Some (NFile data true)) :: l) (vol d') → Q (Ok ()) σ' L d') →
  (∀ e σ' d', grown σ σ' → sound d' → facts l (vol d') → Q (Err e) σ' L d') →
  store_rwp (commit st dest) Q σ L d.
Proof.
  intros Hm Hst Hq Hw Hway Ho Hs Hf HO HE. unfold commit. apply rwp_bind.
  pose proof (Forall_inv_tail Hm) as Hml. eapply (rwp_or_drop st u _ l); [by eapply staged_tail|done| |done].
  eapply (rwp_publish s); [done..| |by intros; split_and!]. cbn beta iota.
  intros dirs σ1 d1 Hg1 Hs1 Hf1. unfold or_drop. apply rwp_bind, rwp_attempt.
  eapply (rwp_safe _ σ1 ((q, Some (NFile data true)) :: l)); [apply safe_sync_dirs| |done|done|].
  { constructor; [by eapply grown_owned|by eapply grown_mine]. }
  intros [[]|e] σ2 d2 Hg2 Hs2 Hf2; cbn beta iota.
  - apply HO; [by etrans|done|done].
  - cbn [drop_staged committed]. apply HE; [by etrans|done|]. exact (Forall_inv_tail Hf2).
Qed.
End commit.

Lemma rwp_write_json hd ns n (value : result str BoxedError) x l (Q : result unit io_error → _ → _ → _ → Prop) σ L d :
  let q := resolve hd ++ ns ++ [n] in
  head_path hd → mine σ ((q, x) :: l) → q ∉ l.*1 → (∀ bytes, value = Ok bytes → writable σ q bytes) →
  (∀ u bytes, way_free hd ns n u bytes x l (draw u σ)) → owned σ q →
  sound d → facts ((q, x) :: l) (vol d) →
  (∀ bytes σ' d', value = Ok bytes → grown σ σ' → sound d' → facts ((q, Some (NFile bytes true)) :: l) (vol d') →
     Q (Ok ()) σ' L d') →
  (∀ e σ' d', grown σ σ' → sound d' → facts l (vol d') → Q (Err e) σ' L d') →
  store_rwp (write_json_atomic (FsEngine.tmp_dir engine) (hd ++ (Normal <$> (ns ++ [n]))) value) Q σ L d.
Proof.
  intros q Hhd Hm Hq Hw Hway Ho Hs Hf HO HE. pose proof (Forall_inv_tail Hm) as Hml. unfold write_json_atomic.
  apply rwp_bind. destruct value as [bytes|err]; cbn [map_err lift rwp]; [|by apply HE; [|..|exact (Forall_inv_tail Hf)]].
  apply rwp_bind, (rwp_create ((q, x) :: l)); [done..| |].
  2: { intros e σ' d' Hg Hs' Hf'. apply HE; [done..|exact (Forall_inv_tail Hf')]. }
  intros st u d1 Hg Hst Hc Hs1 Hf1. apply rwp_bind.
  eapply (rwp_or_drop st u _ l); [by eapply staged_tail|by eapply grown_mine| |].
  - apply (rwp_write_all st u [] false bytes ((q, x) :: l)); [by eapply grown_mine|done|done|].
    intros [[]|e] d2 Hs2 (data' & Hdata & Hf2); cbn beta iota.
    + rewrite (Hdata eq_refl) in Hf2. cbn [app] in Hf2.
      apply (rwp_commit hd ns n st u bytes x l Hhd false); [by eapply grown_mine|done|done| | |by eapply grown_owned|done|done| |].
      * eapply grown_writable; [done|by apply Hw].
      * apply Hway.
      * intros σ' d' Hg' Hs' Hf'. eapply HO; [done|by etrans|done|done].
      * intros e σ' d' Hg'. apply HE. by etrans.
    + split_and!; [done|done|done|]. exact (Forall_inv_tail (Forall_inv_tail Hf2)).
  - intros e σ' d' Hg' Hs' Hf'. apply HE; [by etrans|done|done].
Qed.
End protocol.

Abbreviation store_rely := (rely sound allowed).
Abbreviation store_rwp := (rwp sound allowed).
Abbreviation safe σ l := (every (call_ok σ l) (λ _ _, False)).
