(* ===== verification/ConcPut.v ===== *)
(** * The writes of one key, among other requests

    [put_object] and [delete_object] keep the protocol in every interleaving, and
    at the moment they let go of the key's lock the object is what they report:
    what was put, or gone. *)

From S2P Require Import Prelude RustStr RustPath Paths Checksum EngineError Fs FsFacts Atomic Meta Layer Walk FsBase Listing FsEngine Tidy FsObject FsDelete FsList FsBuckets FsOpen ReadOnly Store Refine Locks Conc Rely ConcStore.

Section writes.
Context {E : Env} {D : DataDir} `{!EnvOk E}.
Context {HS : HashCrates} {MD : Md5Crate} {RD : Reads}.
Context `{!Serde VersionManifest, !Serde BucketMeta, !Serde DiskFormat}.
Context `{!HashCratesLaws HS, !Md5Laws MD, !SerdeLaws VersionManifest valid_manifest}.

(** ** Finding the bucket *)

Lemma rwp_existing_bucket_dir b l Q σ L d :
  mine σ l → facts l (vol d) → sound d →
  (∀ d', is_valid_bucket_name b = true → sound d' → facts l (vol d') → bucket_at (vol d') b →
     Q (Ok (FsEngine.bucket_dir engine b)) σ L d') →
  (∀ e d', sound d' → facts l (vol d') → Q (Err e) σ L d') →
  store_rwp (FsEngine.existing_bucket_dir engine b) Q σ L d.
Proof.
  intros Hm Hf Hs HO HE. unfold FsEngine.existing_bucket_dir, FsEngine.checked_bucket_dir. apply rwp_bind.
  destruct (is_valid_bucket_name b) eqn:Hb; cbn [lift rwp]; [|by apply HE]. apply rwp_bind, rwp_attempt.
  apply (rwp_look _ l); [done..|]. intros d' Hs' Hf'. split.
  - cbn [fst]. destruct (walk (vol d') (resolve (FsEngine.bucket_dir engine b))) as [[|]|err] eqn:Hw.
    + cbn. apply HO; [done..|]. apply walk_Ok in Hw. by rewrite bucket_dir_resolve in Hw.
    + by apply HE.
    + case_bool_decide; by apply HE.
  - intros err _. case_bool_decide; by apply HE.
Qed.

(** ** Staging the body *)

Lemma rwp_stage_body st u body up data0 s Q σ L d :
  staged_as σ [] st u → sound d → u64 (FsEngine.up_size up) →
  facts [(tmp_file u, Some (NFile data0 s))] (vol d) →
  (∀ data s' d', collect body = Ok data → sound d' → facts [(tmp_file u, Some (NFile (data0 ++ data) s'))] (vol d') →
     Q (Ok (upload_of up data)) σ L d') →
  (∀ e d', sound d' → Q (Err e) σ L d') →
  store_rwp (FsEngine.stage_body st body up) Q σ L d.
Proof.
  intros Hst. revert up data0 s d Q.
  induction body as [|[chunk|err] body IH]; intros up data0 s d Q Hs Hu Hf HO HE; cbn [FsEngine.stage_body].
  - cbn [rwp ret]. rewrite <- (upload_of_nil up Hu). apply (HO [] s); [done|done|]. by rewrite app_nil_r.
  - apply rwp_bind, rwp_mapE. apply (rwp_write_all st u data0 s chunk []); [constructor|done|done|].
    intros [[]|e] d' Hs' (data' & Hd & Hf'); cbn [map_err]; [|by apply HE].
    rewrite (Hd eq_refl) in Hf'. eapply (IH _ (data0 ++ chunk) false); [done|apply hash_chunk_u64|done| |done].
    intros data s' d2 Hc Hs2 Hf2. rewrite upload_of_app. apply (HO (chunk ++ data) s'); [|done|by rewrite app_assoc].
    cbn [collect]. by rewrite Hc.
  - by apply HE.
Qed.

(** ** The way to an object *)

Lemma object_dir_ok σ l b md k ns' :
  (BucketLock b, md) ∈ held σ → utf8 k → (bucket_path b, Some NDir) ∈ l →
  (∀ r, Forall canonical r → objects_path b ++ r ∉ l.*1) →
  ns' `prefix_of` dd_names ++ [BUCKETS_DIR; b; OBJECTS_DIR] ++ key_names k → dir_ok σ l (resolve dd_head ++ ns').
Proof.
  intros Hb Hk Hin Hl Hp.
  assert (resolve dd_head ++ ns' `prefix_of` object_path b k) as Hpre.
  { rewrite <- object_path_resolve. by apply prefix_app. }
  destruct (decide (objects_path b `prefix_of` resolve dd_head ++ ns')) as [[r Hr]|Hn].
  - right. left. assert (Forall canonical r) as Hc.
    { destruct Hpre as [t Ht]. rewrite Hr in Ht. unfold object_path in Ht. rewrite <- app_assoc in Ht.
      apply app_inv_head in Ht. pose proof (key_names_canonical k Hk) as Hc. rewrite Ht in Hc. by apply Forall_app in Hc as [? _]. }
    split; [rewrite Hr; by apply Hl|]. exists b, md, r. done.
  - left. intros d Hs Hf. unfold facts in Hf. rewrite Forall_forall in Hf. specialize (Hf _ Hin). cbn in Hf.
    assert (resolve dd_head ++ ns' `prefix_of` objects_path b) as Hp'.
    { destruct (prefix_weak_total (resolve dd_head ++ ns') (objects_path b) (object_path b k)) as [?|?];
        [done|unfold object_path; by apply prefix_app_r|done|done]. }
    unfold objects_path in Hp'. apply prefix_snoc in Hp' as [Heq|Hp']; [destruct Hn; by rewrite Heq|].
    eapply wf_prefix_some; [apply Hs|exact Hp'|by eexists].
Qed.

Lemma object_file_path b k n :
  resolve dd_head ++ (dd_names ++ [BUCKETS_DIR; b; OBJECTS_DIR] ++ key_names k) ++ [n] = object_path b k ++ [n].
Proof. by rewrite app_assoc, object_path_resolve. Qed.

(** What a write of a key knows: the bucket is there, and one file of the key. *)
Definition known (b k n : str) (y : option node) : list (apath * option node) :=
  [(bucket_path b, Some NDir); (object_path b k ++ [n], y)].

Lemma known_no_dirs b k n y r : object_file n → Forall canonical r → objects_path b ++ r ∉ (known b k n y).*1.
Proof.
  intros Hn Hr. cbn. rewrite !not_elem_of_cons. split_and!; [| |apply not_elem_of_nil].
  - rewrite objects_in_bucket. intros Heq. rewrite <- (app_nil_r (bucket_path b)) in Heq at 2.
    by apply bucket_path_inj in Heq as [_ ?].
  - unfold object_path. rewrite <- app_assoc. intros [_ ->]%objects_path_inj.
    apply Forall_app in Hr as [_ Hr]. rewrite Forall_singleton in Hr. apply canonical_not_reserved in Hr.
    apply object_file_reserved in Hn. congruence.
Qed.

Lemma object_way_free σ b md k n n' u data x y :
  (BucketLock b, md) ∈ held σ → utf8 k → object_file n → object_file n' →
  way_free dd_head (dd_names ++ [BUCKETS_DIR; b; OBJECTS_DIR] ++ key_names k) n u data x (known b k n' y) σ.
Proof.
  intros Hb Hk Hn Hn' s ns' Hp. eapply object_dir_ok; [done|done| | |exact Hp].
  - right. right. left.
  - intros r Hr. rewrite !fmap_cons, !not_elem_of_cons. split_and!; [| |by apply known_no_dirs]; cbn [fst].
    + rewrite objects_in_bucket. intros Heq. symmetry in Heq. by apply tmp_file_bucket in Heq.
    + rewrite object_file_path.
      pose proof (known_no_dirs b k n None r Hn Hr) as Hno. cbn in Hno. rewrite !not_elem_of_cons in Hno. apply Hno.
Qed.

(** ** Publishing *)

(** A thread that writes a key. *)
Record writer (σ : local) (b k : str) : Prop := {
  wr_bucket : (BucketLock b, Shared) ∈ held σ;
  wr_key : (KeyLock b k, Exclusive) ∈ held σ;
}.

Lemma grown_writer σ σ' b k : grown σ σ' → writer σ b k → writer σ' b k.
Proof. intros Hg [? ?]. split; by rewrite (gn_held _ _ Hg). Qed.

Lemma writer_owned σ b k n : writer σ b k → utf8 k → object_file n → owned σ (object_path b k ++ [n]).
Proof. intros [Hb Hk] H8 Hn. by eapply own_file_of. Qed.

Lemma writer_known σ b k n y : writer σ b k → utf8 k → object_file n → mine σ (known b k n y).
Proof.
  intros Hw H8 Hn. repeat constructor; cbn; [eapply own_bucket; [apply Hw|done]|by apply writer_owned].
Qed.

Lemma known_other b k n n' y : n ≠ n' → object_path b k ++ [n] ∉ (known b k n' y).*1.
Proof.
  intros Hn. cbn. rewrite !not_elem_of_cons. split_and!; [| |apply not_elem_of_nil].
  - rewrite object_file_in_bucket. intros Heq. rewrite <- (app_nil_r (bucket_path b)) in Heq at 2.
    by apply bucket_path_inj in Heq as [_ ?].
  - by intros [_ ?]%app_inj_tail.
Qed.

Lemma writer_writable σ b k n bytes : writer σ b k → utf8 k → object_file n →
  (n = META_FILE → is_Some (parse_manifest bytes)) → writable σ (object_path b k ++ [n]) bytes.
Proof.
  intros [Hb Hk] H8 Hn Hp x s Hx. eapply mc_file; [done..|]. intros Hm bytes' s' [= <- <-]. by apply Hp.
Qed.

Lemma meta_object_file : object_file META_FILE.
Proof. by left. Qed.
Lemma data_object_file : object_file (data_file_name NULL_VERSION_ID).
Proof. by right. Qed.
Hint Resolve meta_object_file data_object_file : core.

(** Reading the manifest leaves everything as it is; what comes back is a manifest
    that can be written again. *)
Lemma rwp_load_manifest p l Q σ L d :
  mine σ l → facts l (vol d) → sound d →
  (∀ m d', sound d' → facts l (vol d') →
     valid_manifest (default new_manifest m) → (format (default new_manifest m) <= MANIFEST_FORMAT)%N → Q (Ok m) σ L d') →
  (∀ e d', sound d' → facts l (vol d') → Q (Err e) σ L d') →
  store_rwp (load_manifest p) Q σ L d.
Proof.
  intros Hm Hf Hs HO HE. unfold load_manifest. apply rwp_bind, rwp_attempt.
  apply (rwp_look _ l); [intros d0; by repeat case_match|done..|]. intros d' Hs' Hf'.
  assert (∀ err, store_rwp (if bool_decide (kind err = KNotFound) then ret None else throw err) Q σ L d') as Herr.
  { intros err. case_bool_decide; [|by apply HE]. apply HO; [done..|apply new_manifest_valid|apply new_manifest_valid]. }
  split; [|intros err _; apply Herr].
  destruct (walk (vol d') (resolve p)) as [[|bytes s]|err]; cbn [fst]; [apply Herr| |apply Herr].
  apply rwp_bind. destruct (from_slice bytes) as [mf|err] eqn:Hp; cbn [map_err lift rwp]; [|by apply HE].
  destruct (MANIFEST_FORMAT <? format mf)%N eqn:Hlt; [by apply HE|].
  assert (parse_manifest bytes = Some mf) as Hpm by (unfold parse_manifest; by rewrite Hp, Hlt).
  apply parse_manifest_inv in Hpm as [? ?]. by apply HO.
Qed.

Lemma known_facts b k n y m : bucket_at m b → m !! (object_path b k ++ [n]) = y → facts (known b k n y) m.
Proof. intros Hb Hy. repeat constructor; cbn; done. Qed.

Lemma tmp_not_known u b k n n' x y : tmp_file u ∉ ((object_path b k ++ [n], x) :: known b k n' y).*1.
Proof.
  cbn. rewrite !not_elem_of_cons, !object_file_in_bucket.
  split_and!; [apply tmp_file_bucket| |apply tmp_file_bucket|apply not_elem_of_nil].
  intros Heq. rewrite <- (app_nil_r (bucket_path b)) in Heq. by apply tmp_file_bucket in Heq.
Qed.

Lemma object_file_plain n : object_file n → plain_name n.
Proof. intros [->| ->]; [apply meta_file_plain|apply data_file_name_plain]. Qed.

Lemma facts_publication q x b k n y m :
  facts ((q, x) :: known b k n y) m ↔ m !! q = x ∧ bucket_at m b ∧ m !! (object_path b k ++ [n]) = y.
Proof. unfold facts, known. rewrite !Forall_cons, Forall_nil. unfold bucket_at. cbn [fst snd]. naive_solver. Qed.

Section publication.
Context (b k n n' : str) (x y : option node).
Context (Hb : is_valid_bucket_name b = true) (H8 : utf8 k) (Hn : object_file n) (Hn' : object_file n') (Hne : n ≠ n').
Let file : PathBuf := push (FsEngine.object_dir (FsEngine.bucket_dir engine b) k) n.

Lemma writer_publication σ : writer σ b k → mine σ ((object_path b k ++ [n], x) :: known b k n' y).
Proof. intros Hw. constructor; [by apply writer_owned|by apply writer_known]. Qed.

Lemma rwp_commit_object st u data s (Q : result unit io_error → _ → _ → _ → Prop) σ L d :
  writer σ b k → (n = META_FILE → is_Some (parse_manifest data)) →
  resolve (path st) = tmp_file u → u ∈ drawn σ → sound d →
  facts ((tmp_file u, Some (NFile data s)) :: (object_path b k ++ [n], x) :: known b k n' y) (vol d) →
  (∀ σ' d', grown σ σ' → sound d' → facts ((object_path b k ++ [n], Some (NFile data true)) :: known b k n' y) (vol d') →
     Q (Ok ()) σ' L d') →
  (∀ e σ' d', grown σ σ' → sound d' → Q (Err e) σ' L d') →
  store_rwp (commit st file) Q σ L d.
Proof.
  intros Hw Hparse Hp Hu Hs Hf HO HE. unfold file. rewrite object_file_names by (done || by apply object_file_plain).
  eapply (rwp_commit dd_head (dd_names ++ [BUCKETS_DIR; b; OBJECTS_DIR] ++ key_names k) n st u data x (known b k n' y)
    dd_head_path s); rewrite ?object_file_path.
  - by apply writer_publication.
  - split; [done|done|apply tmp_not_known].
  - by apply known_other.
  - by apply writer_writable.
  - eapply object_way_free; [apply Hw|done..].
  - by apply writer_owned.
  - done.
  - exact Hf.
  - done.
  - intros e σ' d' Hg Hs' _. by apply HE.
Qed.

Lemma rwp_write_object (value : result str BoxedError) (Q : result unit io_error → _ → _ → _ → Prop) σ L d :
  writer σ b k → (∀ bytes, value = Ok bytes → n = META_FILE → is_Some (parse_manifest bytes)) →
  sound d → facts ((object_path b k ++ [n], x) :: known b k n' y) (vol d) →
  (∀ bytes σ' d', value = Ok bytes → grown σ σ' → sound d' →
     facts ((object_path b k ++ [n], Some (NFile bytes true)) :: known b k n' y) (vol d') → Q (Ok ()) σ' L d') →
  (∀ e σ' d', grown σ σ' → sound d' → Q (Err e) σ' L d') →
  store_rwp (write_json_atomic (FsEngine.tmp_dir engine) file value) Q σ L d.
Proof.
  intros Hw Hparse Hs Hf HO HE. unfold file. rewrite object_file_names by (done || by apply object_file_plain).
  apply (rwp_write_json dd_head (dd_names ++ [BUCKETS_DIR; b; OBJECTS_DIR] ++ key_names k) n value x (known b k n' y));
    rewrite ?object_file_path.
  - apply dd_head_path.
  - by apply writer_publication.
  - by apply known_other.
  - intros bytes Hv. apply writer_writable; eauto.
  - intros u bytes. eapply object_way_free; [apply Hw|done..].
  - by apply writer_owned.
  - done.
  - done.
  - done.
  - intros e σ' d' Hg Hs' _. by apply HE.
Qed.
End publication.

Lemma rwp_publish_object b k st u data s entry Q σ L d :
  is_valid_bucket_name b = true → utf8 k → valid_entry entry →
  version_id entry = NULL_VERSION_ID → delete_marker entry = false →
  writer σ b k → resolve (path st) = tmp_file u → u ∈ drawn σ → sound d → bucket_at (vol d) b →
  vol d !! tmp_file u = Some (NFile data s) →
  (∀ σ' d', grown σ σ' → sound d' → (∀ d'', store_rely σ' d' d'' → object_at (vol d'') b k = Some (entry, data)) →
     Q (Ok (object_info k entry)) σ' L d') →
  (∀ e σ' d', grown σ σ' → sound d' → Q (Err e) σ' L d') →
  store_rwp (FsEngine.publish_object engine (FsEngine.bucket_dir engine b) k st entry) Q σ L d.
Proof.
  intros Hb Hk Hve Hid Hdm Hw Hp Hu Hs Hbkt Hx HO HE. unfold FsEngine.publish_object. cbn zeta.
  assert (data_file_name NULL_VERSION_ID ≠ META_FILE) as Hne by by apply not_eq_sym, meta_not_data.
  set (dfile := data_file_name NULL_VERSION_ID) in *.
  assert (object_file dfile) as Hdf by by right. apply rwp_bind, rwp_mapE.
  eapply (rwp_commit_object b k dfile META_FILE (vol d !! (object_path b k ++ [dfile]))
    (vol d !! (object_path b k ++ [META_FILE]))); try done.
  3: { intros e σ1 d1 Hg1 Hs1. by apply HE. }
  { constructor; [exact Hx|]. constructor; [done|]. by apply known_facts. }
  intros σ1 d1 Hg1 Hs1 Hf1. cbn [map_err].
  pose proof (grown_writer _ _ _ _ Hg1 Hw) as Hw1. apply rwp_bind, rwp_mapE.
  eapply rwp_load_manifest; [|exact Hf1|done| |]; [by apply writer_publication| |].
  2: { intros e d2 Hs2 _. by apply HE. }
  intros m d2 Hs2 Hf2 Hvm Hfm. cbn [map_err]. apply rwp_bind, rwp_mapE.
  destruct (stored_manifest _ entry Hvm Hfm Hve) as (bytes & Hto & Hparse). unfold store_manifest. rewrite Hto.
  apply facts_publication in Hf2 as (Hdata & Hbk & Hmeta).
  eapply (rwp_write_object b k META_FILE dfile); try done.
  - intros bytes' [= <-] _. by rewrite Hparse.
  - constructor; [done|]. by apply known_facts.
  - intros bytes' σ3 d3 [= <-] Hg3 Hs3 Hf3. cbn [map_err]. apply HO; [by etrans|done|]. intros d4 Hr4.
    pose proof (grown_writer _ _ _ _ Hg3 Hw1) as Hw3.
    pose proof (rely_facts _ _ _ _ (writer_publication b k META_FILE dfile _ _ Hk ltac:(done) Hdf σ3 Hw3) Hr4 Hf3) as Hf4.
    apply facts_publication in Hf4 as (Hmeta4 & _ & Hdata4).
    apply records_object; [done|done| |apply file_at_Some; eauto].
    exists bytes, (upsert (default new_manifest m) entry). split_and!; [apply file_at_Some; eauto|done|done].
  - intros e σ3 d3 Hg3 Hs3. apply HE; [by etrans|done].
Qed.

(** ** [put_object] *)

(** What is reported is what the object was when the key's lock was let go. *)
Definition put_post (b k : str) (body : BoxByteStream) (opts : PutOpts) (info : ObjectInfo) (L : gmap lock disk) : Prop :=
  ∃ data ns d0, collect body = Ok data ∧ info = object_info k (entry_for opts data (epoch_ms ns))
    ∧ L !! KeyLock b k = Some d0 ∧ object_at (vol d0) b k = Some (entry_for opts data (epoch_ms ns), data).

Lemma rwp_put_object b k body opts d :
  utf8 k → opts_ok opts → sound d →
  store_rwp (FsEngine.put_object engine b k body opts)
    (λ r _ L _, ∀ info, r = Ok info → put_post b k body opts info L) nothing ∅ d.
Proof.
  intros Hk Hopts Hs. unfold FsEngine.put_object.
  apply rwp_bind, (rwp_existing_bucket_dir b []); [constructor|constructor|done| |done].
  intros d1 Hb Hs1 _ _. apply rwp_bind, rwp_mapE, (rwp_create []); [constructor|done|constructor| |done].
  intros st u d2 Hg2 Hst Hc Hs2 Hf2. cbn [map_err]. apply rwp_bind.
  eapply (rwp_or_drop st u _ []); [done|constructor| |done].
  apply (rwp_stage_body st u body (FsEngine.new_upload opts) [] false); [done|done|unfold u64, u64_MAX; cbn; lia|done| |].
  2: { intros e d3 Hs3. by split_and!; [..|constructor]. }
  intros data s d3 Hbody Hs3 Hf3. cbn [app] in Hf3. apply rwp_bind. unfold FsEngine.now_epoch_ms. apply rwp_bind.
  intros d4 Hr4 Hs4 ns. cbn [rwp ret].
  change (FsEngine.new_entry opts (upload_of (FsEngine.new_upload opts) data) (epoch_ms ns))
    with (entry_for opts data (epoch_ms ns)).
  set (entry := entry_for opts data (epoch_ms ns)). set (σ := draw u nothing) in *.
  set (tmp := [(tmp_file u, Some (NFile data s))]) in *.
  assert (mine σ tmp) as Hm by (repeat constructor; eapply own_tmp; [by left|done]).
  pose proof (rely_facts _ _ _ _ Hm Hr4 Hf3) as Hf4.
  apply rwp_bind, rwp_with_lock. intros d5 Hr5 Hs5. pose proof (rely_facts _ _ _ _ Hm Hr5 Hf4) as Hf5.
  apply rwp_with_lock. intros d6 Hr6 Hs6.
  assert (∀ l md, mine (take_lock l md σ) tmp) as Hm' by (intros l md; repeat constructor; eapply own_tmp; [by left|done]).
  pose proof (rely_facts _ _ _ _ (Hm' _ _) Hr6 Hf5) as Hf6.
  set (σ' := take_lock (KeyLock b k) Exclusive (take_lock (BucketLock b) Shared σ)).
  assert (mine σ' tmp) as Hm6 by (repeat constructor; eapply own_tmp; [by left|done]).
  assert (writer σ' b k) as Hw by (split; cbn; set_solver).
  assert (staged_as σ' [] st u) as Hst' by (split; [apply Hst|by left|apply not_elem_of_nil]).
  apply rwp_bind, rwp_attempt, (rwp_existing_bucket_dir b tmp); [done|done|done| |].
  - intros d7 _ Hs7 Hf7 Hbkt. pose proof (Forall_inv Hf7) as Hx. cbn in Hx. apply rwp_bind.
    eapply (rwp_publish_object b k st u data s entry);
      [done|done|by apply entry_for_valid|done|done|done|apply Hst|by left|done|done|exact Hx| |by intros].
    intros σ2 d8 Hg8 Hs8 Hobj. cbn. intros d9 Hr9 Hs9 d10 Hr10 Hs10 info [= <-]. exists data, ns, d9.
    split_and!; [done|done| |by apply Hobj]. by rewrite lookup_insert_ne, lookup_insert_eq.
  - intros err d7 Hs7 _. cbn. intros d8 Hr8 Hs8 d9 Hr9 Hs9.
    eapply (rwp_drop_throw st u err []); [constructor| |done|constructor|by intros].
    split; [apply Hst|by left|apply not_elem_of_nil].
Qed.

(** ** [delete_object] *)

Lemma rwp_remove_if_present p q x l Q σ L d :
  resolve p = q → removable σ q → q ∉ l.*1 → mine σ ((q, x) :: l) → sound d → facts ((q, x) :: l) (vol d) →
  (∀ d', sound d' → facts ((q, None) :: l) (vol d') → Q (Ok ()) σ L d') →
  (∀ e d', sound d' → facts l (vol d') → Q (Err e) σ L d') →
  store_rwp (FsEngine.remove_if_present p) Q σ L d.
Proof.
  intros Hq Hr Hl Hm Hs Hf HO HE. unfold FsEngine.remove_if_present. apply rwp_bind, rwp_attempt.
  apply (rwp_call _ _ ((q, x) :: l)); [done..|]. intros d' Hs' Hf'. pose proof (Forall_inv_tail Hf') as Hl'.
  assert (good σ [] d' d') as Hg by by apply good_same; [|constructor|]. rewrite Hq. split.
  - intros r d2. destruct (walk (vol d') q) as [[|data s]|err] eqn:Hw; intros [= <- <-].
    + split; [done|]. by apply HE.
    + apply walk_Ok in Hw. pose proof (good_remove σ l q d' data s Hs' Hl' Hl Hr Hw) as Hg'.
      split; [by eapply good_nil|]. apply HO; [apply Hg'|]. constructor; [apply lookup_delete_eq|apply Hg'].
    + split; [done|]. case_bool_decide; [|by apply HE]. apply HO; [done|]. constructor; [|done].
      eapply walk_Err; [apply Hs'|done].
  - intros e n He. split; [done|]. rewrite bool_decide_eq_false_2; [by apply HE|].
    by destruct He as [-> | ->].
Qed.

Lemma parent_names ns x : parent (names_of (ns ++ [x])) = Some (names_of ns).
Proof. unfold names_of. rewrite (app_assoc dd_names), fmap_app, app_assoc. apply parent_snoc. Qed.

Lemma safe_prune {F} σ l b md k r fuel :
  (BucketLock b, md) ∈ held σ → utf8 k → r `prefix_of` key_names k →
  (∀ r', r' `prefix_of` key_names k → objects_path b ++ r' ∉ l.*1) →
  safe σ l (FsEngine.prune_loop (F:=F) fuel (names_of ([BUCKETS_DIR; b; OBJECTS_DIR] ++ r))
              (names_of [BUCKETS_DIR; b; OBJECTS_DIR])).
Proof.
  intros Hb Hk Hr Hl. revert r Hr. induction fuel as [|fuel IH]; intros r Hr; cbn [FsEngine.prune_loop]; [done|].
  case_match eqn:Hc; [|done]. apply andb_true_iff in Hc as [Hne _].
  apply negb_true_iff, bool_decide_eq_false in Hne. destruct r as [|x r _] using rev_ind; [by rewrite app_nil_r in Hne|].
  assert (resolve (names_of ([BUCKETS_DIR; b; OBJECTS_DIR] ++ r ++ [x])) = objects_path b ++ r ++ [x]) as Hres.
  { rewrite resolve_names, objects_in_bucket, bucket_path_eq. by rewrite <- app_assoc. }
  apply every_bind.
  - apply every_attempt. eapply safe_remove_dir; [done| |done|rewrite Hres; by apply Hl].
    destruct Hr as [t Ht]. pose proof (key_names_canonical k Hk) as Hcan. rewrite Ht in Hcan. by apply Forall_app in Hcan as [? _].
  - intros [u|err]; [|done]. rewrite (app_assoc [BUCKETS_DIR; b; OBJECTS_DIR] r), parent_names. apply IH.
    etrans; [|exact Hr]. by apply prefix_app_r.
Qed.

(** The key has no manifest when its lock is let go. *)
Definition delete_post (b k : str) (L : gmap lock disk) : Prop :=
  ∃ d0, L !! KeyLock b k = Some d0 ∧ vol d0 !! meta_path b k = None.

Lemma object_gone m b k : m !! meta_path b k = None → object_at m b k = None.
Proof. intros Hm. unfold object_at, entry_at, file_at. by rewrite Hm. Qed.

Lemma rwp_remove_object b k Q σ L d :
  is_valid_bucket_name b = true → utf8 k → writer σ b k → sound d →
  (∀ r σ' d', grown σ σ' → sound d' → (∀ u, r = Ok u → ∀ d'', store_rely σ' d' d'' → vol d'' !! meta_path b k = None) → Q r σ' L d') →
  store_rwp (FsEngine.remove_object (FsEngine.bucket_dir engine b) k) Q σ L d.
Proof.
  intros Hb Hk Hw Hs HQ. unfold FsEngine.remove_object. cbn zeta.
  assert (∀ e σ' d', grown σ σ' → sound d' → Q (Err e) σ' L d') as Herr by (intros; by apply HQ).
  assert (∀ n, object_file n → resolve (push (FsEngine.object_dir (FsEngine.bucket_dir engine b) k) n) = object_path b k ++ [n]) as Hres.
  { intros n Hn. apply object_file_resolve; [done..|by apply object_file_plain]. }
  assert (data_file_name NULL_VERSION_ID ≠ META_FILE) as Hne by by apply not_eq_sym, meta_not_data.
  assert (∀ n, object_file n → removable σ (object_path b k ++ [n])) as Hrm.
  { intros n Hn. eapply removable_file; [apply Hw|apply Hw|done..]. }
  assert (∀ x, mine σ [(meta_path b k, x)]) as Hmm.
  { intros x. repeat constructor. apply writer_owned; [done..|by left]. }
  apply rwp_bind, rwp_mapE. apply (rwp_remove_if_present _ (meta_path b k) (vol d !! meta_path b k) []);
    [apply Hres; by left|apply Hrm; by left|apply not_elem_of_nil|done|done|by repeat constructor| |by intros; apply Herr].
  intros d1 Hs1 Hf1. cbn [map_err]. apply rwp_bind, rwp_mapE.
  assert (data_path b k NULL_VERSION_ID ∉ [(meta_path b k, @None node)].*1) as Hnin.
  { cbn. rewrite not_elem_of_cons. split; [by intros [_ ?]%app_inj_tail|apply not_elem_of_nil]. }
  apply (rwp_remove_if_present _ (data_path b k NULL_VERSION_ID) (vol d1 !! data_path b k NULL_VERSION_ID) [(meta_path b k, None)]);
    [apply Hres; by right|apply Hrm; by right|done| |done|by constructor| |by intros; apply Herr].
  { constructor; [|apply Hmm]. apply writer_owned; [done..|by right]. }
  intros d2 Hs2 Hf2%Forall_inv_tail. cbn [map_err].
  set (l := [(meta_path b k, @None node)]) in *.
  eapply (rwp_safe _ σ l); [|apply Hmm|done|done|].
  - rewrite object_dir_names, objects_dir_names by done.
    apply every_bind; [|intros _; apply every_bind].
    + unfold FsEngine.prune_empty_dirs. eapply (safe_prune σ l b); [apply Hw|done|done|].
      intros r Hr. cbn. rewrite not_elem_of_cons. split; [|apply not_elem_of_nil].
      pose proof (known_no_dirs b k META_FILE None r ltac:(by left)) as Hno. cbn in Hno. rewrite !not_elem_of_cons in Hno.
      apply Hno. destruct Hr as [t Ht]. pose proof (key_names_canonical k Hk) as Hcan. rewrite Ht in Hcan.
      by apply Forall_app in Hcan as [? _].
    + unfold FsEngine.deepest_existing. pose proof safe_try_exists. generalize (names_of ([BUCKETS_DIR; b; OBJECTS_DIR] ++ key_names k)) as p.
      intros p. generalize (S (length p)) as fuel. intros fuel. revert p. induction fuel as [|fuel IH]; intros p; cbn [FsEngine.deepest_loop]; every.
    + intros deepest. pose proof safe_sync_dir. unfold FsEngine.fsync_dir. every.
  - intros r σ' d' Hg Hs' Hf'. apply HQ; [done..|]. intros u _ d'' Hr.
    exact (Forall_inv (rely_facts _ _ _ _ (grown_mine _ _ _ Hg (Hmm None)) Hr Hf')).
Qed.

Lemma rwp_delete_object b k d :
  utf8 k → sound d →
  store_rwp (FsEngine.delete_object engine b k) (λ r _ L _, r = Ok () → delete_post b k L) nothing ∅ d.
Proof.
  intros Hk Hs. unfold FsEngine.delete_object.
  apply rwp_bind, (rwp_existing_bucket_dir b []); [constructor|constructor|done| |done].
  intros d1 Hb Hs1 _ _. apply rwp_with_lock. intros d2 Hr2 Hs2. apply rwp_with_lock. intros d3 Hr3 Hs3.
  apply rwp_remove_object; [done|done| |done|].
  { split; cbn; set_solver. }
  intros r σ' d4 Hg Hs4 Hgone d5 Hr5 Hs5 d6 Hr6 Hs6 ->. exists d5.
  split; [by rewrite lookup_insert_ne, lookup_insert_eq|]. by eapply Hgone.
Qed.
End writes.
