(* ===== verification/ConcBucket.v ===== *)
(** * Creating and deleting buckets, among other requests

    [create_bucket] and [delete_bucket] keep the protocol in every interleaving:
    with the bucket locked exclusively nothing in it changes under them, so that
    the check that it is empty still holds when it is removed.  The requests that
    only read keep it as well, which makes the protocol one of all requests. *)

From S2P Require Import Prelude RustStr RustPath Paths Checksum EngineError Fs FsFacts Atomic Meta Layer Walk FsBase Listing FsEngine Tidy FsObject FsDelete FsList FsBuckets FsOpen ReadOnly Store Refine Locks Conc Rely ConcStore ConcPut.

Section buckets.
Context {E : Env} {D : DataDir} `{!EnvOk E}.
Context {HS : HashCrates} {MD : Md5Crate} {RD : Reads}.
Context `{!Serde VersionManifest, !Serde BucketMeta, !Serde DiskFormat}.
Context `{!HashCratesLaws HS, !Md5Laws MD, !SerdeLaws VersionManifest valid_manifest}.

(** ** Removing a directory tree *)

(** Nothing of an object is in the bucket. *)
Definition no_object (b : str) (m : tree) : Prop := ∀ n, m !! (objects_path b ++ [n]) = None.

Lemma no_object_below b m r : wf m → no_object b m → r ≠ [] → m !! (objects_path b ++ r) = None.
Proof.
  intros Hwf Hno Hr. destruct r as [|n r]; [done|]. destruct (m !! (objects_path b ++ n :: r)) as [x|] eqn:Hx; [|done].
  exfalso. destruct r as [|n' r]; [by rewrite Hno in Hx|].
  rewrite (cons_middle n), app_assoc in Hx.
  assert (m !! (objects_path b ++ [n]) = Some NDir) as Hd by (apply (wf_prefix m _ (n' :: r)); [done|done|by eexists]).
  by rewrite Hno in Hd.
Qed.

(** Everything in the bucket is as it was. *)
Definition same_bucket (b : str) (m m' : tree) : Prop := ∀ r, m' !! (bucket_path b ++ r) = m !! (bucket_path b ++ r).

Lemma exclusive_same σ b d d' : (BucketLock b, Exclusive) ∈ held σ → store_rely σ d d' → same_bucket b (vol d) (vol d').
Proof. intros Hb Hr r. eapply owned_rely; [by eapply own_all|done]. Qed.

Lemma no_object_same b m m' : same_bucket b m m' → no_object b m → no_object b m'.
Proof. intros Hsame Hno n. rewrite objects_in_bucket, Hsame, <- objects_in_bucket. apply Hno. Qed.

Lemma unlinkable_same b m m' qs : same_bucket b m m' → unlinkable (bucket_path b) m qs → unlinkable (bucket_path b) m' qs.
Proof.
  intros Hsame (Hs & Hne & Hp & Hc). split_and!; [done..|]. intros q n Hin Hx. apply Hc; [done|].
  rewrite Forall_forall in Hp. destruct (Hp q Hin) as [r ->]. rewrite <- app_assoc in *. by rewrite Hsame in Hx.
Qed.

(** Unlinking in a bucket that is locked and holds no object. *)
Lemma rwp_unlink_all σ b qs Q L d :
  (BucketLock b, Exclusive) ∈ held σ → sound d → no_object b (vol d) →
  unlinkable (bucket_path b) (vol d) qs →
  (∀ r d', sound d' → no_object b (vol d') →
     (∀ u, r = Ok u → Forall (λ q, vol d' !! q = None) qs ∧ ∀ r', vol d !! (bucket_path b ++ r') = None → vol d' !! (bucket_path b ++ r') = None) →
     Q r σ L d') →
  store_rwp (unlink_all qs) Q σ L d.
Proof.
  intros Hb. revert d Q. induction qs as [|q qs IH]; intros d Q Hs Hno Hu HQ; cbn [unlink_all].
  { cbn. apply HQ; [done..|]. intros ? _. split; [constructor|done]. }
  apply rwp_bind, rwp_syscall. intros d1 Hr1 Hs1. pose proof (exclusive_same σ b d d1 Hb Hr1) as Hsame.
  pose proof (no_object_same _ _ _ Hsame Hno) as Hno1. pose proof (unlinkable_same _ _ _ _ Hsame Hu) as Hu1.
  destruct (unlinkable_head _ (vol d1) q qs (lay_wf _ (so_layout _ Hs1)) Hu1) as (Hpr & Hu2 & Hch).
  assert (bucket_path b `prefix_of` q) as [r Hq] by (destruct Hu as (_ & _ & Hp & _); exact (Forall_inv Hp)).
  split; [|intros e n _ _; split_and!; [done|by apply allowed_refl|by apply HQ]].
  rewrite (bool_decide_eq_true_2 _ Hch). intros res d2 [= <- <-].
  assert (good σ [] d1 (set_vol (delete q) d1)) as Hg.
  { destruct (vol d1 !! q) as [x|] eqn:Hx.
    - apply good_delete; [done|constructor|apply not_elem_of_nil|apply Hpr|]. rewrite Hx. eapply mc_bucket; [done|exact Hq|].
      destruct r as [|o r]; [done|]. cbn. intros [= ->]. split; [|done].
      destruct r as [|n r].
      + destruct x as [|data s]; [done|]. exfalso. rewrite Hq in Hx. fold (objects_path b) in Hx.
        assert (bucket_at (vol d1) b) as Hbkt by (apply (wf_prefix _ _ [OBJECTS_DIR]); [apply Hs1|done|by eexists]).
        by eapply (bt_objects _ _ (so_trees _ Hs1 b Hbkt)).
      + exfalso. rewrite Hq, <- objects_in_bucket in Hx. by rewrite no_object_below in Hx; [|apply Hs1|..].
    - apply good_same; [done|constructor|]. cbn. by rewrite delete_id. }
  destruct Hg as [Hs2 Ha2 _]. split_and!; [done..|].
  assert (no_object b (delete q (vol d1))) as Hno2.
  { intros n. destruct (pr_in _ _ _ Hpr (objects_path b ++ [n])) as [->|?]; [apply Hno1|done]. }
  apply IH; [done|done|done|]. intros r' d3 Hs3 Hno3 Hok. apply HQ; [done..|]. intros u ->.
  destruct (Hok u eq_refl) as [Hall Hkeep]. split.
  - constructor; [|done]. rewrite Hq. apply Hkeep. rewrite <- Hq. apply lookup_delete_eq.
  - intros r2 Hr2. apply Hkeep. cbn. destruct (pr_in _ _ _ Hpr (bucket_path b ++ r2)) as [->|?]; [|done].
    by rewrite Hsame.
Qed.

Lemma rwp_remove_dir_all σ b Q L d :
  is_valid_bucket_name b = true → (BucketLock b, Exclusive) ∈ held σ → sound d → no_object b (vol d) →
  (∀ r d', sound d' → (∀ u, r = Ok u → ∀ d'', store_rely σ d' d'' → vol d'' !! bucket_path b = None) → Q r σ L d') →
  store_rwp (remove_dir_all (FsEngine.bucket_dir engine b)) Q σ L d.
Proof.
  intros Hvb Hb Hs Hno HQ. unfold remove_dir_all. apply rwp_blocking. intros d1 Hr1 Hs1.
  pose proof (no_object_same _ _ _ (exclusive_same σ b d d1 Hb Hr1) Hno) as Hno1.
  assert (∀ e σ' d' d'', σ' = σ → sound d'' → store_rely σ' d' d'' → Q (Err e) σ' L d'') as Herr.
  { intros e σ' d' d'' -> Hs' _. by apply HQ. }
  apply rwp_bind, rwp_syscall. intros d2 Hr2 Hs2.
  pose proof (no_object_same _ _ _ (exclusive_same σ b d1 d2 Hb Hr2) Hno1) as Hno2.
  split; [|intros e n _ _; split_and!; [done|by apply allowed_refl|]; intros; by eapply Herr].
  intros r d3 [= <- <-]. split_and!; [done|by apply allowed_refl|]. rewrite bucket_dir_resolve by done.
  destruct (walk (vol d2) (bucket_path b)) as [x|err] eqn:Hw; [|intros; by eapply Herr].
  apply rwp_bind, rwp_syscall. intros d4 Hr4 Hs4.
  pose proof (no_object_same _ _ _ (exclusive_same σ b d2 d4 Hb Hr4) Hno2) as Hno4.
  split; [|intros e n _ _; split_and!; [done|by apply allowed_refl|]; intros; by eapply Herr].
  intros r d5 [= <- <-]. split_and!; [done|by apply allowed_refl|]. destruct x as [|data s]; [|cbn; intros; by eapply Herr].
  apply (rwp_unlink_all σ b); [done|done|done|by apply subtree_unlinkable, bucket_path_not_nil|].
  intros r d6 Hs6 Hno6 Hok d7 Hr7 Hs7. apply HQ; [done|]. intros u -> d8 Hr8.
  destruct (Hok u eq_refl) as [Hall _]. rewrite Forall_forall in Hall.
  rewrite (owned_rely σ d7 d8), (owned_rely σ d6 d7) by (done || by eapply own_bucket).
  apply Hall. rewrite elem_of_subtree. split; [done|].
  rewrite (owned_rely σ d2 d4) by (done || by eapply own_bucket). apply walk_Ok in Hw. by eexists.
Qed.

(** ** [delete_bucket] *)

Lemma rwp_has_any_entry b Q σ L d :
  is_valid_bucket_name b = true → sound d →
  (∀ any d', sound d' → (any = false → no_object b (vol d')) → Q (Ok any) σ L d') →
  (∀ e d', sound d' → Q (Err e) σ L d') →
  store_rwp (FsEngine.has_any_entry (push (FsEngine.bucket_dir engine b) OBJECTS_DIR)) Q σ L d.
Proof.
  intros Hb Hs HO HE. unfold FsEngine.has_any_entry. apply rwp_bind, rwp_attempt.
  apply (rwp_look _ []); [intros d0; by repeat case_match|constructor|constructor|]. intros d' Hs' _. rewrite objects_dir_resolve by done.
  split.
  - destruct (walk (vol d') (objects_path b)) as [[|data s]|err] eqn:Hw; cbn [fst].
    + apply HO; [done|]. rewrite negb_false_iff, bool_decide_eq_true. intros Hnil n.
      apply (children_nil (vol d') (objects_path b)). apply Permutation_nil. rewrite <- Hnil. apply dir_order_perm.
    + by apply HE.
    + case_bool_decide; [|by apply HE]. apply HO; [done|]. intros _ n.
      apply no_objects_empty; [apply Hs'|]. eapply walk_Err; [apply Hs'|done].
  - intros err He. case_bool_decide as Hk; [|by apply HE]. by destruct He as [He|He]; rewrite He in Hk.
Qed.

Definition gone_post (b : str) (L : gmap lock disk) : Prop :=
  ∃ d0, L !! BucketLock b = Some d0 ∧ vol d0 !! bucket_path b = None.

Lemma rwp_delete_bucket b d :
  sound d → store_rwp (FsEngine.delete_bucket engine b) (λ r _ L _, r = Ok () → gone_post b L) nothing ∅ d.
Proof.
  intros Hs. unfold FsEngine.delete_bucket, FsEngine.checked_bucket_dir. apply rwp_bind.
  destruct (is_valid_bucket_name b) eqn:Hb; cbn [lift rwp]; [|done].
  apply rwp_with_lock. intros d1 Hr1 Hs1. set (σ := take_lock (BucketLock b) Exclusive nothing).
  apply rwp_bind, rwp_mapE. eapply (rwp_safe _ σ []); [apply safe_try_exists|constructor|done|constructor|].
  intros [there|e] σ2 d2 Hg2 Hs2 _; cbn [map_err]; [|by intros].
  assert ((BucketLock b, Exclusive) ∈ held σ2) as Hlk by (rewrite (gn_held _ _ Hg2); by left).
  destruct there; cbn [negb]; [|by intros]. apply rwp_bind, rwp_mapE, rwp_has_any_entry; [done|done| |by intros].
  intros any d3 Hs3 Hany; cbn [map_err]. destruct any; [by intros|]. specialize (Hany eq_refl).
  apply rwp_bind, rwp_attempt, (rwp_remove_dir_all σ2 b); [done..|].
  intros [u|err] d4 Hs4 Hgone; [|case_bool_decide; by intros]. specialize (Hgone u eq_refl).
  assert (mine σ2 [(bucket_path b, None)]) as Hm by (repeat constructor; by eapply own_bucket).
  apply rwp_bind, rwp_mapE. eapply (rwp_safe _ σ2 [(bucket_path b, None)]);
    [apply safe_sync_dir|done|done|by repeat constructor; apply Hgone, rtc_refl|].
  intros [u'|e] σ5 d5 Hg5 Hs5 Hf5; cbn [map_err]; [|by intros]. cbn. intros d6 Hr6 Hs6 _.
  exists d6. rewrite lookup_insert_eq. split; [done|].
  exact (Forall_inv (rely_facts _ _ _ _ (grown_mine _ _ _ Hg5 Hm) Hr6 Hf5)).
Qed.

(** ** [create_bucket] *)

Definition made_post (b : str) (L : gmap lock disk) : Prop :=
  ∃ d0, L !! BucketLock b = Some d0 ∧ bucket_at (vol d0) b ∧ no_object b (vol d0).

(** What is known of a new bucket. *)
Definition fresh_bucket (b : str) : list (apath * option node) :=
  [(bucket_path b, Some NDir); (objects_path b, None)].

Lemma fresh_mine σ b : (BucketLock b, Exclusive) ∈ held σ → mine σ (fresh_bucket b).
Proof.
  intros Hb. constructor; [|constructor; [|constructor]]; cbn [fst].
  - by eapply own_bucket.
  - by eapply (own_all _ _ b [OBJECTS_DIR]).
Qed.

Lemma bucket_meta_path b : resolve dd_head ++ (dd_names ++ [BUCKETS_DIR; b]) ++ [BUCKET_META_FILE] = bucket_path b ++ [BUCKET_META_FILE].
Proof. by rewrite app_assoc, bucket_path_resolve. Qed.

Lemma bucket_way_free σ b u data x :
  way_free dd_head (dd_names ++ [BUCKETS_DIR; b]) BUCKET_META_FILE u data x (fresh_bucket b) σ.
Proof.
  intros s ns' Hp. left. intros d Hs Hf.
  pose proof (Forall_inv (Forall_inv_tail (Forall_inv_tail Hf))) as Hb. cbn in Hb.
  eapply wf_prefix_some; [apply Hs| |by eexists]. rewrite <- bucket_path_resolve. by apply prefix_app.
Qed.

Lemma meta_not_fresh b : bucket_path b ++ [BUCKET_META_FILE] ∉ (fresh_bucket b).*1.
Proof.
  cbn. rewrite !not_elem_of_cons. split_and!; [| |apply not_elem_of_nil].
  - intros Heq. rewrite <- (app_nil_r (bucket_path b)) in Heq at 2. by apply bucket_path_inj in Heq as [_ ?].
  - unfold objects_path. intros [_ Heq]%bucket_path_inj. by vm_compute in Heq.
Qed.

Lemma fresh_no_object b m : wf m → facts (fresh_bucket b) m → bucket_at m b ∧ no_object b m.
Proof.
  intros Hwf Hf. pose proof (Forall_inv Hf) as Hb. pose proof (Forall_inv (Forall_inv_tail Hf)) as Ho. split; [done|].
  intros n. by apply no_objects_empty.
Qed.

Lemma rwp_claim_bucket b Q σ L d :
  is_valid_bucket_name b = true → (BucketLock b, Exclusive) ∈ held σ →
  (∀ d', sound d' → facts ((bucket_path b ++ [BUCKET_META_FILE], None) :: fresh_bucket b) (vol d') → Q (Ok ()) σ L d') →
  (∀ e d', sound d' → Q (Err e) σ L d') →
  store_rwp (create_dir (FsEngine.bucket_dir engine b)) Q σ L d.
Proof.
  intros Hvb Hb HO HE. apply (rwp_call _ _ []); [constructor|constructor|]. intros d' Hs _.
  assert (good σ [] d' d') as Hg by by apply good_same; [|constructor|].
  split; [|intros e n _; split; [done|by apply HE]]. intros r d2. cbn zeta. rewrite bucket_dir_resolve by done.
  destruct (walk_new (vol d') (bucket_path b)) as [[]|err] eqn:Hw; [|intros [= <- <-]; split; [done|by apply HE]].
  destruct (vol d' !! bucket_path b) as [x|] eqn:Hx; intros [= <- <-]; [split; [done|by apply HE]|].
  destruct (walk_new_Ok _ _ Hw) as (a & n & Ha & Hdir & Hn).
  assert (good σ [] d' (set_vol <[bucket_path b := NDir]> d')) as Hg'.
  { apply good_insert; [done|constructor|apply not_elem_of_nil| |].
    - rewrite Ha. apply wf_insert; [apply Hs|done|done|by left].
    - eapply (mc_bucket _ _ _ _ b []); [done|by rewrite app_nil_r|done]. }
  split; [done|]. apply HO; [apply Hg'|].
  assert (∀ o, <[bucket_path b := NDir]> (vol d') !! (bucket_path b ++ [o]) = None) as Hbelow.
  { intros o. rewrite lookup_insert_ne; [apply wf_no_child_below; [apply Hs|by rewrite Hx]|].
    intros Heq%(f_equal length). rewrite length_app in Heq. cbn in Heq. lia. }
  repeat constructor; cbn; [apply Hbelow|apply lookup_insert_eq|apply Hbelow].
Qed.

Lemma rwp_create_bucket b d :
  sound d → store_rwp (FsEngine.create_bucket engine b) (λ r _ L _, r = Ok () → made_post b L) nothing ∅ d.
Proof.
  intros Hs. unfold FsEngine.create_bucket, FsEngine.checked_bucket_dir. apply rwp_bind.
  destruct (is_valid_bucket_name b) eqn:Hb; cbn [lift rwp]; [|done].
  apply rwp_with_lock. intros d1 Hr1 Hs1. set (σ := take_lock (BucketLock b) Exclusive nothing).
  assert ((BucketLock b, Exclusive) ∈ held σ) as Hlk by by left.
  apply rwp_bind, rwp_attempt, rwp_claim_bucket; [done|done| |intros err d2 Hs2; case_bool_decide; by intros].
  intros d2 Hs2 Hf2. apply rwp_bind. unfold FsEngine.now_epoch_ms. apply rwp_bind. intros d3 Hr3 Hs3 ns. cbn [rwp ret].
  set (meta := bucket_path b ++ [BUCKET_META_FILE]) in *.
  assert (∀ x, mine σ ((meta, x) :: fresh_bucket b)) as Hm.
  { intros x. constructor; [by eapply own_all|by apply fresh_mine]. }
  pose proof (rely_facts _ _ _ _ (Hm None) Hr3 Hf2) as Hf3. apply rwp_bind, rwp_attempt. rewrite bucket_meta_names by done.
  apply (rwp_write_json dd_head (dd_names ++ [BUCKETS_DIR; b]) BUCKET_META_FILE _ None (fresh_bucket b));
    rewrite ?bucket_meta_path; fold meta; [apply dd_head_path|done|apply meta_not_fresh| | | |done|done| |].
  - intros bytes _ x s _. by eapply mc_bucket.
  - intros u bytes. apply bucket_way_free.
  - by eapply own_all.
  - intros bytes σ4 d4 _ Hg4 Hs4 Hf4%Forall_inv_tail. apply rwp_bind, rwp_mapE.
    pose proof (grown_mine _ _ _ Hg4 (fresh_mine σ b Hlk)) as Hm4.
    eapply (rwp_safe _ σ4 (fresh_bucket b)); [apply safe_sync_dir|done..|].
    intros [u|e] σ5 d5 Hg5 Hs5 Hf5; cbn [map_err]; [|by intros]. cbn. intros d6 Hr6 Hs6 _. exists d6.
    rewrite lookup_insert_eq. split; [done|]. apply fresh_no_object; [apply Hs6|].
    by eapply rely_facts; [eapply grown_mine|..].
  - intros err σ4 d4 Hg4 Hs4 Hf4. apply rwp_bind, rwp_attempt.
    assert ((BucketLock b, Exclusive) ∈ held σ4) as Hlk4 by by rewrite (gn_held _ _ Hg4).
    apply (rwp_remove_dir_all σ4 b); [done|done|done|by apply fresh_no_object; [apply Hs4|]|]. by intros.
Qed.

(** ** All requests *)

Lemma rwp_readonly {X A} (m : M X A) Q σ L d :
  readonly m → (∀ r σ' L' d', Q r σ' L' d') → store_rwp m Q σ L d.
Proof.
  intros Hm HQ. revert σ L d. induction m as [r|Z op part k IH|k IH|k IH|k IH|lk md k IH|lk md k IH|k IH|k IH];
    intros σ L d; cbn in Hm |- *; try (intros; apply IH; apply Hm); [by apply HQ|].
  intros d' _ Hs. destruct Hm as [[Ho Hp] Hk]. split; [|intros e n _ _]; rewrite ?Ho, ?Hp;
    (split_and!; [done|by apply allowed_refl|by apply IH]).
Qed.

(** What a request has done when it answers, by the disk at the moment it let go of
    its lock. *)
Definition done_post (r : option request) (res : result reply EngineError) (_ : local) (L : gmap lock disk) (_ : disk) : Prop :=
  match r, res with
  | Some (RPutObject b k body opts), Ok (Info info) => put_post b k body opts info L
  | Some (RDeleteObject b k), Ok _ => delete_post b k L
  | Some (RCreateBucket b), Ok _ => made_post b L
  | Some (RDeleteBucket b), Ok _ => gone_post b L
  | _, _ => True
  end.

Lemma rwp_unwind acts σ L d : (∀ u, Unlink u ∈ acts → u ∈ drawn σ ∧ uuid_ok u) → sound d →
  store_rwp (unwind engine acts) (done_post None) σ L d.
Proof.
  revert σ L d. induction acts as [|[u|l md] acts IH]; intros σ L d Hu Hs; cbn [unwind]; [done| |].
  - destruct (Hu u ltac:(left)) as [Hd [Hpl _]]. apply rwp_bind.
    eapply (rwp_safe _ σ []); [|constructor|done|constructor|].
    + apply every_attempt, safe_remove_file; [|apply not_elem_of_nil].
      rewrite tmp_file_resolve by done. by apply removable_tmp.
    + intros [r|e] σ' d' Hg Hs' _; [|done]. apply IH; [|done]. intros u' Hin.
      destruct (Hu u' ltac:(by right)). split; [by apply Hg|done].
  - apply rwp_bind. cbn. intros d' Hr Hs'. apply IH; [|done]. intros u' Hin. apply Hu. by right.
Qed.

#[export] Instance engine_verified : Verified sound allowed engine done_post.
Proof.
  split.
  - by intros r res σ L d d' Hp _ _.
  - intros r d Hr Hs. unfold program.
    destruct r; cbn [answer create_bucket delete_bucket bucket_exists list_buckets put_object get_object head_object
      delete_object list_objects_v2 fs_engine_layer done_post]; cbn in Hr.
    + apply rwp_bind. eapply rwp_mono; [by apply rwp_create_bucket|]. intros [[]|e] σ L d' Hp; [|done]. by apply Hp.
    + apply rwp_bind. eapply rwp_mono; [by apply rwp_delete_bucket|]. intros [[]|e] σ L d' Hp; [|done]. by apply Hp.
    + apply rwp_readonly; [|done]. apply every_bind; [apply readonly_bucket_exists|done].
    + apply rwp_readonly; [|done]. apply every_bind; [apply readonly_list_buckets|done].
    + destruct Hr. apply rwp_bind. eapply rwp_mono; [by apply rwp_put_object|]. intros [info|e] σ L d' Hp; [|done]. by apply Hp.
    + apply rwp_readonly; [|done]. apply every_bind; [apply readonly_get_object|]. intros [[[info o] len] st]. by apply every_bind.
    + apply rwp_readonly; [|done]. apply every_bind; [apply readonly_head_object|done].
    + apply rwp_bind. eapply rwp_mono; [by apply rwp_delete_object|]. intros [[]|e] σ L d' Hp; [|done]. by apply Hp.
    + apply rwp_readonly; [|done]. apply every_bind; [apply readonly_list_objects_v2|done].
  - intros acts σ L d Hu Hs. by apply rwp_unwind.
Qed.
End buckets.
