(* ===== verification/ConcDetach.v ===== *)
(** * Calls that outlive their request

    A request that is cancelled while a call of it runs on the blocking pool leaves
    that call behind: it still runs to its end, when the locks the request held are
    free again and its staged files are gone.  What it does then is not what the
    locks allow ([ConcSamples.late_removal_destroys_object]); but the data directory
    stays one the engine can read, whatever is left behind
    ([parallel_store_ok]).

    No argument from locks is left here.  A call of a request is fine if it keeps
    the data directory readable from any readable one and touches no staged file but
    its own; the only thing a request has to know of the disk is what is in the file
    it is about to publish as a manifest. *)

From S2P Require Import Prelude RustStr RustPath Paths Checksum EngineError Fs FsFacts Atomic Meta Layer Walk FsBase Listing FsEngine Tidy FsObject FsDelete FsList FsBuckets FsOpen ReadOnly Store Refine Locks Conc Rely ConcStore ConcPut ConcBucket.

(** The staged files a program owns, by their UUIDs, each with what is in it as
    long as it is there, if that is known. *)
Abbreviation ledger := (gmap str (option str)).

Section detach.
Context {E : Env} {D : DataDir} `{!EnvOk E}.
Context {HS : HashCrates} {MD : Md5Crate} {RD : Reads}.
Context `{!Serde VersionManifest, !Serde BucketMeta, !Serde DiskFormat}.
Context `{!HashCratesLaws HS, !Md5Laws MD, !SerdeLaws VersionManifest valid_manifest}.

Definition agrees (κ : ledger) (m : tree) : Prop :=
  ∀ u c x, κ !! u = Some (Some c) → m !! tmp_file u = Some x → ∃ s, x = NFile c s.

(** A step of the owner of [κ], after which it knows [κ']: the staged files of
    others may go, but do not change. *)
Record keeps (κ κ' : ledger) (d d' : disk) : Prop := {
  kp_sound : sound d';
  kp_dom : dom κ' = dom κ;
  kp_agrees : agrees κ' (vol d');
  kp_others u : κ !! u = None → vol d' !! tmp_file u = vol d !! tmp_file u ∨ vol d' !! tmp_file u = None;
}.

(** From any readable data directory every call keeps it readable; [Q] holds of what
    is known in the end.  Locks do not matter. *)
Fixpoint steady {X A} (m : M X A) (Q : result A X → ledger → Prop) (κ : ledger) : Prop :=
  match m with
  | Done r => Q r κ
  | Sys op part k => ∀ d, sound d → agrees κ (vol d) →
      (∃ κ', keeps κ κ' d (op d).2 ∧ steady (k (op d).1) Q κ')
      ∧ ∀ e n, environmental (kind e) → ∃ κ', keeps κ κ' d (part n d) ∧ steady (k (Err e)) Q κ'
  | Now k => ∀ z, steady (k z) Q κ
  | Uuid k => ∀ u, uuid_ok u → κ !! u = None → steady (k u) Q (<[u := None]> κ)
  | Bound k => ∀ n, steady (k n) Q κ
  | Acquire _ _ k | Release _ _ k | Enter k | Leave k => steady k Q κ
  end.

(** ** Rules *)

Lemma steady_mono {X A} (m : M X A) (Q Q' : _ → _ → Prop) κ :
  steady m Q κ → (∀ r κ', Q r κ' → Q' r κ') → steady m Q' κ.
Proof.
  intros Hm HQ. revert κ Hm.
  induction m as [r|Y op part k IH|k IH|k IH|k IH|l md k IH|l md k IH|k IH|k IH]; intros κ Hm; cbn in *; eauto.
  intros d Hs Ha. destruct (Hm d Hs Ha) as [(κ' & ? & ?) Hf]. split; [eauto|].
  intros e n He. destruct (Hf e n He) as (κ2 & ? & ?). eauto.
Qed.

Lemma steady_andThen {X Y A B} (m : M X A) (k : result A X → M Y B) Q κ :
  steady m (λ r, steady (k r) Q) κ → steady (andThen m k) Q κ.
Proof.
  revert κ. induction m as [r|Z op part c IH|c IH|c IH|c IH|l md c IH|l md c IH|c IH|c IH]; intros κ Hm; cbn in *; eauto.
  intros d Hs Ha. destruct (Hm d Hs Ha) as [(κ' & ? & ?) Hf]. split; [eauto|].
  intros e n He. destruct (Hf e n He) as (κ2 & ? & ?). eauto.
Qed.

Lemma steady_bind {X A B} (m : M X A) (k : A → M X B) Q κ :
  steady m (λ r κ', match r with Ok a => steady (k a) Q κ' | Err e => Q (Err e) κ' end) κ → steady (bind m k) Q κ.
Proof. intros Hm. apply steady_andThen. eapply steady_mono; [exact Hm|]. by intros [a|e]. Qed.

Lemma steady_attempt {X Y A} (m : M X A) Q κ : steady m (λ r, Q (Ok r)) κ → steady (attempt m : M Y _) Q κ.
Proof. intros Hm. by apply steady_andThen. Qed.

Lemma steady_mapE {X Y A} (f : X → Y) (m : M X A) Q κ : steady m (λ r, Q (map_err f r)) κ → steady (mapE f m) Q κ.
Proof. intros Hm. by apply steady_andThen. Qed.

Lemma steady_with_lock {X A} l md (m : M X A) Q κ : steady m Q κ → steady (FsEngine.with_lock l md m) Q κ.
Proof. intros Hm. apply steady_bind. cbn. apply steady_andThen, steady_andThen. eapply steady_mono; [exact Hm|]. by intros [a|e]. Qed.

(** ** Calls that touch no staged file *)

Lemma may_change_tmp σ u x x' : may_change σ (tmp_file u) x x' → u ∈ drawn σ.
Proof.
  intros [(u' & Hu & ->%tmp_file_inj)|(b & md & r & _ & Heq)]%may_change_where; [done|].
  by apply tmp_file_bucket in Heq.
Qed.

(** What the protocol allows to whoever drew no UUID. *)
Record calm (d d' : disk) : Prop := {
  cm_sound : sound d';
  cm_tmp u : vol d' !! tmp_file u = vol d !! tmp_file u ∨ vol d' !! tmp_file u = None;
}.

Lemma good_calm σ l d d' : drawn σ = [] → good σ l d d' → calm d d'.
Proof.
  intros Hd [Hs Ha _]. split; [done|]. intros u. destruct (Ha (tmp_file u)) as [?|Hc]; [by left|exfalso].
  apply may_change_tmp in Hc. rewrite Hd in Hc. by apply elem_of_nil in Hc.
Qed.

Lemma calm_keeps κ d d' : agrees κ (vol d) → calm d d' → keeps κ κ d d'.
Proof.
  intros Ha [Hs Ht]. split; [done|done| |by intros u _]. intros u c x Hu Hx.
  destruct (Ht u) as [Heq|Heq]; rewrite Heq in Hx; [by eapply Ha|done].
Qed.

Definition calm_call X (op : disk → result X io_error * disk) (part : nat → disk → disk) : Prop :=
  ∀ d, sound d → calm d (op d).2 ∧ ∀ n, calm d (part n d).

Abbreviation calmly := (every calm_call (λ _ _, True)).

Lemma steady_calm {X A} (m : M X A) (Q : _ → _ → Prop) κ :
  calmly m → (∀ r κ', κ ⊆ κ' → Q r κ') → steady m Q κ.
Proof.
  intros Hm HQ. assert (∀ κ', κ ⊆ κ' → steady m Q κ') as H; [|by apply H].
  induction m as [r|Z op part k IH|k IH|k IH|k IH|lk md k IH|lk md k IH|k IH|k IH]; intros κ' Hk; cbn in Hm |- *.
  - by apply HQ.
  - destruct Hm as [Hc Hm]. intros d Hs Ha. destruct (Hc d Hs) as [Ho Hp].
    split; [|intros e n _]; exists κ'; (split; [by apply calm_keeps|by apply IH]).
  - intros z. by apply IH.
  - intros u _ Hu. apply IH; [done|]. etrans; [exact Hk|by apply insert_subseteq].
  - intros n. by apply IH.
  - destruct Hm. by apply IH.
  - destruct Hm. by apply IH.
  - by apply IH.
  - by apply IH.
Qed.

(** What is safe with some locks is calm without them. *)
Lemma calm_safe {F A} σ (m : M F A) : drawn σ = [] → safe σ [] m → calmly m.
Proof.
  intros Hd Hm. eapply every_impl; [exact Hm| |done]. intros X op part Hc d Hs.
  destruct (Hc d Hs ltac:(constructor)) as [? Hp]. split; [by eapply good_calm|]. intros n. by eapply good_calm.
Qed.

Lemma calm_readonly {F A} (m : M F A) : readonly m → calmly m.
Proof.
  intros Hm. eapply every_impl; [exact Hm| |done]. intros X op part [Ho Hp] d Hs. rewrite Ho.
  split; [by split; [|left]|]. intros n. rewrite Hp. by split; [|left].
Qed.

(** ** Staged files *)

(** A step within the protocol of a thread that owns the staged files of [κ]. *)
Lemma good_keeps σ κ κ' d d' : (∀ u, u ∈ drawn σ → is_Some (κ !! u)) → dom κ' = dom κ → agrees κ' (vol d') →
  good σ [] d d' → keeps κ κ' d d'.
Proof.
  intros Hd Hdom Ha [Hs Hal _]. split; [done..|]. intros u Hu. left.
  destruct (Hal (tmp_file u)) as [?|Hc%may_change_tmp]; [done|]. apply Hd in Hc. rewrite Hu in Hc. by destruct Hc.
Qed.

(** The thread that owns the staged file [u] and nothing else. *)
Abbreviation owner u := (mkLocal [] [u]).

Lemma owner_drawn (κ : ledger) hs u y : κ !! u = Some y → ∀ u', u' ∈ drawn (mkLocal hs [u]) → is_Some (κ !! u').
Proof. intros Hu u' ->%list_elem_of_singleton. by exists y. Qed.

Lemma dom_update (κ : ledger) u y y' : κ !! u = Some y → dom (<[u := y']> κ) = dom κ.
Proof. intros Hu. apply dom_insert_lookup_L. by eexists. Qed.

(** The file of [u] has changed. *)
Lemma agrees_update κ m m' u y :
  agrees κ m → (∀ u', u' ≠ u → m' !! tmp_file u' = m !! tmp_file u') →
  (∀ c x, y = Some c → m' !! tmp_file u = Some x → ∃ s, x = NFile c s) → agrees (<[u := y]> κ) m'.
Proof.
  intros Ha Hm Hy u' c x. destruct (decide (u' = u)) as [->|Hne].
  - rewrite lookup_insert_eq. intros [= ->]. by apply Hy.
  - rewrite lookup_insert_ne, Hm by done. apply Ha.
Qed.

Lemma tmp_update (m : tree) u x u' : u' ≠ u → <[tmp_file u := x]> m !! tmp_file u' = m !! tmp_file u'.
Proof. intros Hne. apply lookup_insert_ne. by intros ->%tmp_file_inj. Qed.

Lemma steady_create (Q : _ → _ → Prop) κ :
  (∀ st u κ', κ ⊆ κ' → κ' !! u = Some (Some []) → resolve (path st) = tmp_file u → committed st = false → Q (Ok st) κ') →
  (∀ e κ', Q (Err e) κ') →
  steady (create (FsEngine.tmp_dir engine)) Q κ.
Proof.
  intros HO HE u [Hpl Hlen] Hu. cbn [andThen]. set (κ1 := <[u := None]> κ).
  assert (κ1 !! u = Some None) as Hu1 by apply lookup_insert_eq.
  intros d Hs Ha. assert (keeps κ1 κ1 d d) as Hsame by by split; [..|left].
  split; [|intros e n _; exists κ1; split; [done|by apply HE]]. cbn zeta. rewrite tmp_file_resolve by done.
  destruct (walk_new (vol d) (tmp_file u)) as [[]|e] eqn:Hw; [|exists κ1; split; [done|by apply HE]].
  destruct (vol d !! tmp_file u) as [x|] eqn:Hx; [exists κ1; split; [done|by apply HE]|].
  exists (<[u := Some []]> κ1). split.
  - eapply (good_keeps (owner u)); [by eapply owner_drawn|by eapply dom_update| |].
    + eapply agrees_update; [exact Ha|intros u' Hne; by apply tmp_update|]. cbn. rewrite lookup_insert_eq.
      intros c x [= <-] [= <-]. by eexists.
    + apply good_insert; [done|constructor|apply not_elem_of_nil| |].
      * destruct (walk_new_Ok _ _ Hw) as (a & n & Hq & Hdir & Hn). rewrite Hq.
        apply wf_insert; [apply Hs|done|done|]. rewrite <- Hq. right. congruence.
      * rewrite Hx. by eapply mc_tmp; [left|..].
  - apply HO with u; [|apply lookup_insert_eq|by apply tmp_file_resolve|done].
    unfold κ1. rewrite insert_insert_eq. by apply insert_subseteq.
Qed.

(** Setting the staged file, if it is there. *)
Lemma keeps_set κ u y y' d data s data' s' :
  sound d → agrees κ (vol d) → κ !! u = Some y → vol d !! tmp_file u = Some (NFile data s) →
  (∀ c, y' = Some c → data' = c) →
  keeps κ (<[u := y']> κ) d (set_vol <[tmp_file u := NFile data' s']> d).
Proof.
  intros Hs Ha Hu Hx Hy. eapply (good_keeps (owner u)); [by eapply owner_drawn|by eapply dom_update| |].
  - eapply agrees_update; [exact Ha|intros u' Hne; by apply tmp_update|]. cbn. rewrite lookup_insert_eq.
    intros c x Hc [= <-]. rewrite (Hy c Hc). by eexists.
  - eapply good_set_tmp; [by left|done|constructor|apply not_elem_of_nil|exact Hx].
Qed.

(** A staged file that is no longer there agrees with anything. *)
Lemma keeps_gone κ u y y' d :
  sound d → agrees κ (vol d) → κ !! u = Some y → (∀ data s, vol d !! tmp_file u ≠ Some (NFile data s)) →
  (is_Some y' → is_Some y) → keeps κ (<[u := y']> κ) d d.
Proof.
  intros Hs Ha Hu Hx Hy. split; [done|by eapply dom_update| |by left]. eapply agrees_update; [exact Ha|done|].
  intros c x Hc Hf. destruct (Hy ltac:(by eexists)) as [c0 ->]. destruct (Ha u c0 x Hu Hf) as [s ->]. by destruct (Hx c0 s).
Qed.

Lemma keeps_append κ u y y' d extra :
  sound d → agrees κ (vol d) → κ !! u = Some y → (∀ c, y' = Some c → ∃ c0, y = Some c0 ∧ c = c0 ++ extra) →
  keeps κ (<[u := y']> κ) d (append_bytes (tmp_file u) extra d).
Proof.
  intros Hs Ha Hu Hy. unfold append_bytes. destruct (vol d !! tmp_file u) as [[|data s]|] eqn:Hx.
  - eapply keeps_gone; [done..|by rewrite Hx|]. intros [c Hc]. destruct (Hy c Hc) as (c0 & -> & _). by eexists.
  - eapply keeps_set; [done..|exact Hx|]. intros c Hc. destruct (Hy c Hc) as (c0 & -> & ->).
    by destruct (Ha u c0 _ Hu Hx) as [s' [= -> _]].
  - eapply keeps_gone; [done..|by rewrite Hx|]. intros [c Hc]. destruct (Hy c Hc) as (c0 & -> & _). by eexists.
Qed.

Lemma steady_write_all st u y buf (Q : _ → _ → Prop) κ :
  resolve (path st) = tmp_file u → κ !! u = Some y →
  Q (Ok ()) (<[u := (λ c, c ++ buf) <$> y]> κ) → (∀ e κ', Q (Err e) κ') →
  steady (write_all st buf) Q κ.
Proof.
  intros Hp Hu HO HE d Hs Ha. rewrite Hp. split.
  - eexists. split; [|exact HO]. eapply keeps_append; [done..|]. intros c (c0 & -> & ->)%fmap_Some. eauto.
  - intros e n _. exists (<[u := None]> κ). split; [|by apply HE]. by eapply keeps_append.
Qed.

Lemma steady_sync_file st u y (Q : _ → _ → Prop) κ :
  resolve (path st) = tmp_file u → κ !! u = Some y → (∀ r, Q r κ) → steady (sync_file (path st)) Q κ.
Proof.
  intros Hp Hu HQ d Hs Ha. assert (keeps κ κ d d) as Hsame by by split; [..|left].
  split; [|intros e n _; exists κ; split; [done|apply HQ]]. exists κ. rewrite Hp.
  destruct (vol d !! tmp_file u) as [[|data s]|] eqn:Hx; (split; [|apply HQ]); [done| |done]. rewrite <- (insert_id κ u y Hu) at 2. eapply keeps_set; [done..|exact Hx|].
  intros c ->. by destruct (Ha u c _ Hu Hx) as [s' [= -> _]].
Qed.

(** What is in the staged file is fit to be published. *)
Definition vouched (κ : ledger) (u : str) (P : str → Prop) : Prop :=
  ∃ y, κ !! u = Some y ∧ ∀ m data s, agrees κ m → m !! tmp_file u = Some (NFile data s) → P data.

Lemma vouched_any κ u y : κ !! u = Some y → vouched κ u (λ _, True).
Proof. intros Hu. by exists y. Qed.

Lemma vouched_known κ u c (P : str → Prop) : κ !! u = Some (Some c) → P c → vouched κ u P.
Proof.
  intros Hu Hc. exists (Some c). split; [done|]. intros m data s Ha Hx. by destruct (Ha u c _ Hu Hx) as [s' [= -> _]].
Qed.

Lemma vouched_grow κ κ' u P : κ ⊆ κ' → vouched κ u P → vouched κ' u P.
Proof.
  intros Hk (y & Hu & HP). exists y. split; [by eapply lookup_weaken|]. intros m data s Ha. apply HP.
  intros u' c x Hu'. apply Ha. by eapply lookup_weaken.
Qed.

Lemma steady_rename st u dest (P : str → Prop) hs b r (Q : _ → _ → Prop) κ :
  resolve (path st) = tmp_file u → resolve dest = bucket_path b ++ r → vouched κ u P →
  (∀ data, P data → writable (mkLocal hs [u]) (bucket_path b ++ r) data) → (∀ res, Q res κ) →
  steady (rename (path st) dest) Q κ.
Proof.
  intros Hp Hq (y & Hu & HP) Hw HQ d Hs Ha. assert (keeps κ κ d d) as Hsame by by split; [..|left].
  split; [|intros e n _; exists κ; split; [done|apply HQ]]. exists κ. split; [|apply HQ]. cbn zeta. rewrite Hp, Hq. set (q := bucket_path b ++ r) in *.
  destruct (walk (vol d) (tmp_file u)) as [[|data s]|e] eqn:Hx; [done| |done]. apply walk_Ok in Hx.
  destruct (walk_new (vol d) q) as [[]|e] eqn:Hwn; [|done]. destruct (walk_new_Ok _ _ Hwn) as (a & n & Hqa & Hdir & Hn).
  assert (vol d !! q ≠ Some NDir → keeps κ κ d (set_vol (λ m, <[q := NFile data s]> (delete (tmp_file u) m)) d)) as Hok.
  { intros Hnd. eapply (good_keeps (mkLocal hs [u])); [by eapply owner_drawn|done| |].
    - intros u' c x Hu' Hx'. apply (Ha u' c x Hu'). cbn in Hx'.
      rewrite lookup_insert_ne in Hx' by (intros Heq; symmetry in Heq; by apply tmp_file_bucket in Heq).
      by apply lookup_delete_Some in Hx' as [_ ?].
    - eapply good_rename; [by left|done|constructor|apply not_elem_of_nil|apply not_elem_of_nil|by eapply Hw, HP|done..|].
      apply tmp_file_bucket. }
  destruct (vol d !! q) as [[|data' s']|] eqn:Hvq; [done|by apply Hok..].
Qed.

Lemma calm_remove_tmp p u : resolve p = tmp_file u → calmly (remove_file p).
Proof.
  intros Hp. apply every_atomic. intros d Hs. assert (calm d d) as Hsame by by split; [|left]. split; [|done].
  cbn. rewrite Hp. destruct (walk (vol d) (tmp_file u)) as [[|data s]|] eqn:Hw; [done| |done]. apply walk_Ok in Hw. split.
  - eapply (good_remove (owner u) []); [done|constructor|apply not_elem_of_nil|by apply removable_tmp; left|exact Hw].
  - intros u'. cbn. destruct (decide (tmp_file u = tmp_file u')) as [<-|Hne]; [right; apply lookup_delete_eq|left; by apply lookup_delete_ne].
Qed.

Lemma calm_drop_staged {F} st u : resolve (path st) = tmp_file u → calmly (drop_staged (F:=F) st).
Proof. intros Hp. pose proof (calm_remove_tmp _ _ Hp). unfold drop_staged. every. Qed.

Lemma steady_or_drop {X A} st u (m : M X A) (Q : _ → _ → Prop) κ :
  resolve (path st) = tmp_file u → steady m (λ r κ', match r with Ok a => Q (Ok a) κ' | Err _ => True end) κ →
  (∀ e κ', Q (Err e) κ') → steady (or_drop st m) Q κ.
Proof.
  intros Hp Hm HE. apply steady_bind, steady_attempt. eapply steady_mono; [exact Hm|]. intros [a|e] κ'; [done|]. intros _.
  apply steady_bind, steady_calm; [by eapply calm_drop_staged|]. intros [a|e'] κ2 _; by apply HE.
Qed.

(** ** Publishing *)

Section commit.
Context (hd : PathBuf) (ns : list str) (n b : str) (r : list str) (hs : list (lock * mode)) (P : str → Prop).
Context (Hhd : head_path hd) (Hq : resolve hd ++ ns ++ [n] = bucket_path b ++ r).
Context (Hdirs : ∀ ns', ns' `prefix_of` ns → dir_ok (mkLocal hs []) [] (resolve hd ++ ns')).
Context (Hw : ∀ u data, P data → writable (mkLocal hs [u]) (bucket_path b ++ r) data).
Let dest : PathBuf := hd ++ (Normal <$> (ns ++ [n])).

Lemma steady_commit st u (Q : _ → _ → Prop) κ :
  resolve (path st) = tmp_file u → vouched κ u P → (∀ res κ', κ ⊆ κ' → Q res κ') → (∀ e κ', Q (Err e) κ') →
  steady (commit st dest) Q κ.
Proof.
  intros Hp Hv HQ HE. unfold commit. apply steady_bind, (steady_or_drop st u); [done| |done]. unfold publish.
  apply steady_bind, steady_calm; [by eapply (calm_safe nothing), safe_flush|]. intros [[]|e] κ1 Hk1; [|done].
  pose proof (vouched_grow _ _ _ _ Hk1 Hv) as Hv1. pose proof Hv1 as (y & Hu1 & _).
  apply steady_bind, (steady_sync_file st u y); [done..|]. intros [[]|e]; [|done]. cbn zeta.
  apply steady_bind, steady_calm; [by eapply (calm_safe nothing), safe_dirs_to_sync|]. intros [dirs|e] κ2 Hk2; [|done].
  destruct (parent_dir_spec hd ns n Hhd) as (hd' & Hhd' & Hres & Hpar). fold dest in Hpar. rewrite Hpar. apply steady_bind, steady_calm.
  { eapply (calm_safe (mkLocal hs [])); [done|]. apply safe_create_dir_all; [done|]. intros ns' Hns. rewrite Hres. by apply Hdirs. }
  intros [[]|e] κ3 Hk3; [|done]. apply steady_bind, (steady_rename st u dest P hs b r); [done| | |by apply Hw|].
  - unfold dest. by rewrite resolve_normals.
  - by eapply vouched_grow, vouched_grow.
  - intros [[]|e]; [|done]. cbn [steady ret]. apply (steady_or_drop _ u); [done| |done].
    apply steady_calm; [by eapply (calm_safe nothing), safe_sync_dirs|]. intros [[]|e] κ4 Hk4; [|done].
    apply HQ. by do 3 (etrans; [eassumption|]).
Qed.

Lemma steady_write_json (value : result str BoxedError) (Q : _ → _ → Prop) κ :
  (∀ bytes, value = Ok bytes → P bytes) → (∀ res κ', Q res κ') →
  steady (write_json_atomic (FsEngine.tmp_dir engine) dest value) Q κ.
Proof.
  intros HP HQ. unfold write_json_atomic. apply steady_bind.
  destruct value as [bytes|err]; cbn [map_err lift steady]; [|apply HQ]. specialize (HP bytes eq_refl).
  apply steady_bind, steady_create; [|intros e κ'; apply HQ]. intros st u κ1 _ Hu Hp _.
  apply steady_bind, (steady_or_drop st u); [done| |intros e κ'; apply HQ].
  eapply (steady_write_all st u); [done|exact Hu| |done]. cbn [fmap option_fmap option_map app].
  apply (steady_commit st u); [done| |intros res κ' _; apply HQ|intros e κ'; apply HQ].
  apply (vouched_known _ u bytes); [apply lookup_insert_eq|done].
Qed.
End commit.

(** The locks that cover everything a write of a key or of a bucket does. *)
Definition all_locks (b k : str) : list (lock * mode) := [(BucketLock b, Exclusive); (KeyLock b k, Exclusive)].

(** Every directory on the way to an object may be made, the bucket's own too. *)
Lemma late_dir_ok b k ns' :
  utf8 k → ns' `prefix_of` dd_names ++ [BUCKETS_DIR; b; OBJECTS_DIR] ++ key_names k →
  dir_ok (mkLocal (all_locks b k) []) [] (resolve dd_head ++ ns').
Proof.
  intros Hk Hp. assert (resolve dd_head ++ ns' `prefix_of` object_path b k) as Hpre.
  { rewrite <- object_path_resolve. by apply prefix_app. }
  set (q := resolve dd_head ++ ns') in *. unfold object_path in Hpre.
  destruct (decide (objects_path b `prefix_of` q)) as [[r Hr]|Hn].
  - right. left. split; [apply not_elem_of_nil|]. exists b, Exclusive, r. split_and!; [by left| |done].
    destruct Hpre as [t Ht]. rewrite Hr, <- app_assoc in Ht. apply app_inv_head in Ht.
    pose proof (key_names_canonical k Hk) as Hc. rewrite Ht in Hc. by apply Forall_app in Hc as [? _].
  - assert (q `prefix_of` objects_path b) as Hp'.
    { destruct (prefix_weak_total q (objects_path b) (objects_path b ++ key_names k)) as [?|?]; [done|by apply prefix_app_r|done|done]. }
    unfold objects_path in Hp'. apply prefix_snoc in Hp' as [Heq|Hp']; [destruct Hn; by rewrite Heq|].
    unfold bucket_path in Hp'. apply prefix_snoc in Hp' as [Heq|Hp'].
    + right. right. split; [apply not_elem_of_nil|]. exists b. split; [by left|done].
    + left. intros d Hs _. eapply wf_prefix_some; [apply Hs|exact Hp'|]. rewrite (lay_buckets _ (so_layout _ Hs)). by eexists.
Qed.

Lemma late_writable b k n u data : utf8 k → object_file n → (n = META_FILE → is_Some (parse_manifest data)) →
  writable (mkLocal (all_locks b k) [u]) (object_path b k ++ [n]) data.
Proof.
  intros Hk Hn Hp x s Hx. eapply mc_file; [by left|by right; left|done..|]. intros Hm bytes s' [= <- <-]. by apply Hp.
Qed.

Definition fit (n : str) (data : str) : Prop := n = META_FILE → is_Some (parse_manifest data).

Lemma steady_commit_object b k n st u (Q : _ → _ → Prop) κ :
  is_valid_bucket_name b = true → utf8 k → object_file n → resolve (path st) = tmp_file u → vouched κ u (fit n) →
  (∀ res κ', Q res κ') →
  steady (commit st (push (FsEngine.object_dir (FsEngine.bucket_dir engine b) k) n)) Q κ.
Proof.
  intros Hb Hk Hn Hp Hv HQ. rewrite object_file_names by (done || by apply object_file_plain).
  eapply (steady_commit dd_head _ n b); [apply dd_head_path|by rewrite object_file_path, object_file_in_bucket| | |done..].
  - intros ns' Hns. by apply late_dir_ok.
  - intros u' data Hd. rewrite <- object_file_in_bucket. by apply late_writable.
Qed.

Lemma steady_write_object b k n value (Q : _ → _ → Prop) κ :
  is_valid_bucket_name b = true → utf8 k → object_file n → (∀ bytes, value = Ok bytes → fit n bytes) →
  (∀ res κ', Q res κ') →
  steady (write_json_atomic (FsEngine.tmp_dir engine) (push (FsEngine.object_dir (FsEngine.bucket_dir engine b) k) n) value) Q κ.
Proof.
  intros Hb Hk Hn Hv HQ. rewrite object_file_names by (done || by apply object_file_plain).
  eapply (steady_write_json dd_head _ n b); [apply dd_head_path|by rewrite object_file_path, object_file_in_bucket| | |exact Hv|done].
  - intros ns' Hns. by apply late_dir_ok.
  - intros u' data Hd. rewrite <- object_file_in_bucket. by apply late_writable.
Qed.

(** ** The requests *)

Lemma steady_existing_bucket_dir b (Q : _ → _ → Prop) κ :
  (is_valid_bucket_name b = true → Q (Ok (FsEngine.bucket_dir engine b)) κ) → (∀ e, Q (Err e) κ) →
  steady (FsEngine.existing_bucket_dir engine b) Q κ.
Proof.
  intros HO HE. unfold FsEngine.existing_bucket_dir, FsEngine.checked_bucket_dir. apply steady_bind.
  destruct (is_valid_bucket_name b) eqn:Hb; cbn [lift steady]; [|by apply HE]. apply steady_bind, steady_attempt.
  intros d Hs Ha. assert (keeps κ κ d d) as Hsame by by split; [..|left].
  split; [|intros e n _]; exists κ; (split; [done|]); cbn; [|case_bool_decide; by apply HE].
  repeat case_match; try by apply HE. by apply HO.
Qed.

(** What was read of a manifest can be written again, whoever wrote meanwhile. *)
Lemma steady_load_manifest p (Q : _ → _ → Prop) κ :
  (∀ m, valid_manifest (default new_manifest m) → (format (default new_manifest m) <= MANIFEST_FORMAT)%N → Q (Ok m) κ) →
  (∀ e, Q (Err e) κ) → steady (load_manifest p) Q κ.
Proof.
  intros HO HE. unfold load_manifest. apply steady_bind, steady_attempt. intros d Hs Ha.
  assert (keeps κ κ d d) as Hsame by by split; [..|left].
  assert (∀ err, steady (if bool_decide (kind err = KNotFound) then ret None else throw err) Q κ) as Herr.
  { intros err. case_bool_decide; [|by apply HE]. apply HO; apply new_manifest_valid. }
  split; [|intros e n _; exists κ; split; [done|apply Herr]]. exists κ.
  destruct (walk (vol d) (resolve p)) as [[|bytes s]|err]; (split; [done|]); cbn [fst]; [apply Herr| |apply Herr].
  apply steady_bind. destruct (from_slice bytes) as [mf|err] eqn:Hp; cbn [map_err lift steady]; [|by apply HE].
  destruct (MANIFEST_FORMAT <? format mf)%N eqn:Hlt; [by apply HE|].
  assert (parse_manifest bytes = Some mf) as Hpm by (unfold parse_manifest; by rewrite Hp, Hlt).
  apply parse_manifest_inv in Hpm as [? ?]. by apply HO.
Qed.

Lemma steady_publish_object b k st u entry (Q : _ → _ → Prop) κ :
  is_valid_bucket_name b = true → utf8 k → valid_entry entry → resolve (path st) = tmp_file u → is_Some (κ !! u) →
  (∀ res κ', Q res κ') →
  steady (FsEngine.publish_object engine (FsEngine.bucket_dir engine b) k st entry) Q κ.
Proof.
  intros Hb Hk Hve Hp [y Hu] HQ. unfold FsEngine.publish_object. cbn zeta. apply steady_bind, steady_mapE.
  apply (steady_commit_object b k _ st u); [done|done|by right|done| |].
  { exists y. split; [done|]. intros m data s _ _ Heq. by destruct (meta_not_data NULL_VERSION_ID). }
  intros [[]|e] κ1; cbn [map_err]; [|apply HQ].
  apply steady_bind, steady_mapE, steady_load_manifest; [|intros e; apply HQ]. intros m Hvm Hfm. cbn [map_err].
  apply steady_bind, steady_mapE. destruct (stored_manifest _ entry Hvm Hfm Hve) as (bytes & Hto & Hparse).
  unfold store_manifest. rewrite Hto. apply (steady_write_object b k META_FILE); [done|done|by left| |].
  - intros bytes' [= <-] _. by rewrite Hparse.
  - intros [[]|e] κ2; cbn [map_err]; apply HQ.
Qed.

Lemma steady_stage_body st u body up (Q : _ → _ → Prop) κ :
  resolve (path st) = tmp_file u → is_Some (κ !! u) → u64 (FsEngine.up_size up) →
  (∀ data κ', collect body = Ok data → is_Some (κ' !! u) → Q (Ok (upload_of up data)) κ') → (∀ e κ', Q (Err e) κ') →
  steady (FsEngine.stage_body st body up) Q κ.
Proof.
  intros Hp. revert up κ Q. induction body as [|[chunk|err] body IH]; intros up κ Q [y Hu] Hup HO HE; cbn [FsEngine.stage_body].
  - cbn. rewrite <- (upload_of_nil up Hup). by apply (HO []).
  - apply steady_bind, steady_mapE. eapply (steady_write_all st u); [done..| |by intros e κ'; apply HE].
    apply IH; [by rewrite lookup_insert_eq|apply hash_chunk_u64| |done].
    intros data κ' Hc Hu'. rewrite upload_of_app. apply (HO (chunk ++ data)); [|done]. cbn [collect]. by rewrite Hc.
  - by apply HE.
Qed.

Lemma steady_put_object b k body opts κ :
  utf8 k → opts_ok opts → steady (FsEngine.put_object engine b k body opts) (λ _ _, True) κ.
Proof.
  intros Hk Hopts. unfold FsEngine.put_object. apply steady_bind, steady_existing_bucket_dir; [|done]. intros Hb.
  apply steady_bind, steady_mapE, steady_create; [|done]. intros st u κ1 _ Hu Hp _. cbn [map_err].
  apply steady_bind, (steady_or_drop st u); [done| |done].
  apply (steady_stage_body st u); [done|by eexists|unfold u64, u64_MAX; cbn; lia| |done].
  intros data κ2 _ Hu2. apply steady_bind. unfold FsEngine.now_epoch_ms. apply steady_bind. intros ns. cbn [steady ret]. apply steady_bind, steady_with_lock, steady_with_lock.
  apply steady_bind, steady_attempt, steady_existing_bucket_dir.
  - intros _. apply steady_bind. eapply (steady_publish_object b k st u); [done|done|by apply entry_for_valid|done|done|].
    by intros [info|e] κ3.
  - intros err. cbn. apply steady_calm; [|done]. apply every_bind; [by eapply calm_drop_staged|done].
Qed.

(** Removals touch no staged file: they are calm as they stand. *)
Lemma calm_remove_object b k : is_valid_bucket_name b = true → utf8 k →
  calmly (FsEngine.remove_object (FsEngine.bucket_dir engine b) k).
Proof.
  intros Hb Hk. set (σ := mkLocal (all_locks b k) []).
  assert (∀ n, object_file n →
    calmly (FsEngine.remove_if_present (push (FsEngine.object_dir (FsEngine.bucket_dir engine b) k) n))) as Hrm.
  { intros n Hn. apply (calm_safe σ); [done|].
    assert (safe σ [] (remove_file (push (FsEngine.object_dir (FsEngine.bucket_dir engine b) k) n))).
    { apply safe_remove_file; [|apply not_elem_of_nil]. rewrite object_file_resolve by (done || by apply object_file_plain).
      eapply removable_file; [by left|by right; left|done..]. }
    unfold FsEngine.remove_if_present. every. }
  unfold FsEngine.remove_object. cbn zeta.
  apply every_bind; [by apply every_mapE, Hrm; left|intros _]. apply every_bind; [by apply every_mapE, Hrm; right|intros _].
  apply (calm_safe σ); [done|]. rewrite object_dir_names, objects_dir_names by done. apply every_bind.
  - unfold FsEngine.prune_empty_dirs. eapply (safe_prune σ [] b); [by left|done|done|]. intros r _. apply not_elem_of_nil.
  - intros _. pose proof safe_try_exists. pose proof safe_sync_dir. apply every_bind.
    + unfold FsEngine.deepest_existing. generalize (names_of ([BUCKETS_DIR; b; OBJECTS_DIR] ++ key_names k)) as p.
      intros p. generalize (S (length p)) as fuel. intros fuel. revert p.
      induction fuel as [|fuel IH]; intros p; cbn [FsEngine.deepest_loop]; every.
    + intros deepest. unfold FsEngine.fsync_dir. every.
Qed.

Lemma steady_delete_object b k κ : utf8 k → steady (FsEngine.delete_object engine b k) (λ _ _, True) κ.
Proof.
  intros Hk. unfold FsEngine.delete_object. apply steady_bind, steady_existing_bucket_dir; [|done]. intros Hb.
  apply steady_with_lock, steady_with_lock, steady_calm; [by apply calm_remove_object|done].
Qed.

(** Taking an entry out of a bucket leaves a readable data directory. *)
Lemma calm_unlink b q : bucket_path b `prefix_of` q → calmly (unlink q).
Proof.
  intros [r ->]. apply every_atomic. intros d Hs. assert (calm d d) as Hsame by by split; [|left]. split; [|done].
  case_bool_decide as Hc; [|done]. cbn. set (q := bucket_path b ++ r).
  assert (∀ p x, delete q (vol d) !! p = Some x → vol d !! p = Some x) as Hsub by (intros p x [_ ?]%lookup_delete_Some; done).
  assert (q ≠ []) as Hq by (unfold q; by intros [? _]%app_eq_nil; apply (bucket_path_not_nil b)).
  assert (∀ p, (∀ r', p ≠ bucket_path b ++ r') → delete q (vol d) !! p = vol d !! p) as Hout.
  { intros p Hp. apply lookup_delete_ne. intros Heq. by apply (Hp r). }
  split; [|intros u; left; apply Hout; intros r'; apply tmp_file_bucket]. destruct Hs as [[Hwf Hcw Ht Hbs Ho] Htr]. split; [split|].
  - apply wf_delete; [done|done|by apply children_nil].
  - rewrite Hout; [done|]. intros r' Heq. apply Ho. rewrite Heq, buckets_below. by apply prefix_app_r.
  - rewrite Hout; [done|]. intros r'. unfold tmp_path. rewrite bucket_path_eq, <- app_assoc. intros Heq%app_inv_head. by injection Heq.
  - rewrite Hout; [done|]. intros r'. rewrite buckets_below. intros Heq%(f_equal length). rewrite length_app in Heq. cbn in Heq. lia.
  - done.
  - intros b' Hb'. eapply bucket_tree_sub; [exact Hsub|]. by apply Htr, Hsub.
Qed.

Lemma calm_remove_dir_all b : is_valid_bucket_name b = true → calmly (remove_dir_all (FsEngine.bucket_dir engine b)).
Proof.
  intros Hb. assert (∀ qs, Forall (λ q, bucket_path b `prefix_of` q) qs → calmly (unlink_all qs)) as Hall.
  { induction 1 as [|q qs Hq _ IH]; cbn [unlink_all]; [done|]. apply every_bind; [by eapply calm_unlink|done]. }
  unfold remove_dir_all. apply every_blocking, every_bind; [apply calm_readonly, readonly_metadata|]. intros n.
  apply every_bind; [by apply calm_readonly, readonly_atomic|]. intros m. destruct n; [|done]. apply Hall.
  apply Forall_forall. intros q. rewrite bucket_dir_resolve, elem_of_subtree by done. by intros [? _].
Qed.

Lemma steady_delete_bucket b κ : steady (FsEngine.delete_bucket engine b) (λ _ _, True) κ.
Proof.
  unfold FsEngine.delete_bucket, FsEngine.checked_bucket_dir. apply steady_bind.
  destruct (is_valid_bucket_name b) eqn:Hb; cbn [lift steady]; [|done].
  apply steady_with_lock, steady_calm; [|done]. pose proof (calm_remove_dir_all b Hb).
  assert (∀ p, calmly (try_exists p)) by (intros p; by apply (calm_safe nothing), safe_try_exists).
  assert (∀ p, calmly (sync_dir p)) by (intros p; by apply (calm_safe nothing), safe_sync_dir).
  assert (∀ p, calmly (FsEngine.has_any_entry p)).
  { intros p. apply calm_readonly. unfold FsEngine.has_any_entry. every. }
  unfold FsEngine.fsync_dir. every.
Qed.

Lemma steady_create_bucket b κ : steady (FsEngine.create_bucket engine b) (λ _ _, True) κ.
Proof.
  unfold FsEngine.create_bucket, FsEngine.checked_bucket_dir. apply steady_bind.
  destruct (is_valid_bucket_name b) eqn:Hb; cbn [lift steady]; [|done]. apply steady_with_lock, steady_bind, steady_attempt.
  set (hs := all_locks b []). set (σ := mkLocal hs []).
  assert (dir_ok σ [] (bucket_path b)) as Hbd.
  { right. right. split; [apply not_elem_of_nil|]. exists b. split; [by left|done]. }
  apply steady_calm.
  { apply (calm_safe σ); [done|]. apply safe_create_dir. by rewrite bucket_dir_resolve. }
  intros [[]|err] κ1 _; [|by case_bool_decide]. apply steady_bind. unfold FsEngine.now_epoch_ms. apply steady_bind.
  intros ns. cbn [steady ret]. apply steady_bind, steady_attempt. rewrite bucket_meta_names by done.
  eapply (steady_write_json dd_head (dd_names ++ [BUCKETS_DIR; b]) BUCKET_META_FILE b [BUCKET_META_FILE] hs (λ _, True));
    [apply dd_head_path|apply bucket_meta_path| | |done|].
  - intros ns' Hp. apply (prefix_app (resolve dd_head)) in Hp. rewrite bucket_path_resolve in Hp.
    unfold bucket_path in Hp. apply prefix_snoc in Hp as [Heq|Hp]; [by rewrite Heq|].
    left. intros d Hs _. eapply wf_prefix_some; [apply Hs|exact Hp|]. rewrite (lay_buckets _ (so_layout _ Hs)). by eexists.
  - intros u data _ x s _. by eapply mc_bucket; [left|..].
  - intros [[]|err] κ2; (apply steady_calm; [|done]).
    + apply every_bind; [|done]. by apply every_mapE, (calm_safe nothing), safe_sync_dir.
    + apply every_bind; [by apply every_attempt, calm_remove_dir_all|done].
Qed.

Lemma steady_program r κ : request_strings r → steady (program engine r) (λ _ _, True) κ.
Proof.
  intros Hr. unfold program.
  destruct r; cbn [answer create_bucket delete_bucket bucket_exists list_buckets put_object get_object head_object
    delete_object list_objects_v2 fs_engine_layer]; cbn in Hr.
  - apply steady_bind. eapply steady_mono; [apply steady_create_bucket|]. by intros [[]|e] κ'.
  - apply steady_bind. eapply steady_mono; [apply steady_delete_bucket|]. by intros [[]|e] κ'.
  - apply steady_calm; [|done]. apply calm_readonly, every_bind; [apply readonly_bucket_exists|done].
  - apply steady_calm; [|done]. apply calm_readonly, every_bind; [apply readonly_list_buckets|done].
  - destruct Hr. apply steady_bind. eapply steady_mono; [by apply steady_put_object|]. by intros [info|e] κ'.
  - apply steady_calm; [|done]. apply calm_readonly, every_bind; [apply readonly_get_object|].
    intros [[[info o] len] st]. by apply every_bind.
  - apply steady_calm; [|done]. apply calm_readonly, every_bind; [apply readonly_head_object|done].
  - apply steady_bind. eapply steady_mono; [by apply steady_delete_object|]. by intros [[]|e] κ'.
  - apply steady_calm; [|done]. apply calm_readonly, every_bind; [apply readonly_list_objects_v2|done].
Qed.

Lemma calm_unwind acts : (∀ u, Unlink u ∈ acts → uuid_ok u) → calmly (unwind engine acts).
Proof.
  induction acts as [|[u|l md] acts IH]; intros Hu; cbn [unwind]; [done| |].
  - destruct (Hu u ltac:(left)) as [Hpl _]. apply every_bind; [|intros _; apply IH; intros u' Hin; apply Hu; by right].
    apply every_attempt. eapply calm_remove_tmp. by apply tmp_file_resolve.
  - apply every_bind; [done|]. intros _. apply IH. intros u' Hin. apply Hu. by right.
Qed.

(** What a cancelled request leaves behind is the beginning of its program. *)
Lemma steady_in_flight inside m Q κ : steady m Q κ → steady (in_flight inside m) (λ _ _, True) κ.
Proof.
  revert inside κ. induction m as [r|Z op part k IH|k IH|k IH|k IH|l md k IH|l md k IH|k IH|k IH]; intros inside κ Hm; cbn in *; try done.
  - intros d Hs Ha. destruct (Hm d Hs Ha) as [(κ1 & H1 & Hk1) Hf]. split.
    + exists κ1. split; [done|]. destruct inside; [by eapply IH|done].
    + intros e n He. destruct (Hf e n He) as (κ2 & H2 & Hk2). exists κ2. split; [done|]. destruct inside; [by eapply IH|done].
  - destruct inside; [|done]. intros n. by eapply IH.
  - by eapply IH.
Qed.

(** ** The pool *)

(** Every thread is steady with the staged files it owns, and no two own the same.
    A call left behind owns those of its request, which by then only removes them. *)
Record pool_steady (K : nat → ledger) (s : pool) : Prop := {
  ps_sound : sound (pdisk s);
  ps_agrees t : agrees (K t) (vol (pdisk s));
  ps_issued t u : is_Some (K t !! u) → u ∈ issued s;
  ps_apart t t' u : t ≠ t' → is_Some (K t !! u) → K t' !! u = None;
  ps_threads t th : threads s !! t = Some th → steady (th_prog th) (λ _ _, True) (K t);
  ps_drawn t th u : threads s !! t = Some th → u ∈ th_drawn th → uuid_ok u;
}.

Definition put_ledger (t : nat) (κ : ledger) (K : nat → ledger) : nat → ledger := λ x, if decide (x = t) then κ else K x.

(** A thread has moved: the disk is kept for it, and its ledger names the same files. *)
Lemma pool_steady_move K s t th th' κ' d' n :
  pool_steady K s → threads s !! t = Some th → keeps (K t) κ' (pdisk s) d' →
  steady (th_prog th') (λ _ _, True) κ' → (∀ u, u ∈ th_drawn th' → uuid_ok u) →
  pool_steady (put_ledger t κ' K) (mkPool d' (<[t := th']> (threads s)) (issued s) n).
Proof.
  intros Hp Ht Hk Hst Hu.
  assert (∀ x u, is_Some (put_ledger t κ' K x !! u) ↔ is_Some (K x !! u)) as Hdom.
  { intros x u. unfold put_ledger. destruct (decide (x = t)) as [->|]; [|done]. rewrite <- !elem_of_dom. by rewrite (kp_dom _ _ _ _ Hk). }
  split; cbn.
  - apply Hk.
  - intros t2. unfold put_ledger. destruct (decide (t2 = t)) as [->|Hne]; [apply Hk|]. intros u c x Hc Hx.
    assert (K t !! u = None) as Hno by (apply (ps_apart K s Hp t2 t); [done|by eexists]).
    destruct (kp_others _ _ _ _ Hk u Hno) as [Heq|Heq]; rewrite Heq in Hx; [|done]. by apply (ps_agrees K s Hp t2 u c x).
  - intros t2 u ?%Hdom. by eapply (ps_issued K s Hp).
  - intros t1 t2 u Hne H1%Hdom. apply eq_None_not_Some. rewrite Hdom. apply eq_None_not_Some. by apply (ps_apart K s Hp t1 t2).
  - intros t2 th2 [[<- <-]|[Hne H2]]%lookup_insert_Some; unfold put_ledger; [by rewrite decide_True|].
    rewrite decide_False by done. by apply (ps_threads K s Hp).
  - intros t2 th2 u [[<- <-]|[Hne H2]]%lookup_insert_Some; [apply Hu|by eapply (ps_drawn K s Hp)].
Qed.

(** A step that leaves the disk alone. *)
Lemma pool_steady_still K s t th' n :
  pool_steady K s → steady (th_prog th') (λ _ _, True) (K t) → (∀ u, u ∈ th_drawn th' → uuid_ok u) →
  pool_steady K (mkPool (pdisk s) (<[t := th']> (threads s)) (issued s) n).
Proof.
  intros Hp Hst Hu. split; cbn; [apply Hp|apply Hp|apply Hp|apply Hp|..].
  - intros t2 th2 [[<- <-]|[Hne H2]]%lookup_insert_Some; [done|by apply (ps_threads K s Hp)].
  - intros t2 th2 u [[<- <-]|[Hne H2]]%lookup_insert_Some; [apply Hu|by eapply (ps_drawn K s Hp)].
Qed.

Lemma pool_steady_uuid K s t th k u :
  pool_steady K s → threads s !! t = Some th → th_prog th = Uuid k → uuid_ok u → u ∉ issued s →
  pool_steady (put_ledger t (<[u := None]> (K t)) K) (mkPool (pdisk s)
    (<[t := mkThread (th_request th) (k u) (th_inside th) (th_held th) (u :: th_drawn th)]> (threads s))
    ({[u]} ∪ issued s) (fresh s)).
Proof.
  intros Hp Ht Hk Hok Hu.
  assert (∀ x, K x !! u = None) as Hnew.
  { intros x. apply eq_None_not_Some. intros Hin. by apply Hu, (ps_issued K s Hp x). }
  assert (∀ x v, is_Some (put_ledger t (<[u := None]> (K t)) K x !! v) → (x = t ∧ v = u) ∨ is_Some (K x !! v)) as Hdom.
  { intros x v. unfold put_ledger. destruct (decide (x = t)) as [->|]; [|by right].
    destruct (decide (v = u)) as [->|Hne]; [by left|]. rewrite lookup_insert_ne by done. by right. }
  split; cbn.
  - apply Hp.
  - intros t2. unfold put_ledger. destruct (decide (t2 = t)) as [->|]; [|apply Hp].
    intros v c x [[_ ?]|[_ Hv]]%lookup_insert_Some; [done|]. by apply (ps_agrees K s Hp t v c x).
  - intros t2 v [[_ ->]|Hv]%Hdom; [set_solver|]. apply elem_of_union_r. by eapply (ps_issued K s Hp).
  - intros t1 t2 v Hne H1. apply eq_None_not_Some. intros H2. apply Hdom in H1 as [[? ?]|H1]; apply Hdom in H2 as [[? ?]|H2]; subst.
    + done.
    + rewrite Hnew in H2. by destruct H2.
    + rewrite Hnew in H1. by destruct H1.
    + rewrite (ps_apart K s Hp t1 t2 v Hne H1) in H2. by destruct H2.
  - pose proof (ps_threads K s Hp t th Ht) as Hst. rewrite Hk in Hst.
    intros t2 th2 [[<- <-]|[Hne H2]]%lookup_insert_Some; unfold put_ledger; [rewrite decide_True by done; by apply Hst|].
    rewrite decide_False by done. by apply (ps_threads K s Hp).
  - intros t2 th2 v [[<- <-]|[Hne H2]]%lookup_insert_Some; [|by eapply (ps_drawn K s Hp)].
    intros [->|Hv]%elem_of_cons; [done|]. by eapply (ps_drawn K s Hp).
Qed.

Lemma pool_steady_advance K s s' : pool_steady K s → advance s s' → ∃ K', pool_steady K' s'.
Proof.
  intros Hp Ha.
  destruct Ha as [t th X op part k Ht Hk|t th X op part k err n Ht Hk He Hn|t th k z Ht Hk|t th k u Ht Hk Huu Hu
    |t th k n Ht Hk|t th l md k Ht Hk Hob|t th l md k Ht Hk|t th k Ht Hk|t th k Ht Hk|t th r Ht Hk];
    pose proof (ps_threads K s Hp t th Ht) as Hst; rewrite Hk in Hst; cbn in Hst;
    pose proof (λ u, ps_drawn K s Hp t th u Ht) as Hdr.
  - destruct (Hst (pdisk s) (ps_sound K s Hp) (ps_agrees K s Hp t)) as [(κ' & Hkp & Hst') _].
    eexists. by eapply pool_steady_move.
  - destruct (Hst (pdisk s) (ps_sound K s Hp) (ps_agrees K s Hp t)) as [_ Hf]. destruct (Hf err n He) as (κ' & Hkp & Hst').
    eexists. by eapply pool_steady_move.
  - exists K. apply pool_steady_still; [done|apply Hst|done].
  - eexists. by eapply pool_steady_uuid.
  - exists K. apply pool_steady_still; [done|apply Hst|done].
  - exists K. apply pool_steady_still; [done|apply Hst|done].
  - exists K. apply pool_steady_still; [done|apply Hst|done].
  - exists K. apply pool_steady_still; [done|apply Hst|done].
  - exists K. apply pool_steady_still; [done|apply Hst|done].
  - exists K. destruct Hp as [? ? ? ? H5 H6]. split; cbn; [done..| |].
    + intros t2 th2 [_ H2]%lookup_delete_Some. by apply H5.
    + intros t2 th2 u [_ H2]%lookup_delete_Some. by eapply H6.
Qed.

(** The staged files of [t] go to [t'], those of [t'] to nobody. *)
Lemma pool_steady_hand_over K s t t' :
  t' ≠ t → threads s !! t' = None → pool_steady K s → (∀ th, threads s !! t = Some th → calmly (th_prog th)) →
  pool_steady (put_ledger t' (K t) (put_ledger t ∅ K)) s.
Proof.
  intros Hne Hnone Hp Hcalm. set (K' := put_ledger t' (K t) (put_ledger t ∅ K)).
  assert (∀ x, (x = t' ∧ K' x = K t) ∨ (x = t ∧ K' x = ∅) ∨ (x ≠ t ∧ x ≠ t' ∧ K' x = K x)) as Hcase.
  { intros x. unfold K', put_ledger. destruct (decide (x = t')); [by left|]. destruct (decide (x = t)); [by right; left|by right; right]. }
  split.
  - apply Hp.
  - intros x. destruct (Hcase x) as [[_ ->]|[[_ ->]|(_ & _ & ->)]]; [apply Hp| |apply Hp]. intros u c y. by rewrite lookup_empty.
  - intros x u. destruct (Hcase x) as [[_ ->]|[[_ ->]|(_ & _ & ->)]]; [apply (ps_issued K s Hp)| |apply (ps_issued K s Hp)].
    rewrite lookup_empty. by intros [? ?].
  - intros x y u Hxy. destruct (Hcase x) as [[-> ->]|[[-> ->]|(H1 & H2 & ->)]]; destruct (Hcase y) as [[-> ->]|[[-> ->]|(H3 & H4 & ->)]];
      rewrite ?lookup_empty; try done; try (by intros [? ?]); by apply (ps_apart K s Hp).
  - intros x th Hx. destruct (Hcase x) as [[-> _]|[[-> ->]|(_ & _ & ->)]]; [congruence| |by apply (ps_threads K s Hp)].
    apply steady_calm; [by apply Hcalm|done].
  - intros x th u. apply (ps_drawn K s Hp).
Qed.

Lemma owns_uuids K s t th acts : pool_steady K s → threads s !! t = Some th → owns th acts → ∀ u, Unlink u ∈ acts → uuid_ok u.
Proof.
  intros Hp Ht Ho u Hu. unfold owns in Ho. rewrite Ho in Hu.
  apply elem_of_app in Hu as [(? & [= ->] & ?)%list_elem_of_fmap|(? & ? & ?)%list_elem_of_fmap]; [|done]. by eapply (ps_drawn K s Hp).
Qed.

Lemma pool_steady_step detach K s s' : pool_steady K s → pool_step engine detach s s' → ∃ K', pool_steady K' s'.
Proof.
  intros Hp [s2 Ha|t r Ht Hfresh Hreq|t th acts Ht Hreq Hin Ho|t th acts t' _ Ht Hreq Ho Ht' Hfresh Hne].
  - by eapply pool_steady_advance.
  - exists K. apply pool_steady_still; [done|by apply steady_program|]. by intros u ?%elem_of_nil.
  - exists K. apply pool_steady_still; [done| |intros u Hu; by eapply (ps_drawn K s Hp t th)].
    apply steady_calm; [|done]. by apply calm_unwind; eapply owns_uuids.
  - pose proof (calm_unwind acts (owns_uuids K s t th acts Hp Ht Ho)) as Hcalm.
    set (th0 := mkThread None (unwind engine acts) false (th_held th) (th_drawn th)).
    assert (pool_steady K (set_thread t th0 s)) as Hp1.
    { apply pool_steady_still; [done|apply steady_calm; done|]. intros u Hu. by eapply (ps_drawn K s Hp t th). }
    exists (put_ledger t' (K t) (put_ledger t ∅ K)). apply pool_steady_still.
    + apply pool_steady_hand_over; [done|cbn; by rewrite lookup_insert_ne|done|]. cbn. rewrite lookup_insert_eq. by intros ? [= <-].
    + unfold put_ledger. rewrite decide_True by done. eapply steady_in_flight, (ps_threads K s Hp). done.
    + by intros u ?%elem_of_nil.
Qed.

Lemma reachable_steady detach d s :
  store_ok (vol d) → pool_reachable engine detach d s → ∃ K, pool_steady K s.
Proof.
  intros Hd. revert s. unfold pool_reachable. apply rtc_ind_r.
  - exists (λ _, ∅). split; cbn; [done|..].
    + intros t u c x. by rewrite lookup_empty.
    + intros t u. rewrite lookup_empty. by intros [? ?].
    + intros t t' u _. rewrite !lookup_empty. by intros [? ?].
    + intros t th Ht. by rewrite lookup_empty in Ht.
    + intros t th u Ht. by rewrite lookup_empty in Ht.
  - intros s s' _ Hs [K Hp]. by eapply pool_steady_step.
Qed.

(** C4: in every interleaving of requests over a data directory the engine can read,
    with any calls refused by the machine and any requests cancelled at any point,
    even if the calls they had under way run on without them and without their
    locks, the data directory is at every moment one the engine can read: the layout
    stands, below every bucket there are only the directories of keys and the files
    of objects, and every manifest parses.  Nothing a kill of the process at that
    moment leaves behind is unreadable. *)
Theorem parallel_store_ok detach d s :
  store_ok (vol d) → pool_reachable engine detach d s → store_ok (vol (pdisk s)).
Proof. intros Hd Hr. destruct (reachable_steady detach d s Hd Hr) as [K Hp]. by apply (ps_sound K s). Qed.
End detach.
