(* ===== verification/ConcFacts.v ===== *)
(** * What holds in every interleaving

    For the requests of the engine, however they are scheduled, whatever calls the
    machine refuses and whichever clients go away, as long as no call outlives the
    request it belongs to ([detach = false]: a call under way when its request is
    cancelled has happened, or never will): an object or a bucket changes only
    under its lock, by a request for it ([changes_under_lock]); and a request that
    reports success did what it reports at a moment between its arrival and its
    answer at which it held its lock ([answers_take_effect]).  Neither holds of calls
    left behind on the blocking pool, which run on without the lock
    ([ConcSamples.late_removal_destroys_object]); that the data directory stays
    readable is shown in [ConcDetach] for those too. *)

From S2P Require Import Prelude RustStr RustPath Paths Checksum EngineError Fs FsFacts Atomic Meta Layer Walk FsBase Listing FsEngine Tidy FsObject FsDelete FsList FsBuckets FsOpen ReadOnly Store Refine Locks Conc Rely ConcStore ConcPut ConcBucket.

Section facts.
Context {E : Env} {D : DataDir} `{!EnvOk E}.
Context {HS : HashCrates} {MD : Md5Crate} {RD : Reads}.
Context `{!Serde VersionManifest, !Serde BucketMeta, !Serde DiskFormat}.
Context `{!HashCratesLaws HS, !Md5Laws MD, !SerdeLaws VersionManifest valid_manifest}.

Lemma reachable_sound d s : sound d → pool_reachable engine false d s → sound (pdisk s).
Proof. intros Hd Hr. exact (pk_inv _ _ _ _ _ _ (reachable_ok sound allowed engine done_post d s Hd Hr)). Qed.

(** ** Cancelled requests *)

(** A call that leaves the buckets alone. *)
Definition spares_buckets X (op : disk → result X io_error * disk) (part : nat → disk → disk) : Prop :=
  ∀ d b r, vol (op d).2 !! (bucket_path b ++ r) = vol d !! (bucket_path b ++ r)
    ∧ ∀ n, vol (part n d) !! (bucket_path b ++ r) = vol d !! (bucket_path b ++ r).

Abbreviation harmless := (every spares_buckets (λ _ _, True)).

Lemma harmless_unwind acts : (∀ u, Unlink u ∈ acts → uuid_ok u) → harmless (unwind engine acts).
Proof.
  induction acts as [|[u|l md] acts IH]; intros Hu; cbn [unwind]; [done| |].
  - destruct (Hu u ltac:(left)) as [Hpl _]. apply every_bind; [|intros _; apply IH; intros u' Hin; apply Hu; by right].
    apply every_attempt, every_atomic. intros d b r. split; [|done]. rewrite tmp_file_resolve by done.
    destruct (walk (vol d) (tmp_file u)) as [[|]|]; [done| |done].
    cbn. apply lookup_delete_ne. apply tmp_file_bucket.
  - split; [done|]. apply IH. intros u' Hin. apply Hu. by right.
Qed.

(** What is left to do for a request that is gone is harmless. *)
Definition gone_ok (ths : gmap nat thread) : Prop :=
  map_Forall (λ _ th, th_request th = None → harmless (th_prog th)) ths.

Lemma advance_gone_ok s s' : advance s s' → gone_ok (threads s) → gone_ok (threads s').
Proof.
  intros Ha Hok. destruct Ha as [t th X op part k Ht Hk|t th X op part k err n Ht Hk|t th k z Ht Hk|t th k u Ht Hk
    |t th k n Ht Hk|t th l md k Ht Hk|t th l md k Ht Hk|t th k Ht Hk|t th k Ht Hk|t th r Ht Hk]; cbn;
    try (apply map_Forall_insert_2; [|done]); try by apply map_Forall_delete.
  all: intros Hr; specialize (Hok t th Ht Hr); rewrite Hk in Hok; cbn in Hok |- *; try apply Hok.
Qed.

Lemma reachable_gone_ok d s : store_ok (vol d) → pool_reachable engine false d s → gone_ok (threads s).
Proof.
  intros Hd. revert s. unfold pool_reachable. apply rtc_ind_r; [apply map_Forall_empty|].
  intros s s' Hr Hs IH. pose proof (reachable_ok sound allowed engine done_post d s Hd Hr) as Hok.
  destruct Hs as [s' Ha|t r Ht Hfresh Hreq|t th acts Ht Hreq Hin Ho|t th acts t' Hdt]; [..|done].
  - by eapply advance_gone_ok.
  - by apply map_Forall_insert_2.
  - apply map_Forall_insert_2; [|done]. intros _. apply harmless_unwind. intros u Hu. unfold owns in Ho. rewrite Ho in Hu.
    apply elem_of_app in Hu as [(? & [= ->] & ?)%list_elem_of_fmap|(? & ? & ?)%list_elem_of_fmap]; [|done].
    by eapply (pk_issued _ _ _ _ _ _ Hok t th).
Qed.

(** ** Who may change what *)

(** A request in progress that holds the lock [l] exclusively, and nobody else
    holds it. *)
Definition alone_with (s : pool) (req : request) (l : lock) : Prop :=
  ∃ t th, threads s !! t = Some th ∧ th_request th = Some req ∧ (l, Exclusive) ∈ th_held th
    ∧ ∀ t' th' md, t' ≠ t → threads s !! t' = Some th' → (l, md) ∉ th_held th'.

Lemma alone_with_intro d s t th req l :
  store_ok (vol d) → pool_reachable engine false d s →
  threads s !! t = Some th → th_request th = Some req → (l, Exclusive) ∈ th_held th → alone_with s req l.
Proof.
  intros Hd Hr Ht Hreq Hl. exists t, th. split_and!; [done..|]. intros t' th' md Hne Ht'.
  pose proof (reachable_ok sound allowed engine done_post d s Hd Hr) as Hok.
  pose proof (pk_apart _ _ _ _ _ _ Hok t t' th th' (not_eq_sym Hne) Ht Ht') as Hap.
  by apply (apart_exclusive _ _ _ _ Hap).
Qed.

(** What a step changes in a bucket is changed by a request, within what its locks
    allow, and the locks are those of its plan. *)
Lemma bucket_step d s s' b r :
  store_ok (vol d) → pool_reachable engine false d s → pool_step engine false s s' →
  vol (pdisk s') !! (bucket_path b ++ r) ≠ vol (pdisk s) !! (bucket_path b ++ r) →
  ∃ t th req, threads s !! t = Some th ∧ th_request th = Some req
    ∧ (∀ x, x ∈ th_held th → x ∈ lock_plan req)
    ∧ may_change (local_of th) (bucket_path b ++ r) (vol (pdisk s) !! (bucket_path b ++ r)) (vol (pdisk s') !! (bucket_path b ++ r)).
Proof.
  intros Hd Hr Hs Hne. pose proof (reachable_ok sound allowed engine done_post d s Hd Hr) as Hok.
  destruct (step_guarantee _ _ _ _ _ _ _ Hok Hs) as (t & th & X & op & part & k & Ht & Hk & Hcall & Hg); [by intros Heq; rewrite Heq in Hne|].
  destruct (Hg (bucket_path b ++ r)) as [?|Hc]; [done|]. exists t, th.
  destruct (th_request th) as [req|] eqn:Hreq.
  - destruct (reachable_threads_ok _ _ _ _ Hr t th Ht) as [todo Hth]. exists req. split_and!; [done|done| |done].
    intros x. by apply (to_held _ _ Hth).
  - exfalso. pose proof (reachable_gone_ok d s Hd Hr t th Ht Hreq) as Hh. rewrite Hk in Hh. destruct Hh as [Hsp _].
    destruct (Hsp (pdisk s) b r) as [H1 H2]. destruct Hcall as [Heq|[n Heq]]; rewrite Heq in Hne; by apply Hne.
Qed.

Lemma plan_key req b k : (KeyLock b k, Exclusive) ∈ lock_plan req →
  (∃ body opts, req = RPutObject b k body opts) ∨ req = RDeleteObject b k.
Proof. destruct req; cbn; rewrite ?elem_of_cons, ?elem_of_nil; naive_solver. Qed.

Lemma plan_bucket req b : (BucketLock b, Exclusive) ∈ lock_plan req → req = RCreateBucket b ∨ req = RDeleteBucket b.
Proof. destruct req; cbn; rewrite ?elem_of_cons, ?elem_of_nil; naive_solver. Qed.

(** A file of an object changes only by a request for its key. *)
Lemma object_file_step d s s' b k n :
  store_ok (vol d) → pool_reachable engine false d s → pool_step engine false s s' → utf8 k → reserved n = true →
  file_at (vol (pdisk s')) (object_path b k ++ [n]) ≠ file_at (vol (pdisk s)) (object_path b k ++ [n]) →
  ∃ req, ((∃ body opts, req = RPutObject b k body opts) ∨ req = RDeleteObject b k)
    ∧ alone_with s req (KeyLock b k).
Proof.
  intros Hd Hr Hs Hk Hn Hne.
  assert (vol (pdisk s') !! (object_path b k ++ [n]) ≠ vol (pdisk s) !! (object_path b k ++ [n])) as Hne'.
  { intros Heq. apply Hne. unfold file_at. by rewrite Heq. }
  rewrite object_file_in_bucket in Hne'. destruct (bucket_step d s s' b _ Hd Hr Hs Hne') as (t & th & req & Ht & Hreq & Hp & Hc).
  unfold file_at in Hne. rewrite object_file_in_bucket in Hne.
  inversion Hc as [u _ Heq _ _|b' k' md n' _ Hl Hk' _ Heq _ _|b' md r' _ Hr' Heq _|b' r' _ Heq Hx].
  - symmetry in Heq. by apply tmp_file_bucket in Heq.
  - rewrite <- object_file_in_bucket in Heq. apply app_inj_tail in Heq as [Heq _]. apply object_path_inj in Heq as [-> ->]; [|done..].
    exists req. split; [by apply plan_key, Hp|]. by eapply alone_with_intro.
  - exfalso. rewrite <- object_file_in_bucket in Heq. unfold object_path in Heq. rewrite <- app_assoc in Heq.
    apply objects_path_inj in Heq as [_ <-]. apply Forall_app in Hr' as [_ Hr']. rewrite Forall_singleton in Hr'.
    apply canonical_not_reserved in Hr'. congruence.
  - exfalso. rewrite <- object_file_in_bucket in Heq. unfold object_path in Heq. rewrite <- app_assoc, objects_in_bucket in Heq.
    apply bucket_path_inj in Heq as [-> <-]. destruct (Hx eq_refl) as [H1 H2]. rewrite H1, H2 in Hne. done.
Qed.

Lemma bucket_dir_step d s s' b :
  store_ok (vol d) → pool_reachable engine false d s → pool_step engine false s s' →
  vol (pdisk s') !! bucket_path b ≠ vol (pdisk s) !! bucket_path b →
  ∃ req, (req = RCreateBucket b ∨ req = RDeleteBucket b) ∧ alone_with s req (BucketLock b).
Proof.
  intros Hd Hr Hs Hne. rewrite <- (app_nil_r (bucket_path b)) in Hne.
  destruct (bucket_step d s s' b [] Hd Hr Hs Hne) as (t & th & req & Ht & Hreq & Hp & Hc).
  inversion Hc as [u _ Heq _ _|b' k' md n' _ _ _ _ Heq _ _|b' md r' _ _ Heq _|b' r' Hl Heq _].
  - symmetry in Heq. by apply tmp_file_bucket in Heq.
  - rewrite object_file_in_bucket in Heq. by apply bucket_path_inj in Heq as [_ ?].
  - rewrite objects_in_bucket in Heq. by apply bucket_path_inj in Heq as [_ ?].
  - apply bucket_path_inj in Heq as [-> _]. exists req. split; [by apply plan_bucket, Hp|]. by eapply alone_with_intro.
Qed.

(** C2: isolation, as long as no call outlives its request.  In every interleaving,
    with calls that fail and requests cancelled at any point, where a call under way
    when its request is cancelled has happened or never will: a step after which a key
    reads differently (its entry, its metadata or its bytes) is taken while a [PUT] or
    a [DELETE] of that key is in progress and holds the key's lock, alone; and a step
    that makes or removes a bucket while a request to create or to delete that
    bucket is in progress and holds the bucket's lock, alone.  So no write of
    another key, no listing and no [delete_bucket] takes away or alters an object
    that is stored.  (The condition is needed: a call that a cancelled request has
    left running on the blocking pool has no lock any more.) *)
Theorem changes_under_lock d s s' :
  store_ok (vol d) → pool_reachable engine false d s → pool_step engine false s s' →
  (∀ b k, utf8 k → object_at (vol (pdisk s')) b k ≠ object_at (vol (pdisk s)) b k →
     ∃ req, ((∃ body opts, req = RPutObject b k body opts) ∨ req = RDeleteObject b k) ∧ alone_with s req (KeyLock b k))
  ∧ (∀ b, vol (pdisk s') !! bucket_path b ≠ vol (pdisk s) !! bucket_path b →
     ∃ req, (req = RCreateBucket b ∨ req = RDeleteBucket b) ∧ alone_with s req (BucketLock b)).
Proof.
  intros Hd Hr Hs. split; [|intros b; by eapply bucket_dir_step]. intros b k Hk Hne.
  set (f n := file_at (vol (pdisk s)) (object_path b k ++ [n])). set (f' n := file_at (vol (pdisk s')) (object_path b k ++ [n])).
  assert (∃ n, reserved n = true ∧ f' n ≠ f n) as (n & Hn & Hfn); [|by eapply (object_file_step d s s' b k n)].
  destruct (decide (f' META_FILE = f META_FILE)) as [Hm|Hm]; [|by exists META_FILE].
  destruct (entry_at (vol (pdisk s)) b k) as [entry|] eqn:Hen.
  - exists (data_file_name (version_id entry)). split; [apply data_name_reserved|]. intros Hdf. apply Hne.
    assert (entry_at (vol (pdisk s')) b k = Some entry) as Hen'.
    { rewrite <- Hen. unfold entry_at, meta_path. by fold (f' META_FILE); rewrite Hm. }
    unfold object_at. rewrite Hen, Hen'. cbn. unfold data_path. by fold (f' (data_file_name (version_id entry))); rewrite Hdf.
  - exfalso. apply Hne. unfold object_at.
    assert (entry_at (vol (pdisk s')) b k = None) as Hen'.
    { rewrite <- Hen. unfold entry_at, meta_path. by fold (f' META_FILE); rewrite Hm. }
    by rewrite Hen, Hen'.
Qed.

(** ** What was reported was done *)

(** The disk as a request leaves it when it lets go of its lock. *)
Definition effect (r : request) (rep : reply) (m : lock → disk → Prop) : Prop :=
  match r, rep with
  | RPutObject b k body opts, Info info =>
      ∃ data ns d0, collect body = Ok data ∧ info = object_info k (entry_for opts data (epoch_ms ns))
        ∧ m (KeyLock b k) d0 ∧ object_at (vol d0) b k = Some (entry_for opts data (epoch_ms ns), data)
  | RDeleteObject b k, _ => ∃ d0, m (KeyLock b k) d0 ∧ object_at (vol d0) b k = None
  | RCreateBucket b, _ => ∃ d0, m (BucketLock b) d0 ∧ bucket_at (vol d0) b ∧ ∀ k, object_at (vol d0) b k = None
  | RDeleteBucket b, _ => ∃ d0, m (BucketLock b) d0 ∧ ¬ bucket_at (vol d0) b
  | _, _ => True
  end.

(** C3: what is reported was done, as long as no call outlives its request.  In every
    interleaving, with calls that fail and requests cancelled at any point, where a
    call under way when its request is cancelled has happened or never will (a removal
    left running could take the data of a [PUT] in progress): a request that is about
    to answer with success has, at a moment between its arrival and its answer at
    which it held its lock, left the store as it reports: a [PUT] left the key
    with exactly the bytes of its body and the entry it describes, a [DELETE] left
    it without an object, a created bucket stood and was empty, a deleted one was
    gone.  (By [changes_under_lock] only a request with that lock moves it on.) *)
Theorem answers_take_effect d s t th r rep :
  store_ok (vol d) → pool_reachable engine false d s →
  threads s !! t = Some th → th_request th = Some r → th_prog th = Done (Ok rep) →
  effect r rep (held_at engine (idle d) s t (Some r)).
Proof.
  intros Hd Hr Ht Hreq Hdone. pose proof (reachable_ok sound allowed engine done_post d s Hd Hr) as Hok.
  destruct (pk_threads _ _ _ _ _ _ Hok t th Ht) as (L & Hp & HL). rewrite Hreq in *. rewrite Hdone in Hp. cbn in Hp.
  assert (∀ l d0, L !! l = Some d0 → sound d0) as Hsd.
  { intros l d0 Hl. destruct (HL l d0 Hl) as (s1 & th1 & md & H1 & _ & _ & _ & _ & <-). by apply reachable_sound with d. }
  destruct r; try done; cbn.
  - destruct Hp as (d0 & Hl & Hb & Hno). exists d0. split_and!; [by apply HL|done|]. intros k. apply object_gone.
    rewrite meta_path_eq. apply no_object_below; [apply (Hsd _ _ Hl)|done|]. by destruct (key_names k).
  - destruct Hp as (d0 & Hl & Hb). exists d0. split; [by apply HL|]. unfold bucket_at. by rewrite Hb.
  - destruct rep; try done. destruct Hp as (data & ns & d0 & Hc & Hi & Hl & Ho). exists data, ns, d0. split_and!; auto.
  - destruct Hp as (d0 & Hl & Hm). exists d0. split; [by apply HL|by apply object_gone].
Qed.
End facts.
