(* ===== verification/ConcLocks.v ===== *)
(** * The locks of a request

    A request does its work under the locks of its plan ([lock_plan]): it takes them
    in order, it changes a bucket only while it holds all of them, and it does not
    report success without having held them.  [guarded] says so of a program, and
    the theorem of every request in progress, in every interleaving. *)

From S2P Require Import Prelude RustStr RustPath Paths Checksum EngineError Fs FsFacts Atomic Meta Layer Walk FsBase Listing FsEngine Tidy FsObject FsDelete FsList FsBuckets FsOpen ReadOnly Store Refine Locks Conc Rely ConcStore ConcPut ConcBucket ConcFacts.

#[local] Hint Extern 1 (every _ _ (syscall _ _)) => (by apply every_syscall) : every.
#[local] Hint Extern 1 (every _ _ (atomic _)) => (by apply every_atomic) : every.

Section guarded.
Context {E : Env} {D : DataDir} `{!EnvOk E}.

(** Run with the locks [held] in hand, the program makes a call that may change a
    bucket only while it holds exactly [full]; [seen] records whether it has held
    [full], and [Q] what is left in hand and what was seen at the end. *)
Fixpoint guarded {X A} (full held : list (lock * mode)) (seen : bool) (m : M X A)
    (Q : result A X → list (lock * mode) → bool → Prop) : Prop :=
  match m with
  | Done r => Q r held seen
  | Sys op part k => (held = full ∨ spares_buckets _ op part) ∧ ∀ r, guarded full held seen (k r) Q
  | Now k => ∀ z, guarded full held seen (k z) Q
  | Uuid k => ∀ u, uuid_ok u → guarded full held seen (k u) Q
  | Bound k => ∀ n, guarded full held seen (k n) Q
  | Acquire l md k => guarded full ((l, md) :: held) (seen || bool_decide ((l, md) :: held = full)) k Q
  | Release l md k => guarded full (drop_lock (l, md) held) seen k Q
  | Enter k | Leave k => guarded full held seen k Q
  end.

Section rules.
Context (full : list (lock * mode)).

Lemma guarded_mono {X A} (m : M X A) held seen (Q Q' : _ → _ → _ → Prop) :
  guarded full held seen m Q → (∀ r h s, Q r h s → Q' r h s) → guarded full held seen m Q'.
Proof. intros Hm HQ. revert held seen Hm. induction m; intros held seen; cbn; try naive_solver. Qed.

Lemma guarded_andThen {X Y A B} (m : M X A) (k : result A X → M Y B) held seen Q :
  guarded full held seen m (λ r h s, guarded full h s (k r) Q) → guarded full held seen (andThen m k) Q.
Proof. revert held seen. induction m; intros held seen; cbn; naive_solver. Qed.

Lemma guarded_bind {X A B} (m : M X A) (k : A → M X B) held seen Q :
  guarded full held seen m (λ r h s, match r with Ok a => guarded full h s (k a) Q | Err e => Q (Err e) h s end) →
  guarded full held seen (bind m k) Q.
Proof. intros Hm. apply guarded_andThen. eapply guarded_mono; [exact Hm|]. by intros [a|e]. Qed.

Lemma guarded_mapE {X Y A} (f : X → Y) (m : M X A) held seen Q :
  guarded full held seen m (λ r, Q (map_err f r)) → guarded full held seen (mapE f m) Q.
Proof. intros Hm. by apply guarded_andThen. Qed.

Lemma guarded_with_lock {X A} l md (m : M X A) held seen (Q : _ → _ → _ → Prop) :
  (l, md) ∉ held →
  guarded full ((l, md) :: held) (seen || bool_decide ((l, md) :: held = full)) m
    (λ r h s, h = (l, md) :: held ∧ Q r held s) →
  guarded full held seen (FsEngine.with_lock l md m) Q.
Proof.
  intros Hno Hm. unfold FsEngine.with_lock. apply guarded_bind. cbn [FsEngine.acquire guarded ret].
  apply guarded_bind, guarded_andThen. eapply guarded_mono; [exact Hm|]. intros r h s [-> HQ]. cbn [guarded ret].
  apply guarded_bind. cbn [FsEngine.release guarded ret lift]. by rewrite drop_lock_head.
Qed.

(** Without locks of its own a program may do anything while all locks are held. *)
Lemma guarded_full {X A} (m : M X A) seen (Q : _ → _ → _ → Prop) :
  unlocked m → (∀ r, Q r full seen) → guarded full full seen m Q.
Proof. intros Hm HQ. induction m; cbn in *; naive_solver. Qed.

(** And at any time if it leaves the buckets alone. *)
Lemma guarded_sparing {X A} (m : M X A) held seen (Q : _ → _ → _ → Prop) :
  every spares_buckets (λ _ _, False) m → (∀ r, Q r held seen) → guarded full held seen m Q.
Proof. intros Hm HQ. induction m; cbn in *; naive_solver. Qed.

Lemma guarded_reading {X A} (m : M X A) held seen (Q : _ → _ → _ → Prop) :
  readonly m → unlocked m → (∀ r, Q r held seen) → guarded full held seen m Q.
Proof.
  intros Hm Hu HQ. induction m; cbn in *; try naive_solver.
  destruct Hm as [[Ho Hp] Hm]. split; [|naive_solver]. right. intros d b r'. rewrite Ho. split; [done|]. intros n. by rewrite Hp.
Qed.
End rules.

(** ** Staged files *)

Lemma sparing_open_tmp u : uuid_ok u →
  every spares_buckets (λ _ _, False) (open_new (push (FsEngine.tmp_dir engine) (u ++ b#".tmp"))).
Proof.
  intros [Hpl _]. apply every_atomic. intros d b r. split; [|done]. cbn zeta. rewrite tmp_file_resolve by done.
  destruct (walk_new (vol d) (tmp_file u)) as [[]|]; [|done]. destruct (vol d !! tmp_file u); [done|].
  cbn. apply lookup_insert_ne, tmp_file_bucket.
Qed.

Lemma sparing_write st u buf : resolve (path st) = tmp_file u → every spares_buckets (λ _ _, False) (write_all st buf).
Proof.
  intros Hp. assert (∀ s d b r, vol (append_bytes (tmp_file u) s d) !! (bucket_path b ++ r) = vol d !! (bucket_path b ++ r)) as Ha.
  { intros s d b r. unfold append_bytes. destruct (vol d !! tmp_file u) as [[|data s']|]; [done| |done].
    cbn. apply lookup_insert_ne, tmp_file_bucket. }
  apply every_syscall. intros d b r. rewrite Hp. split; [apply Ha|]. intros n. apply Ha.
Qed.

Lemma sparing_drop {F} st u : resolve (path st) = tmp_file u → every spares_buckets (λ _ _, False) (drop_staged (F:=F) st).
Proof.
  intros Hp. unfold drop_staged. destruct (committed st); [done|]. apply every_bind; [|done].
  apply every_attempt, every_atomic. intros d b r. split; [|done]. rewrite Hp.
  destruct (walk (vol d) (tmp_file u)) as [[|]|]; [done| |done]. cbn. apply lookup_delete_ne, tmp_file_bucket.
Qed.

Lemma guarded_create full held seen (Q : result StagedFile io_error → _ → _ → Prop) :
  (∀ st u, resolve (path st) = tmp_file u → Q (Ok st) held seen) → (∀ e, Q (Err e) held seen) →
  guarded full held seen (create (FsEngine.tmp_dir engine)) Q.
Proof.
  intros HO HE. unfold create. apply guarded_bind. cbn [new_uuid guarded ret]. intros u Hu. cbn zeta.
  apply guarded_bind, guarded_sparing; [by apply sparing_open_tmp|]. intros [[]|e]; [|apply HE].
  apply (HO _ u). apply tmp_file_resolve, Hu.
Qed.

Context {HS : HashCrates} {MD : Md5Crate} {RD : Reads}.
Context `{!Serde VersionManifest, !Serde BucketMeta, !Serde DiskFormat}.

Lemma sparing_stage st u body up : resolve (path st) = tmp_file u →
  every spares_buckets (λ _ _, False) (or_drop st (FsEngine.stage_body st body up)).
Proof.
  intros Hp. pose proof (sparing_drop (F:=EngineError) st u Hp) as Hd.
  assert (∀ l up, every spares_buckets (λ _ _, False) (FsEngine.stage_body st l up)) as Hs.
  { induction l as [|[c|err] l IH]; intros up'; cbn [FsEngine.stage_body]; [done| |done].
    apply every_bind; [by eapply every_mapE, sparing_write|]. intros _. apply IH. }
  unfold or_drop. apply every_bind; [by apply every_attempt|]. intros [a|e]; [done|]. by apply every_bind.
Qed.

(** ** The requests *)

(** All locks of [r] were held when it reports success. *)
Abbreviation guarded_plan r m :=
  (guarded (reverse (lock_plan r)) [] (bool_decide ([] = reverse (lock_plan r))) m (λ res _ seen, ∀ a, res = Ok a → seen = true)).

Lemma guarded_put b k body opts :
  guarded_plan (RPutObject b k body opts) (FsEngine.put_object engine b k body opts).
Proof.
  pose proof unlocked_existing_bucket_dir. pose proof unlocked_commit. pose proof unlocked_write_json_atomic.
  unfold FsEngine.put_object. apply guarded_bind, guarded_reading; [apply readonly_existing_bucket_dir|done|].
  intros [dir|e]; [|done]. apply guarded_bind, guarded_mapE, guarded_create; [|done]. intros st u Hp. cbn [map_err].
  apply guarded_bind, guarded_sparing; [by eapply sparing_stage|]. intros [up|e]; [|done].
  apply guarded_bind, guarded_bind. intros ns. cbn [guarded ret]. cbn zeta.
  apply guarded_bind, guarded_with_lock; [apply not_elem_of_nil|]. apply guarded_with_lock; [set_solver|].
  apply guarded_full.
  { unfold FsEngine.publish_object, load_manifest, read, store_manifest. cbn zeta. every. }
  intros r. split; [done|]. split; [done|]. cbn beta iota.
  rewrite (bool_decide_eq_true_2 ([_; _] = reverse (lock_plan (RPutObject b k body opts)))), orb_true_r by done.
  destruct r as [[info|e]|e]; [done| |done]. apply guarded_sparing; [|done]. apply every_bind; [by eapply sparing_drop|done].
Qed.

Lemma guarded_delete b k : guarded_plan (RDeleteObject b k) (FsEngine.delete_object engine b k).
Proof.
  pose proof unlocked_existing_bucket_dir. pose proof unlocked_try_exists. pose proof unlocked_sync_dir.
  assert (∀ n p q, unlocked (FsEngine.prune_loop (F:=EngineError) n p q)).
  { induction n as [|n IH]; intros p q; cbn [FsEngine.prune_loop]; unfold remove_dir; every. }
  assert (∀ n p q, unlocked (FsEngine.deepest_loop (F:=EngineError) n p q)).
  { induction n as [|n IH]; intros p q; cbn [FsEngine.deepest_loop]; every. }
  unfold FsEngine.delete_object. apply guarded_bind, guarded_reading; [apply readonly_existing_bucket_dir|done|].
  intros [dir|e]; [|done].
  apply guarded_with_lock; [apply not_elem_of_nil|]. apply guarded_with_lock; [set_solver|]. apply guarded_full.
  { unfold FsEngine.remove_object, FsEngine.prune_empty_dirs, FsEngine.deepest_existing,
      FsEngine.remove_if_present, remove_file, FsEngine.fsync_dir. cbn zeta. every. }
  intros r. split; [done|]. split; [done|]. intros a _.
  by rewrite (bool_decide_eq_true_2 ([_; _] = reverse (lock_plan (RDeleteObject b k)))), orb_true_r.
Qed.

Lemma guarded_bucket_lock {A} r b md (m : M EngineError A) :
  lock_plan r = [(BucketLock b, md)] → unlocked m → guarded_plan r (FsEngine.with_lock (BucketLock b) md m).
Proof.
  intros Hr Hm. rewrite Hr. apply guarded_with_lock; [apply not_elem_of_nil|]. apply guarded_full; [done|].
  intros res. split; [done|]. intros a _.
  by rewrite (bool_decide_eq_true_2 ([_] = reverse [_])), orb_true_r.
Qed.

Lemma guarded_create_bucket b : guarded_plan (RCreateBucket b) (FsEngine.create_bucket engine b).
Proof.
  pose proof unlocked_write_json_atomic. pose proof unlocked_remove_dir_all. pose proof unlocked_sync_dir.
  unfold FsEngine.create_bucket. apply guarded_bind, guarded_sparing; [every|]. intros [dir|e]; [|done].
  apply guarded_bucket_lock; [done|]. unfold create_dir, FsEngine.now_epoch_ms, FsEngine.fsync_dir. every.
Qed.

Lemma guarded_delete_bucket b : guarded_plan (RDeleteBucket b) (FsEngine.delete_bucket engine b).
Proof.
  pose proof unlocked_try_exists. pose proof unlocked_remove_dir_all. pose proof unlocked_sync_dir.
  unfold FsEngine.delete_bucket. apply guarded_bind, guarded_sparing; [every|]. intros [dir|e]; [|done].
  apply guarded_bucket_lock; [done|]. unfold FsEngine.has_any_entry, read_dir, FsEngine.fsync_dir. every.
Qed.

Lemma guarded_list b p : guarded_plan (RListObjects b p) (FsEngine.list_objects_v2 engine b p).
Proof.
  pose proof unlocked_existing_bucket_dir. pose proof unlocked_sorted_keys. pose proof unlocked_live_version.
  assert (∀ p, unlocked (FsEngine.listable_version p)) by (unfold FsEngine.listable_version; every).
  assert (∀ look, (∀ k, unlocked (look k)) → ∀ ks out, unlocked (list_loop look p ks out)).
  { intros look Hl. induction ks as [|key ks IH]; intros out; cbn [list_loop]; every. }
  unfold FsEngine.list_objects_v2, list_page. apply guarded_bind, guarded_sparing; [every|]. intros [dir|e]; [|done].
  apply guarded_bucket_lock; [done|]. every.
Qed.

(** A request and what it answers. *)
Lemma guarded_answer {A} r (m : M EngineError A) (f : A → M EngineError reply) :
  guarded_plan r m → (∀ a, every spares_buckets (λ _ _, False) (f a)) → guarded_plan r (bind m f).
Proof.
  intros Hm Hf. apply guarded_bind. eapply guarded_mono; [exact Hm|]. intros [a|err] h s Hs; [|done].
  apply guarded_sparing; [done|]. intros res a' _. by eapply Hs.
Qed.

Lemma guarded_program r : guarded_plan r (program engine r).
Proof.
  destruct r; cbn [program answer create_bucket delete_bucket
    bucket_exists list_buckets put_object get_object head_object delete_object list_objects_v2 fs_engine_layer].
  - apply guarded_answer; [apply guarded_create_bucket|every].
  - apply guarded_answer; [apply guarded_delete_bucket|every].
  - apply guarded_reading; [|pose proof unlocked_metadata; unfold FsEngine.bucket_exists; every|done].
    apply every_bind; [apply readonly_bucket_exists|done].
  - apply guarded_reading; [|pose proof unlocked_list_buckets; every|done].
    apply every_bind; [apply readonly_list_buckets|done].
  - apply guarded_answer; [apply guarded_put|every].
  - apply guarded_reading; [|pose proof unlocked_get_object; every|done].
    apply every_bind; [apply readonly_get_object|]. intros [[[info o] len] st]. by apply every_bind.
  - apply guarded_reading; [|pose proof unlocked_existing_bucket_dir; pose proof unlocked_live_version;
      unfold FsEngine.head_object; every|done].
    apply every_bind; [apply readonly_head_object|done].
  - apply guarded_answer; [apply guarded_delete|every].
  - apply guarded_answer; [apply guarded_list|every].
Qed.

(** ** On the pool *)

Context (detach : bool).

(** At a moment on the way from [s0] to [s] the request [r], as thread [t], held all
    locks of its plan at once. *)
Definition held_all (s0 s : pool) (t : nat) (r : request) : Prop :=
  ∃ s1 th1, rtc (pool_step engine detach) s0 s1 ∧ rtc (pool_step engine detach) s1 s
    ∧ threads s1 !! t = Some th1 ∧ th_request th1 = Some r ∧ th_held th1 = reverse (lock_plan r).

Definition guards_ok (s0 s : pool) : Prop :=
  ∀ t th r, threads s !! t = Some th → th_request th = Some r →
    ∃ seen, guarded (reverse (lock_plan r)) (th_held th) seen (th_prog th) (λ res _ seen, ∀ a, res = Ok a → seen = true)
      ∧ (seen = true → held_all s0 s t r).

Lemma held_all_step s0 s s' t r : pool_step engine detach s s' → held_all s0 s t r → held_all s0 s' t r.
Proof. intros Hs (s1 & th1 & H1 & H2 & H3). exists s1, th1. split_and!; [done|by eapply rtc_r|apply H3..]. Qed.

(** One thread has moved. *)
Lemma guards_ok_move s0 s t th' d' iss n :
  let s' := mkPool d' (<[t := th']> (threads s)) iss n in
  pool_step engine detach s s' → guards_ok s0 s →
  (∀ r, th_request th' = Some r → ∃ seen,
     guarded (reverse (lock_plan r)) (th_held th') seen (th_prog th') (λ res _ seen, ∀ a, res = Ok a → seen = true)
     ∧ (seen = true → held_all s0 s' t r)) →
  guards_ok s0 s'.
Proof.
  intros s' Hs Hok Ht t2 th2 r. cbn. intros [[<- <-]|[_ H2]]%lookup_insert_Some; [apply Ht|]. intros Hr.
  destruct (Hok t2 th2 r H2 Hr) as (seen & Hg & Hseen). exists seen. split; [done|]. intros Hse.
  eapply held_all_step; [done|auto].
Qed.

Lemma advance_guards_ok s0 s s' :
  rtc (pool_step engine detach) s0 s → advance s s' → guards_ok s0 s → guards_ok s0 s'.
Proof.
  intros Hr0 Ha Hok. pose proof (step_advance engine detach s s' Ha) as Hstep.
  assert (∀ t r seen, (seen = true → held_all s0 s t r) → seen = true → held_all s0 s' t r) as Hlater.
  { intros t r seen Hs Hse. eapply held_all_step; [done|auto]. }
  destruct Ha as [t th X op part k Ht Hk|t th X op part k err n Ht Hk He Hn|t th k z Ht Hk|t th k u Ht Hk Hu Hnew|t th k n Ht Hk
    |t th l md k Ht Hk Hob|t th l md k Ht Hk|t th k Ht Hk|t th k Ht Hk|t th res Ht Hk].
  all: try (apply guards_ok_move; [done|done|]; intros r Hr; cbn in Hr;
    destruct (Hok t th r Ht Hr) as (seen & Hg & Hseen); rewrite Hk in Hg; cbn in Hg |- *;
    first [by exists seen; (split; [by apply Hg|by apply Hlater]) | idtac]).
  - eexists. split; [exact Hg|]. intros [Hse|Heq%bool_decide_eq_true]%orb_true_iff; [by eapply Hlater|].
    eexists _, _. split_and!; [by eapply rtc_r|done|cbn; apply lookup_insert_eq|done|exact Heq].
  - intros t2 th2 r. cbn. intros [_ H2]%lookup_delete_Some Hr. destruct (Hok t2 th2 r H2 Hr) as (seen & Hg & Hseen).
    exists seen. split; [done|by apply Hlater].
Qed.

Lemma reachable_guards_ok d s : pool_reachable engine detach d s → guards_ok (idle d) s.
Proof.
  revert s. unfold pool_reachable. apply rtc_ind_r.
  { intros t th r Ht. cbn in Ht. by rewrite lookup_empty in Ht. }
  intros s s' Hr Hs Hok. pose proof Hs as Hstep.
  destruct Hs as [s' Ha|t r Ht Hfresh Hreq|t th acts Ht Hreq Hin Ho|t th acts t' _ Ht Hreq Ho Ht' Hfresh Hne].
  - by eapply advance_guards_ok.
  - apply guards_ok_move; [done|done|]. intros r' [= <-]. eexists. split; [apply guarded_program|].
    intros Heq%bool_decide_eq_true. eexists _, _. split_and!; [by eapply rtc_r|done|cbn; apply lookup_insert_eq|done|exact Heq].
  - apply guards_ok_move; [done|done|]. by intros r'.
  - intros t2 th2 r. cbn. intros [[_ <-]|[_ [[_ <-]|[_ H2]]%lookup_insert_Some]]%lookup_insert_Some Hreq2; [done..|].
    destruct (Hok t2 th2 r H2 Hreq2) as (seen & Hg & Hseen). exists seen. split; [done|]. intros Hse.
    eapply held_all_step; [done|auto].
Qed.

(** C7: the requests work under the locks of their plan, which is the one the
    protocol of the lock tables ([Locks]) assumes: a bucket exclusively to create or
    delete it, shared to list it, shared and then the key to write it, none to read
    an object or to look for a bucket.  In every interleaving, with calls left in
    flight too, of each request in progress: a lock it waits for is the next one of
    its plan after those it holds, in order; it holds no lock outside its plan, and
    none when it is done; a call it is about to make that could change anything at or
    below the directory of a bucket it makes while it holds all locks of its plan;
    and if it is about to report success, it has held all of them at once since it
    arrived. *)
Theorem requests_follow_plan d s t th r :
  pool_reachable engine detach d s → threads s !! t = Some th → th_request th = Some r →
  (∀ l md, waits_for th = Some (l, md) →
     ∃ todo, reverse (th_held th) ++ (l, md) :: todo = lock_plan r)
  ∧ (∀ x, x ∈ th_held th → x ∈ lock_plan r)
  ∧ (∀ res, th_prog th = Done res → th_held th = [])
  ∧ (∀ X (op : disk → result X io_error * disk) part k, th_prog th = Sys op part k →
       th_held th = reverse (lock_plan r) ∨ spares_buckets X op part)
  ∧ (∀ rep, th_prog th = Done (Ok rep) → held_all (idle d) s t r).
Proof.
  intros Hr Ht Hreq. destruct (follow_plan engine detach d s t th r Hr Ht Hreq) as (H1 & H2 & H3).
  destruct (reachable_guards_ok d s Hr t th r Ht Hreq) as (seen & Hg & Hseen).
  split_and!; [done..| |].
  - intros X op part k Hk. rewrite Hk in Hg. apply Hg.
  - intros rep Hk. rewrite Hk in Hg. cbn in Hg. eapply Hseen, Hg. done.
Qed.
End guarded.
