(* ===== verification/ConcReads.v ===== *)
(** * Reads, among other requests

    A read takes no lock of its key: it looks at the disk a few times, and the disk may move
    between two looks.  [sees] runs a program against any disks and collects those it
    looked at; on the pool these are the disks of moments between the request's
    arrival and its answer, in that order ([watched]).  A [HEAD] answers what the key
    was at one such moment; a [GET] answers the entry of one and the bytes of a
    later one; a listing, which holds the bucket's lock shared while writers do too,
    sees each key as of whenever it reached it. *)

From S2P Require Import Prelude RustStr RustPath Paths Checksum EngineError Fs FsFacts Atomic Meta Layer Walk FsBase Listing FsEngine Tidy FsObject FsDelete FsList FsBuckets FsOpen ReadOnly Store Refine Locks Conc Rely ConcStore ConcPut ConcBucket ConcDetach.

(** ** What a program looks at *)

(** Whatever sound disks the calls of the program find, [Q] holds of its result and
    of the disks it looked at, the last one first; a call that the machine refuses
    looks at nothing. *)
Fixpoint sees {X A} (I : disk → Prop) (m : M X A) (Q : result A X → list disk → Prop) (ds : list disk) : Prop :=
  match m with
  | Done r => Q r ds
  | Sys op _ k =>
      (∀ d, I d → sees I (k (op d).1) Q (d :: ds))
      ∧ ∀ e, environmental (kind e) → get_ref e = None → sees I (k (Err e)) Q ds
  | Now k => ∀ z, sees I (k z) Q ds
  | Uuid k => ∀ u, sees I (k u) Q ds
  | Bound k => ∀ n, sees I (k n) Q ds
  | Acquire _ _ k | Release _ _ k | Enter k | Leave k => sees I k Q ds
  end.

Section sees.
Context (I : disk → Prop).

Lemma sees_mono {X A} (m : M X A) (Q Q' : result A X → list disk → Prop) ds :
  sees I m Q ds → (∀ r ds', Q r ds' → Q' r ds') → sees I m Q' ds.
Proof. intros Hm HQ. revert ds Hm. induction m; intros ds; cbn; try naive_solver. Qed.

Lemma sees_True {X A} (m : M X A) ds : sees I m (λ _ _, True) ds.
Proof. revert ds. induction m; intros ds; cbn; auto. Qed.

Lemma sees_andThen {X Y A B} (m : M X A) (k : result A X → M Y B) Q ds :
  sees I m (λ r ds', sees I (k r) Q ds') ds → sees I (andThen m k) Q ds.
Proof. revert ds. induction m; intros ds; cbn; naive_solver. Qed.

Lemma sees_bind {X A B} (m : M X A) (k : A → M X B) Q ds :
  sees I m (λ r ds', match r with Ok a => sees I (k a) Q ds' | Err e => Q (Err e) ds' end) ds → sees I (bind m k) Q ds.
Proof. intros Hm. apply sees_andThen. eapply sees_mono; [exact Hm|]. by intros [a|e]. Qed.

Lemma sees_attempt {X Y A} (m : M X A) Q ds : sees I m (λ r, Q (Ok r)) ds → sees I (attempt m : M Y _) Q ds.
Proof. intros Hm. by apply sees_andThen. Qed.

Lemma sees_mapE {X Y A} (f : X → Y) (m : M X A) Q ds : sees I m (λ r, Q (map_err f r)) ds → sees I (mapE f m) Q ds.
Proof. intros Hm. by apply sees_andThen. Qed.

Lemma sees_lift {X A} (r : result A X) (Q : result A X → list disk → Prop) ds : Q r ds → sees I (lift r) Q ds.
Proof. by destruct r. Qed.
End sees.

Section reads.
Context {E : Env} {D : DataDir} `{!EnvOk E}.
Context {HS : HashCrates} {MD : Md5Crate} {RD : Reads}.
Context `{!Serde VersionManifest, !Serde BucketMeta, !Serde DiskFormat}.
Context `{!HashCratesLaws HS, !Md5Laws MD, !SerdeLaws VersionManifest valid_manifest}.

Lemma environmental_found e : environmental (kind e) → bool_decide (kind e = KNotFound) = false.
Proof. intros [He|He]; by rewrite He. Qed.

(** ** The helpers of the reads *)

Lemma sees_existing_bucket_dir b (Q : result PathBuf EngineError → list disk → Prop) ds :
  (∀ d, is_valid_bucket_name b = true → sound d → bucket_at (vol d) b → Q (Ok (FsEngine.bucket_dir engine b)) (d :: ds)) →
  (∀ e ds', e ≠ NoSuchBucket → e ≠ NoSuchKey → Q (Err e) ds') →
  (∀ d, sound d → ¬ bucket_at (vol d) b → Q (Err NoSuchBucket) (d :: ds)) →
  sees sound (FsEngine.existing_bucket_dir engine b) Q ds.
Proof.
  intros HO HE HN. unfold FsEngine.existing_bucket_dir, FsEngine.checked_bucket_dir. apply sees_bind.
  destruct (is_valid_bucket_name b) eqn:Hb; cbn [lift sees]; [|by apply HE].
  apply sees_bind, sees_attempt. split.
  - intros d Hs. cbn [fst]. rewrite bucket_dir_resolve by done. destruct (walk (vol d) (bucket_path b)) as [[|data s]|err] eqn:Hw.
    + apply HO; [done..|]. by apply walk_Ok in Hw.
    + apply HN; [done|]. apply walk_Ok in Hw. unfold bucket_at. by rewrite Hw.
    + cbn. case_bool_decide; [|by apply HE; unfold from_io; case_match]. apply HN; [done|].
      apply walk_Err in Hw; [|apply Hs]. unfold bucket_at. by rewrite Hw.
  - intros e He _. cbn. rewrite environmental_found by done. by apply HE; unfold from_io; case_match.
Qed.

Lemma sees_live_version b k (Q : result VersionEntry EngineError → list disk → Prop) ds :
  is_valid_bucket_name b = true → utf8 k →
  (∀ d entry, sound d → entry_at (vol d) b k = Some entry → Q (Ok entry) (d :: ds)) →
  (∀ e ds', e ≠ NoSuchBucket → e ≠ NoSuchKey → Q (Err e) ds') →
  (∀ d, sound d → entry_at (vol d) b k = None → Q (Err NoSuchKey) (d :: ds)) →
  sees sound (FsEngine.live_version (FsEngine.object_dir (FsEngine.bucket_dir engine b) k)) Q ds.
Proof.
  intros Hb Hk HO HE HN. unfold FsEngine.live_version, load_manifest.
  apply sees_bind, sees_mapE, sees_bind, sees_attempt.
  assert (∀ err ds', Q (Err (from_io err)) ds') as Hio by (intros err ds'; apply HE; unfold from_io; case_match; done).
  split.
  - intros d Hs. rewrite object_file_resolve by (done || apply meta_file_plain). fold (meta_path b k).
    destruct (walk (vol d) (meta_path b k)) as [[|bytes s]|err] eqn:Hw; cbn [fst andThen].
    + apply Hio.
    + assert (file_at (vol d) (meta_path b k) = Some bytes) as Hf by (apply file_at_Some; exists s; by apply walk_Ok).
      apply sees_bind. destruct (from_slice bytes) as [mf|err] eqn:Hp; cbn [map_err lift sees]; [|apply Hio].
      destruct (MANIFEST_FORMAT <? format mf)%N eqn:Hlt; [apply Hio|]. cbn [sees ret map_err].
      apply sees_bind. cbn [ok_or lift sees].
      assert (entry_at (vol d) b k = (e ← latest mf; if delete_marker e then None else Some e)) as Hen.
      { unfold entry_at. rewrite Hf. cbn. unfold parse_manifest. by rewrite Hp, Hlt. }
      destruct (latest mf) as [e|]; cbn in Hen; [|by apply HN]. destruct (delete_marker e); [by apply HN|by apply HO].
    + cbn. case_bool_decide; [|apply Hio]. apply HN; [done|]. apply walk_Err in Hw; [|apply Hs].
      unfold entry_at, file_at. by rewrite Hw.
  - intros e He _. cbn. rewrite environmental_found by done. apply Hio.
Qed.

(** The data file of a version is never a directory. *)
Lemma data_is_file d b k id x : sound d → utf8 k → vol d !! data_path b k id = Some x → x ≠ NDir.
Proof.
  intros Hs Hk Hx ->. assert (bucket_at (vol d) b) as Hb.
  { unfold data_path in Hx. rewrite object_file_in_bucket in Hx. refine (wf_prefix _ _ _ _ _ (mk_is_Some _ _ Hx)); [apply Hs|done]. }
  unfold data_path, object_path in Hx. rewrite <- app_assoc in Hx.
  destruct (bt_tree _ _ (so_trees _ Hs b Hb) _ _ _ Hx) as [_ Hc]. apply canonical_not_reserved in Hc.
  by rewrite data_name_reserved in Hc.
Qed.

(** ** Listing *)

Lemma decode_components_utf8 q parts : decode_components q = Ok parts → Forall utf8 parts.
Proof.
  revert parts. induction q as [|[| | |name] q IH]; intros parts; cbn; try by intros [= <-].
  destruct (ok_or (from_utf8 name) NonUtf8) as [n|]; [|done]. cbn. destruct (decode_component n) as [c|] eqn:Hc; [|done]. cbn.
  destruct (decode_components q) as [cs|]; [|done]. intros [= <-]. constructor; [by apply decode_component_no_sep in Hc as [_ ?]|by apply IH].
Qed.

Lemma rel_path_to_key_utf8 q k : rel_path_to_key q = Ok k → utf8 k.
Proof.
  unfold rel_path_to_key. destruct (decode_components q) as [cs|] eqn:Hd; [|done]. intros [= <-].
  apply decode_components_utf8 in Hd. induction Hd as [|c cs Hc Hcs IH]; [apply utf8_nil|].
  destruct cs as [|c' cs]; [done|]. rewrite join_cons. apply utf8_app; [done|]. apply utf8_app; [by vm_compute|done].
Qed.

(** The walk comes back with strings, whatever it meets. *)
Lemma sees_sorted_keys q ds : sees sound (sorted_keys q) (λ r _, ∀ keys, r = Ok keys → Forall utf8 keys) ds.
Proof.
  intros n. apply sees_bind.
  eapply (sees_mono _ _ (λ r _, ∀ keys, r = Ok keys → Forall utf8 keys)).
  - generalize [(q, @nil Component)] as stack. revert ds.
    induction n as [|n IH]; intros ds [|[dir rel] stack]; cbn [walk_loop]; try (by intros ? [= <-]).
    apply sees_bind. eapply sees_mono; [apply sees_True|]. intros [entries|e] ds' _; [|done].
    apply sees_bind. eapply sees_mono; [apply IH|]. intros [keys|e] ds2 Hk; [|done]. cbn. intros ? [= <-].
    apply Forall_app. split; [|by apply Hk]. case_match; [|done]. destruct (rel_path_to_key rel) as [k|] eqn:Hr; [|done].
    constructor; [by apply rel_path_to_key_utf8 in Hr|done].
  - intros [keys|e] ds' Hk; [|done]. cbn. intros ? [= <-]. rewrite sort_strings_perm. by apply Hk.
Qed.

(** The key had an entry at one of the moments. *)
Definition seen_live (b k : str) (ds : list disk) (entry : VersionEntry) : Prop :=
  ∃ d, d ∈ ds ∧ entry_at (vol d) b k = Some entry.

(** Every object of the page was live, under the prefix, when the listing reached
    it, and under every common prefix there was a live key. *)
Record page_seen (b : str) (p : ListParams) (ds : list disk) (page : ListResult) : Prop := {
  ps_objects : Forall (λ info, ∃ k entry, starts_with k (effective_prefix p) = true
    ∧ seen_live b k ds entry ∧ info = object_info k entry) (lr_objects page);
  ps_prefixes : Forall (λ c, ∃ k entry, seen_live b k ds entry
    ∧ folded (effective_prefix p) (effective_delimiter p) k = Some (Some c)) (lr_common_prefixes page);
}.

Lemma page_seen_later b p d ds page : page_seen b p ds page → page_seen b p (d :: ds) page.
Proof.
  assert (∀ k entry, seen_live b k ds entry → seen_live b k (d :: ds) entry) as Hl.
  { intros k entry (d' & Hd' & ?). exists d'. split; [by right|done]. }
  intros [Ho Hp]. split; eapply Forall_impl; [exact Ho|naive_solver|exact Hp|naive_solver].
Qed.

Lemma sees_list_loop b p keys out ds :
  is_valid_bucket_name b = true → Forall utf8 keys → page_seen b p ds out →
  sees sound (list_loop (λ key, FsEngine.listable_version (FsEngine.object_dir (FsEngine.bucket_dir engine b) key)) p keys out)
    (λ r ds', match r with Ok page => page_seen b p ds' page | Err e => e ≠ NoSuchBucket end) ds.
Proof.
  intros Hb Hk. revert out ds. induction Hk as [|key keys Hkey _ IH]; intros out ds Hpage; cbn [list_loop]; [done|].
  destruct (starts_with key (effective_prefix p)) eqn:Hpre; cbn [negb]; [|by apply IH].
  destruct (folded (effective_prefix p) (effective_delimiter p) key) as [fk|] eqn:Hfold; [|done].
  case_match; [by apply IH|]. case_match; [by apply IH|].
  apply sees_bind. unfold FsEngine.listable_version. apply sees_bind, sees_attempt.
  apply sees_live_version; [done|done| | |].
  - intros d entry Hs Hen. cbn. case_match; [by split; cbn; apply (page_seen_later b p d), Hpage|].
    assert (seen_live b key (d :: ds) entry) as Hl by (exists d; split; [by left|done]).
    apply IH. apply (page_seen_later b p d) in Hpage as [Ho Hp].
    destruct fk as [c|]; split; cbn; try done; apply Forall_app; (split; [done|]); repeat constructor; eauto.
  - intros e ds' H1 H2. destruct e; done.
  - intros d Hs Hen. cbn. apply IH. by apply page_seen_later.
Qed.

(** ** The buckets *)

(** A bucket stood at one of the moments. *)
Definition seen_bucket (ds : list disk) (b : str) : Prop :=
  is_valid_bucket_name b = true ∧ ∃ d, d ∈ ds ∧ bucket_at (vol d) b.

Lemma seen_bucket_later d ds b : seen_bucket ds b → seen_bucket (d :: ds) b.
Proof. intros (? & d' & ? & ?). split; [done|]. exists d'. split; [by right|done]. Qed.

Lemma sees_buckets_kept {X A} (m : M X A) bs (Q : result A X → list disk → Prop) ds :
  Forall (seen_bucket ds) bs → (∀ r ds', Forall (seen_bucket ds') bs → Q r ds') → sees sound m Q ds.
Proof.
  intros Hbs HQ. revert ds Hbs. induction m as [r|Y op part k IH|k IH|k IH|k IH|l md k IH|l md k IH|k IH|k IH]; intros ds Hbs; cbn; auto.
  split; [|auto]. intros d _. apply IH. eapply Forall_impl; [exact Hbs|]. intros b. apply seen_bucket_later.
Qed.

(** The loop looks at every entry before it lists it. *)
Lemma sees_collect_buckets {F} names bs ds (Q : result (list BucketInfo) F → list disk → Prop) :
  Forall (seen_bucket ds) bs →
  (∀ out ds', Forall (seen_bucket ds') (bs ++ (bi_name <$> out)) → Q (Ok out) ds') → (∀ e ds', Q (Err e) ds') →
  sees sound (FsEngine.collect_buckets (FsEngine.buckets_dir engine) names) Q ds.
Proof.
  revert bs ds Q. induction names as [|name names IH]; intros bs ds Q Hbs HO HE; cbn [FsEngine.collect_buckets].
  { apply HO. by rewrite app_nil_r. }
  destruct (negb (utf8b name) || negb (is_valid_bucket_name name)) eqn:Hv; [by eapply IH|].
  apply orb_false_iff in Hv as [_ Hv%negb_false_iff]. cbn zeta. apply sees_bind, sees_attempt. split.
  2: { intros e _ _. by eapply IH. }
  intros d Hs. assert (Forall (seen_bucket (d :: ds)) bs) as Hbs'.
  { eapply Forall_impl; [exact Hbs|]. intros b. apply seen_bucket_later. }
  cbn [fst]. rewrite bucket_entry_resolve. destruct (walk (vol d) (bucket_path name)) as [[|data s]|err] eqn:Hw; cbn; [|by eapply IH..].
  assert (Forall (seen_bucket (d :: ds)) (bs ++ [name])) as Hbs2.
  { apply Forall_app. split; [done|]. repeat constructor; [done|]. exists d. split; [by left|by apply walk_Ok in Hw]. }
  apply sees_bind. eapply sees_buckets_kept; [exact Hbs2|]. intros [ms|e] ds2 Hbs3; [|by apply HE]. apply sees_bind.
  apply (IH (bs ++ [name])); [done| |done]. intros out ds3 Hout. cbn. apply HO. cbn [fmap list_fmap]. by rewrite <- app_assoc in Hout.
Qed.

(** ** The reads *)

(** What a read reports, of the disks it looked at. *)
Definition read_post (r : request) (res : result reply EngineError) (ds : list disk) : Prop :=
  match r, res with
  | RBucketExists b, Ok (Found found) => ∃ d, d ∈ ds ∧ (found = true ↔ bucket_at (vol d) b)
  | RHeadObject b k, Ok (Info info) =>
      ∃ d entry, d ∈ ds ∧ entry_at (vol d) b k = Some entry ∧ info = object_info k entry
  | RGetObject b k range, Ok (Object info offset len body) =>
      ∃ d d' entry data, [d'; d] `sublist_of` ds
        ∧ entry_at (vol d) b k = Some entry ∧ info = object_info k entry
        ∧ resolve_range range (size entry) = Ok (offset, len)
        ∧ file_at (vol d') (data_path b k (version_id entry)) = Some data
        ∧ N.to_nat len ≤ length (drop (N.to_nat offset) data) ∧ body = take (N.to_nat len) (drop (N.to_nat offset) data)
  | RHeadObject b k, Err NoSuchKey => ∃ d, d ∈ ds ∧ entry_at (vol d) b k = None
  | RGetObject b k _, Err NoSuchKey =>
      (∃ d, d ∈ ds ∧ entry_at (vol d) b k = None)
      ∨ (∃ d d' entry, [d'; d] `sublist_of` ds ∧ entry_at (vol d) b k = Some entry
          ∧ file_at (vol d') (data_path b k (version_id entry)) = None)
  | RListObjects b p, Ok (Page page) => page_seen b p ds page
  | RListBuckets, Ok (Names bs) => Forall (seen_bucket ds) bs
  | (RHeadObject b _ | RGetObject b _ _ | RListObjects b _), Err NoSuchBucket => ∃ d, d ∈ ds ∧ ¬ bucket_at (vol d) b
  | _, _ => True
  end.

Lemma sees_bucket_exists b :
  sees sound (program engine (RBucketExists b)) (read_post (RBucketExists b)) [].
Proof.
  unfold program. cbn [answer bucket_exists fs_engine_layer]. unfold FsEngine.bucket_exists, FsEngine.checked_bucket_dir.
  apply sees_bind, sees_bind. destruct (is_valid_bucket_name b) eqn:Hb; cbn [lift sees]; [|done].
  apply sees_bind, sees_attempt. split.
  - intros d Hs. cbn [fst]. rewrite bucket_dir_resolve by done. destruct (walk (vol d) (bucket_path b)) as [x|err] eqn:Hw.
    + cbn. exists d. split; [by left|]. apply walk_Ok in Hw. unfold bucket_at. rewrite Hw. by destruct x.
    + cbn. case_bool_decide; [|done]. cbn. exists d. split; [by left|]. apply walk_Err in Hw; [|apply Hs].
      unfold bucket_at. by rewrite Hw.
  - intros e He _. cbn. by rewrite environmental_found.
Qed.

Lemma sees_head_object b k : utf8 k →
  sees sound (program engine (RHeadObject b k)) (read_post (RHeadObject b k)) [].
Proof.
  intros Hk. unfold program. cbn [answer head_object fs_engine_layer]. unfold FsEngine.head_object.
  assert (∀ e ds', e ≠ NoSuchBucket → e ≠ NoSuchKey → read_post (RHeadObject b k) (Err e) ds') as HE by (by intros []).
  apply sees_bind, sees_bind, sees_existing_bucket_dir; [|done|intros d Hs Hn; exists d; split; [by left|done]].
  intros d0 Hb Hs0 Hbkt. apply sees_bind, sees_live_version; [done|done| |done|intros d Hs Hn; exists d; split; [by left|done]].
  intros d entry Hs Hen. cbn. exists d, entry. split_and!; [by left|done|done].
Qed.

Lemma sees_get_object b k range : utf8 k →
  sees sound (program engine (RGetObject b k range)) (read_post (RGetObject b k range)) [].
Proof.
  intros Hk. unfold program. cbn [answer get_object fs_engine_layer]. unfold FsEngine.get_object.
  assert (∀ e ds', e ≠ NoSuchBucket → e ≠ NoSuchKey → read_post (RGetObject b k range) (Err e) ds') as HE by (by intros []).
  assert (∀ err ds', read_post (RGetObject b k range) (Err (from_io err)) ds') as Hio
    by (intros err ds'; apply HE; unfold from_io; case_match; done).
  apply sees_bind, sees_bind, sees_existing_bucket_dir; [|done|intros d Hs Hn; exists d; split; [by left|done]].
  intros d0 Hb Hs0 Hbkt. apply sees_bind, sees_live_version; [done|done| |done|].
  2: { intros d Hs Hn. left. exists d. split; [by left|done]. }
  intros d entry Hs Hen. apply sees_bind. destruct (resolve_range range (size entry)) as [[offset len]|e] eqn:Hr; cbn [lift sees].
  2: { apply HE; unfold resolve_range in Hr; repeat case_match; congruence. }
  apply sees_bind, sees_attempt. split.
  2: { intros e He _. cbn. rewrite environmental_found by done. apply Hio. }
  intros d' Hs'. cbn [fst]. rewrite object_file_resolve by (done || apply data_file_name_plain).
  fold (data_path b k (version_id entry)).
  destruct (walk (vol d') (data_path b k (version_id entry))) as [x|err] eqn:Hw.
  2: { cbn. case_bool_decide; [|apply Hio]. right. exists d, d', entry. split_and!; [|done|].
       - do 2 apply sublist_skip. apply sublist_nil_l.
       - apply walk_Err in Hw; [|apply Hs']. unfold file_at. by rewrite Hw. }
  apply walk_Ok in Hw. pose proof (data_is_file d' b k _ x Hs' Hk Hw) as Hnd. destruct x as [|data s]; [done|]. clear Hnd.
  assert (∀ ds', [d'; d] `sublist_of` ds' →
    sees sound (body <- lift (map_err from_io (collect (FsEngine.stream_from (NFile data s) offset len)));;
                ret (Object (object_info k entry) offset len body)) (read_post (RGetObject b k range)) ds') as Hend.
  { intros ds' Hsub. apply sees_bind, sees_lift.
    destruct (collect (FsEngine.stream_from (NFile data s) offset len)) as [body|e] eqn:Hc; [|apply Hio].
    destruct (file_stream_spec reads (drop (N.to_nat offset) data) len) as (Hfs & _).
    { pose proof (resolve_range_spec range (size entry) (entry_size _ _ _ _ Hen)) as Hrr. rewrite Hr in Hrr.
      pose proof (entry_size _ _ _ _ Hen) as Hsz. unfold u64 in *. destruct range; [lia|]. by destruct Hrr as [_ ->]. }
    destruct (Hfs body Hc). cbn. exists d, d', entry, data. split_and!; try done. apply file_at_Some. eauto. }
  assert ([d'; d] `sublist_of` [d'; d; d0]) as Hsub by (do 2 apply sublist_skip; apply sublist_nil_l).
  cbn beta iota. apply sees_bind. destruct (0 <? offset)%N; [|exact (Hend _ Hsub)].
  apply sees_mapE. split; [intros d3 Hs3|intros e He _; apply Hio]. apply Hend. by apply sublist_cons.
Qed.

Lemma sees_list_objects b p : sees sound (program engine (RListObjects b p)) (read_post (RListObjects b p)) [].
Proof.
  unfold program. cbn [answer list_objects_v2 fs_engine_layer]. unfold FsEngine.list_objects_v2, FsEngine.checked_bucket_dir.
  assert (∀ e ds', e ≠ NoSuchBucket → e ≠ NoSuchKey → read_post (RListObjects b p) (Err e) ds') as HE by (by intros []).
  assert (∀ ds, page_seen b p ds empty_list_result) as H0 by (by split; constructor).
  apply sees_bind, sees_bind. destruct (is_valid_bucket_name b) eqn:Hb; cbn [lift sees]; [|done].
  unfold FsEngine.with_lock. apply sees_bind. cbn [FsEngine.acquire sees ret]. apply sees_bind, sees_attempt, sees_bind.
  apply sees_existing_bucket_dir; [|intros e ds' H1 H2; by apply HE|intros d Hs Hn; exists d; split; [by left|done]].
  intros d0 _ Hs0 Hbkt. destruct (lp_max_keys p =? 0)%N; [apply H0|].
  apply sees_bind, sees_mapE. cbn [blocking sees]. apply sees_andThen. eapply sees_mono; [apply sees_sorted_keys|].
  intros [keys|e] ds Hk; [|by apply HE; unfold from_io; case_match]. cbn [sees map_err]. unfold list_page. apply sees_bind.
  eapply sees_mono; [by apply sees_list_loop; [|apply Hk|apply H0]|].
  intros [out|e] ds' Hout; cbn.
  - destruct (lr_is_truncated out); [done|]. by split; apply Hout.
  - by destruct e.
Qed.

Lemma sees_list_buckets : sees sound (program engine RListBuckets) (read_post RListBuckets) [].
Proof.
  unfold program. cbn [answer list_buckets fs_engine_layer]. unfold FsEngine.list_buckets. apply sees_bind, sees_bind, sees_mapE.
  eapply sees_mono; [apply sees_True|]. intros [names|e] ds _; [|done]. cbn [map_err].
  apply sees_bind, (sees_collect_buckets names []); [constructor| |done]. intros out ds' Hout. cbn.
  rewrite (sort_by_perm _ out). exact Hout.
Qed.

(** Every request; of those that write nothing is said here. *)
Lemma sees_program r : request_strings r → sees sound (program engine r) (read_post r) [].
Proof.
  intros Hr. destruct r; try (eapply sees_mono; [apply sees_True|done]).
  - apply sees_bucket_exists.
  - apply sees_list_buckets.
  - by apply sees_get_object.
  - by apply sees_head_object.
  - apply sees_list_objects.
Qed.

(** ** On the pool *)

(** Calls may outlive a request that is cancelled, or not: a read does not care. *)
Context (detach : bool).

Abbreviation evolves := (rtc (pool_step engine detach)).

(** The disks [ds], the last one first, are those of moments on the way from [s0] to
    [s] at which the request [r] was in progress as thread [t]. *)
Fixpoint watched (s0 : pool) (t : nat) (r : request) (ds : list disk) (s : pool) : Prop :=
  match ds with
  | [] => evolves s0 s
  | d :: ds =>
      ∃ s1 th, watched s0 t r ds s1 ∧ threads s1 !! t = Some th ∧ th_request th = Some r ∧ pdisk s1 = d ∧ evolves s1 s
  end.

Lemma watched_later s0 t r ds s s' : watched s0 t r ds s → evolves s s' → watched s0 t r ds s'.
Proof.
  destruct ds as [|d ds]; cbn; [by intros; etrans|]. intros (s1 & th & H1 & H2 & H3 & H4 & H5) Hs.
  exists s1, th. split_and!; [done..|by etrans].
Qed.

(** What is left of every request leads to what it may report of the disks it has
    looked at. *)
Definition reading_ok (s0 s : pool) : Prop :=
  ∀ t th r, threads s !! t = Some th → th_request th = Some r →
    ∃ ds, watched s0 t r ds s ∧ sees sound (th_prog th) (read_post r) ds.

(** One thread has moved. *)
Lemma reading_ok_move s0 s t th' d' iss n :
  let s' := mkPool d' (<[t := th']> (threads s)) iss n in
  pool_step engine detach s s' → reading_ok s0 s →
  (∀ r, th_request th' = Some r → ∃ ds, watched s0 t r ds s' ∧ sees sound (th_prog th') (read_post r) ds) →
  reading_ok s0 s'.
Proof.
  intros s' Hs Hok Ht t2 th2 r. cbn. intros [[<- <-]|[_ H2]]%lookup_insert_Some; [apply Ht|]. intros Hr.
  destruct (Hok t2 th2 r H2 Hr) as (ds & Hw & Hsee). exists ds. split; [|done]. by eapply watched_later, rtc_once.
Qed.

Lemma advance_reading_ok s0 s s' : sound (pdisk s) → advance s s' → reading_ok s0 s → reading_ok s0 s'.
Proof.
  intros Hs Ha Hok. pose proof (step_advance engine detach s s' Ha) as Hstep.
  assert (∀ t r ds, watched s0 t r ds s → watched s0 t r ds s') as Hlater by (intros; by eapply watched_later, rtc_once).
  destruct Ha as [t th X op part k Ht Hk|t th X op part k err n Ht Hk He Hn|t th k z Ht Hk|t th k u Ht Hk|t th k n Ht Hk
    |t th l md k Ht Hk|t th l md k Ht Hk|t th k Ht Hk|t th k Ht Hk|t th res Ht Hk].
  all: try (apply reading_ok_move; [done|done|]; intros r Hr; cbn in Hr;
    destruct (Hok t th r Ht Hr) as (ds & Hw & Hsee); rewrite Hk in Hsee; cbn in Hsee |- *;
    eexists; (split; [by apply Hlater|]); by apply Hsee).
  - apply reading_ok_move; [done|done|]. intros r Hr. cbn in Hr. destruct (Hok t th r Ht Hr) as (ds & Hw & Hsee).
    rewrite Hk in Hsee. destruct Hsee as [Hsee _]. exists (pdisk s :: ds). split; [|by apply Hsee].
    exists s, th. split_and!; [done..|by apply rtc_once].
  - intros t2 th2 r. cbn. intros [_ H2]%lookup_delete_Some Hr. destruct (Hok t2 th2 r H2 Hr) as (ds & Hw & Hsee).
    exists ds. split; [by apply Hlater|done].
Qed.

Lemma reachable_reading_ok d s : sound d → pool_reachable engine detach d s → reading_ok (idle d) s.
Proof.
  intros Hd. revert s. unfold pool_reachable. apply rtc_ind_r.
  { intros t th r Ht. cbn in Ht. by rewrite lookup_empty in Ht. }
  intros s s' Hr Hs Hok. destruct (reachable_steady detach d s Hd Hr) as [K Hp].
  pose proof (ps_sound K s Hp) as Hsd. pose proof Hs as Hstep.
  destruct Hs as [s' Ha|t r Ht Hfresh Hreq|t th acts Ht Hreq Hin Ho|t th acts t' _ Ht Hreq Ho Ht' Hfresh Hne].
  - by eapply advance_reading_ok.
  - apply reading_ok_move; [done|done|]. intros r' [= <-]. exists []. split; [|by apply sees_program].
    cbn. by eapply rtc_r.
  - apply reading_ok_move; [done|done|]. by intros r'.
  - intros t2 th2 r. cbn. intros [[_ <-]|[_ [[_ <-]|[_ H2]]%lookup_insert_Some]]%lookup_insert_Some Hreq2; [done..|].
    destruct (Hok t2 th2 r H2 Hreq2) as (ds & Hw & Hsee). exists ds. split; [|done]. by eapply watched_later, rtc_once.
Qed.

(** C5: what a read reports was there while it ran, though it does not lock the key.
    In every interleaving, with calls that fail, and with cancelled requests whether or
    not the calls they had under way run on without them: a [HEAD] that is about to
    answer reports the entry its key had at a moment between its arrival and its
    answer, and that there is no such key or no such bucket only if that was so at
    such a moment, as does a request whether a bucket exists.  A [GET] reports the
    entry of one such moment and, of the data file of that version as it was at a later
    one, exactly the bytes of the range; it reports that there is no such key only if
    the key had no live version at such a moment, or had one and at a later moment the
    data file of that version was gone.  (A [PUT] of the key between the two moments is
    the window that [put_object] documents.)  Every object of a listing had the entry
    it is listed with, and every common prefix a key below it, at a moment while the
    listing ran, and every bucket that is listed stood at such a moment. *)
Theorem reads_observe d s t th r res :
  store_ok (vol d) → pool_reachable engine detach d s →
  threads s !! t = Some th → th_request th = Some r → th_prog th = Done res →
  ∃ ds, watched (idle d) t r ds s ∧ read_post r res ds.
Proof.
  intros Hd Hr Ht Hreq Hdone. destruct (reachable_reading_ok d s Hd Hr t th r Ht Hreq) as (ds & Hw & Hsee).
  rewrite Hdone in Hsee. by exists ds.
Qed.
End reads.
