(* ===== verification/ConcSamples.v ===== *)
(** * Interleavings, played out

    A scheduler that plays a script of events (a request arrives, a request goes
    on for some steps, a client goes away) on the pool of [Conc], so that concrete
    interleavings can be computed; what it reaches is reachable ([play_reachable]).
    On scripts the theorems of [Conc], [ConcDetach], [ConcFacts] and [ConcReads] are
    applied, and four interleavings are shown in which the engine does less than it
    means to. *)

From S2P Require Import Prelude RustStr RustPath Codec Paths Checksum EngineError Fs FsFacts Atomic Meta Layer Walk FsBase Listing FsEngine Tidy FsObject FsDelete FsList FsBuckets FsOpen ReadOnly Store Refine FsSamples Locks Conc Rely ConcStore ConcPut ConcBucket ConcDetach ConcFacts ConcLocks ConcReads.

(** ** The scheduler *)

Section play.
Context {E : Env} {HS : HashCrates} {MD : Md5Crate} {RD : Reads}.
Context `{!Serde VersionManifest, !Serde BucketMeta, !Serde DiskFormat}.
Context (e : FsEngine.t) (ids : nat → str).

Definition excludes (md md' : mode) : bool := negb (bool_decide (md = Shared) && bool_decide (md' = Shared)).

Definition obtainable_check (s : pool) (l : lock) (md : mode) : bool :=
  forallb (λ '(_, th), forallb (λ '(l', md'), negb (bool_decide (l = l') && excludes md md')) (th_held th))
    (map_to_list (threads s)).

Lemma obtainable_check_sound s l md : obtainable_check s l md = true → obtainable s l md.
Proof.
  unfold obtainable_check. rewrite forallb_forall. intros Hall. apply obtainable_alt. intros t th md' Ht Hin.
  specialize (Hall (t, th)). rewrite <- list_elem_of_In, elem_of_map_to_list in Hall. specialize (Hall Ht). cbn in Hall.
  rewrite forallb_forall in Hall. specialize (Hall (l, md')). rewrite <- list_elem_of_In in Hall. specialize (Hall Hin).
  cbn in Hall. rewrite bool_decide_eq_true_2 in Hall by done. unfold excludes in Hall.
  destruct md, md'; try done.
Qed.

(** The next step of a request, if it has one: every call succeeds if it can. *)
Definition tick (t : nat) (s : pool) : option pool :=
  th ← threads s !! t;
  match th_prog th with
  | Done _ => None
  | Sys op _ k => let x := op (pdisk s) in Some (called t (with_prog th (k x.1)) x.2 s)
  | Now k => Some (set_thread t (with_prog th (k 0%Z)) s)
  | Uuid k =>
      let u := ids (base.size (issued s)) in
      if bool_decide (plain_name (u ++ b#".tmp")) && (length (u ++ b#".tmp") <=? 40)%nat && bool_decide (u ∉ issued s) then
        Some (mkPool (pdisk s)
          (<[t := mkThread (th_request th) (k u) (th_inside th) (th_held th) (u :: th_drawn th)]> (threads s))
          ({[u]} ∪ issued s) (fresh s))
      else None
  | Bound k => Some (set_thread t (with_prog th (k (S (base.size (vol (pdisk s)))))) s)
  | Acquire l md k =>
      if obtainable_check s l md then
        Some (set_thread t (mkThread (th_request th) k (th_inside th) ((l, md) :: th_held th) (th_drawn th)) s)
      else None
  | Release l md k =>
      Some (set_thread t (mkThread (th_request th) k (th_inside th) (drop_lock (l, md) (th_held th)) (th_drawn th)) s)
  | Enter k => Some (set_thread t (mkThread (th_request th) k true (th_held th) (th_drawn th)) s)
  | Leave k => Some (set_thread t (mkThread (th_request th) k false (th_held th) (th_drawn th)) s)
  end.

Lemma tick_advance t s s' : tick t s = Some s' → advance s s'.
Proof.
  unfold tick. destruct (threads s !! t) as [th|] eqn:Ht; [|done]. cbn.
  destruct (th_prog th) as [r|X op part k|k|k|k|l md k|l md k|k|k] eqn:Hk; intros H; simplify_eq; try by econstructor.
  - case_match eqn:Hc; [|done]. rewrite !andb_true_iff, !bool_decide_eq_true, Nat.leb_le in Hc.
    destruct Hc as [[? ?] ?]. simplify_eq. by eapply adv_uuid.
  - case_match eqn:Hc; [|done]. simplify_eq. eapply adv_acquire; [done..|]. by apply obtainable_check_sound.
Qed.

Definition isSome {A} (x : option A) : bool := match x with Some _ => true | None => false end.

(** ** Scripts *)

(** A request arrives; goes on for [n] steps or as far as it can; its client goes
    away; its client goes away with a call under way, which runs on as [t']. *)
Inductive event :=
  | Arrive (t : nat) (r : request)
  | Go (t n : nat)
  | Quit (t : nat)
  | QuitInCall (t t' : nat).

Fixpoint go (t n : nat) (s : pool) : pool :=
  match n with
  | 0 => s
  | S n => match tick t s with Some s' => go t n s' | None => s end
  end.

Definition left_behind (th : thread) : list cleanup :=
  (Unlink <$> th_drawn th) ++ ((λ x, LetGo x.1 x.2) <$> th_held th).

Lemma owns_left_behind th : owns th (left_behind th).
Proof. unfold owns, left_behind. reflexivity. Qed.

Definition unwinding (th : thread) : thread :=
  mkThread None (unwind e (left_behind th)) false (th_held th) (th_drawn th).

(** An event that cannot happen is skipped. *)
Definition happen (detach : bool) (ev : event) (s : pool) : pool :=
  match ev with
  | Arrive t r =>
      if bool_decide (threads s !! t = None) && bool_decide (fresh s ≤ t)
      then set_thread t (mkThread (Some r) (program e r) false [] []) s else s
  | Go t n => go t n s
  | Quit t =>
      match threads s !! t with
      | Some th => if bool_decide (is_Some (th_request th)) && negb (th_inside th) then set_thread t (unwinding th) s else s
      | None => s
      end
  | QuitInCall t t' =>
      match threads s !! t with
      | Some th =>
          if detach && bool_decide (is_Some (th_request th)) && bool_decide (threads s !! t' = None)
             && bool_decide (fresh s ≤ t') && bool_decide (t' ≠ t)
          then set_thread t' (mkThread None (in_flight (th_inside th) (th_prog th)) true [] []) (set_thread t (unwinding th) s)
          else s
      | None => s
      end
  end.

Definition play (detach : bool) (evs : list event) (s : pool) : pool := foldl (λ s ev, happen detach ev s) s evs.

Definition event_ok (ev : event) : Prop := match ev with Arrive _ r => request_strings r | _ => True end.

Lemma go_steps detach t n s : rtc (pool_step e detach) s (go t n s).
Proof.
  revert s. induction n as [|n IH]; intros s; cbn; [done|]. destruct (tick t s) as [s'|] eqn:Ht; [|done].
  eapply rtc_l; [|apply IH]. apply step_advance. by eapply tick_advance.
Qed.

Lemma go_one t s : isSome (tick t s) = true → advance s (go t 1 s).
Proof. cbn. destruct (tick t s) as [s'|] eqn:Ht; [|done]. intros _. by eapply tick_advance. Qed.

Lemma happen_steps detach ev s : event_ok ev → rtc (pool_step e detach) s (happen detach ev s).
Proof.
  destruct ev as [t r|t n|t|t t']; intros Hev; cbn [happen].
  - case_match eqn:Hc; [|done]. rewrite andb_true_iff, !bool_decide_eq_true in Hc. destruct Hc. by apply rtc_once, step_spawn.
  - apply go_steps.
  - destruct (threads s !! t) as [th|] eqn:Ht; [|done]. case_match eqn:Hc; [|done].
    rewrite andb_true_iff, bool_decide_eq_true, negb_true_iff in Hc. destruct Hc.
    apply rtc_once, (step_cancel e detach s t th (left_behind th)); auto using owns_left_behind.
  - destruct (threads s !! t) as [th|] eqn:Ht; [|done]. case_match eqn:Hc; [|done].
    rewrite !andb_true_iff, !bool_decide_eq_true in Hc. destruct Hc as [[[[? ?] ?] ?] ?].
    apply rtc_once, (step_detach e detach s t th (left_behind th)); auto using owns_left_behind.
Qed.

Lemma play_reachable detach evs d : Forall event_ok evs → pool_reachable e detach d (play detach evs (idle d)).
Proof.
  unfold pool_reachable, play. generalize (idle d) as s. intros s Hev. revert s.
  induction Hev as [|ev evs Hev _ IH]; intros s; cbn; [done|]. etrans; [by apply happen_steps|apply IH].
Qed.

(** A request that is about to answer, with its answer. *)
Definition answered (s : pool) (t : nat) : option (option request * result reply EngineError) :=
  th ← threads s !! t;
  match th_prog th with Done res => Some (th_request th, res) | _ => None end.

Lemma answered_inv s t r res : answered s t = Some (r, res) →
  ∃ th, threads s !! t = Some th ∧ th_request th = r ∧ th_prog th = Done res.
Proof.
  unfold answered. destruct (threads s !! t) as [th|]; [|done]. cbn.
  destruct (th_prog th) eqn:Hp; intros [= <- <-]. by exists th.
Qed.
End play.

(** ** The samples *)

#[local] Existing Instance plain_crates.
#[local] Existing Instance plain_crates_laws.
#[local] Existing Instance manifest_codec.
#[local] Existing Instance manifest_codec_laws.
#[local] Existing Instance plain_md5.
#[local] Existing Instance plain_md5_laws.
#[local] Existing Instance byte_reads.
#[local] Existing Instance bucket_meta_codec.
#[local] Existing Instance disk_format_codec.
#[local] Existing Instance calm_env.
#[local] Existing Instance calm_env_ok.
#[local] Existing Instance slash_d.

Definition sample_ids (n : nat) : str := concat (replicate n (b#"5")) ++ drop n (uuid 0).

Abbreviation played detach evs d := (play engine sample_ids detach evs (idle d)).

Abbreviation put k := (RPutObject (b#"bkt") k new_body new_opts).

Lemma store_is_ok : store_ok (vol store_disk).
Proof.
  split; [apply store_layout|]. intros b Hb. destruct (decide (b = b#"bkt")) as [->|Hne]; [apply store_tree|].
  exfalso. revert Hb. unfold bucket_at, store_disk, store. cbn [vol]. rewrite not_elem_of_list_to_map_1; [done|].
  cbn [fmap list_fmap fst]. rewrite !not_elem_of_cons. split_and!; try apply not_elem_of_nil; try done.
  all: unfold object_path, objects_path, meta_path, data_path, buckets_path, tmp_path; rewrite ?bucket_path_eq;
    cbn; first [congruence|by intros [= ->]].
Qed.

(** An upload of [a/b] is halfway through its body when a second one of the same
    key arrives and is finished, a delete of the key waits and is cancelled, and the
    first upload goes on. *)
Definition busy : list event :=
  [Arrive 0 (put (b#"a/b")); Go 0 5; Arrive 1 (put (b#"a/b")); Go 1 20; Arrive 2 (RDeleteObject (b#"bkt") (b#"a/b"));
   Go 2 5; Go 0 5; Quit 2; Go 2 5; Go 1 100; Go 0 100].

Local Ltac events_ok :=
  repeat (apply Forall_cons_2;
    [cbn [event_ok request_strings]; first [exact I|split; [by vm_compute|apply new_opts_ok]|by vm_compute]|]);
  apply Forall_nil_2.

Lemma busy_ok : Forall event_ok busy.
Proof. events_ok. Qed.

Lemma requests_all_answered_witness :
  let s := played false (take 9 busy) store_disk in
  Acc (flip advance) s ∧ ∃ s', advance s s'.
Proof.
  cbn zeta. set (s := played false (take 9 busy) store_disk).
  destruct (requests_all_answered engine false store_disk s) as [Hacc Hp].
  { apply play_reachable, Forall_take, busy_ok. }
  split; [done|]. apply Hp; [|exists (sample_ids 9); split; [split|]].
  - intros Hs. assert (isSome (threads s !! 1) = true) as H1 by by vm_compute. by rewrite Hs, lookup_empty in H1.
  - refine (bool_decide_unpack _ _). by vm_compute.
  - vm_compute. lia.
  - refine (bool_decide_unpack _ _). by vm_compute.
Defined.

(** The second upload and the delete wait for the key of the first. *)
Lemma requests_follow_plan_witness :
  let s := played false [Arrive 0 (put (b#"a/b")); Go 0 12; Arrive 1 (RDeleteObject (b#"bkt") (b#"a/b")); Go 1 9] store_disk in
  ∃ th todo, threads s !! 1 = Some th
    ∧ reverse (th_held th) ++ (KeyLock (b#"bkt") (b#"a/b"), Exclusive) :: todo = lock_plan (RDeleteObject (b#"bkt") (b#"a/b")).
Proof.
  cbn zeta. set (evs := [_; _; _; _]). set (s := played false evs store_disk).
  assert (waits_for <$> threads s !! 1 = Some (Some (KeyLock (b#"bkt") (b#"a/b"), Exclusive))) as Hw by by vm_compute.
  assert (th_request <$> threads s !! 1 = Some (Some (RDeleteObject (b#"bkt") (b#"a/b")))) as Hr by by vm_compute.
  destruct (threads s !! 1) as [th|] eqn:Ht; [|done]. injection Hw as Hw. injection Hr as Hr.
  destruct (requests_follow_plan false store_disk s 1 th (RDeleteObject (b#"bkt") (b#"a/b"))) as [H _];
    [apply play_reachable; events_ok|exact Ht|exact Hr|].
  destruct (H _ _ Hw) as [todo Htodo]. exists th, todo. split; [reflexivity|exact Htodo].
Defined.

(** The bytes of [a/b] are replaced while a listing is under way. *)
Lemma changes_under_lock_witness :
  let s := played false [Arrive 0 (put (b#"a/b")); Arrive 1 (RListObjects (b#"bkt") page_params); Go 1 4; Go 0 16] store_disk in
  ∃ req, ((∃ body opts, req = RPutObject (b#"bkt") (b#"a/b") body opts) ∨ req = RDeleteObject (b#"bkt") (b#"a/b"))
    ∧ alone_with s req (KeyLock (b#"bkt") (b#"a/b")).
Proof.
  cbn zeta. set (evs := [_; _; _; _]). set (s := played false evs store_disk).
  destruct (changes_under_lock store_disk s (go sample_ids 0 1 s)) as [H _];
    [apply store_is_ok|apply play_reachable; events_ok|apply step_advance, go_one; by vm_compute|].
  apply H; [apply key_utf8|]. by vm_compute.
Defined.

(** Both uploads have answered. *)
Lemma answers_take_effect_witness :
  ∃ rep, effect (put (b#"a/b")) rep (held_at engine (idle store_disk) (played false busy store_disk) 1 (Some (put (b#"a/b")))).
Proof.
  set (s := played false busy store_disk).
  assert (match answered s 1 with Some (Some _, Ok _) => true | _ => false end = true) as Hans by by vm_compute.
  assert (fst <$> answered s 1 = Some (Some (put (b#"a/b")))) as Hreq by by vm_compute.
  assert (pool_reachable engine false store_disk s) as Hs by apply play_reachable, busy_ok. clearbody s.
  destruct (answered s 1) as [[[r|] [rep|]]|] eqn:Ha; try done. cbn in Hreq. injection Hreq as ->.
  destruct (answered_inv s 1 _ _ Ha) as (th & Ht & Hr & Hp). exists rep.
  exact (answers_take_effect store_disk s 1 th _ rep store_is_ok Hs Ht Hr Hp).
Defined.

(** A [GET] of [a/b] has read the manifest when an upload replaces the object: it
    answers the old entry and as many of the new bytes as that entry has. *)
Lemma reads_observe_witness :
  let get := RGetObject (b#"bkt") (b#"a/b") None in
  let s := played false [Arrive 0 get; Go 0 2; Arrive 1 (put (b#"a/b")); Go 1 100; Go 0 100] store_disk in
  let res := Ok (Object (object_info (b#"a/b") old_entry) 0 3 (b#"hel")) in
  answered s 0 = Some (Some get, res)
  ∧ ∃ ds, watched false (idle store_disk) 0 get ds s ∧ read_post get res ds.
Proof.
  cbn zeta. set (get := RGetObject _ _ _). set (evs := [_; _; _; _; _]). set (s := played false evs store_disk). set (res := Ok _).
  assert (answered s 0 = Some (Some get, res)) as Ha by by vm_compute. split; [exact Ha|].
  assert (pool_reachable engine false store_disk s) as Hs by (apply play_reachable; events_ok). clearbody s.
  destruct (answered_inv s 0 _ _ Ha) as (th & Ht & Hr & Hp).
  exact (reads_observe false store_disk s 0 th get res store_is_ok Hs Ht Hr Hp).
Defined.

(** ** What the engine does not guarantee *)

(** C38: an upload can fail because another key was deleted.  A [PUT] of [a] has made
    sure of its directory and is about to rename its data into it; a [DELETE] of
    [a/b], which holds another key's lock and the bucket's lock shared as well, prunes
    the directories it emptied, among them that of [a]; the rename finds no directory
    and the [PUT] answers with an I/O error, although its bucket stands and no call
    was refused by the machine (a refused call never reports [KNotFound]). *)
Theorem put_fails_beside_delete :
  ∃ s err, pool_reachable engine false store_disk s
    ∧ answered s 0 = Some (Some (put (b#"a")), Err (Io err)) ∧ kind err = KNotFound
    ∧ answered s 1 = Some (Some (RDeleteObject (b#"bkt") (b#"a/b")), Ok Acked)
    ∧ bucket_at (vol (pdisk s)) (b#"bkt").
Proof.
  exists (played false [Arrive 0 (put (b#"a")); Go 0 16; Arrive 1 (RDeleteObject (b#"bkt") (b#"a/b")); Go 1 100; Go 0 100] store_disk),
    (os_error KNotFound).
  split_and!; [apply play_reachable; events_ok|by vm_compute..].
Qed.

(** C37: an acknowledged upload can be lost with the power because another one is
    under way.  A [PUT] of [x/1] has made the directory [x] and has not synced its
    entry yet; a [PUT] of [x/2] takes the directory for one that was there, syncs
    only what is below, and is acknowledged.  On the disk there is no [x]. *)
Theorem acknowledged_put_volatile :
  ∃ s info, pool_reachable engine false store_disk s
    ∧ answered s 1 = Some (Some (put (b#"x/2")), Ok (Info info))
    ∧ isSome (object_at (vol (pdisk s)) (b#"bkt") (b#"x/2")) = true
    ∧ power_loss (pdisk s) (dur (pdisk s))
    ∧ walk (dur (pdisk s)) (data_path (b#"bkt") (b#"x/2") NULL_VERSION_ID) = Err (os_error KNotFound).
Proof.
  exists (played false [Arrive 0 (put (b#"x/1")); Go 0 19; Arrive 1 (put (b#"x/2")); Go 1 100] store_disk),
    (object_info (b#"x/2") (entry_for new_opts (b#"hello") (epoch_ms 0))).
  split_and!; [apply play_reachable; events_ok|by vm_compute..|by left|by vm_compute].
Qed.

Definition fresh_disk : disk := mkDisk fresh_store fresh_store.

(** C36: a bucket deletion whose client goes away can destroy an object that is stored
    afterwards.  [delete_bucket] has found the bucket empty and handed the removal of
    its directory to the blocking pool; the request is cancelled, which drops its
    lock but not the removal; a [PUT] takes the lock, publishes and is acknowledged;
    then the removal runs.  No request to delete the object was ever made, and the
    deletion of the bucket was never acknowledged. *)
Theorem late_removal_destroys_object :
  ∃ s info, pool_reachable engine true fresh_disk s
    ∧ answered s 3 = Some (Some (put (b#"x/2")), Ok (Info info))
    ∧ object_at (vol (pdisk s)) (b#"bkt") (b#"x/2") = None
    ∧ vol (pdisk s) !! bucket_path (b#"bkt") = None.
Proof.
  exists (played true [Arrive 0 (RCreateBucket (b#"bkt")); Go 0 100; Arrive 1 (RDeleteBucket (b#"bkt")); Go 1 3;
      QuitInCall 1 2; Go 1 100; Arrive 3 (put (b#"x/2")); Go 3 100; Go 2 100] fresh_disk),
    (object_info (b#"x/2") (entry_for new_opts (b#"hello") (epoch_ms 0))).
  split_and!; [apply play_reachable; events_ok|by vm_compute..].
Qed.

(** A [PUT] whose client goes away while the directories of its key are being made;
    the bucket is deleted, and then the making of the directories goes on. *)
Definition late_mkdir : list event :=
  [Arrive 0 (RCreateBucket (b#"bkt")); Go 0 100; Arrive 1 (put (b#"x/2")); Go 1 16;
   QuitInCall 1 2; Go 1 100; Arrive 3 (RDeleteBucket (b#"bkt")); Go 3 100; Go 2 100].

Lemma late_mkdir_ok : Forall event_ok late_mkdir.
Proof. events_ok. Qed.

(** A bucket whose deletion was acknowledged can come back, without its metadata:
    [create_dir_all] makes the missing parents too, the bucket's directory among
    them, and the check that the bucket is there was made before. *)
Theorem late_mkdir_revives_bucket :
  ∃ s, pool_reachable engine true fresh_disk s
    ∧ answered s 3 = Some (Some (RDeleteBucket (b#"bkt")), Ok Acked)
    ∧ bucket_at (vol (pdisk s)) (b#"bkt")
    ∧ vol (pdisk s) !! (bucket_path (b#"bkt") ++ [BUCKET_META_FILE]) = None.
Proof.
  exists (played true late_mkdir fresh_disk). split_and!; [apply play_reachable, late_mkdir_ok|by vm_compute..].
Qed.

(** Even then the data directory is one the engine can read. *)
Lemma parallel_store_ok_witness :
  store_ok (vol (pdisk (played true late_mkdir fresh_disk))) ∧ bucket_at (vol (pdisk (played true late_mkdir fresh_disk))) (b#"bkt").
Proof.
  split; [|by vm_compute]. apply (parallel_store_ok true fresh_disk); [|apply play_reachable, late_mkdir_ok].
  split; [apply fresh_layout|]. intros b Hb. unfold bucket_at, fresh_disk in Hb. cbn [vol] in Hb. by rewrite fresh_no_bucket in Hb.
Defined.
