(* ===== verification/Digests.v ===== *)
(** * The digests and base64, concretely

    The hash crates and [base64] enter the model as parameters with the laws their
    documentation states ([HashCrates], [Md5Crate]).  Here are the published
    algorithms behind them (RFC 1321, FIPS 180-4, RFC 4648), for two ends: the laws
    hold of the functions that are really used, and the known answers in the tests of
    the repository can be computed. *)

From S2P Require Import Prelude RustStr RustPath Checksum EngineError Fs Atomic Meta FsBase FsEngine.
From Stdlib Require Import Strings.Byte.

Local Open Scope N_scope.

(** ** Words of 32 bits *)

Definition w32 (n : N) : N := N.land n 0xFFFFFFFF.
Definition add32 (a b : N) : N := w32 (a + b).
Definition not32 (a : N) : N := N.lxor a 0xFFFFFFFF.
Definition rotl (n x : N) : N := w32 (N.lor (N.shiftl x n) (N.shiftr x (32 - n))).
Definition rotr (n x : N) : N := rotl (32 - n) x.

Fixpoint groups {A} (fuel n : nat) (l : list A) : list (list A) :=
  match fuel, l with
  | S fuel, _ :: _ => take n l :: groups fuel n (drop n l)
  | _, _ => []
  end.

Definition split_into {A} (n : nat) (l : list A) : list (list A) := groups (length l) n l.

Definition of_be (l : str) : N := fold_left (λ n b, N.shiftl n 8 + u8 b) l 0.
Definition of_le (l : str) : N := of_be (reverse l).
Definition word_be (n : N) : str := to_be_bytes 4 n.
Definition word_le (n : N) : str := reverse (to_be_bytes 4 n).

(** The message with a one bit, zeros and its length in bits, in blocks of 64 bytes. *)
Definition padded (len : str) (msg : str) : list str :=
  let zeros := ((119 - length msg `mod` 64) `mod` 64)%nat in
  split_into 64 (msg ++ [x80] ++ replicate zeros x00 ++ len).

Definition bits (msg : str) : N := 8 * N.of_nat (length msg).

(** ** MD5 *)

Definition MD5_K : list N :=
  [0xd76aa478; 0xe8c7b756; 0x242070db; 0xc1bdceee; 0xf57c0faf; 0x4787c62a; 0xa8304613; 0xfd469501;
   0x698098d8; 0x8b44f7af; 0xffff5bb1; 0x895cd7be; 0x6b901122; 0xfd987193; 0xa679438e; 0x49b40821;
   0xf61e2562; 0xc040b340; 0x265e5a51; 0xe9b6c7aa; 0xd62f105d; 0x02441453; 0xd8a1e681; 0xe7d3fbc8;
   0x21e1cde6; 0xc33707d6; 0xf4d50d87; 0x455a14ed; 0xa9e3e905; 0xfcefa3f8; 0x676f02d9; 0x8d2a4c8a;
   0xfffa3942; 0x8771f681; 0x6d9d6122; 0xfde5380c; 0xa4beea44; 0x4bdecfa9; 0xf6bb4b60; 0xbebfbc70;
   0x289b7ec6; 0xeaa127fa; 0xd4ef3085; 0x04881d05; 0xd9d4d039; 0xe6db99e5; 0x1fa27cf8; 0xc4ac5665;
   0xf4292244; 0x432aff97; 0xab9423a7; 0xfc93a039; 0x655b59c3; 0x8f0ccc92; 0xffeff47d; 0x85845dd1;
   0x6fa87e4f; 0xfe2ce6e0; 0xa3014314; 0x4e0811a1; 0xf7537e82; 0xbd3af235; 0x2ad7d2bb; 0xeb86d391].

Definition MD5_S : list N :=
  [7; 12; 17; 22; 7; 12; 17; 22; 7; 12; 17; 22; 7; 12; 17; 22; 5; 9; 14; 20; 5; 9; 14; 20; 5; 9; 14; 20; 5; 9; 14; 20;
   4; 11; 16; 23; 4; 11; 16; 23; 4; 11; 16; 23; 4; 11; 16; 23; 6; 10; 15; 21; 6; 10; 15; 21; 6; 10; 15; 21; 6; 10; 15; 21].

Definition md5_round (m : list N) (st : N * N * N * N) (i : nat) : N * N * N * N :=
  let '(a, b, c, d) := st in
  let '(f, g) :=
    if (i <? 16)%nat then (N.lor (N.land b c) (N.land (not32 b) d), i)
    else if (i <? 32)%nat then (N.lor (N.land d b) (N.land (not32 d) c), (5 * i + 1) `mod` 16)%nat
    else if (i <? 48)%nat then (N.lxor b (N.lxor c d), (3 * i + 5) `mod` 16)%nat
    else (N.lxor c (N.lor b (not32 d)), (7 * i) `mod` 16)%nat in
  let f := add32 f (add32 a (add32 (nth i MD5_K 0) (nth g m 0))) in
  (d, add32 b (rotl (nth i MD5_S 0) f), b, c).

Definition md5_block (st : N * N * N * N) (block : str) : N * N * N * N :=
  let m := of_le <$> split_into 4 block in
  let '(a, b, c, d) := st in
  let '(a', b', c', d') := fold_left (md5_round m) (seq 0 64) st in
  (add32 a a', add32 b b', add32 c c', add32 d d').

Definition md5_digest (msg : str) : str :=
  let '(a, b, c, d) := fold_left md5_block (padded (reverse (to_be_bytes 8 (bits msg))) msg)
    (0x67452301, 0xefcdab89, 0x98badcfe, 0x10325476) in
  word_le a ++ word_le b ++ word_le c ++ word_le d.

(** ** SHA-1 *)

(** The message schedule, from the last word back. *)
Fixpoint sha1_schedule (n : nat) (w : list N) : list N :=
  match n with
  | O => w
  | S n =>
      let x := N.lxor (N.lxor (nth 2 w 0) (nth 7 w 0)) (N.lxor (nth 13 w 0) (nth 15 w 0)) in
      sha1_schedule n (rotl 1 x :: w)
  end.

Definition sha1_round (st : N * N * N * N * N) (iw : nat * N) : N * N * N * N * N :=
  let '(a, b, c, d, e) := st in let '(i, w) := iw in
  let '(f, k) :=
    if (i <? 20)%nat then (N.lor (N.land b c) (N.land (not32 b) d), 0x5a827999)
    else if (i <? 40)%nat then (N.lxor b (N.lxor c d), 0x6ed9eba1)
    else if (i <? 60)%nat then (N.lor (N.land b c) (N.lor (N.land b d) (N.land c d)), 0x8f1bbcdc)
    else (N.lxor b (N.lxor c d), 0xca62c1d6) in
  (add32 (rotl 5 a) (add32 f (add32 e (add32 k w))), a, rotl 30 b, c, d).

Definition sha1_block (st : N * N * N * N * N) (block : str) : N * N * N * N * N :=
  let w := reverse (sha1_schedule 64 (reverse (of_be <$> split_into 4 block))) in
  let '(a, b, c, d, e) := st in
  let '(a', b', c', d', e') := fold_left sha1_round (zip (seq 0 80) w) st in
  (add32 a a', add32 b b', add32 c c', add32 d d', add32 e e').

Definition sha1_digest (msg : str) : str :=
  let '(a, b, c, d, e) := fold_left sha1_block (padded (to_be_bytes 8 (bits msg)) msg)
    (0x67452301, 0xefcdab89, 0x98badcfe, 0x10325476, 0xc3d2e1f0) in
  word_be a ++ word_be b ++ word_be c ++ word_be d ++ word_be e.

(** ** SHA-256 *)

(** The constants, as the standard defines them: the first 32 bits of the fractional
    parts of the roots of the first primes, square roots for the state and cube roots
    for the rounds. *)
Definition prime (n : nat) : bool := forallb (λ d, negb (n `mod` d =? 0)%nat) (seq 2 (n - 2)).
Definition PRIMES : list N := Eval vm_compute in N.of_nat <$> filter (λ n, prime n = true) (seq 2 310).

(** The greatest [r] of [bits] more bits than [root] with [r ^ 3 <= n]. *)
Fixpoint cube_root (bits : nat) (n root : N) : N :=
  match bits with
  | O => root
  | S bits =>
      let next := root + 2 ^ N.of_nat bits in
      cube_root bits n (if next * next * next <=? n then next else root)
  end.

Definition SHA256_K : list N := Eval vm_compute in (λ p, w32 (cube_root 36 (p * 2 ^ 96) 0)) <$> PRIMES.

Definition SHA256_H : list N := Eval vm_compute in (λ p, w32 (N.sqrt (p * 2 ^ 64))) <$> take 8 PRIMES.

Fixpoint sha256_schedule (n : nat) (w : list N) : list N :=
  match n with
  | O => w
  | S n =>
      let w2 := nth 1 w 0 in let w15 := nth 14 w 0 in
      let s0 := N.lxor (rotr 7 w15) (N.lxor (rotr 18 w15) (N.shiftr w15 3)) in
      let s1 := N.lxor (rotr 17 w2) (N.lxor (rotr 19 w2) (N.shiftr w2 10)) in
      sha256_schedule n (add32 (nth 15 w 0) (add32 s0 (add32 (nth 6 w 0) s1)) :: w)
  end.

Definition sha256_round (st : list N) (kw : N * N) : list N :=
  match st with
  | [a; b; c; d; e; f; g; h] =>
      let s1 := N.lxor (rotr 6 e) (N.lxor (rotr 11 e) (rotr 25 e)) in
      let ch := N.lxor (N.land e f) (N.land (not32 e) g) in
      let t1 := add32 h (add32 s1 (add32 ch (add32 kw.1 kw.2))) in
      let s0 := N.lxor (rotr 2 a) (N.lxor (rotr 13 a) (rotr 22 a)) in
      let maj := N.lxor (N.land a b) (N.lxor (N.land a c) (N.land b c)) in
      [add32 t1 (add32 s0 maj); a; b; c; add32 d t1; e; f; g]
  | _ => st
  end.

Definition sha256_block (st : list N) (block : str) : list N :=
  let w := reverse (sha256_schedule 48 (reverse (of_be <$> split_into 4 block))) in
  zip_with add32 st (fold_left sha256_round (zip SHA256_K w) st).

Definition sha256_digest (msg : str) : str :=
  concat (word_be <$> fold_left sha256_block (padded (to_be_bytes 8 (bits msg)) msg) SHA256_H).

(** ** Base64, with the standard alphabet and padding *)

Definition BASE64 : str := b#"ABCDEFGHIJKLMNOPQRSTUVWXYZabcdefghijklmnopqrstuvwxyz0123456789+/".
Definition PAD : byte := c#"=".
Definition sextet (n : N) : byte := nth (N.to_nat n) BASE64 x00.

Fixpoint base64 (s : str) : str :=
  match s with
  | a :: b :: c :: s =>
      sextet (u8 a / 4) :: sextet (u8 a mod 4 * 16 + u8 b / 16)
      :: sextet (u8 b mod 16 * 4 + u8 c / 64) :: sextet (u8 c mod 64) :: base64 s
  | [a; b] => [sextet (u8 a / 4); sextet (u8 a mod 4 * 16 + u8 b / 16); sextet (u8 b mod 16 * 4); PAD]
  | [a] => [sextet (u8 a / 4); sextet (u8 a mod 4 * 16); PAD; PAD]
  | [] => []
  end.

(** ** Known answers *)

Definition hex (s : str) : str :=
  concat ((λ b, let d i := nth (N.to_nat i) (b#"0123456789abcdef") x00 in [d (u8 b / 16); d (u8 b mod 16)]) <$> s).

Example md5_known : hex (md5_digest (b#"hello world")) = b#"5eb63bbbe01eeed093cb22bb8f5acdc3".
Proof. by vm_compute. Qed.
Example sha1_known : hex (sha1_digest (b#"abc")) = b#"a9993e364706816aba3e25717850c26c9cd0d89d".
Proof. by vm_compute. Qed.
Example sha256_known :
  hex (sha256_digest (b#"abc")) = b#"ba7816bf8f01cfea414140de5dae2223b00361a396177a9cb410ff61f20015ad".
Proof. by vm_compute. Qed.

(** ** Reading base64 back *)

(** The value of a letter; padding has none. *)
Definition value (c : byte) : option N :=
  (λ ix : nat * byte, N.of_nat ix.1) <$> list_find (λ x, x = c) BASE64.

Fixpoint unbase64 (s : str) : option str :=
  match s with
  | w :: x :: y :: z :: s =>
      match value w, value x, value y, value z with
      | Some w, Some x, Some y, Some z =>
          (λ r, as_u8 (w * 4 + x / 16) :: as_u8 (x mod 16 * 16 + y / 4) :: as_u8 (y mod 4 * 64 + z) :: r) <$> unbase64 s
      | Some w, Some x, Some y, None => Some [as_u8 (w * 4 + x / 16); as_u8 (x mod 16 * 16 + y / 4)]
      | Some w, Some x, None, _ => Some [as_u8 (w * 4 + x / 16)]
      | _, _, _, _ => None
      end
  | [] => Some []
  | _ => None
  end.

(** Everything below 64, decided. *)
Lemma below_64 (P : N → bool) : forallb P (N.of_nat <$> seq 0 64) = true → ∀ n, n < 64 → P n = true.
Proof.
  rewrite forallb_forall. intros H n Hn. apply H, list_elem_of_In, list_elem_of_fmap. exists (N.to_nat n).
  rewrite elem_of_seq. lia.
Qed.

Lemma value_sextet n : n < 64 → value (sextet n) = Some n.
Proof.
  intros Hn. assert (bool_decide (value (sextet n) = Some n) = true) as Hb; [|by apply bool_decide_eq_true in Hb].
  revert n Hn. apply (below_64 (λ n, bool_decide (value (sextet n) = Some n))). by vm_compute.
Qed.

Lemma sextet_ascii n : n < 64 → u8 (sextet n) < 0x80.
Proof.
  intros Hn. apply N.ltb_lt. revert n Hn. apply (below_64 (λ n, u8 (sextet n) <? 0x80)). by vm_compute.
Qed.

Lemma value_pad : value PAD = None.
Proof. by vm_compute. Qed.

(** Putting a byte together from the two letters it is spread over. *)
Lemma join_bits d a x : 0 < d → x < d → (a * d + x) / d = a ∧ (a * d + x) mod d = x.
Proof.
  intros Hd Hx. rewrite N.div_add_l, N.div_small, N.add_0_r by lia. split; [done|].
  rewrite N.add_comm, N.Div0.mod_add. by apply N.mod_small.
Qed.

Lemma byte_parts b d : 0 < d → as_u8 (u8 b / d * d + u8 b mod d) = b.
Proof. intros Hd. rewrite (N.mul_comm (u8 b / d)), <- N.div_mod by lia. apply u8_as_u8. Qed.

Lemma part_bounds b : u8 b / 4 < 64 ∧ u8 b mod 4 < 4 ∧ u8 b / 16 < 16 ∧ u8 b mod 16 < 16 ∧ u8 b / 64 < 4 ∧ u8 b mod 64 < 64.
Proof.
  pose proof (u8_lt b). split_and!; try (by apply N.mod_lt); apply N.Div0.div_lt_upper_bound; lia.
Qed.

Lemma unbase64_base64 s : unbase64 (base64 s) = Some s.
Proof.
  assert (∀ n s, (length s ≤ n)%nat → unbase64 (base64 s) = Some s) as H; [|by apply (H (length s))].
  clear s. induction n as [|n IH]; intros s Hs; [by destruct s; cbn in Hs; [|lia]|].
  destruct s as [|a [|b [|c s]]]; [done|..]; cbn [base64 unbase64];
    pose proof (part_bounds a) as (? & ? & _); try pose proof (part_bounds b) as (_ & _ & ? & ? & _);
    try pose proof (part_bounds c) as (_ & _ & _ & _ & ? & ?); rewrite !value_sextet by lia; rewrite ?value_pad.
  - rewrite <- (N.add_0_r (u8 a mod 4 * 16)). destruct (join_bits 16 (u8 a mod 4) 0) as [-> _]; [lia..|]. by rewrite byte_parts.
  - destruct (join_bits 16 (u8 a mod 4) (u8 b / 16)) as [-> ->]; [lia..|]. rewrite byte_parts by lia.
    rewrite <- (N.add_0_r (u8 b mod 16 * 4)). destruct (join_bits 4 (u8 b mod 16) 0) as [-> _]; [lia..|]. by rewrite byte_parts.
  - destruct (join_bits 16 (u8 a mod 4) (u8 b / 16)) as [-> ->]; [lia..|]. rewrite byte_parts by lia.
    destruct (join_bits 4 (u8 b mod 16) (u8 c / 64)) as [-> ->]; [lia..|]. rewrite !byte_parts by lia.
    rewrite IH by (cbn in Hs; lia). done.
Qed.

Lemma base64_ascii s : Forall (λ x, u8 x < 0x80) (base64 s).
Proof.
  assert (∀ n s, (length s ≤ n)%nat → Forall (λ x, u8 x < 0x80) (base64 s)) as H; [|by apply (H (length s))].
  clear s. induction n as [|n IH]; intros s Hs; [by destruct s; cbn in Hs; [constructor|lia]|].
  destruct s as [|a [|b [|c s]]]; cbn [base64];
    try pose proof (part_bounds a) as (? & ? & _); try pose proof (part_bounds b) as (_ & _ & ? & ? & _);
    try pose proof (part_bounds c) as (_ & _ & _ & _ & ? & ?);
    repeat constructor; try (apply sextet_ascii; lia). apply IH. cbn in Hs. lia.
Qed.

(** ** The crates *)

#[local] Instance standard_crates : HashCrates := {|
  crc32_state := N; crc32_new := u32_MAX;
  crc32_update h data := fold_left (λ crc b, crc32_reflected_step crc b 0xEDB88320) data h;
  crc32_finalize h := N.lxor h u32_MAX;
  sha1_state := str; sha1_new := []; sha1_update := app; sha1_finalize := sha1_digest;
  sha256_state := str; sha256_new := []; sha256_update := app; sha256_finalize := sha256_digest;
  base64_encode := base64
|}.

#[local] Instance standard_md5 : Md5Crate :=
  {| md5 := str; md5_new := []; md5_update := app; md5_finalize := md5_digest |}.

(** The laws the theorems ask of the crates hold of the published algorithms. *)
Lemma standard_crates_laws : HashCratesLaws standard_crates.
Proof.
  split; try done.
  - intros h a b. cbn. by rewrite fold_left_app.
  - intros h. apply app_nil_r.
  - intros h a b. symmetry. apply app_assoc.
  - intros h. apply app_nil_r.
  - intros h a b. symmetry. apply app_assoc.
  - intros s s' Heq. apply (f_equal unbase64) in Heq. cbn in Heq. rewrite !unbase64_base64 in Heq. by injection Heq.
  - intros s. apply utf8_ascii, base64_ascii.
Qed.

Lemma standard_md5_laws : Md5Laws standard_md5.
Proof. split; cbn; [intros s a b; symmetry; apply app_assoc|intros s; apply app_nil_r]. Qed.
