(* ===== verification/TestKit.v ===== *)
(** * The tests of the repository, on the model

    The unit tests of the crates are translated like the rest of the code: a test is
    the conjunction of its assertions, in their order, with a loop over samples as
    [each].  That they pass, by computation, shows that the definitions behave as
    the program's authors checked the program to behave; and a property test is shown
    to pass on every input its generators can draw. *)

From S2P Require Import Prelude.

Definition assert_eq {A} `{EqDecision A} (x y : A) : bool := bool_decide (x = y).
Definition assert_ne {A} `{EqDecision A} (x y : A) : bool := bool_decide (x ≠ y).

(** The assertions of a test, and the tests of a module. *)
Definition asserts (l : list bool) : bool := forallb id l.

(** [for x in l { f }]. *)
Definition each {A} (l : list A) (f : A → bool) : bool := forallb f l.

Lemma each_true {A} (l : list A) f : each l f = true ↔ ∀ x, x ∈ l → f x = true.
Proof. unfold each. rewrite forallb_forall. by setoid_rewrite <- list_elem_of_In. Qed.

Lemma assert_eq_true {A} `{EqDecision A} (x y : A) : assert_eq x y = true ↔ x = y.
Proof. apply bool_decide_eq_true. Qed.
