(* ===== verification/TestPaths.v ===== *)
(** * The tests of [paths.rs]

    The examples of [mod tests], which pass by computation, and the properties of
    [mod proptests], which hold of every input and not only of those drawn. *)

From S2P Require Import Prelude RustStr RustPath Paths TestKit.
From Stdlib Require Import Strings.Byte.

(** The [/]-separated path a test writes as a literal. *)
Abbreviation Path_new := parse.

(** ** [mod tests] *)

Definition roundtrip_plain : bool :=
  each [b#"a"; b#"a/b/c"; b#"photos/2026/cat.jpg"; b#"with space"; b#"unié"] (λ k,
    let p := key_to_rel_path k in
    assert_eq (rel_path_to_key p) (Ok k)).

Definition special_components : bool := asserts [
  assert_eq (encode_component (b#".")) (b#"%2E");
  assert_eq (encode_component (b#"..")) (b#"%2E%2E");
  assert_eq (encode_component []) (b#"%2F");
  assert_eq (encode_component (b#"__aks3.meta.json")) (b#"%5F_aks3.meta.json");
  assert_eq (decode_component (b#"%5F_aks3.meta.json")) (Ok (b#"__aks3.meta.json"));
  assert_eq (rel_path_to_key (key_to_rel_path (b#"a//b"))) (Ok (b#"a//b"));
  assert_eq (rel_path_to_key (key_to_rel_path (b#"a/./.."))) (Ok (b#"a/./.."))].

Definition hostile_bytes : bool :=
  let k := b#"bad" ++ [x01] ++ b#"name/pct%25" in
  asserts [
    assert_eq (rel_path_to_key (key_to_rel_path k)) (Ok k);
    negb (is_ok (decode_component (b#"%GZ")));
    negb (is_ok (decode_component (b#"%2")))].

Definition data_file_names : bool := assert_eq (data_file_name (b#"null")) (b#"__aks3.v.null.data").

Definition data_file_name_escapes_path_hostile_ids : bool := asserts [
  assert_eq (data_file_name (b#"null")) (b#"__aks3.v.null.data");
  assert_eq (data_file_name (b#"../../etc/passwd")) (b#"__aks3.v...%2F..%2Fetc%2Fpasswd.data");
  assert_eq (data_file_name (b#"a/b")) (b#"__aks3.v.a%2Fb.data");
  assert_eq (data_file_name (b#"a\b")) (b#"__aks3.v.a%5Cb.data");
  assert_eq (data_file_name (b#"a b")) (b#"__aks3.v.a%20b.data");
  assert_eq (data_file_name (b#"a%b")) (b#"__aks3.v.a%25b.data");
  assert_eq (data_file_name [x00]) (b#"__aks3.v.%00.data")].

(** [matches!(c, Component::Normal(_))]. *)
Definition is_normal (c : Component) : bool := match c with Normal _ => true | _ => false end.

Definition data_file_name_is_always_one_safe_component : bool :=
  each [b#"null"; []; b#"."; b#".."; b#"../../etc/passwd"; b#"/"; b#"//"; b#"/etc/passwd"; b#"a/b"; b#"a\b";
        b#"..\..\windows"; b#"a%2Fb"; [x00; x1f; x7f]; b#"café"; b#"😀"] (λ id,
    let name := data_file_name id in
    let comps := Path_new name in
    asserts [
      negb (contains name (b#"/"));
      negb (contains name (b#"\"));
      starts_with name RESERVED_PREFIX;
      bool_decide (is_Some (strip_suffix name (b#".data")));
      is_relative (Path_new name);
      assert_eq (length comps) 1;
      each (take 1 comps) is_normal]).

(** [BTreeSet::len] of a collection. *)
Definition distinct (l : list str) : nat := size (list_to_set l : gset str).

Definition data_file_name_is_injective : bool :=
  let ids := [b#"a/b"; b#"a%2Fb"; b#"a%252Fb"; b#"a\b"; b#"ab"; b#"a.b"; b#"a b"] in
  assert_eq (distinct (data_file_name <$> ids)) (length ids).

Definition version_id_validation : bool := asserts [
  each [b#"null"; b#"0198f0c1-7b3a-7e2d-9f01-2c3d4e5f6a7b"; b#"abc"; b#"A1"; b#"a.b"; b#"a_b"; b#"a-b"; b#"9"]
    is_valid_version_id;
  each [[]; b#"."; b#".."; b#"..."; b#"../x"; b#"a/b"; b#"a\b"; b#"a b"; b#"a%b"; b#"..a"; b#"a..b"; b#"a..";
        [x00]; b#"café"; b#"a" ++ [x0a] ++ b#"b"] (λ bad, negb (is_valid_version_id bad))].

Definition valid_version_ids_are_never_escaped : bool :=
  each [b#"null"; b#"0198f0c1-7b3a-7e2d-9f01-2c3d4e5f6a7b"; b#"a.b"; b#"a_b-1"] (λ id,
    assert_eq (data_file_name id) (b#"__aks3.v." ++ id ++ b#".data")).

Definition roundtrip_hostile_keys : bool :=
  each [[]; b#"/"; b#"//"; b#"a/"; b#"/a"; b#"."; b#".."; b#"../../etc/passwd"; b#"a/../../b"; b#"back\slash";
        b#"pct%"; b#"%2E"; b#"%2F"; b#"%5F_aks3.meta.json"; META_FILE; b#"dir/__aks3.v.null.data";
        [x7f] ++ b#"del"; b#"tab" ++ [x09] ++ b#"new" ++ [x0a] ++ b#"line"; b#"😀/emoji";
        [xc3; xa9; xcc; x81] ++ b#"combining"; b#"trailing."; b#"trailing.."] (λ k,
    assert_eq (rel_path_to_key (key_to_rel_path k)) (Ok k)).

Definition escape_set_is_exactly_rule_two : bool :=
  let printable := b#"a b:c*d?e" ++ [x22] ++ b#"f<g>h|i" in
  asserts [
    assert_eq (encode_component [x00]) (b#"%00");
    assert_eq (encode_component [x1f]) (b#"%1F");
    assert_eq (encode_component [x7f]) (b#"%7F");
    assert_eq (encode_component (b#"\")) (b#"%5C");
    assert_eq (encode_component (b#"%")) (b#"%25");
    assert_eq (encode_component printable) printable;
    assert_eq (encode_component (b#"café 😀")) (b#"café 😀")].

Definition reserved_prefix_escaping : bool := asserts [
  assert_eq (encode_component META_FILE) (b#"%5F_aks3.meta.json");
  assert_eq (encode_component (data_file_name (b#"v1"))) (b#"%5F_aks3.v.v1.data");
  assert_eq (encode_component (b#"__aks3")) (b#"%5F_aks3");
  assert_eq (encode_component (b#"__aks3suffix")) (b#"%5F_aks3suffix");
  assert_eq (encode_component (b#"__aks")) (b#"__aks");
  assert_eq (encode_component (b#"_aks3")) (b#"_aks3");
  assert_eq (encode_component (b#"x__aks3")) (b#"x__aks3")].

Definition no_user_key_encodes_to_a_reserved_name : bool :=
  each [META_FILE; b#"__aks3.v.null.data"; RESERVED_PREFIX] (λ k, negb (starts_with (encode_component k) RESERVED_PREFIX)).

Definition decode_rejects_malformed_escapes : bool :=
  each [b#"%"; b#"%A"; b#"%GG"; b#"%2G"; b#"%G2"; b#"a%"; b#"a%1"; b#"%%25"] (λ bad,
    assert_eq (decode_component bad) (Err BadEscape)).

Definition decode_rejects_non_utf8 : bool := asserts [
  assert_eq (decode_component (b#"%FF")) (Err NonUtf8);
  assert_eq (decode_component (b#"%C3%28")) (Err NonUtf8)].

Definition decode_accepts_lowercase_hex : bool := asserts [
  assert_eq (decode_component (b#"%2e")) (Ok (b#"."));
  assert_eq (decode_component (b#"%5f_aks3")) (Ok (b#"__aks3"))].

Definition decode_never_yields_a_separator : bool := asserts [
  assert_eq (decode_component (b#"%2F")) (Ok []);
  assert_eq (decode_component (b#"%2f")) (Ok []);
  assert_eq (decode_component (b#"%2Fa")) (Err BadEscape);
  assert_eq (decode_component (b#"a%2Fb")) (Err BadEscape);
  assert_eq (decode_component (b#"%2F%2F")) (Err BadEscape)].

Definition rel_path_to_key_rejects_traversal_components : bool := asserts [
  assert_eq (rel_path_to_key (Path_new (b#".."))) (Err BadEscape);
  assert_eq (rel_path_to_key (Path_new (b#"a/../b"))) (Err BadEscape);
  assert_eq (rel_path_to_key (Path_new (b#"/abs"))) (Err BadEscape)].

Definition encoded_paths_have_only_normal_components : bool :=
  each [[]; b#"."; b#".."; b#"a/./.."; b#"//"; b#"a/../b"] (λ k,
    let p := key_to_rel_path k in asserts [each p is_normal; is_relative p]).

Definition component_count_matches_key : bool := assert_eq (length (key_to_rel_path (b#"a//b/c"))) 4.

Theorem paths_tests_pass : asserts [roundtrip_plain; special_components; hostile_bytes; data_file_names;
  data_file_name_escapes_path_hostile_ids; data_file_name_is_always_one_safe_component; data_file_name_is_injective;
  version_id_validation; valid_version_ids_are_never_escaped; roundtrip_hostile_keys; escape_set_is_exactly_rule_two;
  reserved_prefix_escaping; no_user_key_encodes_to_a_reserved_name; decode_rejects_malformed_escapes;
  decode_rejects_non_utf8; decode_accepts_lowercase_hex; decode_never_yields_a_separator;
  rel_path_to_key_rejects_traversal_components; encoded_paths_have_only_normal_components;
  component_count_matches_key] = true.
Proof. by vm_compute. Qed.

(** ** [mod proptests] *)

Definition a_component_survives_encoding (c : str) : bool := assert_eq (decode_component (encode_component c)) (Ok c).

Definition a_key_survives_the_path_roundtrip (k : str) : bool :=
  let p := key_to_rel_path k in
  asserts [is_relative p; each p is_normal; assert_eq (rel_path_to_key p) (Ok k)].

(** [prop_assume!(a != b)] passes over the pairs that are equal. *)
Definition distinct_keys_get_distinct_paths (a b : str) : bool :=
  bool_decide (a = b) || assert_ne (key_to_rel_path a) (key_to_rel_path b).

(** [c.as_os_str()]. *)
Definition as_os_str (c : Component) : str :=
  match c with RootDir => b#"/" | CurDir => b#"." | ParentDir => b#".." | Normal n => n end.

Definition no_key_encodes_to_a_reserved_name (k : str) : bool :=
  each (key_to_rel_path k) (λ c, negb (starts_with (as_os_str c) RESERVED_PREFIX)).

Definition decoding_an_arbitrary_name_is_an_error_at_worst (name : str) : bool :=
  match decode_component name with Ok decoded => negb (contains decoded (b#"/")) | Err _ => true end.

Definition a_data_file_name_is_always_one_safe_component (id : str) : bool :=
  let name := data_file_name id in
  let comps := Path_new name in
  asserts [
    starts_with name RESERVED_PREFIX;
    bool_decide (is_Some (strip_suffix name (b#".data")));
    is_relative (Path_new name);
    assert_eq (length comps) 1;
    each (take 1 comps) is_normal].

Definition a_data_file_name_names_exactly_its_version_id (id : str) : bool :=
  assert_eq (decode_data_file_name (data_file_name id)) (Some id).

Definition data_file_names_are_injective (a b : str) : bool :=
  bool_decide (a = b) || assert_ne (data_file_name a) (data_file_name b).

Definition a_well_formed_version_id_is_never_escaped (id : str) : bool := asserts [
  is_valid_version_id id;
  assert_eq (data_file_name id) (b#"__aks3.v." ++ id ++ b#".data")].

Lemma key_path_normal k : utf8 k → is_relative (key_to_rel_path k) = true ∧ each (key_to_rel_path k) is_normal = true.
Proof.
  intros Hk. rewrite key_to_rel_path_names by done. split; [by destruct (key_names k)|].
  apply each_true. by intros c (n & -> & _)%list_elem_of_fmap.
Qed.

Lemma data_file_safe id : utf8 id → a_data_file_name_is_always_one_safe_component id = true.
Proof.
  intros Hid. unfold a_data_file_name_is_always_one_safe_component. rewrite (parse_plain _ (data_file_name_plain id)).
  destruct (data_file_name_spec id Hid) as (_ & Hp & _). unfold asserts. cbn [forallb]. rewrite Hp. cbn -[strip_suffix data_file_name].
  rewrite bool_decide_true; [done|]. unfold data_file_name. rewrite app_assoc. change (b#".data") with SUFFIX.
  rewrite strip_suffix_app. by eexists.
Qed.

(** The properties of keys and components: a component is any string without a
    separator, a key any string, a name on the disk any string. *)
Theorem key_properties_hold c k k' name :
  utf8 c → SEP ∉ c → utf8 k → utf8 k' →
  asserts [a_component_survives_encoding c; a_key_survives_the_path_roundtrip k; distinct_keys_get_distinct_paths k k';
    no_key_encodes_to_a_reserved_name k; decoding_an_arbitrary_name_is_an_error_at_worst name] = true.
Proof.
  intros Hc Hsep Hk Hk'. unfold asserts. cbn [forallb]. rewrite !andb_true_iff. unfold id. split_and!; [| | | | |done].
  - apply assert_eq_true. by apply decode_component_encode.
  - destruct (key_path_normal k Hk) as [Hr Hn]. unfold a_key_survives_the_path_roundtrip. cbn.
    rewrite Hr, Hn. cbn. unfold assert_eq. by rewrite rel_path_key, bool_decide_true.
  - unfold distinct_keys_get_distinct_paths, assert_ne. case_bool_decide; [done|]. cbn. apply bool_decide_eq_true.
    by intros ?%key_to_rel_path_inj.
  - apply each_true. rewrite key_to_rel_path_names by done. intros x (n & -> & Hn)%list_elem_of_fmap.
    cbn [as_os_str]. by rewrite (key_names_not_reserved k n Hk Hn).
  - unfold decoding_an_arbitrary_name_is_an_error_at_worst. destruct (decode_component name) as [d|] eqn:Hd; [|done].
    apply decode_component_no_sep in Hd as [Hno _]. apply negb_true_iff, not_true_iff_false.
    change (b#"/") with [SEP]. by rewrite contains_byte.
Qed.

(** The properties of version ids, which are any strings a client sends. *)
Theorem version_id_properties_hold id id' wf_id :
  utf8 id → utf8 wf_id → is_valid_version_id wf_id = true →
  asserts [a_data_file_name_is_always_one_safe_component id; a_data_file_name_names_exactly_its_version_id id;
    data_file_names_are_injective id id'; a_well_formed_version_id_is_never_escaped wf_id] = true.
Proof.
  intros Hid Hwf Hval. unfold asserts. cbn [forallb]. rewrite !andb_true_iff. unfold Datatypes.id. split_and!; [| | | |done].
  - by apply data_file_safe.
  - apply assert_eq_true. by apply data_file_name_spec.
  - unfold data_file_names_are_injective, assert_ne. case_bool_decide; [done|]. cbn. apply bool_decide_eq_true.
    by intros ?%data_file_name_inj.
  - unfold a_well_formed_version_id_is_never_escaped, asserts. cbn [forallb]. rewrite Hval.
    rewrite (proj2 (assert_eq_true _ _)); [done|]. by apply data_file_name_spec.
Qed.
