(* ===== verification/TestHost.v ===== *)
(** * The tests of [host.rs], [main.rs] and [iam/src/lib.rs]

    All but the two about [Debug] output, of which only the fields are modelled. *)

From S2P Require Import Prelude RustStr RustNum RustPath Paths Checksum EngineError Fs Wire ApiError Host Iam Main TestKit.

(** ** [host.rs] *)

Definition bucket (list : list str) (host : str) : option str :=
  vh_bucket (parse_host_header (mkVirtualHostDomains list) host).

Definition a_subdomain_of_a_configured_domain_names_the_bucket : bool :=
  assert_eq (bucket [b#"s3.example.com"] (b#"demo.s3.example.com")) (Some (b#"demo")).

Definition the_endpoint_itself_names_no_bucket : bool :=
  assert_eq (bucket [b#"s3.example.com"] (b#"s3.example.com")) None.

Definition a_port_is_not_part_of_the_name : bool := asserts [
  assert_eq (bucket [b#"s3.example.com"] (b#"demo.s3.example.com:9000")) (Some (b#"demo"));
  assert_eq (bucket [b#"s3.example.com"] (b#"s3.example.com:9000")) None].

Definition a_host_case_is_folded_but_the_bucket_is_lowercased : bool :=
  assert_eq (bucket [b#"s3.example.com"] (b#"Demo.S3.Example.COM")) (Some (b#"demo")).

Definition an_unrelated_host_stays_path_style : bool :=
  each [b#"aks3.aks3.svc"; b#"aks3.aks3.svc.cluster.local:9000"; b#"grace.possum-fujita.ts.net"; b#"localhost:9000";
        b#"s3.example.com.evil.test"] (λ host, assert_eq (bucket [b#"s3.example.com"] host) None).

Definition an_address_names_no_bucket : bool :=
  each [b#"127.0.0.1"; b#"127.0.0.1:9000"; b#"[::1]:9000"; b#"[::1]"; b#"::1"] (λ host,
    assert_eq (bucket [b#"s3.example.com"] host) None).

Definition several_domains_are_matched_in_turn : bool :=
  let list := [b#"s3.example.com"; b#"objects.example.net"] in
  asserts [
    assert_eq (bucket list (b#"a.s3.example.com")) (Some (b#"a"));
    assert_eq (bucket list (b#"b.objects.example.net")) (Some (b#"b"));
    assert_eq (bucket list (b#"c.other.example.org")) None].

Definition a_dotted_bucket_survives : bool :=
  assert_eq (bucket [b#"s3.example.com"] (b#"my.data.s3.example.com")) (Some (b#"my.data")).

Definition an_empty_label_names_no_bucket : bool :=
  assert_eq (bucket [b#"s3.example.com"] (b#".s3.example.com")) None.

Definition no_domains_means_every_host_is_path_style : bool := assert_eq (bucket [] (b#"demo.s3.example.com")) None.

Definition a_multibyte_host_does_not_split_mid_character : bool := asserts [
  assert_eq (strip_domain_suffix (b#"café.test") (b#"e.test")) None;
  assert_eq (bucket [b#"s3.example.com"] (b#"demö.s3.example.com")) (Some (b#"demö"))].

Definition host_name_drops_only_a_real_port : bool := asserts [
  assert_eq (host_name (b#"s3.example.com:9000")) (Some (b#"s3.example.com"));
  assert_eq (host_name (b#"s3.example.com:")) (Some (b#"s3.example.com:"));
  assert_eq (host_name (b#"s3.example.com:port")) (Some (b#"s3.example.com:port"));
  assert_eq (host_name (b#"127.0.0.1:9000")) None].

Theorem host_tests_pass : asserts [a_subdomain_of_a_configured_domain_names_the_bucket; the_endpoint_itself_names_no_bucket;
  a_port_is_not_part_of_the_name; a_host_case_is_folded_but_the_bucket_is_lowercased; an_unrelated_host_stays_path_style;
  an_address_names_no_bucket; several_domains_are_matched_in_turn; a_dotted_bucket_survives; an_empty_label_names_no_bucket;
  no_domains_means_every_host_is_path_style; a_multibyte_host_does_not_split_mid_character;
  host_name_drops_only_a_real_port] = true.
Proof. by vm_compute. Qed.

(** ** [main.rs] *)

Definition no_arguments_means_no_config_file : bool := assert_eq (config_path_from_args []) (Ok None).

Definition the_config_flag_yields_its_path : bool :=
  assert_eq (config_path_from_args [b#"--config"; b#"/etc/aks3.toml"]) (Ok (Some (parse (b#"/etc/aks3.toml")))).

Definition a_flag_without_a_path_is_an_error : bool := negb (is_ok (config_path_from_args [b#"--config"])).

Definition an_unknown_argument_is_an_error : bool := negb (is_ok (config_path_from_args [b#"--verbose"])).

Definition trailing_arguments_are_an_error : bool :=
  negb (is_ok (config_path_from_args [b#"--config"; b#"a.toml"; b#"b.toml"])).

Theorem main_tests_pass : asserts [no_arguments_means_no_config_file; the_config_flag_yields_its_path;
  a_flag_without_a_path_is_an_error; an_unknown_argument_is_an_error; trailing_arguments_are_an_error] = true.
Proof. by vm_compute. Qed.

(** ** [iam/src/lib.rs] *)

#[global] Instance credentials_error_eq_dec : EqDecision CredentialsError.
Proof. solve_decision. Defined.

Definition validation : bool := asserts [
  negb (is_ok (new_credentials (b#"ab") (b#"longenough")));
  negb (is_ok (new_credentials (b#"admin") (b#"short")));
  is_ok (new_credentials (b#"admin") (b#"secretpassword"))].

(** [matches!(r, Err(e))]. *)
Definition fails_with {A F} `{EqDecision F} (e : F) (r : result A F) : bool :=
  match r with Ok _ => false | Err e' => bool_decide (e' = e) end.

Definition validation_reports_which_key_was_rejected : bool := asserts [
  fails_with AccessKeyTooShort (new_credentials (b#"ab") (b#"longenough"));
  fails_with SecretKeyTooShort (new_credentials (b#"admin") (b#"short"))].

Definition minimum_lengths_are_accepted : bool := is_ok (new_credentials (b#"abc") (b#"12345678")).

(** [get_secret_key] of the auth the tests build; the [unwrap] of the pair holds. *)
Definition secret_for (key : str) : option (result str S3Error) :=
  (λ c, get_secret_key (mkIamAuth c) key) <$> ok (new_credentials (b#"admin") (b#"secretpassword")).

Definition known_and_unknown_keys : bool := asserts [
  default false (is_ok <$> secret_for (b#"admin"));
  default false (negb ∘ is_ok <$> secret_for (b#"intruder"))].

Definition known_key_returns_the_root_secret : bool :=
  assert_eq (secret_for (b#"admin") ≫= ok) (Some (b#"secretpassword")).

Definition unknown_key_is_invalid_access_key_id : bool :=
  match secret_for (b#"intruder") with
  | Some (Err err) => bool_decide (err_code err = InvalidAccessKeyId)
  | _ => false
  end.

Theorem iam_tests_pass : asserts [validation; validation_reports_which_key_was_rejected; minimum_lengths_are_accepted;
  known_and_unknown_keys; known_key_returns_the_root_secret; unknown_key_is_invalid_access_key_id] = true.
Proof. by vm_compute. Qed.
