(* ===== verification/TestConfig.v ===== *)
(** * The tests of [config.rs]

    What the [toml] crate makes of the text of a test's file is written down as the
    settings it gives, or as its refusal.  Left out are the six tests of the wording
    of an error and of [Debug] output. *)

From S2P Require Import Prelude RustStr RustNum RustPath EngineError Config TestKit.

#[global] Instance tls_config_eq_dec : EqDecision TlsConfig.
Proof. solve_decision. Defined.

(** The settings in [FULL_TOML]. *)
Definition FULL_TOML : FileConfig :=
  mkFileConfig (Some (b#"127.0.0.1:0")) (Some (parse (b#"/tmp/aks3-test"))) (Some (b#"admin")) (Some (b#"secretpassword"))
    None None None.

(** A file with the two credentials, to which a test adds. *)
Definition with_creds (grace : option N) (domains : option (list str)) (tls : option TlsConfig) : FileConfig :=
  mkFileConfig None None (Some (b#"admin")) (Some (b#"secretpassword")) grace domains tls.

(** The one file there is, and what is read from it. *)
Definition file_path : PathBuf := parse (b#"/tmp/scratch/c.toml").
Definition stub_read (p : PathBuf) : result str io_error :=
  if bool_decide (p = file_path) then Ok (b#"the text") else Err (os_error KNotFound).

Definition load_test (body : result FileConfig toml_error) (path : option PathBuf) (env : str → option str)
    : result Config ConfigError :=
  load_from stub_read (λ _, body) path env.

Definition with_file (body : FileConfig) (env : str → option str) : result Config ConfigError :=
  load_test (Ok body) (Some file_path) env.

Definition without_file (env : str → option str) : result Config ConfigError := load_test (Ok default_file) None env.

(** [stub_env]. *)
Definition stub_env (pairs : list (str * str)) (key : str) : option str :=
  snd <$> (snd <$> list_find (λ kv : str * str, kv.1 = key) pairs).

Definition creds : list (str * str) := [(ENV_ROOT_USER, b#"admin"); (ENV_ROOT_PASSWORD, b#"secretpassword")].

(** [let c = r.unwrap(); ...]. *)
Definition unwrapped {A F} (r : result A F) (f : A → bool) : bool := match r with Ok c => f c | Err _ => false end.

Definition is_missing (name : str) (r : result Config ConfigError) : bool :=
  match r with Err (CfgMissing v) => bool_decide (v = name) | _ => false end.
Definition is_read (r : result Config ConfigError) : bool := match r with Err (CfgRead _ _) => true | _ => false end.
Definition is_parse (r : result Config ConfigError) : bool := match r with Err (CfgParse _ _) => true | _ => false end.
Definition is_invalid (r : result Config ConfigError) : bool := match r with Err (CfgInvalid _ _ _) => true | _ => false end.

(** With every [AKS3_] variable removed from the environment. *)
Definition env_overrides_and_required_creds : bool :=
  let scrubbed := λ _ : str, @Err str unit () in
  asserts [
    unwrapped (load stub_read (λ _, Ok FULL_TOML) scrubbed (Some file_path)) (λ c, assert_eq (root_access_key c) (b#"admin"));
    negb (is_ok (load stub_read (λ _, Ok FULL_TOML) scrubbed None))].

Definition env_wins_over_the_file : bool :=
  let env := [(ENV_LISTEN, b#"0.0.0.0:9999"); (ENV_DATA_DIR, b#"/var/lib/aks3"); (ENV_ROOT_USER, b#"operator");
              (ENV_ROOT_PASSWORD, b#"anotherpassword")] in
  unwrapped (with_file FULL_TOML (stub_env env)) (λ c, asserts [
    assert_eq (listen c) (b#"0.0.0.0:9999");
    assert_eq (data_dir c) (parse (b#"/var/lib/aks3"));
    assert_eq (root_access_key c) (b#"operator");
    assert_eq (root_secret_key c) (b#"anotherpassword")]).

Definition env_alone_is_enough_to_start : bool :=
  unwrapped (without_file (stub_env creds)) (λ c, asserts [
    assert_eq (root_access_key c) (b#"admin");
    assert_eq (listen c) DEFAULT_LISTEN;
    assert_eq (data_dir c) (parse DEFAULT_DATA_DIR);
    assert_eq (tls c) None]).

Definition half_a_credential_pair_is_not_enough : bool :=
  is_missing ENV_ROOT_PASSWORD (without_file (stub_env [(ENV_ROOT_USER, b#"admin")])).

Definition a_config_path_that_does_not_exist_is_an_error : bool :=
  is_read (load_test (Ok default_file) (Some (parse (b#"/tmp/scratch/absent.toml"))) (stub_env creds)).

Definition an_unknown_setting_is_rejected_rather_than_ignored : bool :=
  is_parse (load_test (Err (mkTomlError (b#"unknown field"))) (Some file_path) (stub_env [])).

Definition the_grace_period_defaults_to_eight_seconds : bool :=
  unwrapped (without_file (stub_env creds)) (λ c, assert_eq (cfg_shutdown_grace_seconds c) 8%N).

Definition the_grace_period_comes_from_the_file : bool :=
  unwrapped (with_file (with_creds (Some 25%N) None None) (stub_env [])) (λ c,
    assert_eq (cfg_shutdown_grace_seconds c) 25%N).

Definition the_grace_period_in_the_environment_wins_over_the_file : bool :=
  unwrapped (with_file (with_creds (Some 25%N) None None) (stub_env [(ENV_SHUTDOWN_GRACE, b#"40")])) (λ c,
    assert_eq (cfg_shutdown_grace_seconds c) 40%N).

Definition a_zero_grace_period_is_accepted : bool :=
  unwrapped (without_file (stub_env (creds ++ [(ENV_SHUTDOWN_GRACE, b#"0")]))) (λ c,
    assert_eq (cfg_shutdown_grace_seconds c) 0%N).

Definition a_negative_grace_period_is_an_error : bool :=
  is_invalid (without_file (stub_env (creds ++ [(ENV_SHUTDOWN_GRACE, b#"-1")]))).

Definition a_grace_period_above_the_cap_is_an_error_from_either_source : bool := asserts [
  is_invalid (without_file (stub_env (creds ++ [(ENV_SHUTDOWN_GRACE, b#"601")])));
  is_invalid (with_file (with_creds (Some 8000%N) None None) (stub_env []))].

Definition the_cap_itself_is_accepted : bool :=
  unwrapped (without_file (stub_env (creds ++ [(ENV_SHUTDOWN_GRACE, b#"600")]))) (λ c,
    assert_eq (cfg_shutdown_grace_seconds c) 600%N).

Definition tls_paths_come_from_the_file : bool :=
  let tls_section := mkTlsConfig (parse (b#"/etc/aks3/cert.pem")) (parse (b#"/etc/aks3/key.pem")) in
  unwrapped (with_file (with_creds None None (Some tls_section)) (stub_env [])) (λ c,
    match tls c with
    | Some t => asserts [
        assert_eq (cert_pem t) (parse (b#"/etc/aks3/cert.pem"));
        assert_eq (key_pem t) (parse (b#"/etc/aks3/key.pem"))]
    | None => false
    end).

Definition virtual_hosted_style_is_off_by_default : bool :=
  unwrapped (without_file (stub_env creds)) (λ c, assert_eq (cfg_virtual_host_domains c) []).

Definition virtual_host_domains_come_from_the_file : bool :=
  unwrapped (with_file (with_creds None (Some [b#"S3.Example.com"; b#"objects.example.net"]) None) (stub_env [])) (λ c,
    assert_eq (cfg_virtual_host_domains c) [b#"s3.example.com"; b#"objects.example.net"]).

Definition virtual_host_domains_in_the_environment_are_comma_separated_and_win : bool :=
  let env := [(ENV_VIRTUAL_HOST_DOMAINS, b#" s3.example.com , objects.example.net ,")] in
  unwrapped (with_file (with_creds None (Some [b#"from.the.file"]) None) (stub_env env)) (λ c,
    assert_eq (cfg_virtual_host_domains c) [b#"s3.example.com"; b#"objects.example.net"]).

Definition an_empty_virtual_host_domains_variable_means_off : bool :=
  unwrapped (without_file (stub_env (creds ++ [(ENV_VIRTUAL_HOST_DOMAINS, b#" , ")]))) (λ c,
    assert_eq (cfg_virtual_host_domains c) []).

Definition a_malformed_virtual_host_domain_is_rejected : bool :=
  each [b#"s3..example.com"; b#"s3.example.com/"; b#"under_score.example.com"] (λ bad,
    match without_file (stub_env (creds ++ [(ENV_VIRTUAL_HOST_DOMAINS, bad)])) with
    | Err (CfgInvalid setting _ _) => assert_eq setting (b#"virtual_host_domains")
    | _ => false
    end).

Theorem config_tests_pass : asserts [env_overrides_and_required_creds; env_wins_over_the_file; env_alone_is_enough_to_start;
  half_a_credential_pair_is_not_enough; a_config_path_that_does_not_exist_is_an_error;
  an_unknown_setting_is_rejected_rather_than_ignored; the_grace_period_defaults_to_eight_seconds;
  the_grace_period_comes_from_the_file; the_grace_period_in_the_environment_wins_over_the_file;
  a_zero_grace_period_is_accepted; a_negative_grace_period_is_an_error;
  a_grace_period_above_the_cap_is_an_error_from_either_source; the_cap_itself_is_accepted; tls_paths_come_from_the_file;
  virtual_hosted_style_is_off_by_default; virtual_host_domains_come_from_the_file;
  virtual_host_domains_in_the_environment_are_comma_separated_and_win; an_empty_virtual_host_domains_variable_means_off;
  a_malformed_virtual_host_domain_is_rejected] = true.
Proof. by vm_compute. Qed.
