(* ===== verification/TestChecksum.v ===== *)
(** * The tests of the engine's [checksum.rs]

    With the published digests of [Digests] for the crates.  Left out is the test of
    the JSON spelling of an algorithm. *)

From S2P Require Import Prelude RustStr RustPath Checksum EngineError Fs Atomic Meta FsBase FsEngine Digests TestKit.

#[local] Existing Instance standard_crates.

(** [let mut h = algorithm.hasher(); h.update(..); ..; h.finalize_base64()]. *)
Definition fed (a : ChecksumAlgorithm) (chunks : list str) : str := finalize_base64 (fold_left update chunks (hasher a)).

Definition empty_body_vectors : bool := asserts [
  assert_eq (fed Crc32 []) (b#"AAAAAA==");
  assert_eq (fed Crc32c []) (b#"AAAAAA==");
  assert_eq (fed Sha1 []) (b#"2jmj7l5rSw0yVb/vlWAYkK/YBwk=");
  assert_eq (fed Sha256 []) (b#"47DEQpj8HBSa+/TImW+5JCeuQeRkm5NMpJWZG3hSuFU=");
  assert_eq (fed Crc64Nvme []) (b#"AAAAAAAAAAA=")].

Definition reflected_crc_check_values : bool := asserts [
  assert_eq (fed Crc32c [b#"123456789"]) (base64_encode (to_be_bytes 4 0xE3069283));
  assert_eq (fed Crc64Nvme [b#"123456789"]) (base64_encode (to_be_bytes 8 0xAE8B14860A799888))].

Definition reflected_crc_second_vectors : bool := asserts [
  assert_eq (fed Crc32c [b#"hello world"]) (b#"yZRlqg==");
  assert_eq (b#"yZRlqg==") (base64_encode (to_be_bytes 4 0xC99465AA));
  assert_eq (fed Crc64Nvme [b#"hello world"]) (b#"jSnVw/bqjr4=");
  assert_eq (b#"jSnVw/bqjr4=") (base64_encode (to_be_bytes 8 0x8D29D5C3F6EA8EBE))].

Definition crc32_matches_zlib_and_boto3 : bool := assert_eq (fed Crc32 [b#"hello world"]) (b#"DUoRhQ==").

Definition sha256_matches_known_vector : bool :=
  assert_eq (fed Sha256 [b#"hello world"]) (b#"uU0nuZNNPgilLlLX2n2r+sSE7+N6U4DukIj3rOLvzek=").

Definition chunked_updates_match_a_single_update : bool :=
  assert_eq (fed Sha1 [b#"hello "; b#"world"]) (fed Sha1 [b#"hello world"]).

Definition from_name_is_case_insensitive_and_covers_every_algorithm : bool := asserts [
  assert_eq (from_name (b#"CRC32")) (Some Crc32);
  assert_eq (from_name (b#"crc32c")) (Some Crc32c);
  assert_eq (from_name (b#"sha256")) (Some Sha256);
  assert_eq (from_name (b#"Sha1")) (Some Sha1);
  assert_eq (from_name (b#"CRC64NVME")) (Some Crc64Nvme);
  assert_eq (from_name (b#"nonsense")) None].

Theorem checksum_tests_pass : asserts [empty_body_vectors; reflected_crc_check_values; reflected_crc_second_vectors;
  crc32_matches_zlib_and_boto3; sha256_matches_known_vector; chunked_updates_match_a_single_update;
  from_name_is_case_insensitive_and_covers_every_algorithm] = true.
Proof. by vm_compute. Qed.
