(* ===== verification/TestRun.v ===== *)
(** * Tests that run the engine

    A test of the engine opens a data directory in an empty temporary one, calls the
    engine, looks at the disk behind its back and asserts.  It runs on a machine on
    which nothing fails: a state monad over the world, that a panic stops. *)

From S2P Require Import Prelude RustStr RustPath Codec Paths Checksum EngineError Fs FsFacts Atomic Meta Layer Walk FsBase Listing FsEngine Digests TestKit.

(** ** The machine *)

(** The clock is past the epoch and goes on with every call; names come back from a
    directory in an order that is not the sorted one.  No two of 256 names in a row
    are the same. *)
Definition test_env : Env := {|
  cwd := [];
  name_max := 255;
  path_max := 4095;
  fate_of _ := Proceed;
  clock n := (1700000000000000000 + Z.of_nat n * 1000000)%Z;
  uuid n := b#"0198f0c1-7b3a-4e2d-9f01-2c3d4e5f6a" ++ FsBase.hex_lower [as_u8 (N.of_nat n)];
  dir_order l := reverse l;
  dir_mtime _ := Some 1690000000000000000%Z;
|}.

#[local] Existing Instance test_env.

(** ** Tests in progress *)

(** A test in progress has reached a world, or has panicked. *)
Definition test (A : Type) : Type := world → option (A * world).

#[global] Instance test_ret : MRet test := λ A a w, Some (a, w).
#[global] Instance test_bind : MBind test := λ A B f m w, '(a, w') ← m w; f a w'.

Definition assert (b : bool) : test unit := λ w, if b then Some ((), w) else None.

(** [e.f(..).await]. *)
Definition call {F A} (m : M F A) : test (result A F) := λ w,
  match run m w with (Some r, w') => Some (r, w') | (None, _) => None end.

(** [.unwrap()], of a value and of a call. *)
Definition unwrap_value {F A} (r : result A F) : test A := λ w, match r with Ok a => Some (a, w) | Err _ => None end.
Definition unwrap {F A} (m : M F A) : test A := r ← call m; unwrap_value r.
Definition unwrap_some {A} (o : option A) : test A := λ w, (λ a, (a, w)) <$> o.

(** [assert!(matches!(m.await, Err(e)))]. *)
Definition assert_err {A} (m : M EngineError A) (e : EngineError) : test unit :=
  r ← call m; assert (match r with Ok _ => false | Err e' => bool_decide (e' = e) end).

(** [for x in l { f(x).await }]. *)
Fixpoint for_each {A} (l : list A) (f : A → test unit) : test unit :=
  match l with
  | [] => mret ()
  | x :: l => _ ← f x; for_each l f
  end.

(** ** JSON *)

(** A serialisation that is told from other bytes by its first one, as JSON is told
    from the text that the tests write in its place. *)
Definition marked {A} (S : Serde A) : Serde A := {|
  to_vec a := let? bytes := to_vec a in Ok (c#"J" :: bytes);
  from_slice bytes :=
    match bytes with
    | c :: bytes => if bool_decide (c = c#"J") then from_slice bytes else Err BoxedOther
    | [] => Err BoxedOther
    end;
|}.

Lemma marked_laws {A} (valid : A → Prop) (S : Serde A) : @SerdeLaws A valid S → @SerdeLaws A valid (marked S).
Proof.
  intros [Hr Hv]. split; cbn.
  - intros a Ha. destruct (Hr a Ha) as (bytes & Hto & Hfrom). rewrite Hto. by eexists.
  - intros [|c bytes] a; [done|]. case_bool_decide; [|done]. apply Hv.
Qed.

(** ** [std::fs], as the tests use it *)

(** [std::fs::write], and its success. *)
Definition fs_try_write (p : PathBuf) (data : str) : test (result unit io_error) := λ w,
  let q := resolve p in
  match walk_new (vol (wdisk w)) q, vol (wdisk w) !! q with
  | Err e, _ => Some (Err e, w)
  | Ok _, Some NDir => Some (Err (os_error KIsADirectory), w)
  | Ok _, _ => Some (Ok (), mkWorld (set_vol <[q := NFile data false]> (wdisk w)) (ticks w) (locks w))
  end.

Definition fs_write (p : PathBuf) (data : str) : test unit := r ← fs_try_write p data; unwrap_value r.

Definition fs_read (p : PathBuf) : test str := unwrap (read p).
Definition fs_create_dir_all (p : PathBuf) : test unit := unwrap (create_dir_all p).
Definition fs_remove_file (p : PathBuf) : test unit := unwrap (remove_file p).
Definition fs_remove_dir_all (p : PathBuf) : test unit := unwrap (remove_dir_all p).

(** [std::fs::read_dir(p).unwrap().count()]. *)
Definition entry_count (p : PathBuf) : test nat := ns ← unwrap (read_dir p); mret (length ns).

(** [Path::exists], [Path::is_dir] and [Path::is_file]. *)
Definition look (p : PathBuf) : test (option node) := λ w, Some (ok (walk (vol (wdisk w)) (resolve p)), w).
Definition path_exists (p : PathBuf) : test bool := n ← look p; mret (bool_decide (is_Some n)).
Definition path_is_dir (p : PathBuf) : test bool := n ← look p; mret (bool_decide (n = Some NDir)).
Definition path_is_file (p : PathBuf) : test bool :=
  n ← look p; mret (match n with Some (NFile _ _) => true | _ => false end).

(** ** Running them *)

(** [tempfile::tempdir]. *)
Definition tempdir : PathBuf := parse (b#"/d").
Definition fresh_world : world :=
  let m : tree := {[ [] := NDir; [b#"d"] := NDir ]} in mkWorld (mkDisk m m) 0 ∅.

Definition passes (t : test unit) : bool := bool_decide (is_Some (t fresh_world)).
