(* ===== verification/TestEngine.v ===== *)
(** * The tests of [fs_engine.rs]: buckets and objects

    [mod tests] up to the listing, with the published digests for the crates.  Where
    a test writes JSON into a file the bytes are what [Serde] makes of the value, and
    bytes that are not JSON are bytes it does not read.  Left out are the two races,
    which the theorems about all interleavings cover, the object of more than one read
    chunk, for its size, and the two tests that look into the text of a file or of an
    error. *)

From S2P Require Import Prelude RustStr RustNum RustPath Codec Paths Checksum EngineError Fs FsFacts Atomic Meta Layer Walk FsBase Listing FsEngine FsSamples Digests TestKit TestRun.

#[local] Existing Instance test_env.
#[local] Existing Instance standard_crates.
#[local] Existing Instance standard_md5.
#[local] Instance manifest_json : Serde VersionManifest := marked manifest_codec.
#[local] Instance bucket_meta_json : Serde BucketMeta := marked bucket_meta_codec.
#[local] Instance disk_format_json : Serde DiskFormat := marked disk_format_codec.
#[local] Existing Instance byte_reads.

Import FsEngine.

(** ** Helpers *)

Definition eng : test FsEngine.t := unwrap (open tempdir).

Definition body (b : str) : BoxByteStream := [Ok b].
Definition body_vec (v : str) : BoxByteStream := [Ok v].
Definition body_chunks (chunks : list str) : BoxByteStream := Ok <$> chunks.

(** [PutOpts::default]. *)
Definition default_opts : PutOpts := mkPutOpts None ∅ None.

Definition read_all (s : BoxByteStream) : test str := unwrap_value (collect s).

Definition obj_dir (e : FsEngine.t) (bucket key : str) : PathBuf := object_dir (bucket_dir e bucket) key.

(** ** Objects, the brief *)

Definition put_get_roundtrip : test unit :=
  e ← eng;
  _ ← unwrap (create_bucket e (b#"buk"));
  info ← unwrap (put_object e (b#"buk") (b#"dir/hello.txt") (body (b#"hello world")) default_opts);
  _ ← assert (assert_eq (oi_size info) 11%N);
  _ ← assert (assert_eq (oi_etag info) (b#"5eb63bbbe01eeed093cb22bb8f5acdc3"));
  '(gi, off, len, s) ← unwrap (get_object e (b#"buk") (b#"dir/hello.txt") None);
  _ ← assert (assert_eq (oi_size gi, off, len) (11%N, 0%N, 11%N));
  all ← read_all s;
  assert (assert_eq all (b#"hello world")).

Definition ranged_get : test unit :=
  e ← eng;
  _ ← unwrap (create_bucket e (b#"buk"));
  _ ← unwrap (put_object e (b#"buk") (b#"k") (body (b#"0123456789")) default_opts);
  '(_, off, len, s) ← unwrap (get_object e (b#"buk") (b#"k") (Some (FromTo 2 5)));
  _ ← assert (assert_eq (off, len) (2%N, 4%N));
  all ← read_all s;
  _ ← assert (assert_eq all (b#"2345"));
  '(_, off, len, s) ← unwrap (get_object e (b#"buk") (b#"k") (Some (Suffix 3)));
  _ ← assert (assert_eq (off, len) (7%N, 3%N));
  all ← read_all s;
  _ ← assert (assert_eq all (b#"789"));
  assert_err (get_object e (b#"buk") (b#"k") (Some (From 10))) InvalidRange.

Definition overwrite_replaces : test unit :=
  e ← eng;
  _ ← unwrap (create_bucket e (b#"buk"));
  _ ← unwrap (put_object e (b#"buk") (b#"k") (body (b#"one")) default_opts);
  _ ← unwrap (put_object e (b#"buk") (b#"k") (body (b#"two!")) default_opts);
  '(i, _, _, s) ← unwrap (get_object e (b#"buk") (b#"k") None);
  _ ← assert (assert_eq (oi_size i) 4%N);
  all ← read_all s;
  assert (assert_eq all (b#"two!")).

Definition delete_and_missing : test unit :=
  e ← eng;
  _ ← unwrap (create_bucket e (b#"buk"));
  _ ← unwrap (put_object e (b#"buk") (b#"x/y") (body (b#"z")) default_opts);
  _ ← unwrap (delete_object e (b#"buk") (b#"x/y"));
  _ ← assert_err (head_object e (b#"buk") (b#"x/y")) NoSuchKey;
  _ ← unwrap (delete_object e (b#"buk") (b#"x/y"));
  assert_err (get_object e (b#"nope") (b#"k") None) NoSuchBucket.

Definition a_key_component_over_the_name_limit_is_a_client_error : test unit :=
  e ← eng;
  _ ← unwrap (create_bucket e (b#"buk"));
  let key := replicate 300 c#"n" in
  _ ← assert_err (put_object e (b#"buk") key (body (b#"v")) default_opts) KeyTooLong;
  _ ← assert_err (get_object e (b#"buk") key None) KeyTooLong;
  _ ← assert_err (head_object e (b#"buk") key) KeyTooLong;
  assert_err (delete_object e (b#"buk") key) KeyTooLong.

Definition a_key_component_at_the_name_limit_still_works : test unit :=
  e ← eng;
  _ ← unwrap (create_bucket e (b#"buk"));
  let key := replicate 255 c#"n" in
  _ ← unwrap (put_object e (b#"buk") key (body (b#"v")) default_opts);
  '(_, _, _, s) ← unwrap (get_object e (b#"buk") key None);
  all ← read_all s;
  assert (assert_eq all (b#"v")).

Definition metadata_persisted : test unit :=
  e ← eng;
  _ ← unwrap (create_bucket e (b#"buk"));
  let opts := mkPutOpts (Some (b#"text/plain")) {[ b#"owner" := b#"khan" ]} None in
  _ ← unwrap (put_object e (b#"buk") (b#"k") (body (b#"v")) opts);
  h ← unwrap (head_object e (b#"buk") (b#"k"));
  _ ← assert (assert_eq (oi_content_type h) (b#"text/plain"));
  assert (assert_eq (oi_user_metadata h !! (b#"owner")) (Some (b#"khan"))).

Theorem object_tests_pass : asserts (passes <$> [put_get_roundtrip; ranged_get; overwrite_replaces; delete_and_missing;
  a_key_component_over_the_name_limit_is_a_client_error; a_key_component_at_the_name_limit_still_works;
  metadata_persisted]) = true.
Proof. by vm_compute. Qed.

(** ** Buckets *)

Definition bucket_lifecycle : test unit :=
  e ← eng;
  found ← unwrap (bucket_exists e (b#"photos"));
  _ ← assert (negb found);
  _ ← unwrap (create_bucket e (b#"photos"));
  found ← unwrap (bucket_exists e (b#"photos"));
  _ ← assert found;
  _ ← assert_err (create_bucket e (b#"photos")) BucketAlreadyExists;
  names ← unwrap (list_buckets e);
  _ ← assert (assert_eq (bi_name <$> names) [b#"photos"]);
  _ ← unwrap (delete_bucket e (b#"photos"));
  assert_err (delete_bucket e (b#"photos")) NoSuchBucket.

Definition bucket_name_validation : test unit :=
  e ← eng;
  _ ← for_each [b#"ab"; b#"UPPER"; b#"has_underscore"; b#"-lead"; b#"trail-"; b#"a..b"; b#"192.168.1.1"] (λ bad,
    assert_err (create_bucket e bad) InvalidBucketName);
  for_each [b#"abc"; b#"my-bucket.v2"; b#"a1b2c3"] (λ good, unwrap (create_bucket e good)).

Definition open_sweeps_tmp : test unit :=
  let tmp := push tempdir (b#".aks3/tmp") in
  _ ← fs_create_dir_all tmp;
  _ ← fs_write (push tmp (b#"leftover")) (b#"x");
  _ ← unwrap (open tempdir);
  n ← entry_count tmp;
  assert (assert_eq n 0).

Definition open_creates_the_layout_and_stamps_the_format : test unit :=
  e ← eng;
  there ← path_is_dir (tmp_dir e);
  _ ← assert there;
  there ← path_is_dir (buckets_dir e);
  _ ← assert there;
  bytes ← fs_read (push tempdir (b#".aks3/format.json"));
  format ← unwrap_value (from_slice (A:=DiskFormat) bytes);
  assert (assert_eq (df_format format) DISK_FORMAT).

Definition open_refuses_an_unparsable_format_file : test unit :=
  _ ← fs_create_dir_all (push tempdir (b#".aks3"));
  _ ← fs_write (push tempdir (b#".aks3/format.json")) (b#"not json");
  r ← call (open tempdir);
  assert (match r with Err (Io err) => assert_eq (kind err) KInvalidData | _ => false end).

Definition open_sweeps_only_the_temp_directory : test unit :=
  e ← unwrap (open tempdir);
  _ ← unwrap (create_bucket e (b#"photos"));
  let tmp := tmp_dir e in
  _ ← fs_write (push tmp (b#"aborted.tmp")) (b#"partial upload");
  _ ← fs_create_dir_all (push tmp (b#"stray-dir/inner"));
  e ← unwrap (open tempdir);
  n ← entry_count tmp;
  _ ← assert (assert_eq n 0);
  found ← unwrap (bucket_exists e (b#"photos"));
  _ ← assert found;
  there ← path_is_file (push (bucket_dir e (b#"photos")) (b#".bucket.meta"));
  assert there.

Definition create_bucket_records_a_creation_time : test unit :=
  before ← unwrap (now_epoch_ms (F:=EngineError));
  e ← eng;
  _ ← unwrap (create_bucket e (b#"photos"));
  after ← unwrap (now_epoch_ms (F:=EngineError));
  buckets ← unwrap (list_buckets e);
  first ← unwrap_some (head buckets);
  let created := bi_created_epoch_ms first in
  assert ((before <=? created) && (created <=? after))%N.

Definition a_failed_create_leaves_no_bucket : test unit :=
  e ← eng;
  let tmp := tmp_dir e in
  _ ← fs_remove_dir_all tmp;
  _ ← fs_write tmp (b#"not a directory");
  r ← call (create_bucket e (b#"photos"));
  _ ← assert (match r with Err (Io _) => true | _ => false end);
  found ← unwrap (bucket_exists e (b#"photos"));
  _ ← assert (negb found);
  buckets ← unwrap (list_buckets e);
  assert (bool_decide (buckets = [])).

Definition delete_bucket_refuses_a_non_empty_bucket : test unit :=
  e ← eng;
  _ ← unwrap (create_bucket e (b#"photos"));
  let objects := push (bucket_dir e (b#"photos")) (b#"objects") in
  _ ← fs_create_dir_all objects;
  any ← unwrap (has_any_entry objects);
  _ ← assert (negb any);
  _ ← fs_create_dir_all (push objects (b#"k"));
  _ ← fs_write (push objects (b#"k/__aks3.meta.json")) (b#"{}");
  _ ← assert_err (delete_bucket e (b#"photos")) BucketNotEmpty;
  found ← unwrap (bucket_exists e (b#"photos"));
  _ ← assert found;
  _ ← fs_remove_dir_all (push objects (b#"k"));
  _ ← unwrap (delete_bucket e (b#"photos"));
  there ← path_exists (bucket_dir e (b#"photos"));
  assert (negb there).

Definition bucket_calls_reject_an_invalid_name_without_touching_the_disk : test unit :=
  e ← eng;
  _ ← for_each [b#"../escape"; b#"a/b"; b#".aks3"; b#".."; b#"/etc/passwd"; []] (λ bad,
    _ ← assert_err (create_bucket e bad) InvalidBucketName;
    _ ← assert_err (delete_bucket e bad) InvalidBucketName;
    assert_err (bucket_exists e bad) InvalidBucketName);
  n ← entry_count (push tempdir (b#"buckets"));
  assert (assert_eq n 0).

Definition bucket_name_rules : bool :=
  let longest := replicate 63 c#"a" in
  let too_long := replicate 64 c#"a" in
  asserts [
    each [b#"abc"; b#"a-b"; b#"a.b"; b#"a1b2c3"; b#"my-bucket.v2"; b#"1.2.3.4.5"; b#"1.2.3.4x"; b#"12.34.56"; longest]
      is_valid_bucket_name;
    each [[]; b#"ab"; too_long; b#"UPPER"; b#"has_underscore"; b#"-lead"; b#"trail-"; b#".lead"; b#"trail."; b#"a..b";
          b#"a.-b"; b#"a-.b"; b#"a b"; b#"a/b"; b#".."; b#"192.168.1.1"; b#"1.2.3.4"; b#"255.255.255.255"; b#"010.1.1.1";
          b#"999.999.999.999"; b#"1.2.3.400"; b#"0.0.0.0"; b#"cafés"] (λ bad, negb (is_valid_bucket_name bad))].

Definition ipv4_shape_is_four_groups_of_digits : bool := asserts [
  each [b#"1.2.3.4"; b#"192.168.1.1"; b#"0.0.0.0"; b#"010.1.1.1"; b#"999.999.999.999"; b#"1.2.3.400"; b#"00000.0.0.00000"]
    looks_like_ipv4;
  each [[]; b#"1.2.3"; b#"1.2.3.4.5"; b#"1.2.3."; b#".1.2.3"; b#"1..2.3"; b#"1.2.3.4x"; b#"1.2.3.-4"; b#"a.b.c.d"; b#"1234"]
    (λ unshaped, negb (looks_like_ipv4 unshaped))].

Definition list_buckets_is_sorted_and_ignores_strays : test unit :=
  e ← eng;
  _ ← for_each [b#"zulu"; b#"alpha"; b#"mike"] (λ b, unwrap (create_bucket e b));
  _ ← fs_write (push tempdir (b#"buckets/loose-file")) (b#"x");
  _ ← fs_create_dir_all (push tempdir (b#"buckets/Not_A_Bucket"));
  names ← unwrap (list_buckets e);
  assert (assert_eq (bi_name <$> names) [b#"alpha"; b#"mike"; b#"zulu"]).

Definition a_bucket_whose_meta_never_landed_is_still_a_bucket : test unit :=
  e ← eng;
  _ ← unwrap (create_bucket e (b#"photos"));
  _ ← fs_remove_file (push (bucket_dir e (b#"photos")) (b#".bucket.meta"));
  found ← unwrap (bucket_exists e (b#"photos"));
  _ ← assert found;
  buckets ← unwrap (list_buckets e);
  _ ← assert (assert_eq (length buckets) 1);
  first ← unwrap_some (head buckets);
  _ ← assert (0 <? bi_created_epoch_ms first)%N;
  unwrap (delete_bucket e (b#"photos")).

Definition a_corrupt_bucket_meta_does_not_fail_the_listing : test unit :=
  e ← eng;
  _ ← unwrap (create_bucket e (b#"photos"));
  _ ← fs_write (push (bucket_dir e (b#"photos")) (b#".bucket.meta")) (b#"{");
  buckets ← unwrap (list_buckets e);
  _ ← assert (assert_eq (length buckets) 1);
  first ← unwrap_some (head buckets);
  assert (0 <? bi_created_epoch_ms first)%N.

Definition a_file_where_a_bucket_would_go_is_not_a_bucket : test unit :=
  e ← eng;
  _ ← fs_write (push tempdir (b#"buckets/photos")) (b#"x");
  found ← unwrap (bucket_exists e (b#"photos"));
  _ ← assert (negb found);
  buckets ← unwrap (list_buckets e);
  _ ← assert (bool_decide (buckets = []));
  assert_err (create_bucket e (b#"photos")) BucketAlreadyExists.

Theorem bucket_tests_pass : asserts ((passes <$> [bucket_lifecycle; bucket_name_validation; open_sweeps_tmp;
  open_creates_the_layout_and_stamps_the_format; open_refuses_an_unparsable_format_file; open_sweeps_only_the_temp_directory;
  create_bucket_records_a_creation_time; a_failed_create_leaves_no_bucket; delete_bucket_refuses_a_non_empty_bucket;
  bucket_calls_reject_an_invalid_name_without_touching_the_disk; list_buckets_is_sorted_and_ignores_strays;
  a_bucket_whose_meta_never_landed_is_still_a_bucket; a_corrupt_bucket_meta_does_not_fail_the_listing;
  a_file_where_a_bucket_would_go_is_not_a_bucket]) ++ [bucket_name_rules; ipv4_shape_is_four_groups_of_digits]) = true.
Proof. by vm_compute. Qed.

(** ** Objects, beyond the brief *)

Definition range_resolution : bool := asserts [
  assert_eq (resolve_range None 10) (Ok (0, 10)%N);
  assert_eq (resolve_range None 0) (Ok (0, 0)%N);
  assert_eq (resolve_range (Some (FromTo 0 9)) 10) (Ok (0, 10)%N);
  assert_eq (resolve_range (Some (FromTo 0 100)) 10) (Ok (0, 10)%N);
  assert_eq (resolve_range (Some (FromTo 9 9)) 10) (Ok (9, 1)%N);
  assert_eq (resolve_range (Some (From 0)) 10) (Ok (0, 10)%N);
  assert_eq (resolve_range (Some (From 9)) 10) (Ok (9, 1)%N);
  assert_eq (resolve_range (Some (Suffix 1)) 10) (Ok (9, 1)%N);
  assert_eq (resolve_range (Some (Suffix 10)) 10) (Ok (0, 10)%N);
  assert_eq (resolve_range (Some (Suffix 99)) 10) (Ok (0, 10)%N);
  each [FromTo 10 12; FromTo 5 2; From 10; From 99; Suffix 0] (λ bad,
    assert_eq (resolve_range (Some bad) 10) (Err InvalidRange));
  each [FromTo 0 0; From 0; Suffix 1; Suffix 0] (λ bad,
    assert_eq (resolve_range (Some bad) 0) (Err InvalidRange))].

(** [Md5::digest]. *)
Definition md5_of (data : str) : str := md5_finalize (md5_update md5_new data).

Definition hex_is_lowercase_and_zero_padded : bool := asserts [
  assert_eq (hex_lower [Byte.x00; Byte.x0f; Byte.xff; Byte.xa5]) (b#"000fffa5");
  assert_eq (hex_lower []) [];
  assert_eq (hex_lower (md5_of [])) (b#"d41d8cd98f00b204e9800998ecf8427e")].

Definition an_empty_object_roundtrips_and_has_no_satisfiable_range : test unit :=
  e ← eng;
  _ ← unwrap (create_bucket e (b#"buk"));
  info ← unwrap (put_object e (b#"buk") (b#"empty") (body []) default_opts);
  _ ← assert (assert_eq (oi_size info) 0%N);
  _ ← assert (assert_eq (oi_etag info) (b#"d41d8cd98f00b204e9800998ecf8427e"));
  '(gi, off, len, s) ← unwrap (get_object e (b#"buk") (b#"empty") None);
  _ ← assert (assert_eq (oi_size gi, off, len) (0%N, 0%N, 0%N));
  all ← read_all s;
  _ ← assert (bool_decide (all = []));
  assert_err (get_object e (b#"buk") (b#"empty") (Some (From 0))) InvalidRange.

Definition a_body_arriving_in_chunks_is_hashed_and_stored_whole : test unit :=
  e ← eng;
  _ ← unwrap (create_bucket e (b#"buk"));
  info ← unwrap (put_object e (b#"buk") (b#"k") (body_chunks [b#"hello"; []; b#" "; b#"world"]) default_opts);
  _ ← assert (assert_eq (oi_size info) 11%N);
  _ ← assert (assert_eq (oi_etag info) (b#"5eb63bbbe01eeed093cb22bb8f5acdc3"));
  '(_, _, _, s) ← unwrap (get_object e (b#"buk") (b#"k") None);
  all ← read_all s;
  assert (assert_eq all (b#"hello world")).

Definition put_defaults_the_content_type : test unit :=
  e ← eng;
  _ ← unwrap (create_bucket e (b#"buk"));
  _ ← unwrap (put_object e (b#"buk") (b#"silent") (body (b#"v")) default_opts);
  h ← unwrap (head_object e (b#"buk") (b#"silent"));
  _ ← assert (assert_eq (oi_content_type h) (b#"application/octet-stream"));
  _ ← unwrap (put_object e (b#"buk") (b#"blank") (body (b#"v")) (mkPutOpts (Some []) ∅ None));
  h ← unwrap (head_object e (b#"buk") (b#"blank"));
  assert (assert_eq (oi_content_type h) (b#"application/octet-stream")).

Definition object_calls_report_a_missing_or_invalid_bucket : test unit :=
  e ← eng;
  _ ← assert_err (put_object e (b#"absent") (b#"k") (body (b#"v")) default_opts) NoSuchBucket;
  _ ← assert_err (head_object e (b#"absent") (b#"k")) NoSuchBucket;
  _ ← assert_err (delete_object e (b#"absent") (b#"k")) NoSuchBucket;
  for_each [b#"../escape"; b#"a/b"; b#".."; []] (λ bad,
    _ ← assert_err (put_object e bad (b#"k") (body (b#"v")) default_opts) InvalidBucketName;
    _ ← assert_err (get_object e bad (b#"k") None) InvalidBucketName;
    _ ← assert_err (head_object e bad (b#"k")) InvalidBucketName;
    assert_err (delete_object e bad (b#"k")) InvalidBucketName).

Definition an_unwritten_key_is_absent_and_deleting_it_succeeds : test unit :=
  e ← eng;
  _ ← unwrap (create_bucket e (b#"buk"));
  _ ← assert_err (head_object e (b#"buk") (b#"never")) NoSuchKey;
  _ ← assert_err (get_object e (b#"buk") (b#"never") None) NoSuchKey;
  unwrap (delete_object e (b#"buk") (b#"never")).

(** [format!("value-{i}")]. *)
Definition value_of (i : nat) : str := b#"value-" ++ to_string (N.of_nat i).

Definition keys_the_filesystem_would_choke_on_roundtrip_and_stay_separate : test unit :=
  e ← eng;
  _ ← unwrap (create_bucket e (b#"buk"));
  let keys := [[]; b#".."; b#"."; b#"a/../b"; b#"a//b"; b#"trailing/"; META_FILE; b#"__aks3.v.null.data"; b#"dir/😀/emoji";
               b#"back\slash"; b#"pct%25"] in
  _ ← for_each (imap pair keys) (λ '(i, k),
    _ ← unwrap (put_object e (b#"buk") k (body_vec (value_of i)) default_opts); mret ());
  _ ← for_each (imap pair keys) (λ '(i, k),
    '(_, _, _, s) ← unwrap (get_object e (b#"buk") k None);
    all ← read_all s;
    assert (assert_eq all (value_of i)));
  _ ← for_each keys (λ k,
    _ ← unwrap (delete_object e (b#"buk") k);
    assert_err (head_object e (b#"buk") k) NoSuchKey);
  unwrap (delete_bucket e (b#"buk")).

Definition the_on_disk_layout_is_what_the_module_documents : test unit :=
  e ← eng;
  _ ← unwrap (create_bucket e (b#"buk"));
  _ ← unwrap (put_object e (b#"buk") (b#"dir/hello.txt") (body (b#"hi")) default_opts);
  let dir := push (bucket_dir e (b#"buk")) (b#"objects/dir/hello.txt") in
  there ← path_is_file (push dir (b#"__aks3.meta.json"));
  _ ← assert there;
  there ← path_is_file (push dir (b#"__aks3.v.null.data"));
  _ ← assert there;
  data ← fs_read (push dir (b#"__aks3.v.null.data"));
  _ ← assert (assert_eq data (b#"hi"));
  n ← entry_count (tmp_dir e);
  assert (assert_eq n 0).

Definition delete_prunes_its_own_directories_and_leaves_siblings_alone : test unit :=
  e ← eng;
  _ ← unwrap (create_bucket e (b#"buk"));
  _ ← unwrap (put_object e (b#"buk") (b#"a/b/c") (body (b#"c")) default_opts);
  _ ← unwrap (put_object e (b#"buk") (b#"a/b/d") (body (b#"d")) default_opts);
  _ ← unwrap (delete_object e (b#"buk") (b#"a/b/c"));
  there ← path_exists (obj_dir e (b#"buk") (b#"a/b/c"));
  _ ← assert (negb there);
  there ← path_is_dir (obj_dir e (b#"buk") (b#"a/b/d"));
  _ ← assert there;
  '(_, _, _, s) ← unwrap (get_object e (b#"buk") (b#"a/b/d") None);
  all ← read_all s;
  _ ← assert (assert_eq all (b#"d"));
  _ ← assert_err (delete_bucket e (b#"buk")) BucketNotEmpty;
  _ ← unwrap (delete_object e (b#"buk") (b#"a/b/d"));
  let objects := push (bucket_dir e (b#"buk")) OBJECTS_DIR in
  there ← path_is_dir objects;
  _ ← assert there;
  any ← unwrap (has_any_entry objects);
  _ ← assert (negb any);
  unwrap (delete_bucket e (b#"buk")).

Definition objects_survive_reopening_the_engine : test unit :=
  e ← unwrap (open tempdir);
  _ ← unwrap (create_bucket e (b#"buk"));
  put ← unwrap (put_object e (b#"buk") (b#"dir/k") (body (b#"durable")) default_opts);
  e ← unwrap (open tempdir);
  head ← unwrap (head_object e (b#"buk") (b#"dir/k"));
  _ ← assert (assert_eq (oi_size head, oi_etag head) (oi_size put, oi_etag put));
  _ ← assert (assert_eq (oi_key head) (b#"dir/k"));
  '(_, _, _, s) ← unwrap (get_object e (b#"buk") (b#"dir/k") None);
  all ← read_all s;
  assert (assert_eq all (b#"durable")).

(** [manifest.versions[0].delete_marker = true]. *)
Definition mark_first (m : VersionManifest) : VersionManifest :=
  mkVersionManifest (format m)
    (match versions m with
     | v :: vs => mkVersionEntry (version_id v) (etag v) (size v) (content_type v) (user_metadata v) (mtime_epoch_ms v) true
                    (checksum v) :: vs
     | [] => []
     end).

Definition a_corrupt_manifest_is_an_error_not_an_absent_object : test unit :=
  e ← eng;
  _ ← unwrap (create_bucket e (b#"buk"));
  _ ← unwrap (put_object e (b#"buk") (b#"k") (body (b#"v")) default_opts);
  _ ← fs_write (push (obj_dir e (b#"buk") (b#"k")) META_FILE) (b#"{ not json");
  let invalid {A} (r : result A EngineError) := match r with Err (Io err) => assert_eq (kind err) KInvalidData | _ => false end in
  r ← call (head_object e (b#"buk") (b#"k"));
  _ ← assert (invalid r);
  r ← call (get_object e (b#"buk") (b#"k") None);
  _ ← assert (invalid r);
  _ ← unwrap (delete_object e (b#"buk") (b#"k"));
  assert_err (head_object e (b#"buk") (b#"k")) NoSuchKey.

Definition a_delete_marker_at_the_head_reads_as_absent : test unit :=
  e ← eng;
  _ ← unwrap (create_bucket e (b#"buk"));
  _ ← unwrap (put_object e (b#"buk") (b#"k") (body (b#"v")) default_opts);
  let path := push (obj_dir e (b#"buk") (b#"k")) META_FILE in
  loaded ← unwrap (load_manifest path);
  manifest ← unwrap_some loaded;
  _ ← unwrap (store_manifest (tmp_dir e) path (mark_first manifest));
  _ ← assert_err (head_object e (b#"buk") (b#"k")) NoSuchKey;
  assert_err (get_object e (b#"buk") (b#"k") None) NoSuchKey.

Definition an_empty_manifest_reads_as_absent : test unit :=
  e ← eng;
  _ ← unwrap (create_bucket e (b#"buk"));
  let dir := obj_dir e (b#"buk") (b#"k") in
  _ ← unwrap (store_manifest (tmp_dir e) (push dir META_FILE) new_manifest);
  assert_err (head_object e (b#"buk") (b#"k")) NoSuchKey.

Definition a_delete_landing_mid_read_reads_as_absent_not_as_a_broken_store : test unit :=
  e ← eng;
  _ ← unwrap (create_bucket e (b#"buk"));
  _ ← unwrap (put_object e (b#"buk") (b#"k") (body (b#"v")) default_opts);
  _ ← fs_remove_file (push (obj_dir e (b#"buk") (b#"k")) (b#"__aks3.v.null.data"));
  _ ← assert_err (get_object e (b#"buk") (b#"k") None) NoSuchKey;
  h ← unwrap (head_object e (b#"buk") (b#"k"));
  assert (assert_eq (oi_size h) 1%N).

Definition a_data_file_shorter_than_its_manifest_fails_the_read : test unit :=
  e ← eng;
  _ ← unwrap (create_bucket e (b#"buk"));
  _ ← unwrap (put_object e (b#"buk") (b#"k") (body (b#"0123456789")) default_opts);
  _ ← fs_write (push (obj_dir e (b#"buk") (b#"k")) (b#"__aks3.v.null.data")) (b#"012");
  '(_, _, len, s) ← unwrap (get_object e (b#"buk") (b#"k") None);
  _ ← assert (assert_eq len 10%N);
  assert (match s with
    | [Ok chunk; Err err] => assert_eq chunk (b#"012") && assert_eq (kind err) KUnexpectedEof
    | _ => false
    end).

Definition a_failing_body_publishes_nothing_and_leaves_no_temp_file : test unit :=
  e ← eng;
  _ ← unwrap (create_bucket e (b#"buk"));
  let hung_up := [Ok (b#"partial"); Err (io_error_other BoxedOther)] in
  r ← call (put_object e (b#"buk") (b#"k") hung_up default_opts);
  _ ← assert (match r with Err (Io _) => true | _ => false end);
  _ ← assert_err (head_object e (b#"buk") (b#"k")) NoSuchKey;
  there ← path_exists (obj_dir e (b#"buk") (b#"k"));
  _ ← assert (negb there);
  n ← entry_count (tmp_dir e);
  _ ← assert (assert_eq n 0);
  unwrap (delete_bucket e (b#"buk")).

Definition overwriting_does_not_grow_the_version_history : test unit :=
  e ← eng;
  _ ← unwrap (create_bucket e (b#"buk"));
  _ ← for_each [b#"one"; b#"two"; b#"three"] (λ body_bytes,
    _ ← unwrap (put_object e (b#"buk") (b#"k") (body_vec body_bytes) default_opts); mret ());
  loaded ← unwrap (load_manifest (push (obj_dir e (b#"buk") (b#"k")) META_FILE));
  manifest ← unwrap_some loaded;
  _ ← assert (assert_eq (length (versions manifest)) 1);
  _ ← assert (assert_eq (version_id <$> head (versions manifest)) (Some (b#"null")));
  files ← entry_count (obj_dir e (b#"buk") (b#"k"));
  assert (assert_eq files 2).

Definition a_put_after_delete_bucket_finds_no_bucket_and_recreates_cleanly : test unit :=
  e ← eng;
  _ ← unwrap (create_bucket e (b#"buk"));
  _ ← unwrap (delete_bucket e (b#"buk"));
  _ ← assert_err (put_object e (b#"buk") (b#"k") (body (b#"v")) default_opts) NoSuchBucket;
  found ← unwrap (bucket_exists e (b#"buk"));
  _ ← assert (negb found);
  buckets ← unwrap (list_buckets e);
  _ ← assert (bool_decide (buckets = []));
  _ ← unwrap (create_bucket e (b#"buk"));
  _ ← unwrap (put_object e (b#"buk") (b#"k") (body (b#"v")) default_opts);
  '(_, _, _, s) ← unwrap (get_object e (b#"buk") (b#"k") None);
  all ← read_all s;
  _ ← assert (assert_eq all (b#"v"));
  there ← path_is_file (push (bucket_dir e (b#"buk")) BUCKET_META_FILE);
  assert there.

(** [e.key_locks.is_empty()] and [e.bucket_locks.is_empty()]. *)
Definition no_locks : test bool := λ w, Some (bool_decide (locks w = ∅), w).

Definition the_lock_tables_do_not_outlive_the_work : test unit :=
  e ← eng;
  _ ← unwrap (create_bucket e (b#"locks"));
  _ ← for_each (seq 0 32) (λ i,
    let key := b#"k" ++ to_string (N.of_nat i) in
    _ ← unwrap (put_object e (b#"locks") key (body (b#"v")) default_opts);
    _ ← unwrap (head_object e (b#"locks") key);
    unwrap (delete_object e (b#"locks") key));
  _ ← unwrap (delete_bucket e (b#"locks"));
  none ← no_locks;
  assert none.

Theorem more_object_tests_pass : asserts ((passes <$> [an_empty_object_roundtrips_and_has_no_satisfiable_range;
  a_body_arriving_in_chunks_is_hashed_and_stored_whole; put_defaults_the_content_type;
  object_calls_report_a_missing_or_invalid_bucket; an_unwritten_key_is_absent_and_deleting_it_succeeds;
  keys_the_filesystem_would_choke_on_roundtrip_and_stay_separate; the_on_disk_layout_is_what_the_module_documents;
  delete_prunes_its_own_directories_and_leaves_siblings_alone; objects_survive_reopening_the_engine;
  a_corrupt_manifest_is_an_error_not_an_absent_object; a_delete_marker_at_the_head_reads_as_absent;
  an_empty_manifest_reads_as_absent; a_delete_landing_mid_read_reads_as_absent_not_as_a_broken_store;
  a_data_file_shorter_than_its_manifest_fails_the_read; a_failing_body_publishes_nothing_and_leaves_no_temp_file;
  overwriting_does_not_grow_the_version_history; a_put_after_delete_bucket_finds_no_bucket_and_recreates_cleanly;
  the_lock_tables_do_not_outlive_the_work]) ++ [range_resolution; hex_is_lowercase_and_zero_padded]) = true.
Proof. by vm_compute. Qed.
