(* ===== verification/TestListing.v ===== *)
(** * The tests of [fs_engine.rs]: listing, and the property tests

    The rest of [mod tests], and [mod proptests], whose properties hold of every
    input. *)

From S2P Require Import Prelude RustStr RustNum RustPath Codec Paths Checksum EngineError Fs FsFacts Atomic Meta Layer Walk FsBase Listing FsEngine FsSamples Digests TestKit TestRun TestEngine.

#[local] Existing Instance test_env.
#[local] Existing Instance standard_crates.
#[local] Existing Instance standard_md5.
#[local] Existing Instance manifest_json.
#[local] Existing Instance bucket_meta_json.
#[local] Existing Instance disk_format_json.
#[local] Existing Instance byte_reads.

Import FsEngine.

(** ** Listing, the brief *)

(** [ListParams { prefix, delimiter, continuation_token, start_after, max_keys }]. *)
Abbreviation params := mkListParams.

Definition put_each (e : FsEngine.t) (keys : list str) : test unit :=
  for_each keys (λ k, _ ← unwrap (put_object e (b#"buk") k (body (b#"x")) default_opts); mret ()).

Definition seed (e : FsEngine.t) : test unit :=
  _ ← unwrap (create_bucket e (b#"buk"));
  put_each e [b#"a.txt"; b#"dir/one"; b#"dir/two"; b#"dir/sub/deep"; b#"z.txt"].

Definition listed (r : ListResult) : list str := oi_key <$> lr_objects r.

Definition plain_listing_sorted : test unit :=
  e ← eng; _ ← seed e;
  r ← unwrap (list_objects_v2 e (b#"buk") (params None None None None 1000));
  _ ← assert (assert_eq (listed r) [b#"a.txt"; b#"dir/one"; b#"dir/sub/deep"; b#"dir/two"; b#"z.txt"]);
  assert (negb (lr_is_truncated r)).

Definition delimiter_folds_common_prefixes : test unit :=
  e ← eng; _ ← seed e;
  r ← unwrap (list_objects_v2 e (b#"buk") (params None (Some (b#"/")) None None 1000));
  _ ← assert (assert_eq (listed r) [b#"a.txt"; b#"z.txt"]);
  assert (assert_eq (lr_common_prefixes r) [b#"dir/"]).

Definition prefix_and_delimiter : test unit :=
  e ← eng; _ ← seed e;
  r ← unwrap (list_objects_v2 e (b#"buk") (params (Some (b#"dir/")) (Some (b#"/")) None None 1000));
  _ ← assert (assert_eq (listed r) [b#"dir/one"; b#"dir/two"]);
  assert (assert_eq (lr_common_prefixes r) [b#"dir/sub/"]).

Definition pagination_with_continuation : test unit :=
  e ← eng; _ ← seed e;
  p1 ← unwrap (list_objects_v2 e (b#"buk") (params None None None None 2));
  _ ← assert (assert_eq (length (lr_objects p1)) 2);
  _ ← assert (lr_is_truncated p1);
  p2 ← unwrap (list_objects_v2 e (b#"buk") (params None None (lr_next_continuation_token p1) None 2));
  _ ← assert (assert_eq (oi_key <$> head (lr_objects p2)) (Some (b#"dir/sub/deep")));
  p3 ← unwrap (list_objects_v2 e (b#"buk") (params None None (lr_next_continuation_token p2) None 100));
  _ ← assert (assert_eq (length (lr_objects p3)) 1);
  _ ← assert (negb (lr_is_truncated p3));
  assert (bool_decide (lr_next_continuation_token p3 = None)).

(** ** Listing, beyond the brief *)

(** The helper [list]: a budget that nothing here reaches. *)
Definition list_all (e : FsEngine.t) (bucket : str) (p : ListParams) : test ListResult :=
  unwrap (list_objects_v2 e bucket
    (params (lp_prefix p) (lp_delimiter p) (lp_continuation_token p) (lp_start_after p) 1000)).

(** [ListParams::default]. *)
Definition default_params : ListParams := params None None None None 0.

Definition mark_deleted (e : FsEngine.t) (bucket key : str) : test unit :=
  let path := push (obj_dir e bucket key) META_FILE in
  loaded ← unwrap (load_manifest path);
  m ← unwrap_some loaded;
  unwrap (store_manifest (tmp_dir e) path (mark_first m)).

Definition listing_reports_the_bucket_it_was_asked_for : test unit :=
  e ← eng; _ ← seed e;
  _ ← assert_err (list_objects_v2 e (b#"other") default_params) NoSuchBucket;
  assert_err (list_objects_v2 e (b#"../escape") default_params) InvalidBucketName.

Definition a_bucket_with_no_object_tree_lists_empty : test unit :=
  e ← eng;
  _ ← unwrap (create_bucket e (b#"buk"));
  there ← path_exists (push (bucket_dir e (b#"buk")) (b#"objects"));
  _ ← assert (negb there);
  r ← list_all e (b#"buk") default_params;
  _ ← assert (bool_decide (lr_objects r = []));
  _ ← assert (bool_decide (lr_common_prefixes r = []));
  assert (negb (lr_is_truncated r)).

Definition max_keys_zero_is_an_empty_page_that_is_not_truncated : test unit :=
  e ← eng; _ ← seed e;
  r ← unwrap (list_objects_v2 e (b#"buk") default_params);
  _ ← assert (bool_decide (lr_objects r = []));
  _ ← assert (negb (lr_is_truncated r));
  assert (bool_decide (lr_next_continuation_token r = None)).

Definition a_page_that_exactly_holds_the_listing_is_not_truncated : test unit :=
  e ← eng; _ ← seed e;
  r ← unwrap (list_objects_v2 e (b#"buk") (params None None None None 5));
  _ ← assert (assert_eq (length (lr_objects r)) 5);
  _ ← assert (negb (lr_is_truncated r));
  assert (bool_decide (lr_next_continuation_token r = None)).

Definition paging_a_folded_listing_advances_past_the_common_prefix : test unit :=
  e ← eng; _ ← seed e;
  let page token := unwrap (list_objects_v2 e (b#"buk") (params None (Some (b#"/")) token None 1)) in
  p1 ← page None;
  _ ← assert (assert_eq (listed p1) [b#"a.txt"]);
  _ ← assert (lr_is_truncated p1);
  p2 ← page (lr_next_continuation_token p1);
  _ ← assert (bool_decide (lr_objects p2 = []));
  _ ← assert (assert_eq (lr_common_prefixes p2) [b#"dir/"]);
  _ ← assert (assert_eq (lr_next_continuation_token p2) (Some (b#"dir/")));
  _ ← assert (lr_is_truncated p2);
  p3 ← page (lr_next_continuation_token p2);
  _ ← assert (assert_eq (listed p3) [b#"z.txt"]);
  assert (negb (lr_is_truncated p3)).

Definition the_later_of_the_token_and_start_after_wins : test unit :=
  e ← eng; _ ← seed e;
  for_each [(b#"a.txt", b#"dir/two"); (b#"dir/two", b#"a.txt")] (λ '(token, after),
    r ← list_all e (b#"buk") (params None None (Some token) (Some after) 0);
    assert (assert_eq (listed r) [b#"z.txt"])).

Definition start_after_alone_is_exclusive : test unit :=
  e ← eng; _ ← seed e;
  r ← list_all e (b#"buk") (params None None None (Some (b#"dir/one")) 0);
  assert (assert_eq (listed r) [b#"dir/sub/deep"; b#"dir/two"; b#"z.txt"]).

Definition a_prefix_can_cut_a_key_component_in_half : test unit :=
  e ← eng; _ ← seed e;
  r ← list_all e (b#"buk") (params (Some (b#"di")) (Some (b#"/")) None None 0);
  _ ← assert (bool_decide (lr_objects r = []));
  assert (assert_eq (lr_common_prefixes r) [b#"dir/"]).

Definition a_delimiter_need_not_be_a_slash : test unit :=
  e ← eng;
  _ ← unwrap (create_bucket e (b#"buk"));
  _ ← put_each e [b#"aXXb"; b#"aXXc"; b#"plain"];
  r ← list_all e (b#"buk") (params None (Some (b#"XX")) None None 0);
  _ ← assert (assert_eq (listed r) [b#"plain"]);
  assert (assert_eq (lr_common_prefixes r) [b#"aXX"]).

Definition an_empty_delimiter_folds_nothing : test unit :=
  e ← eng; _ ← seed e;
  r ← list_all e (b#"buk") (params None (Some []) None None 0);
  _ ← assert (assert_eq (length (lr_objects r)) 5);
  assert (bool_decide (lr_common_prefixes r = [])).

Definition a_deleted_key_leaves_the_listing : test unit :=
  e ← eng; _ ← seed e;
  _ ← unwrap (delete_object e (b#"buk") (b#"dir/sub/deep"));
  _ ← unwrap (delete_object e (b#"buk") (b#"a.txt"));
  r ← list_all e (b#"buk") default_params;
  assert (assert_eq (listed r) [b#"dir/one"; b#"dir/two"; b#"z.txt"]).

Definition delete_marker_heads_are_skipped : test unit :=
  e ← eng;
  _ ← unwrap (create_bucket e (b#"buk"));
  _ ← put_each e [b#"gone/a"; b#"gone/b"; b#"live/x"; b#"z"];
  _ ← for_each [b#"gone/a"; b#"gone/b"] (λ k, mark_deleted e (b#"buk") k);
  flat ← list_all e (b#"buk") default_params;
  _ ← assert (assert_eq (listed flat) [b#"live/x"; b#"z"]);
  folded ← unwrap (list_objects_v2 e (b#"buk") (params None (Some (b#"/")) None None 1));
  _ ← assert (bool_decide (lr_objects folded = []));
  _ ← assert (assert_eq (lr_common_prefixes folded) [b#"live/"]);
  assert (lr_is_truncated folded).

Definition a_listing_entry_carries_the_whole_object : test unit :=
  e ← eng;
  _ ← unwrap (create_bucket e (b#"buk"));
  let opts := mkPutOpts (Some (b#"text/plain")) {[ b#"owner" := b#"khan" ]} None in
  put ← unwrap (put_object e (b#"buk") (b#"k") (body (b#"hello")) opts);
  r ← list_all e (b#"buk") default_params;
  match lr_objects r with
  | [got] =>
      _ ← assert (assert_eq (oi_key got) (b#"k"));
      _ ← assert (assert_eq (oi_size got) 5%N);
      _ ← assert (assert_eq (oi_etag got) (oi_etag put));
      _ ← assert (assert_eq (oi_content_type got) (b#"text/plain"));
      _ ← assert (assert_eq (oi_user_metadata got !! (b#"owner")) (Some (b#"khan")));
      assert (assert_eq (oi_mtime_epoch_ms got) (oi_mtime_epoch_ms put))
  | _ => assert false
  end.

Definition keys_the_filesystem_would_choke_on_come_back_intact_and_in_order : test unit :=
  e ← eng;
  _ ← unwrap (create_bucket e (b#"buk"));
  let keys := [[]; b#".."; META_FILE; b#"a/"; b#"a/b"; b#"café"; b#"pct%"; b#"tab" ++ [Byte.x09] ++ b#"x"; b#"😀/emoji"] in
  _ ← put_each e keys;
  r ← list_all e (b#"buk") default_params;
  assert (assert_eq (listed r) (sort_by str_leb keys)).

Theorem listing_tests_pass : asserts (passes <$> [plain_listing_sorted; delimiter_folds_common_prefixes; prefix_and_delimiter;
  pagination_with_continuation; listing_reports_the_bucket_it_was_asked_for; a_bucket_with_no_object_tree_lists_empty;
  max_keys_zero_is_an_empty_page_that_is_not_truncated; a_page_that_exactly_holds_the_listing_is_not_truncated;
  paging_a_folded_listing_advances_past_the_common_prefix; the_later_of_the_token_and_start_after_wins;
  start_after_alone_is_exclusive; a_prefix_can_cut_a_key_component_in_half; a_delimiter_need_not_be_a_slash;
  an_empty_delimiter_folds_nothing; a_deleted_key_leaves_the_listing; delete_marker_heads_are_skipped;
  a_listing_entry_carries_the_whole_object; keys_the_filesystem_would_choke_on_come_back_intact_and_in_order]) = true.
Proof. by vm_compute. Qed.
