(* ===== verification/TestProps.v ===== *)
(** * The property tests of [fs_engine.rs]

    The arithmetic of ranged reads and of listing beside the naive models that
    [mod proptests] compares it with, and the two unit tests of the same functions.
    The property tests are shown to pass on every input: [naive_range] and
    [naive_fold] are reference definitions of [resolve_range] and
    [common_prefix_of]. *)

From S2P Require Import Prelude RustStr Checksum Meta EngineError Layer FsBase TestKit.

(** ** The unit tests *)

Definition the_start_bound_is_the_later_of_the_two : bool :=
  let params token after := mkListParams None None token after 0 in asserts [
  assert_eq (start_bound (params None None)) None;
  assert_eq (start_bound (params (Some (b#"a")) None)) (Some (b#"a"));
  assert_eq (start_bound (params None (Some (b#"b")))) (Some (b#"b"));
  assert_eq (start_bound (params (Some (b#"a")) (Some (b#"b")))) (Some (b#"b"));
  assert_eq (start_bound (params (Some (b#"b")) (Some (b#"a")))) (Some (b#"b"))].

Definition folding_takes_the_first_delimiter_past_the_prefix : bool := asserts [
  assert_eq (common_prefix_of (b#"a/b/c") 0 (b#"/")) (Some (Some (b#"a/")));
  assert_eq (common_prefix_of (b#"a/b/c") 2 (b#"/")) (Some (Some (b#"a/b/")));
  assert_eq (common_prefix_of (b#"a/b/c") 4 (b#"/")) (Some None);
  assert_eq (common_prefix_of (b#"aXXbXXc") 0 (b#"XX")) (Some (Some (b#"aXX")));
  assert_eq (common_prefix_of (b#"a/") 0 (b#"/")) (Some (Some (b#"a/")));
  assert_eq (common_prefix_of (b#"😀/x") 0 (b#"/")) (Some (Some (b#"😀/")))].

(** ** The naive models *)

(** The filter of [naive_range]: whether byte [i] is selected. *)
Definition selects (range : ByteRange) (size i : N) : bool :=
  match range with
  | FromTo first last => (first <=? i)%N && (i <=? last)%N
  | From first => (first <=? i)%N
  | Suffix n => (size - n <=? i)%N
  end.

(** The outer [None] is the failure of the assertion that the run is contiguous. *)
Definition naive_range (range : ByteRange) (size : N) : option (option (N * N)) :=
  let selected := filter (λ i, selects range size i = true) (N.of_nat <$> seq 0 (N.to_nat size)) in
  match head selected, last selected with
  | Some first, Some last =>
      let len := N.of_nat (length selected) in
      if bool_decide (last - first + 1 = len)%N then Some (Some (first, len)) else None
  | _, _ => Some None
  end.

(** The outer [None] is the panic of [key[..i + delimiter.len()]] off a boundary. *)
Definition naive_fold (key : str) (prefix_len : nat) (delimiter : str) : option (option str) :=
  let holds i := match slice_from key i with Some rest => starts_with rest delimiter | None => false end in
  match list_find (λ i, holds i = true) (seq prefix_len (S (length key) - prefix_len)) with
  | None => Some None
  | Some (_, i) => Some <$> slice_to key (i + length delimiter)
  end.

(** ** The properties *)

Definition resolve_range_matches_the_naive_model (size : N) (range : ByteRange) : bool :=
  match resolve_range (Some range) size, naive_range range size with
  | Ok got, Some (Some want) => assert_eq got want
  | Err InvalidRange, Some None => true
  | _, _ => false
  end.

Definition no_range_reads_the_whole_object (size : N) : bool :=
  match resolve_range None size with Ok got => assert_eq got (0%N, size) | Err _ => false end.

(** [offset.checked_add(len)] is [None] past [u64::MAX]. *)
Definition a_resolved_range_never_leaves_the_object (size : N) (range : ByteRange) : bool :=
  match resolve_range (Some range) size with
  | Ok (offset, len) => (offset + len <? 2 ^ 64)%N && (offset + len <=? size)%N
  | Err _ => true
  end.

(** [iter().max()]. *)
Definition max_str (l : list str) : option str :=
  foldl (λ acc s, match acc with Some m => Some (if str_leb m s then s else m) | None => Some s end) None l.

Definition the_start_bound_is_the_later_of_whatever_is_set (token after : option str) : bool :=
  assert_eq (start_bound (mkListParams None None token after 0)) (max_str (option_list token ++ option_list after)).

Definition folding_matches_a_scan (key : str) (at_ : nat) (delim : str) : bool :=
  match common_prefix_of key at_ delim, naive_fold key at_ delim with
  | Some got, Some want => asserts [
      assert_eq got want;
      match got with
      | Some folded => asserts [starts_with key folded; ends_with folded delim; (at_ <=? length folded)%nat]
      | None => true
      end]
  | _, _ => false
  end.

(** ** They pass *)

Theorem listing_arithmetic_tests_pass : asserts [the_start_bound_is_the_later_of_the_two;
  folding_takes_the_first_delimiter_past_the_prefix] = true.
Proof. by vm_compute. Qed.

Lemma selects_spec range size i : selects range size i = true ↔ in_byte_range range size i.
Proof. destruct range; cbn; rewrite ?andb_true_iff, ?N.leb_le; lia. Qed.

(** Of the first [n] numbers, a predicate that holds on an interval keeps the interval. *)
Lemma filter_interval (P : N → Prop) `{∀ i, Decision (P i)} n a len :
  a + len ≤ n → (∀ i, i < n → P (N.of_nat i) ↔ a ≤ i < a + len) →
  filter P (N.of_nat <$> seq 0 n) = N.of_nat <$> seq a len.
Proof.
  intros Hn HP. replace n with (a + (len + (n - (a + len)))) by lia.
  rewrite !seq_app, !fmap_app, !filter_app. cbn [Nat.add].
  assert (∀ lo k, lo + k ≤ n → (∀ i, lo ≤ i < lo + k → ¬ P (N.of_nat i)) → filter P (N.of_nat <$> seq lo k) = []) as Hout.
  { intros lo k _ Hno. induction k as [|k IH] in lo, Hno |- *; [done|].
    cbn. rewrite decide_False by (apply Hno; lia). apply IH. intros i Hi. apply Hno. lia. }
  rewrite (Hout 0), (Hout (a + len)); [|lia|intros i Hi; rewrite HP; lia..|lia|intros i Hi; rewrite HP; lia].
  cbn. rewrite app_nil_r. assert (∀ i, a ≤ i < a + len → P (N.of_nat i)) as Hin by (intros i Hi; apply HP; lia).
  clear -Hin. induction len as [|k IH] in a, Hin |- *; [done|].
  cbn. rewrite decide_True by (apply Hin; lia). f_equal. apply IH. intros i Hi. apply Hin. lia.
Qed.

Lemma last_seq_fmap a len : last (N.of_nat <$> seq a (S len)) = Some (N.of_nat (a + len)).
Proof. replace (S len) with (len + 1) by lia. by rewrite seq_app, fmap_app, last_app. Qed.

Lemma naive_range_interval range size offset len :
  (0 < len)%N → (offset + len <= size)%N →
  (∀ i, (i < size)%N → (offset <= i < offset + len)%N ↔ in_byte_range range size i) →
  naive_range range size = Some (Some (offset, len)).
Proof.
  intros Hl Hs Hin. unfold naive_range.
  rewrite (filter_interval _ _ (N.to_nat offset) (N.to_nat len)); [|lia|intros i Hi; rewrite selects_spec, <- Hin; lia].
  destruct (N.to_nat len) as [|k] eqn:Hk; [lia|]. rewrite last_seq_fmap, length_fmap, length_seq. cbn [seq fmap list_fmap head].
  rewrite bool_decide_true by lia. do 3 f_equal; lia.
Qed.

Lemma naive_range_empty range size :
  (∀ i, (i < size)%N → ¬ in_byte_range range size i) → naive_range range size = Some None.
Proof.
  intros Hno. unfold naive_range. rewrite (filter_interval _ _ 0 0); [done|lia|].
  intros i Hi. rewrite selects_spec. split; [|lia]. intros H. exfalso. apply (Hno (N.of_nat i)); [lia|done].
Qed.

(** Ranged reads agree with the model, byte by byte, at every size a file can have. *)
Theorem range_properties_hold size range :
  u64 size →
  asserts [resolve_range_matches_the_naive_model size range; no_range_reads_the_whole_object size;
    a_resolved_range_never_leaves_the_object size range] = true.
Proof.
  intros Hs. pose proof (resolve_range_spec (Some range) size Hs) as Hspec. unfold asserts. cbn [forallb].
  rewrite !andb_true_iff. unfold id. split_and!; [| | |done].
  - unfold resolve_range_matches_the_naive_model. destruct (resolve_range (Some range) size) as [[offset len]|e].
    + destruct Hspec as (? & ? & ?). rewrite (naive_range_interval _ _ offset len) by done. by apply assert_eq_true.
    + destruct Hspec as [-> ?]. by rewrite naive_range_empty.
  - by apply assert_eq_true.
  - unfold a_resolved_range_never_leaves_the_object. destruct (resolve_range (Some range) size) as [[offset len]|e]; [|done].
    unfold u64, u64_MAX in Hs. destruct Hspec as (_ & ? & _). apply andb_true_iff. rewrite N.ltb_lt, N.leb_le. lia.
Qed.

(** The bounds of a page: whichever are set, the later one wins. *)
Theorem start_bound_property_holds token after :
  the_start_bound_is_the_later_of_whatever_is_set token after = true.
Proof. apply assert_eq_true. by destruct token, after. Qed.

(** A boundary of a string splits it into two strings. *)
Lemma boundary_split key i : utf8 key → is_char_boundary key i = true → utf8 (take i key) ∧ i ≤ length key.
Proof.
  intros Hk Hb. unfold is_char_boundary in Hb. destruct (key !! i) as [b|] eqn:Hi.
  - apply negb_true_iff in Hb. pose proof (lookup_lt_Some _ _ _ Hi). split; [|lia].
    rewrite <- (take_drop_middle key i b Hi) in Hk. by eapply utf8_before.
  - apply bool_decide_eq_true in Hb as ->. by rewrite take_ge.
Qed.

Lemma list_find_seq (P : nat → Prop) `{∀ i, Decision (P i)} a n i :
  a ≤ i < a + n → P i → (∀ j, a ≤ j < i → ¬ P j) → list_find P (seq a n) = Some (i - a, i).
Proof.
  intros Hi HP Hmin. apply list_find_Some. split_and!; [|done|].
  - apply lookup_seq. lia.
  - intros j y [-> ?]%lookup_seq ?. apply Hmin. lia.
Qed.

Lemma list_find_seq_None (P : nat → Prop) `{∀ i, Decision (P i)} a n :
  (∀ j, a ≤ j < a + n → ¬ P j) → list_find P (seq a n) = None.
Proof. intros Hno. apply list_find_None, Forall_forall. intros j ?%elem_of_seq. by apply Hno. Qed.

Lemma slice_from_holds key i delimiter :
  match slice_from key i with Some rest => starts_with rest delimiter | None => false end = true
  ↔ is_char_boundary key i = true ∧ delimiter `prefix_of` drop i key.
Proof. unfold slice_from. destruct (is_char_boundary key i); [rewrite starts_with_spec|]; naive_solver. Qed.

Lemma naive_fold_total prefix delimiter t :
  utf8 prefix → utf8 delimiter → utf8 (prefix ++ t) →
  naive_fold (prefix ++ t) (length prefix) delimiter = common_prefix_of (prefix ++ t) (length prefix) delimiter.
Proof.
  intros Hp Hd Hk. pose proof (common_prefix_total prefix delimiter t Hp Hd Hk) as Htot.
  unfold common_prefix_of, slice_from in Htot |- *. rewrite utf8_prefix_boundary in Htot |- * by done.
  cbn [mbind option_bind] in Htot |- *. rewrite drop_app_length in Htot |- *.
  unfold naive_fold. destruct (find t delimiter) as [i|] eqn:Hf.
  - pose proof Hf as (Hlen & Hpre & Hmin)%find_Some.
    rewrite (list_find_seq _ _ _ (length prefix + i)); [done|rewrite length_app; lia| |].
    + apply slice_from_holds. rewrite drop_app_add. split; [|done].
      destruct delimiter as [|b delimiter].
      { assert (i = 0) as ->; [by destruct t; injection Hf as <-|]. rewrite Nat.add_0_r. by apply utf8_prefix_boundary. }
      destruct Hpre as [u Hu]. unfold is_char_boundary.
      rewrite lookup_app_r, Nat.add_sub_swap, Nat.sub_diag by lia. cbn [Nat.add].
      assert (t !! i = Some b) as ->. { rewrite <- (Nat.add_0_r i), <- lookup_drop, Hu. done. }
      by rewrite (utf8_head_not_cont b delimiter).
    + intros j Hj [_ Hpj]%slice_from_holds. replace j with (length prefix + (j - length prefix)) in Hpj by lia.
      rewrite drop_app_add in Hpj. apply (Hmin (j - length prefix)); [lia|done].
  - rewrite list_find_seq_None; [done|]. intros j Hj [_ Hpj]%slice_from_holds.
    replace j with (length prefix + (j - length prefix)) in Hpj by lia. rewrite drop_app_add in Hpj.
    rewrite length_app in Hj. apply (find_None _ _ Hf (j - length prefix)); [lia|done].
Qed.

(** Folding is the scan, and reports a prefix of the key that ends with the delimiter. *)
Theorem folding_property_holds key at_ delim :
  utf8 key → is_char_boundary key at_ = true → utf8 delim → folding_matches_a_scan key at_ delim = true.
Proof.
  intros Hk Hb Hd. destruct (boundary_split key at_ Hk Hb) as [Hp Hat].
  assert (at_ = length (take at_ key)) as Hlen by (rewrite length_take; lia).
  rewrite <- (take_drop at_ key) in Hk |- *. revert Hk. generalize dependent (take at_ key). generalize (drop at_ key).
  intros t prefix Hp -> Hk. unfold folding_matches_a_scan. rewrite naive_fold_total, common_prefix_total by done.
  unfold asserts. cbn [forallb]. unfold id. rewrite (proj2 (assert_eq_true _ _)), andb_true_r by done. cbn [andb].
  destruct (find t delim) as [i|] eqn:Hf; [|done]. apply find_Some in Hf as (Hi & [u Hu] & _). cbn [fmap option_fmap option_map].
  cbn [forallb]. rewrite !andb_true_iff. split_and!; [| | |done].
  - apply starts_with_spec, prefix_app, prefix_take.
  - apply ends_with_spec. exists (prefix ++ take i t).
    rewrite <- app_assoc. f_equal. rewrite <- (take_drop i t) at 1. rewrite take_app_ge, length_take by (rewrite length_take; lia).
    f_equal. rewrite Hu. by rewrite take_app_le, take_ge by lia.
  - apply Nat.leb_le. rewrite length_app. lia.
Qed.
