(* ===== verification/TestMeta.v ===== *)
(** * The tests of [meta.rs]

    [mod tests] and [mod proptests].  The property test of the operations compares a
    manifest with a record of when each version was last written; it is shown to pass
    on every sequence of operations, which makes the record a specification of the
    manifest.  Left out are the three tests that read a given JSON text. *)

From S2P Require Import Prelude RustStr RustPath Codec Checksum EngineError Fs Atomic Meta FsBase Digests TestKit TestRun.

#[local] Existing Instance test_env.
#[local] Instance manifest_text : Serde VersionManifest := marked manifest_codec.

(** ** Helpers *)

Definition entry (v etag : str) : VersionEntry :=
  mkVersionEntry v etag 1 (b#"application/octet-stream") ∅ 0 false None.

Definition manifest (versions : list VersionEntry) : VersionManifest := mkVersionManifest MANIFEST_FORMAT versions.

(** The directory and the temp directory in it. *)
Definition guarded_tmp : test (PathBuf * PathBuf) :=
  let tmp := push tempdir (b#"tmp") in
  _ ← fs_create_dir_all tmp;
  mret (tempdir, tmp).

Definition ids (m : VersionManifest) : list str := version_id <$> versions m.

(** ** The tests *)

Definition upsert_null_replaces_in_place : bool :=
  let m := mkVersionManifest MANIFEST_FORMAT [] in
  let m := upsert m (entry NULL_VERSION_ID (b#"aa")) in
  let m := upsert m (entry NULL_VERSION_ID (b#"bb")) in asserts [
  assert_eq (length (versions m)) 1;
  assert_eq (etag <$> latest m) (Some (b#"bb"))].

Definition upsert_new_version_prepends : bool :=
  let m := mkVersionManifest MANIFEST_FORMAT [entry (b#"v1") (b#"aa")] in
  let m := upsert m (entry (b#"v2") (b#"bb")) in asserts [
  assert_eq (version_id <$> latest m) (Some (b#"v2"));
  assert_eq (length (versions m)) 2].

Definition manifest_disk_roundtrip : test unit :=
  let tmp := push tempdir (b#"tmp") in
  _ ← fs_create_dir_all tmp;
  let p := push tempdir (b#"m.json") in
  loaded ← unwrap (load_manifest p);
  _ ← assert (bool_decide (loaded = None));
  let m := mkVersionManifest MANIFEST_FORMAT [entry (b#"null") (b#"aa")] in
  _ ← unwrap (store_manifest tmp p m);
  loaded ← unwrap (load_manifest p);
  assert (assert_eq loaded (Some m)).

Definition latest_is_the_head_and_none_when_empty : bool :=
  let m := manifest [entry (b#"v2") (b#"bb"); entry (b#"v1") (b#"aa")] in asserts [
  assert_eq (version_id <$> latest m) (Some (b#"v2"));
  let m := mkVersionManifest (format m) [] in bool_decide (latest m = None)].

Definition upsert_moves_a_replaced_non_head_version_to_the_front : bool :=
  let m := manifest [entry (b#"v3") (b#"cc"); entry (b#"v2") (b#"bb"); entry (b#"null") (b#"aa")] in
  let m := upsert m (entry NULL_VERSION_ID (b#"dd")) in asserts [
  assert_eq (ids m) [NULL_VERSION_ID; b#"v3"; b#"v2"];
  assert_eq (etag <$> latest m) (Some (b#"dd"));
  assert_eq (length (versions m)) 3].

Definition remove_takes_the_named_version_and_leaves_the_rest : bool :=
  let m := manifest [entry (b#"v2") (b#"bb"); entry (b#"v1") (b#"aa")] in
  let '(removed, m) := remove m (b#"v1") in
  let '(again, m') := remove m (b#"v1") in
  let '(other, m'') := remove m' (b#"nope") in asserts [
  assert_eq (etag <$> removed) (Some (b#"aa"));
  assert_eq (ids m) [b#"v2"];
  bool_decide (again = None);
  bool_decide (other = None)].

Definition a_checksum_roundtrips_through_the_manifest : test unit :=
  '(guard, tmp) ← guarded_tmp;
  let p := push guard (b#"m.json") in
  let e := mkVersionEntry (b#"null") (b#"aa") 1 (b#"application/octet-stream") ∅ 0 false
             (Some (mkStoredChecksum Crc32 (b#"DUoRhQ=="))) in
  let m := manifest [e] in
  _ ← unwrap (store_manifest tmp p m);
  loaded ← unwrap (load_manifest p);
  assert (assert_eq loaded (Some m)).

Definition roundtrip_preserves_metadata_and_delete_markers : test unit :=
  '(guard, tmp) ← guarded_tmp;
  let p := push guard (b#"nested/m.json") in
  let deleted := mkVersionEntry (b#"v2") [] 0 (b#"application/octet-stream") ∅ 0 true None in
  let live := mkVersionEntry (b#"v1") (b#"9a0364b9e99bb480dd25e1f0284c8555") 42 (b#"application/octet-stream")
                (<[b#"b" := b#"2"]> (<[b#"a" := b#"1"]> ∅)) 1700000000000 false None in
  let m := manifest [deleted; live] in
  _ ← unwrap (store_manifest tmp p m);
  loaded ← unwrap (load_manifest p);
  _ ← assert (assert_eq loaded (Some m));
  n ← entry_count tmp;
  assert (assert_eq n 0).

Definition store_manifest_replaces_an_earlier_manifest : test unit :=
  '(guard, tmp) ← guarded_tmp;
  let p := push guard (b#"m.json") in
  _ ← unwrap (store_manifest tmp p (manifest [entry (b#"v1") (b#"aa")]));
  let second := manifest [entry (b#"v2") (b#"bb"); entry (b#"v1") (b#"aa")] in
  _ ← unwrap (store_manifest tmp p second);
  loaded ← unwrap (load_manifest p);
  assert (assert_eq loaded (Some second)).

Definition load_manifest_rejects_a_corrupt_file : test unit :=
  let p := push tempdir (b#"m.json") in
  let quoted w := [Byte.x22] ++ w ++ [Byte.x22] in
  _ ← fs_write p (b#"{" ++ quoted (b#"format") ++ b#": 1, " ++ quoted (b#"versions") ++ b#": [");
  r ← call (load_manifest p);
  assert (match r with Err err => bool_decide (kind err = KInvalidData) | Ok _ => false end).

Definition load_manifest_reports_absence_only_for_a_missing_file : test unit :=
  r ← unwrap (load_manifest (push tempdir (b#"absent.json")));
  _ ← assert (bool_decide (r = None));
  r ← unwrap (load_manifest (push tempdir (b#"no/such/dir/m.json")));
  assert (bool_decide (r = None)).

Definition store_manifest_propagates_a_missing_tmp_dir : test unit :=
  let p := push tempdir (b#"m.json") in
  r ← call (store_manifest (push tempdir (b#"absent")) p (manifest []));
  _ ← assert (match r with Err err => bool_decide (kind err = KNotFound) | Ok _ => false end);
  there ← path_exists p;
  assert (negb there).

Theorem meta_tests_pass : asserts ([upsert_null_replaces_in_place; upsert_new_version_prepends;
  latest_is_the_head_and_none_when_empty; upsert_moves_a_replaced_non_head_version_to_the_front;
  remove_takes_the_named_version_and_leaves_the_rest]
  ++ (passes <$> [manifest_disk_roundtrip; a_checksum_roundtrips_through_the_manifest;
  roundtrip_preserves_metadata_and_delete_markers; store_manifest_replaces_an_earlier_manifest;
  load_manifest_rejects_a_corrupt_file; load_manifest_reports_absence_only_for_a_missing_file;
  store_manifest_propagates_a_missing_tmp_dir])) = true.
Proof. by vm_compute. Qed.

(** ** Property tests *)

Inductive Op :=
  | Upsert (id etag : str) (marker : bool)
  | Remove (id : str).

(** [entry] of the property tests. *)
Definition marked_entry (id etag : str) (marker : bool) : VersionEntry :=
  mkVersionEntry id etag 1 (b#"application/octet-stream") ∅ 0 marker None.

(** The variables of the loop. *)
Record history := mkHistory {
  manifest_now : VersionManifest;
  written : gmap str N;
  write_clock : N;
}.

(** [written[id]]. *)
Definition written_at (w : gmap str N) (id : str) : N := default 0%N (w !! id).

(** [want.sort_by_key(|id| Reverse(written[id]))], of the keys in the map's order. *)
Definition newest_first (w : gmap str N) : list str :=
  sort_by (λ a b, (written_at w b <=? written_at w a)%N) (sort_strings (map_to_list w).*1).

(** One turn of the loop; [None] is a failed assertion. *)
Definition history_step (h : history) (step : Op) : option history :=
  let m := manifest_now h in
  let before := length (versions m) in
  h' ← match step with
  | Upsert id etag marker =>
      let known := bool_decide (is_Some (written h !! id)) in
      let m := upsert m (marked_entry id etag marker) in
      let clock := (write_clock h + 1)%N in
      if bool_decide (latest m = Some (marked_entry id etag marker))
         && bool_decide (length (versions m) = if known then before else before + 1)
      then Some (mkHistory m (<[id := clock]> (written h)) clock) else None
  | Remove id =>
      let known := bool_decide (is_Some (written h !! id)) in
      match remove m id with
      | (Some removed, m) =>
          if known && bool_decide (version_id removed = id) && bool_decide (length (versions m) = before - 1)
          then Some (mkHistory m (base.delete id (written h)) (write_clock h)) else None
      | (None, m) =>
          if negb known && bool_decide (length (versions m) = before)
          then Some (mkHistory m (written h) (write_clock h)) else None
      end
  end;
  let ids := ids (manifest_now h') in
  let unique : gset str := list_to_set ids in
  if bool_decide (base.size unique = length ids) && bool_decide (ids = newest_first (written h'))
  then Some h' else None.

Fixpoint history_run (h : history) (ops : list Op) : option history :=
  match ops with
  | [] => Some h
  | step :: ops => h' ← history_step h step; history_run h' ops
  end.

Definition a_manifest_holds_its_invariants_through_any_sequence (ops : list Op) : bool :=
  bool_decide (is_Some (history_run (mkHistory (mkVersionManifest MANIFEST_FORMAT []) ∅ 0) ops)).

Definition a_manifest_survives_the_json_it_is_stored_as `{!Serde VersionManifest} (m : VersionManifest) : bool :=
  match to_vec m with
  | Err _ => false
  | Ok json =>
      match from_slice json with
      | Err _ => false
      | Ok back => asserts [
          assert_eq back m;
          match to_vec back with Ok again => assert_eq again json | Err _ => false end]
      end
  end.

(** ** They pass on every input *)

(** The manifest lists the versions of the record, newest first. *)
Definition recorded (h : history) : Prop :=
  let l := ids (manifest_now h) in
  NoDup l ∧ (∀ id, id ∈ l ↔ is_Some (written h !! id))
  ∧ StronglySorted (λ a b, written_at (written h) b < written_at (written h) a)%N l
  ∧ Forall (λ id, written_at (written h) id <= write_clock h)%N l.

Lemma recorded_newest_first h : recorded h → ids (manifest_now h) = newest_first (written h).
Proof.
  intros (Hnd & Hin & Hs & _). set (w := written h) in *. set (R := λ a b, (written_at w b <= written_at w a)%N).
  assert (ids (manifest_now h) ≡ₚ newest_first w) as Hp.
  { unfold newest_first, sort_strings. rewrite !sort_by_perm. apply NoDup_Permutation; [done|apply NoDup_fst_map_to_list|].
    intros id. rewrite Hin, list_elem_of_fmap. split.
    - intros [n Hn]. exists (id, n). by rewrite elem_of_map_to_list.
    - intros ([id' n] & -> & Hn%elem_of_map_to_list). by exists n. }
  assert (StronglySorted R (newest_first w)) as Hsw.
  { apply sort_by_sorted.
    - intros a b. apply N.leb_le.
    - intros a b. unfold R. lia.
    - intros a b c. unfold R. lia. }
  assert (∀ a b, a ∈ ids (manifest_now h) → b ∈ ids (manifest_now h) → written_at w a = written_at w b → a = b) as Hinj.
  { clear -Hs. induction Hs as [|x l Hs IH Hx]; [by intros ?? ?%elem_of_nil|]. rewrite Forall_forall in Hx.
    intros a b [->|Ha]%elem_of_cons [->|Hb]%elem_of_cons Heq; [done| | |by apply IH].
    - specialize (Hx b Hb). cbn in Hx. lia.
    - specialize (Hx a Ha). cbn in Hx. lia. }
  apply (StronglySorted_unique_strong R); [| |done|done].
  2: { clear -Hs. induction Hs as [|x l Hs IH Hx]; constructor; [done|].
       eapply Forall_impl; [exact Hx|]. intros y Hy. unfold R. cbn in Hy. lia. }
  intros a b Ha Hb HR1 HR2. rewrite <- Hp in Hb. apply Hinj; [done|done|]. unfold R in *. lia.
Qed.

Lemma sorted_without (f g : str → N) id l :
  (∀ a, a ≠ id → g a = f a) → StronglySorted (λ a b, f b < f a)%N l →
  StronglySorted (λ a b, g b < g a)%N (filter (λ i, i ≠ id) l).
Proof.
  intros Hg Hs. induction Hs as [|x l Hs IH Hx]; [constructor|]. rewrite filter_cons. case_decide as Hne; [|done].
  constructor; [done|]. rewrite Forall_forall in Hx |- *. intros y [Hy Hin]%list_elem_of_filter.
  rewrite !Hg by done. by apply Hx.
Qed.

Lemma list_filter_all {A} (P : A → Prop) `{∀ x, Decision (P x)} l : Forall P l → filter P l = l.
Proof. induction 1 as [|x l Hx _ IH]; [done|]. by rewrite filter_cons_True, IH. Qed.

Lemma remove_filter m id : one_per_version m →
  versions (remove m id).2 = filter (λ v, version_id v ≠ id) (versions m).
Proof.
  intros Hnd. unfold remove, one_per_version in *. destruct (list_find _ (versions m)) as [[i e]|] eqn:Hf; cbn [snd versions].
  - apply list_find_Some in Hf as (Hi & He & _). rewrite delete_take_drop.
    rewrite <- (take_drop_middle _ _ _ Hi) in Hnd |- * at 3. rewrite fmap_app, fmap_cons in Hnd.
    apply NoDup_app in Hnd as (_ & Hdis & [Hd _]%NoDup_cons).
    rewrite filter_app, filter_cons_False by tauto. f_equal; symmetry; apply list_filter_all, Forall_forall; intros v Hv Heq.
    + apply (Hdis (version_id v)); [by apply list_elem_of_fmap_2|]. rewrite Heq, <- He. left.
    + apply Hd. rewrite He, <- Heq. by apply list_elem_of_fmap_2.
  - apply list_find_None in Hf. symmetry. by apply list_filter_all.
Qed.

Lemma recorded_upsert m w clock id etag marker :
  recorded (mkHistory m w clock) →
  recorded (mkHistory (upsert m (marked_entry id etag marker)) (<[id := clock + 1]> w) (clock + 1))%N.
Proof.
  intros (Hnd & Hin & Hs & Hle). unfold recorded, ids in *. cbn [manifest_now written write_clock upsert versions fmap list_fmap] in *.
  rewrite fmap_filter_ids. change (version_id (marked_entry id etag marker)) with id.
  set (w' := <[id := _]> w). assert (∀ a, a ≠ id → written_at w' a = written_at w a) as Hother.
  { intros a Ha. unfold written_at, w'. by rewrite lookup_insert_ne. }
  assert (written_at w' id = clock + 1)%N as Hid by (unfold written_at, w'; by rewrite lookup_insert_eq).
  assert (∀ a, a ∈ filter (λ i, i ≠ id) (version_id <$> versions m) → written_at w' a <= clock)%N as Hold.
  { intros a [Ha Hm]%list_elem_of_filter. rewrite Hother by done. rewrite Forall_forall in Hle. by apply Hle. }
  split_and!.
  - constructor; [|by apply NoDup_filter]. rewrite list_elem_of_filter. tauto.
  - intros a. rewrite elem_of_cons, list_elem_of_filter, Hin. unfold w'. destruct (decide (a = id)) as [->|Ha].
    + rewrite lookup_insert_eq. naive_solver.
    + rewrite lookup_insert_ne by done. naive_solver.
  - constructor; [by apply (sorted_without (written_at w))|]. apply Forall_forall. intros a Ha%Hold. rewrite Hid. lia.
  - constructor; [lia|]. apply Forall_forall. intros a Ha%Hold. lia.
Qed.

Lemma recorded_remove m w clock id :
  recorded (mkHistory m w clock) → recorded (mkHistory (remove m id).2 (base.delete id w) clock).
Proof.
  intros (Hnd & Hin & Hs & Hle). unfold recorded, ids in *. cbn [manifest_now written write_clock] in *.
  rewrite remove_filter, fmap_filter_ids by done. set (w' := base.delete id w).
  assert (∀ a, a ≠ id → written_at w' a = written_at w a) as Hother.
  { intros a Ha. unfold written_at, w'. by rewrite lookup_delete_ne. }
  split_and!.
  - by apply NoDup_filter.
  - intros a. rewrite list_elem_of_filter, Hin. unfold w'. destruct (decide (a = id)) as [->|Ha].
    + rewrite lookup_delete_eq. split; [tauto|by intros []].
    + rewrite lookup_delete_ne by done. tauto.
  - by apply (sorted_without (written_at w)).
  - rewrite Forall_forall in Hle |- *. intros a [Ha Hm]%list_elem_of_filter. rewrite Hother by done. by apply Hle.
Qed.

(** The last assertions of a turn hold of a recorded history. *)
Lemma recorded_checks h : recorded h →
  bool_decide (base.size (list_to_set (ids (manifest_now h)) : gset str) = length (ids (manifest_now h)))
  && bool_decide (ids (manifest_now h) = newest_first (written h)) = true.
Proof.
  intros Hr. apply andb_true_iff. rewrite !bool_decide_eq_true. split; [|by apply recorded_newest_first].
  apply size_list_to_set. apply Hr.
Qed.

Lemma history_step_ok h step : recorded h → ∃ h', history_step h step = Some h' ∧ recorded h'.
Proof.
  destruct h as [m w clock]. intros Hr. pose proof Hr as (Hnd & Hin & _ & _). unfold ids in Hin.
  cbn [manifest_now written] in Hnd, Hin. destruct step as [id etag marker|id]; unfold history_step; cbn [manifest_now written write_clock].
  - pose proof (recorded_upsert m w clock id etag marker Hr) as Hr'.
    destruct (upsert_spec m (marked_entry id etag marker) Hnd) as (Hlat & _ & _ & _ & Hlen & _).
    rewrite (bool_decide_true _ Hlat), Hlen. change (version_id (marked_entry id etag marker)) with id.
    rewrite (bool_decide_ext _ _ (Hin id)). destruct (bool_decide (is_Some (w !! id))); rewrite (bool_decide_true (_ = _)) by lia.
    all: cbn [andb mbind option_bind]; rewrite (recorded_checks _ Hr'); by eexists.
  - pose proof (recorded_remove m w clock id Hr) as Hr'. destruct (remove_spec m id Hnd) as [Hrem _].
    assert (length (versions (remove m id).2) = if bool_decide (is_Some (w !! id)) then length (versions m) - 1 else length (versions m)) as Hlen.
    { rewrite <- (bool_decide_ext _ _ (Hin id)). unfold remove. destruct (list_find _ (versions m)) as [[i e]|] eqn:Hf; cbn [snd versions].
      - apply list_find_Some in Hf as (Hi & He & _). rewrite length_delete by by eexists.
        rewrite bool_decide_true; [done|]. rewrite <- He. eapply list_elem_of_fmap_2, list_elem_of_lookup_2, Hi.
      - rewrite bool_decide_false; [done|]. intros (v & Hv & Hvm)%list_elem_of_fmap.
        apply list_find_None in Hf. rewrite Forall_forall in Hf. by apply (Hf v). }
    destruct (remove m id) as [[e|] m'] eqn:Hm; cbn [snd] in *; destruct Hrem as (Hr1 & _ & _).
    + destruct (proj1 (Hr1 e) eq_refl) as [He Heid]. assert (is_Some (w !! id)) as Hk.
      { apply Hin. rewrite <- Heid. by apply list_elem_of_fmap_2. }
      rewrite (bool_decide_true _ Hk) in *. rewrite (bool_decide_true _ Heid), (bool_decide_true _ Hlen).
      cbn [andb mbind option_bind]. rewrite (recorded_checks _ Hr'). by eexists.
    + assert (¬ is_Some (w !! id)) as Hk.
      { intros (v & Hv & Hvm)%Hin%list_elem_of_fmap. by specialize (proj2 (Hr1 v) (conj Hvm (eq_sym Hv))). }
      rewrite (bool_decide_false _ Hk) in *. rewrite (bool_decide_true _ Hlen).
      rewrite delete_id in Hr' by by apply eq_None_not_Some.
      cbn [andb negb mbind option_bind]. rewrite (recorded_checks _ Hr'). by eexists.
Qed.

(** Whatever sequence of writes and deletes a key sees, the manifest is the record of them. *)
Theorem manifest_sequence_property_holds ops : a_manifest_holds_its_invariants_through_any_sequence ops = true.
Proof.
  apply bool_decide_eq_true.
  assert (recorded (mkHistory (mkVersionManifest MANIFEST_FORMAT []) ∅ 0)) as Hr.
  { unfold recorded, ids. cbn. split_and!; [constructor| |constructor|constructor]. intros id. rewrite lookup_empty, elem_of_nil.
    split; [done|by intros []]. }
  revert Hr. generalize (mkHistory (mkVersionManifest MANIFEST_FORMAT []) ∅ 0).
  induction ops as [|step ops IH]; intros h Hr; cbn; [by eexists|].
  destruct (history_step_ok h step Hr) as (h' & -> & Hr'). by apply IH.
Qed.

(** With a serialiser that keeps its law, a manifest survives its JSON, byte for byte. *)
Theorem manifest_json_property_holds `{!Serde VersionManifest, !SerdeLaws VersionManifest valid_manifest} m :
  valid_manifest m → a_manifest_survives_the_json_it_is_stored_as m = true.
Proof.
  intros Hm. destruct (serde_roundtrip m Hm) as (bytes & Hto & Hfrom).
  unfold a_manifest_survives_the_json_it_is_stored_as. rewrite Hto, Hfrom, Hto. unfold asserts, assert_eq. cbn.
  by rewrite !bool_decide_true.
Qed.
