(* ===== verification/TestAtomic.v ===== *)
(** * The tests of [atomic.rs], [walk.rs] and the engine's [error.rs]

    Left out is the walk of the deepest path a filesystem takes, which no bound of
    the model stands for. *)

From S2P Require Import Prelude RustStr RustPath Codec Paths Checksum EngineError Fs Atomic Meta Walk FsBase Digests TestKit TestRun TestMeta.

#[local] Existing Instance test_env.

(** ** Staged files *)

(** [serde_json] at the types of the tests. *)
#[local] Instance numbers_json : Serde (list N) := marked (codec_serde (λ _, True)).
#[local] Instance string_json : Serde str := marked (codec_serde (λ _, True)).

Definition parsed {A} `{!Serde A} (bytes : str) : option A := match from_slice bytes with Ok a => Some a | Err _ => None end.

Definition commit_moves_file_atomically : test unit :=
  let tmp := push tempdir (b#"tmp") in
  _ ← fs_create_dir_all tmp;
  let dest := push tempdir (b#"deep/nested/out.bin") in
  f ← unwrap (create tmp);
  _ ← unwrap (write_all f (b#"hello"));
  _ ← unwrap (commit f dest);
  got ← fs_read dest;
  _ ← assert (assert_eq got (b#"hello"));
  n ← entry_count tmp;
  assert (assert_eq n 0).

(** The end of the block is [drop_staged]. *)
Definition drop_without_commit_cleans_up : test unit :=
  let tmp := push tempdir (b#"tmp") in
  _ ← fs_create_dir_all tmp;
  f ← unwrap (create tmp);
  _ ← unwrap (write_all f (b#"junk"));
  _ ← unwrap (drop_staged (F := io_error) f);
  n ← entry_count tmp;
  assert (assert_eq n 0).

Definition json_atomic_roundtrip : test unit :=
  let tmp := push tempdir (b#"tmp") in
  _ ← fs_create_dir_all tmp;
  let dest := push tempdir (b#"m.json") in
  _ ← unwrap (write_json_atomic tmp dest (to_vec [1; 2; 3]%N));
  got ← fs_read dest;
  assert (assert_eq (parsed got) (Some [1; 2; 3]%N)).

(** The directory and the temp directory in it: the helper is that of [meta.rs]. *)
Definition staging_dir : test (PathBuf * PathBuf) := guarded_tmp.

Definition staged_path_is_a_fresh_file_in_tmp_dir : test unit :=
  '(_, tmp) ← staging_dir;
  a ← unwrap (create tmp);
  b ← unwrap (create tmp);
  _ ← assert (assert_ne (path a) (path b));
  _ ← for_each [a; b] (λ f,
    _ ← assert (assert_eq (parent (path f)) (Some tmp));
    there ← path_is_file (path f);
    assert there);
  n ← entry_count tmp;
  assert (assert_eq n 2).

Definition writes_concatenate_in_order : test unit :=
  '(guard, tmp) ← staging_dir;
  let dest := push guard (b#"out.bin") in
  f ← unwrap (create tmp);
  _ ← unwrap (write_all f (b#"chunk-1;"));
  _ ← unwrap (write_all f []);
  _ ← unwrap (write_all f (b#"chunk-2"));
  _ ← unwrap (commit f dest);
  got ← fs_read dest;
  assert (assert_eq got (b#"chunk-1;chunk-2")).

Definition commit_without_writing_yields_an_empty_file : test unit :=
  '(guard, tmp) ← staging_dir;
  let dest := push guard (b#"empty.bin") in
  f ← unwrap (create tmp);
  _ ← unwrap (commit f dest);
  got ← fs_read dest;
  _ ← assert (assert_eq got []);
  n ← entry_count tmp;
  assert (assert_eq n 0).

Definition commit_replaces_an_existing_destination : test unit :=
  '(guard, tmp) ← staging_dir;
  let dest := push guard (b#"out.bin") in
  _ ← fs_write dest (b#"old contents, longer");
  f ← unwrap (create tmp);
  _ ← unwrap (write_all f (b#"new"));
  _ ← unwrap (commit f dest);
  got ← fs_read dest;
  assert (assert_eq got (b#"new")).

Definition parent_dir_maps_an_empty_parent_to_the_current_directory : bool := asserts [
  assert_eq (parent_dir (parse (b#"x.bin"))) (parse (b#"."));
  assert_eq (parent_dir (parse (b#"/"))) (parse (b#"."));
  assert_eq (parent_dir (parse (b#"a/x.bin"))) (parse (b#"a"))].

Definition dirs_to_sync_covers_the_whole_created_chain : test unit :=
  '(root, _) ← staging_dir;
  let deepest := push root (b#"a/b/c") in
  dirs ← unwrap (dirs_to_sync (F := io_error) deepest);
  _ ← assert (assert_eq dirs [deepest; push root (b#"a/b"); push root (b#"a"); root]);
  _ ← fs_create_dir_all deepest;
  dirs ← unwrap (dirs_to_sync (F := io_error) deepest);
  assert (assert_eq dirs [deepest]).

Definition steady_state_commit_syncs_only_the_destination_directory : test unit :=
  '(guard, tmp) ← staging_dir;
  let dest_dir := push guard (b#"objects") in
  _ ← fs_create_dir_all dest_dir;
  dirs ← unwrap (dirs_to_sync (F := io_error) dest_dir);
  _ ← assert (assert_eq dirs [dest_dir]);
  let dest := push dest_dir (b#"out.bin") in
  f ← unwrap (create tmp);
  _ ← unwrap (write_all f (b#"steady"));
  _ ← unwrap (commit f dest);
  got ← fs_read dest;
  _ ← assert (assert_eq got (b#"steady"));
  n ← entry_count tmp;
  assert (assert_eq n 0).

Definition dirs_to_sync_resolves_relative_paths_against_the_current_directory : test unit :=
  let missing := parse (b#"aks3-no-such-dir-4f2b71/inner") in
  dirs ← unwrap (dirs_to_sync (F := io_error) missing);
  _ ← assert (assert_eq dirs [missing; parse (b#"aks3-no-such-dir-4f2b71"); parse (b#".")]);
  dirs ← unwrap (dirs_to_sync (F := io_error) (parse (b#".")));
  assert (assert_eq dirs [parse (b#".")]).

(** [dest.ancestors().skip(1).take_while(|d| *d != guard.path())]. *)
Definition commit_into_a_deep_new_chain_publishes_and_cleans_up : test unit :=
  '(guard, tmp) ← staging_dir;
  let dest := push guard (b#"objects/a/b/c/d/out.bin") in
  f ← unwrap (create tmp);
  _ ← unwrap (write_all f (b#"deep"));
  _ ← unwrap (commit f dest);
  got ← fs_read dest;
  _ ← assert (assert_eq got (b#"deep"));
  let above := tail (ancestors dest) in
  let dirs := match list_find (λ d, d = guard) above with Some (i, _) => take i above | None => above end in
  _ ← for_each dirs (λ dir, there ← path_is_dir dir; assert there);
  n ← entry_count tmp;
  assert (assert_eq n 0).

Definition failed_commit_reports_the_error_and_leaves_no_temp_file : test unit :=
  '(guard, tmp) ← staging_dir;
  let blocker := push guard (b#"blocker") in
  _ ← fs_write blocker (b#"not a directory");
  let dest := push blocker (b#"nested/out.bin") in
  f ← unwrap (create tmp);
  _ ← unwrap (write_all f (b#"doomed"));
  r ← call (commit f dest);
  _ ← assert (match r with Err _ => true | Ok _ => false end);
  n ← entry_count tmp;
  _ ← assert (assert_eq n 0);
  got ← fs_read blocker;
  assert (assert_eq got (b#"not a directory")).

Definition create_fails_when_tmp_dir_is_missing : test unit :=
  r ← call (create (push tempdir (b#"absent")));
  assert (match r with Err err => bool_decide (kind err = KNotFound) | Ok _ => false end).

Definition json_atomic_replaces_and_creates_parents : test unit :=
  '(guard, tmp) ← staging_dir;
  let dest := push guard (b#"deep/nested/m.json") in
  _ ← unwrap (write_json_atomic tmp dest (to_vec (b#"first")));
  _ ← unwrap (write_json_atomic tmp dest (to_vec [1; 2]%N));
  got ← fs_read dest;
  _ ← assert (assert_eq (parsed got) (Some [1; 2]%N));
  n ← entry_count tmp;
  assert (assert_eq n 0).

(** The map with pairs for keys is a value that [to_vec] refuses. *)
Definition json_atomic_surfaces_serialization_failure : test unit :=
  '(guard, tmp) ← staging_dir;
  let dest := push guard (b#"m.json") in
  r ← call (write_json_atomic tmp dest (Err BoxedOther));
  _ ← assert (match r with Err err => bool_decide (kind err = KOther) | Ok _ => false end);
  there ← path_exists dest;
  _ ← assert (negb there);
  n ← entry_count tmp;
  assert (assert_eq n 0).

Theorem atomic_tests_pass : asserts (parent_dir_maps_an_empty_parent_to_the_current_directory :: (passes <$>
  [commit_moves_file_atomically; drop_without_commit_cleans_up; json_atomic_roundtrip;
  staged_path_is_a_fresh_file_in_tmp_dir; writes_concatenate_in_order; commit_without_writing_yields_an_empty_file;
  commit_replaces_an_existing_destination; dirs_to_sync_covers_the_whole_created_chain;
  steady_state_commit_syncs_only_the_destination_directory;
  dirs_to_sync_resolves_relative_paths_against_the_current_directory;
  commit_into_a_deep_new_chain_publishes_and_cleans_up; failed_commit_reports_the_error_and_leaves_no_temp_file;
  create_fails_when_tmp_dir_is_missing; json_atomic_replaces_and_creates_parents;
  json_atomic_surfaces_serialization_failure])) = true.
Proof. by vm_compute. Qed.

(** ** The walk *)

(** [tree]: the directory of each key, with a manifest in it. *)
Definition tree (keys : list str) : test PathBuf :=
  _ ← for_each keys (λ key,
    let dir := join_path tempdir (key_to_rel_path key) in
    _ ← fs_create_dir_all dir;
    fs_write (push dir META_FILE) (b#"{}"));
  mret tempdir.

Definition an_absent_tree_holds_no_keys : test unit :=
  keys ← unwrap (sorted_keys (push tempdir (b#"never-written")));
  assert (bool_decide (keys = [])).

Definition an_empty_tree_holds_no_keys : test unit :=
  root ← tree [];
  keys ← unwrap (sorted_keys root);
  assert (bool_decide (keys = [])).

Definition keys_come_back_sorted : test unit :=
  root ← tree [b#"z"; b#"a/b"; b#"a"; b#"m/n/o"];
  keys ← unwrap (sorted_keys root);
  assert (assert_eq keys [b#"a"; b#"a/b"; b#"m/n/o"; b#"z"]).

Definition ordering_is_by_key_not_by_component : test unit :=
  root ← tree [b#"dir/one"; b#"dir-x"];
  keys ← unwrap (sorted_keys root);
  assert (assert_eq keys [b#"dir-x"; b#"dir/one"]).

Definition encoded_names_decode_back_to_their_keys : test unit :=
  let keys := [[]; b#".."; META_FILE; b#"a/"; b#"café"; b#"pct%"; b#"tab" ++ [Byte.x09] ++ b#"x"; b#"😀/emoji"] in
  root ← tree keys;
  got ← unwrap (sorted_keys root);
  assert (assert_eq got (sort_strings keys)).

Definition a_directory_without_a_manifest_is_only_a_step_on_the_way : test unit :=
  root ← tree [b#"a/b"];
  keys ← unwrap (sorted_keys root);
  assert (assert_eq keys [b#"a/b"]).

Definition strays_and_reserved_names_are_left_alone : test unit :=
  root ← tree [b#"real"];
  _ ← fs_write (push root (b#"loose-file")) (b#"x");
  _ ← fs_create_dir_all (push root (b#"%ZZ/deeper"));
  _ ← fs_write (push (push root (b#"%ZZ/deeper")) META_FILE) (b#"{}");
  _ ← fs_create_dir_all (push root (b#"__aks3.something"));
  _ ← fs_write (push root (b#"real/__aks3.v.null.data")) (b#"x");
  keys ← unwrap (sorted_keys root);
  assert (assert_eq keys [b#"real"]).

Theorem walk_tests_pass : asserts (passes <$> [an_absent_tree_holds_no_keys; an_empty_tree_holds_no_keys;
  keys_come_back_sorted; ordering_is_by_key_not_by_component; encoded_names_decode_back_to_their_keys;
  a_directory_without_a_manifest_is_only_a_step_on_the_way; strays_and_reserved_names_are_left_alone]) = true.
Proof. by vm_compute. Qed.

(** ** Errors *)

Definition a_name_the_filesystem_refuses_as_too_long_is_not_an_io_error : test unit :=
  let too_long := push tempdir (replicate 300 c#"n") in
  r ← fs_try_write too_long (b#"x");
  assert (match r with Err err => bool_decide (from_io err = KeyTooLong) | Ok _ => false end).

Definition a_full_disk_is_storage_full_not_an_io_error : bool :=
  let err := from_io (os_error KStorageFull) in bool_decide (err = StorageFull).

Definition any_other_io_error_stays_an_io_error : bool :=
  match from_io (io_error_other BoxedOther) with Io _ => true | _ => false end.

Theorem error_tests_pass : asserts [passes a_name_the_filesystem_refuses_as_too_long_is_not_an_io_error;
  a_full_disk_is_storage_full_not_an_io_error; any_other_io_error_stays_an_io_error] = true.
Proof. by vm_compute. Qed.
