(* ===== verification/TestApi.v ===== *)
(** * The tests of [crates/api]: [checksum.rs] and [error.rs]

    Left out are the tests that look at the status [s3s] gives a code, at the source
    of an error or at its debugging text. *)

From S2P Require Import Prelude RustStr RustNum Checksum EngineError Fs Meta Layer FsBase Digests Wire ApiError ApiChecksum TestKit.

#[local] Existing Instance standard_crates.
#[local] Existing Instance plain_http.

(** ** Checksums: helpers *)

Definition checksum_of (algorithm : ChecksumAlgorithm) (bytes : str) : str :=
  let hasher := hasher algorithm in
  let hasher := update hasher bytes in
  finalize_base64 hasher.

Definition chunked_body (chunks : list str) : BoxByteStream := Ok <$> chunks.

Definition immediate (algorithm : ChecksumAlgorithm) (expected : str) : PutChecksum :=
  mkPutChecksum algorithm (Immediate expected).

(** [drive]: polled until it ends or fails. *)
Fixpoint drive (fuel : nat) (stream : VerifyingStream) (out : str) : option (result str io_error) :=
  match fuel with
  | O => None
  | S fuel =>
      match poll_next stream with
      | (None, _) => Some (Ok out)
      | (Some (Ok item), stream) => drive fuel stream (out ++ item)
      | (Some (Err e), _) => Some (Err e)
      end
  end.

(** More polls than any stream here takes. *)
Definition polls : nat := 10.

(** [err.get_ref().and_then(|s| s.downcast_ref::<ChecksumError>())]. *)
Definition checksum_error (err : io_error) : option ChecksumError :=
  match get_ref err with Some (BoxedChecksum e) => Some e | _ => None end.

Definition all_algorithms : list ChecksumAlgorithm := [Crc32; Crc32c; Sha1; Sha256; Crc64Nvme].

(** [PutObjectInput::default]. *)
Definition default_input : PutObjectInput := mkPutObjectInput [] [] None None None None None None None None.

(** ** Checksums: the tests *)

Definition a_matching_checksum_passes_the_body_through_unchanged : bool :=
  let expected := checksum_of Crc32 (b#"hello world") in
  let stream := new_verifying (chunked_body [b#"hello "; b#"world"]) (immediate Crc32 expected) in
  match drive polls stream [] with Some (Ok got) => assert_eq got (b#"hello world") | _ => false end.

Definition a_mismatching_checksum_fails_the_stream : bool :=
  let wrong := checksum_of Crc32 (b#"not this body") in
  let stream := new_verifying (chunked_body [b#"hello world"]) (immediate Crc32 wrong) in
  match drive polls stream [] with
  | Some (Err err) => match checksum_error err with Some (Mismatch _) => true | _ => false end
  | _ => false
  end.

Definition every_algorithm_verifies : bool := each all_algorithms (λ algorithm,
  let good := checksum_of algorithm (b#"payload") in
  let ok := new_verifying (chunked_body [b#"payload"]) (immediate algorithm good) in
  let bad := new_verifying (chunked_body [b#"payload"]) (immediate algorithm (b#"AAAAAAAAAAAAAAAAAAAAAA==")) in asserts [
  match drive polls ok [] with Some (Ok _) => true | _ => false end;
  match drive polls bad [] with Some (Err _) => true | _ => false end]).

Definition an_inner_error_is_not_a_checksum_mismatch : bool :=
  let inner := [Err (io_error_other BoxedOther)] in
  let stream := new_verifying inner (immediate Crc32 (b#"DUoRhQ==")) in
  match drive polls stream [] with Some (Err err) => bool_decide (checksum_error err = None) | _ => false end.

Definition evaluate_matches_mismatches_and_missing_trailers : bool := asserts [
  bool_decide (evaluate Crc32 (Some (b#"a")) (Some (b#"a")) = None);
  assert_eq (evaluate Crc32 (Some (b#"a")) (Some (b#"b"))) (Some (Mismatch Crc32));
  assert_eq (evaluate Sha256 (Some (b#"a")) None) (Some (MissingTrailer Sha256))].

Definition put_error_maps_a_mismatch_to_bad_digest : bool :=
  let io := io_error_other (BoxedChecksum (Mismatch Sha256)) in
  let err := put_error (Io io) in asserts [
  assert_eq (err_code err) BadDigest;
  match err_message err with Some m => contains m (b#"SHA256") | None => false end].

Definition put_error_maps_a_missing_trailer_to_invalid_request : bool :=
  let io := io_error_other (BoxedChecksum (MissingTrailer Crc32)) in
  let err := put_error (Io io) in
  assert_eq (err_code err) InvalidRequest.

Definition put_error_leaves_an_ordinary_io_error_alone : bool :=
  let err := put_error (Io (io_error_other BoxedOther)) in
  assert_eq (err_code err) InternalError.

Definition put_error_passes_other_engine_errors_through : bool :=
  assert_eq (err_code (put_error NoSuchBucket)) CNoSuchBucket.

Definition detect_reads_the_header_form_from_the_input : bool :=
  let input := mkPutObjectInput [] [] None None None None None None (Some (b#"value")) None in
  assert_eq (pc_algorithm <$> detect input ∅ None) (Some Sha256).

Definition detect_finds_crt_algorithms_too : bool :=
  let crc32c := mkPutObjectInput [] [] None None None None (Some (b#"value")) None None None in
  let crc64 := mkPutObjectInput [] [] None None None None None None None (Some (b#"value")) in asserts [
  assert_eq (pc_algorithm <$> detect crc32c ∅ None) (Some Crc32c);
  assert_eq (pc_algorithm <$> detect crc64 ∅ None) (Some Crc64Nvme)].

Definition detect_finds_nothing_when_no_checksum_was_sent : bool :=
  match detect default_input ∅ None with None => true | Some _ => false end.

Definition fields_for_sets_exactly_the_named_algorithm_and_full_object : bool :=
  let stored := mkStoredChecksum Crc32 (b#"DUoRhQ==") in
  let fields := fields_for (Some stored) in asserts [
  assert_eq (cf_crc32 fields) (Some (b#"DUoRhQ=="));
  bool_decide (cf_sha1 fields = None) && bool_decide (cf_sha256 fields = None);
  match cf_checksum_type fields with Some FULL_OBJECT => true | None => false end].

Definition fields_for_nothing_is_all_absent : bool :=
  let fields := fields_for None in
  bool_decide (cf_crc32 fields = None) && bool_decide (cf_sha1 fields = None)
  && bool_decide (cf_sha256 fields = None)
  && match cf_checksum_type fields with Some _ => false | None => true end.

Theorem api_checksum_tests_pass : asserts [a_matching_checksum_passes_the_body_through_unchanged;
  a_mismatching_checksum_fails_the_stream; every_algorithm_verifies; an_inner_error_is_not_a_checksum_mismatch;
  evaluate_matches_mismatches_and_missing_trailers; put_error_maps_a_mismatch_to_bad_digest;
  put_error_maps_a_missing_trailer_to_invalid_request; put_error_leaves_an_ordinary_io_error_alone;
  put_error_passes_other_engine_errors_through; detect_reads_the_header_form_from_the_input;
  detect_finds_crt_algorithms_too; detect_finds_nothing_when_no_checksum_was_sent;
  fields_for_sets_exactly_the_named_algorithm_and_full_object; fields_for_nothing_is_all_absent] = true.
Proof. by vm_compute. Qed.

(** ** Errors *)

Definition codes_map : bool := asserts [
  assert_eq (err_code (map_engine_err NoSuchKey)) CNoSuchKey;
  assert_eq (err_code (map_engine_err NoSuchBucket)) CNoSuchBucket;
  assert_eq (err_code (map_engine_err InvalidRange)) CInvalidRange].

Definition every_variant_maps : bool := asserts [
  assert_eq (err_code (map_engine_err BucketAlreadyExists)) CBucketAlreadyOwnedByYou;
  assert_eq (err_code (map_engine_err BucketNotEmpty)) CBucketNotEmpty;
  assert_eq (err_code (map_engine_err InvalidBucketName)) CInvalidBucketName;
  assert_eq (err_code (map_engine_err KeyTooLong)) KeyTooLongError;
  assert_eq (err_code (map_engine_err StorageFull)) ServiceUnavailable].

Definition client_visible_variants_carry_a_message : bool :=
  each [NoSuchBucket; BucketAlreadyExists; BucketNotEmpty; InvalidBucketName; NoSuchKey; InvalidRange; KeyTooLong; StorageFull]
  (λ err,
    let mapped := map_engine_err err in
    match err_message mapped with Some message => bool_decide (trim message ≠ []) | None => false end).

Theorem api_error_tests_pass : asserts [codes_map; every_variant_maps; client_visible_variants_carry_a_message] = true.
Proof. by vm_compute. Qed.
