(* ===== verification/TestService.v ===== *)
(** * The tests of [crates/api/src/service.rs]

    The handlers over an engine on the machine of [TestRun]: requests as the tests
    build them, answers as they read them.  Left out are the two tests of trait bounds
    and those that look at what [s3s] makes of an answer, its status, its header for an
    etag and the text of an error. *)

From S2P Require Import Prelude RustStr RustNum RustPath Codec Paths Checksum EngineError Fs FsFacts Atomic Meta Layer Walk FsBase Listing FsEngine FsSamples Digests Wire ApiError ApiChecksum Service TestKit TestRun TestEngine TestApi.

#[local] Existing Instance test_env.
#[local] Existing Instance standard_crates.
#[local] Existing Instance standard_md5.
#[local] Existing Instance manifest_json.
#[local] Existing Instance bucket_meta_json.
#[local] Existing Instance disk_format_json.
#[local] Existing Instance byte_reads.
#[local] Existing Instance plain_http.

(** ** Helpers *)

(** [svc]: the layer the service holds. *)
Definition svc : test FsEngine.t := unwrap (FsEngine.open tempdir).

Definition req {I} (input : I) : S3Request I := mkRequest input ∅ None.

(** The handlers of the service over an engine, as the tests call them. *)
Definition create (e : FsEngine.t) (bucket : str) : M S3Error (option str) := Aks3.create_bucket (L := fs_engine_layer e) bucket.
Definition head (e : FsEngine.t) (bucket : str) : M S3Error unit := Aks3.head_bucket (L := fs_engine_layer e) bucket.
Definition delete (e : FsEngine.t) (bucket : str) : M S3Error unit := Aks3.delete_bucket (L := fs_engine_layer e) bucket.
Definition buckets (e : FsEngine.t) : M S3Error ListBucketsOutput := Aks3.list_buckets (L := fs_engine_layer e).
Definition send (e : FsEngine.t) (r : S3Request PutObjectInput) : M S3Error PutObjectOutput :=
  Aks3.put_object (L := fs_engine_layer e) r.
Definition fetch (e : FsEngine.t) (i : GetObjectInput) : M S3Error GetObjectOutput := Aks3.get_object (L := fs_engine_layer e) i.
Definition inspect (e : FsEngine.t) (i : HeadObjectInput) : M S3Error HeadObjectOutput := Aks3.head_object (L := fs_engine_layer e) i.
Definition enumerate (e : FsEngine.t) (i : ListObjectsV2Input) : M S3Error ListObjectsV2Output :=
  Aks3.list_objects_v2 (L := fs_engine_layer e) i.

(** [.expect_err(..)] and the code of the error. *)
Definition assert_code {A} (m : M S3Error A) (code : S3ErrorCode) : test unit :=
  r ← call m; assert (match r with Err err => bool_decide (err_code err = code) | Ok _ => false end).

Definition blob (bytes : str) : StreamingBlob := [Ok bytes].

(** A [PutObjectInput] for a key of [buk], with the rest at its default. *)
Definition put_input (key : str) (body : option StreamingBlob) (content_type : option str) (metadata : option (gmap str str))
    : PutObjectInput := mkPutObjectInput (b#"buk") key body content_type metadata None None None None None.

Definition put (key bytes : str) : S3Request PutObjectInput := req (put_input key (Some (blob bytes)) None None).

Definition header_map (pairs : list (HeaderName * str)) : HeaderMap :=
  fold_left (λ (map : gmap str str) '(name, value), <[name := value]> map) pairs ∅.

Definition put_with_headers (key bytes : str) (pairs : list (HeaderName * str)) : S3Request PutObjectInput :=
  mkRequest (req_input (put key bytes)) (header_map pairs) (req_trailing_headers (put key bytes)).

Definition get (key : str) : GetObjectInput := mkGetObjectInput (b#"buk") key None None.
Definition get_range (key : str) (range : DtoRange) : GetObjectInput := mkGetObjectInput (b#"buk") key (Some range) None.
Definition head_object_req (key : str) : HeadObjectInput := mkHeadObjectInput (b#"buk") key None.
Definition delete_object_req (e : FsEngine.t) (key : str) : M S3Error unit :=
  Aks3.delete_object (L := fs_engine_layer e) (b#"buk") key.

(** [list(ListObjectsV2Input { .. })], over [buk]. *)
Definition list_req (prefix delimiter token start_after : option str) (max_keys : option Z) : ListObjectsV2Input :=
  mkListObjectsV2Input (b#"buk") prefix delimiter token start_after max_keys.

Definition seeded (keys : list str) : test FsEngine.t :=
  s ← svc;
  _ ← unwrap (create s (b#"buk"));
  _ ← for_each keys (λ key, _ ← unwrap (send s (put key (b#"1"))); mret ());
  mret s.

(** [None] is a failed [expect]. *)
Definition keys_of (out : ListObjectsV2Output) : option (list str) := contents ← lo_contents out; mapM ob_key contents.
Definition prefixes_of (out : ListObjectsV2Output) : option (list str) := lo_common_prefixes out.

Definition hello_world_etag : str := b#"5eb63bbbe01eeed093cb22bb8f5acdc3".

Definition put_checksummed (key bytes : str) (algorithm : ChecksumAlgorithm) (value : str) : S3Request PutObjectInput :=
  let input := put_input key (Some (blob bytes)) None None in
  let set a := if bool_decide (algorithm = a) then Some value else None in
  req (mkPutObjectInput (pi_bucket input) (pi_key input) (pi_body input) (pi_content_type input) (pi_metadata input)
    (set Crc32) (set Crc32c) (set Sha1) (set Sha256) (set Crc64Nvme)).

Definition get_checked (key : str) : GetObjectInput := mkGetObjectInput (b#"buk") key None (Some (b#"ENABLED")).
Definition head_checked (key : str) : HeadObjectInput := mkHeadObjectInput (b#"buk") key (Some (b#"ENABLED")).

(** [drain]: polled until it ends. *)
Fixpoint drain_from (fuel : nat) (body : SyncStream) : option str :=
  match fuel with
  | O => None
  | S fuel =>
      match sync_poll_next body with
      | (None, _) => Some []
      | (Some (Ok chunk), body) => (λ rest, chunk ++ rest) <$> drain_from fuel body
      | (Some (Err _), _) => None
      end
  end.

Definition drain (body : option SyncStream) : option str := body ← body; drain_from (S (length (ss_stream body))) body.

(** A date after the epoch. *)
Definition after_epoch (t : option N) : bool := match t with Some t => (0 <? t)%N | None => false end.

(** ** Integrity checksums *)

Definition a_correct_checksum_is_stored_echoed_and_returned : test unit :=
  s ← svc;
  _ ← unwrap (create s (b#"buk"));
  let value := checksum_of Crc32 (b#"hello world") in
  put ← unwrap (send s (put_checksummed (b#"k") (b#"hello world") Crc32 value));
  _ ← assert (assert_eq (cf_crc32 (poo_checksums put)) (Some value));
  _ ← assert (match cf_checksum_type (poo_checksums put) with Some FULL_OBJECT => true | None => false end);
  got ← unwrap (fetch s (get_checked (b#"k")));
  _ ← assert (assert_eq (cf_crc32 (goo_checksums got)) (Some value));
  head ← unwrap (inspect s (head_checked (b#"k")));
  assert (assert_eq (cf_crc32 (hoo_checksums head)) (Some value)).

Definition a_checksum_is_withheld_unless_the_reader_asks : test unit :=
  s ← svc;
  _ ← unwrap (create s (b#"buk"));
  let value := checksum_of Crc32 (b#"hello world") in
  _ ← unwrap (send s (put_checksummed (b#"k") (b#"hello world") Crc32 value));
  plain ← unwrap (fetch s (get (b#"k")));
  _ ← assert (bool_decide (cf_crc32 (goo_checksums plain) = None));
  let ranged := mkGetObjectInput (b#"buk") (b#"k") (Some (RangeInt 0 (Some 4%N))) (gi_checksum_mode (get_checked (b#"k"))) in
  ranged ← unwrap (fetch s ranged);
  assert (bool_decide (cf_crc32 (goo_checksums ranged) = None)).

Definition a_wrong_checksum_is_rejected_and_stores_nothing : test unit :=
  s ← svc;
  _ ← unwrap (create s (b#"buk"));
  let wrong := checksum_of Crc32 (b#"a different body") in
  _ ← assert_code (send s (put_checksummed (b#"k") (b#"hello world") Crc32 wrong)) BadDigest;
  assert_code (fetch s (get (b#"k"))) CNoSuchKey.

Definition each_algorithm_verifies_stores_and_returns : test unit :=
  s ← svc;
  _ ← unwrap (create s (b#"buk"));
  for_each all_algorithms (λ algorithm,
    let key := as_str algorithm in
    let value := checksum_of algorithm (b#"hello world") in
    _ ← unwrap (send s (put_checksummed key (b#"hello world") algorithm value));
    got ← unwrap (fetch s (get_checked key));
    let returned := match algorithm with
      | Crc32 => cf_crc32 (goo_checksums got)
      | Crc32c => cf_crc32c (goo_checksums got)
      | Sha1 => cf_sha1 (goo_checksums got)
      | Sha256 => cf_sha256 (goo_checksums got)
      | Crc64Nvme => cf_crc64nvme (goo_checksums got)
      end in
    assert (assert_eq returned (Some value))).

Definition a_wrong_checksum_is_rejected_for_every_algorithm : test unit :=
  s ← svc;
  _ ← unwrap (create s (b#"buk"));
  for_each all_algorithms (λ algorithm,
    let key := as_str algorithm in
    let wrong := checksum_of algorithm (b#"a different body") in
    _ ← assert_code (send s (put_checksummed key (b#"hello world") algorithm wrong)) BadDigest;
    assert_code (fetch s (get key)) CNoSuchKey).

Theorem service_checksum_tests_pass : asserts (passes <$> [a_correct_checksum_is_stored_echoed_and_returned;
  a_checksum_is_withheld_unless_the_reader_asks; a_wrong_checksum_is_rejected_and_stores_nothing;
  each_algorithm_verifies_stores_and_returns; a_wrong_checksum_is_rejected_for_every_algorithm]) = true.
Proof. by vm_compute. Qed.

(** ** Buckets *)

Definition bucket_ops_via_s3_trait : test unit :=
  s ← svc;
  _ ← unwrap (create s (b#"buk"));
  _ ← unwrap (head s (b#"buk"));
  out ← unwrap (buckets s);
  _ ← assert (assert_eq (length <$> lbo_buckets out) (Some 1));
  _ ← unwrap (delete s (b#"buk"));
  r ← call (head s (b#"buk"));
  assert (match r with Err _ => true | Ok _ => false end).

Definition new_keeps_the_engine_it_was_given : test unit :=
  engine ← unwrap (FsEngine.open tempdir);
  _ ← unwrap (create engine (b#"buk"));
  found ← unwrap (FsEngine.bucket_exists engine (b#"buk"));
  assert found.

Definition create_reports_the_location : test unit :=
  s ← svc;
  out ← unwrap (create s (b#"buk"));
  assert (assert_eq out (Some (b#"/buk"))).

Definition head_of_a_missing_bucket_is_no_such_bucket : test unit :=
  s ← svc;
  assert_code (head s (b#"buk")) CNoSuchBucket.

Definition creating_a_bucket_twice_reports_already_owned : test unit :=
  s ← svc;
  _ ← unwrap (create s (b#"buk"));
  assert_code (create s (b#"buk")) CBucketAlreadyOwnedByYou.

Definition deleting_a_missing_bucket_is_no_such_bucket : test unit :=
  s ← svc;
  assert_code (delete s (b#"buk")) CNoSuchBucket.

Definition an_illegal_name_is_rejected_by_code : test unit :=
  s ← svc;
  assert_code (create s (b#"A")) CInvalidBucketName.

Definition list_buckets_reports_names_dates_and_owner : test unit :=
  s ← svc;
  _ ← unwrap (create s (b#"alpha"));
  _ ← unwrap (create s (b#"bravo"));
  out ← unwrap (buckets s);
  found ← unwrap_some (lbo_buckets out);
  _ ← assert (assert_eq (bk_name <$> found) [Some (b#"alpha"); Some (b#"bravo")]);
  _ ← for_each found (λ b, assert (after_epoch (bk_creation_date b)));
  owner ← unwrap_some (lbo_owner out);
  _ ← assert (assert_eq (ow_id owner) (Some (b#"aks3-root")));
  assert (assert_eq (ow_display_name owner) (Some (b#"aks3"))).

Definition an_empty_store_lists_an_empty_bucket_list : test unit :=
  s ← svc;
  out ← unwrap (buckets s);
  assert (assert_eq (length <$> lbo_buckets out) (Some 0)).

(** ** Conversions *)

Definition epoch_ms_converts_including_the_fraction : bool := asserts [
  assert_eq (epoch_ms_to_systemtime 1500) 1500%N;
  assert_eq (epoch_ms_to_systemtime 0) 0%N].

Definition an_out_of_range_timestamp_is_clamped_rather_than_panicking : bool :=
  match Timestamp_from (epoch_ms_to_systemtime u64_MAX), Timestamp_from (epoch_ms_to_systemtime MAX_TIMESTAMP_MS),
        Timestamp_from (epoch_ms_to_systemtime 0) with
  | Some clamped, Some latest, Some epoch => asserts [assert_eq clamped latest; (epoch <? clamped)%N]
  | _, _, _ => false
  end.

Definition the_page_budget_defaults_and_clamps : bool := asserts [
  assert_eq (page_size None) 1000%Z;
  assert_eq (page_size (Some 7%Z)) 7%Z;
  assert_eq (page_size (Some 0%Z)) 0%Z;
  assert_eq (page_size (Some 1000%Z)) 1000%Z;
  assert_eq (page_size (Some 5000%Z)) 1000%Z;
  assert_eq (page_size (Some 2147483647%Z)) 1000%Z;
  assert_eq (page_size (Some (-1)%Z)) 0%Z;
  assert_eq (page_size (Some (-2147483648)%Z)) 0%Z].

(** ** Framing *)

Definition aws_chunked_is_recognised_as_a_content_encoding_token : bool := asserts [
  declares_aws_chunked (b#"aws-chunked");
  declares_aws_chunked (b#"gzip, aws-chunked");
  declares_aws_chunked (b#"AWS-Chunked");
  declares_aws_chunked (b#"  aws-chunked  ");
  negb (declares_aws_chunked (b#"gzip"));
  negb (declares_aws_chunked [])].

(** The code a set of headers is refused with. *)
Definition refused (pairs : list (HeaderName * str)) : option S3ErrorCode :=
  match reject_contradictory_aws_chunked (header_map pairs) with Ok _ => None | Err err => Some (err_code err) end.

Definition a_request_that_does_not_announce_chunking_is_left_alone : bool := asserts [
  assert_eq (refused []) None;
  assert_eq (refused [(X_AMZ_CONTENT_SHA256, b#"e3b0c44298fc1c149afbf4c8996fb92427ae41e4649b934ca495991b7852b855")]) None].

Definition the_streaming_sentinels_are_accepted : bool := asserts [
  bool_decide (b#"STREAMING-AWS4-ECDSA-P256-SHA256-PAYLOAD" ∈ STREAMING_SENTINELS);
  bool_decide (b#"STREAMING-AWS4-ECDSA-P256-SHA256-PAYLOAD-TRAILER" ∈ STREAMING_SENTINELS);
  each STREAMING_SENTINELS (λ sentinel,
    assert_eq (refused [(CONTENT_ENCODING, b#"aws-chunked"); (X_AMZ_DECODED_CONTENT_LENGTH, b#"63");
                        (X_AMZ_CONTENT_SHA256, sentinel)]) None)].

Definition aws_chunked_with_a_non_streaming_sentinel_is_rejected : bool :=
  assert_eq (refused [(CONTENT_ENCODING, b#"aws-chunked"); (X_AMZ_DECODED_CONTENT_LENGTH, b#"63");
                      (X_AMZ_CONTENT_SHA256, b#"UNSIGNED-PAYLOAD")]) (Some InvalidRequest).

Definition either_announcing_header_alone_is_held_to_the_sentinel : bool := asserts [
  assert_eq (refused [(X_AMZ_DECODED_CONTENT_LENGTH, b#"63"); (X_AMZ_CONTENT_SHA256, b#"UNSIGNED-PAYLOAD")]) (Some InvalidRequest);
  assert_eq (refused [(X_AMZ_DECODED_CONTENT_LENGTH, b#"63")]) (Some InvalidRequest)].

Theorem service_bucket_tests_pass : asserts ([epoch_ms_converts_including_the_fraction;
  an_out_of_range_timestamp_is_clamped_rather_than_panicking; the_page_budget_defaults_and_clamps;
  aws_chunked_is_recognised_as_a_content_encoding_token; a_request_that_does_not_announce_chunking_is_left_alone;
  the_streaming_sentinels_are_accepted; aws_chunked_with_a_non_streaming_sentinel_is_rejected;
  either_announcing_header_alone_is_held_to_the_sentinel]
  ++ (passes <$> [bucket_ops_via_s3_trait; new_keeps_the_engine_it_was_given; create_reports_the_location;
  head_of_a_missing_bucket_is_no_such_bucket; creating_a_bucket_twice_reports_already_owned;
  deleting_a_missing_bucket_is_no_such_bucket; an_illegal_name_is_rejected_by_code;
  list_buckets_reports_names_dates_and_owner; an_empty_store_lists_an_empty_bucket_list])) = true.
Proof. by vm_compute. Qed.

(** ** Objects *)

(** A store with the bucket [buk], and with [hello world] at [k] in it. *)
Definition with_buk : test FsEngine.t := s ← svc; _ ← unwrap (create s (b#"buk")); mret s.
Definition with_hello : test FsEngine.t :=
  s ← with_buk; _ ← unwrap (send s (put (b#"k") (b#"hello world"))); mret s.

Definition object_roundtrip_via_s3_trait : test unit :=
  s ← with_buk;
  put ← unwrap (send s (req (put_input (b#"greet/hi.txt") (Some (blob (b#"hello world"))) (Some (b#"text/plain")) None)));
  _ ← assert (assert_eq (poo_e_tag put) (Some hello_world_etag));
  got ← unwrap (fetch s (get (b#"greet/hi.txt")));
  _ ← assert (assert_eq (goo_content_length got) (Some 11%Z));
  _ ← assert (assert_eq (goo_content_type got) (Some (b#"text/plain")));
  _ ← assert (assert_eq (drain (goo_body got)) (Some (b#"hello world")));
  _ ← unwrap (delete_object_req s (b#"greet/hi.txt"));
  r ← call (inspect s (head_object_req (b#"greet/hi.txt")));
  assert (match r with Err _ => true | Ok _ => false end).

Definition a_ranged_get_reports_and_sends_only_that_span : test unit :=
  s ← with_hello;
  got ← unwrap (fetch s (get_range (b#"k") (RangeInt 6 (Some 10%N))));
  _ ← assert (assert_eq (goo_content_range got) (Some (b#"bytes 6-10/11")));
  _ ← assert (assert_eq (goo_content_length got) (Some 5%Z));
  assert (assert_eq (drain (goo_body got)) (Some (b#"world"))).

Definition open_ended_and_suffix_ranges_both_resolve : test unit :=
  s ← with_hello;
  open ← unwrap (fetch s (get_range (b#"k") (RangeInt 6 None)));
  _ ← assert (assert_eq (goo_content_range open) (Some (b#"bytes 6-10/11")));
  _ ← assert (assert_eq (drain (goo_body open)) (Some (b#"world")));
  suffix ← unwrap (fetch s (get_range (b#"k") (RangeSuffix 5)));
  _ ← assert (assert_eq (goo_content_range suffix) (Some (b#"bytes 6-10/11")));
  assert (assert_eq (drain (goo_body suffix)) (Some (b#"world"))).

Definition an_unranged_get_reports_no_content_range : test unit :=
  s ← with_hello;
  got ← unwrap (fetch s (get (b#"k")));
  _ ← assert (bool_decide (goo_content_range got = None));
  assert (assert_eq (goo_content_length got) (Some 11%Z)).

Definition an_unsatisfiable_range_is_invalid_range : test unit :=
  s ← with_hello;
  assert_code (fetch s (get_range (b#"k") (RangeInt 5 (Some 2%N)))) CInvalidRange.

Definition getting_a_missing_key_is_no_such_key : test unit :=
  s ← with_buk;
  assert_code (fetch s (get (b#"k"))) CNoSuchKey.

Definition putting_into_a_missing_bucket_is_no_such_bucket : test unit :=
  s ← svc;
  assert_code (send s (put (b#"k") (b#"x"))) CNoSuchBucket.

Definition a_put_without_a_body_is_incomplete_body : test unit :=
  s ← with_buk;
  assert_code (send s (req (put_input (b#"k") None None None))) IncompleteBody.

Definition CRLF : str := [Byte.x0d; Byte.x0a].

Definition a_contradictory_chunked_put_is_rejected_and_stores_nothing : test unit :=
  s ← with_buk;
  let framed := b#"3f" ++ CRLF ++ b#"integrity checksums are computed by default since botocore 1.36" ++ CRLF
                ++ b#"0" ++ CRLF ++ CRLF in
  _ ← assert_code (send s (put_with_headers (b#"framed") framed
        [(CONTENT_ENCODING, b#"aws-chunked"); (X_AMZ_DECODED_CONTENT_LENGTH, b#"63");
         (X_AMZ_CONTENT_SHA256, b#"UNSIGNED-PAYLOAD")])) InvalidRequest;
  assert_code (inspect s (head_object_req (b#"framed"))) CNoSuchKey.

Definition a_legitimate_chunked_put_is_not_rejected : test unit :=
  s ← with_buk;
  _ ← unwrap (send s (put_with_headers (b#"trailered") (b#"hello world")
        [(CONTENT_ENCODING, b#"aws-chunked"); (X_AMZ_DECODED_CONTENT_LENGTH, b#"11");
         (X_AMZ_CONTENT_SHA256, b#"STREAMING-UNSIGNED-PAYLOAD-TRAILER")]));
  head ← unwrap (inspect s (head_object_req (b#"trailered")));
  assert (assert_eq (hoo_content_length head) (Some 11%Z)).

Definition user_metadata_and_content_type_survive_a_roundtrip : test unit :=
  s ← with_buk;
  let metadata := {[ b#"colour" := b#"blue" ]} in
  _ ← unwrap (send s (req (put_input (b#"k") (Some (blob (b#"hello world"))) (Some (b#"text/plain")) (Some metadata))));
  head ← unwrap (inspect s (head_object_req (b#"k")));
  _ ← assert (assert_eq (hoo_content_length head) (Some 11%Z));
  _ ← assert (assert_eq (hoo_content_type head) (Some (b#"text/plain")));
  _ ← assert (assert_eq (hoo_metadata head) (Some metadata));
  _ ← assert (after_epoch (hoo_last_modified head));
  got ← unwrap (fetch s (get (b#"k")));
  _ ← assert (assert_eq (goo_metadata got) (Some metadata));
  assert (after_epoch (goo_last_modified got)).

Definition an_undeclared_content_type_becomes_the_default : test unit :=
  s ← with_hello;
  head ← unwrap (inspect s (head_object_req (b#"k")));
  assert (assert_eq (hoo_content_type head) (Some (b#"application/octet-stream"))).

Definition heading_a_missing_key_is_no_such_key : test unit :=
  s ← with_buk;
  assert_code (inspect s (head_object_req (b#"k"))) CNoSuchKey.

Definition deleting_a_missing_key_succeeds : test unit :=
  s ← with_buk;
  unwrap (delete_object_req s (b#"k")).

Definition deleting_from_a_missing_bucket_is_no_such_bucket : test unit :=
  s ← svc;
  assert_code (delete_object_req s (b#"k")) CNoSuchBucket.

Definition a_multi_chunk_body_is_stored_as_one_object : test unit :=
  s ← with_buk;
  let chunks := [Ok (b#"hello "); Ok (b#"world")] in
  put ← unwrap (send s (req (put_input (b#"k") (Some chunks) None None)));
  _ ← assert (assert_eq (poo_e_tag put) (Some hello_world_etag));
  got ← unwrap (fetch s (get (b#"k")));
  assert (assert_eq (drain (goo_body got)) (Some (b#"hello world"))).

Definition a_body_that_fails_mid_stream_fails_the_put : test unit :=
  s ← with_buk;
  let chunks := [Ok (b#"hello "); Err ()] in
  r ← call (send s (req (put_input (b#"k") (Some chunks) None None)));
  _ ← assert (match r with Err _ => true | Ok _ => false end);
  assert_code (inspect s (head_object_req (b#"k"))) CNoSuchKey.

Theorem service_object_tests_pass : asserts (passes <$> [object_roundtrip_via_s3_trait;
  a_ranged_get_reports_and_sends_only_that_span; open_ended_and_suffix_ranges_both_resolve;
  an_unranged_get_reports_no_content_range; an_unsatisfiable_range_is_invalid_range;
  getting_a_missing_key_is_no_such_key; putting_into_a_missing_bucket_is_no_such_bucket;
  a_put_without_a_body_is_incomplete_body; a_contradictory_chunked_put_is_rejected_and_stores_nothing;
  a_legitimate_chunked_put_is_not_rejected; user_metadata_and_content_type_survive_a_roundtrip;
  an_undeclared_content_type_becomes_the_default; heading_a_missing_key_is_no_such_key;
  deleting_a_missing_key_succeeds; deleting_from_a_missing_bucket_is_no_such_bucket;
  a_multi_chunk_body_is_stored_as_one_object; a_body_that_fails_mid_stream_fails_the_put]) = true.
Proof. by vm_compute. Qed.

(** ** Listings *)

Definition list_v2_via_s3_trait : test unit :=
  s ← seeded [b#"a"; b#"d/x"; b#"d/y"];
  out ← unwrap (enumerate s (list_req None (Some (b#"/")) None None None));
  _ ← assert (assert_eq (keys_of out) (Some [b#"a"]));
  assert (assert_eq (prefixes_of out) (Some [b#"d/"])).

Definition a_listed_object_carries_size_etag_and_time : test unit :=
  s ← with_hello;
  out ← unwrap (enumerate s (list_req None None None None None));
  contents ← unwrap_some (lo_contents out);
  object ← unwrap_some (contents !! 0);
  _ ← assert (assert_eq (ob_key object) (Some (b#"k")));
  _ ← assert (assert_eq (ob_size object) (Some 11%Z));
  _ ← assert (assert_eq (ob_e_tag object) (Some hello_world_etag));
  assert (after_epoch (ob_last_modified object)).

Definition a_listing_echoes_the_request_back : test unit :=
  s ← seeded [b#"d/x"];
  out ← unwrap (enumerate s (list_req (Some (b#"d/")) (Some (b#"/")) None (Some (b#"d/")) (Some 7%Z)));
  _ ← assert (assert_eq (lo_name out) (Some (b#"buk")));
  _ ← assert (assert_eq (lo_prefix out) (Some (b#"d/")));
  _ ← assert (assert_eq (lo_delimiter out) (Some (b#"/")));
  _ ← assert (assert_eq (lo_max_keys out) (Some 7%Z));
  _ ← assert (assert_eq (lo_start_after out) (Some (b#"d/")));
  assert (assert_eq (keys_of out) (Some [b#"d/x"])).

Definition an_unbounded_request_defaults_to_a_thousand_keys : test unit :=
  s ← seeded [b#"a"];
  out ← unwrap (enumerate s (list_req None None None None None));
  assert (assert_eq (lo_max_keys out) (Some 1000%Z)).

Definition an_oversized_budget_is_capped_at_a_thousand : test unit :=
  s ← seeded [b#"a"];
  out ← unwrap (enumerate s (list_req None None None None (Some 5000%Z)));
  _ ← assert (assert_eq (lo_max_keys out) (Some 1000%Z));
  assert (assert_eq (keys_of out) (Some [b#"a"])).

Definition a_budget_of_zero_lists_nothing_and_is_not_truncated : test unit :=
  s ← seeded [b#"a"; b#"b"];
  out ← unwrap (enumerate s (list_req None None None None (Some 0%Z)));
  _ ← assert (assert_eq (keys_of out) (Some []));
  _ ← assert (assert_eq (lo_key_count out) (Some 0%Z));
  _ ← assert (assert_eq (lo_is_truncated out) (Some false));
  assert (bool_decide (lo_next_continuation_token out = None)).

Definition a_negative_budget_lists_nothing : test unit :=
  s ← seeded [b#"a"];
  out ← unwrap (enumerate s (list_req None None None None (Some (-1)%Z)));
  _ ← assert (assert_eq (keys_of out) (Some []));
  assert (assert_eq (lo_max_keys out) (Some 0%Z)).

Definition the_continuation_token_resumes_the_listing : test unit :=
  s ← seeded [b#"a"; b#"b"; b#"c"];
  first ← unwrap (enumerate s (list_req None None None None (Some 2%Z)));
  _ ← assert (assert_eq (keys_of first) (Some [b#"a"; b#"b"]));
  _ ← assert (assert_eq (lo_is_truncated first) (Some true));
  token ← unwrap_some (lo_next_continuation_token first);
  second ← unwrap (enumerate s (list_req None None (Some token) None (Some 2%Z)));
  _ ← assert (assert_eq (keys_of second) (Some [b#"c"]));
  _ ← assert (assert_eq (lo_is_truncated second) (Some false));
  _ ← assert (bool_decide (lo_next_continuation_token second = None));
  assert (assert_eq (lo_continuation_token second) (Some token)).

Definition key_count_counts_objects_and_folded_prefixes_together : test unit :=
  s ← seeded [b#"a"; b#"d/x"; b#"d/y"; b#"e/z"];
  out ← unwrap (enumerate s (list_req None (Some (b#"/")) None None None));
  _ ← assert (assert_eq (keys_of out) (Some [b#"a"]));
  _ ← assert (assert_eq (prefixes_of out) (Some [b#"d/"; b#"e/"]));
  _ ← assert (assert_eq (lo_key_count out) (Some 3%Z));
  page ← unwrap (enumerate s (list_req None (Some (b#"/")) None None (Some 2%Z)));
  _ ← assert (assert_eq (lo_key_count page) (Some 2%Z));
  assert (assert_eq (lo_is_truncated page) (Some true)).

Definition start_after_begins_the_page_past_that_key : test unit :=
  s ← seeded [b#"a"; b#"b"; b#"c"];
  out ← unwrap (enumerate s (list_req None None None (Some (b#"a")) None));
  assert (assert_eq (keys_of out) (Some [b#"b"; b#"c"])).

Definition an_empty_bucket_lists_empty_contents_and_prefixes : test unit :=
  s ← seeded [];
  out ← unwrap (enumerate s (list_req None None None None None));
  _ ← assert (assert_eq (keys_of out) (Some []));
  _ ← assert (assert_eq (prefixes_of out) (Some []));
  _ ← assert (assert_eq (lo_key_count out) (Some 0%Z));
  assert (assert_eq (lo_is_truncated out) (Some false)).

Definition listing_a_missing_bucket_is_no_such_bucket : test unit :=
  s ← svc;
  assert_code (enumerate s (list_req None None None None None)) CNoSuchBucket.

Theorem service_listing_tests_pass : asserts (passes <$> [list_v2_via_s3_trait;
  a_listed_object_carries_size_etag_and_time; a_listing_echoes_the_request_back;
  an_unbounded_request_defaults_to_a_thousand_keys; an_oversized_budget_is_capped_at_a_thousand;
  a_budget_of_zero_lists_nothing_and_is_not_truncated; a_negative_budget_lists_nothing;
  the_continuation_token_resumes_the_listing; key_count_counts_objects_and_folded_prefixes_together;
  start_after_begins_the_page_past_that_key; an_empty_bucket_lists_empty_contents_and_prefixes;
  listing_a_missing_bucket_is_no_such_bucket]) = true.
Proof. by vm_compute. Qed.
